(* ===== verification/_CoqProject ===== *)
-Q . S2P
Prelude.v
GoStrings.v
MrCoordinator.v
Json.v
MrWorker.v
MrWrites.v
MrJob.v
MrSystem.v
MrCorrect.v
MrProgress.v
MrOverlap.v
MrOverlapProgress.v
Labrpc.v
Persister.v
RaftPeer.v
ShardCtrler.v
ShardKV.v
CtrlCluster.v
Labgob.v
MrSockets.v
Gob.v
HarnessNet.v
CtrlHarness.v
RaftHarness.v
KvHarness.v
WireTypes.v
Messages.v
Client.v
Clerks.v
CtrlEndToEnd.v
KvClerk.v
ClerkProgress.v
CtrlProgress.v
KvClerkProgress.v
KvLinks.v
KvBed.v
RaftSnap.v
