(* ===== verification/Prelude.v ===== *)
(** * A verification of dist-kv-raft

The repository is a set of Go packages that build up to a sharded, replicated
key/value store, with the machinery to test it:

- [src/mr]: a MapReduce library, a coordinator that hands out tasks to workers
  over RPC and has unfinished tasks redone;
- [src/labrpc]: a simulated network that loses, delays and reorders requests,
  over which all the other parts talk;
- [src/labgob]: a wrapper of Go's encoder that warns of likely mistakes;
- [src/raft]: a Raft peer, the persister that survives its crashes, and the
  test bed that checks agreement;
- [src/shardctrler]: the controller that assigns shards to groups, replicated
  over Raft, its clerk, and its test bed;
- [src/shardkv]: the sharded store, its clerk and its test bed.

In the sources many bodies are replaced by the comment "Code hidden": most of
Raft, the handlers of the controller, the handlers and loops of the store.
They are not translated.  Where visible code calls them they are parameters of
the model, and what is needed of them is a named hypothesis.

** Files

- [Prelude] (this file): panics and process exits as [outcome], loops over
  slices ([for_each]), slices indexed by Go's [int], machine integers
  ([int32], [int64]), step machines ([steps], [run_labels]), and the shared
  lemmas and tactics.
- [GoStrings]: the parts of Go's [strings] and [strconv] the code uses.
- [MrCoordinator] ([coordinator.go], [rpc.go]): every handler as a function of
  the coordinator's state, and again as a thread cut where it reads or writes
  the state outside the lock; [sys_next] interleaves the threads.
- [Json], [MrWorker], [MrJob] ([worker.go]): the encoding of the intermediate
  files, the map and reduce tasks over a map of files, and the tasks of a job in
  any order.  [MrWrites]: several executions of one task, cut at every open and
  write.
- [MrSystem], [MrCorrect], [MrProgress] ([coordinator.go], [worker.go], [rpc.go]
  together): a step machine of the coordinator, its monitors, any number of
  worker processes that join and die, and the files; its invariant and what a
  job leaves; and that it can always finish.  There the handlers of the coordinator
  run one at a time; in [MrOverlap] and [MrOverlapProgress] they overlap, section by
  section, and a simulation by [MrSystem] carries its theorems over.  [MrSockets]: the
  socket files and published methods behind the calls ([server], [startServer], [call]).
- [Labrpc] ([labrpc.go]): ends, servers and services, and each request as a
  small machine that moves through [processReq].  [Client]: a program that calls
  through its ends, composed with the network.
- [Persister], [RaftPeer] ([persister.go], [raft.go]): byte slices are
  references into a heap, so that aliasing is visible; and the part of the
  peer whose code is given.
- [ShardCtrler] ([server.go], [common.go], [client.go] of [shardctrler]): the
  loop that applies operations, the requests that wait for them, and the
  channels between the two, one step per action; the clerk's retry loops.
  [CtrlCluster]: the servers together, over one log that grows as Raft promises.
  [CtrlEndToEnd], [CtrlProgress]: a client, the network and these servers in one
  machine; what a call of the clerk gets, and that it can return.
- [ShardKV] ([client.go], [common.go], [server.go] of [shardkv]): the clerk,
  and the part of the server whose code is given.
- [Clerks], [KvClerk], [ClerkProgress], [KvClerkProgress] (the two [client.go]): the
  clerks as programs on the network: the calls of the controller's clerk, the calls
  of the store's clerk that contain them, and that both can return.
- [Labgob] ([labgob.go]): the checks, over type graphs that may be cyclic.
  [WireTypes]: the message types of [raft.go], [common.go] and [server.go] as such a
  graph, and the methods that are called with them.  [Gob], [Messages]: what
  [encoding/gob] does with values, as its documentation has it, and the records of the
  models as values of the message types; the encoding around a remote call.
- [HarnessNet], [CtrlHarness], [RaftHarness] ([config.go] of [shardctrler] and
  [raft]): the test beds: connecting, crashing and starting servers, and the
  checks that decide whether a test passes.  [RaftSnap]: whole runs of the
  appliers that take snapshots, with restarts.
- [KvHarness], [KvLinks], [KvBed] ([config.go] of [shardkv]): the test bed of the
  store, groups of servers and a controller service on one network; the invariant
  of its ends and servers; and what it promises to a test.

** What the theorems show

- MapReduce: when the coordinator of a system of processes that join, fail and
  redo tasks says the job is done, the files hold for each key one line with all
  its values ([mapreduce_correct], over [job_correct]); while one worker lives the
  job can be finished ([mapreduce_can_finish]), and nothing panics
  ([mapreduce_no_fault]).  All this is about runs that are [careful]: no process stops
  in the middle of the second execution of a task that was already reported, or is about
  to be; [redo_loses_pairs] is a run that is not, and loses pairs.  The same holds when
  handlers overlap, in runs that are [orderly], that is, careful and without races
  ([overlapped_correct], [overlapped_can_finish], [overlapped_no_fault]);
  [overlapped_races] are runs with races that go wrong.  Executions of one task at
  the same time leave the files of one of them ([map_executions],
  [reduce_executions]).  Tasks are handed out once in every interleaving
  ([tasks_handed_out_once]); one call at a time, the coordinator refines a table
  of tasks ([serve_refines]).  [double_count_never_done] and [give_map_race] are
  reachable states in which the handlers' unlocked tests go wrong.  A worker
  is found at its address while it lives ([worker_sockets]); the call of [isExit] is
  never carried out ([isExit_not_published]).
- Network: at most one execution of a request, no invented reply
  ([at_most_once]); what a server that was replaced can still answer: nothing, unless
  its reply had passed the last check ([deleted_server_answers]); no loss when reliable
  ([reliable_no_failure]), and an answer can be had ([call_served]).
- Persister: a refinement to plain pairs of byte strings
  ([persisters_are_values]).
- Controller: each replica refines the state machine that runs a delivered
  operation once ([replica_state]); what is acknowledged was applied
  ([acknowledged_applied]); the loop does not block ([loop_never_blocks]);
  retries of [Move] are recognised, those of [Join] are not.  The servers agree
  ([service_agreement]), requests take effect in their order ([requests_in_order]),
  every server can answer in every state ([service_can_answer]), and a repeated query
  is acknowledged without an answer ([retry_not_answered]).  From the clerk through
  the network to the log and back, a call that returns has the answer of the state
  machine ([clerk_answered]); one of [Move] or [Query] is run exactly once by the servers,
  if the client uses no later time ([clerk_exactly_once]); and every call can return
  ([clerk_can_be_answered]).
- Store: the clerk asks the group that has the key ([Get_correct],
  [PutAppend_correct]).
- Clerks on the network: a call makes the requests its loops say, and what it
  returns is in the reply of a handler that was executed exactly once for its request
  ([ctrl_clerk_refines]), for the store by a server of the key's group, as long as nobody
  else connects the ends the clerk makes ([Get_over_network], [PutAppend_over_network]); it can
  return while there is a server that answers ([ctrl_clerk_can_return],
  [kv_clerk_can_return]).
- Encoder: [checkType] ends on cyclic types and sees all of them
  ([checkType_complete]); with the types of the program no operation ends the
  process ([wire_operations]), and every remote call names a handler that takes
  what it sends ([calls_dispatched]).  The time stamps silence the warnings
  ([server_never_warned]).  Values come back as they were sent, through a remote call
  ([remote_call_is_call]) and from a stream ([message_stream]).
- Test beds: the checks are sound ([applier_sound], [applierSnap_sound],
  [one_sound], [checkOneLeader_sound], [checklogs_exact]), the connections are
  those asked for ([links_mirror_connected], [partition_spec], [kv_requests],
  [kv_restart]), names have their shape ([randstring_shape]), and slices that are
  made too short are found ([make_config_bounds], [makeClient_bounds]).
  [client_served] carries a request of a clerk of the store's test bed through
  the network.

** Bounds

The clerks' [for] loops, which only end on a success, take a number of rounds
as fuel; their theorems show that a round with an accepting server is reached
with any larger fuel, or speak of every request sent within the fuel.  As programs on
the network they need none.  [checkType] takes fuel for the depth of its recursion,
and [checkType_complete] states how much is enough; the types of messages are unfolded
six levels deep, and [message_types_all] shows that there is no seventh.  The loops of
[perform_reduce] and of the JSON decoder run with the length of their input as fuel, which
[perform_reduce_groups] and [intermediate_roundtrip] show to be enough.  The polling loops of the Raft test
bed run for the number of rounds the code gives or, where the code watches the
clock, over a given list of observations.  All other definitions are total.
Integers are unbounded where the program only counts up from zero, and wrap where the code
has [int32] or [int64] counters.  Time stamps are integers.

** What is not modelled

Printing, clocks and sleeping; the hidden bodies.  Of Raft there is the contract that
the comments of [raft.go] state, as the steps of [CtrlCluster]: no elections, no log
replication, since their code is hidden.  Of [encoding/gob] there are values and their
parts, not the layout of bytes, which is a parameter with the law that what was written
is read; of [net/rpc] which methods are published, not its encoding.  The handlers of
the controller are parameters of [CtrlEndToEnd] with laws ([rpc_laws], [HandlerLaws]):
one call of [sendToRaftAndWait], for an operation of the request's client and time.
The servers of the store are not composed in this way: their loop, their duplicate
filter and the transfer of shards are hidden.  The listings of [src/README.md] are
sketches of the hidden bodies, as it says itself, and are not translated.

Goroutines are interleaved at the granularity of their critical sections and of the
unlocked accesses named in the files, with sequentially consistent memory.  In
[MrSystem] and [MrOverlap] a task touches its files in one step, or is stopped after a
part of it; [MrWrites] cuts tasks at every write, for the executions of one task.  A turn
of a monitor is one step, which may act on a flag it read earlier.  A message is one step
of an applier of Raft's test bed, though the code takes the lock several times for it.  A
time is its wall clock reading: the monotonic reading is not sent.  A clerk runs alone on the network with whatever else calls through it: two calls of one
clerk at the same time are not composed.  The lines that remain are the hidden bodies,
imports, printing, and copies of [randstring], [checkTimeout], [random_handles] and
[makeSeed] in the test beds, which are modelled once. *)

From stdpp Require Export base gmap sets list strings pretty numbers sorting.
From stdpp Require Import options.

(** ** Outcomes of Go code

A Go function either returns, or panics (a runtime error such as an index out
of range, which kills the process because nothing in this repository
recovers), or ends the process on purpose ([log.Fatal], [t.Fatal]). *)

Inductive fault : Type :=
| IndexOutOfRange
| NilDereference
| DivideByZero
| MakeNegative
| UnexportedField
| CloseOfClosed
| FatalExit (msg : string).

Global Instance fault_eq_dec : EqDecision fault.
Proof. solve_decision. Defined.

Inductive outcome (A : Type) : Type :=
| Ok (a : A)
| Crash (f : fault).
Arguments Ok {A} _.
Arguments Crash {A} _.

Global Instance outcome_eq_dec {A} `{EqDecision A} : EqDecision (outcome A).
Proof. solve_decision. Defined.

Definition bind {A B} (m : outcome A) (f : A → outcome B) : outcome B :=
  match m with
  | Ok a => f a
  | Crash e => Crash e
  end.

Declare Scope go_scope.
Delimit Scope go_scope with go.
Notation "'let*' x := m 'in' k" := (bind m (λ x, k))
  (at level 10, x pattern, m at level 200, k at level 200,
   format "'[v' 'let*'  x  :=  m  'in' '/' k ']'") : go_scope.
Open Scope go_scope.

Definition is_ok {A} (m : outcome A) : bool :=
  match m with Ok _ => true | Crash _ => false end.

(** Run a fallible body over a slice, left to right, stopping at a fault: the
shape of every [for i := range l] loop whose body may fail. *)
Fixpoint for_each {A S} (body : S → A → outcome S) (l : list A) (s : S) : outcome S :=
  match l with
  | [] => Ok s
  | a :: l => let* s := body s a in for_each body l s
  end.

(** ** Slices indexed by Go's signed [int] *)

Definition index {A} (l : list A) (i : Z) : outcome A :=
  if decide (0 ≤ i)%Z then
    match l !! Z.to_nat i with
    | Some a => Ok a
    | None => Crash IndexOutOfRange
    end
  else Crash IndexOutOfRange.

Definition set_index {A} (l : list A) (i : Z) (a : A) : outcome (list A) :=
  if decide (0 ≤ i < Z.of_nat (length l))%Z then Ok (<[Z.to_nat i := a]> l)
  else Crash IndexOutOfRange.

Definition len {A} (l : list A) : Z := Z.of_nat (length l).

(** [make([]T, n)] filled with the zero value [a]. *)
Definition make_slice {A} (n : Z) (a : A) : outcome (list A) :=
  if decide (0 ≤ n)%Z then Ok (replicate (Z.to_nat n) a) else Crash MakeNegative.

(** [0, 1, ..., n-1], the values of [i] in [for i := 0; i < n; i++]. *)
Definition range (n : Z) : list Z := seqZ 0 n.

(** ** Machine integers *)

Definition wrap_signed (bits : Z) (z : Z) : Z :=
  ((z + 2 ^ (bits - 1)) `mod` 2 ^ bits - 2 ^ (bits - 1))%Z.
Definition int32 (z : Z) : Z := wrap_signed 32 z.
Definition int64 (z : Z) : Z := wrap_signed 64 z.

(** [strconv.Itoa]. *)
Definition Itoa (z : Z) : string := pretty z.

(** ** Reflexive transitive closure of a step relation *)

Inductive steps {S : Type} (R : S → S → Prop) : S → S → Prop :=
| steps_refl s : steps R s s
| steps_step s1 s2 s3 : steps R s1 s2 → R s2 s3 → steps R s1 s3.
Global Arguments steps_refl {S R} s.
Global Arguments steps_step {S R} s1 s2 s3.

(** A run given by the list of labels it takes, for the machines whose steps
are a partial function of a label. *)
Fixpoint run_labels {S L : Type} (f : S → L → option S) (s : S) (ls : list L) : option S :=
  match ls with
  | [] => Some s
  | l :: ls => match f s l with Some s' => run_labels f s' ls | None => None end
  end.

(** ** Automation

[go_simp] takes a hypothesis that says that a monadic computation returned
apart into the values of its steps, and clears what cannot happen. *)

Lemma bind_Ok_inv {A B} (m : outcome A) (f : A → outcome B) b :
  bind m f = Ok b → ∃ a, m = Ok a ∧ f a = Ok b.
Proof. destruct m; simpl; naive_solver. Qed.

Ltac go_simp :=
  repeat match goal with
  | H : bind _ _ = Ok _ |- _ =>
      apply bind_Ok_inv in H; destruct H as (? & ? & H)
  | H : Ok _ = Ok _ |- _ => injection H as H
  | H : Crash _ = Ok _ |- _ => discriminate H
  | H : Ok _ = Crash _ |- _ => discriminate H
  | x : (_ * _)%type |- _ => destruct x
  | _ => progress simplify_eq/=
  end.

(** Case analysis on the tests of the code, then [go_simp]. *)
Ltac go_cases := repeat (case_decide || case_match || case_bool_decide); go_simp.

Create HintDb go discriminated.

(** ** Slices *)

Section slices.
Context {A : Type}.
Implicit Types (l : list A) (i : Z) (a : A).

Lemma len_nonneg l : (0 ≤ len l)%Z.
Proof. unfold len. lia. Qed.

Lemma index_Ok l i a : index l i = Ok a ↔ (0 ≤ i)%Z ∧ l !! Z.to_nat i = Some a.
Proof. unfold index. case_decide; [|naive_solver]. case_match; naive_solver. Qed.

Lemma index_ok_bounds l i a : index l i = Ok a → (0 ≤ i < len l)%Z.
Proof.
  rewrite index_Ok. intros [? Hl]. apply lookup_lt_Some in Hl. unfold len. lia.
Qed.

Lemma index_in_range l i : (0 ≤ i < len l)%Z → ∃ a, index l i = Ok a.
Proof.
  unfold len. intros [??].
  destruct (lookup_lt_is_Some_2 l (Z.to_nat i)) as [a Ha]; [lia|].
  exists a. rewrite index_Ok. done.
Qed.

Lemma index_out_of_range l i :
  ¬ (0 ≤ i < len l)%Z → index l i = Crash IndexOutOfRange.
Proof.
  unfold index, len. intros Hi. case_decide; [|done].
  rewrite lookup_ge_None_2; [done|lia].
Qed.

Lemma set_index_Ok l i a l' :
  set_index l i a = Ok l' ↔ (0 ≤ i < len l)%Z ∧ l' = <[Z.to_nat i := a]> l.
Proof. unfold set_index, len. case_decide; naive_solver. Qed.

Lemma set_index_length l i a l' : set_index l i a = Ok l' → length l' = length l.
Proof. rewrite set_index_Ok. intros [_ ->]. apply length_insert. Qed.

Lemma set_index_in_range l i a :
  (0 ≤ i < len l)%Z → set_index l i a = Ok (<[Z.to_nat i := a]> l).
Proof. rewrite set_index_Ok. done. Qed.

Lemma index_insert l i a i' :
  (0 ≤ i < len l)%Z →
  index (<[Z.to_nat i := a]> l) i' = if decide (i' = i) then Ok a else index l i'.
Proof.
  intros Hi. unfold len in Hi. case_decide as Hd.
  - subst i'. apply index_Ok. split; [lia|]. apply list_lookup_insert_eq. lia.
  - unfold index. case_decide; [|done]. by rewrite list_lookup_insert_ne by lia.
Qed.

Lemma len_insert l (i : nat) a : len (<[i := a]> l) = len l.
Proof. unfold len. by rewrite length_insert. Qed.

Lemma make_slice_Ok n a l :
  make_slice n a = Ok l ↔ (0 ≤ n)%Z ∧ l = replicate (Z.to_nat n) a.
Proof. unfold make_slice. case_decide; naive_solver. Qed.

Lemma len_replicate n a : (0 ≤ n)%Z → len (replicate (Z.to_nat n) a) = n.
Proof. unfold len. rewrite length_replicate. lia. Qed.

End slices.

#[export] Hint Resolve len_nonneg index_in_range : go.

Lemma elem_of_range n i : i ∈ range n ↔ (0 ≤ i < n)%Z.
Proof. unfold range. rewrite elem_of_seqZ. lia. Qed.

Lemma range_NoDup n : NoDup (range n).
Proof. apply NoDup_seqZ. Qed.

(** ** Counting the [true]s of a slice of flags *)

Definition count_true (l : list bool) : nat := length (filter (λ b, b = true) l).

Lemma count_true_nil : count_true [] = 0.
Proof. done. Qed.

Lemma count_true_cons b l : count_true (b :: l) = (if b then 1 else 0) + count_true l.
Proof. unfold count_true. rewrite filter_cons. by destruct b. Qed.

Lemma count_true_le l : count_true l ≤ length l.
Proof. apply length_filter. Qed.

Lemma count_true_replicate n : count_true (replicate n false) = 0.
Proof. induction n as [|n IH]; [done|]. simpl. by rewrite count_true_cons. Qed.

Lemma count_true_set l i :
  l !! i = Some false → count_true (<[i := true]> l) = S (count_true l).
Proof.
  revert i. induction l as [|b l IH]; intros [|i] Hi; simplify_eq/=.
  - by rewrite !count_true_cons.
  - rewrite !count_true_cons, IH by done. lia.
Qed.

Lemma count_true_set_le l i : count_true (<[i := true]> l) ≤ S (count_true l).
Proof.
  revert i. induction l as [|b l IH]; intros [|i]; simpl; rewrite ?count_true_cons;
    [by (done || lia)..|destruct b; lia|specialize (IH i); lia].
Qed.

Lemma count_true_full l : count_true l = length l ↔ Forall (λ b, b = true) l.
Proof.
  induction l as [|b l IH]; [done|].
  rewrite count_true_cons, Forall_cons. pose proof (count_true_le l).
  destruct b; simpl; [rewrite <-IH; naive_solver lia|naive_solver lia].
Qed.

(** ** Loops *)

Section for_each_lemmas.
Context {A S : Type} (body : S → A → outcome S).

Lemma for_each_app l1 l2 s :
  for_each body (l1 ++ l2) s = let* s' := for_each body l1 s in for_each body l2 s'.
Proof.
  revert s. induction l1 as [|a l1 IH]; intros s; [done|].
  simpl. destruct (body s a); simpl; [apply IH|done].
Qed.

(** The loop rule: an invariant over what has been visited. *)
Lemma for_each_inv (P : list A → S → Prop) l s s' :
  P [] s →
  (∀ done a t t', P done t → a ∈ l → body t a = Ok t' → P (done ++ [a]) t') →
  for_each body l s = Ok s' → P l s'.
Proof.
  intros H0 Hstep. change (P l s') with (P ([] ++ l) s'). revert H0.
  assert (∀ a, a ∈ l → a ∈ l) as Hin by done. revert Hin.
  generalize l at 1 3 4 as k. generalize (@nil A) as d. revert s.
  intros s d k. revert s d.
  induction k as [|a k IH]; intros s d Hin Hd Hrun; simplify_eq/=.
  - by rewrite app_nil_r.
  - apply bind_Ok_inv in Hrun as (t & Ha & Hrun).
    rewrite cons_middle, app_assoc. apply (IH t); [set_solver| |done].
    apply (Hstep d a s t); [done|set_solver|done].
Qed.

(** The loop returns when each of its bodies does. *)
Lemma for_each_total (P : list A → S → Prop) l s :
  P [] s →
  (∀ done a t, P done t → a ∈ l → ∃ t', body t a = Ok t' ∧ P (done ++ [a]) t') →
  ∃ s', for_each body l s = Ok s' ∧ P l s'.
Proof.
  intros H0 Hstep. change (∃ s', for_each body l s = Ok s' ∧ P ([] ++ l) s').
  revert H0. assert (∀ a, a ∈ l → a ∈ l) as Hin by done. revert Hin.
  generalize l at 1 3 4 as k. generalize (@nil A) as d. revert s.
  intros s d k. revert s d.
  induction k as [|a k IH]; intros s d Hin Hd; simpl.
  - exists s. by rewrite app_nil_r.
  - destruct (Hstep d a s) as (t & Ht & HP); [done|set_solver|]. rewrite Ht. simpl.
    destruct (IH t (d ++ [a])) as (s' & ? & ?); [set_solver|done|].
    exists s'. split; [done|]. by rewrite cons_middle, app_assoc.
Qed.

(** The same, where the body may use what comes before and after. *)
Lemma for_each_total_split (P : list A → S → Prop) l s :
  P [] s →
  (∀ done a rest t, l = done ++ a :: rest → P done t → ∃ t', body t a = Ok t' ∧ P (done ++ [a]) t') →
  ∃ s', for_each body l s = Ok s' ∧ P l s'.
Proof.
  intros H0 Hstep.
  assert (∀ k d t, l = d ++ k → P d t → ∃ s', for_each body k t = Ok s' ∧ P l s') as Hgen.
  { induction k as [|a k IH]; intros d t El Hd; simpl.
    - exists t. split; [done|]. by rewrite El, app_nil_r.
    - destruct (Hstep d a k t El Hd) as (t' & -> & Ht'). simpl.
      apply (IH (d ++ [a])); [|done]. by rewrite <-app_assoc. }
  by apply (Hgen l []).
Qed.

End for_each_lemmas.

(** A loop that only tests. *)
Lemma for_each_check {A} (body : () → A → outcome ()) l :
  (∃ f, for_each body l () = Crash f ∧ ∃ a, a ∈ l ∧ body () a = Crash f) ∨
  (for_each body l () = Ok () ∧ ∀ a, a ∈ l → body () a = Ok ()).
Proof.
  induction l as [|a l IH]; simpl; [right; split; [done|]; by intros ? ?%not_elem_of_nil|].
  destruct (body () a) as [[]|f] eqn:Ha; simpl.
  - destruct IH as [(f & ? & a' & ? & ?)|[? ?]]; [left|right]; [exists f|]; (split; [done|]);
      [exists a'; set_solver|]. intros a' [->|?]%elem_of_cons; auto.
  - left. exists f. split; [done|]. exists a. set_solver.
Qed.

(** ** Invariants of step relations *)

Lemma steps_invariant {S} (R : S → S → Prop) (I : S → Prop) s s' :
  (∀ a b, I a → R a b → I b) → I s → steps R s s' → I s'.
Proof. intros Hpres Hs Hsteps. induction Hsteps; eauto. Qed.

Lemma steps_one {S} (R : S → S → Prop) a b : R a b → steps R a b.
Proof. intros. eapply steps_step; [apply steps_refl|done]. Qed.

Lemma steps_trans {S} (R : S → S → Prop) a b c :
  steps R a b → steps R b c → steps R a c.
Proof.
  intros Hab Hbc. induction Hbc as [|s1 s2 s3 _ IH Hstep]; [done|].
  eapply steps_step; [by apply IH|done].
Qed.

Lemma run_labels_steps {S L} (f : S → L → option S) (R : S → S → Prop) ls s s' :
  (∀ a l b, f a l = Some b → R a b) → run_labels f s ls = Some s' → steps R s s'.
Proof.
  intros HR. revert s. induction ls as [|l ls IH]; intros s Hrun; simplify_eq/=.
  - apply steps_refl.
  - destruct (f s l) as [t|] eqn:Ht; [|done].
    eapply steps_trans; [apply steps_one; eauto|auto].
Qed.

#[export] Hint Resolve steps_one steps_refl : go.

(** ** Machine integers *)

Lemma wrap_signed_small bits z :
  (0 < bits)%Z → (- 2 ^ (bits - 1) ≤ z < 2 ^ (bits - 1))%Z → wrap_signed bits z = z.
Proof.
  intros Hb Hz. unfold wrap_signed.
  assert (2 ^ bits = 2 * 2 ^ (bits - 1))%Z as E.
  { rewrite <-Z.pow_succ_r by lia. f_equal. lia. }
  rewrite Z.mod_small; lia.
Qed.

Lemma wrap_signed_bounds bits z :
  (0 < bits)%Z → (- 2 ^ (bits - 1) ≤ wrap_signed bits z < 2 ^ (bits - 1))%Z.
Proof.
  intros Hb. unfold wrap_signed.
  assert (2 ^ bits = 2 * 2 ^ (bits - 1))%Z as E.
  { rewrite <-Z.pow_succ_r by lia. f_equal. lia. }
  assert (0 < 2 ^ bits)%Z by (apply Z.pow_pos_nonneg; lia).
  pose proof (Z.mod_pos_bound (z + 2 ^ (bits - 1)) (2 ^ bits)). lia.
Qed.

(** ** Pools: a list in which one entry is replaced at a time *)

Section pools.
Context {A B : Type} (f : A → option B).

Lemma delete_insert_list (l : list A) i x : delete i (<[i := x]> l) = delete i l.
Proof. revert i. induction l as [|y l IH]; intros [|i]; f_equal/=; auto. Qed.

Lemma insert_Permutation (l : list A) i x y :
  l !! i = Some x → <[i := y]> l ≡ₚ y :: delete i l.
Proof.
  intros Hi. rewrite <-(delete_insert_list l i y). apply delete_Permutation.
  apply list_lookup_insert_eq. by eapply lookup_lt_Some.
Qed.

Lemma omap_lookup_split (l : list A) i x :
  l !! i = Some x → omap f l ≡ₚ option_list (f x) ++ omap f (delete i l).
Proof.
  intros Hi. rewrite (delete_Permutation l i x Hi) at 1. simpl. by destruct (f x).
Qed.

Lemma omap_insert_split (l : list A) i x y :
  l !! i = Some x → omap f (<[i := y]> l) ≡ₚ option_list (f y) ++ omap f (delete i l).
Proof. intros Hi. rewrite (insert_Permutation l i x y Hi). simpl. by destruct (f y). Qed.

(** An update that does not change what [f] sees of the entry. *)
Lemma omap_insert_same (l : list A) i x y :
  l !! i = Some x → f y = f x → omap f (<[i := y]> l) ≡ₚ omap f l.
Proof.
  intros Hi Hf. by rewrite (omap_insert_split l i x y Hi), (omap_lookup_split l i x Hi), Hf.
Qed.

(** An update that makes [f] see [b], where it saw nothing. *)
Lemma omap_insert_new (l : list A) i x y b :
  l !! i = Some x → f x = None → f y = Some b → omap f (<[i := y]> l) ≡ₚ b :: omap f l.
Proof.
  intros Hi Hx Hy.
  by rewrite (omap_insert_split l i x y Hi), (omap_lookup_split l i x Hi), Hx, Hy.
Qed.

(** An update after which [f] no longer sees [b]. *)
Lemma omap_insert_old (l : list A) i x y b :
  l !! i = Some x → f x = Some b → f y = None → omap f l ≡ₚ b :: omap f (<[i := y]> l).
Proof.
  intros Hi Hx Hy.
  by rewrite (omap_insert_split l i x y Hi), (omap_lookup_split l i x Hi), Hx, Hy.
Qed.

Lemma omap_insert_length (l : list A) i x y :
  l !! i = Some x →
  length (omap f (<[i := y]> l)) + length (option_list (f x))
  = length (omap f l) + length (option_list (f y)).
Proof.
  intros Hi. rewrite (omap_insert_split l i x y Hi), (omap_lookup_split l i x Hi).
  rewrite !length_app. lia.
Qed.

Lemma omap_insert_NoDup (l : list A) i x y :
  NoDup (omap f l) → l !! i = Some x → (∀ b, f y = Some b → b ∉ omap f l) →
  NoDup (omap f (<[i := y]> l)).
Proof.
  intros Hnd Hi Hy. rewrite (omap_insert_split l i x y Hi). rewrite (omap_lookup_split l i x Hi) in Hnd.
  apply NoDup_app in Hnd as (_ & _ & Hnd). destruct (f y) as [b|] eqn:Hb; [|done]. cbn.
  apply NoDup_cons. split; [|done]. specialize (Hy b eq_refl). contradict Hy.
  rewrite (omap_lookup_split l i x Hi). apply elem_of_app. by right.
Qed.

(** What another entry leaves behind. *)
Lemma elem_of_delete_ne (l : list A) i j x : l !! i = Some x → i ≠ j → x ∈ delete j l.
Proof.
  intros Hi Hne. apply list_elem_of_lookup. destruct (decide (i < j)).
  - exists i. by rewrite list_lookup_delete_lt.
  - exists (i - 1). rewrite list_lookup_delete_ge by lia. by replace (S (i - 1)) with i by lia.
Qed.

Lemma omap_index_inj (l : list A) i j x y b :
  NoDup (omap f l) → l !! i = Some x → l !! j = Some y → f x = Some b → f y = Some b → i = j.
Proof.
  intros Hnd Hi Hj Hx Hy. destruct (decide (i = j)) as [|Hne]; [done|]. exfalso. revert Hnd.
  rewrite (omap_lookup_split l j y Hj), Hy. cbn. rewrite NoDup_cons. intros [Hn _].
  apply Hn, list_elem_of_omap. exists x. split; [by eapply elem_of_delete_ne|done].
Qed.

Lemma elem_of_insert_inv (l : list A) i x y : x ∈ <[i := y]> l → x = y ∨ x ∈ l.
Proof.
  intros [j Hj]%list_elem_of_lookup. apply list_lookup_insert_Some in Hj.
  destruct Hj as [(_ & -> & _)|[_ Hj]]; [by left|right].
  by eapply list_elem_of_lookup_2.
Qed.

End pools.

Lemma omap_snoc_none {A B} (f : A → option B) (l : list A) x : f x = None → omap f (l ++ [x]) = omap f l.
Proof. intros Hx. rewrite omap_app. cbn. by rewrite Hx, app_nil_r. Qed.

Lemma omap_delete_none {A B} (f : A → option B) (l : list A) j x :
  l !! j = Some x → f x = None → omap f (delete j l) ≡ₚ omap f l.
Proof. intros Hj Hx. by rewrite (omap_lookup_split f l j x Hj), Hx. Qed.

Lemma omap_omap {A B C} (f : A → option B) (g : B → option C) (l : list A) :
  omap g (omap f l) = omap (λ x, f x ≫= g) l.
Proof. induction l as [|x l IH]; [done|]. cbn. destruct (f x) as [b|]; cbn; by rewrite IH. Qed.

Lemma omap_ext_elem {A B} (f g : A → option B) (l : list A) : (∀ x, x ∈ l → f x = g x) → omap f l = omap g l.
Proof.
  induction l as [|x l IH]; intros H; [done|]. cbn. rewrite IH by (intros; apply H; set_solver).
  by rewrite H by set_solver.
Qed.

Lemma omap_split {A B} (f g h : A → option B) (l : list A) :
  (∀ x, (f x = h x ∧ g x = None) ∨ (f x = None ∧ g x = h x)) → omap h l ≡ₚ omap f l ++ omap g l.
Proof.
  intros H. induction l as [|x l IH]; [done|]. cbn. destruct (H x) as [[-> ->]|[-> ->]], (h x); cbn;
    rewrite IH; [done|done|by rewrite Permutation_middle|done].
Qed.

Lemma omap_sublist {A B} (f g : A → option B) (l : list A) :
  (∀ x b, f x = Some b → g x = Some b) → omap f l `sublist_of` omap g l.
Proof.
  intros H. induction l as [|x l IH]; [done|]. cbn. destruct (f x) as [b|] eqn:Hf.
  - rewrite (H x b Hf). by apply sublist_skip.
  - destruct (g x); [by apply sublist_cons|done].
Qed.

Lemma range_succ n : (0 ≤ n)%Z → range (n + 1) = range n ++ [n].
Proof.
  intros Hn. unfold range. rewrite <-(Z2Nat.id n) by done.
  rewrite <-(Nat2Z.inj_add _ 1), Nat.add_1_r, seqZ_S. done.
Qed.

Lemma range_length n : length (range n) = Z.to_nat n.
Proof. apply length_seqZ. Qed.

Lemma range_split k m :
  (0 ≤ k < m)%Z → range m = range k ++ k :: seqZ (k + 1) (m - k - 1).
Proof.
  intros Hk. unfold range. replace m with (k + (m - k))%Z at 1 by lia. rewrite seqZ_app by lia. f_equal.
  rewrite seqZ_cons by lia. rewrite Z.add_0_l. f_equal; f_equal; lia.
Qed.

(** The rule for [for i := 0; i < m; i++]: an invariant of the index. *)
Lemma for_range_total {S} (body : S → Z → outcome S) (P : Z → S → Prop) m s :
  (0 ≤ m)%Z → P 0%Z s →
  (∀ j t, (0 ≤ j < m)%Z → P j t → ∃ t', body t j = Ok t' ∧ P (j + 1)%Z t') →
  ∃ s', for_each body (range m) s = Ok s' ∧ P m s'.
Proof.
  intros Hm H0 Hstep.
  assert (∀ k : nat, (Z.of_nat k ≤ m)%Z → ∃ s', for_each body (range (Z.of_nat k)) s = Ok s' ∧ P (Z.of_nat k) s')
    as Hk.
  { induction k as [|k IH]; intros Hle; [by exists s|].
    destruct IH as (t & Ht & HP); [lia|].
    rewrite Nat2Z.inj_succ, <-Z.add_1_r, range_succ by lia. rewrite for_each_app, Ht. simpl.
    destruct (Hstep (Z.of_nat k) t) as (t' & -> & HP'); [lia|done|]. by exists t'. }
  destruct (Hk (Z.to_nat m)) as (s' & Hs & HP); [lia|]. rewrite Z2Nat.id in Hs, HP by done. by exists s'.
Qed.

(** The rule applied to the loop of the goal. *)
Tactic Notation "for_range_inv" uconstr(P) "as" simple_intropattern(t) ident(Hrun) ident(HP) :=
  lazymatch goal with
  | |- context [for_each ?body (range ?m) ?s] =>
      destruct (for_range_total body P m s) as (t & Hrun & HP)
  end.

(** Storing [g i] at each [i] below [n] of a slice gives the table of [g]. *)
Lemma for_each_fill_upto {A} (g : Z → A) (l : list A) (k : nat) :
  k ≤ length l →
  for_each (λ l i, set_index l i (g i)) (range (Z.of_nat k)) l
  = Ok ((g <$> range (Z.of_nat k)) ++ drop k l).
Proof.
  induction k as [|k IH]; intros Hk; [done|].
  replace (Z.of_nat (S k)) with (Z.of_nat k + 1)%Z by lia.
  rewrite range_succ, for_each_app, IH by lia. simpl.
  destruct (drop k l) as [|x r] eqn:Hd.
  { apply (f_equal length) in Hd. rewrite length_drop in Hd. simpl in Hd. lia. }
  rewrite set_index_in_range; simpl.
  - f_equal. rewrite Nat2Z.id, fmap_app, <-app_assoc.
    assert (k = length (g <$> range (Z.of_nat k)) + 0) as E.
    { rewrite length_fmap, range_length. lia. }
    rewrite E at 1. rewrite insert_app_r. simpl. repeat f_equal.
    rewrite <-Nat.add_1_r, <-drop_drop, Hd. done.
  - unfold len. rewrite length_app, length_fmap, range_length. simpl. lia.
Qed.

Lemma for_each_fill {A} (g : Z → A) n (l : list A) :
  length l = Z.to_nat n → (0 ≤ n)%Z →
  for_each (λ l i, set_index l i (g i)) (range n) l = Ok (g <$> range n).
Proof.
  intros Hl Hn. rewrite <-(Z2Nat.id n) by done.
  rewrite for_each_fill_upto by lia. by rewrite drop_ge, app_nil_r by lia.
Qed.

(** ** Sorted lists by position *)

Lemma StronglySorted_by_lookup {A} (R : relation A) (l : list A) :
  (∀ i j a b, i < j → l !! i = Some a → l !! j = Some b → R a b) → StronglySorted R l.
Proof.
  induction l as [|x l IH]; intros H; constructor.
  - apply IH. intros i j a b Hij Ha Hb. apply (H (S i) (S j)); [lia|done..].
  - apply Forall_lookup. intros j b Hb. apply (H 0 (S j)); [lia|done..].
Qed.

Lemma StronglySorted_lookup {A} (R : relation A) (l : list A) i j a b :
  StronglySorted R l → i < j → l !! i = Some a → l !! j = Some b → R a b.
Proof.
  intros Hs. revert i j. induction Hs as [|x l Hs IH Hall]; intros i j Hij Ha Hb; [done|].
  destruct j as [|j]; [lia|]. destruct i as [|i]; simplify_eq/=.
  - rewrite Forall_forall in Hall. apply Hall. by eapply list_elem_of_lookup_2.
  - apply (IH i j); [lia|done..].
Qed.

Lemma StronglySorted_snoc {A} (R : relation A) (l : list A) x :
  StronglySorted R l → Forall (λ y, R y x) l → StronglySorted R (l ++ [x]).
Proof.
  intros Hs. induction Hs as [|y l Hs IH Hall]; intros Hx; simpl.
  - repeat constructor.
  - apply Forall_cons in Hx as [??]. constructor; [by apply IH|].
    apply Forall_app. split; [done|]. by constructor.
Qed.
