(* ===== verification/GoStrings.v ===== *)
(** * Go strings

A Go string is a sequence of bytes, here a [string] of 8-bit characters.  This
file has the operations the sources use on them ([+], slicing, [strings.LastIndex],
[strconv.Itoa] in file and server names) and what makes the names built with
them distinct. *)

From S2P Require Import Prelude.
From Stdlib Require Import Ascii.
From stdpp Require Import options.

(** ** Operations *)

(** [strings.LastIndex(s, sep)] for a one-byte separator; [-1] when absent. *)
Fixpoint LastIndexByte (s : string) (sep : ascii) : Z :=
  match s with
  | EmptyString => -1
  | String c s =>
      let i := LastIndexByte s sep in
      if decide (i = -1)%Z then if decide (c = sep) then 0 else -1 else (i + 1)%Z
  end.

(** [s[:n]] and [s[n:]], which panic outside [0 <= n <= len(s)]. *)
Fixpoint str_take (n : nat) (s : string) : string :=
  match n, s with
  | S n, String c s => String c (str_take n s)
  | _, _ => EmptyString
  end.
Fixpoint str_drop (n : nat) (s : string) : string :=
  match n, s with
  | S n, String c s => str_drop n s
  | _, s => s
  end.
Definition slice_to (s : string) (n : Z) : outcome string :=
  if decide (0 ≤ n ≤ Z.of_nat (String.length s))%Z then Ok (str_take (Z.to_nat n) s)
  else Crash IndexOutOfRange.
Definition slice_from (s : string) (n : Z) : outcome string :=
  if decide (0 ≤ n ≤ Z.of_nat (String.length s))%Z then Ok (str_drop (Z.to_nat n) s)
  else Crash IndexOutOfRange.

Definition dot_byte : ascii := ".".
Definition newline : string := String "010" EmptyString.

(** The bytes of a string, as numbers. *)
Fixpoint bytes_of (s : string) : list Z :=
  match s with
  | EmptyString => []
  | String c s => Z.of_N (N_of_ascii c) :: bytes_of s
  end.

(** [P] holds of every character. *)
Fixpoint str_all (P : ascii → bool) (s : string) : bool :=
  match s with
  | EmptyString => true
  | String c s => P c && str_all P s
  end.

Definition is_digit (c : ascii) : bool :=
  (bool_decide (48 ≤ N_of_ascii c)%N && bool_decide (N_of_ascii c ≤ 57)%N).

(** ** Lemmas *)

Lemma app_String c s1 s2 : String c s1 +:+ s2 = String c (s1 +:+ s2).
Proof. done. Qed.

Lemma app_empty_l s : "" +:+ s = s.
Proof. done. Qed.

Lemma app_empty_r s : s +:+ "" = s.
Proof. induction s as [|c s IH]; [done|]. by rewrite app_String, IH. Qed.

Lemma str_app_assoc s1 s2 s3 : (s1 +:+ s2) +:+ s3 = s1 +:+ (s2 +:+ s3).
Proof. induction s1 as [|c s IH]; [done|]. by rewrite !app_String, IH. Qed.

(** Strings built from literals, in normal form. *)
Create Rewrite HintDb str.
#[export] Hint Rewrite str_app_assoc app_String app_empty_l : str.

Lemma str_app_length s1 s2 : String.length (s1 +:+ s2) = String.length s1 + String.length s2.
Proof. induction s1 as [|c s IH]; [done|]. rewrite app_String. simpl. by rewrite IH. Qed.

Lemma str_app_inj s s1 s2 : s +:+ s1 = s +:+ s2 → s1 = s2.
Proof. induction s as [|c s IH]; [done|]. rewrite !app_String. intros [= ?]. auto. Qed.

Lemma str_all_app P s1 s2 : str_all P (s1 +:+ s2) = str_all P s1 && str_all P s2.
Proof. induction s1 as [|c s IH]; [done|]. rewrite app_String. simpl. by rewrite IH, andb_assoc. Qed.

(** Two strings split at the first separator. *)
Lemma split_at_sep (sep : ascii) s1 s2 t1 t2 :
  str_all (λ c, bool_decide (c ≠ sep)) s1 → str_all (λ c, bool_decide (c ≠ sep)) s2 →
  s1 +:+ String sep t1 = s2 +:+ String sep t2 → s1 = s2 ∧ t1 = t2.
Proof.
  revert s2. induction s1 as [|c s1 IH]; intros [|c' s2] H1 H2; rewrite ?app_String; simpl in *.
  - rewrite !app_empty_l. naive_solver.
  - rewrite app_empty_l. intros [= <- _]. apply andb_True in H2 as [H2 _].
    by apply bool_decide_unpack in H2.
  - rewrite app_empty_l. intros [= -> _]. apply andb_True in H1 as [H1 _].
    by apply bool_decide_unpack in H1.
  - intros [= <- E]. apply andb_True in H1 as [_ H1]. apply andb_True in H2 as [_ H2].
    destruct (IH s2 H1 H2 E) as [-> ->]. done.
Qed.

Lemma str_all_mono (P Q : ascii → bool) s :
  (∀ c, P c → Q c) → str_all P s → str_all Q s.
Proof.
  intros HPQ. induction s as [|c s IH]; [done|]. simpl.
  intros [H1 H2]%andb_True. apply andb_True. auto.
Qed.

Lemma digit_ne c sep : is_digit c → is_digit sep = false → c ≠ sep.
Proof. intros H1 H2 ->. by rewrite H2 in H1. Qed.

Lemma pretty_N_go_digits x s : str_all is_digit s → str_all is_digit (pretty_N_go x s).
Proof.
  revert s. induction (N.lt_wf_0 x) as [x _ IH]; intros s Hs.
  destruct (decide (x = 0)%N) as [->|Hx]; [by rewrite pretty_N_go_0|].
  rewrite pretty_N_go_step by lia. apply IH; [apply N.div_lt; lia|].
  simpl. apply andb_True. split; [|done].
  assert (x `mod` 10 < 10)%N as Hm by (apply N.mod_lt; lia).
  unfold pretty_N_char. by repeat case_match.
Qed.

(** The decimal form of a natural number is made of digits. *)
Lemma Itoa_digits z : (0 ≤ z)%Z → str_all is_digit (Itoa z).
Proof.
  intros Hz. unfold Itoa, pretty, pretty_Z. destruct z as [|p|p]; [done| |lia].
  unfold pretty, pretty_positive, pretty, pretty_N. case_decide; [done|].
  by apply pretty_N_go_digits.
Qed.

Lemma Itoa_no_sep sep z :
  (0 ≤ z)%Z → is_digit sep = false → str_all (λ c, bool_decide (c ≠ sep)) (Itoa z).
Proof.
  intros Hz Hs. eapply str_all_mono; [|by apply Itoa_digits].
  intros c Hc. apply bool_decide_pack. by apply digit_ne.
Qed.

Lemma Itoa_inj z1 z2 : Itoa z1 = Itoa z2 → z1 = z2.
Proof. apply pretty_Z_inj. Qed.

(** Names made of a prefix and two numbers are distinct. *)
Lemma two_numbers_inj prefix i r i' r' :
  (0 ≤ i)%Z → (0 ≤ i')%Z →
  prefix +:+ Itoa i +:+ "-" +:+ Itoa r = prefix +:+ Itoa i' +:+ "-" +:+ Itoa r' →
  i = i' ∧ r = r'.
Proof.
  intros Hi Hi' E%str_app_inj.
  destruct (split_at_sep "-"%char (Itoa i) (Itoa i') (Itoa r) (Itoa r')) as [E1 E2];
    [by apply Itoa_no_sep..|done|].
  split; by apply Itoa_inj.
Qed.

(** *** The last separator *)

Lemma LastIndexByte_none sep s :
  str_all (λ c, bool_decide (c ≠ sep)) s → LastIndexByte s sep = (-1)%Z.
Proof.
  induction s as [|c s IH]; [done|]. simpl. intros [H1 H2]%andb_True.
  rewrite IH by done. apply bool_decide_unpack in H1. by rewrite decide_True, decide_False.
Qed.

Lemma LastIndexByte_app sep s m :
  str_all (λ c, bool_decide (c ≠ sep)) m →
  LastIndexByte (s +:+ String sep m) sep = Z.of_nat (String.length s).
Proof.
  intros Hm. induction s as [|c s IH].
  - rewrite app_empty_l. simpl. rewrite LastIndexByte_none by done. by rewrite !decide_True.
  - rewrite app_String. simpl. rewrite IH. rewrite decide_False by lia. lia.
Qed.

Lemma str_take_app s t : str_take (String.length s) (s +:+ t) = s.
Proof. induction s as [|c s IH]; [by destruct t|]. rewrite app_String. simpl. by rewrite IH. Qed.

Lemma str_drop_app s t : str_drop (String.length s) (s +:+ t) = t.
Proof. induction s as [|c s IH]; [by destruct t|]. rewrite app_String. simpl. done. Qed.

Lemma slice_to_app s t : slice_to (s +:+ t) (Z.of_nat (String.length s)) = Ok s.
Proof.
  unfold slice_to. rewrite str_app_length, decide_True by lia.
  by rewrite Nat2Z.id, str_take_app.
Qed.

Lemma slice_from_app s t : slice_from (s +:+ t) (Z.of_nat (String.length s)) = Ok t.
Proof.
  unfold slice_from. rewrite str_app_length, decide_True by lia.
  by rewrite Nat2Z.id, str_drop_app.
Qed.

Lemma slice_to_negative s n : (n < 0)%Z → slice_to s n = Crash IndexOutOfRange.
Proof. intros. unfold slice_to. by rewrite decide_False by lia. Qed.

Lemma bytes_of_app s t : bytes_of (s +:+ t) = bytes_of s ++ bytes_of t.
Proof. induction s as [|c s IH]; [done|]. rewrite app_String. simpl. by rewrite IH. Qed.

Lemma bytes_of_bounds s b : b ∈ bytes_of s → (0 ≤ b < 256)%Z.
Proof.
  induction s as [|c s IH]; simpl; [by intros ?%not_elem_of_nil|].
  intros [->|?]%elem_of_cons; [|auto]. pose proof (N_ascii_bounded c). lia.
Qed.
