(* ===== verification/MrCoordinator.v ===== *)
(** * The MapReduce coordinator ([src/mr/coordinator.go], [src/mr/rpc.go])

[Coordinator] is the record of [coordinator.go]; each RPC handler is given
twice: as a whole (the effect of the handler when nothing else runs), and as
the sequence of atomic sections that the mutex makes of it, [tstep], because
several handlers read and write the coordinator outside the lock.  A running
coordinator is a pool of such threads, [sys_step].

Printing, the listening socket ([server]) and sleeping are left out. *)

From S2P Require Import Prelude.
From stdpp Require Import options.

Module Mr.

(** ** Messages ([rpc.go]) *)

Record WorkerArgs := { wa_Worker_id : Z; wa_Worker_addr : string }.

Record MapArgs := {
  ma_NReduce : Z; ma_Filename : string; ma_Maptask_id : Z; ma_Worker_id : Z }.

Record MapReply := { mr_NReduce : Z; mr_Filename : string; mr_Maptask_id : Z }.

Record ReduceArgs := {
  ra_Reducetask_id : Z; ra_Reducefiles : list string; ra_Worker_id : Z }.

Record ReduceReply := { rr_Reducetask_id : Z; rr_Reducefiles : list string }.

(** The zero values Go gives to a reply. *)
Definition MapReply0 : MapReply := {| mr_NReduce := 0; mr_Filename := ""; mr_Maptask_id := 0 |}.
Definition ReduceReply0 : ReduceReply := {| rr_Reducetask_id := 0; rr_Reducefiles := [] |}.

(** The error values the handlers return; [None] is Go's [nil]. *)
Inductive error := EOF | ErrMapNotCompleted | ErrorNotAllReduceComplete | ErrNotEveryoneFinish.

Global Instance error_eq_dec : EqDecision error.
Proof. solve_decision. Defined.

(** ** State *)

Record Coordinator := mkCoordinator {
  filenames : list string;
  counter_map : Z;
  counter_reduce : Z;
  nReduce : Z;
  done_map : Z;
  done_reduce : Z;
  worker_book : gmap Z string;
  map_complete : list bool;
  reduce_complete : list bool }.

Definition set_counter_map (c : Coordinator) (n : Z) : Coordinator :=
  mkCoordinator (filenames c) n (counter_reduce c) (nReduce c) (done_map c) (done_reduce c)
    (worker_book c) (map_complete c) (reduce_complete c).
Definition set_counter_reduce (c : Coordinator) (n : Z) : Coordinator :=
  mkCoordinator (filenames c) (counter_map c) n (nReduce c) (done_map c) (done_reduce c)
    (worker_book c) (map_complete c) (reduce_complete c).
Definition set_done_map (c : Coordinator) (n : Z) : Coordinator :=
  mkCoordinator (filenames c) (counter_map c) (counter_reduce c) (nReduce c) n (done_reduce c)
    (worker_book c) (map_complete c) (reduce_complete c).
Definition set_done_reduce (c : Coordinator) (n : Z) : Coordinator :=
  mkCoordinator (filenames c) (counter_map c) (counter_reduce c) (nReduce c) (done_map c) n
    (worker_book c) (map_complete c) (reduce_complete c).
Definition set_worker_book (c : Coordinator) (b : gmap Z string) : Coordinator :=
  mkCoordinator (filenames c) (counter_map c) (counter_reduce c) (nReduce c) (done_map c)
    (done_reduce c) b (map_complete c) (reduce_complete c).
Definition set_map_complete (c : Coordinator) (l : list bool) : Coordinator :=
  mkCoordinator (filenames c) (counter_map c) (counter_reduce c) (nReduce c) (done_map c)
    (done_reduce c) (worker_book c) l (reduce_complete c).
Definition set_reduce_complete (c : Coordinator) (l : list bool) : Coordinator :=
  mkCoordinator (filenames c) (counter_map c) (counter_reduce c) (nReduce c) (done_map c)
    (done_reduce c) (worker_book c) (map_complete c) l.

(** ** Construction and queries *)

Definition Done (c : Coordinator) : bool :=
  bool_decide (done_map c = len (filenames c)) && bool_decide (done_reduce c = nReduce c).

(** [MakeCoordinator]: both flag slices are made and then set to [false] entry
by entry. *)
Definition MakeCoordinator (files : list string) (nReduce : Z) : outcome Coordinator :=
  let* mc := make_slice (len files) false in
  let* rc := make_slice nReduce false in
  let* mc := for_each (λ l i, set_index l i false) (range (len files)) mc in
  let* rc := for_each (λ l i, set_index l i false) (range nReduce) rc in
  Ok (mkCoordinator files 0 0 nReduce 0 0 ∅ mc rc).

(** ** Handlers, as a whole *)

Definition RegisterWorker (c : Coordinator) (args : WorkerArgs) : Coordinator * option error :=
  (set_worker_book c (<[wa_Worker_id args := wa_Worker_addr args]> (worker_book c)), None).

(** The body of [GiveMapTask] between [Lock] and [Unlock]. *)
Definition give_map_locked (c : Coordinator) : outcome (Coordinator * MapReply) :=
  let* f := index (filenames c) (counter_map c) in
  Ok (set_counter_map c (counter_map c + 1),
      {| mr_NReduce := nReduce c; mr_Filename := f; mr_Maptask_id := counter_map c |}).

Definition GiveMapTask (c : Coordinator) (args : MapArgs)
    : outcome (Coordinator * MapReply * option error) :=
  if decide (counter_map c >= len (filenames c))%Z then Ok (c, MapReply0, Some EOF)
  else let* (c, r) := give_map_locked c in Ok (c, r, None).

(** ["mr-" + Itoa(i) + "-" + Itoa(r)]. *)
Definition intermediate (i r : Z) : string := "mr-" +:+ Itoa i +:+ "-" +:+ Itoa r.

(** The body of [GiveReduceTask] between [Lock] and [Unlock]. *)
Definition give_reduce_locked (c : Coordinator) : outcome (Coordinator * ReduceReply) :=
  let* files := make_slice (counter_map c) "" in
  let* files := for_each (λ l i, set_index l i (intermediate i (counter_reduce c)))
            (range (counter_map c)) files in
  Ok (set_counter_reduce c (counter_reduce c + 1),
      {| rr_Reducetask_id := counter_reduce c; rr_Reducefiles := files |}).

Definition GiveReduceTask (c : Coordinator) (args : ReduceArgs)
    : outcome (Coordinator * ReduceReply * option error) :=
  if decide (done_map c = len (filenames c)) then
    if decide (counter_reduce c >= nReduce c)%Z then Ok (c, ReduceReply0, Some EOF)
    else let* (c, r) := give_reduce_locked c in Ok (c, r, None)
  else Ok (c, {| rr_Reducetask_id := -1; rr_Reducefiles := [] |}, None).

Definition CheckLastMapDone (c : Coordinator) (args : MapArgs)
    : outcome (Coordinator * option error) :=
  let* b := index (map_complete c) (ma_Maptask_id args) in
  let* c := (if b then Ok c
       else let* l := set_index (map_complete c) (ma_Maptask_id args) true in
            let c := set_map_complete c l in
            Ok (set_done_map c (done_map c + 1))) in
  if decide (done_map c = len (filenames c)) then Ok (c, None)
  else Ok (c, Some ErrMapNotCompleted).

Definition CheckLastReduceDone (c : Coordinator) (args : ReduceArgs)
    : outcome (Coordinator * option error) :=
  let* b := index (reduce_complete c) (ra_Reducetask_id args) in
  let* c := (if b then Ok c
       else let* l := set_index (reduce_complete c) (ra_Reducetask_id args) true in
            let c := set_reduce_complete c l in
            Ok (set_done_reduce c (done_reduce c + 1))) in
  if decide (done_reduce c = nReduce c) then Ok (c, None)
  else Ok (c, Some ErrorNotAllReduceComplete).

Definition isExit (c : Coordinator) : option error :=
  if Done c then None else Some ErrNotEveryoneFinish.

(** ** Redoing a task on another worker

[callWorker] walks [worker_book] in the order Go's map iteration happens to
take, [order], and dials each address ([dial1], the first probe); [dial2] is the
second dial, after the lock is released.  The result holds the book that is
left, and the address the RPC is sent to. *)

Fixpoint probe (dial1 : string → bool) (order : list (Z * string)) (toDelete : list Z)
    : list Z * string :=
  match order with
  | [] => (toDelete, "")
  | (pid, addr) :: order =>
      if dial1 addr then (toDelete, addr) else probe dial1 order (toDelete ++ [pid])
  end.

Definition callWorker (dial1 dial2 : string → bool) (order : list (Z * string))
    (c : Coordinator) : outcome (Coordinator * string) :=
  let '(toDelete, addr) := probe dial1 order [] in
  let c := set_worker_book c (foldl (λ b pid, delete pid b) (worker_book c) toDelete) in
  if decide (addr = "") then Crash (FatalExit "No available workers in worker_book")
  else if dial2 addr then Ok (c, addr)
  else Crash (FatalExit "Dead connection during RPC::").

(** The request each monitor sends; [Worker_id] keeps its zero value. *)
Definition callWorkerRedoMap (c : Coordinator) (map_id : Z) : outcome MapArgs :=
  let* f := index (filenames c) map_id in
  Ok {| ma_NReduce := nReduce c; ma_Filename := f; ma_Maptask_id := map_id; ma_Worker_id := 0 |}.

Definition callWorkerRedoReduce (reduce_id : Z) (reduce_files : list string) : ReduceArgs :=
  {| ra_Reducetask_id := reduce_id; ra_Reducefiles := reduce_files; ra_Worker_id := 0 |}.

(** One turn of a monitor's loop: stop, or the request it sends to a worker. *)
Definition spawn_map_monitor (c : Coordinator) (task_id : Z) : outcome (option MapArgs) :=
  let* b := index (map_complete c) task_id in
  if b then Ok None else let* a := callWorkerRedoMap c task_id in Ok (Some a).

Definition spawn_reduce_monitor (c : Coordinator) (task_id : Z) (rfiles : list string)
    : outcome (option ReduceArgs) :=
  let* b := index (reduce_complete c) task_id in
  if b then Ok None else Ok (Some (callWorkerRedoReduce task_id rfiles)).

(** ** Handlers under the mutex: threads and their atomic sections

A handler is a thread whose constructor is its program counter: a state per
point where another goroutine can run.  What happens between [Lock] and
[Unlock] is one section, because the fields it reads and writes are written
only under the lock, or, for the flags, are not touched in a locked section.
Reads and writes of one word outside the lock are sections of their own. *)

Inductive thread :=
| GM0 (args : MapArgs)              (* GiveMapTask: before the test of the counter *)
| GM1 (args : MapArgs)              (* test passed, waiting for the lock *)
| GMret (r : MapReply) (e : option error)
| GR0 (args : ReduceArgs)           (* GiveReduceTask: before the test of done_map *)
| GR1 (args : ReduceArgs)           (* before the test of the counter *)
| GR2 (args : ReduceArgs)           (* waiting for the lock *)
| GRret (r : ReduceReply) (e : option error)
| CM0 (args : MapArgs)              (* CheckLastMapDone: before the flag is read *)
| CM1 (args : MapArgs)              (* the flag was read as false *)
| CM2 (args : MapArgs)              (* the flag is set, waiting for the lock *)
| CM3 (args : MapArgs)              (* before the test of done_map *)
| CMret (e : option error)
| CR0 (args : ReduceArgs)
| CR1 (args : ReduceArgs)
| CR2 (args : ReduceArgs)
| CR3 (args : ReduceArgs)
| CRret (e : option error)
| RW0 (args : WorkerArgs)           (* RegisterWorker *)
| RWret
| MapMonitor (task_id : Z)          (* spawn_map_monitor, between two sleeps *)
| ReduceMonitor (task_id : Z) (rfiles : list string)
| Stopped.

(** The program points a remote call starts at. *)
Definition is_call (t : thread) : bool :=
  match t with GM0 _ | GR0 _ | CM0 _ | CR0 _ | RW0 _ => true | _ => false end.

(** One section: the coordinator, where the thread is next, and the goroutines
it starts.  A returned thread and a monitor have none ([None]); a monitor's
turn is [mstep]. *)
Definition tstep (c : Coordinator) (t : thread)
    : option (outcome (Coordinator * thread * list thread)) :=
  match t with
  | GM0 a => Some (if decide (counter_map c >= len (filenames c))%Z
                   then Ok (c, GMret MapReply0 (Some EOF), []) else Ok (c, GM1 a, []))
  | GM1 _ => Some (let* (c, r) := give_map_locked c in
                   Ok (c, GMret r None, [MapMonitor (mr_Maptask_id r)]))
  | GR0 a => Some (if decide (done_map c = len (filenames c)) then Ok (c, GR1 a, [])
                   else Ok (c, GRret {| rr_Reducetask_id := -1; rr_Reducefiles := [] |} None, []))
  | GR1 a => Some (if decide (counter_reduce c >= nReduce c)%Z
                   then Ok (c, GRret ReduceReply0 (Some EOF), []) else Ok (c, GR2 a, []))
  | GR2 _ => Some (let* (c, r) := give_reduce_locked c in
                   Ok (c, GRret r None, [ReduceMonitor (rr_Reducetask_id r) (rr_Reducefiles r)]))
  | CM0 a => Some (let* b := index (map_complete c) (ma_Maptask_id a) in
                   Ok (c, (if b : bool then CM3 a else CM1 a), []))
  | CM1 a => Some (let* l := set_index (map_complete c) (ma_Maptask_id a) true in
                   Ok (set_map_complete c l, CM2 a, []))
  | CM2 a => Some (Ok (set_done_map c (done_map c + 1), CM3 a, []))
  | CM3 _ => Some (Ok (c, CMret (if decide (done_map c = len (filenames c)) then None
                                 else Some ErrMapNotCompleted), []))
  | CR0 a => Some (let* b := index (reduce_complete c) (ra_Reducetask_id a) in
                   Ok (c, (if b : bool then CR3 a else CR1 a), []))
  | CR1 a => Some (let* l := set_index (reduce_complete c) (ra_Reducetask_id a) true in
                   Ok (set_reduce_complete c l, CR2 a, []))
  | CR2 a => Some (Ok (set_done_reduce c (done_reduce c + 1), CR3 a, []))
  | CR3 _ => Some (Ok (c, CRret (if decide (done_reduce c = nReduce c) then None
                                 else Some ErrorNotAllReduceComplete), []))
  | RW0 a => Some (Ok (fst (RegisterWorker c a), RWret, []))
  | GMret _ _ | GRret _ _ | CMret _ | CRret _ | RWret
  | MapMonitor _ | ReduceMonitor _ _ | Stopped => None
  end.

(** A monitor's turn when its sleep ends.  A request that does not reach a
worker stops the process, as [callWorker] does. *)
Definition mstep (dial1 dial2 : string → bool) (order : list (Z * string))
    (c : Coordinator) (t : thread) : option (outcome (Coordinator * thread)) :=
  match t with
  | MapMonitor id =>
      Some (let* r := spawn_map_monitor c id in
            if r is Some _ then let* (c, _) := callWorker dial1 dial2 order c in Ok (c, t)
            else Ok (c, Stopped))
  | ReduceMonitor id files =>
      Some (let* r := spawn_reduce_monitor c id files in
            if r is Some _ then let* (c, _) := callWorker dial1 dial2 order c in Ok (c, t)
            else Ok (c, Stopped))
  | _ => None
  end.

Inductive sys :=
| Running (c : Coordinator) (ts : list thread)
| Crashed (f : fault).

(** What can happen next: a call arrives, thread [i] runs its next section, or
monitor [i] wakes up and finds the workers in some state. *)
Inductive label :=
| Arrive (t : thread)
| Run (i : nat)
| Wake (i : nat) (dial1 dial2 : string → bool) (order : list (Z * string)).

(** A possible iteration order of a Go map: its entries, in some order. *)
Definition map_order (m : gmap Z string) (order : list (Z * string)) : bool :=
  bool_decide (NoDup order.*1) && bool_decide (list_to_map order = m).

Definition sys_next (s : sys) (l : label) : option sys :=
  match s with
  | Crashed _ => None
  | Running c ts =>
      match l with
      | Arrive t => if is_call t then Some (Running c (ts ++ [t])) else None
      | Run i =>
          match ts !! i ≫= tstep c with
          | Some (Ok (c', t', new)) => Some (Running c' (<[i := t']> ts ++ new))
          | Some (Crash f) => Some (Crashed f)
          | None => None
          end
      | Wake i dial1 dial2 order =>
          if map_order (worker_book c) order then
            match ts !! i ≫= mstep dial1 dial2 order c with
            | Some (Ok (c', t')) => Some (Running c' (<[i := t']> ts))
            | Some (Crash f) => Some (Crashed f)
            | None => None
            end
          else None
      end
  end.

Definition sys_step (s s' : sys) : Prop := ∃ l, sys_next s l = Some s'.

(** The states a coordinator made for [files] and [n] can be in. *)
Definition reachable (files : list string) (n : Z) (s : sys) : Prop :=
  ∃ c, MakeCoordinator files n = Ok c ∧ steps sys_step (Running c []) s.

(** ** A server that runs one handler at a time *)

Inductive call :=
| CallGiveMap (a : MapArgs)
| CallGiveReduce (a : ReduceArgs)
| CallMapDone (a : MapArgs)
| CallReduceDone (a : ReduceArgs)
| CallRegister (a : WorkerArgs).

Inductive response :=
| RespMap (r : MapReply) (e : option error)
| RespReduce (r : ReduceReply) (e : option error)
| RespErr (e : option error).

Definition serve (c : Coordinator) (k : call) : outcome (Coordinator * response) :=
  match k with
  | CallGiveMap a => let* (c, r, e) := GiveMapTask c a in Ok (c, RespMap r e)
  | CallGiveReduce a => let* (c, r, e) := GiveReduceTask c a in Ok (c, RespReduce r e)
  | CallMapDone a => let* (c, e) := CheckLastMapDone c a in Ok (c, RespErr e)
  | CallReduceDone a => let* (c, e) := CheckLastReduceDone c a in Ok (c, RespErr e)
  | CallRegister a => let (c, e) := RegisterWorker c a in Ok (c, RespErr e)
  end.

(** The thread a call starts, the response a thread ends with, and the run of
one thread to its end while no other runs. *)
Definition entry (k : call) : thread :=
  match k with
  | CallGiveMap a => GM0 a
  | CallGiveReduce a => GR0 a
  | CallMapDone a => CM0 a
  | CallReduceDone a => CR0 a
  | CallRegister a => RW0 a
  end.

Definition response_of (t : thread) : option response :=
  match t with
  | GMret r e => Some (RespMap r e)
  | GRret r e => Some (RespReduce r e)
  | CMret e | CRret e => Some (RespErr e)
  | RWret => Some (RespErr None)
  | _ => None
  end.

Fixpoint alone (fuel : nat) (c : Coordinator) (t : thread) : outcome (Coordinator * thread) :=
  match fuel with
  | O => Ok (c, t)
  | S fuel =>
      match tstep c t with
      | None => Ok (c, t)
      | Some m => let* (c, t, _) := m in alone fuel c t
      end
  end.

(** A report names a task that was handed out, as the workers' reports do. *)
Definition call_ok (c : Coordinator) (k : call) : Prop :=
  match k with
  | CallMapDone a => (0 ≤ ma_Maptask_id a < counter_map c)%Z
  | CallReduceDone a => (0 ≤ ra_Reducetask_id a < counter_reduce c)%Z
  | _ => True
  end.

(** The well-formedness the handlers maintain when they do not overlap: the
counters are in range, each [done] counter counts the flags that are set, and
only tasks that were handed out are flagged. *)
Record wf (c : Coordinator) : Prop := {
  wf_map_len : len (map_complete c) = len (filenames c);
  wf_reduce_len : len (reduce_complete c) = nReduce c;
  wf_counter_map : (0 ≤ counter_map c ≤ len (filenames c))%Z;
  wf_counter_reduce : (0 ≤ counter_reduce c ≤ nReduce c)%Z;
  wf_reported : ∀ i, map_complete c !! i = Some true → (Z.of_nat i < counter_map c)%Z;
  wf_done_map : done_map c = Z.of_nat (count_true (map_complete c));
  wf_done_reduce : done_reduce c = Z.of_nat (count_true (reduce_complete c)) }.

(** ** What the coordinator promises: two phases of tasks

[tasks] is one phase: how many of its tasks were handed out (in order), and
which ones are finished. *)

Record tasks := mkTasks { task_total : Z; task_given : Z; task_finished : gset Z }.

Definition all_tasks (n : Z) : gset Z := list_to_set (range n).

Definition spec_give (t : tasks) : tasks * option Z :=
  if decide (task_given t < task_total t)%Z
  then (mkTasks (task_total t) (task_given t + 1) (task_finished t), Some (task_given t)) else (t, None).

Definition spec_finish (t : tasks) (i : Z) : tasks * bool :=
  let f := task_finished t ∪ {[i]} in
  (mkTasks (task_total t) (task_given t) f, bool_decide (f = all_tasks (task_total t))).

Definition spec_over (t : tasks) : bool := bool_decide (task_finished t = all_tasks (task_total t)).

Definition flags_set (l : list bool) : gset Z :=
  list_to_set (filter (λ i, l !! Z.to_nat i = Some true) (range (len l))).

(** The phases a coordinator represents. *)
Definition abs_map (c : Coordinator) : tasks :=
  mkTasks (len (filenames c)) (counter_map c) (flags_set (map_complete c)).
Definition abs_reduce (c : Coordinator) : tasks :=
  mkTasks (nReduce c) (counter_reduce c) (flags_set (reduce_complete c)).

(** The abstract coordinator: its state is the two phases; the response is
[None] for an error, and otherwise the task handed out, if any. *)
Inductive spec_resp := SpecTask (i : Z) | SpecWait | SpecRefuse | SpecPhaseOver | SpecPhaseOpen.

Definition spec_serve (m r : tasks) (k : call) : tasks * tasks * spec_resp :=
  match k with
  | CallGiveMap _ =>
      let (m', i) := spec_give m in
      (m', r, match i with Some i => SpecTask i | None => SpecRefuse end)
  | CallGiveReduce _ =>
      if spec_over m then
        let (r', i) := spec_give r in
        (m, r', match i with Some i => SpecTask i | None => SpecRefuse end)
      else (m, r, SpecWait)
  | CallMapDone a =>
      let (m', b) := spec_finish m (ma_Maptask_id a) in
      (m', r, if b then SpecPhaseOver else SpecPhaseOpen)
  | CallReduceDone a =>
      let (r', b) := spec_finish r (ra_Reducetask_id a) in
      (m, r', if b then SpecPhaseOver else SpecPhaseOpen)
  | CallRegister _ => (m, r, SpecPhaseOver)
  end.

(** What a response says in those terms. *)
Definition abs_resp (p : response) : spec_resp :=
  match p with
  | RespMap r None => SpecTask (mr_Maptask_id r)
  | RespReduce r None =>
      if decide (rr_Reducetask_id r = -1)%Z then SpecWait else SpecTask (rr_Reducetask_id r)
  | RespMap _ (Some _) | RespReduce _ (Some _) => SpecRefuse
  | RespErr None => SpecPhaseOver
  | RespErr (Some _) => SpecPhaseOpen
  end.

(** ** Handlers one at a time: what they compute *)

Lemma MakeCoordinator_Ok files n :
  (0 ≤ n)%Z →
  MakeCoordinator files n =
  Ok (mkCoordinator files 0 0 n 0 0 ∅
        (replicate (length files) false) (replicate (Z.to_nat n) false)).
Proof.
  intros Hn. unfold MakeCoordinator, make_slice.
  rewrite !decide_True by (done || apply len_nonneg). simpl.
  rewrite !for_each_fill by (done || apply len_nonneg || by rewrite length_replicate).
  simpl. repeat f_equal.
  - rewrite (const_fmap _ _ false), range_length by done. unfold len. by rewrite Nat2Z.id.
  - by rewrite (const_fmap _ _ false), range_length by done.
Qed.

Lemma MakeCoordinator_inv files n c :
  MakeCoordinator files n = Ok c →
  (0 ≤ n)%Z ∧
  c = mkCoordinator files 0 0 n 0 0 ∅
        (replicate (length files) false) (replicate (Z.to_nat n) false).
Proof.
  intros H. destruct (decide (0 ≤ n)%Z) as [Hn|Hn].
  - rewrite MakeCoordinator_Ok in H by done. by simplify_eq.
  - unfold MakeCoordinator, make_slice in H.
    rewrite decide_True in H by apply len_nonneg. simpl in H.
    by rewrite decide_False in H.
Qed.

Lemma give_map_locked_Ok c c' r :
  give_map_locked c = Ok (c', r) →
  (0 ≤ counter_map c < len (filenames c))%Z ∧
  index (filenames c) (mr_Maptask_id r) = Ok (mr_Filename r) ∧
  mr_Maptask_id r = counter_map c ∧ mr_NReduce r = nReduce c ∧
  c' = set_counter_map c (counter_map c + 1).
Proof.
  unfold give_map_locked. intros H. go_simp.
  split; [by eapply index_ok_bounds|]. done.
Qed.

Lemma give_reduce_locked_Ok c :
  (0 ≤ counter_map c)%Z →
  give_reduce_locked c =
  Ok (set_counter_reduce c (counter_reduce c + 1),
      {| rr_Reducetask_id := counter_reduce c;
         rr_Reducefiles := (λ i, intermediate i (counter_reduce c)) <$> range (counter_map c) |}).
Proof.
  intros Hc. unfold give_reduce_locked, make_slice. rewrite decide_True by done. simpl.
  by rewrite (for_each_fill (λ i, intermediate i (counter_reduce c))) by
    (done || by rewrite length_replicate).
Qed.

(** ** The flags as a set *)

Lemma elem_of_flags_set (l : list bool) i :
  i ∈ flags_set l ↔ (0 ≤ i)%Z ∧ l !! Z.to_nat i = Some true.
Proof.
  unfold flags_set. rewrite elem_of_list_to_set, list_elem_of_filter, elem_of_range.
  split; [naive_solver|]. intros [? Hl]. split; [done|].
  apply lookup_lt_Some in Hl. unfold len. lia.
Qed.

Lemma flags_set_set (l : list bool) i :
  (0 ≤ i < len l)%Z → flags_set (<[Z.to_nat i := true]> l) = flags_set l ∪ {[i]}.
Proof.
  unfold len. intros Hi. apply set_eq. intros j.
  rewrite elem_of_union, elem_of_singleton, !elem_of_flags_set, list_lookup_insert_Some.
  split.
  - intros [? [(?&_&_)|[? ?]]]; [right; lia|by left].
  - intros [[Hj Hl]| ->].
    + split; [done|]. destruct (decide (Z.to_nat i = Z.to_nat j)) as [E|E]; [|by right].
      left. split_and!; [done..|]. rewrite <-E. lia.
    + split; [lia|]. left. split_and!; [done..|]. lia.
Qed.

Lemma flags_set_already (l : list bool) i :
  (0 ≤ i)%Z → l !! Z.to_nat i = Some true → flags_set l ∪ {[i]} = flags_set l.
Proof. intros Hi Hl. assert (i ∈ flags_set l) by by apply elem_of_flags_set. set_solver. Qed.

Lemma flags_set_full l :
  flags_set l = all_tasks (len l) ↔ count_true l = length l.
Proof.
  rewrite count_true_full, Forall_lookup. unfold all_tasks. split.
  - intros E i b Hb. assert (Z.of_nat i ∈ flags_set l) as Hi.
    { rewrite E. apply elem_of_list_to_set, elem_of_range.
      apply lookup_lt_Some in Hb. unfold len. lia. }
    apply elem_of_flags_set in Hi as [_ Hi]. rewrite Nat2Z.id in Hi. congruence.
  - intros Hall. apply set_eq. intros i.
    rewrite elem_of_flags_set, elem_of_list_to_set, elem_of_range. unfold len. split.
    + intros [? Hl]. apply lookup_lt_Some in Hl. lia.
    + intros Hi. split; [lia|].
      destruct (lookup_lt_is_Some_2 l (Z.to_nat i)) as [b Hb]; [lia|].
      by rewrite Hb, (Hall _ _ Hb).
Qed.

Lemma done_counter_full l n m :
  len l = n → m = Z.of_nat (count_true l) → (m = n ↔ flags_set l = all_tasks n).
Proof. intros <- ->. rewrite flags_set_full. unfold len. lia. Qed.

(** One report, on either phase: the flag is set, and the counter follows. *)
Lemma report_flag (l : list bool) i (b : bool) :
  index l i = Ok b →
  flags_set (if b then l else <[Z.to_nat i := true]> l) = flags_set l ∪ {[i]} ∧
  count_true (if b then l else <[Z.to_nat i := true]> l)
  = count_true l + (if b then 0 else 1).
Proof.
  intros Hb. pose proof (index_ok_bounds _ _ _ Hb). apply index_Ok in Hb as [? Hb].
  destruct b; split; [by rewrite flags_set_already|lia|by apply flags_set_set|].
  rewrite count_true_set by done. lia.
Qed.

Lemma CheckLastMapDone_eq c a b :
  index (map_complete c) (ma_Maptask_id a) = Ok b →
  CheckLastMapDone c a =
  let l := if b then map_complete c else <[Z.to_nat (ma_Maptask_id a) := true]> (map_complete c) in
  let n := (done_map c + if b then 0 else 1)%Z in
  Ok (set_done_map (set_map_complete c l) n,
      if decide (n = len (filenames c)) then None else Some ErrMapNotCompleted).
Proof.
  intros Hb. unfold CheckLastMapDone. rewrite Hb. simpl.
  rewrite set_index_in_range by by eapply index_ok_bounds.
  destruct b, c; simpl; rewrite ?Z.add_0_r; by destruct (decide _).
Qed.

Lemma CheckLastReduceDone_eq c a b :
  index (reduce_complete c) (ra_Reducetask_id a) = Ok b →
  CheckLastReduceDone c a =
  let l := if b then reduce_complete c
           else <[Z.to_nat (ra_Reducetask_id a) := true]> (reduce_complete c) in
  let n := (done_reduce c + if b then 0 else 1)%Z in
  Ok (set_done_reduce (set_reduce_complete c l) n,
      if decide (n = nReduce c) then None else Some ErrorNotAllReduceComplete).
Proof.
  intros Hb. unfold CheckLastReduceDone. rewrite Hb. simpl.
  rewrite set_index_in_range by by eapply index_ok_bounds.
  destruct b, c; simpl; rewrite ?Z.add_0_r; by destruct (decide _).
Qed.

Lemma GiveMapTask_inv c a c' r e :
  GiveMapTask c a = Ok (c', r, e) →
  ((len (filenames c) ≤ counter_map c)%Z ∧ c' = c ∧ r = MapReply0 ∧ e = Some EOF) ∨
  ((counter_map c < len (filenames c))%Z ∧ e = None ∧ give_map_locked c = Ok (c', r)).
Proof.
  unfold GiveMapTask. case_decide; intros Hs; go_simp; [left|right]; split_and!; try done; lia.
Qed.

Lemma GiveReduceTask_inv c a c' r e :
  GiveReduceTask c a = Ok (c', r, e) →
  (done_map c ≠ len (filenames c) ∧ c' = c ∧ rr_Reducetask_id r = (-1)%Z ∧ e = None) ∨
  (done_map c = len (filenames c) ∧ (nReduce c ≤ counter_reduce c)%Z ∧ c' = c ∧ e = Some EOF) ∨
  (done_map c = len (filenames c) ∧ (counter_reduce c < nReduce c)%Z ∧ e = None ∧
   give_reduce_locked c = Ok (c', r)).
Proof.
  unfold GiveReduceTask. repeat case_decide; intros Hs; go_simp.
  - right; left. split_and!; try done; lia.
  - right; right. split_and!; try done; lia.
  - by left.
Qed.

Lemma report_length (l : list bool) i (b : bool) :
  len (if b then l else <[i := true]> l) = len l.
Proof. unfold len. destruct b; [done|]. by rewrite length_insert. Qed.

Lemma report_done (l : list bool) i (b : bool) n m :
  index l i = Ok b → len l = n → m = Z.of_nat (count_true l) →
  ((m + if b then 0 else 1)%Z = n ↔ flags_set l ∪ {[i]} = all_tasks n).
Proof.
  intros Hb Hn Hm. destruct (report_flag l i b Hb) as [<- Hcount].
  apply done_counter_full; [by rewrite report_length|].
  rewrite Hcount. destruct b; lia.
Qed.

(** ** Properties of the coordinator that runs one handler at a time *)

Lemma wf_complete_all_given c :
  wf c → done_map c = len (filenames c) → counter_map c = len (filenames c).
Proof.
  intros [] Hd. destruct (decide (len (filenames c) = 0)%Z) as [|Hne]; [lia|].
  assert (count_true (map_complete c) = length (map_complete c)) as Hc.
  { unfold len in *. lia. }
  apply count_true_full in Hc. rewrite Forall_lookup in Hc.
  destruct (lookup_lt_is_Some_2 (map_complete c) (length (map_complete c) - 1)) as [b Hb].
  { unfold len in *. lia. }
  pose proof (Hc _ _ Hb) as ->. apply wf_reported0 in Hb. unfold len in *. lia.
Qed.

(** Every call is answered and keeps the coordinator well formed. *)
Lemma serve_keeps_wf c k :
  wf c → call_ok c k → ∃ c' p, serve c k = Ok (c', p) ∧ wf c'.
Proof.
  intros [] Hk. destruct k as [a|a|a|a|a]; simpl in *.
  - unfold GiveMapTask. case_decide; simpl; [by eauto using Build_wf|].
    destruct (index_in_range (filenames c) (counter_map c)) as [f Hf]; [lia|].
    unfold give_map_locked. rewrite Hf. simpl.
    eexists _, _; split; [done|]. constructor; simpl; try lia.
    intros i Hi%wf_reported0. lia.
  - unfold GiveReduceTask. repeat case_decide; simpl; try by eauto using Build_wf.
    rewrite give_reduce_locked_Ok by lia. simpl.
    eexists _, _; split; [done|]. constructor; simpl; auto; lia.
  - destruct (index_in_range (map_complete c) (ma_Maptask_id a)) as [b Hb]; [lia|].
    rewrite (CheckLastMapDone_eq c a b Hb). simpl.
    destruct (report_flag _ _ _ Hb) as [_ Hcount].
    eexists _, _; split; [done|].
    constructor; simpl; rewrite ?report_length; try done; [|destruct b; lia].
    destruct b; [done|]. intros i. rewrite list_lookup_insert_Some.
    intros [(<-&_&_)|[_ Hi]]; [lia|auto].
  - destruct (index_in_range (reduce_complete c) (ra_Reducetask_id a)) as [b Hb]; [lia|].
    rewrite (CheckLastReduceDone_eq c a b Hb). simpl.
    destruct (report_flag _ _ _ Hb) as [_ Hcount].
    eexists _, _; split; [done|].
    constructor; simpl; rewrite ?report_length; try done. destruct b; lia.
  - eauto using Build_wf.
Qed.

(** Served one at a time, every call that reports only tasks handed out is
answered (no index is out of range), and leaves the coordinator well formed:
the counters stay in range, and [done_map] and [done_reduce] count exactly the
flags that are set. *)
Theorem serve_wf c k :
  wf c → call_ok c k → ∃ c' p, serve c k = Ok (c', p) ∧ wf c'.
Proof. apply serve_keeps_wf. Qed.

(** C14. Served one at a time, the coordinator refines the two-phase task
table: it hands out each task once and in order, starts the reduce phase only
when every map task is finished, and says that a phase is over exactly when
every task of it was reported. *)
Theorem serve_refines c k c' p :
  wf c → call_ok c k → serve c k = Ok (c', p) →
  spec_serve (abs_map c) (abs_reduce c) k = (abs_map c', abs_reduce c', abs_resp p).
Proof.
  intros [] Hk Hs. destruct k as [a|a|a|a|a]; simpl in *.
  - go_simp. unfold spec_give, abs_map. simpl.
    destruct (GiveMapTask_inv _ _ _ _ _ H) as [(?&->&->&->)|(?&->&Hg)].
    + by rewrite decide_False by lia.
    + apply give_map_locked_Ok in Hg as (_&_&->&_&->). by rewrite decide_True by lia.
  - go_simp. unfold spec_over. simpl.
    pose proof (done_counter_full _ _ _ wf_map_len0 wf_done_map0) as Hover.
    unfold spec_give; simpl.
    destruct (GiveReduceTask_inv _ _ _ _ _ H) as
      [(?&->&->&->)|[(?&?&->&->)|(?&?&->&Hg)]]; case_bool_decide; try tauto.
    + by rewrite decide_False by lia.
    + rewrite give_reduce_locked_Ok in Hg by lia. go_simp. rewrite decide_True by lia.
      by rewrite decide_False by lia.
  - destruct (index_in_range (map_complete c) (ma_Maptask_id a)) as [b Hb]; [lia|].
    rewrite (CheckLastMapDone_eq c a b Hb) in Hs. go_simp.
    destruct (report_flag _ _ _ Hb) as [Hset _].
    pose proof (report_done _ _ _ _ _ Hb wf_map_len0 wf_done_map0) as Hover.
    unfold spec_finish, abs_map, abs_reduce; simpl. rewrite Hset. f_equal.
    by case_decide; case_bool_decide; try tauto.
  - destruct (index_in_range (reduce_complete c) (ra_Reducetask_id a)) as [b Hb]; [lia|].
    rewrite (CheckLastReduceDone_eq c a b Hb) in Hs. go_simp.
    destruct (report_flag _ _ _ Hb) as [Hset _].
    pose proof (report_done _ _ _ _ _ Hb wf_reduce_len0 wf_done_reduce0) as Hover.
    unfold spec_finish, abs_map, abs_reduce; simpl. rewrite Hset. f_equal.
    by case_decide; case_bool_decide; try tauto.
  - by go_simp.
Qed.

(** A handler whose thread runs without interference does what the whole
handler does: same coordinator, same response, same fault.  Four sections are
enough for every handler. *)
Theorem serve_alone c k :
  match serve c k with
  | Ok (c', p) => ∃ t, alone 4 c (entry k) = Ok (c', t) ∧ response_of t = Some p
  | Crash f => alone 4 c (entry k) = Crash f
  end.
Proof.
  destruct k as [a|a|a|a|a]; simpl.
  - unfold GiveMapTask. case_decide; simpl; [by eauto|].
    destruct (give_map_locked c) as [[c' r]|f]; simpl; eauto.
  - unfold GiveReduceTask. case_decide; simpl; [|by eauto]. case_decide; simpl; [by eauto|].
    destruct (give_reduce_locked c) as [[c' r]|f]; simpl; eauto.
  - unfold CheckLastMapDone. destruct (index _ _) as [b|f]; simpl; [|done].
    destruct b; simpl; [by case_decide; simpl; eauto|].
    destruct (set_index _ _ _) as [l|f]; simpl; [|done]. by case_decide; simpl; eauto.
  - unfold CheckLastReduceDone. destruct (index _ _) as [b|f]; simpl; [|done].
    destruct b; simpl; [by case_decide; simpl; eauto|].
    destruct (set_index _ _ _) as [l|f]; simpl; [|done]. by case_decide; simpl; eauto.
  - eauto.
Qed.

(** When the map phase is over, a reduce task comes with the intermediate
files of all the map tasks, in order, whatever happened before. *)
Theorem reduce_task_files c a c' r :
  wf c → GiveReduceTask c a = Ok (c', r, None) → rr_Reducetask_id r ≠ (-1)%Z →
  rr_Reducetask_id r = counter_reduce c ∧
  rr_Reducefiles r
  = (λ i, intermediate i (rr_Reducetask_id r)) <$> range (len (filenames c)).
Proof.
  intros Hwf Hg Hid.
  destruct (GiveReduceTask_inv _ _ _ _ _ Hg) as [(?&_&?&_)|[(?&_&_&?)|(Hd&_&_&Hl)]]; try done.
  rewrite give_reduce_locked_Ok in Hl by (destruct Hwf; lia).
  rewrite (wf_complete_all_given c Hwf Hd) in Hl. by go_simp.
Qed.

(** [Done] is true exactly when every task of both phases was reported. *)
Theorem Done_spec c :
  wf c → Done c = spec_over (abs_map c) && spec_over (abs_reduce c).
Proof.
  intros []. unfold Done, spec_over, abs_map, abs_reduce. simpl. f_equal.
  - apply bool_decide_ext. by apply done_counter_full.
  - apply bool_decide_ext. by apply done_counter_full.
Qed.

(** ** The choice of a worker *)

Lemma probe_spec d1 order acc del addr :
  probe d1 order acc = (del, addr) →
  ∃ pre post, del = acc ++ pre.*1 ∧ Forall (λ w, d1 w.2 = false) pre ∧
    ((post = [] ∧ order = pre ∧ addr = "") ∨
     (∃ pid, order = pre ++ (pid, addr) :: post ∧ d1 addr = true)).
Proof.
  revert acc. induction order as [|[pid a] order IH]; intros acc H; simpl in H.
  - exists [], []. simplify_eq. rewrite app_nil_r. split_and!; auto.
  - destruct (d1 a) eqn:Ha.
    + simplify_eq. exists [], order. rewrite app_nil_r. split_and!; eauto.
    + destruct (IH _ H) as (pre & post & -> & Hdead & Hcase).
      exists ((pid, a) :: pre), post. split_and!; [|by constructor|].
      * by rewrite <-app_assoc.
      * destruct Hcase as [(->&->&->)|(pid' & -> & ?)]; [by left|right; eauto].
Qed.

Lemma foldl_delete_lookup (ks : list Z) (b : gmap Z string) k :
  foldl (λ b pid, delete pid b) b ks !! k = if decide (k ∈ ks) then None else b !! k.
Proof.
  revert b. induction ks as [|k' ks IH]; intros b; [by rewrite decide_False by set_solver|].
  cbn [foldl]. rewrite IH, lookup_delete. repeat case_decide; set_solver.
Qed.

Lemma map_order_lookup b order k a :
  map_order b order = true → (k, a) ∈ order ↔ b !! k = Some a.
Proof.
  unfold map_order. intros [H1 H2]%andb_prop. apply bool_decide_eq_true in H1, H2. subst b.
  by apply elem_of_list_to_map.
Qed.

(** [callWorker] sends the request to a registered worker that answered
the probe and stays in the book, and removes from the book only workers that
did not answer, whatever the order in which the book is walked. *)
Theorem callWorker_spec d1 d2 order c c' addr :
  map_order (worker_book c) order = true → callWorker d1 d2 order c = Ok (c', addr) →
  (∃ pid, worker_book c !! pid = Some addr ∧ d1 addr = true ∧
          worker_book c' !! pid = Some addr) ∧
  (∀ pid a, worker_book c !! pid = Some a → d1 a = true → worker_book c' !! pid = Some a) ∧
  worker_book c' ⊆ worker_book c.
Proof.
  intros Hord Hcall. unfold callWorker in Hcall.
  destruct (probe d1 order []) as [del a0] eqn:Hp.
  apply probe_spec in Hp as (pre & post & -> & Hdead & Hcase). simpl in Hcall.
  do 2 (case_match; try done). go_simp.
  assert (∀ pid a, worker_book c !! pid = Some a → d1 a = true →
    foldl (λ b pid, delete pid b) (worker_book c) pre.*1 !! pid = Some a) as Hkeep.
  { intros pid a Hb Ha. rewrite foldl_delete_lookup, decide_False; [done|].
    intros ([pid' a'] & -> & Hin)%list_elem_of_fmap. rewrite Forall_forall in Hdead.
    assert (worker_book c !! pid' = Some a') as Hb'.
    { apply (map_order_lookup _ _ _ _ Hord). destruct Hcase as [(_&->&_)|(?&->&_)]; set_solver. }
    specialize (Hdead _ Hin). simpl in *. congruence. }
  split_and!.
  - destruct Hcase as [(_&_&->)|(pid&->&Ha)]; [done|].
    assert (worker_book c !! pid = Some addr).
    { apply (map_order_lookup _ _ _ _ Hord). set_solver. }
    exists pid. auto.
  - done.
  - apply map_subseteq_spec. intros pid a. simpl. rewrite foldl_delete_lookup.
    by destruct (decide (pid ∈ pre.*1)).
Qed.

(** ** Handlers that overlap *)

(** The task a finished [GiveMapTask] (or [GiveReduceTask]) handed out. *)
Definition given_map (t : thread) : option Z :=
  match t with GMret r None => Some (mr_Maptask_id r) | _ => None end.
Definition given_reduce (t : thread) : option Z :=
  match t with
  | GRret r None => if decide (rr_Reducetask_id r = -1)%Z then None else Some (rr_Reducetask_id r)
  | _ => None
  end.

(** The reports that set their flag and have not counted it yet. *)
Definition pending_map (t : thread) : option Z :=
  match t with CM2 a => Some (ma_Maptask_id a) | _ => None end.
Definition pending_reduce (t : thread) : option Z :=
  match t with CR2 a => Some (ra_Reducetask_id a) | _ => None end.

(** What every interleaving maintains. *)
Record pool_inv (files : list string) (n : Z) (c : Coordinator) (ts : list thread) : Prop := {
  pi_files : filenames c = files;
  pi_nReduce : nReduce c = n;
  pi_map_len : len (map_complete c) = len files;
  pi_reduce_len : len (reduce_complete c) = n;
  pi_counter_map : (0 ≤ counter_map c)%Z;
  pi_counter_reduce : (0 ≤ counter_reduce c)%Z;
  pi_given_map : omap given_map ts ≡ₚ range (counter_map c);
  pi_given_reduce : omap given_reduce ts ≡ₚ range (counter_reduce c);
  pi_reply : ∀ r, GMret r None ∈ ts →
    mr_NReduce r = n ∧ index files (mr_Maptask_id r) = Ok (mr_Filename r);
  pi_done_map :
    (Z.of_nat (count_true (map_complete c))
     ≤ done_map c + Z.of_nat (length (omap pending_map ts)))%Z;
  pi_done_reduce :
    (Z.of_nat (count_true (reduce_complete c))
     ≤ done_reduce c + Z.of_nat (length (omap pending_reduce ts)))%Z }.


(** A section that hands out no task keeps [pool_inv] if it keeps the counters
and counts what it flags. *)
Lemma pool_inv_quiet files n c c' ts i t t' :
  ts !! i = Some t → pool_inv files n c ts →
  (filenames c', nReduce c', counter_map c', counter_reduce c')
  = (filenames c, nReduce c, counter_map c, counter_reduce c) →
  len (map_complete c') = len (map_complete c) →
  len (reduce_complete c') = len (reduce_complete c) →
  given_map t = None → given_map t' = None →
  given_reduce t = None → given_reduce t' = None →
  (Z.of_nat (count_true (map_complete c')) + Z.of_nat (length (option_list (pending_map t)))
     + done_map c
   ≤ Z.of_nat (count_true (map_complete c)) + Z.of_nat (length (option_list (pending_map t')))
     + done_map c')%Z →
  (Z.of_nat (count_true (reduce_complete c')) + Z.of_nat (length (option_list (pending_reduce t)))
     + done_reduce c
   ≤ Z.of_nat (count_true (reduce_complete c)) + Z.of_nat (length (option_list (pending_reduce t')))
     + done_reduce c')%Z →
  pool_inv files n c' (<[i := t']> ts).
Proof.
  intros Hi [] Heq Hlm Hlr Hg1 Hg1' Hg2 Hg2' Hm Hr. injection Heq as E1 E2 E3 E4.
  pose proof (omap_insert_length pending_map ts i t t' Hi).
  pose proof (omap_insert_length pending_reduce ts i t t' Hi).
  constructor; rewrite ?E1, ?E2, ?E3, ?E4, ?Hlm, ?Hlr; try done.
  - rewrite omap_insert_same by (done || congruence). done.
  - rewrite omap_insert_same by (done || congruence). done.
  - intros r [<-|Hin]%elem_of_insert_inv; [done|auto].
  - lia.
  - lia.
Qed.

(** Goroutines that were just started are at their first section. *)
Lemma pool_inv_spawn files n c ts t :
  given_map t = None → given_reduce t = None → pending_map t = None → pending_reduce t = None →
  pool_inv files n c ts → pool_inv files n c (ts ++ [t]).
Proof.
  intros H1 H2 H3 H4 []. constructor; try done.
  - by rewrite omap_app; simpl; rewrite H1, app_nil_r.
  - by rewrite omap_app; simpl; rewrite H2, app_nil_r.
  - intros r. rewrite elem_of_app, list_elem_of_singleton. intros [?|<-]; [auto|done].
  - by rewrite omap_app; simpl; rewrite H3, app_nil_r.
  - by rewrite omap_app; simpl; rewrite H4, app_nil_r.
Qed.

Lemma pool_inv_give_map files n c c' ts i a r :
  ts !! i = Some (GM1 a) → pool_inv files n c ts → give_map_locked c = Ok (c', r) →
  pool_inv files n c' (<[i := GMret r None]> ts).
Proof.
  intros Hi [] Hg. apply give_map_locked_Ok in Hg as (?&Hf&Hid&Hn&->).
  pose proof (omap_insert_length pending_map ts i _ (GMret r None) Hi).
  pose proof (omap_insert_length pending_reduce ts i _ (GMret r None) Hi).
  constructor; simpl in *; try (done || lia).
  - rewrite (omap_insert_new given_map ts i _ (GMret r None) _ Hi eq_refl eq_refl).
    rewrite pi_given_map0, Hid.
    rewrite range_succ by done. by rewrite Permutation_app_comm.
  - by rewrite omap_insert_same by done.
  - intros r' [[= ->]|Hin]%elem_of_insert_inv; [|auto]. split; [congruence|]. by rewrite <-pi_files0.
Qed.

Lemma pool_inv_give_reduce files n c c' ts i a r :
  ts !! i = Some (GR2 a) → pool_inv files n c ts → give_reduce_locked c = Ok (c', r) →
  pool_inv files n c' (<[i := GRret r None]> ts).
Proof.
  intros Hi [] Hg. rewrite give_reduce_locked_Ok in Hg by done.
  injection Hg as <- Hr.
  assert (rr_Reducetask_id r = counter_reduce c) as Hid by by rewrite <-Hr.
  pose proof (omap_insert_length pending_map ts i _ (GRret r None) Hi).
  pose proof (omap_insert_length pending_reduce ts i _ (GRret r None) Hi).
  constructor; simpl in *; try (done || lia).
  - by rewrite omap_insert_same by done.
  - rewrite (omap_insert_new given_reduce ts i _ (GRret r None) (counter_reduce c) Hi eq_refl);
      [|simpl; rewrite Hid; by rewrite decide_False by lia].
    rewrite pi_given_reduce0, range_succ by done. by rewrite Permutation_app_comm.
  - intros r' [?|Hin]%elem_of_insert_inv; [done|auto].
Qed.

Lemma pool_inv_run files n c c' ts i t t' new :
  ts !! i = Some t → tstep c t = Some (Ok (c', t', new)) →
  pool_inv files n c ts → pool_inv files n c' (<[i := t']> ts ++ new).
Proof.
  intros Hi Ht HI. destruct t; simpl in Ht; try done; injection Ht as Ht.
  - case_decide; go_simp; rewrite app_nil_r; eapply pool_inv_quiet; try done; simpl; lia.
  - go_simp. apply pool_inv_spawn; try done. by eapply pool_inv_give_map.
  - case_decide; go_simp; rewrite app_nil_r; eapply pool_inv_quiet; try done; simpl; lia.
  - case_decide; go_simp; rewrite app_nil_r; eapply pool_inv_quiet; try done; simpl; lia.
  - go_simp. apply pool_inv_spawn; try done. by eapply pool_inv_give_reduce.
  - go_simp. rewrite app_nil_r. destruct x; eapply pool_inv_quiet; try done; simpl; lia.
  - go_simp. rewrite app_nil_r. apply set_index_Ok in H as [? ->].
    pose proof (count_true_set_le (map_complete c) (Z.to_nat (ma_Maptask_id args))).
    eapply pool_inv_quiet; try done; simpl; [|lia..]. unfold len. by rewrite length_insert.
  - go_simp. rewrite app_nil_r. eapply pool_inv_quiet; try done; simpl; lia.
  - go_simp. rewrite app_nil_r. eapply pool_inv_quiet; try done; simpl; lia.
  - go_simp. rewrite app_nil_r. destruct x; eapply pool_inv_quiet; try done; simpl; lia.
  - go_simp. rewrite app_nil_r. apply set_index_Ok in H as [? ->].
    pose proof (count_true_set_le (reduce_complete c) (Z.to_nat (ra_Reducetask_id args))).
    eapply pool_inv_quiet; try done; simpl; [|lia..]. unfold len. by rewrite length_insert.
  - go_simp. rewrite app_nil_r. eapply pool_inv_quiet; try done; simpl; lia.
  - go_simp. rewrite app_nil_r. eapply pool_inv_quiet; try done; simpl; lia.
  - go_simp. rewrite app_nil_r. eapply pool_inv_quiet; try done; simpl; lia.
Qed.

Lemma callWorker_book d1 d2 order c c' addr :
  callWorker d1 d2 order c = Ok (c', addr) → ∃ b, c' = set_worker_book c b.
Proof. unfold callWorker. destruct (probe _ _ _). repeat case_match; intros; go_simp; eauto. Qed.

(** A monitor's turn changes at most the book of workers. *)
Lemma mstep_book d1 d2 order c t c' t' :
  mstep d1 d2 order c t = Some (Ok (c', t')) →
  ∃ b, c' = set_worker_book c b ∧ (t' = t ∨ t' = Stopped) ∧
       ((∃ id, t = MapMonitor id) ∨ (∃ id fs, t = ReduceMonitor id fs)).
Proof.
  assert (∀ c0 : Coordinator, c0 = set_worker_book c0 (worker_book c0)) as Hid by by intros [].
  destruct t; simpl; intros H; try done; injection H as H; go_simp.
  - destruct x; go_simp; [|by eauto 10].
    destruct (callWorker_book _ _ _ _ _ _ H1) as [b ->]. eauto 10.
  - destruct x; go_simp; [|by eauto 10].
    destruct (callWorker_book _ _ _ _ _ _ H1) as [b ->]. eauto 10.
Qed.

Lemma pool_inv_step files n c ts c' ts' :
  pool_inv files n c ts → sys_step (Running c ts) (Running c' ts') → pool_inv files n c' ts'.
Proof.
  intros HI [l Hl]. destruct l as [t|i|i d1 d2 order]; simpl in Hl.
  - destruct (is_call t) eqn:Ht; [|done]. simplify_eq.
    apply pool_inv_spawn; try done; by destruct t.
  - destruct (ts !! i) as [t|] eqn:Hi; simpl in Hl; [|done].
    destruct (tstep c t) as [[[[??]?]|?]|] eqn:Ht; simplify_eq. by eapply pool_inv_run.
  - destruct (map_order _ _); [|done]. destruct (ts !! i) as [t|] eqn:Hi; simpl in Hl; [|done].
    destruct (mstep d1 d2 order c t) as [[[??]|?]|] eqn:Ht; simplify_eq.
    apply mstep_book in Ht as (b & -> & Ht' & Ht).
    eapply pool_inv_quiet; try done; destruct Ht as [[? ->]|(?&?&->)], Ht' as [->| ->]; simpl; lia || done.
Qed.

Lemma reachable_pool_inv files n c ts :
  reachable files n (Running c ts) → pool_inv files n c ts.
Proof.
  intros (c0 & Hc0 & Hsteps). apply MakeCoordinator_inv in Hc0 as [Hn ->].
  apply (steps_invariant sys_step
    (λ s, match s with Running c ts => pool_inv files n c ts | Crashed _ => True end)) in Hsteps; [done|..].
  - intros [|] [|] ??; try done; [by eapply pool_inv_step|]. by destruct H0.
  - constructor; simpl; try done.
    + unfold len. by rewrite length_replicate.
    + by apply len_replicate.
    + by intros r ?%not_elem_of_nil.
    + by rewrite count_true_replicate.
    + by rewrite count_true_replicate.
Qed.

(** C13. Whatever the interleaving of handlers and monitors, the map tasks that
finished [GiveMapTask] calls handed out are [0, ..., counter_map - 1], each
exactly once and each with the name of its own file and the number of reduce
tasks; the reduce tasks handed out are [0, ..., counter_reduce - 1], each
exactly once. *)
Theorem tasks_handed_out_once files n c ts :
  reachable files n (Running c ts) →
  omap given_map ts ≡ₚ range (counter_map c) ∧
  omap given_reduce ts ≡ₚ range (counter_reduce c) ∧
  ∀ r, GMret r None ∈ ts →
    mr_NReduce r = n ∧ index files (mr_Maptask_id r) = Ok (mr_Filename r).
Proof. intros []%reachable_pool_inv. auto. Qed.

(** Whatever the interleaving, a report that set its flag is counted, or is
about to be: the number of flags set is at most the [done] counter plus the
reports that have not reached the lock yet.  (The counter can be larger; see
[double_count].) *)
Theorem done_never_undercounts files n c ts :
  reachable files n (Running c ts) →
  (Z.of_nat (count_true (map_complete c))
   ≤ done_map c + Z.of_nat (length (omap pending_map ts)))%Z ∧
  (Z.of_nat (count_true (reduce_complete c))
   ≤ done_reduce c + Z.of_nat (length (omap pending_reduce ts)))%Z.
Proof. intros []%reachable_pool_inv. auto. Qed.

(** ** What overlapping handlers break

The tests of [GiveMapTask], [GiveReduceTask], [CheckLastMapDone] and
[CheckLastReduceDone] are made outside the lock; the states below are reached by
calls the workers do make. *)

Definition map_args (id : Z) : MapArgs :=
  {| ma_NReduce := 0; ma_Filename := ""; ma_Maptask_id := id; ma_Worker_id := 0 |}.
Definition reduce_args (id : Z) : ReduceArgs :=
  {| ra_Reducetask_id := id; ra_Reducefiles := []; ra_Worker_id := 0 |}.

Lemma reachable_by_labels files n c ls s :
  MakeCoordinator files n = Ok c → run_labels sys_next (Running c []) ls = Some s →
  reachable files n s.
Proof.
  intros Hc Hrun. exists c. split; [done|].
  eapply run_labels_steps; [|done]. intros a l b Hl. by exists l.
Qed.

(** A race in [CheckLastMapDone]: two reports of the same map task (the
worker's own and the one of the worker that redid it) that both read the flag
before either sets it count the task twice.  With two input files this makes
[done_map] two while map task 1 is not complete, and [GiveReduceTask] hands out
a reduce task. *)
Theorem double_count :
  ∃ c ts, reachable ["a"; "b"] 1 (Running c ts) ∧
    done_map c = len (filenames c) ∧ map_complete c = [true; false] ∧
    ∃ r, GRret r None ∈ ts ∧ rr_Reducetask_id r = 0%Z.
Proof.
  eexists _, _. split; [|split_and!].
  - eapply (reachable_by_labels _ _ _
      [Arrive (GM0 (map_args 0)); Run 0; Run 0; Arrive (GM0 (map_args 0)); Run 2; Run 2;
       Arrive (CM0 (map_args 0)); Arrive (CM0 (map_args 0));
       Run 4; Run 5; Run 4; Run 5; Run 4; Run 5;
       Arrive (GR0 (reduce_args 0)); Run 6; Run 6; Run 6]); vm_compute; reflexivity.
  - reflexivity.
  - reflexivity.
  - eexists. split.
    + apply (list_elem_of_lookup_2 _ 6). reflexivity.
    + reflexivity.
Qed.

(** A race in [GiveMapTask]: two calls that both pass the test of
[counter_map] when one task is left make the second one index past the end of
[filenames], which stops the coordinator. *)
Theorem give_map_race : reachable ["a"] 1 (Crashed IndexOutOfRange).
Proof.
  eapply (reachable_by_labels _ _ _
    [Arrive (GM0 (map_args 0)); Arrive (GM0 (map_args 0)); Run 0; Run 1; Run 0; Run 1]);
  vm_compute; reflexivity.
Qed.

(** Once [done_map] is past the number of files it stays there. *)
Definition overshot (s : sys) : Prop :=
  match s with
  | Running c _ => (len (filenames c) < done_map c)%Z
  | Crashed _ => True
  end.

Lemma tstep_overshot c t c' t' new ts ts' :
  tstep c t = Some (Ok (c', t', new)) → overshot (Running c ts) → overshot (Running c' ts').
Proof.
  destruct t; simpl; intros Ht Ho; try done; injection Ht as Ht; go_cases; simpl; try lia.
  - apply give_map_locked_Ok in H as (_&_&_&_&->). done.
  - unfold give_reduce_locked in H. go_simp. done.
Qed.

Lemma sys_step_overshot s s' : overshot s → sys_step s s' → overshot s'.
Proof.
  destruct s as [c ts|]; [|by intros _ [[] ?]]. intros Ho [l Hl].
  destruct l as [t|i|i d1 d2 order]; simpl in Hl.
  - destruct (is_call t); by simplify_eq.
  - destruct (ts !! i) as [t|] eqn:Hi; simpl in Hl; [|done].
    destruct (tstep c t) as [[[[??]?]|?]|] eqn:Ht; simplify_eq; [|done].
    by eapply (tstep_overshot c t _ _ _ ts).
  - destruct (map_order _ _); [|done]. destruct (ts !! i) as [t|] eqn:Hi; simpl in Hl; [|done].
    destruct (mstep d1 d2 order c t) as [[[??]|?]|] eqn:Ht; simplify_eq; [|done].
    by apply mstep_book in Ht as (b & -> & _).
Qed.

(** The same race with one input file leaves a coordinator whose tasks are
all complete and whose [Done] is false, in that state and in every state that
follows it: [done_map] is two, and never equal to the number of files again. *)
Theorem double_count_never_done :
  ∃ c ts, reachable ["a"] 0 (Running c ts) ∧ map_complete c = [true] ∧
    ∀ c' ts', steps sys_step (Running c ts) (Running c' ts') → Done c' = false.
Proof.
  eexists _, _. split; [|split].
  - eapply (reachable_by_labels _ _ _
      [Arrive (GM0 (map_args 0)); Run 0; Run 0;
       Arrive (CM0 (map_args 0)); Arrive (CM0 (map_args 0));
       Run 2; Run 3; Run 2; Run 3; Run 2; Run 3]); vm_compute; reflexivity.
  - reflexivity.
  - intros c' ts' Hsteps. apply (steps_invariant sys_step overshot) in Hsteps.
    + unfold overshot in Hsteps. unfold Done. rewrite bool_decide_eq_false_2 by lia. done.
    + intros. by eapply sys_step_overshot.
    + vm_compute. reflexivity.
Qed.

(** ** Instances of the properties *)

Lemma MakeCoordinator_wf files n c : MakeCoordinator files n = Ok c → wf c.
Proof.
  intros [Hn ->]%MakeCoordinator_inv. constructor; simpl; rewrite ?count_true_replicate; try done.
  - unfold len. by rewrite length_replicate.
  - by apply len_replicate.
  - split; [done|apply len_nonneg].
  - intros i Hi. apply lookup_replicate in Hi. naive_solver.
Qed.

(** One input file, its map task handed out and reported, two reduce tasks. *)
Definition after_map : Coordinator :=
  mkCoordinator ["a"] 1 0 2 1 0 ∅ [true] [false; false].

Lemma after_map_wf : wf after_map.
Proof.
  constructor; try (vm_compute; by auto).
  intros [|i] Hi; [vm_compute; done|]. simplify_eq/=.
Qed.

Lemma serve_wf_witness :
  ∃ c' p, serve after_map (CallGiveReduce (reduce_args 0)) = Ok (c', p) ∧ wf c'.
Proof. apply (serve_wf after_map (CallGiveReduce (reduce_args 0)) after_map_wf I). Defined.

Lemma serve_refines_witness :
  ∃ c' p, serve after_map (CallMapDone (map_args 0)) = Ok (c', p) ∧
    spec_serve (abs_map after_map) (abs_reduce after_map) (CallMapDone (map_args 0))
    = (abs_map c', abs_reduce c', abs_resp p).
Proof.
  eexists _, _. split; [vm_compute; reflexivity|].
  apply (serve_refines after_map (CallMapDone (map_args 0)) _ _ after_map_wf).
  - vm_compute. split; [done|done].
  - vm_compute. reflexivity.
Defined.

Lemma tasks_handed_out_once_witness :
  ∃ c ts, reachable ["a"; "b"] 1 (Running c ts) ∧ omap given_map ts ≡ₚ range (counter_map c).
Proof.
  assert (∃ c ts, reachable ["a"; "b"] 1 (Running c ts) ∧ counter_map c = 2%Z) as (c & ts & Hr & _).
  { eexists _, _. split.
    - eapply (reachable_by_labels _ _ _
        [Arrive (GM0 (map_args 0)); Arrive (GM0 (map_args 0)); Run 0; Run 1; Run 1; Run 0]);
      vm_compute; reflexivity.
    - reflexivity. }
  exists c, ts. split; [done|]. apply (tasks_handed_out_once ["a"; "b"] 1 c ts Hr).
Defined.

Lemma done_never_undercounts_witness :
  ∃ c ts, reachable ["a"] 1 (Running c ts) ∧
    (Z.of_nat (count_true (map_complete c))
     ≤ done_map c + Z.of_nat (length (omap pending_map ts)))%Z.
Proof.
  assert (∃ c ts, reachable ["a"] 1 (Running c ts) ∧ map_complete c = [true]) as (c & ts & Hr & _).
  { eexists _, _. split.
    - eapply (reachable_by_labels _ _ _
        [Arrive (GM0 (map_args 0)); Run 0; Run 0; Arrive (CM0 (map_args 0)); Run 2; Run 2]);
      vm_compute; reflexivity.
    - reflexivity. }
  exists c, ts. split; [done|]. apply (done_never_undercounts ["a"] 1 c ts Hr).
Defined.

Lemma reduce_task_files_witness :
  ∃ c' r, GiveReduceTask after_map (reduce_args 0) = Ok (c', r, None) ∧
    rr_Reducefiles r = (λ i, intermediate i (rr_Reducetask_id r)) <$> range 1.
Proof.
  eexists _, _. split; [vm_compute; reflexivity|].
  refine (proj2 (reduce_task_files after_map (reduce_args 0) _ _ after_map_wf _ _)).
  - vm_compute. reflexivity.
  - done.
Defined.

Lemma Done_spec_witness :
  Done after_map = spec_over (abs_map after_map) && spec_over (abs_reduce after_map).
Proof. apply (Done_spec after_map after_map_wf). Defined.

Definition two_workers : Coordinator :=
  set_worker_book after_map {[ 7%Z := "dead"; 8%Z := "alive" ]}.
Definition answers (a : string) : bool := bool_decide (a = "alive").

Lemma callWorker_spec_witness :
  ∃ c' addr,
    callWorker answers answers [(7, "dead"); (8, "alive")]%Z two_workers = Ok (c', addr) ∧
    worker_book c' ⊆ worker_book two_workers.
Proof.
  eexists _, _. split; [vm_compute; reflexivity|].
  refine (proj2 (proj2 (callWorker_spec answers answers [(7, "dead"); (8, "alive")]%Z
    two_workers _ "alive" _ _))); vm_compute; reflexivity.
Defined.

End Mr.
