(* ===== verification/Json.v ===== *)
(** * The JSON the workers exchange ([encoding/json], as [src/mr/worker.go] uses it)

[bucket_by_intermediate_key] writes each [KeyValue] with [json.Encoder], and
[read_intermediates] reads them back with [json.Decoder].  This file models the
two on the values of that one struct type.  The encoder writes an object with the
fields Key and Value and a newline; in a string it escapes quotes, backslashes,
control characters, [<], [>] and [&], and U+2028 and U+2029, copies well-formed
UTF-8, and replaces any other byte by U+FFFD.  The decoder skips white space, and
reads an object of that shape; an escaped surrogate, which the encoder never
writes, is an error here.  So the round trip is exact on well-formed UTF-8. *)

From S2P Require Import Prelude GoStrings.
From Stdlib Require Import Ascii.
From stdpp Require Import options.

Module Json.

Record KeyValue := mkKV { Key : string; Value : string }.

Global Instance KeyValue_eq_dec : EqDecision KeyValue.
Proof. solve_decision. Defined.

(** ** Strings *)

Definition quote : ascii := "034".
Definition backslash : ascii := "092".

Definition hex_digit (n : N) : ascii :=
  ascii_of_N (if decide (n < 10)%N then 48 + n else 87 + n)%N.

Definition hex_value (c : ascii) : option N :=
  let n := N_of_ascii c in
  if decide (48 ≤ n ∧ n ≤ 57)%N then Some (n - 48)%N
  else if decide (97 ≤ n ∧ n ≤ 102)%N then Some (n - 87)%N
  else if decide (65 ≤ n ∧ n ≤ 70)%N then Some (n - 55)%N
  else None.

(** What the encoder writes for one byte of a string. *)
Definition escape_char (c : ascii) : string :=
  let n := N_of_ascii c in
  if decide (c = quote ∨ c = backslash) then String backslash (String c "")
  else if decide (n = 8)%N then String backslash "b"
  else if decide (n = 12)%N then String backslash "f"
  else if decide (n = 10)%N then String backslash "n"
  else if decide (n = 13)%N then String backslash "r"
  else if decide (n = 9)%N then String backslash "t"
  else if decide (n < 32 ∨ n = 60 ∨ n = 62 ∨ n = 38)%N then
    String backslash ("u00" +:+ String (hex_digit (n / 16)) (String (hex_digit (n mod 16)) ""))
  else String c "".

(** *** UTF-8 *)

Definition byte_in (lo hi : N) (c : ascii) : bool :=
  bool_decide (lo ≤ N_of_ascii c)%N && bool_decide (N_of_ascii c ≤ hi)%N.
Definition is_cont : ascii → bool := byte_in 128 191.
Definition is_ascii_byte : ascii → bool := byte_in 0 127.

(** The well-formed sequences of two, three and four bytes. *)
Definition utf8_2 (c c1 : ascii) : bool := byte_in 194 223 c && is_cont c1.
Definition utf8_3 (c c1 c2 : ascii) : bool :=
  ((byte_in 224 224 c && byte_in 160 191 c1) || (byte_in 225 236 c && is_cont c1) ||
   (byte_in 237 237 c && byte_in 128 159 c1) || (byte_in 238 239 c && is_cont c1)) && is_cont c2.
Definition utf8_4 (c c1 c2 c3 : ascii) : bool :=
  ((byte_in 240 240 c && byte_in 144 191 c1) || (byte_in 241 243 c && is_cont c1) ||
   (byte_in 244 244 c && byte_in 128 143 c1)) && is_cont c2 && is_cont c3.

(** [utf8.DecodeRuneInString]: the width of the sequence a string that does not
start with an ASCII byte starts with; [0] if it is not well formed. *)
Definition rune_width (s : string) : nat :=
  match s with
  | String c (String c1 s) =>
      if utf8_2 c c1 then 2
      else match s with
           | String c2 s =>
               if utf8_3 c c1 c2 then 3
               else match s with
                    | String c3 _ => if utf8_4 c c1 c2 c3 then 4 else 0
                    | _ => 0
                    end
           | _ => 0
           end
  | _ => 0
  end.

Fixpoint utf8_valid (s : string) : bool :=
  match s with
  | EmptyString => true
  | String c s1 =>
      if is_ascii_byte c then utf8_valid s1
      else match rune_width s, s1 with
           | 2, String _ s2 => utf8_valid s2
           | 3, String _ (String _ s3) => utf8_valid s3
           | 4, String _ (String _ (String _ s4)) => utf8_valid s4
           | _, _ => false
           end
  end.

(** U+2028 and U+2029, in UTF-8. *)
Definition line_sep (c c1 c2 : ascii) : bool :=
  bool_decide (c = "226"%char) && bool_decide (c1 = "128"%char) && byte_in 168 169 c2.

(** [\u] and four hexadecimal digits. *)
Definition unicode_escape (h : string) : string := String backslash (String "u" h).

Fixpoint escape (s : string) : string :=
  match s with
  | EmptyString => ""
  | String c s1 =>
      if is_ascii_byte c then escape_char c +:+ escape s1
      else match rune_width s, s1 with
           | 2, String c1 s2 => String c (String c1 (escape s2))
           | 3, String c1 (String c2 s3) =>
               if line_sep c c1 c2 then
                 unicode_escape ("202" +:+ String (hex_digit (N_of_ascii c2 mod 16)) "") +:+ escape s3
               else String c (String c1 (String c2 (escape s3)))
           | 4, String c1 (String c2 (String c3 s4)) =>
               String c (String c1 (String c2 (String c3 (escape s4))))
           | _, _ => unicode_escape "fffd" +:+ escape s1
           end
  end.

(** A rune below 65536 in UTF-8. *)
Definition encode_rune (v : N) : string :=
  if decide (v < 128)%N then String (ascii_of_N v) ""
  else if decide (v < 2048)%N then
    String (ascii_of_N (192 + v / 64)) (String (ascii_of_N (128 + v mod 64)) "")
  else
    String (ascii_of_N (224 + v / 4096))
      (String (ascii_of_N (128 + (v / 64) mod 64)) (String (ascii_of_N (128 + v mod 64)) "")).

Definition hex4 (h1 h2 h3 h4 : ascii) : option N :=
  a ← hex_value h1; b ← hex_value h2; c ← hex_value h3; d ← hex_value h4;
  Some (4096 * a + 256 * b + 16 * c + d)%N.

Definition push (p : string) (r : option (string * string)) : option (string * string) :=
  match r with Some (s, rest) => Some (p +:+ s, rest) | None => None end.

Definition char (c : ascii) : string := String c EmptyString.

(** Read up to the closing quote; [None] is a syntax error. *)
Fixpoint unescape (s : string) : option (string * string) :=
  match s with
  | EmptyString => None
  | String c s1 =>
      if decide (c = quote) then Some ("", s1)
      else if decide (c = backslash) then
        match s1 with
        | EmptyString => None
        | String e s2 =>
            if decide (e = quote ∨ e = backslash ∨ e = "/"%char) then push (char e) (unescape s2)
            else if decide (e = "b"%char) then push (char "008") (unescape s2)
            else if decide (e = "f"%char) then push (char "012") (unescape s2)
            else if decide (e = "n"%char) then push (char "010") (unescape s2)
            else if decide (e = "r"%char) then push (char "013") (unescape s2)
            else if decide (e = "t"%char) then push (char "009") (unescape s2)
            else if decide (e = "u"%char) then
              match s2 with
              | String h1 (String h2 (String h3 (String h4 s6))) =>
                  match hex4 h1 h2 h3 h4 with
                  | Some v => if decide (55296 ≤ v < 57344)%N then None
                              else push (encode_rune v) (unescape s6)
                  | None => None
                  end
              | _ => None
              end
            else None
        end
      else if is_ascii_byte c then
        if decide (N_of_ascii c < 32)%N then None else push (char c) (unescape s1)
      else match rune_width s, s1 with
           | 2, String c1 s2 => push (String c (char c1)) (unescape s2)
           | 3, String c1 (String c2 s3) => push (String c (String c1 (char c2))) (unescape s3)
           | 4, String c1 (String c2 (String c3 s4)) =>
               push (String c (String c1 (String c2 (char c3)))) (unescape s4)
           | _, _ => push (encode_rune 65533) (unescape s1)
           end
  end.

(** ** Objects *)

Definition quoted (s : string) : string := String quote (s +:+ String quote "").

(** [Encoder.Encode(&kv)]. *)
Definition Encode (kv : KeyValue) : string :=
  "{" +:+ quoted "Key" +:+ ":" +:+ quoted (escape (Key kv)) +:+
  "," +:+ quoted "Value" +:+ ":" +:+ quoted (escape (Value kv)) +:+ "}" +:+ String "010" "".

Fixpoint skip_space (s : string) : string :=
  match s with
  | String c s' =>
      if decide (c = " "%char ∨ c = "009"%char ∨ c = "010"%char ∨ c = "013"%char)
      then skip_space s' else s
  | EmptyString => EmptyString
  end.

(** The text after the prefix [p]. *)
Fixpoint expect (p s : string) : option string :=
  match p, s with
  | EmptyString, _ => Some s
  | String c p, String c' s => if decide (c = c') then expect p s else None
  | String _ _, EmptyString => None
  end.

Definition before_key : string := "{" +:+ quoted "Key" +:+ ":" +:+ String quote "".
Definition before_value : string := "," +:+ quoted "Value" +:+ ":" +:+ String quote "".

(** [Decoder.Decode(&kv)]: the value, and what is left of the stream; [None] is
an error, the end of the stream included. *)
Definition Decode (s : string) : option (KeyValue * string) :=
  s ← expect before_key (skip_space s);
  '(k, s) ← unescape s;
  s ← expect before_value s;
  '(v, s) ← unescape s;
  s ← expect "}" s;
  Some (mkKV k v, s).

(** The loop of [read_intermediates] over one file: decode until an error. *)
Fixpoint decode_loop (fuel : nat) (s : string) (kva : list KeyValue) : list KeyValue :=
  match fuel with
  | O => kva
  | S fuel =>
      match Decode s with
      | None => kva
      | Some (kv, s) => decode_loop fuel s (kva ++ [kv])
      end
  end.

Definition decode_all (s : string) (kva : list KeyValue) : list KeyValue :=
  decode_loop (S (String.length s)) s kva.

Definition encode_all (kvs : list KeyValue) : string :=
  foldr (λ kv s, Encode kv +:+ s) "" kvs.

Definition kv_valid (kv : KeyValue) : Prop := utf8_valid (Key kv) ∧ utf8_valid (Value kv).

Global Instance kv_valid_dec kv : Decision (kv_valid kv).
Proof. unfold kv_valid. apply _. Defined.

(** ** The round trip *)

Lemma unescape_escape_char c t :
  is_ascii_byte c = true → unescape (escape_char c +:+ t) = push (char c) (unescape t).
Proof. destruct c as [[] [] [] [] [] [] [] []]; intros H; (discriminate H || reflexivity). Qed.

Lemma not_ascii_special c :
  is_ascii_byte c = false → c ≠ quote ∧ c ≠ backslash.
Proof. intros H. split; intros ->; discriminate H. Qed.

(** What a width says of the bytes. *)
Lemma rune_width_inv c s :
  match rune_width (String c s) with
  | 2 => ∃ c1 s2, s = String c1 s2 ∧ utf8_2 c c1 = true
  | 3 => ∃ c1 c2 s3, s = String c1 (String c2 s3) ∧ utf8_2 c c1 = false ∧ utf8_3 c c1 c2 = true
  | 4 => ∃ c1 c2 c3 s4, s = String c1 (String c2 (String c3 s4)) ∧
           utf8_2 c c1 = false ∧ utf8_3 c c1 c2 = false ∧ utf8_4 c c1 c2 c3 = true
  | w => w = 0
  end.
Proof.
  destruct s as [|c1 s]; simpl; [done|]. destruct (utf8_2 c c1) eqn:H2; [by eauto|].
  destruct s as [|c2 s]; [done|]. destruct (utf8_3 c c1 c2) eqn:H3; [by eauto 10|].
  destruct s as [|c3 s]; [done|]. destruct (utf8_4 c c1 c2 c3) eqn:H4; [by eauto 10|done].
Qed.

Lemma unescape_line_sep c c1 c2 t :
  line_sep c c1 c2 = true →
  unescape (unicode_escape ("202" +:+ String (hex_digit (N_of_ascii c2 mod 16)) "") +:+ t)
  = push (String c (String c1 (char c2))) (unescape t).
Proof.
  unfold line_sep. intros [[Hc Hc1]%andb_prop Hc2]%andb_prop.
  apply bool_decide_eq_true in Hc, Hc1. subst.
  destruct c2 as [[] [] [] [] [] [] [] []]; (discriminate Hc2 || reflexivity).
Qed.

(** A sequence that is copied is read back. *)
Lemma unescape_copy c s t :
  is_ascii_byte c = false →
  match rune_width (String c s), s with
  | 2, String c1 _ =>
      unescape (String c (String c1 t)) = push (String c (char c1)) (unescape t)
  | 3, String c1 (String c2 _) =>
      unescape (String c (String c1 (String c2 t)))
      = push (String c (String c1 (char c2))) (unescape t)
  | 4, String c1 (String c2 (String c3 _)) =>
      unescape (String c (String c1 (String c2 (String c3 t))))
      = push (String c (String c1 (String c2 (char c3)))) (unescape t)
  | _, _ => True
  end.
Proof.
  intros Hc. destruct (not_ascii_special c Hc) as [Hq Hb]. pose proof (rune_width_inv c s) as Hw.
  destruct (rune_width (String c s)) as [|[|[|[|[|w]]]]]; try done.
  - destruct Hw as (c1 & s2 & -> & H2). cbn [unescape].
    rewrite decide_False, decide_False, Hc by done. simpl. by rewrite H2.
  - destruct Hw as (c1 & c2 & s3 & -> & H2 & H3). cbn [unescape].
    rewrite decide_False, decide_False, Hc by done. simpl. by rewrite H2, H3.
  - destruct Hw as (c1 & c2 & c3 & s4 & -> & H2 & H3 & H4). cbn [unescape].
    rewrite decide_False, decide_False, Hc by done. simpl. by rewrite H2, H3, H4.
Qed.

Lemma unescape_escape s rest :
  utf8_valid s → unescape (escape s +:+ String quote rest) = Some (s, rest).
Proof.
  remember (String.length s) as n eqn:Hn. revert s Hn.
  induction (lt_wf n) as [n _ IH]. intros [|c s] Hn Hv; [done|].
  cbn [escape]. cbn [utf8_valid] in Hv. destruct (is_ascii_byte c) eqn:Hc.
  - rewrite str_app_assoc, unescape_escape_char, (IH (String.length s)) by (done || (subst; simpl; lia)).
    done.
  - pose proof (unescape_copy c s) as Hcopy.
    destruct (rune_width (String c s)) as [|[|[|[|[|w]]]]]; try done.
    + destruct s as [|c1 s2]; [done|]. rewrite !app_String.
      rewrite Hcopy, (IH (String.length s2)) by (done || (subst; simpl; lia)). done.
    + destruct s as [|c1 [|c2 s3]]; try done. destruct (line_sep c c1 c2) eqn:Hl.
      * rewrite str_app_assoc, (unescape_line_sep c c1 c2) by done.
        rewrite (IH (String.length s3)) by (done || (subst; simpl; lia)). done.
      * rewrite !app_String.
        rewrite Hcopy, (IH (String.length s3)) by (done || (subst; simpl; lia)). done.
    + destruct s as [|c1 [|c2 [|c3 s4]]]; try done. rewrite !app_String.
      rewrite Hcopy, (IH (String.length s4)) by (done || (subst; simpl; lia)). done.
Qed.

Lemma expect_app p s : expect p (p +:+ s) = Some s.
Proof.
  induction p as [|c p IH]; [by destruct s|]. rewrite app_String. simpl.
  by rewrite decide_True by done.
Qed.

Lemma Encode_shape kv rest :
  Encode kv +:+ rest =
  before_key +:+ escape (Key kv) +:+ String quote
    (before_value +:+ escape (Value kv) +:+ String quote ("}" +:+ String "010" rest)).
Proof. unfold Encode, before_key, before_value, quoted. autorewrite with str. done. Qed.

Lemma skip_space_before_key s : skip_space (before_key +:+ s) = before_key +:+ s.
Proof. reflexivity. Qed.

(** Decoding what the encoder wrote leaves the newline and the rest. *)
Lemma Decode_Encode kv rest :
  kv_valid kv → Decode (Encode kv +:+ rest) = Some (kv, String "010" rest).
Proof.
  intros [Hk Hv]. rewrite Encode_shape. unfold Decode.
  rewrite skip_space_before_key, expect_app. cbn [mbind option_bind].
  rewrite unescape_escape by done. cbn [mbind option_bind].
  rewrite expect_app. cbn [mbind option_bind].
  rewrite unescape_escape by done. by destruct kv.
Qed.

(** The decoder skips the newline the encoder ends a value with. *)
Lemma Decode_newline s : Decode (String "010" s) = Decode s.
Proof. reflexivity. Qed.

Lemma Encode_length kv : 0 < String.length (Encode kv).
Proof. unfold Encode. rewrite str_app_length. simpl. lia. Qed.

Lemma decode_loop_newline fuel s kva :
  decode_loop fuel (String "010" s) kva = decode_loop fuel s kva.
Proof. destruct fuel; [done|]. cbn [decode_loop]. by rewrite Decode_newline. Qed.

Lemma decode_loop_encode fuel kvs kva :
  Forall kv_valid kvs → length kvs < fuel →
  decode_loop fuel (encode_all kvs) kva = kva ++ kvs.
Proof.
  revert fuel kva. induction kvs as [|kv kvs IH]; intros [|fuel] kva Hok Hf; simpl in *; try lia.
  - by rewrite app_nil_r.
  - apply Forall_cons in Hok as [? ?].
    rewrite Decode_Encode, decode_loop_newline, IH by (done || lia). by rewrite <-app_assoc.
Qed.

Lemma encode_all_length kvs : length kvs ≤ String.length (encode_all kvs).
Proof.
  induction kvs as [|kv kvs IH]; simpl; [lia|].
  rewrite str_app_length. pose proof (Encode_length kv). lia.
Qed.

Lemma encode_all_snoc kvs kv : encode_all (kvs ++ [kv]) = encode_all kvs +:+ Encode kv.
Proof.
  induction kvs as [|kv' kvs IH]; simpl; [by rewrite app_empty_r|].
  by rewrite IH, str_app_assoc.
Qed.

(** Reading a file the encoder wrote gives the values written, in order. *)
Lemma decode_all_encode kvs kva :
  Forall kv_valid kvs → decode_all (encode_all kvs) kva = kva ++ kvs.
Proof. intros. apply decode_loop_encode; [done|]. pose proof (encode_all_length kvs). lia. Qed.

(** C31. Round trip of an intermediate file: what [bucket_by_intermediate_key]
appends to it with [json.Encoder], the loop of [read_intermediates] reads back,
in the same order and without loss, when the keys and values are UTF-8. *)
Theorem intermediate_roundtrip kvs kva :
  Forall kv_valid kvs → decode_all (encode_all kvs) kva = kva ++ kvs.
Proof. apply decode_all_encode. Qed.

Definition roundtrip_example : list KeyValue :=
  [mkKV "a<b" "\n"; mkKV (String "195" (String "169" "t")) "x"].

Lemma intermediate_roundtrip_witness :
  decode_all (encode_all roundtrip_example) [] = roundtrip_example.
Proof.
  apply (intermediate_roundtrip roundtrip_example []).
  apply (bool_decide_unpack _). vm_compute. exact I.
Defined.

Lemma decode_all_empty kva : decode_all "" kva = kva.
Proof. reflexivity. Qed.

End Json.
