(* ===== verification/MrWorker.v ===== *)
(** * The MapReduce worker ([src/mr/worker.go])

The worker's tasks as functions of the file system: [map_exec] (run the user's
map function on an input file, and write each pair it emits to the intermediate
file of its bucket) and [reduce_exec] (read the intermediate files of a reduce
task, sort the pairs by key, and call the user's reduce function on each run of
equal keys).  The file system is a map from names to contents; [can_open] says
for which names [os.OpenFile] succeeds.  [sort.Sort] is not stable, so the
sorted order of equal keys is a parameter, [sort_by_key].

[Worker], the main loop, is a machine driven by the coordinator's answers. *)

From S2P Require Import Prelude GoStrings Json MrCoordinator.
From stdpp Require Import options.
Import Json Mr.

Module MrWorker.

(** ** The hash that chooses the reduce task *)

Definition fnv_offset32 : Z := 2166136261.
Definition fnv_prime32 : Z := 16777619.

(** [fnv.New32a], [Write], [Sum32]: the 32-bit FNV-1a hash. *)
Definition fnv32a (s : string) : Z :=
  foldl (λ h b, (Z.lxor h b * fnv_prime32) `mod` 2 ^ 32)%Z fnv_offset32 (bytes_of s).

Definition ihash (key : string) : Z := Z.land (fnv32a key) 2147483647.

(** [ByKey.Less]: the order [sort.Sort] sorts by is that of the keys. *)
Definition Less (a b : KeyValue) : bool :=
  bool_decide (String.le (Key a) (Key b)) && bool_decide (Key a ≠ Key b).
Definition key_le (a b : KeyValue) : Prop := String.le (Key a) (Key b).

Global Instance key_le_dec : RelDecision key_le.
Proof. intros a b. unfold key_le. apply _. Defined.

(** What is used of [sort.Sort(ByKey(kva))]: the same pairs, no pair before one
whose key is less. *)
Class SortByKey (sort_by_key : list KeyValue → list KeyValue) : Prop := {
  sort_perm : ∀ l, sort_by_key l ≡ₚ l;
  sort_sorted : ∀ l i j a b, i < j →
    sort_by_key l !! i = Some a → sort_by_key l !! j = Some b → Less b a = false }.

(** ** Files *)

Abbreviation files_t := (gmap string string).

Definition append_file (fs : files_t) (name s : string) : files_t :=
  <[name := default "" (fs !! name) +:+ s]> fs.

(** Reading a file that is not there gives nothing: the decoder's first read
of a nil [os.File] fails. *)
Definition read_file (fs : files_t) (name : string) : string := default "" (fs !! name).

Section worker.
Context (can_open : string → bool).
Context (mapf : string → string → list KeyValue).
Context (reducef : string → list string → string).
Context (sort_by_key : list KeyValue → list KeyValue).

(** ** Map tasks *)

Definition perform_map (fs : files_t) (filename : string) : outcome (list KeyValue) :=
  match fs !! filename with
  | None => Crash (FatalExit ("Worker cannot open " +:+ filename))
  | Some content => Ok (mapf filename content)
  end.

(** One turn of the loop of [bucket_by_intermediate_key]: the files, and the
buckets whose file this call has opened (and truncated). *)
Definition bucket_step (task_id nReduce : Z) (st : files_t * gset Z) (kv : KeyValue)
    : outcome (files_t * gset Z) :=
  let (fs, fileHandles) := st in
  if decide (nReduce = 0)%Z then Crash DivideByZero
  else
    let ibucket := Z.rem (ihash (Key kv)) nReduce in
    let name := intermediate task_id ibucket in
    if decide (ibucket ∈ fileHandles) then Ok (append_file fs name (Encode kv), fileHandles)
    else if can_open name then
      Ok (append_file (<[name := ""]> fs) name (Encode kv), {[ibucket]} ∪ fileHandles)
    else Ok (fs, fileHandles).

Definition bucket_by_intermediate_key (kva : list KeyValue) (task_id nReduce : Z)
    (fs : files_t) : outcome files_t :=
  let* (fs, _) := for_each (bucket_step task_id nReduce) kva (fs, ∅) in Ok fs.

(** The files, and the report sent to [Coordinator.CheckLastMapDone]. *)
Definition map_exec (mapReply : MapReply) (fs : files_t) : outcome (files_t * MapArgs) :=
  let* kva := perform_map fs (mr_Filename mapReply) in
  let* fs := bucket_by_intermediate_key kva (mr_Maptask_id mapReply) (mr_NReduce mapReply) fs in
  Ok (fs, {| ma_NReduce := 0; ma_Filename := ""; ma_Maptask_id := mr_Maptask_id mapReply;
             ma_Worker_id := 0 |}).

(** ** Reduce tasks *)

Definition read_intermediates (fs : files_t) (filenames : list string) : list KeyValue :=
  sort_by_key (foldl (λ kva filename, decode_all (read_file fs filename) kva) [] filenames).

(** The inner loop of [perform_reduce]: the first [j] past the run of [i]'s key. *)
Fixpoint next_key (fuel : nat) (l : list KeyValue) (i j : nat) : nat :=
  match fuel with
  | O => j
  | S fuel =>
      match l !! i, l !! j with
      | Some a, Some b => if decide (Key b = Key a) then next_key fuel l i (S j) else j
      | _, _ => j
      end
  end.

(** [fmt.Fprintf(ofile, "%v %v\n", key, output)]. *)
Definition out_line (key : string) (values : list string) : string :=
  key +:+ " " +:+ reducef key values +:+ newline.

(** The outer loop, with the text written so far. *)
Fixpoint reduce_loop (fuel : nat) (l : list KeyValue) (i : nat) (out : string) : string :=
  match fuel with
  | O => out
  | S fuel =>
      match l !! i with
      | None => out
      | Some kv =>
          let j := next_key (length l) l i (S i) in
          let values := omap (λ k, Value <$> l !! k) (seq i (j - i)) in
          reduce_loop fuel l j (out +:+ out_line (Key kv) values)
      end
  end.

Definition perform_reduce (l : list KeyValue) (ofile_name : string) (fs : files_t) : files_t :=
  if can_open ofile_name then <[ofile_name := reduce_loop (S (length l)) l 0 ""]> fs else fs.

Definition out_name (task_id : Z) : string := "mr-out-" +:+ Itoa task_id.

Definition reduce_exec (reduceReply : ReduceReply) (fs : files_t) : files_t * ReduceArgs :=
  let kva := read_intermediates fs (rr_Reducefiles reduceReply) in
  (perform_reduce kva (out_name (rr_Reducetask_id reduceReply)) fs,
   {| ra_Reducetask_id := rr_Reducetask_id reduceReply; ra_Reducefiles := []; ra_Worker_id := 0 |}).

(** ** Tasks the coordinator asks to redo *)

Definition DoMapTask (args : MapArgs) (fs : files_t) : outcome (files_t * MapArgs) :=
  map_exec {| mr_NReduce := ma_NReduce args; mr_Filename := ma_Filename args;
              mr_Maptask_id := ma_Maptask_id args |} fs.

Definition DoReduceTask (args : ReduceArgs) (fs : files_t) : files_t * ReduceArgs :=
  reduce_exec {| rr_Reducetask_id := ra_Reducetask_id args;
                 rr_Reducefiles := ra_Reducefiles args |} fs.

(** ** The main loop *)

Inductive phase := MapPhase | ReducePhase | ExitPhase | Returned.

(** The answer of [call]: the reply when the RPC succeeded, nothing when the
handler returned an error; a dial that fails ends the process instead. *)
Inductive answer := AMap (r : option MapReply) | AReduce (r : option ReduceReply) | AExit (ok : bool).

Inductive action := DoMap (r : MapReply) | DoReduce (r : ReduceReply) | Sleep | Nothing.

(** One turn of [Worker] (after it has registered): the loop of the phase asks the coordinator, and acts
on the answer to that question.  The [else] of the reduce loop is empty: it has
no [break]. *)
Definition Worker_turn (p : phase) (a : answer) : option (phase * action) :=
  match p, a with
  | MapPhase, AMap (Some r) => Some (MapPhase, DoMap r)
  | MapPhase, AMap None => Some (ReducePhase, Nothing)
  | ReducePhase, AReduce (Some r) =>
      Some (ReducePhase, if decide (rr_Reducetask_id r = -1)%Z then Sleep else DoReduce r)
  | ReducePhase, AReduce None => Some (ReducePhase, Nothing)
  | ExitPhase, AExit ok => Some (if ok then ExitPhase else Returned, Nothing)
  | _, _ => None
  end.

End worker.

(** ** The hash and the buckets *)

Lemma fnv32a_bounds s : (0 ≤ fnv32a s < 2 ^ 32)%Z.
Proof.
  unfold fnv32a. assert (0 ≤ fnv_offset32 < 2 ^ 32)%Z as Hh by done. revert Hh.
  generalize fnv_offset32 as h. induction (bytes_of s) as [|b l IH]; intros h Hh; [done|].
  simpl. apply IH. by apply Z.mod_pos_bound.
Qed.

Lemma ihash_bounds key : (0 ≤ ihash key < 2 ^ 31)%Z.
Proof.
  unfold ihash. change 2147483647%Z with (Z.ones 31). rewrite Z.land_ones by done.
  by apply Z.mod_pos_bound.
Qed.

(** The bucket of a key among [n]. *)
Definition bucket (n : Z) (key : string) : Z := Z.rem (ihash key) n.

Lemma bucket_bounds n key : (0 < n)%Z → (0 ≤ bucket n key < n)%Z.
Proof.
  intros Hn. pose proof (ihash_bounds key). unfold bucket.
  rewrite Z.rem_mod_nonneg by lia. by apply Z.mod_pos_bound.
Qed.

(** The pairs of [kva] that go to bucket [r], in order. *)
Definition bucket_of (n r : Z) (kva : list KeyValue) : list KeyValue :=
  filter (λ kv, bucket n (Key kv) = r) kva.

Lemma bucket_of_snoc n r kva kv :
  bucket_of n r (kva ++ [kv])
  = bucket_of n r kva ++ (if decide (bucket n (Key kv) = r) then [kv] else []).
Proof.
  unfold bucket_of. by rewrite filter_app.
Qed.

Lemma intermediate_inj i r i' r' :
  (0 ≤ i)%Z → (0 ≤ i')%Z → intermediate i r = intermediate i' r' → i = i' ∧ r = r'.
Proof. apply two_numbers_inj. Qed.

(** What a map task leaves in the files: the file of a bucket that got pairs
holds exactly those, in order; every other file is as it was. *)
Definition bucketed (kva : list KeyValue) (task_id n : Z) (fs fs' : files_t) : Prop :=
  (∀ r, (0 ≤ r)%Z → fs' !! intermediate task_id r =
     if decide (bucket_of n r kva = []) then fs !! intermediate task_id r
     else Some (encode_all (bucket_of n r kva))) ∧
  (∀ name, (∀ r, (0 ≤ r)%Z → name ≠ intermediate task_id r) → fs' !! name = fs !! name).

Lemma lookup_append_file fs name s name' :
  append_file fs name s !! name'
  = if decide (name = name') then Some (read_file fs name +:+ s) else fs !! name'.
Proof. unfold append_file. by rewrite lookup_insert. Qed.

(** One pair goes to the end of the file of its bucket. *)
Lemma bucketed_snoc d kv task_id n fs fs1 base :
  let b := bucket n (Key kv) in
  (0 < n)%Z → (0 ≤ task_id)%Z → bucketed d task_id n fs fs1 →
  read_file base (intermediate task_id b) = encode_all (bucket_of n b d) →
  (∀ name, name ≠ intermediate task_id b → base !! name = fs1 !! name) →
  bucketed (d ++ [kv]) task_id n fs (append_file base (intermediate task_id b) (Encode kv)).
Proof.
  intros b Hn Ht [Hf Ho] Hread Hbase. pose proof (bucket_bounds n (Key kv) Hn) as Hb.
  fold b in Hb. split.
  - intros r Hr. rewrite lookup_append_file, bucket_of_snoc. fold b.
    destruct (decide (b = r)) as [<-|Hne].
    + rewrite decide_True by done. rewrite decide_False by by destruct (bucket_of n b d).
      by rewrite Hread, encode_all_snoc.
    + assert (intermediate task_id b ≠ intermediate task_id r).
      { intros [_ ?]%intermediate_inj; done. }
      rewrite decide_False, app_nil_r, Hbase by done. by apply Hf.
  - intros name Hname. assert (name ≠ intermediate task_id b) as Hne by (apply Hname; lia).
    rewrite lookup_append_file, decide_False, Hbase by done. by apply Ho.
Qed.

Lemma bucket_loop can_open kva task_id n fs :
  (0 < n)%Z → (0 ≤ task_id)%Z → (∀ r, can_open (intermediate task_id r) = true) →
  ∃ fs' h, for_each (bucket_step can_open task_id n) kva (fs, ∅) = Ok (fs', h) ∧
    bucketed kva task_id n fs fs' ∧
    (∀ r, r ∈ h ↔ bucket_of n r kva ≠ []).
Proof.
  intros Hn Ht Hopen.
  destruct (for_each_total (bucket_step can_open task_id n)
    (λ d st, bucketed d task_id n fs st.1 ∧ ∀ r, r ∈ st.2 ↔ bucket_of n r d ≠ [])
    kva (fs, ∅)) as ([fs' h] & Hrun & HP); [..|by exists fs', h].
  - split; [split|]; intros r; simpl; [done|done|set_solver].
  - intros d kv [fs1 h] [Hd Hh] Hkv. simpl in *.
    rewrite decide_False by lia. fold (bucket n (Key kv)).
    pose proof (bucket_bounds n (Key kv) Hn) as Hb. set (b := bucket n (Key kv)) in *.
    rewrite Hopen. destruct (decide (b ∈ h)) as [Hin|Hin].
    + eexists. split; [done|]. simpl. split.
      * apply bucketed_snoc with fs1; try done. unfold read_file. rewrite (proj1 Hd) by lia.
        rewrite decide_False by by apply Hh. done.
      * intros r. rewrite bucket_of_snoc, Hh. fold b. case_decide; [|by rewrite app_nil_r].
        subst r. apply Hh in Hin. split; intros _; [by destruct (bucket_of n b d)|exact Hin].
    + eexists. split; [done|]. simpl. split.
      * apply bucketed_snoc with fs1; try done.
        -- unfold read_file. rewrite lookup_insert_eq. simpl. fold b.
           destruct (bucket_of n b d) eqn:E; [done|].
           destruct Hin. apply Hh. by rewrite E.
        -- intros name Hne. by rewrite lookup_insert_ne.
      * intros r. rewrite bucket_of_snoc, elem_of_union, elem_of_singleton, Hh. fold b.
        case_decide; [|rewrite app_nil_r; naive_solver].
        subst r. split; intros _; [by destruct (bucket_of n b d)|by left].
Qed.

(** ** Runs of equal keys *)

(** The reference for the loops of [perform_reduce]: the maximal runs of equal
keys, each with its values. *)
Fixpoint groups (l : list KeyValue) : list (string * list string) :=
  match l with
  | [] => []
  | kv :: l =>
      match groups l with
      | (k, vs) :: g =>
          if decide (k = Key kv) then (k, Value kv :: vs) :: g
          else (Key kv, [Value kv]) :: (k, vs) :: g
      | [] => [(Key kv, [Value kv])]
      end
  end.

(** The number of pairs with key [k] at the front of [l]. *)
Fixpoint run_length (k : string) (l : list KeyValue) : nat :=
  match l with
  | kv :: l => if decide (Key kv = k) then S (run_length k l) else 0
  | [] => 0
  end.

Lemma groups_unfold kv l :
  groups (kv :: l) =
  match groups l with
  | (k, vs) :: g =>
      if decide (k = Key kv) then (k, Value kv :: vs) :: g
      else (Key kv, [Value kv]) :: (k, vs) :: g
  | [] => [(Key kv, [Value kv])]
  end.
Proof. done. Qed.

Lemma groups_cons kv l :
  groups (kv :: l) =
  (Key kv, Value kv :: (Value <$> take (run_length (Key kv) l) l))
    :: groups (drop (run_length (Key kv) l) l).
Proof.
  revert kv. induction l as [|kv' l IH]; intros kv; [done|].
  rewrite groups_unfold, IH. cbn [run_length].
  destruct (decide (Key kv' = Key kv)) as [E|E].
  - by rewrite E.
  - change (drop 0 (kv' :: l)) with (kv' :: l). by rewrite IH.
Qed.

Lemma next_key_run fuel l i j a :
  l !! i = Some a → length l - j ≤ fuel →
  next_key fuel l i j = j + run_length (Key a) (drop j l).
Proof.
  intros Hi. revert j. induction fuel as [|fuel IH]; intros j Hf; simpl.
  - rewrite drop_ge by lia. simpl. lia.
  - rewrite Hi. destruct (l !! j) as [b|] eqn:Hj.
    + rewrite (drop_S l b j Hj). cbn [run_length].
      destruct (decide (Key b = Key a)); [|lia]. rewrite IH by lia. lia.
    + rewrite drop_ge by by apply lookup_ge_None. simpl. lia.
Qed.

Lemma omap_lookup_seq (l : list KeyValue) i m :
  omap (λ k, Value <$> l !! k) (seq i m) = Value <$> take m (drop i l).
Proof.
  revert i. induction m as [|m IH]; intros i; [done|].
  change (seq i (S m)) with ([i] ++ seq (S i) m). rewrite omap_app, IH. simpl.
  destruct (l !! i) as [a|] eqn:Hi; simpl.
  - by rewrite (drop_S l a i Hi).
  - apply lookup_ge_None in Hi. rewrite !drop_ge by lia. by destruct m.
Qed.

Definition out_lines (reducef : string → list string → string)
    (g : list (string * list string)) : string :=
  foldr (λ kvs s, out_line reducef kvs.1 kvs.2 +:+ s) "" g.

Lemma reduce_loop_groups reducef fuel l i out :
  length l - i < fuel →
  reduce_loop reducef fuel l i out = out +:+ out_lines reducef (groups (drop i l)).
Proof.
  revert i out. induction fuel as [|fuel IH]; intros i out Hf; [lia|]. cbn [reduce_loop].
  destruct (l !! i) as [kv|] eqn:Hi.
  - rewrite (next_key_run _ _ _ _ _ Hi) by lia.
    pose proof (lookup_lt_Some _ _ _ Hi).
    set (m := run_length (Key kv) (drop (S i) l)).
    replace (S i + m - i) with (S m) by lia.
    rewrite IH by lia. rewrite omap_lookup_seq, (drop_S l kv i Hi), groups_cons. fold m.
    rewrite drop_drop. simpl. by rewrite str_app_assoc.
  - apply lookup_ge_None in Hi. rewrite drop_ge by lia. simpl. by rewrite app_empty_r.
Qed.

(** All the values of [k], in order. *)
Definition values_of (k : string) (l : list KeyValue) : list string :=
  Value <$> filter (λ kv, Key kv = k) l.

Lemma values_of_cons k kv l :
  values_of k (kv :: l) = if decide (Key kv = k) then Value kv :: values_of k l else values_of k l.
Proof. unfold values_of. rewrite filter_cons. by case_decide. Qed.

Lemma groups_head k vs g l : groups l = (k, vs) :: g → ∃ kv l', l = kv :: l' ∧ Key kv = k.
Proof. destruct l as [|kv l']; [done|]. rewrite groups_cons. naive_solver. Qed.

Lemma values_of_absent k l : (∀ x, x ∈ l → Key x ≠ k) → values_of k l = [].
Proof.
  intros H. unfold values_of. induction l as [|x l IH]; [done|].
  rewrite filter_cons_False by (apply H; set_solver). apply IH. set_solver.
Qed.

(** In a sorted list a key that is not first in the tail is not in the tail. *)
Lemma sorted_new_key kv kv' l :
  StronglySorted key_le (kv :: kv' :: l) → Key kv' ≠ Key kv → values_of (Key kv) (kv' :: l) = [].
Proof.
  intros [Hkv [Hall _]%StronglySorted_cons]%StronglySorted_cons Hne.
  apply values_of_absent. intros x Hx E.
  rewrite Forall_forall in Hkv, Hall. apply elem_of_cons in Hx as [->|Hx]; [done|].
  apply Hne. apply (anti_symm String.le).
  - rewrite <-E. by apply Hall.
  - apply Hkv. set_solver.
Qed.

(** In a sorted list each key is one group, and its group has all its values. *)
Lemma groups_sorted l :
  StronglySorted key_le l →
  NoDup (groups l).*1 ∧ ∀ k vs, (k, vs) ∈ groups l ↔ vs = values_of k l ∧ vs ≠ [].
Proof.
  induction l as [|kv l IH]; intros Hs.
  { split; [constructor|]. intros k vs. unfold values_of. simpl. set_solver. }
  destruct (IH (proj2 (proj1 (StronglySorted_cons _ _ _) Hs))) as [Hnd Hin].
  rewrite groups_unfold. destruct (groups l) as [|[k0 vs0] g] eqn:Hg.
  - assert (l = []) as -> by (destruct l; [done|by rewrite groups_cons in Hg]).
    split; [repeat constructor; set_solver|]. intros k vs.
    rewrite values_of_cons. unfold values_of; simpl. case_decide; set_solver.
  - destruct (groups_head _ _ _ _ Hg) as (kv' & l' & -> & Hk0).
    simpl in Hnd. apply NoDup_cons in Hnd as [Hk0g Hnd].
    assert (∀ vs, (k0, vs) ∉ g) as Hk0g'.
    { intros vs Hvs. apply Hk0g, list_elem_of_fmap. by exists (k0, vs). }
    case_decide as E.
    + split; [by constructor|]. intros k vs. rewrite values_of_cons, elem_of_cons.
      assert (vs0 = values_of k0 (kv' :: l')) as -> by (apply Hin; set_solver).
      rewrite <-E. case_decide as Ek; [subst k; naive_solver|].
      rewrite <-Hin, elem_of_cons. naive_solver.
    + assert (values_of (Key kv) (kv' :: l') = []) as Hnew.
      { apply sorted_new_key; [done|congruence]. }
      split.
      * rewrite !fmap_cons. apply NoDup_cons. split; [|by apply NoDup_cons].
        rewrite elem_of_cons. intros [?|([k vs] & Ek & Hp)%list_elem_of_fmap]; [done|].
        simpl in Ek. subst k. assert ((Key kv, vs) ∈ (k0, vs0) :: g) as Hp' by set_solver.
        apply Hin in Hp' as [-> ?]. done.
      * intros k vs. rewrite values_of_cons, elem_of_cons.
        case_decide as Ek; [subst k|by rewrite Hin; naive_solver].
        rewrite Hnew, Hin, Hnew. naive_solver.
Qed.

Lemma Less_false_le a b : Less b a = false ↔ key_le a b.
Proof.
  unfold Less, key_le. rewrite andb_false_iff, !bool_decide_eq_false. split.
  - intros [Hn|Hn]; [by destruct (total String.le (Key a) (Key b))|].
    destruct (decide (Key b = Key a)) as [->|]; [done|tauto].
  - intros Hle. destruct (decide (Key b = Key a)) as [|Hne]; [tauto|].
    left. intros Hle'. apply Hne. by apply (anti_symm String.le).
Qed.

Lemma sort_StronglySorted sort_by_key `{!SortByKey sort_by_key} l :
  StronglySorted key_le (sort_by_key l).
Proof.
  apply StronglySorted_by_lookup. intros i j a b Hij Ha Hb.
  apply Less_false_le. by apply (sort_sorted l i j).
Qed.

(** Merge sort is one such sort. *)
Definition merge_by_key (l : list KeyValue) : list KeyValue := merge_sort key_le l.

Global Instance key_le_trans : Transitive key_le.
Proof. unfold key_le. intros a b c ??. by trans (Key b). Qed.
Global Instance key_le_total : Total key_le.
Proof. unfold key_le. intros a b. apply (total String.le). Qed.

Global Instance merge_by_key_sorts : SortByKey merge_by_key.
Proof.
  split; [intros; apply merge_sort_Permutation|].
  intros l i j a b Hij Ha Hb. apply Less_false_le.
  eapply (StronglySorted_lookup key_le (merge_by_key l)); [|done..].
  by apply StronglySorted_merge_sort; apply _.
Qed.

Lemma values_of_perm k l l' : l ≡ₚ l' → values_of k l ≡ₚ values_of k l'.
Proof. intros E. unfold values_of. by rewrite E. Qed.

(** ** Properties of the tasks *)

(** A map task whose input file can be read, and whose intermediate files
can be opened, returns, and leaves in the file of each bucket exactly the pairs
whose key hashes to it, in the order they were emitted; it changes no other
file, and reports its own task. *)
Theorem map_exec_spec can_open mapf (reply : MapReply) (fs : files_t) content :
  (0 < mr_NReduce reply)%Z → (0 ≤ mr_Maptask_id reply)%Z →
  (∀ r, can_open (intermediate (mr_Maptask_id reply) r) = true) →
  fs !! mr_Filename reply = Some content →
  ∃ fs' a, map_exec can_open mapf reply fs = Ok (fs', a) ∧
    ma_Maptask_id a = mr_Maptask_id reply ∧
    bucketed (mapf (mr_Filename reply) content) (mr_Maptask_id reply) (mr_NReduce reply) fs fs'.
Proof.
  intros Hn Ht Hopen Hfile. unfold map_exec, perform_map. rewrite Hfile. simpl.
  destruct (bucket_loop can_open (mapf (mr_Filename reply) content) (mr_Maptask_id reply)
    (mr_NReduce reply) fs Hn Ht Hopen) as (fs' & h & Hrun & Hb & _).
  unfold bucket_by_intermediate_key. rewrite Hrun. simpl. by eauto.
Qed.

(** The two index loops of [perform_reduce] end, and write one line for each
maximal run of equal keys, with the values of the run in order. *)
Theorem perform_reduce_groups can_open reducef (l : list KeyValue) ofile_name fs :
  can_open ofile_name = true →
  perform_reduce can_open reducef l ofile_name fs
  = <[ofile_name := out_lines reducef (groups l)]> fs.
Proof.
  intros Hopen. unfold perform_reduce. rewrite Hopen, reduce_loop_groups by lia. done.
Qed.

(** Sorting first makes the runs complete: whatever order [sort.Sort] gives
equal keys, each key of the input is the key of exactly one line, and the
values of that line are all the values of the key, in some order. *)
Theorem sorted_groups_complete sort_by_key `{!SortByKey sort_by_key} (l : list KeyValue) :
  NoDup (groups (sort_by_key l)).*1 ∧
  (∀ k vs, (k, vs) ∈ groups (sort_by_key l) → vs ≠ [] ∧ vs ≡ₚ values_of k l) ∧
  (∀ k, values_of k l ≠ [] → ∃ vs, (k, vs) ∈ groups (sort_by_key l)).
Proof.
  destruct (groups_sorted _ (sort_StronglySorted sort_by_key l)) as [Hnd Hin].
  pose proof (λ k, values_of_perm k _ _ (sort_perm l)) as Hp.
  split_and!; [done|..].
  - intros k vs [-> ?]%Hin. split; [done|apply Hp].
  - intros k Hk. exists (values_of k (sort_by_key l)). apply Hin. split; [done|].
    intros E. apply Hk. apply Permutation_nil_r. by rewrite <-Hp, E.
Qed.

(** A worker that has asked for its first reduce task never leaves the
reduce loop: the code after it, that asks the coordinator whether to exit, is
never reached. *)
Theorem worker_never_exits (p : phase) answers :
  p = MapPhase ∨ p = ReducePhase →
  ∀ p', run_labels (λ p a, fst <$> Worker_turn p a) p answers = Some p' →
  p' = MapPhase ∨ p' = ReducePhase.
Proof.
  revert p. induction answers as [|a answers IH]; intros p Hp p' Hrun; simpl in Hrun.
  { by simplify_eq. }
  destruct (Worker_turn p a) as [[q act]|] eqn:Ha; [|done]. simpl in Hrun.
  eapply (IH q); [|done]. destruct Hp as [->| ->], a as [[r|]|[r|]|ok]; simplify_eq/=; auto.
Qed.

(** ** Instances *)

Definition one_map (name content : string) : list KeyValue := [mkKV content "1"; mkKV name "2"].
Definition task_reply : MapReply :=
  {| mr_NReduce := 3; mr_Filename := "in"; mr_Maptask_id := 0 |}.

Lemma map_exec_spec_witness :
  ∃ fs' a, map_exec (λ _, true) one_map task_reply {[ "in" := "hello" ]} = Ok (fs', a) ∧
    ma_Maptask_id a = 0%Z ∧
    bucketed (one_map "in" "hello") 0 3 {[ "in" := "hello" ]} fs'.
Proof.
  apply (map_exec_spec (λ _, true) one_map task_reply {[ "in" := "hello" ]} "hello"); done.
Defined.

Lemma perform_reduce_groups_witness :
  perform_reduce (λ _, true) (λ k vs, Itoa (len vs)) [mkKV "a" "1"; mkKV "a" "2"; mkKV "b" "3"]
    "mr-out-0" ∅
  = {[ "mr-out-0" := "a 2" +:+ newline +:+ "b 1" +:+ newline ]}.
Proof. rewrite perform_reduce_groups by reflexivity. reflexivity. Defined.

Lemma sorted_groups_complete_witness :
  NoDup (groups (merge_by_key [mkKV "b" "3"; mkKV "a" "1"; mkKV "b" "2"])).*1.
Proof.
  apply (sorted_groups_complete merge_by_key [mkKV "b" "3"; mkKV "a" "1"; mkKV "b" "2"]).
Defined.

Lemma worker_never_exits_witness :
  ∀ p', run_labels (λ p a, fst <$> Worker_turn p a) MapPhase [AMap None; AReduce None] = Some p' →
  p' = MapPhase ∨ p' = ReducePhase.
Proof.
  apply (worker_never_exits MapPhase [AMap None; AReduce None]). by left.
Defined.

(** A map task truncates only the files of the buckets it has a pair for: an
intermediate file left by an earlier job in a bucket that gets nothing is kept,
and its pairs are read by the reduce task. *)
Example stale_intermediate_kept :
  ∃ fs' a,
    map_exec (λ _, true) (λ _ _, []) {| mr_NReduce := 1; mr_Filename := "in"; mr_Maptask_id := 0 |}
      {[ "in" := ""; intermediate 0 0 := Encode (mkKV "old" "1") ]} = Ok (fs', a) ∧
    read_intermediates merge_by_key fs' [intermediate 0 0] = [mkKV "old" "1"].
Proof. eexists _, _. split; [vm_compute; reflexivity|]. vm_compute. reflexivity. Qed.

End MrWorker.
