(* ===== verification/MrWrites.v ===== *)
(** * Executions of a task at the same time, write by write ([src/mr/worker.go])

[MrSystem] runs a task in one step.  A task that the coordinator has sent to a second
worker may in fact run in both at once: each opens the files of the task, which
truncates them, and writes at its own offset, one pair or line per call of [Write].
Here executions of one task are lists of such actions over the same files, in any
interleaving, and any of them may stop on the way.  When the execution that opened a
file last has made its writes to it, the file is as one execution alone leaves it. *)

From S2P Require Import Prelude GoStrings Json MrCoordinator MrWorker.
From stdpp Require Import options.
Import Json Mr MrWorker.

Module MrWrites.

(** ** Files with offsets *)

Abbreviation contents := (list Ascii.ascii).
Definition bytes (s : string) : contents := String.list_ascii_of_string s.

Lemma bytes_app s1 s2 : bytes (s1 +:+ s2) = bytes s1 ++ bytes s2.
Proof. induction s1 as [|c s1 IH]; [done|]. exact (f_equal (cons c) IH). Qed.

(** [write] at an offset: what lies between the end of the file and the offset reads
as zeros. *)
Definition write_at (c : contents) (o : nat) (s : contents) : contents :=
  take o c ++ replicate (o - length c) Ascii.zero ++ s ++ drop (o + length s) c.

Lemma write_at_length c o s : length (write_at c o s) = Nat.max (length c) (o + length s).
Proof. unfold write_at. rewrite !length_app, length_take, length_replicate, length_drop. lia. Qed.

Lemma write_at_old c o s p : p < o → p < length c → write_at c o s !! p = c !! p.
Proof. intros Ho Hl. unfold write_at. rewrite lookup_app_l by (rewrite length_take; lia). by apply lookup_take_lt. Qed.

Lemma write_at_new c o s p : o ≤ p < o + length s → write_at c o s !! p = s !! (p - o).
Proof.
  intros Hp. unfold write_at. rewrite lookup_app_r by (rewrite length_take; lia). rewrite length_take.
  rewrite lookup_app_r by (rewrite length_replicate; lia). rewrite length_replicate.
  rewrite lookup_app_l by lia. f_equal. lia.
Qed.

Lemma write_at_beyond c o s p : o + length s ≤ p → write_at c o s !! p = c !! p.
Proof.
  intros Hp. destruct (decide (p < length c)) as [Hl|Hl].
  - unfold write_at. rewrite lookup_app_r by (rewrite length_take; lia). rewrite length_take.
    rewrite lookup_app_r by (rewrite length_replicate; lia). rewrite length_replicate.
    rewrite lookup_app_r by lia. rewrite lookup_drop. f_equal. lia.
  - rewrite !lookup_ge_None_2; [done|lia|rewrite write_at_length; lia].
Qed.

(** ** Executions *)

Inductive fileop := Open (name : string) | Write (name s : string).

Global Instance fileop_eq_dec : EqDecision fileop.
Proof. solve_decision. Defined.

(** What is left to do, and the offset of each file that is open. *)
Record execution := mkExec { todo : list fileop; offs : gmap string nat }.

Definition act (fs : gmap string contents) (e : execution) : option (gmap string contents * execution) :=
  match todo e with
  | [] => None
  | Open name :: rest => Some (<[name := []]> fs, mkExec rest (<[name := 0]> (offs e)))
  | Write name s :: rest =>
      match offs e !! name with
      | Some o => Some (<[name := write_at (default [] (fs !! name)) o (bytes s)]> fs,
                        mkExec rest (<[name := o + length (bytes s)]> (offs e)))
      | None => Some (fs, mkExec rest (offs e))
      end
  end.

(** The execution that has opened each file last. *)
Record writers := mkWriters {
  wfiles : gmap string contents; execs : list execution; owner : gmap string nat }.

Definition opens (e : execution) : option string :=
  match todo e with Open name :: _ => Some name | _ => None end.

Definition writers_next (w : writers) (j : nat) : option writers :=
  match execs w !! j with
  | None => None
  | Some e =>
      match act (wfiles w) e with
      | None => None
      | Some (fs, e') =>
          Some (mkWriters fs (<[j := e']> (execs w))
                  (match opens e with Some name => <[name := j]> (owner w) | None => owner w end))
      end
  end.

Definition writers_step (w w' : writers) : Prop := ∃ j, writers_next w j = Some w'.

(** ** What a list of actions writes *)

Definition opened (acts : list fileop) (name : string) : bool :=
  existsb (λ a, match a with Open n => bool_decide (n = name) | Write _ _ => false end) acts.
Definition full (acts : list fileop) (name : string) : contents :=
  acts ≫= λ a, match a with Write n s => if decide (n = name) then bytes s else [] | Open _ => [] end.

Lemma ops_opened_app a1 a2 name : opened (a1 ++ a2) name = opened a1 name || opened a2 name.
Proof. apply existsb_app. Qed.
Lemma full_app a1 a2 name : full (a1 ++ a2) name = full a1 name ++ full a2 name.
Proof. apply bind_app. Qed.

(** Each file is opened once, before it is written. *)
Fixpoint ops_ok (h : gset string) (acts : list fileop) : bool :=
  match acts with
  | [] => true
  | Open name :: rest => bool_decide (name ∉ h) && ops_ok ({[name]} ∪ h) rest
  | Write name _ :: rest => bool_decide (name ∈ h) && ops_ok h rest
  end.

Lemma ops_ok_open h d name rest :
  ops_ok h (d ++ Open name :: rest) → (name ∉ h) ∧ opened d name = false ∧ full d name = [].
Proof.
  revert h. induction d as [|[n'|n' s] d IH]; intros h; cbn; rewrite andb_True, bool_decide_spec; intros [Hn Hok]; [done|..].
  - apply IH in Hok as (Hh & Ho & Hf). rewrite bool_decide_eq_false_2 by set_solver. split; [set_solver|done].
  - apply IH in Hok as (Hh & Ho & Hf). rewrite decide_False by naive_solver. done.
Qed.

Lemma ops_ok_write h d name s rest :
  ops_ok h (d ++ Write name s :: rest) → name ∈ h ∨ opened d name = true.
Proof.
  revert h. induction d as [|[n'|n' s'] d IH]; intros h; cbn; rewrite andb_True, bool_decide_spec; intros [Hn Hok].
  - by left.
  - apply IH in Hok as [Hh|Hd]; [|right; apply orb_true_iff; by right]. destruct (decide (n' = name)) as [->|Hne].
    + right. by rewrite bool_decide_eq_true_2.
    + left. set_solver.
  - eauto.
Qed.

Section task.
Context (acts : list fileop) (fs0 : gmap string contents).
Hypothesis Hacts : ops_ok ∅ acts.

(** How far an execution is. *)
Definition exec_ok (e : execution) : Prop :=
  ∃ d, acts = d ++ todo e ∧
    ∀ name, offs e !! name = (if opened d name then Some (length (full d name)) else None).

Definition fresh_exec : execution := mkExec acts ∅.
Definition writers_start (n : nat) : writers := mkWriters fs0 (replicate n fresh_exec) ∅.

(** A file that was opened is right up to where its last opener is, and not too long. *)
Record writers_ok (w : writers) : Prop := {
  wo_execs : ∀ j e, execs w !! j = Some e → exec_ok e;
  wo_closed : ∀ name, owner w !! name = None →
    wfiles w !! name = fs0 !! name ∧ ∀ j e, execs w !! j = Some e → offs e !! name = None;
  wo_owned : ∀ name j, owner w !! name = Some j →
    ∃ c e o, wfiles w !! name = Some c ∧ execs w !! j = Some e ∧ offs e !! name = Some o ∧
      o ≤ length c ≤ length (full acts name) ∧ ∀ p, p < o → c !! p = full acts name !! p }.

Lemma writers_start_ok n : writers_ok (writers_start n).
Proof.
  split.
  - intros j e He. apply lookup_replicate in He as [-> _]. exists []. split; [done|]. intros name. apply lookup_empty.
  - intros name _. split; [done|]. intros j e He. apply lookup_replicate in He as [-> _]. apply lookup_empty.
  - intros name j H. cbn in H. by rewrite lookup_empty in H.
Qed.

Lemma open_ok w j e name rest :
  writers_ok w → execs w !! j = Some e → todo e = Open name :: rest →
  writers_ok (mkWriters (<[name := []]> (wfiles w)) (<[j := mkExec rest (<[name := 0]> (offs e))]> (execs w))
    (<[name := j]> (owner w))).
Proof using Hacts.
  intros [He Hc Ho] Hj Ht. pose proof (lookup_lt_Some _ _ _ Hj) as Hlt.
  destruct (He j e Hj) as (d & Hd & Hoff). rewrite Ht in Hd.
  pose proof Hacts as Hok. rewrite Hd in Hok. apply ops_ok_open in Hok as (_ & Hno & Hfull).
  split; cbn.
  - intros k e' Hk. destruct (decide (j = k)) as [<-|Hne]; [|rewrite list_lookup_insert_ne in Hk by done; eauto].
    rewrite list_lookup_insert_eq in Hk by done. injection Hk as <-.
    exists (d ++ [Open name]). split; [by rewrite <-app_assoc|]. intros n'. cbn. rewrite ops_opened_app, full_app. cbn.
    rewrite app_nil_r, orb_false_r. destruct (decide (name = n')) as [<-|Hne'].
    + by rewrite lookup_insert_eq, Hno, Hfull, bool_decide_eq_true_2.
    + by rewrite lookup_insert_ne, bool_decide_eq_false_2, orb_false_r.
  - intros n' Hn. destruct (decide (name = n')) as [<-|Hne]; [by rewrite lookup_insert_eq in Hn|].
    rewrite lookup_insert_ne in Hn by done. rewrite lookup_insert_ne by done. destruct (Hc n' Hn) as [Hf Hall]. split; [done|].
    intros k e' Hk. destruct (decide (j = k)) as [<-|Hk']; [|rewrite list_lookup_insert_ne in Hk by done; eauto].
    rewrite list_lookup_insert_eq in Hk by done. injection Hk as <-. cbn. rewrite lookup_insert_ne by done. eauto.
  - intros n' k Hn. destruct (decide (name = n')) as [<-|Hne].
    + rewrite lookup_insert_eq in Hn. injection Hn as <-. eexists [], _, 0. rewrite lookup_insert_eq.
      rewrite list_lookup_insert_eq by done. cbn. split_and!; [done|done|cbn; by rewrite lookup_insert_eq|lia|lia|lia].
    + rewrite lookup_insert_ne in Hn by done. rewrite lookup_insert_ne by done. destruct (Ho n' k Hn) as (c & e' & o & Hf & Hk & Hoe & Hlen & Hp).
      destruct (decide (j = k)) as [<-|Hk'].
      * simplify_eq. exists c, (mkExec rest (<[name := 0]> (offs e))), o. rewrite list_lookup_insert_eq by done.
        cbn. by rewrite lookup_insert_ne.
      * exists c, e', o. by rewrite list_lookup_insert_ne.
Qed.

(** Where execution [k] is in a file after a write of execution [j] to file [name]. *)
Lemma offs_after (es : list execution) j k e e' rest name n' o o' :
  es !! j = Some e → es !! k = Some e' → offs e' !! n' = Some o →
  ∃ e2, <[j := mkExec rest (<[name := o']> (offs e))]> es !! k = Some e2 ∧
    offs e2 !! n' = Some (if decide (k = j ∧ n' = name) then o' else o).
Proof.
  intros Hj Hk Ho. pose proof (lookup_lt_Some _ _ _ Hj). destruct (decide (j = k)) as [<-|Hjk].
  - simplify_eq. eexists. rewrite list_lookup_insert_eq by done. split; [done|]. cbn.
    destruct (decide (n' = name)) as [->|Hn'].
    + by rewrite lookup_insert_eq, decide_True.
    + by rewrite lookup_insert_ne, decide_False by naive_solver.
  - exists e'. rewrite list_lookup_insert_ne by done. by rewrite decide_False by naive_solver.
Qed.

Lemma write_ok w j e name s rest :
  writers_ok w → execs w !! j = Some e → todo e = Write name s :: rest →
  ∃ o, offs e !! name = Some o ∧
    writers_ok (mkWriters (<[name := write_at (default [] (wfiles w !! name)) o (bytes s)]> (wfiles w))
      (<[j := mkExec rest (<[name := o + length (bytes s)]> (offs e))]> (execs w)) (owner w)).
Proof using Hacts.
  intros [He Hc Ho] Hj Ht. pose proof (lookup_lt_Some _ _ _ Hj) as Hlt.
  destruct (He j e Hj) as (d & Hd & Hoff). rewrite Ht in Hd.
  pose proof Hacts as Hok. rewrite Hd in Hok. apply ops_ok_write in Hok as [[]%not_elem_of_empty|Hopen].
  pose proof (Hoff name) as Hname. rewrite Hopen in Hname. exists (length (full d name)). split; [done|].
  assert (full acts name = full d name ++ bytes s ++ full rest name) as Hfull.
  { rewrite Hd, full_app. cbn. by rewrite decide_True. }
  split; cbn.
  - intros k e' Hk. destruct (decide (j = k)) as [<-|Hne]; [|rewrite list_lookup_insert_ne in Hk by done; eauto].
    rewrite list_lookup_insert_eq in Hk by done. injection Hk as <-.
    exists (d ++ [Write name s]). split; [by rewrite <-app_assoc|]. intros n'. cbn. rewrite ops_opened_app, full_app. cbn.
    rewrite app_nil_r, orb_false_r. destruct (decide (name = n')) as [<-|Hne'].
    + by rewrite lookup_insert_eq, Hopen, length_app.
    + by rewrite lookup_insert_ne, app_nil_r.
  - intros n' Hn. destruct (Hc n' Hn) as [Hf Hall].
    assert (name ≠ n') by (intros <-; rewrite (Hall j e Hj) in Hname; done).
    rewrite lookup_insert_ne by done. split; [done|].
    intros k e' Hk. destruct (decide (j = k)) as [<-|Hk']; [|rewrite list_lookup_insert_ne in Hk by done; eauto].
    rewrite list_lookup_insert_eq in Hk by done. injection Hk as <-. cbn. rewrite lookup_insert_ne by done. eauto.
  - intros n' k Hn. destruct (Ho n' k Hn) as (c & e' & o & Hf & Hk & Hoe & Hlen & Hp).
    destruct (offs_after _ j k e e' rest name n' o (length (full d name) + length (bytes s)) Hj Hk Hoe) as (e2 & Hk2 & Ho2).
    set (o2 := if decide _ then _ else _) in Ho2. assert (o2 = if decide (k = j ∧ n' = name) then _ else o) as Heq by done.
    clearbody o2.
    destruct (decide (n' = name)) as [->|Hn'].
    + rewrite Hf, lookup_insert_eq. cbn [default from_option id]. eexists _, e2, o2. split_and!; [done|done|done|..].
      * rewrite write_at_length, Heq. case_decide; lia.
      * rewrite write_at_length. rewrite Hfull, !length_app in Hlen |- *. lia.
      * intros p Hpo. destruct (decide (length (full d name) ≤ p < length (full d name) + length (bytes s))) as [Hl|Hl].
        -- rewrite write_at_new, Hfull by done. cbn. rewrite lookup_app_r, lookup_app_l by lia. done.
        -- assert (p < o) as Hpo'.
           { rewrite Heq in Hpo. destruct (decide _) as [[-> _]|_]; [simplify_eq|]; lia. }
           rewrite <-Hp by done. cbn. destruct (decide (p < length (full d name))).
           ++ by apply write_at_old; [|lia].
           ++ apply write_at_beyond. lia.
    + rewrite lookup_insert_ne by done. exists c, e2, o2. split_and!; try done; [| |].
      all: rewrite decide_False in Heq by naive_solver; subst o2; try lia; done.
Qed.

Lemma writers_step_ok w w' : writers_ok w → writers_step w w' → writers_ok w'.
Proof using Hacts.
  intros Hok [j Hj]. unfold writers_next, act, opens in Hj. destruct (execs w !! j) as [e|] eqn:He; [|done].
  destruct (todo e) as [|[name|name s] rest] eqn:Ht; [done|..].
  - injection Hj as <-. by apply open_ok.
  - destruct (write_ok w j e name s rest Hok He Ht) as (o & Ho & Hw). rewrite Ho in Hj. by injection Hj as <-.
Qed.

Lemma writers_run_ok n w : steps writers_step (writers_start n) w → writers_ok w.
Proof using Hacts.
  apply (steps_invariant writers_step writers_ok); [apply writers_step_ok|apply writers_start_ok].
Qed.

(** The execution that opened a file last has made its writes to it. *)
Definition settled (w : writers) (name : string) : Prop :=
  ∀ j e, owner w !! name = Some j → execs w !! j = Some e → full (todo e) name = [].

Definition finished (w : writers) : Prop := ∃ j e, execs w !! j = Some e ∧ todo e = [].

Lemma unwritten_settled w name : writers_ok w → full acts name = [] → settled w name.
Proof using Type.
  intros Hok Hnone j e _ He. destruct (wo_execs w Hok j e He) as (d & Hd & _). rewrite Hd, full_app in Hnone.
  by apply app_nil in Hnone as [_ ?].
Qed.

Lemma settled_file w name :
  writers_ok w → settled w name → finished w →
  wfiles w !! name = if opened acts name then Some (full acts name) else fs0 !! name.
Proof using Hacts.
  intros [He Hc Ho] Hs (i & ei & Hi & Hti). destruct (owner w !! name) as [j|] eqn:Hj.
  - destruct (Ho name j Hj) as (c & e & o & Hf & Hk & Hoe & Hlen & Hp).
    pose proof (Hs j e Hj Hk) as Hdone. destruct (He j e Hk) as (d & Hd & Hoff).
    rewrite Hoff in Hoe. destruct (opened d name) eqn:Hop; [|done]. injection Hoe as <-.
    assert (full acts name = full d name) as Hfull by by rewrite Hd, full_app, Hdone, app_nil_r.
    rewrite Hd at 1. rewrite ops_opened_app, Hop, Hf. cbn. f_equal. apply (list_eq_same_length _ _ (length c)); [|done|].
    + rewrite Hfull in Hlen |- *. lia.
    + intros p x y Hp' Hx Hy. rewrite Hp in Hx by (rewrite Hfull in Hlen; lia). congruence.
  - destruct (Hc name Hj) as [Hf Hall]. destruct (He i ei Hi) as (d & Hd & Hoff).
    rewrite Hti, app_nil_r in Hd. subst d. pose proof (Hall i ei Hi) as Hno. rewrite Hoff in Hno.
    by destruct (opened acts name).
Qed.
End task.

(** ** Map tasks *)

(** The calls [bucket_by_intermediate_key] makes: it opens the file of a bucket when it
meets the bucket's first pair. *)
Fixpoint bucket_ops (task_id nReduce : Z) (fileHandles : gset Z) (kva : list KeyValue) : list fileop :=
  match kva with
  | [] => []
  | kv :: kva =>
      let ibucket := Z.rem (ihash (Key kv)) nReduce in
      let name := intermediate task_id ibucket in
      if decide (ibucket ∈ fileHandles)
      then Write name (Encode kv) :: bucket_ops task_id nReduce fileHandles kva
      else Open name :: Write name (Encode kv) :: bucket_ops task_id nReduce ({[ibucket]} ∪ fileHandles) kva
  end.

Lemma bucket_ops_ok task_id n h kva (H : gset string) :
  (0 ≤ task_id)%Z → (∀ r, intermediate task_id r ∈ H ↔ r ∈ h) → ops_ok H (bucket_ops task_id n h kva).
Proof.
  intros Ht. revert h H. induction kva as [|kv kva IH]; intros h H HH; [done|]. cbn [bucket_ops].
  fold (bucket n (Key kv)). destruct (decide (_ ∈ h)) as [Hin|Hin]; cbn [ops_ok]; rewrite !andb_True, !bool_decide_spec.
  - rewrite HH. split; [done|]. by apply IH.
  - rewrite HH. split_and!; [done|set_solver|]. apply IH. intros r.
    rewrite !elem_of_union, !elem_of_singleton, HH. split; (intros [Heq|?]; [left|by right]); [|by subst].
    by apply intermediate_inj in Heq as [_ ?].
Qed.

Lemma bucket_ops_full task_id n h kva r :
  (0 ≤ task_id)%Z → full (bucket_ops task_id n h kva) (intermediate task_id r) = bytes (encode_all (bucket_of n r kva)).
Proof.
  intros Ht. revert h. induction kva as [|kv kva IH]; intros h; [done|].
  assert (full (Write (intermediate task_id (bucket n (Key kv))) (Encode kv) :: []) (intermediate task_id r)
    ++ bytes (encode_all (bucket_of n r kva)) = bytes (encode_all (bucket_of n r (kv :: kva)))) as Hstep.
  { unfold bucket_of. rewrite filter_cons. destruct (decide (bucket n (Key kv) = r)) as [->|Hne]; cbn.
    - rewrite decide_True, app_nil_r by done. symmetry. apply bytes_app.
    - rewrite decide_False; [done|]. by intros [_ ?]%intermediate_inj. }
  cbn [bucket_ops]. fold (bucket n (Key kv)). destruct (decide (_ ∈ h)); rewrite <-Hstep.
  - rewrite <-(IH h). cbn. by rewrite app_nil_r.
  - rewrite <-(IH ({[bucket n (Key kv)]} ∪ h)). cbn. by rewrite app_nil_r.
Qed.

Lemma bucket_ops_opened task_id n h kva r :
  (0 ≤ task_id)%Z →
  opened (bucket_ops task_id n h kva) (intermediate task_id r) = bool_decide ((r ∉ h) ∧ bucket_of n r kva ≠ []).
Proof.
  intros Ht. revert h. induction kva as [|kv kva IH]; intros h; [symmetry; apply bool_decide_eq_false_2; by intros [_ []]|].
  assert (bucket_of n r (kv :: kva) ≠ [] ↔ bucket n (Key kv) = r ∨ bucket_of n r kva ≠ []) as Hcons.
  { unfold bucket_of. rewrite filter_cons. case_decide; naive_solver. }
  cbn [bucket_ops]. fold (bucket n (Key kv)). destruct (decide (_ ∈ h)) as [Hin|Hin].
  - etrans; [apply IH|]. apply bool_decide_ext. rewrite Hcons. split; [tauto|]. intros [Hr [<-|Hb]]; tauto.
  - etrans; [apply (f_equal (orb _) (IH _))|]. rewrite <-bool_decide_or. apply bool_decide_ext. rewrite Hcons.
    rewrite not_elem_of_union, not_elem_of_singleton. split.
    + intros [Heq|?]; [apply intermediate_inj in Heq as [_ <-]; tauto|tauto].
    + intros [Hr Hb]. destruct (decide (bucket n (Key kv) = r)) as [->|Hne]; [by left|right].
      split_and!; [congruence|done|tauto].
Qed.

Lemma bucket_ops_unopened task_id n h kva name :
  Forall (λ kv, name ≠ intermediate task_id (bucket n (Key kv))) kva → opened (bucket_ops task_id n h kva) name = false.
Proof.
  intros Hall. revert h. induction Hall as [|kv kva Hne Hall IH]; intros h; [done|]. cbn [bucket_ops].
  fold (bucket n (Key kv)). destruct (decide (_ ∈ h)); [apply IH|].
  apply orb_false_iff. split; [by apply bool_decide_eq_false_2|apply IH].
Qed.

Lemma bucket_untouched kva task_id n fs fs' name :
  (0 < n)%Z → Forall (λ kv, name ≠ intermediate task_id (bucket n (Key kv))) kva →
  bucket_by_intermediate_key (λ _, true) kva task_id n fs = Ok fs' → fs' !! name = fs !! name.
Proof.
  intros Hn Hall Hrun.
  destruct (for_each_total (bucket_step (λ _, true) task_id n) (λ _ st, st.1 !! name = fs !! name) kva (fs, ∅))
    as ([fs1 h] & Hloop & HP); [done|..].
  - intros d kv [fs1 h] Hd Hkv. cbn in *. rewrite decide_False by lia. fold (bucket n (Key kv)).
    apply (proj1 (Forall_forall _ _) Hall) in Hkv.
    destruct (decide (_ ∈ h)); eexists; (split; [done|]); cbn; by rewrite ?lookup_append_file, ?decide_False, ?lookup_insert_ne.
  - unfold bucket_by_intermediate_key in Hrun. rewrite Hloop in Hrun. by injection Hrun as <-.
Qed.

(** C23. Executions of one map task at the same time.  Any number of workers may be
running [bucket_by_intermediate_key] on the same pairs at once, their calls to open,
truncate and write the intermediate files interleaved in any way, and any of them may
have stopped anywhere.  Once one has run to its end, and the one that opened each file
last has made its writes to that file, the files are exactly those one execution alone
would have left. *)
Theorem map_executions task_id n kva fs fs' k w :
  (0 ≤ task_id)%Z → (0 < n)%Z →
  bucket_by_intermediate_key (λ _, true) kva task_id n fs = Ok fs' →
  steps writers_step (writers_start (bucket_ops task_id n ∅ kva) (bytes <$> fs) k) w →
  (∀ name, settled w name) → finished w →
  wfiles w = bytes <$> fs'.
Proof.
  intros Ht Hn Hrun Hsteps Hs Hf.
  destruct (bucket_loop (λ _, true) kva task_id n fs Hn Ht) as (fs1 & h & Hloop & [Hb Ho] & _); [done|].
  pose proof (λ name, bucket_untouched kva task_id n fs fs' name Hn) as Hun.
  assert (fs1 = fs') as -> by (unfold bucket_by_intermediate_key in Hrun; rewrite Hloop in Hrun; by injection Hrun).
  assert (ops_ok ∅ (bucket_ops task_id n ∅ kva)) as Hok by (apply bucket_ops_ok; [done|set_solver]).
  apply writers_run_ok in Hsteps; [|done]. apply map_eq. intros name. rewrite lookup_fmap.
  rewrite (settled_file _ _ Hok w name Hsteps (Hs name) Hf), lookup_fmap.
  destruct (decide (Exists (λ kv, name = intermediate task_id (bucket n (Key kv))) kva)) as [Hex|Hno].
  - apply Exists_exists in Hex as (kv & Hin & ->). set (r := bucket n (Key kv)).
    assert (bucket_of n r kva ≠ []) as Hne.
    { apply (elem_of_not_nil kv). by apply list_elem_of_filter. }
    rewrite bucket_ops_opened, bucket_ops_full by done. rewrite bool_decide_eq_true_2 by set_solver.
    rewrite Hb by (by apply bucket_bounds). by rewrite decide_False.
  - apply not_Exists_Forall in Hno; [|apply _]. rewrite Hun by done. by rewrite bucket_ops_unopened.
Qed.

(** ** Reduce tasks *)

Section reduce.
Context (reducef : string → list string → string).

(** The lines [perform_reduce] writes, one call of [Fprintf] each. *)
Fixpoint reduce_lines (fuel : nat) (l : list KeyValue) (i : nat) : list string :=
  match fuel with
  | O => []
  | S fuel =>
      match l !! i with
      | None => []
      | Some kv =>
          let j := next_key (length l) l i (S i) in
          let values := omap (λ k, Value <$> l !! k) (seq i (j - i)) in
          out_line reducef (Key kv) values :: reduce_lines fuel l j
      end
  end.

Definition reduce_ops (l : list KeyValue) (ofile_name : string) : list fileop :=
  Open ofile_name :: (Write ofile_name <$> reduce_lines (S (length l)) l 0).

Lemma reduce_lines_loop fuel l i out :
  bytes (reduce_loop reducef fuel l i out) = bytes out ++ (reduce_lines fuel l i ≫= bytes).
Proof.
  revert i out. induction fuel as [|fuel IH]; intros i out; cbn; [by rewrite app_nil_r|].
  destruct (l !! i) as [kv|]; cbn; [|by rewrite app_nil_r]. by rewrite IH, bytes_app, <-app_assoc.
Qed.

Lemma writes_full name lines name' :
  full (Write name <$> lines) name' = if decide (name = name') then lines ≫= bytes else [].
Proof. induction lines as [|s lines IH]; cbn; [by case_decide|]. unfold full in IH. rewrite IH. by case_decide. Qed.

Lemma writes_opened name lines name' : opened (Write name <$> lines) name' = false.
Proof. by induction lines. Qed.

Lemma writes_ok h name lines : name ∈ h → ops_ok h (Write name <$> lines).
Proof. intros Hin. induction lines; cbn; [done|]. by rewrite bool_decide_eq_true_2. Qed.

(** The same of one reduce task: with any number of workers writing the same output
file at once, the file ends as [perform_reduce] alone would have left it. *)
Theorem reduce_executions l ofile_name fs k w :
  steps writers_step (writers_start (reduce_ops l ofile_name) (bytes <$> fs) k) w →
  settled w ofile_name → finished w →
  wfiles w = bytes <$> perform_reduce (λ _, true) reducef l ofile_name fs.
Proof.
  intros Hsteps Hs Hf.
  assert (ops_ok ∅ (reduce_ops l ofile_name)) as Hok.
  { cbn. rewrite andb_True, bool_decide_spec. split; [set_solver|]. apply writes_ok. set_solver. }
  apply writers_run_ok in Hsteps; [|done]. apply map_eq. intros name. rewrite lookup_fmap.
  unfold perform_reduce. destruct (decide (ofile_name = name)) as [<-|Hne].
  - rewrite (settled_file _ _ Hok w _ Hsteps Hs Hf), lookup_insert_eq.
    unfold reduce_ops at 1. cbn [opened existsb]. rewrite bool_decide_eq_true_2 by done. cbn [orb fmap option_fmap option_map].
    rewrite reduce_lines_loop. f_equal. etrans; [apply writes_full|]. by rewrite decide_True.
  - rewrite lookup_insert_ne, <-lookup_fmap by done.
    assert (full (reduce_ops l ofile_name) name = []) as Hnone by (etrans; [apply writes_full|]; by rewrite decide_False).
    rewrite (settled_file _ _ Hok w name Hsteps) by (done || by eapply unwritten_settled).
    assert (opened (reduce_ops l ofile_name) name = false) as ->; [|done].
    apply orb_false_iff. split; [by apply bool_decide_eq_false_2|apply writes_opened].
Qed.
End reduce.

(** ** Examples *)

Definition settled_all (w : writers) : bool :=
  bool_decide (map_Forall (λ name j, from_option (λ e, full (todo e) name) [] (execs w !! j) = []) (owner w)).

Lemma settled_all_spec w : settled_all w → ∀ name, settled w name.
Proof.
  intros Hs name j e Hj He. apply bool_decide_spec in Hs. specialize (Hs name j Hj). cbn in Hs. by rewrite He in Hs.
Qed.

Definition demo_pairs : list KeyValue := [mkKV "a" "1"; mkKV "b" "1"; mkKV "a" "2"].
Definition demo_ops : list fileop := bucket_ops 0 2 ∅ demo_pairs.

(** The second execution truncates the first file after the first one has written to it,
the first truncates the second file in turn, and stops before its last write. *)
Definition demo_sched : list nat := [0; 0; 1; 1; 1; 0; 1; 0; 1].

(** A run ends as a check of its last state says. *)
Lemma run_ends acts fs k sched (P : writers → bool) :
  match run_labels writers_next (writers_start acts fs k) sched with Some w => P w | None => false end = true →
  ∃ w, steps writers_step (writers_start acts fs k) w ∧ P w = true.
Proof.
  destruct (run_labels _ _ _) as [w|] eqn:Hrun; [|done]. intros HP. exists w. split; [|done].
  eapply run_labels_steps; [|exact Hrun]. intros a j b Hj. by exists j.
Qed.

Definition ended_at (j : nat) (w : writers) : bool :=
  bool_decide ((todo <$> execs w !! j) = Some []) && settled_all w.

Lemma ended_at_spec j w : ended_at j w = true → (∀ name, settled w name) ∧ finished w.
Proof.
  unfold ended_at. rewrite andb_true_iff, bool_decide_eq_true. intros [He Hs]. split; [by apply settled_all_spec; rewrite Hs|].
  apply fmap_Some in He as (e & He & Ht). by exists j, e.
Qed.

Lemma map_executions_witness :
  ∃ fs' w, bucket_by_intermediate_key (λ _, true) demo_pairs 0 2 ∅ = Ok fs' ∧
    steps writers_step (writers_start demo_ops (bytes <$> (∅ : files_t)) 2) w ∧ wfiles w = bytes <$> fs'.
Proof.
  destruct (run_ends demo_ops (bytes <$> (∅ : files_t)) 2 demo_sched (ended_at 1)) as (w & Hrun & Hend); [by vm_compute|].
  destruct (bucket_by_intermediate_key (λ _, true) demo_pairs 0 2 ∅) as [fs'|c] eqn:Hb; [|by vm_compute in Hb].
  exists fs', w. split_and!; [done|done|]. apply ended_at_spec in Hend as [Hs Hf].
  apply (map_executions 0 2 demo_pairs ∅ fs' 2 w); done.
Defined.

Definition demo_reducef (key : string) (values : list string) : string := Itoa (Z.of_nat (length values)).

Lemma reduce_executions_witness :
  ∃ w, steps writers_step (writers_start (reduce_ops demo_reducef demo_pairs "mr-out-0") (bytes <$> (∅ : files_t)) 2) w ∧
    wfiles w = bytes <$> perform_reduce (λ _, true) demo_reducef demo_pairs "mr-out-0" ∅.
Proof.
  destruct (run_ends (reduce_ops demo_reducef demo_pairs "mr-out-0") (bytes <$> (∅ : files_t)) 2 [0; 0; 1; 0; 1; 1; 1]
    (ended_at 1)) as (w & Hrun & Hend); [by vm_compute|].
  exists w. split; [done|]. apply ended_at_spec in Hend as [Hs Hf].
  apply (reduce_executions demo_reducef demo_pairs "mr-out-0" ∅ 2 w); done.
Defined.

(** That the last to open a file has made its writes is needed: an execution that has
ended leaves no trace in a file that another has just truncated. *)
Example truncated_after_end :
  match run_labels writers_next (writers_start demo_ops ∅ 2) [0; 0; 0; 0; 0; 1] with
  | Some w => bool_decide ((todo <$> execs w !! 0) = Some []) && bool_decide (wfiles w !! "mr-0-0" = Some [])
  | None => false
  end = true.
Proof. by vm_compute. Qed.

End MrWrites.
