(* ===== verification/MrJob.v ===== *)
(** * A whole MapReduce job

The tasks of [MrWorker] run on one file system in the order a schedule says: a
first part in which every map task runs, in any order and any number of times,
and then reduce tasks, and map tasks that a slow worker or a redo still runs, in
any order.  Tasks do not overlap.  The result is what the job is for: one line
per key, in the file of the key's bucket, with all the values emitted for it. *)

From S2P Require Import Prelude GoStrings Json MrCoordinator MrWorker.
From stdpp Require Import options.
Import Json Mr MrWorker.

Module MrJob.

Inductive task := MapTask (i : Z) | ReduceTask (r : Z).

Global Instance task_eq_dec : EqDecision task.
Proof. solve_decision. Defined.

Section job.
Context (can_open : string → bool).
Context (mapf : string → string → list KeyValue).
Context (reducef : string → list string → string).
Context (sort_by_key : list KeyValue → list KeyValue).
Context (inputs : list string) (n : Z).

(** The reply [GiveReduceTask] gives once the map phase is over. *)
Definition reduce_reply (r : Z) : ReduceReply :=
  {| rr_Reducetask_id := r;
     rr_Reducefiles := (λ i, intermediate i r) <$> range (len inputs) |}.

Definition run_task (fs : files_t) (t : task) : outcome files_t :=
  match t with
  | MapTask i =>
      let* f := index inputs i in
      let* (fs, _) := map_exec can_open mapf
        {| mr_NReduce := n; mr_Filename := f; mr_Maptask_id := i |} fs in
      Ok fs
  | ReduceTask r =>
      Ok (fst (reduce_exec can_open reducef sort_by_key (reduce_reply r) fs))
  end.

Definition run_job (sched : list task) (fs : files_t) : outcome files_t :=
  for_each run_task sched fs.

(** ** What the job computes *)

Context (fs0 : files_t).

(** The pairs map task [i] emits, and those of the whole job. *)
Definition emitted (i : Z) : list KeyValue :=
  match index inputs i with
  | Ok f => mapf f (read_file fs0 f)
  | Crash _ => []
  end.
Definition all_emitted : list KeyValue := concat (emitted <$> range (len inputs)).

(** What the job needs: at least one reduce task, input files that exist and
are not named like the files the workers write, no intermediate file left from
another job, files that can be opened, and keys and values in UTF-8. *)
Record job_ok : Prop := {
  job_nReduce : (0 < n)%Z;
  job_inputs : ∀ f, f ∈ inputs → is_Some (fs0 !! f);
  job_names : ∀ f i r, f ∈ inputs → (0 ≤ i)%Z → f ≠ intermediate i r;
  job_out_names : ∀ f r, f ∈ inputs → f ≠ out_name r;
  job_fresh : ∀ i r, (0 ≤ i)%Z → fs0 !! intermediate i r = None;
  job_open : ∀ name, can_open name = true;
  job_utf : ∀ i, Forall kv_valid (emitted i) }.

(** A schedule that names tasks of the job, all the map tasks first. *)
Definition task_ok (t : task) : Prop :=
  match t with
  | MapTask i => (0 ≤ i < len inputs)%Z
  | ReduceTask r => (0 ≤ r < n)%Z
  end.

Definition maps_first (first : list task) : Prop :=
  (∀ t, t ∈ first → ∃ i, t = MapTask i) ∧
  (∀ i, (0 ≤ i < len inputs)%Z → MapTask i ∈ first).

(** ** The state of the files between two tasks *)

Definition inputs_kept (fs : files_t) : Prop := ∀ f, f ∈ inputs → fs !! f = fs0 !! f.

(** The intermediate files of map task [i] hold what it emits. *)
Definition map_written (i : Z) (fs : files_t) : Prop :=
  ∀ r, (0 ≤ r)%Z → read_file fs (intermediate i r) = encode_all (bucket_of n r (emitted i)).

(** Nothing is in the intermediate files that the task will not write again: what
holds of a task that has not run, or that was stopped on the way. *)
Definition map_clean (i : Z) (fs : files_t) : Prop :=
  ∀ r, (0 ≤ r)%Z → bucket_of n r (emitted i) = [] → read_file fs (intermediate i r) = "".

Record files_inv (done : list task) (fs : files_t) : Prop := {
  fi_inputs : inputs_kept fs;
  fi_clean : ∀ i, (0 ≤ i)%Z → map_clean i fs;
  fi_written : ∀ i, (0 ≤ i)%Z → MapTask i ∈ done → map_written i fs }.

Lemma out_name_intermediate r i r' : (0 ≤ i)%Z → out_name r ≠ intermediate i r'.
Proof.
  unfold out_name, intermediate. intros Hi E.
  change "mr-out-" with ("mr-" +:+ "out-") in E. rewrite !str_app_assoc in E.
  apply str_app_inj in E. pose proof (Itoa_digits i Hi) as Hd.
  destruct (Itoa i) as [|c s] eqn:Hs; [discriminate E|].
  rewrite app_String in E. injection E as Ec _. subst c. done.
Qed.

Lemma written_clean i fs : map_written i fs → map_clean i fs.
Proof. intros H r Hr E. by rewrite H, E. Qed.

(** Files that a change keeps. *)
Lemma map_written_eq i fs fs' :
  (∀ r, (0 ≤ r)%Z → fs' !! intermediate i r = fs !! intermediate i r) →
  map_written i fs → map_written i fs'.
Proof. intros E H r Hr. unfold read_file. rewrite E by done. by apply H. Qed.

Lemma map_clean_eq i fs fs' :
  (∀ r, (0 ≤ r)%Z → fs' !! intermediate i r = fs !! intermediate i r) →
  map_clean i fs → map_clean i fs'.
Proof. intros E H r Hr. unfold read_file. rewrite E by done. by apply H. Qed.

Lemma files_inv_start : job_ok → files_inv [] fs0.
Proof.
  intros []. split; [done| |by intros i _ ?%not_elem_of_nil].
  intros i Hi r _ _. unfold read_file. by rewrite job_fresh0.
Qed.

(** What [map_exec] reads. *)
Lemma emitted_read fs i f :
  job_ok → inputs_kept fs → index inputs i = Ok f → perform_map mapf fs f = Ok (emitted i).
Proof.
  intros [] Hin Hf. assert (f ∈ inputs) as Hf'.
  { apply index_Ok in Hf as [_ Hf]. by eapply list_elem_of_lookup_2. }
  destruct (job_inputs0 f Hf') as [content Hc].
  unfold perform_map, emitted, read_file. by rewrite Hin, Hf, Hc.
Qed.

(** The effect of a map task on the files, of one that writes only the first pairs
too. *)
Lemma bucket_prefix fs i m :
  job_ok → (0 ≤ i)%Z → ∃ fs',
    bucket_by_intermediate_key can_open (take m (emitted i)) i n fs = Ok fs' ∧
    bucketed (take m (emitted i)) i n fs fs'.
Proof.
  intros [] Hi. destruct (bucket_loop can_open (take m (emitted i)) i n fs)
    as (fs' & h & Hrun & Hb & _); [done|lia|auto|].
  exists fs'. unfold bucket_by_intermediate_key. by rewrite Hrun.
Qed.

Lemma bucketed_clean fs fs' i m :
  bucketed (take m (emitted i)) i n fs fs' → map_clean i fs → map_clean i fs'.
Proof.
  intros [Hb _] Hc r Hr E. unfold read_file. rewrite Hb by done. rewrite decide_True; [by apply Hc|].
  unfold bucket_of in *. rewrite <-(take_drop m (emitted i)), filter_app in E.
  by apply app_eq_nil in E as [E _].
Qed.

Lemma bucketed_written fs fs' i :
  bucketed (emitted i) i n fs fs' → map_clean i fs → map_written i fs'.
Proof.
  intros [Hb _] Hc r Hr. unfold read_file. rewrite Hb by done. case_decide as E; [|done].
  rewrite E. by apply Hc.
Qed.

Lemma map_exec_written fs i f :
  job_ok → inputs_kept fs → index inputs i = Ok f → map_clean i fs →
  ∃ fs' a, map_exec can_open mapf {| mr_NReduce := n; mr_Filename := f; mr_Maptask_id := i |} fs
      = Ok (fs', a) ∧ ma_Maptask_id a = i ∧ map_written i fs' ∧
    ∀ name, (∀ r, (0 ≤ r)%Z → name ≠ intermediate i r) → fs' !! name = fs !! name.
Proof.
  intros Hok Hin Hf Hc. pose proof (index_ok_bounds _ _ _ Hf) as Hi.
  destruct (bucket_prefix fs i (length (emitted i)) Hok) as (fs' & Hrun & Hb); [lia|].
  rewrite firstn_all in Hrun, Hb. unfold map_exec. cbn [mr_Filename mr_Maptask_id mr_NReduce].
  rewrite (emitted_read fs i f Hok Hin Hf). cbn [bind]. rewrite Hrun. cbn [bind].
  eexists _, _. split_and!; [done|done|by eapply bucketed_written|apply Hb].
Qed.

(** The files of the other map tasks are not touched. *)
Lemma other_intermediate (fs fs' : files_t) i j r :
  (∀ name, (∀ r, (0 ≤ r)%Z → name ≠ intermediate i r) → fs' !! name = fs !! name) →
  (0 ≤ i)%Z → (0 ≤ j)%Z → j ≠ i → fs' !! intermediate j r = fs !! intermediate j r.
Proof. intros Ho Hi Hj Hne. apply Ho. intros r' _ [? _]%intermediate_inj; lia. Qed.

Lemma run_map_inv done fs i :
  job_ok → (0 ≤ i < len inputs)%Z → files_inv done fs →
  ∃ fs', run_task fs (MapTask i) = Ok fs' ∧ files_inv (done ++ [MapTask i]) fs' ∧
    ∀ name, (∀ r, (0 ≤ r)%Z → name ≠ intermediate i r) → fs' !! name = fs !! name.
Proof.
  intros Hok Hi [Hin Hcl Hwr]. destruct (index_in_range inputs i Hi) as [f Hf].
  destruct (map_exec_written fs i f Hok Hin Hf) as (fs' & a & Hrun & _ & Hw & Ho); [apply Hcl; lia|].
  exists fs'. split; [unfold run_task; rewrite Hf; cbn [bind]; by rewrite Hrun|]. split; [|done].
  assert (∀ j, (0 ≤ j)%Z → j ≠ i → ∀ r, (0 ≤ r)%Z → fs' !! intermediate j r = fs !! intermediate j r)
    as Hoth by (intros j Hj Hne r _; apply (other_intermediate _ _ i); (done || lia)).
  split.
  - intros g Hg. rewrite Ho; [by apply Hin|]. intros r _. apply (job_names Hok); [done|lia].
  - intros j Hj. destruct (decide (j = i)) as [->|Hne]; [by apply written_clean|].
    eapply map_clean_eq; [by apply Hoth|by apply Hcl].
  - intros j Hj Hd. destruct (decide (j = i)) as [->|Hne]; [done|].
    eapply map_written_eq; [by apply Hoth|apply Hwr; [done|]]. set_solver.
Qed.

(** A change of an output file. *)
Lemma insert_out_kept fs r s :
  job_ok → (inputs_kept fs → inputs_kept (<[out_name r := s]> fs)) ∧
  ∀ i r', (0 ≤ i)%Z → <[out_name r := s]> fs !! intermediate i r' = fs !! intermediate i r'.
Proof.
  intros []. split.
  - intros Hin f Hf. rewrite lookup_insert_ne by (intros <-; by eapply job_out_names0). auto.
  - intros i r' Hi. by rewrite lookup_insert_ne by by apply out_name_intermediate.
Qed.

Lemma run_reduce_inv done fs r :
  job_ok → files_inv done fs →
  ∃ fs', run_task fs (ReduceTask r) = Ok fs' ∧ files_inv (done ++ [ReduceTask r]) fs' ∧
    ∀ name, name ≠ out_name r → fs' !! name = fs !! name.
Proof.
  intros Hok [Hin Hcl Hwr]. simpl. eexists. split; [done|].
  unfold perform_reduce. rewrite (job_open Hok).
  match goal with |- context [<[_ := ?s]> fs] => destruct (insert_out_kept fs r s Hok) as [Hk Hi] end.
  split; [split|].
  - by apply Hk.
  - intros i Hi0. eapply map_clean_eq; [intros; by apply Hi|by apply Hcl].
  - intros i Hi0 Hd. eapply map_written_eq; [intros; by apply Hi|apply Hwr; [done|]]. set_solver.
  - intros name Hne. by rewrite lookup_insert_ne.
Qed.

(** The pairs a reduce task reads once every map task has run. *)
Lemma read_all fs r :
  job_ok → (0 ≤ r)%Z → (∀ i, (0 ≤ i < len inputs)%Z → map_written i fs) →
  read_intermediates sort_by_key fs ((λ i, intermediate i r) <$> range (len inputs))
  = sort_by_key (bucket_of n r all_emitted).
Proof.
  intros [] Hr Hw. unfold read_intermediates, all_emitted. f_equal.
  change (bucket_of n r (concat (emitted <$> range (len inputs))))
    with ([] ++ bucket_of n r (concat (emitted <$> range (len inputs)))).
  generalize (@nil KeyValue) as acc.
  assert (∀ i, i ∈ range (len inputs) → (0 ≤ i < len inputs)%Z) as Hrange.
  { intros i. by rewrite elem_of_range. }
  revert Hrange. generalize (range (len inputs)) as l.
  induction l as [|i l IH]; intros Hl acc; simpl; [by rewrite app_nil_r|].
  assert (0 ≤ i < len inputs)%Z as Hi by (apply Hl; set_solver).
  rewrite Hw by (auto || lia). rewrite decode_all_encode.
  - rewrite IH by set_solver. unfold bucket_of. by rewrite filter_app, app_assoc.
  - apply Forall_forall. intros kv [_ Hkv]%list_elem_of_filter.
    specialize (job_utf0 i). rewrite Forall_forall in job_utf0. auto.
Qed.

(** The groups reduce task [r] writes. *)
Definition job_groups (r : Z) : list (string * list string) :=
  groups (sort_by_key (bucket_of n r all_emitted)).

Lemma out_name_inj r r' : out_name r = out_name r' → r = r'.
Proof. unfold out_name. intros E%str_app_inj. by apply Itoa_inj. Qed.

Lemma reduce_exec_written fs r :
  job_ok → (0 ≤ r)%Z → (∀ i, (0 ≤ i < len inputs)%Z → map_written i fs) →
  (reduce_exec can_open reducef sort_by_key (reduce_reply r) fs).1
  = <[out_name r := out_lines reducef (job_groups r)]> fs.
Proof.
  intros Hok Hr Hw. unfold reduce_exec, reduce_reply. cbn [rr_Reducefiles rr_Reducetask_id fst].
  rewrite read_all by done. unfold perform_reduce. by rewrite (job_open Hok), reduce_loop_groups by lia.
Qed.

Lemma maps_first_run first :
  job_ok → maps_first first → (∀ t, t ∈ first → task_ok t) →
  ∃ fs, run_job first fs0 = Ok fs ∧ files_inv first fs.
Proof.
  intros Hok [Honly _] Htask.
  apply (for_each_total run_task files_inv); [by apply files_inv_start|].
  intros done t fs Hfs Ht. destruct (Honly t Ht) as [i ->].
  destruct (run_map_inv done fs i) as (fs' & ? & ? & _); [done|by apply (Htask _ Ht)|done|].
  eauto.
Qed.

(** The outputs of the reduce tasks that have run stay. *)
Definition job_inv (first done : list task) (fs : files_t) : Prop :=
  files_inv (first ++ done) fs ∧
  ∀ r, ReduceTask r ∈ done → fs !! out_name r = Some (out_lines reducef (job_groups r)).

Lemma job_step first done fs t :
  job_ok → maps_first first → task_ok t → job_inv first done fs →
  ∃ fs', run_task fs t = Ok fs' ∧ job_inv first (done ++ [t]) fs'.
Proof.
  intros Hok [_ Hall] Ht [Hfi Hout]. destruct t as [i|r].
  - destruct (run_map_inv (first ++ done) fs i) as (fs' & Hrun & Hfi' & Hsame); [done..|].
    exists fs'. split; [done|]. split; [by rewrite app_assoc|].
    intros r. rewrite elem_of_app, list_elem_of_singleton. intros [Hr|?]; [|done].
    rewrite Hsame; [auto|]. intros r' _. apply out_name_intermediate. simpl in Ht. lia.
  - destruct (run_reduce_inv (first ++ done) fs r) as (fs' & Hrun & Hfi' & Hsame); [done..|].
    exists fs'. split; [done|]. split; [by rewrite app_assoc|].
    intros r'. rewrite elem_of_app, list_elem_of_singleton.
    destruct (decide (r' = r)) as [->|Hne].
    + intros _. simpl in Ht.
      assert (fs' = (reduce_exec can_open reducef sort_by_key (reduce_reply r) fs).1) as ->
        by (cbn [run_task] in Hrun; congruence).
      rewrite reduce_exec_written; [by rewrite lookup_insert_eq|done|lia|].
      intros i Hi. apply (fi_written _ _ Hfi); [lia|]. apply elem_of_app. by left; apply Hall.
    + intros [Hr|[=]]; [|done]. rewrite Hsame; [auto|]. by intros ?%out_name_inj.
Qed.

Lemma run_job_inv first rest :
  job_ok → maps_first first → (∀ t, t ∈ first ++ rest → task_ok t) →
  ∃ fs, run_job (first ++ rest) fs0 = Ok fs ∧ job_inv first rest fs.
Proof.
  intros Hok Hfirst Htask.
  destruct (maps_first_run first) as (fs1 & Hrun1 & Hfi); [done..|intros; apply Htask; set_solver|].
  unfold run_job. rewrite for_each_app. unfold run_job in Hrun1. rewrite Hrun1. simpl.
  apply (for_each_total run_task (job_inv first)).
  - split; [by rewrite app_nil_r|]. intros r. by intros ?%not_elem_of_nil.
  - intros done t fs Hinv Ht. apply job_step; try done. apply Htask. set_solver.
Qed.

(** A key is emitted in its own bucket only. *)
Lemma values_of_bucket k r l :
  values_of k (bucket_of n r l) = if decide (bucket n k = r) then values_of k l else [].
Proof.
  destruct (decide (bucket n k = r)) as [<-|Hne].
  - unfold values_of, bucket_of. f_equal. rewrite list_filter_filter.
    apply list_filter_iff. intros kv. split; [naive_solver|by intros ->].
  - apply values_of_absent. intros kv [Hb _]%list_elem_of_filter Hk. congruence.
Qed.

(** Every key emitted is in the groups of its bucket and of no other, once and with
all its values. *)
Lemma job_groups_complete `{!SortByKey sort_by_key} :
  (∀ r, NoDup (job_groups r).*1) ∧
  (∀ r k vs, (k, vs) ∈ job_groups r → r = bucket n k ∧ vs ≡ₚ values_of k all_emitted) ∧
  (∀ k, values_of k all_emitted ≠ [] → ∃ vs, (k, vs) ∈ job_groups (bucket n k)).
Proof.
  pose proof (λ r, groups_sorted _ (sort_StronglySorted sort_by_key
    (bucket_of n r all_emitted))) as Hg.
  assert (∀ r k, values_of k (sort_by_key (bucket_of n r all_emitted))
    ≡ₚ if decide (bucket n k = r) then values_of k all_emitted else []) as Hvals.
  { intros r k. rewrite (values_of_perm k _ _ (sort_perm _)). by rewrite values_of_bucket. }
  split_and!; [intros r; apply Hg|..].
  - intros r k vs [-> Hne]%Hg. specialize (Hvals r k). case_decide; [by auto|].
    apply Permutation_nil_r in Hvals. done.
  - intros k Hk. exists (values_of k (sort_by_key (bucket_of n (bucket n k) all_emitted))).
    apply Hg. split; [done|]. specialize (Hvals (bucket n k) k).
    rewrite decide_True in Hvals by done. intros E. rewrite E in Hvals.
    apply Hk. by apply Permutation_nil_r.
Qed.

(** The job.  Whatever the order of the tasks and however often they are
redone, once all the map tasks have run, each reduce task that runs leaves in
its output file one line per key of its bucket: every key any map task emitted
has its line in the output file of its bucket and in no other, and that line
has all the values emitted for the key, in some order. *)
Theorem job_correct `{!SortByKey sort_by_key} first rest :
  job_ok → maps_first first → (∀ t, t ∈ first ++ rest → task_ok t) →
  ∃ fs, run_job (first ++ rest) fs0 = Ok fs ∧
    (∀ r, ReduceTask r ∈ rest → fs !! out_name r = Some (out_lines reducef (job_groups r))) ∧
    (∀ r, NoDup (job_groups r).*1) ∧
    (∀ r k vs, (k, vs) ∈ job_groups r → r = bucket n k ∧ vs ≡ₚ values_of k all_emitted) ∧
    (∀ k, values_of k all_emitted ≠ [] → ∃ vs, (k, vs) ∈ job_groups (bucket n k)).
Proof.
  intros Hok Hfirst Htask. destruct (run_job_inv first rest) as (fs & Hrun & _ & Hout); [done..|].
  exists fs. split_and!; [done|done|apply job_groups_complete..].
Qed.

(** Redoing a map task changes nothing: running it again right away, or any
number of tasks later, leaves every file as it was. *)
Theorem map_task_redo_idempotent first rest i fs :
  job_ok → maps_first first → (∀ t, t ∈ first ++ rest → task_ok t) →
  (0 ≤ i < len inputs)%Z → run_job (first ++ rest) fs0 = Ok fs →
  ∃ fs', run_task fs (MapTask i) = Ok fs' ∧ ∀ name, read_file fs' name = read_file fs name.
Proof.
  intros Hok Hfirst Htask Hi Hrun.
  destruct (run_job_inv first rest) as (fs1 & Hrun1 & Hfi & _); [done..|].
  rewrite Hrun in Hrun1. injection Hrun1 as <-.
  destruct (run_map_inv (first ++ rest) fs i) as (fs' & Hfs' & Hfi' & Hsame); [done..|].
  exists fs'. split; [done|]. intros name. apply dec_stable. intros Hne. apply Hne.
  unfold read_file. rewrite Hsame; [done|]. intros r Hr ->. apply Hne.
  assert (MapTask i ∈ first) by by apply Hfirst.
  rewrite (fi_written _ _ Hfi' i), (fi_written _ _ Hfi i); (done || lia || set_solver).
Qed.

End job.

(** ** A small job: word count over two files, two reduce tasks *)

Definition words_map (name content : string) : list KeyValue :=
  (λ w, mkKV w "1") <$> String.words content.
Definition count_reduce (key : string) (values : list string) : string :=
  Itoa (len values).
Definition wc_files : files_t := {[ "a.txt" := "to be or"; "b.txt" := "not to be" ]}.
Definition wc_sched_first : list task := [MapTask 1; MapTask 0; MapTask 1].
Definition wc_sched_rest : list task := [ReduceTask 1; MapTask 0; ReduceTask 0].

Lemma wc_job_ok : job_ok (λ _, true) words_map ["a.txt"; "b.txt"] 2 wc_files.
Proof.
  assert (∀ name i r, name = intermediate i r → ∃ t, name = "mr-" +:+ t) as Hpre.
  { intros name i r ->. by eexists. }
  split; try done.
  - intros f Hf. repeat (apply elem_of_cons in Hf as [->|Hf]; [vm_compute; by eexists|]).
    by apply not_elem_of_nil in Hf.
  - intros f i r Hf _ E%Hpre. destruct E as [t E].
    repeat (apply elem_of_cons in Hf as [->|Hf]; [discriminate E|]). by apply not_elem_of_nil in Hf.
  - intros f r Hf E. unfold out_name in E.
    repeat (apply elem_of_cons in Hf as [->|Hf]; [discriminate E|]). by apply not_elem_of_nil in Hf.
  - intros i. unfold emitted. destruct (index ["a.txt"; "b.txt"] i) as [f|] eqn:Hf; [|constructor].
    apply index_Ok in Hf as [_ Hf]. apply list_elem_of_lookup_2 in Hf.
    repeat (apply elem_of_cons in Hf as [->|Hf]; [by apply (bool_decide_unpack _); vm_compute|]).
    by apply not_elem_of_nil in Hf.
Qed.

Lemma wc_sched_ok :
  maps_first ["a.txt"; "b.txt"] wc_sched_first ∧
  ∀ t, t ∈ wc_sched_first ++ wc_sched_rest → task_ok ["a.txt"; "b.txt"] 2 t.
Proof.
  split; [split|].
  - intros t Ht. repeat (apply elem_of_cons in Ht as [->|Ht]; [by eexists|]).
    by apply not_elem_of_nil in Ht.
  - intros i Hi. assert (i = 0 ∨ i = 1)%Z as [->| ->] by (change (len ["a.txt"; "b.txt"]) with 2%Z in Hi; lia); set_solver.
  - intros t Ht. repeat (apply elem_of_cons in Ht as [->|Ht]; [vm_compute; by split|]).
    by apply not_elem_of_nil in Ht.
Qed.

Lemma job_correct_witness :
  ∃ fs, run_job (λ _, true) words_map count_reduce merge_by_key ["a.txt"; "b.txt"] 2
          (wc_sched_first ++ wc_sched_rest) wc_files = Ok fs ∧
    fs !! out_name 0 = Some (out_lines count_reduce
      (job_groups words_map merge_by_key ["a.txt"; "b.txt"] 2 wc_files 0)).
Proof.
  destruct (job_correct (λ _, true) words_map count_reduce merge_by_key ["a.txt"; "b.txt"] 2
    wc_files wc_sched_first wc_sched_rest wc_job_ok (proj1 wc_sched_ok) (proj2 wc_sched_ok))
    as (fs & Hrun & Hout & _).
  exists fs. split; [exact Hrun|]. apply Hout. apply (list_elem_of_lookup_2 _ 2). reflexivity.
Defined.

Lemma map_task_redo_idempotent_witness :
  ∃ fs fs', run_job (λ _, true) words_map count_reduce merge_by_key ["a.txt"; "b.txt"] 2
          (wc_sched_first ++ wc_sched_rest) wc_files = Ok fs ∧
    run_task (λ _, true) words_map count_reduce merge_by_key ["a.txt"; "b.txt"] 2 fs (MapTask 0) = Ok fs' ∧
    ∀ name, read_file fs' name = read_file fs name.
Proof.
  destruct (run_job_inv (λ _, true) words_map count_reduce merge_by_key ["a.txt"; "b.txt"] 2
    wc_files wc_sched_first wc_sched_rest wc_job_ok (proj1 wc_sched_ok) (proj2 wc_sched_ok))
    as (fs & Hrun & _).
  destruct (map_task_redo_idempotent (λ _, true) words_map count_reduce merge_by_key
    ["a.txt"; "b.txt"] 2 wc_files wc_sched_first wc_sched_rest 0 fs wc_job_ok
    (proj1 wc_sched_ok) (proj2 wc_sched_ok) (conj (Z.le_refl 0) eq_refl) Hrun) as (fs' & Hr & Hs).
  exists fs, fs'. split; [exact Hrun|]. split; [exact Hr|exact Hs].
Defined.

End MrJob.
