(* ===== verification/MrSystem.v ===== *)
(** * The MapReduce system: coordinator, workers and files together

The coordinator of [MrCoordinator], any number of worker processes of [MrWorker]
and the files they share, in one step machine.  A worker is its main thread, which
runs [Worker], and a thread per request to redo a task that the coordinator has
sent it; a thread's state is the remote call or the task it does next.  Workers
join and die at any time; a monitor of the coordinator that wakes up dials the
workers of the book and sends one of them the task.

Handlers of the coordinator run one at a time; file [MrOverlap] runs them in
sections and relates the two machines.  A call that a process has sent when it ends
is served late, or is lost.  A task reads and writes its files in one step, [ERun]; a task that
is stopped on the way, or seen on the way, is the step [EPartial]. *)

From S2P Require Import Prelude GoStrings Json MrCoordinator MrWorker MrJob.
From stdpp Require Import options.
Import Json Mr MrWorker MrJob.

Module MrSystem.

(** ** Sockets and threads *)

Definition coordinatorSock (uid : Z) : string := "/var/tmp/5840-mr-" +:+ Itoa uid.
Definition workerSocket (pid : Z) : string := "/var/tmp/5840-mr-w-" +:+ Itoa pid.

(** What a thread does next: a call of the coordinator or a task. *)
Inductive pc :=
| Registering
| Ask (p : phase)
| RunMap (r : MapReply)
| TellMap (a : MapArgs)
| RunReduce (r : ReduceReply)
| TellReduce (a : ReduceArgs).

(** The main thread of a process, or the thread that serves the call of a monitor. *)
Abbreviation tid := (Z * option nat)%type.

Inductive status := Up | Exited | Died (f : fault).

Record cluster := mkCluster {
  coord : Coordinator;
  coord_status : status;
  monitors : list thread;
  threads : gmap (Z * option nat) pc;
  late : list call;                   (* calls whose process has ended *)
  files : files_t }.

Definition set_coord (s : cluster) (c : Coordinator) (ms : list thread) : cluster :=
  mkCluster c (coord_status s) ms (threads s) (late s) (files s).
Definition set_status (s : cluster) (st : status) : cluster :=
  mkCluster (coord s) st (monitors s) (threads s) (late s) (files s).
Definition set_threads (s : cluster) (ts : gmap (Z * option nat) pc) : cluster :=
  mkCluster (coord s) (coord_status s) (monitors s) ts (late s) (files s).
Definition set_files (s : cluster) (fs : files_t) : cluster :=
  mkCluster (coord s) (coord_status s) (monitors s) (threads s) (late s) fs.
Definition set_late (s : cluster) (ks : list call) : cluster :=
  mkCluster (coord s) (coord_status s) (monitors s) (threads s) ks (files s).

(** ** Calls of the coordinator *)

(** The call a thread of process [pid] makes. *)
Definition remote_call (pid : Z) (p : pc) : option call :=
  match p with
  | Registering =>
      Some (CallRegister {| wa_Worker_id := pid; wa_Worker_addr := workerSocket pid |})
  | Ask MapPhase =>
      Some (CallGiveMap {| ma_NReduce := 0; ma_Filename := ""; ma_Maptask_id := 0; ma_Worker_id := pid |})
  | Ask ReducePhase =>
      Some (CallGiveReduce {| ra_Reducetask_id := 0; ra_Reducefiles := []; ra_Worker_id := pid |})
  | TellMap a => Some (CallMapDone a)
  | TellReduce a => Some (CallReduceDone a)
  | Ask _ | RunMap _ | RunReduce _ => None
  end.

(** A process ends with all its threads; the calls of the threads [sent] were sent. *)
Definition kill (s : cluster) (pid : Z) (sent : list tid) : cluster :=
  set_late (set_threads s (filter (λ tp, tp.1.1 ≠ pid) (threads s)))
    (late s ++ omap (λ t, if decide (t.1 = pid) then threads s !! t ≫= remote_call t.1 else None) sent).

(** The goroutines a handler has started. *)
Definition spawned (r : response) : list thread :=
  match r with
  | RespMap r None => [MapMonitor (mr_Maptask_id r)]
  | RespReduce r None =>
      if decide (rr_Reducetask_id r = -1)%Z then []
      else [ReduceMonitor (rr_Reducetask_id r) (rr_Reducefiles r)]
  | _ => []
  end.

(** What [call] gives: nothing when the dial fails, which ends the process of the
caller; a handler that panics ends the coordinator, and the call fails. *)
Definition call_coordinator (s : cluster) (k : call) : option (cluster * option response) :=
  match coord_status s with
  | Up =>
      match serve (coord s) k with
      | Ok (c, r) => Some (set_coord s c (monitors s ++ spawned r), Some r)
      | Crash f => Some (set_status s (Died f), None)
      end
  | Exited | Died _ => None
  end.

(** The reply of a call that returned true. *)
Definition map_answer (r : option response) : option MapReply :=
  match r with Some (RespMap r None) => Some r | _ => None end.
Definition reduce_answer (r : option response) : option ReduceReply :=
  match r with Some (RespReduce r None) => Some r | _ => None end.

Definition after_turn (pa : phase * action) : pc :=
  match pa with
  | (_, DoMap r) => RunMap r
  | (_, DoReduce r) => RunReduce r
  | (p, _) => Ask p
  end.

(** Where a thread is when its call is over; the thread that served a monitor's
call is gone. *)
Definition after_call (t : tid) (p : pc) (r : option response) : option pc :=
  match p with
  | Registering => Some (Ask MapPhase)
  | Ask MapPhase => after_turn <$> Worker_turn MapPhase (AMap (map_answer r))
  | Ask ReducePhase => after_turn <$> Worker_turn ReducePhase (AReduce (reduce_answer r))
  | TellMap _ => if t.2 is None then Some (Ask MapPhase) else None
  | TellReduce _ => if t.2 is None then Some (Ask ReducePhase) else None
  | Ask _ | RunMap _ | RunReduce _ => Some p
  end.

Definition set_thread (s : cluster) (t : tid) (o : option pc) : cluster :=
  set_threads s (partial_alter (λ _, o) t (threads s)).

Section cluster.
Context (can_open : string → bool).
Context (mapf : string → string → list KeyValue).
Context (reducef : string → list string → string).
Context (sort_by_key : list KeyValue → list KeyValue).

(** ** Tasks *)

(** The task of a thread, and the report it makes next. *)
Definition exec (p : pc) (fs : files_t) : option (outcome (files_t * pc)) :=
  match p with
  | RunMap r => Some (let* (fs, a) := map_exec can_open mapf r fs in Ok (fs, TellMap a))
  | RunReduce r =>
      let (fs, a) := reduce_exec can_open reducef sort_by_key r fs in Some (Ok (fs, TellReduce a))
  | _ => None
  end.

(** The files when the task has written its first [m] pairs, or lines. *)
Definition exec_partial (p : pc) (m : nat) (fs : files_t) : option (outcome files_t) :=
  match p with
  | RunMap r =>
      Some (let* kva := perform_map mapf fs (mr_Filename r) in
            bucket_by_intermediate_key can_open (take m kva) (mr_Maptask_id r) (mr_NReduce r) fs)
  | RunReduce r =>
      let kva := read_intermediates sort_by_key fs (rr_Reducefiles r) in
      let name := out_name (rr_Reducetask_id r) in
      Some (Ok (if can_open name then <[name := reduce_loop reducef m kva 0 ""]> fs else fs))
  | _ => None
  end.

(** ** The monitors *)

Definition live (s : cluster) : list Z :=
  omap (λ tp, if tp.1.2 is None then Some tp.1.1 else None) (map_to_list (threads s)).

(** A process listens on its socket from [startServer] on. *)
Definition dial (s : cluster) (addr : string) : bool :=
  existsb (λ pid, bool_decide (workerSocket pid = addr)) (live s).
Definition listener (s : cluster) (addr : string) : option Z :=
  List.find (λ pid, bool_decide (workerSocket pid = addr)) (live s).

(** The call of a monitor is not over. *)
Definition busy (s : cluster) (k : nat) : bool :=
  existsb (λ tp, bool_decide (tp.1.2 = Some k)) (map_to_list (threads s)).

(** What [DoMapTask] and [DoReduceTask] make of their arguments. *)
Definition redo_map (a : MapArgs) : pc :=
  RunMap {| mr_NReduce := ma_NReduce a; mr_Filename := ma_Filename a; mr_Maptask_id := ma_Maptask_id a |}.
Definition redo_reduce (a : ReduceArgs) : pc :=
  RunReduce {| rr_Reducetask_id := ra_Reducetask_id a; rr_Reducefiles := ra_Reducefiles a |}.

(** What a monitor does when it wakes up: stop, or send the task to a worker.  It reads the
flag of its task before it takes the lock in [callWorker], and the task may be reported in
between: [stale] is a turn in which the flag was read before, when it was not set. *)
Definition monitor_turn (stale : bool) (c : Coordinator) (m : thread) : option (outcome (option pc)) :=
  match m with
  | MapMonitor id =>
      Some (if stale then let* a := callWorkerRedoMap c id in Ok (Some (redo_map a))
            else let* r := spawn_map_monitor c id in Ok (redo_map <$> r))
  | ReduceMonitor id rfiles =>
      Some (if stale then Ok (Some (redo_reduce (callWorkerRedoReduce id rfiles)))
            else let* r := spawn_reduce_monitor c id rfiles in Ok (redo_reduce <$> r))
  | _ => None
  end.

(** [lost]: the worker that was found is gone when it is dialled again. *)
Definition wake (s : cluster) (k : nat) (order : list (Z * string)) (lost stale : bool) : option cluster :=
  match coord_status s, monitors s !! k with
  | Up, Some m =>
      if busy s k || negb (map_order (worker_book (coord s)) order) then None
      else
        match monitor_turn stale (coord s) m with
        | None => None
        | Some (Crash f) => Some (set_status s (Died f))
        | Some (Ok None) => Some (set_coord s (coord s) (<[k := Stopped]> (monitors s)))
        | Some (Ok (Some p)) =>
            match callWorker (dial s) (if lost then λ _, false else dial s) order (coord s) with
            | Crash f => Some (set_status s (Died f))
            | Ok (c, addr) =>
                match listener s addr with
                | Some pid => Some (set_thread (set_coord s c (monitors s)) (pid, Some k) (Some p))
                | None => None
                end
            end
        end
  | _, _ => None
  end.

(** ** Steps *)

Inductive event :=
| EJoin (pid : Z)                     (* a worker is started *)
| EDie (pid : Z) (sent : list tid)    (* a worker process ends *)
| ECall (t : tid)                     (* a thread calls the coordinator *)
| ELate (j : nat)                     (* the call of a process that has ended is served *)
| ELose (j : nat)                     (* or is lost *)
| ERun (t : tid)                      (* a thread runs its task *)
| EPartial (t : tid) (m : nat)        (* a part of the task of a thread *)
| EWake (k : nat) (order : list (Z * string)) (lost stale : bool)
| ELeave.                             (* the coordinator is [Done] and exits *)

Definition cluster_next (s : cluster) (e : event) : option cluster :=
  match e with
  | EJoin pid =>
      if threads s !! (pid, None) is None then Some (set_thread s (pid, None) (Some Registering)) else None
  | EDie pid sent => if decide (NoDup sent) then Some (kill s pid sent) else None
  | ECall t =>
      match threads s !! t with
      | None => None
      | Some p =>
          match remote_call t.1 p with
          | None => None
          | Some k =>
              match call_coordinator s k with
              | None => Some (kill s t.1 [])
              | Some (s, r) => Some (set_thread s t (after_call t p r))
              end
          end
      end
  | ELate j =>
      match late s !! j ≫= call_coordinator (set_late s (delete j (late s))) with
      | Some (s, _) => Some s
      | None => None
      end
  | ELose j => if late s !! j is Some _ then Some (set_late s (delete j (late s))) else None
  | ERun t =>
      match threads s !! t ≫= λ p, exec p (files s) with
      | None => None
      | Some (Ok (fs, p)) => Some (set_thread (set_files s fs) t (Some p))
      | Some (Crash _) => Some (kill s t.1 [])
      end
  | EPartial t m =>
      match threads s !! t ≫= λ p, exec_partial p m (files s) with
      | None => None
      | Some (Ok fs) => Some (set_files s fs)
      | Some (Crash _) => Some (kill s t.1 [])
      end
  | EWake k order lost stale => wake s k order lost stale
  | ELeave =>
      match coord_status s with
      | Up => if Done (coord s) then Some (set_status s Exited) else None
      | _ => None
      end
  end.

(** The start: a coordinator and no worker. *)
Definition start (inputs : list string) (n : Z) (fs : files_t) : outcome cluster :=
  let* c := MakeCoordinator inputs n in Ok (mkCluster c Up [] ∅ [] fs).

End cluster.
End MrSystem.
