(* ===== verification/MrCorrect.v ===== *)
(** * The MapReduce system is correct

The invariant of the machine of [MrSystem], and what a job leaves when the
coordinator says it is done, whatever workers have joined, died and redone. *)

From S2P Require Import Prelude GoStrings Json MrCoordinator MrWorker MrJob MrSystem.
From stdpp Require Import options.
Import Json Mr MrWorker MrJob MrSystem.

Module MrCorrect.

Abbreviation threads_t := (gmap (Z * option nat) pc).

(** ** How the coordinator changes *)

Record grows (c c' : Coordinator) : Prop := {
  gr_files : filenames c' = filenames c;
  gr_n : nReduce c' = nReduce c;
  gr_map : (counter_map c ≤ counter_map c')%Z;
  gr_reduce : (counter_reduce c ≤ counter_reduce c')%Z;
  gr_done : done_map c = len (filenames c) → done_map c' = len (filenames c);
  gr_done_map : (done_map c ≤ done_map c')%Z;
  gr_done_reduce : (done_reduce c ≤ done_reduce c')%Z;
  gr_map_flags : ∀ i, index (map_complete c) i = Ok true → index (map_complete c') i = Ok true;
  gr_reduce_flags : ∀ i, index (reduce_complete c) i = Ok true → index (reduce_complete c') i = Ok true;
  gr_map_len : len (map_complete c') = len (map_complete c);
  gr_reduce_len : len (reduce_complete c') = len (reduce_complete c) }.

Lemma grows_refl c : grows c c.
Proof. by split. Qed.

Lemma set_flag_mono (l : list bool) (b : bool) j i :
  index l i = Ok true → index (if b then l else <[Z.to_nat j := true]> l) i = Ok true.
Proof.
  destruct b; [done|]. rewrite !index_Ok. intros [H0 Hi]. split; [done|].
  destruct (decide (Z.to_nat i = Z.to_nat j)) as [<-|]; [|by rewrite list_lookup_insert_ne].
  apply list_lookup_insert_eq. by eapply lookup_lt_Some.
Qed.

Lemma set_flag_new (l : list bool) (b : bool) j i :
  (0 ≤ j)%Z → index (if b then l else <[Z.to_nat j := true]> l) i = Ok true →
  index l i = Ok true ∨ i = j.
Proof.
  intros Hj. destruct b; [by left|]. rewrite !index_Ok. intros [H0 Hi].
  apply list_lookup_insert_Some in Hi as [(? & _)|[_ ?]]; [right; lia|by left].
Qed.

Lemma set_flag_on (l : list bool) b j :
  index l j = Ok b → index (if b then l else <[Z.to_nat j := true]> l) j = Ok true.
Proof.
  intros H. destruct b; [done|]. apply index_Ok in H as [H0 H]. apply index_Ok. split; [done|].
  apply list_lookup_insert_eq. by eapply lookup_lt_Some.
Qed.

Lemma all_flags c i :
  wf c → done_map c = len (filenames c) → (0 ≤ i < len (filenames c))%Z →
  index (map_complete c) i = Ok true.
Proof.
  intros [] Hd Hi.
  assert (count_true (map_complete c) = length (map_complete c)) as Hc by (unfold len in *; lia).
  apply count_true_full in Hc. rewrite Forall_lookup in Hc.
  destruct (index_in_range (map_complete c) i) as [b Hb]; [lia|]. rewrite Hb.
  apply index_Ok in Hb as [_ Hb]. by rewrite (Hc _ _ Hb).
Qed.

Lemma all_reduce_flags c i :
  wf c → done_reduce c = nReduce c → (0 ≤ i < nReduce c)%Z →
  index (reduce_complete c) i = Ok true.
Proof.
  intros [] Hd Hi.
  assert (count_true (reduce_complete c) = length (reduce_complete c)) as Hc by (unfold len in *; lia).
  apply count_true_full in Hc. rewrite Forall_lookup in Hc.
  destruct (index_in_range (reduce_complete c) i) as [b Hb]; [lia|]. rewrite Hb.
  apply index_Ok in Hb as [_ Hb]. by rewrite (Hc _ _ Hb).
Qed.

Section job.
Context (can_open : string → bool).
Context (mapf : string → string → list KeyValue).
Context (reducef : string → list string → string).
Context (sort_by_key : list KeyValue → list KeyValue).
Context (inputs : list string) (n : Z) (fs0 : files_t).
Hypothesis job : job_ok can_open mapf inputs n fs0.

Implicit Types (c : Coordinator) (ms : list thread) (ts : threads_t) (lt : list call).
Implicit Types (fs : files_t) (s : cluster).

(** ** The coordinator and the threads *)

Definition pc_ok c (p : pc) : Prop :=
  match p with
  | Registering | Ask MapPhase => True
  | Ask ReducePhase => counter_map c = len inputs
  | Ask _ => False
  | RunMap r =>
      mr_NReduce r = n ∧ index inputs (mr_Maptask_id r) = Ok (mr_Filename r) ∧
      (mr_Maptask_id r < counter_map c)%Z
  | TellMap a => (0 ≤ ma_Maptask_id a < counter_map c)%Z
  | RunReduce r =>
      r = reduce_reply inputs (rr_Reducetask_id r) ∧
      (0 ≤ rr_Reducetask_id r < counter_reduce c)%Z ∧ done_map c = len inputs
  | TellReduce a => (0 ≤ ra_Reducetask_id a < counter_reduce c)%Z ∧ done_map c = len inputs
  end.

Definition monitor_ok c (m : thread) : Prop :=
  match m with
  | MapMonitor i => (0 ≤ i < counter_map c)%Z
  | ReduceMonitor i rfiles =>
      rfiles = rr_Reducefiles (reduce_reply inputs i) ∧ (0 ≤ i < counter_reduce c)%Z ∧
      done_map c = len inputs
  | Stopped => True
  | _ => False
  end.

(** The thread works on the monitor's task. *)
Definition serves (m : thread) (p : pc) : Prop :=
  match m, p with
  | MapMonitor i, RunMap r => mr_Maptask_id r = i
  | MapMonitor i, TellMap a => ma_Maptask_id a = i
  | ReduceMonitor i _, RunReduce r => rr_Reducetask_id r = i
  | ReduceMonitor i _, TellReduce a => ra_Reducetask_id a = i
  | _, _ => False
  end.

(** A call that a thread of the system makes. *)
Definition call_fine c (k : call) : Prop := ∃ pid p, remote_call pid p = Some k ∧ pc_ok c p.

Record ctl_inv c ms ts lt : Prop := {
  ci_wf : wf c;
  ci_files : filenames c = inputs;
  ci_n : nReduce c = n;
  ci_book : ∀ pid a, worker_book c !! pid = Some a → a = workerSocket pid;
  ci_pc : ∀ t p, ts !! t = Some p → pc_ok c p;
  ci_redo : ∀ pid k p, ts !! (pid, Some k) = Some p →
    is_Some (ts !! (pid, None)) ∧ ∃ m, ms !! k = Some m ∧ serves m p;
  ci_late : ∀ k, k ∈ lt → call_fine c k;
  ci_monitor : ∀ m, m ∈ ms → monitor_ok c m;
  ci_map_monitor : ∀ i, (0 ≤ i < counter_map c)%Z → index (map_complete c) i = Ok false →
    MapMonitor i ∈ ms;
  ci_reduce_monitor : ∀ i, (0 ≤ i < counter_reduce c)%Z → index (reduce_complete c) i = Ok false →
    ReduceMonitor i (rr_Reducefiles (reduce_reply inputs i)) ∈ ms }.

Lemma pc_ok_grows c c' p :
  filenames c = inputs → grows c c' → wf c' → pc_ok c p → pc_ok c' p.
Proof.
  intros Hf [] [_ _ Hcm _ _ _ _]. rewrite Hf in *. rewrite gr_files0 in Hcm.
  destruct p as [|[]|r|a|r|a]; cbn [pc_ok]; try done; try lia.
  - intros (? & ? & ?). split_and!; try done. lia.
  - intros (? & ? & Hd). split_and!; try done; [lia..|by apply gr_done0].
Qed.

Lemma monitor_ok_grows c c' m : filenames c = inputs → grows c c' → monitor_ok c m → monitor_ok c' m.
Proof.
  intros Hf []. rewrite Hf in *. destruct m; cbn [monitor_ok]; try done; [lia|].
  intros (? & ? & Hd). split_and!; try done; [lia..|by apply gr_done0].
Qed.

(** A flag that is not set was not set before. *)
Lemma flag_false_back (l l' : list bool) i :
  len l' = len l → (∀ i, index l i = Ok true → index l' i = Ok true) →
  index l' i = Ok false → index l i = Ok false.
Proof.
  intros Hl Hm Hf. pose proof (index_ok_bounds _ _ _ Hf) as Hb. rewrite Hl in Hb.
  destruct (index_in_range _ _ Hb) as [[] Hi]; [|done]. apply Hm in Hi. congruence.
Qed.

Lemma ctl_inv_grow c c' ms new ts lt :
  ctl_inv c ms ts lt → grows c c' → wf c' →
  (∀ pid a, worker_book c' !! pid = Some a → a = workerSocket pid) →
  (∀ m, m ∈ new → monitor_ok c' m) →
  (∀ i, (counter_map c ≤ i < counter_map c')%Z → MapMonitor i ∈ new) →
  (∀ i, (counter_reduce c ≤ i < counter_reduce c')%Z →
    ReduceMonitor i (rr_Reducefiles (reduce_reply inputs i)) ∈ new) →
  ctl_inv c' (ms ++ new) ts lt.
Proof.
  intros [] Hg Hwf Hbook Hnew Hm Hr. split.
  - done.
  - by rewrite (gr_files _ _ Hg).
  - by rewrite (gr_n _ _ Hg).
  - done.
  - intros t p Ht. eapply pc_ok_grows; eauto.
  - intros pid k p Hp. destruct (ci_redo0 pid k p Hp) as (? & m & Hk & ?). split; [done|].
    exists m. split; [by apply lookup_app_l_Some|done].
  - intros k (pid & p & Hk & Hp)%ci_late0. exists pid, p. split; [done|]. eapply pc_ok_grows; eauto.
  - intros m [Hin|Hin]%elem_of_app; [|by apply Hnew]. eapply monitor_ok_grows; eauto.
  - intros i Hi Hf. apply elem_of_app. destruct (decide (counter_map c ≤ i)%Z); [right; apply Hm; lia|left].
    apply ci_map_monitor0; [lia|]. destruct Hg. by eapply (flag_false_back _ (map_complete c')).
  - intros i Hi Hf. apply elem_of_app. destruct (decide (counter_reduce c ≤ i)%Z); [right; apply Hr; lia|left].
    apply ci_reduce_monitor0; [lia|]. destruct Hg. by eapply (flag_false_back _ (reduce_complete c')).
Qed.

(** A thread starts, goes on, or is over. *)
Lemma ctl_inv_alter c ms ts lt t (o : option pc) :
  ctl_inv c ms ts lt → (t.2 = None → is_Some o) →
  (∀ p, o = Some p → pc_ok c p ∧ ∀ k, t.2 = Some k →
    is_Some (ts !! (t.1, None)) ∧ ∃ m, ms !! k = Some m ∧ serves m p) →
  ctl_inv c ms (partial_alter (λ _, o) t ts) lt.
Proof.
  intros [] Hmain Ho. split; try done.
  - intros t' p. destruct (decide (t' = t)) as [->|Hne].
    + rewrite lookup_partial_alter_eq. intros E. by apply Ho.
    + rewrite lookup_partial_alter_ne by done. apply ci_pc0.
  - intros pid k p Hp.
    assert (is_Some (ts !! (pid, None)) → is_Some (partial_alter (λ _, o) t ts !! (pid, None))) as Hm.
    { intros Hs. destruct (decide ((pid, None) = t)) as [<-|Hne].
      - rewrite lookup_partial_alter_eq. by apply Hmain.
      - by rewrite lookup_partial_alter_ne. }
    destruct (decide ((pid, Some k) = t)) as [<-|Hne].
    + rewrite lookup_partial_alter_eq in Hp. destruct (Ho p Hp) as [_ Hs].
      destruct (Hs k eq_refl) as (? & ?). split; [by apply Hm|done].
    + rewrite lookup_partial_alter_ne in Hp by done.
      destruct (ci_redo0 pid k p Hp) as (? & ?). split; [by apply Hm|done].
Qed.

Lemma ctl_inv_thread c ms ts lt t p (o : option pc) :
  ctl_inv c ms ts lt → ts !! t = Some p → (t.2 = None → is_Some o) →
  (∀ p', o = Some p' → pc_ok c p' ∧ ∀ k m, t.2 = Some k → serves m p → serves m p') →
  ctl_inv c ms (partial_alter (λ _, o) t ts) lt.
Proof.
  intros Hc Ht Hmain Ho. apply ctl_inv_alter; [done..|]. intros p' Hp'. destruct (Ho p' Hp') as [? Hs].
  split; [done|]. intros k Hk. destruct t as [pid k']. cbn in *. subst k'.
  destruct (ci_redo _ _ _ _ Hc pid k p Ht) as (? & m & ? & ?). eauto 6.
Qed.

(** A process ends. *)
Definition sent_calls ts (pid : Z) (sent : list tid) : list call :=
  omap (λ t, if decide (t.1 = pid) then ts !! t ≫= remote_call t.1 else None) sent.

Lemma sent_calls_elem ts pid sent k :
  k ∈ sent_calls ts pid sent → ∃ t p, ts !! t = Some p ∧ remote_call t.1 p = Some k.
Proof.
  intros (t & _ & Ht)%list_elem_of_omap. case_decide; [|done].
  destruct (ts !! t) as [p|] eqn:Hp; [|done]. eauto.
Qed.

Lemma ctl_inv_late c ms ts lt lt' :
  ctl_inv c ms ts lt → (∀ k, k ∈ lt' → call_fine c k) → ctl_inv c ms ts lt'.
Proof. intros [] Hl. by split. Qed.

Lemma ctl_inv_kill c ms ts lt pid sent :
  ctl_inv c ms ts lt →
  ctl_inv c ms (filter (λ tp : (Z * option nat) * pc, tp.1.1 ≠ pid) ts) (lt ++ sent_calls ts pid sent).
Proof.
  intros []. split; try done.
  - intros t p [Ht _]%map_lookup_filter_Some. by eapply ci_pc0.
  - intros pid' k p [Hp Hne]%map_lookup_filter_Some. cbn [fst] in Hne.
    destruct (ci_redo0 pid' k p Hp) as ([q Hq] & ?). split; [|done].
    exists q. by apply map_lookup_filter_Some.
  - intros k [Hk|(t & p & Ht & Hp)%sent_calls_elem]%elem_of_app; [by apply ci_late0|].
    exists t.1, p. eauto.
Qed.

(** ** The files *)

Definition map_settled c ts lt (i : Z) : Prop :=
  index (map_complete c) i = Ok true ∨ (∃ t a, ts !! t = Some (TellMap a) ∧ ma_Maptask_id a = i) ∨
  ∃ a, CallMapDone a ∈ lt ∧ ma_Maptask_id a = i.
Definition reduce_settled c ts lt (r : Z) : Prop :=
  index (reduce_complete c) r = Ok true ∨ (∃ t a, ts !! t = Some (TellReduce a) ∧ ra_Reducetask_id a = r) ∨
  ∃ a, CallReduceDone a ∈ lt ∧ ra_Reducetask_id a = r.

Abbreviation written := (map_written mapf inputs n fs0).
Abbreviation clean := (map_clean mapf inputs n fs0).
Abbreviation kept := (inputs_kept inputs fs0).

(** What reduce task [r] writes. *)
Definition result (r : Z) : string :=
  out_lines reducef (job_groups mapf sort_by_key inputs n fs0 r).

Record data_inv c ts lt fs : Prop := {
  di_inputs : kept fs;
  di_clean : ∀ i, (0 ≤ i)%Z → clean i fs;
  di_written : ∀ i, (0 ≤ i)%Z → map_settled c ts lt i → written i fs;
  di_out : ∀ r, (0 ≤ r)%Z → reduce_settled c ts lt r → fs !! out_name r = Some (result r) }.

Lemma data_inv_settled c ts lt c' ts' lt' fs :
  data_inv c ts lt fs →
  (∀ i, (0 ≤ i)%Z → map_settled c' ts' lt' i → map_settled c ts lt i) →
  (∀ r, (0 ≤ r)%Z → reduce_settled c' ts' lt' r → reduce_settled c ts lt r) →
  data_inv c' ts' lt' fs.
Proof. intros [] Hm Hr. split; eauto. Qed.

(** The files of map task [i] are written anew. *)
Lemma data_inv_map c ts lt c' ts' lt' fs fs' i :
  data_inv c ts lt fs → (0 ≤ i)%Z →
  (∀ name, (∀ r, (0 ≤ r)%Z → name ≠ intermediate i r) → fs' !! name = fs !! name) →
  clean i fs' → (map_settled c' ts' lt' i → written i fs') →
  (∀ j, (0 ≤ j)%Z → j ≠ i → map_settled c' ts' lt' j → map_settled c ts lt j) →
  (∀ r, (0 ≤ r)%Z → reduce_settled c' ts' lt' r → reduce_settled c ts lt r) →
  data_inv c' ts' lt' fs'.
Proof using job.
  intros [] Hi Ho Hc Hw Hm Hr.
  assert (∀ j, (0 ≤ j)%Z → j ≠ i → ∀ r, (0 ≤ r)%Z → fs' !! intermediate j r = fs !! intermediate j r)
    as Hoth by (intros j Hj Hne r _; by apply (other_intermediate _ _ i)).
  split.
  - intros f Hf. rewrite Ho; [by apply di_inputs0|]. intros r _. by apply (job_names _ _ _ _ _ job).
  - intros j Hj. destruct (decide (j = i)) as [->|Hne]; [done|].
    eapply map_clean_eq; [by apply Hoth|by apply di_clean0].
  - intros j Hj Hs. destruct (decide (j = i)) as [->|Hne]; [by apply Hw|].
    eapply map_written_eq; [by apply Hoth|apply di_written0; auto].
  - intros r Hr0 Hs. rewrite Ho; [by apply di_out0; auto|]. intros r' _. by apply out_name_intermediate.
Qed.

(** The output file of reduce task [r] is written anew. *)
Lemma data_inv_reduce c ts lt c' ts' lt' fs r text :
  data_inv c ts lt fs → (reduce_settled c' ts' lt' r → text = result r) →
  (∀ i, (0 ≤ i)%Z → map_settled c' ts' lt' i → map_settled c ts lt i) →
  (∀ r', (0 ≤ r')%Z → r' ≠ r → reduce_settled c' ts' lt' r' → reduce_settled c ts lt r') →
  data_inv c' ts' lt' (<[out_name r := text]> fs).
Proof using job.
  intros [] Ht Hm Hr. destruct (insert_out_kept can_open mapf inputs n fs0 fs r text job) as [Hk Hi].
  split.
  - by apply Hk.
  - intros i Hi0. eapply map_clean_eq; [intros; by apply Hi|by apply di_clean0].
  - intros i Hi0 Hs. eapply map_written_eq; [intros; by apply Hi|apply di_written0; auto].
  - intros r' Hr0 Hs. destruct (decide (r' = r)) as [->|Hne].
    + rewrite lookup_insert_eq. by rewrite Ht.
    + rewrite lookup_insert_ne by (intros ?%out_name_inj; congruence). auto.
Qed.

(** ** Calls of the coordinator *)

(** The threads that report are those that did before. *)
Lemma map_settled_alter c c' ts lt t o i :
  (∀ a, o ≠ Some (TellMap a)) →
  (index (map_complete c') i = Ok true → map_settled c ts lt i) →
  map_settled c' (partial_alter (λ _, o) t ts) lt i → map_settled c ts lt i.
Proof.
  intros Ho Hc [H|[(t' & a & Ht & Ha)|H]]; [by apply Hc| |by right; right].
  destruct (decide (t' = t)) as [->|Hne].
  - rewrite lookup_partial_alter_eq in Ht. by destruct (Ho a).
  - rewrite lookup_partial_alter_ne in Ht by done. right. left. eauto.
Qed.

Lemma reduce_settled_alter c c' ts lt t o i :
  (∀ a, o ≠ Some (TellReduce a)) →
  (index (reduce_complete c') i = Ok true → reduce_settled c ts lt i) →
  reduce_settled c' (partial_alter (λ _, o) t ts) lt i → reduce_settled c ts lt i.
Proof.
  intros Ho Hc [H|[(t' & a & Ht & Ha)|H]]; [by apply Hc| |by right; right].
  destruct (decide (t' = t)) as [->|Hne].
  - rewrite lookup_partial_alter_eq in Ht. by destruct (Ho a).
  - rewrite lookup_partial_alter_ne in Ht by done. right. left. eauto.
Qed.

(** The coordinator has served a call. *)
Record served c ms ts lt (k : call) c' (r : response) : Prop := {
  sv_inv : ctl_inv c' (ms ++ spawned r) ts lt;
  sv_map : ∀ i, index (map_complete c') i = Ok true →
    index (map_complete c) i = Ok true ∨ ∃ a, k = CallMapDone a ∧ ma_Maptask_id a = i;
  sv_reduce : ∀ i, index (reduce_complete c') i = Ok true →
    index (reduce_complete c) i = Ok true ∨ ∃ a, k = CallReduceDone a ∧ ra_Reducetask_id a = i;
  sv_grows : grows c c';
  sv_after : ∀ t p p', remote_call t.1 p = Some k → pc_ok c p → after_call t p (Some r) = Some p' →
    pc_ok c' p' ∧ (∀ a, p' ≠ TellMap a) ∧ (∀ a, p' ≠ TellReduce a) }.

(** A call that is not a report. *)
Lemma served_quiet c ms ts lt k c' r p1 :
  map_complete c' = map_complete c → reduce_complete c' = reduce_complete c →
  grows c c' → ctl_inv c' (ms ++ spawned r) ts lt →
  (∀ t p, remote_call t.1 p = Some k → pc_ok c p → after_call t p (Some r) = Some p1 ∧ pc_ok c' p1) →
  match p1 with TellMap _ | TellReduce _ => False | _ => True end →
  served c ms ts lt k c' r.
Proof.
  intros Em Er Hg Hc Ha Hp1. split; [done|rewrite Em; by left|rewrite Er; by left|done|].
  intros t p p' Hk Hp E. destruct (Ha t p Hk Hp) as [E' Hok]. rewrite E in E'. injection E' as <-.
  split; [done|]. split; by intros a ->.
Qed.

Lemma register_served c ms ts lt pid :
  ctl_inv c ms ts lt →
  let a := {| wa_Worker_id := pid; wa_Worker_addr := workerSocket pid |} in
  served c ms ts lt (CallRegister a) (RegisterWorker c a).1 (RespErr None).
Proof.
  intros Hc a.
  assert (grows c (RegisterWorker c a).1) as Hg by by split.
  apply served_quiet with (Ask MapPhase); try done; [|by intros t [|[]| | | |]].
  apply (ctl_inv_grow c); try done.
  - destruct Hc as [[] ?]. by split.
  - intros pid' addr. cbn. rewrite lookup_insert_Some. intros [[<- <-]|[_ H]]; [done|].
    by apply (ci_book _ _ _ _ Hc).
  - by intros m ?%not_elem_of_nil.
  - intros i. cbn. lia.
  - intros i. cbn. lia.
Qed.

Lemma give_map_served c ms ts lt a c' r :
  ctl_inv c ms ts lt → serve c (CallGiveMap a) = Ok (c', r) →
  served c ms ts lt (CallGiveMap a) c' r.
Proof.
  intros Hc Hs. pose proof (serve_keeps_wf c (CallGiveMap a) (ci_wf _ _ _ _ Hc) I) as (c1 & r1 & Hs1 & Hwf).
  rewrite Hs in Hs1. injection Hs1 as <- <-. cbn [serve] in Hs.
  pose proof (ci_files _ _ _ _ Hc) as Hf. pose proof (ci_n _ _ _ _ Hc) as Hn.
  destruct (GiveMapTask c a) as [[[c1 r1] e]|] eqn:Hg; [|done]. cbn [bind] in Hs. injection Hs as <- <-.
  destruct (GiveMapTask_inv _ _ _ _ _ Hg) as [(Hlen & -> & -> & ->)|(Hlt & -> & Hl)].
  - apply served_quiet with (Ask ReducePhase); try done; [cbn [spawned]; by rewrite app_nil_r|].
    intros t [|[]| | | |]; try done. intros _ _. split; [done|].
    cbn [pc_ok]. destruct Hwf. rewrite Hf in *. lia.
  - destruct (give_map_locked_Ok _ _ _ Hl) as (Hb & Hi & Hid & Hnr & ->).
    assert (grows c (set_counter_map c (counter_map c + 1))) as Hgr by (split; cbn; try done; lia).
    apply served_quiet with (RunMap r1); try done.
    + apply (ctl_inv_grow c); try done.
      * apply Hc.
      * intros m ->%list_elem_of_singleton. cbn. lia.
      * cbn. intros i Hi0. apply list_elem_of_singleton. f_equal. lia.
      * cbn. lia.
    + intros t [|[]| | | |]; try done. intros _ _. split; [done|].
      cbn. rewrite Hf in *. split_and!; [congruence|done|lia].
Qed.

Lemma give_reduce_served c ms ts lt a c' r :
  ctl_inv c ms ts lt → counter_map c = len inputs → serve c (CallGiveReduce a) = Ok (c', r) →
  served c ms ts lt (CallGiveReduce a) c' r.
Proof.
  intros Hc Hall Hs.
  pose proof (serve_keeps_wf c (CallGiveReduce a) (ci_wf _ _ _ _ Hc) I) as (c1 & r1 & Hs1 & Hwf).
  rewrite Hs in Hs1. injection Hs1 as <- <-. cbn [serve] in Hs.
  pose proof (ci_files _ _ _ _ Hc) as Hf. pose proof (ci_n _ _ _ _ Hc) as Hn.
  destruct (GiveReduceTask c a) as [[[c1 r1] e]|] eqn:Hg; [|done]. cbn [bind] in Hs. injection Hs as <- <-.
  destruct (GiveReduceTask_inv _ _ _ _ _ Hg) as [(Hne & -> & Hid & ->)|[(Hd & Hge & -> & ->)|(Hd & Hlt & -> & Hl)]].
  - apply served_quiet with (Ask ReducePhase); try done.
    + cbn. rewrite decide_True by done. by rewrite app_nil_r.
    + intros t [|[]| | | |]; try done. intros _ _. cbn. by rewrite decide_True.
  - apply served_quiet with (Ask ReducePhase); try done; [cbn; by rewrite app_nil_r|].
    by intros t [|[]| | | |].
  - rewrite give_reduce_locked_Ok in Hl by (rewrite Hall; apply len_nonneg). injection Hl as <- <-.
    pose proof (wf_counter_reduce _ (ci_wf _ _ _ _ Hc)) as Hcr.
    assert (grows c (set_counter_reduce c (counter_reduce c + 1))) as Hgr by (split; cbn; try done; lia).
    rewrite Hall. fold (reduce_reply inputs (counter_reduce c)).
    apply served_quiet with (RunReduce (reduce_reply inputs (counter_reduce c))); try done.
    + apply (ctl_inv_grow c); try done; cbn; rewrite ?decide_False by lia.
      * apply Hc.
      * intros m ->%list_elem_of_singleton. cbn. rewrite <-Hf. split_and!; [done|lia..|done].
      * lia.
      * intros i Hi. apply list_elem_of_singleton. replace i with (counter_reduce c) by lia. done.
    + intros t [|[]| | | |]; try done. intros _ _. cbn. rewrite decide_False by lia. split; [done|].
      cbn. rewrite <-Hf. split_and!; [done|lia..|done].
Qed.

(** ** Reports *)

Lemma map_done_served c ms ts lt a c' r :
  ctl_inv c ms ts lt → pc_ok c (TellMap a) → serve c (CallMapDone a) = Ok (c', r) →
  served c ms ts lt (CallMapDone a) c' r.
Proof.
  intros Hc Ha Hs. cbn [pc_ok] in Ha.
  pose proof (serve_keeps_wf c (CallMapDone a) (ci_wf _ _ _ _ Hc) Ha) as (c1 & r1 & Hs1 & Hwf).
  rewrite Hs in Hs1. injection Hs1 as <- <-. cbn [serve] in Hs.
  destruct (ci_wf _ _ _ _ Hc). destruct (index_in_range (map_complete c) (ma_Maptask_id a)) as [b Hb]; [lia|].
  rewrite (CheckLastMapDone_eq c a b Hb) in Hs. cbn [bind] in Hs. injection Hs as <- <-.
  match goal with |- served _ _ _ _ _ ?x _ => set (c2 := x) in * end.
  assert (grows c c2) as Hg.
  { split; cbn; try done; [|destruct b; lia|intros i; apply set_flag_mono|apply report_length].
    intros Hd. rewrite (all_flags c (ma_Maptask_id a)) in Hb; [|apply Hc|done|lia]. injection Hb as <-. lia. }
  split; [| |by left|done|].
  - cbn [spawned]. apply (ctl_inv_grow c); try done.
    + apply Hc.
    + by intros m ?%not_elem_of_nil.
    + cbn. lia.
    + cbn. lia.
  - intros i Hf. apply set_flag_new in Hf as [Hf| ->]; [by left|right; eauto|lia].
  - intros [pid [k|]] [|[]| | | |] p' Hk; try done. intros _ [= <-]. by split_and!.
Qed.

Lemma reduce_done_served c ms ts lt a c' r :
  ctl_inv c ms ts lt → pc_ok c (TellReduce a) → serve c (CallReduceDone a) = Ok (c', r) →
  served c ms ts lt (CallReduceDone a) c' r.
Proof.
  intros Hc [Ha Hd] Hs.
  pose proof (serve_keeps_wf c (CallReduceDone a) (ci_wf _ _ _ _ Hc) Ha) as (c1 & r1 & Hs1 & Hwf).
  rewrite Hs in Hs1. injection Hs1 as <- <-. cbn [serve] in Hs.
  destruct (ci_wf _ _ _ _ Hc).
  destruct (index_in_range (reduce_complete c) (ra_Reducetask_id a)) as [b Hb]; [lia|].
  rewrite (CheckLastReduceDone_eq c a b Hb) in Hs. cbn [bind] in Hs. injection Hs as <- <-.
  match goal with |- served _ _ _ _ _ ?x _ => set (c2 := x) in * end.
  assert (grows c c2) as Hg.
  { split; cbn; try done; [destruct b; lia|intros i; apply set_flag_mono|apply report_length]. }
  split; [|by left| |done|].
  - cbn [spawned]. apply (ctl_inv_grow c); try done.
    + apply Hc.
    + by intros m ?%not_elem_of_nil.
    + cbn. lia.
    + cbn. lia.
  - intros i Hf. apply set_flag_new in Hf as [Hf| ->]; [by left|right; eauto|lia].
  - intros [pid [k|]] [|[]| | | |] p' Hk; try done. intros _ [= <-]. split_and!; try done.
    cbn. pose proof (ci_files _ _ _ _ Hc) as Hf. rewrite <-Hf.
    apply wf_complete_all_given; [apply Hc|]. by rewrite Hf.
Qed.

(** Every call is answered. *)
Lemma fine_served c ms ts lt k :
  ctl_inv c ms ts lt → call_fine c k → ∃ c' r, serve c k = Ok (c', r) ∧ served c ms ts lt k c' r.
Proof.
  intros Hc (pid & p & Hk & Hp).
  assert (call_ok c k) as Hok.
  { destruct p as [|[]|r|a|r|a]; cbn in Hk, Hp; simplify_eq/=; try done. apply Hp. }
  destruct (serve_keeps_wf c k (ci_wf _ _ _ _ Hc) Hok) as (c' & r & Hs & _). exists c', r. split; [done|].
  destruct p as [|[]|x|a|x|a]; cbn in Hk; simplify_eq.
  - cbn in Hs. injection Hs as <- <-. by apply register_served.
  - by eapply give_map_served.
  - by eapply give_reduce_served.
  - by apply map_done_served.
  - by apply reduce_done_served.
Qed.

(** A thread has called, and the coordinator has answered. *)
Record called c ms ts lt (t : tid) (p : pc) c' (r : response) : Prop := {
  cd_inv : ctl_inv c' (ms ++ spawned r) (partial_alter (λ _, after_call t p (Some r)) t ts) lt;
  cd_map : ∀ i, (0 ≤ i)%Z →
    map_settled c' (partial_alter (λ _, after_call t p (Some r)) t ts) lt i → map_settled c ts lt i;
  cd_reduce : ∀ i, (0 ≤ i)%Z →
    reduce_settled c' (partial_alter (λ _, after_call t p (Some r)) t ts) lt i → reduce_settled c ts lt i;
  cd_grows : grows c c' }.

Lemma call_called c ms ts lt t p k :
  ctl_inv c ms ts lt → ts !! t = Some p → remote_call t.1 p = Some k →
  ∃ c' r, serve c k = Ok (c', r) ∧ called c ms ts lt t p c' r.
Proof.
  intros Hc Ht Hk. pose proof (ci_pc _ _ _ _ Hc _ _ Ht) as Hp.
  destruct (fine_served c ms ts lt k Hc) as (c' & r & Hs & [Hi Hm Hr Hg Ha]); [by exists t.1, p|].
  exists c', r. split; [done|]. specialize (Ha t p).
  split; [| | |done].
  - apply ctl_inv_thread with p; [done..| |].
    + destruct t as [pid o]; cbn. intros ->. destruct p as [|[]| | | |]; try done; cbn; case_match; eauto.
    + intros p' E. destruct (Ha p' Hk Hp E) as [? _]. split; [done|]. intros j m Hj Hsv.
      destruct t as [pid o]; cbn in *. subst o. destruct p as [|[]| | | |]; try done; by destruct m.
  - intros i Hi0. apply map_settled_alter.
    + intros a E. by destruct (Ha _ Hk Hp E) as (_ & Hn & _); destruct (Hn a).
    + intros [?|(a & -> & <-)]%Hm; [by left|]. right. left. exists t, a.
      by destruct p as [|[]| | | |]; simplify_eq/=.
  - intros i Hi0. apply reduce_settled_alter.
    + intros a E. by destruct (Ha _ Hk Hp E) as (_ & _ & Hn); destruct (Hn a).
    + intros [?|(a & -> & <-)]%Hr; [by left|]. right. left. exists t, a.
      by destruct p as [|[]| | | |]; simplify_eq/=.
Qed.

(** ** The monitors *)

Lemma live_spec s pid : pid ∈ live s ↔ is_Some (threads s !! (pid, None)).
Proof.
  unfold live. rewrite list_elem_of_omap. split.
  - intros ([[pid' [k|]] p] & Hin & [= <-]). apply elem_of_map_to_list in Hin. eauto.
  - intros [p Hp]. exists ((pid, None), p). split; [by apply elem_of_map_to_list|done].
Qed.

Lemma workerSocket_inj pid pid' : workerSocket pid = workerSocket pid' → pid = pid'.
Proof. unfold workerSocket. intros E%str_app_inj. by apply Itoa_inj. Qed.

Lemma dial_spec s addr :
  dial s addr = true ↔ ∃ pid, addr = workerSocket pid ∧ is_Some (threads s !! (pid, None)).
Proof.
  unfold dial. rewrite existsb_exists. split.
  - intros (pid & Hin & E). apply bool_decide_eq_true in E. apply list_elem_of_In, live_spec in Hin. eauto.
  - intros (pid & -> & Hin). exists pid. split; [by apply list_elem_of_In, live_spec|].
    by apply bool_decide_eq_true.
Qed.

Lemma listener_spec s pid :
  is_Some (threads s !! (pid, None)) → listener s (workerSocket pid) = Some pid.
Proof.
  intros Hp. unfold listener. destruct (List.find _ _) as [pid'|] eqn:Hf.
  - apply find_some in Hf as [_ E]. apply bool_decide_eq_true, workerSocket_inj in E. by subst.
  - apply (find_none _ _) with pid in Hf; [|by apply list_elem_of_In, live_spec].
    by apply bool_decide_eq_false in Hf.
Qed.

Lemma not_busy s k pid : busy s k = false → threads s !! (pid, Some k) = None.
Proof.
  intros Hb. destruct (threads s !! (pid, Some k)) as [p|] eqn:Hp; [|done].
  assert (busy s k = true); [|congruence]. apply existsb_exists. exists ((pid, Some k), p).
  split; [by apply list_elem_of_In, elem_of_map_to_list|]. by apply bool_decide_eq_true.
Qed.

(** The task a monitor sends. *)
Lemma monitor_turn_spec stale c ms ts lt m :
  ctl_inv c ms ts lt → m ∈ ms → m ≠ Stopped →
  (monitor_turn stale c m = Some (Ok None) ∧
   match m with
   | MapMonitor i => index (map_complete c) i = Ok true
   | ReduceMonitor i _ => index (reduce_complete c) i = Ok true
   | _ => False
   end) ∨
  (∃ p, monitor_turn stale c m = Some (Ok (Some p)) ∧ pc_ok c p ∧ serves m p ∧
    (∀ a, p ≠ TellMap a) ∧ (∀ a, p ≠ TellReduce a)).
Proof.
  intros Hc Hm Hns. pose proof (ci_monitor _ _ _ _ Hc m Hm) as Hok. destruct (ci_wf _ _ _ _ Hc).
  pose proof (ci_files _ _ _ _ Hc) as Hf. pose proof (ci_n _ _ _ _ Hc) as Hn.
  destruct m as [| | | | | | | | | | | | | | | | | | |i|i rf|]; try done; cbn in *.
  - assert (∃ p, (let* a := callWorkerRedoMap c i in Ok (Some (redo_map a))) = Ok (Some p) ∧ pc_ok c p ∧
      serves (MapMonitor i) p ∧ (∀ a, p ≠ TellMap a) ∧ (∀ a, p ≠ TellReduce a)) as (p & Hr & Hp).
    { unfold callWorkerRedoMap. destruct (index_in_range (filenames c) i) as [f Hi]; [lia|]. rewrite Hi. cbn.
      eexists. split_and!; [done|..]; try done. cbn. split_and!; [done|by rewrite <-Hf|lia]. }
    destruct stale; [right; exists p; by rewrite Hr|]. unfold spawn_map_monitor.
    destruct (index_in_range (map_complete c) i) as [[] Hb]; [lia|..]; rewrite Hb; [by left|right].
    exists p. split; [|done]. destruct (callWorkerRedoMap c i); cbn in *; congruence.
  - destruct Hok as (-> & Hi & Hd). destruct stale; [right; eexists; by split_and!|]. unfold spawn_reduce_monitor.
    destruct (index_in_range (reduce_complete c) i) as [[] Hb]; [lia|..]; rewrite Hb; [by left|right].
    eexists. by split_and!.
Qed.

Lemma ctl_inv_stop c ms ts lt k m :
  ctl_inv c ms ts lt → ms !! k = Some m → (∀ pid, ts !! (pid, Some k) = None) →
  match m with
  | MapMonitor i => index (map_complete c) i = Ok true
  | ReduceMonitor i _ => index (reduce_complete c) i = Ok true
  | _ => False
  end → ctl_inv c (<[k := Stopped]> ms) ts lt.
Proof.
  intros [] Hk Hts Hm.
  assert (∀ m', m' ∈ ms → m' ≠ m → m' ∈ <[k := Stopped]> ms) as Hin.
  { intros m' [j Hj]%list_elem_of_lookup Hne. apply list_elem_of_lookup. exists j.
    rewrite list_lookup_insert_ne; [done|]. intros <-. congruence. }
  split; try done.
  - intros pid j p Hp. destruct (ci_redo0 pid j p Hp) as (? & m' & Hj & ?). split; [done|].
    exists m'. split; [|done]. rewrite list_lookup_insert_ne; [done|]. intros <-. by rewrite Hts in Hp.
  - intros m' [j Hj]%list_elem_of_lookup. apply list_lookup_insert_Some in Hj as [(_ & <- & _)|[_ Hj]]; [done|].
    apply ci_monitor0, list_elem_of_lookup. eauto.
  - intros i Hi Hf. apply Hin; [by apply ci_map_monitor0|]. intros <-. congruence.
  - intros i Hi Hf. apply Hin; [by apply ci_reduce_monitor0|]. intros <-. congruence.
Qed.

(** ** Steps *)

Definition cluster_inv s : Prop :=
  ctl_inv (coord s) (monitors s) (threads s) (late s) ∧
  data_inv (coord s) (threads s) (late s) (files s).

(** The condition on runs.  A task is settled when it was reported, or its report is on the
way or about to be sent.  The monitors may have it run again after that, and the second
execution truncates the files of the first and writes them in place: no process may stop
in the middle of it, nor look at the files then.  Without the condition pairs can be lost
([redo_loses_pairs]). *)
Definition careful s (e : event) : Prop :=
  match e with
  | EPartial t _ =>
      match threads s !! t with
      | Some (RunMap r) => ¬ map_settled (coord s) (threads s) (late s) (mr_Maptask_id r)
      | Some (RunReduce r) => ¬ reduce_settled (coord s) (threads s) (late s) (rr_Reducetask_id r)
      | _ => True
      end
  | _ => True
  end.

Abbreviation next := (cluster_next can_open mapf reducef sort_by_key).

Lemma kill_inv s pid sent : cluster_inv s → cluster_inv (kill s pid sent).
Proof.
  intros [Hc Hd]. split; cbn; [by apply ctl_inv_kill|]. fold (sent_calls (threads s) pid sent).
  apply (data_inv_settled _ _ _ _ _ _ _ Hd); intros i Hi;
    (intros [Hf|[(t & a & [Ht _]%map_lookup_filter_Some & Ha)|(a & [Hin|Hin]%elem_of_app & Ha)]];
     [by left|right; left; by eauto|right; right; by eauto|];
     apply sent_calls_elem in Hin as (t & p & Ht & Hp); right; left; exists t, a;
     by destruct p as [|[]| | | |]; simplify_eq/=).
Qed.

(** A call in transit is served, or is lost. *)
Lemma lose_inv s j : cluster_inv s → cluster_inv (set_late s (delete j (late s))).
Proof.
  assert (∀ k, k ∈ delete j (late s) → k ∈ late s) as Hsub.
  { intros k Hk. by eapply elem_of_submseteq, submseteq_delete. }
  intros [Hc Hd]. split; cbn.
  - apply (ctl_inv_late _ _ _ (late s)); [done|]. intros k Hk%Hsub. by apply (ci_late _ _ _ _ Hc).
  - apply (data_inv_settled _ _ _ _ _ _ _ Hd); intros i Hi;
      (intros [?|[?|(a & ? & ?)]]; [by left|by right; left|right; right; by eauto]).
Qed.

Lemma late_inv s j k :
  cluster_inv s → late s !! j = Some k → coord_status s = Up →
  ∃ c r, serve (coord s) k = Ok (c, r) ∧ grows (coord s) c ∧
    call_coordinator (set_late s (delete j (late s))) k
    = Some (set_coord (set_late s (delete j (late s))) c (monitors s ++ spawned r), Some r) ∧
    cluster_inv (set_coord (set_late s (delete j (late s))) c (monitors s ++ spawned r)).
Proof.
  intros Hi Hj Hup. assert (k ∈ late s) as Hk by (apply list_elem_of_lookup; eauto).
  pose proof (lose_inv s j Hi) as [Hc' _]. pose proof Hi as [Hc Hd]. cbn in Hc'.
  destruct (fine_served _ _ _ _ k Hc') as (c & r & Hs & [Hinv Hm Hr Hg _]).
  { by apply (ci_late _ _ _ _ Hc). }
  exists c, r. split_and!; [done|done|unfold call_coordinator; cbn; by rewrite Hup, Hs|].
  assert (∀ k', k' ∈ delete j (late s) → k' ∈ late s) as Hsub.
  { intros k' Hk'. by eapply elem_of_submseteq, submseteq_delete. }
  split; cbn; [done|]. apply (data_inv_settled _ _ _ _ _ _ _ Hd); intros i Hi0.
  - intros [[?|(a & -> & ?)]%Hm|[?|(a & ? & ?)]]; [by left|right; right; by eauto|by right; left|right; right; by eauto].
  - intros [[?|(a & -> & ?)]%Hr|[?|(a & ? & ?)]]; [by left|right; right; by eauto|by right; left|right; right; by eauto].
Qed.

Lemma join_inv s pid :
  cluster_inv s → threads s !! (pid, None) = None →
  cluster_inv (set_thread s (pid, None) (Some Registering)).
Proof.
  intros [Hc Hd] Hn. split; cbn.
  - apply ctl_inv_alter; [done..|]. intros p [= <-]. by split.
  - apply (data_inv_settled _ _ _ _ _ _ _ Hd); intros i Hi.
    + apply map_settled_alter; [done|by left].
    + apply reduce_settled_alter; [done|by left].
Qed.

Lemma call_inv s t p k :
  cluster_inv s → threads s !! t = Some p → remote_call t.1 p = Some k → coord_status s = Up →
  ∃ c r, serve (coord s) k = Ok (c, r) ∧ called (coord s) (monitors s) (threads s) (late s) t p c r ∧
    call_coordinator s k = Some (set_coord s c (monitors s ++ spawned r), Some r) ∧
    cluster_inv (set_thread (set_coord s c (monitors s ++ spawned r)) t (after_call t p (Some r))).
Proof.
  intros [Hc Hd] Ht Hk Hup. destruct (call_called _ _ _ _ t p k Hc Ht Hk) as (c & r & Hs & Hcd).
  exists c, r. split_and!; [done|done|unfold call_coordinator; by rewrite Hup, Hs|].
  split; cbn; [apply Hcd|]. apply (data_inv_settled _ _ _ _ _ _ _ Hd); apply Hcd.
Qed.

(** A thread has run its task. *)
Lemma exec_inv s t p :
  cluster_inv s → threads s !! t = Some p →
  match p with RunMap _ | RunReduce _ => True | _ => False end →
  ∃ fs p', exec can_open mapf reducef sort_by_key p (files s) = Some (Ok (fs, p')) ∧
    (∀ m, serves m p → serves m p') ∧
    match p, p' with
    | RunMap r, TellMap a => ma_Maptask_id a = mr_Maptask_id r
    | RunReduce r, TellReduce a => ra_Reducetask_id a = rr_Reducetask_id r
    | _, _ => False
    end ∧
    cluster_inv (set_thread (set_files s fs) t (Some p')).
Proof using job.
  intros [Hc Hd] Ht Hp. pose proof (ci_pc _ _ _ _ Hc _ _ Ht) as Hok.
  destruct p as [| |r| |r|]; try done; cbn in Hok.
  - destruct Hok as (Hnr & Hf & Hlt). pose proof (index_ok_bounds _ _ _ Hf) as Hb.
    destruct (map_exec_written can_open mapf inputs n fs0 (files s) _ _ job (di_inputs _ _ _ _ Hd) Hf)
      as (fs & a & Hrun & Ha & Hw & Ho); [apply Hd; lia|].
    assert (r = {| mr_NReduce := n; mr_Filename := mr_Filename r; mr_Maptask_id := mr_Maptask_id r |}) as Er
      by (by destruct r; cbn in *; subst).
    exists fs, (TellMap a). split_and!; [|by intros []; cbn; congruence|done|].
    { cbn. rewrite Er, Hrun. done. }
    split; cbn.
    + apply ctl_inv_thread with (RunMap r); try done. intros p [= <-]. split; [cbn; lia|].
      intros k []; cbn; congruence.
    + apply (data_inv_map _ _ _ _ _ _ _ _ (mr_Maptask_id r) Hd); try done; [lia|by apply written_clean|..].
      * intros j Hj Hne [?|[(t' & a' & Ht' & <-)|?]]; [by left| |by right; right]. destruct (decide (t' = t)) as [->|].
        -- rewrite lookup_partial_alter_eq in Ht'. congruence.
        -- rewrite lookup_partial_alter_ne in Ht' by done. right. left. eauto.
      * intros i Hi. apply reduce_settled_alter; [done|by left].
  - destruct Hok as (Er & Hb & Hdone).
    destruct (reduce_exec can_open reducef sort_by_key r (files s)) as [fs a] eqn:Hrun.
    assert (fs = <[out_name (rr_Reducetask_id r) := result (rr_Reducetask_id r)]> (files s)) as ->.
    { change fs with (fs, a).1. rewrite <-Hrun, Er. apply (reduce_exec_written _ _ _ _ _ _ _ _ _ job); [lia|].
      intros i Hi. apply (di_written _ _ _ _ Hd); [lia|]. left. apply all_flags; [apply Hc|..];
        by rewrite (ci_files _ _ _ _ Hc). }
    assert (ra_Reducetask_id a = rr_Reducetask_id r) as Ha by (unfold reduce_exec in Hrun; by simplify_eq/=).
    eexists _, (TellReduce a). split_and!; [cbn [exec]; by rewrite Hrun|by intros []; cbn; congruence|done|].
    split; cbn.
    + apply ctl_inv_thread with (RunReduce r); try done. intros p [= <-]. split; [cbn; rewrite Ha; by split|].
      intros k []; cbn; congruence.
    + apply (data_inv_reduce _ _ _ _ _ _ _ _ _ Hd); [done|..].
      * intros i Hi. apply map_settled_alter; [done|by left].
      * intros j Hj Hne [?|[(t' & a' & Ht' & <-)|?]]; [by left| |by right; right]. destruct (decide (t' = t)) as [->|].
        -- rewrite lookup_partial_alter_eq in Ht'. congruence.
        -- rewrite lookup_partial_alter_ne in Ht' by done. right. left. eauto.
Qed.

Lemma partial_inv s t m p out :
  cluster_inv s → threads s !! t = Some p →
  exec_partial can_open mapf reducef sort_by_key p m (files s) = Some out →
  ∃ fs, out = Ok fs ∧ (careful s (EPartial t m) → cluster_inv (set_files s fs)).
Proof using job.
  intros [Hc Hd] Ht Hx. pose proof (ci_pc _ _ _ _ Hc _ _ Ht) as Hok. unfold careful. rewrite Ht.
  destruct p as [| |r| |r|]; try done; cbn in *; injection Hx as <-.
  - destruct Hok as (Hnr & Hf & Hlt). pose proof (index_ok_bounds _ _ _ Hf) as Hb.
    rewrite (emitted_read can_open mapf inputs n fs0 (files s) _ _ job (di_inputs _ _ _ _ Hd) Hf). cbn [bind].
    rewrite Hnr. destruct (bucket_prefix can_open mapf inputs n fs0 (files s) (mr_Maptask_id r) m job)
      as (fs & -> & Hbk); [lia|]. exists fs. split; [done|]. intros Hcare. split; cbn; [done|].
    apply (data_inv_map _ _ _ _ _ _ _ _ (mr_Maptask_id r) Hd); try done; [lia|apply Hbk|].
    eapply bucketed_clean; [done|apply Hd; lia].
  - rewrite (job_open _ _ _ _ _ job). eexists. split; [done|]. intros Hcare. split; cbn; [done|].
    by apply (data_inv_reduce _ _ _ _ _ _ _ _ _ Hd).
Qed.

Lemma wake_inv s k order lost stale s' :
  cluster_inv s → wake s k order lost stale = Some s' → cluster_inv s'.
Proof.
  intros [Hc Hd] Hw. unfold wake in Hw. destruct (coord_status s); try done.
  destruct (monitors s !! k) as [m|] eqn:Hk; [|done].
  destruct (busy s k) eqn:Hb; [done|]. destruct (map_order _ order) eqn:Hord; [|done]. cbn [orb negb] in Hw.
  assert (m ∈ monitors s) as Hm by (apply list_elem_of_lookup; eauto).
  assert (m ≠ Stopped) as Hns by by intros ->.
  destruct (monitor_turn_spec stale _ _ _ _ m Hc Hm Hns) as [[Ht Hfl]|(p & Ht & Hp & Hs & Htm & Htr)]; rewrite Ht in Hw.
  { injection Hw as <-. split; cbn; [|done]. apply ctl_inv_stop with m; try done. intros pid. by apply not_busy. }
  destruct (callWorker _ _ order (coord s)) as [[c addr]|f] eqn:Hcw; [|by injection Hw as <-].
  destruct (callWorker_spec _ _ _ _ _ _ Hord Hcw) as ((pid & Hpid & Hdial & _) & _ & Hsub).
  pose proof (callWorker_book _ _ _ _ _ _ Hcw) as [b ->].
  apply (ci_book _ _ _ _ Hc) in Hpid as ->. apply dial_spec in Hdial as (pid' & <-%workerSocket_inj & Hlive).
  rewrite (listener_spec s pid Hlive) in Hw. injection Hw as <-.
  split; cbn.
  - apply ctl_inv_alter; [|done|].
    + rewrite <-(app_nil_r (monitors s)). apply (ctl_inv_grow (coord s)); try done.
      * destruct (ci_wf _ _ _ _ Hc). by split.
      * intros q a Hq. apply (ci_book _ _ _ _ Hc). cbn in *. by eapply lookup_weaken.
      * by intros ? ?%not_elem_of_nil.
      * cbn. lia.
      * cbn. lia.
    + intros q [= <-]. split; [|by intros j [= <-]; eauto]. eapply pc_ok_grows; [apply Hc|..|done]; [done|].
      destruct (ci_wf _ _ _ _ Hc). by split.
  - apply (data_inv_settled _ _ _ _ _ _ _ Hd); intros i Hi.
    + apply map_settled_alter; [intros a [= ->]; by destruct (Htm a)|by left].
    + apply reduce_settled_alter; [intros a [= ->]; by destruct (Htr a)|by left].
Qed.

(** A step of the system that meets the condition. *)
Definition careful_step s s' : Prop := ∃ e, careful s e ∧ next s e = Some s'.

Lemma careful_step_inv s s' : cluster_inv s → careful_step s s' → cluster_inv s'.
Proof using job.
  intros Hi (e & Hcare & Hn). destruct e as [pid|pid sent|t|j|j|t|t m|k order lost stale|]; cbn in Hn.
  - destruct (threads s !! (pid, None)) eqn:Hp; [done|]. injection Hn as <-. by apply join_inv.
  - case_decide; [|done]. injection Hn as <-. by apply kill_inv.
  - destruct (threads s !! t) as [p|] eqn:Ht; [|done].
    destruct (remote_call t.1 p) as [k|] eqn:Hk; [|done].
    destruct (coord_status s) eqn:Hup.
    + destruct (call_inv s t p k Hi Ht Hk Hup) as (c & r & _ & _ & E & Hinv). rewrite E in Hn. by injection Hn as <-.
    + unfold call_coordinator in Hn. rewrite Hup in Hn. injection Hn as <-. by apply kill_inv.
    + unfold call_coordinator in Hn. rewrite Hup in Hn. injection Hn as <-. by apply kill_inv.
  - destruct (late s !! j) as [k|] eqn:Hj; [|done]. cbn [mbind option_bind] in Hn.
    destruct (coord_status s) eqn:Hup.
    + destruct (late_inv s j k Hi Hj Hup) as (c & r & _ & _ & E & Hinv). rewrite E in Hn. by injection Hn as <-.
    + unfold call_coordinator in Hn. cbn in Hn. by rewrite Hup in Hn.
    + unfold call_coordinator in Hn. cbn in Hn. by rewrite Hup in Hn.
  - destruct (late s !! j); [|done]. injection Hn as <-. by apply lose_inv.
  - destruct (threads s !! t) as [p|] eqn:Ht; [|done]. cbn [mbind option_bind] in Hn.
    assert (match p with RunMap _ | RunReduce _ => True | _ => False end) as Hp by by destruct p.
    destruct (exec_inv s t p Hi Ht Hp) as (fs & p' & E & _ & _ & Hinv). rewrite E in Hn. by injection Hn as <-.
  - destruct (threads s !! t) as [p|] eqn:Ht; [|done]. cbn [mbind option_bind] in Hn.
    destruct (exec_partial _ _ _ _ p m (files s)) as [out|] eqn:Ho; [|done].
    destruct (partial_inv s t m p out Hi Ht Ho) as (fs & -> & Hinv). injection Hn as <-. by apply Hinv.
  - by eapply wake_inv.
  - destruct (coord_status s); try done. destruct (Done (coord s)); [|done]. by injection Hn as <-.
Qed.

Lemma start_inv s : start inputs n fs0 = Ok s → cluster_inv s.
Proof using job.
  unfold start. destruct (MakeCoordinator inputs n) as [c|] eqn:Hmk; [|done]. intros [= <-].
  pose proof (MakeCoordinator_wf _ _ _ Hmk) as Hwf.
  pose proof (MakeCoordinator_inv _ _ _ Hmk) as (Hn & ->).
  destruct (files_inv_start can_open mapf inputs n fs0 job).
  split; cbn.
  - split; cbn; try done; try lia; by intros m ?%not_elem_of_nil.
  - split; cbn; try done.
    + intros i Hi [Hf|[(t & a & Ht & _)|(a & []%not_elem_of_nil & _)]]; [|done]. apply index_Ok in Hf as [_ Hf].
      by apply lookup_replicate in Hf as [? _].
    + intros i Hi [Hf|[(t & a & Ht & _)|(a & []%not_elem_of_nil & _)]]; [|done]. apply index_Ok in Hf as [_ Hf].
      by apply lookup_replicate in Hf as [? _].
Qed.

(** A state of the system in a run all of whose steps are [careful]. *)
Definition carefully_reached s : Prop := ∃ s0, start inputs n fs0 = Ok s0 ∧ rtc careful_step s0 s.

Lemma reached_inv s : carefully_reached s → cluster_inv s.
Proof using job.
  intros (s0 & Hs & Hrun). apply start_inv in Hs. induction Hrun; [done|]. by eauto using careful_step_inv.
Qed.

(** ** The end of a job *)

Lemma done_results s :
  cluster_inv s → Done (coord s) = true →
  ∀ r, (0 ≤ r < n)%Z → files s !! out_name r = Some (result r).
Proof.
  intros [Hc Hd] [_ Hr]%andb_prop r Hb. apply bool_decide_eq_true in Hr.
  apply (di_out _ _ _ _ Hd); [lia|]. left. apply all_reduce_flags; [apply Hc|done|].
  by rewrite (ci_n _ _ _ _ Hc).
Qed.
(** ** Faults *)

Definition dead_ok (st : status) : Prop :=
  match st with
  | Died f => f = FatalExit "No available workers in worker_book" ∨
              f = FatalExit "Dead connection during RPC::"
  | _ => True
  end.

Lemma callWorker_fault d1 d2 order c f : callWorker d1 d2 order c = Crash f → dead_ok (Died f).
Proof.
  unfold callWorker. destruct (probe d1 order []) as [del addr].
  case_decide; [intros [= <-]; by left|]. destruct (d2 addr); [done|]. intros [= <-]. by right.
Qed.

Lemma step_dead s s' : cluster_inv s → careful_step s s' → dead_ok (coord_status s) → dead_ok (coord_status s').
Proof using job.
  intros Hi (e & Hcare & Hn) Hok. destruct e as [pid|pid sent|t|j|j|t|t m|k order lost stale|]; cbn in Hn.
  - destruct (threads s !! (pid, None)); [done|]. by injection Hn as <-.
  - case_decide; [|done]. by injection Hn as <-.
  - destruct (threads s !! t) as [p|] eqn:Ht; [|done].
    destruct (remote_call t.1 p) as [k|] eqn:Hk; [|done].
    destruct (coord_status s) eqn:Hup.
    + destruct (call_inv s t p k Hi Ht Hk Hup) as (c & r & _ & _ & E & _). rewrite E in Hn.
      injection Hn as <-. cbn. by rewrite Hup.
    + unfold call_coordinator in Hn. rewrite Hup in Hn. injection Hn as <-. cbn. by rewrite Hup.
    + unfold call_coordinator in Hn. rewrite Hup in Hn. injection Hn as <-. cbn. by rewrite Hup.
  - destruct (late s !! j) as [k|] eqn:Hj; [|done]. cbn [mbind option_bind] in Hn.
    destruct (coord_status s) eqn:Hup.
    + destruct (late_inv s j k Hi Hj Hup) as (c & r & _ & _ & E & _). rewrite E in Hn.
      injection Hn as <-. cbn. by rewrite Hup.
    + unfold call_coordinator in Hn. cbn in Hn. by rewrite Hup in Hn.
    + unfold call_coordinator in Hn. cbn in Hn. by rewrite Hup in Hn.
  - destruct (late s !! j); [|done]. by injection Hn as <-.
  - destruct (_ ≫= _) as [[[fs p]|f]|]; [..|done]; by injection Hn as <-.
  - destruct (_ ≫= _) as [[fs|f]|]; [..|done]; by injection Hn as <-.
  - unfold wake in Hn. destruct (coord_status s) eqn:Hup; try done.
    destruct (monitors s !! k) as [m|] eqn:Hk; [|done]. destruct (_ || _); [done|].
    assert (m ≠ Stopped) as Hns by by intros ->.
    destruct (monitor_turn_spec stale _ _ _ _ m (proj1 Hi)) as [[Ht _]|(p & Ht & _)];
      [apply list_elem_of_lookup; eauto|done|..]; rewrite Ht in Hn; [injection Hn as <-; cbn; by rewrite Hup|].
    destruct (callWorker _ _ order (coord s)) as [[c addr]|f] eqn:Hcw.
    + destruct (listener s addr); [|done]. injection Hn as <-. cbn. by rewrite Hup.
    + injection Hn as <-. by eapply callWorker_fault.
  - destruct (coord_status s); try done. destruct (Done (coord s)); [|done]. by injection Hn as <-.
Qed.

Lemma reached_dead s : carefully_reached s → dead_ok (coord_status s).
Proof using job.
  intros (s0 & Hs & Hrun). pose proof (start_inv s0 Hs) as Hi.
  assert (dead_ok (coord_status s0)) as H0.
  { unfold start in Hs. destruct (MakeCoordinator inputs n); [|done]. by injection Hs as <-. }
  clear Hs. induction Hrun; [done|]. by eauto using careful_step_inv, step_dead.
Qed.
End job.

(** C1. The MapReduce system is correct in runs that are [careful]: in which no process
stops, and no file is looked at, in the middle of the second execution of a task whose
first execution was reported or is about to be ([redo_loses_pairs] shows that this cannot
be left out).  Handlers of the coordinator run one at a time, and the job is as [job_ok]
says (input files that exist, no intermediate files left over, files that can be opened,
keys and values in UTF-8).  Then, whatever workers join, die (between tasks, or in the
middle of one that is not settled) and are asked to redo tasks, in whatever order the
processes run, once the coordinator's [Done] is true every output file holds one line per
key of its bucket: every key that any map task emits has its line in the file of its
bucket, and in no other, with all the values emitted for the key. *)
Theorem mapreduce_correct can_open mapf reducef sort_by_key `{!SortByKey sort_by_key} inputs n fs0 s :
  job_ok can_open mapf inputs n fs0 →
  carefully_reached can_open mapf reducef sort_by_key inputs n fs0 s → Done (coord s) = true →
  let groups r := job_groups mapf sort_by_key inputs n fs0 r in
  let emitted := all_emitted mapf inputs fs0 in
  (∀ r, (0 ≤ r < n)%Z → files s !! out_name r = Some (out_lines reducef (groups r))) ∧
  (∀ r, NoDup (groups r).*1) ∧
  (∀ r k vs, (k, vs) ∈ groups r → r = bucket n k ∧ vs ≡ₚ values_of k emitted) ∧
  (∀ k, values_of k emitted ≠ [] → ∃ vs, (k, vs) ∈ groups (bucket n k)).
Proof.
  intros job Hs Hdone groups emitted. split.
  - apply (reached_inv _ _ _ _ _ _ _ job) in Hs. exact (done_results _ _ _ _ _ _ _ Hs Hdone).
  - apply job_groups_complete. done.
Qed.

(** No process of the system fails by itself.  The coordinator ends before the
job is done only when a monitor finds no worker, or loses the one it has found
before its call: no handler indexes out of range.  Every call of a thread is
answered while the coordinator runs, and every task a thread is given runs to its
end. *)
Theorem mapreduce_no_fault can_open mapf reducef sort_by_key inputs n fs0 s :
  job_ok can_open mapf inputs n fs0 →
  carefully_reached can_open mapf reducef sort_by_key inputs n fs0 s →
  (∀ f, coord_status s = Died f →
    f = FatalExit "No available workers in worker_book" ∨ f = FatalExit "Dead connection during RPC::") ∧
  ∀ t p, threads s !! t = Some p →
    (∀ k, remote_call t.1 p = Some k → ∃ c r, serve (coord s) k = Ok (c, r)) ∧
    (∀ out, exec can_open mapf reducef sort_by_key p (files s) = Some out → ∃ fs p', out = Ok (fs, p')).
Proof.
  intros job Hs. pose proof (reached_inv _ _ _ _ _ _ _ job s Hs) as Hi. split.
  - intros f Hf. pose proof (reached_dead _ _ _ _ _ _ _ job s Hs) as Hok. by rewrite Hf in Hok.
  - intros t p Ht. split.
    + intros k Hk. destruct (call_called _ _ _ _ _ _ t p k (proj1 Hi) Ht Hk) as (c & r & Hs' & _). eauto.
    + intros out Ho. assert (match p with RunMap _ | RunReduce _ => True | _ => False end) as Hp by by destruct p.
      destruct (exec_inv _ _ _ _ _ _ _ job s t p Hi Ht Hp) as (fs & p' & E & _). rewrite E in Ho.
      injection Ho as <-. eauto.
Qed.

(** ** Runs on given events *)

Definition map_settledb (c : Coordinator) (ts : threads_t) (lt : list call) (i : Z) : bool :=
  (if index (map_complete c) i is Ok true then true else false) ||
  existsb (λ tp, if tp.2 is TellMap a then bool_decide (ma_Maptask_id a = i) else false) (map_to_list ts) ||
  existsb (λ k, if k is CallMapDone a then bool_decide (ma_Maptask_id a = i) else false) lt.
Definition reduce_settledb (c : Coordinator) (ts : threads_t) (lt : list call) (i : Z) : bool :=
  (if index (reduce_complete c) i is Ok true then true else false) ||
  existsb (λ tp, if tp.2 is TellReduce a then bool_decide (ra_Reducetask_id a = i) else false) (map_to_list ts) ||
  existsb (λ k, if k is CallReduceDone a then bool_decide (ra_Reducetask_id a = i) else false) lt.

Definition carefulb (s : cluster) (e : event) : bool :=
  match e with
  | EPartial t _ =>
      match threads s !! t with
      | Some (RunMap r) => negb (map_settledb (coord s) (threads s) (late s) (mr_Maptask_id r))
      | Some (RunReduce r) => negb (reduce_settledb (coord s) (threads s) (late s) (rr_Reducetask_id r))
      | _ => true
      end
  | _ => true
  end.

Lemma existsb_elem {A} (f : A → bool) l x : x ∈ l → f x = true → existsb f l = true.
Proof. intros Hx Hf. apply existsb_exists. exists x. by rewrite <-list_elem_of_In. Qed.

Lemma map_settledb_complete c ts lt i : map_settled c ts lt i → map_settledb c ts lt i = true.
Proof.
  unfold map_settledb. intros [->|[(t & a & Ht & Ha)|(a & Hin & Ha)]]; [done|..]; rewrite !orb_true_iff.
  - left. right. apply existsb_elem with (t, TellMap a); [by apply elem_of_map_to_list|].
    by apply bool_decide_eq_true.
  - right. eapply existsb_elem; [done|]. by apply bool_decide_eq_true.
Qed.

Lemma reduce_settledb_complete c ts lt i : reduce_settled c ts lt i → reduce_settledb c ts lt i = true.
Proof.
  unfold reduce_settledb. intros [->|[(t & a & Ht & Ha)|(a & Hin & Ha)]]; [done|..]; rewrite !orb_true_iff.
  - left. right. apply existsb_elem with (t, TellReduce a); [by apply elem_of_map_to_list|].
    by apply bool_decide_eq_true.
  - right. eapply existsb_elem; [done|]. by apply bool_decide_eq_true.
Qed.

Lemma carefulb_sound s e : carefulb s e = true → careful s e.
Proof.
  destruct e as [| | | | | |t m| |]; try done. cbn. destruct (threads s !! t) as [[]|]; try done.
  - intros H Hs%map_settledb_complete. by rewrite Hs in H.
  - intros H Hs%reduce_settledb_complete. by rewrite Hs in H.
Qed.

Section runs.
Context (can_open : string → bool).
Context (mapf : string → string → list KeyValue).
Context (reducef : string → list string → string).
Context (sort_by_key : list KeyValue → list KeyValue).

Definition careful_next (s : cluster) (e : event) : option cluster :=
  if carefulb s e then cluster_next can_open mapf reducef sort_by_key s e else None.

Lemma careful_run s es s' :
  run_labels careful_next s es = Some s' →
  rtc (careful_step can_open mapf reducef sort_by_key) s s'.
Proof.
  revert s. induction es as [|e es IH]; intros s; cbn [run_labels]; [by intros [= ->]|].
  unfold careful_next at 1. destruct (carefulb s e) eqn:Hc; [|done].
  destruct (cluster_next _ _ _ _ s e) as [s1|] eqn:Hn; [|done]. intros H.
  apply rtc_l with s1; [|by apply IH]. exists e. split; [by apply carefulb_sound|done].
Qed.
End runs.

(** ** Two runs: word count over two files, two reduce tasks *)

Abbreviation wc_next := (careful_next (λ _, true) words_map count_reduce merge_by_key).

Definition wc_start : cluster :=
  match start ["a.txt"; "b.txt"] 2 wc_files with
  | Ok s => s
  | Crash _ => mkCluster (mkCoordinator [] 0 0 0 0 0 ∅ [] []) Up [] ∅ [] ∅
  end.

Definition main (pid : Z) : tid := (pid, None).

(** Worker 1 dies in the middle of the first map task; worker 2 runs the second, and
waits; the monitor of the first task finds worker 1 gone and sends the task to
worker 2, which then runs the reduce tasks; the coordinator leaves, and so does
worker 2. *)
Definition wc_events : list event :=
  [EJoin 1; ECall (main 1); ECall (main 1); EPartial (main 1) 2; EDie 1 [];
   EJoin 2; ECall (main 2); ECall (main 2); ERun (main 2); ECall (main 2); ECall (main 2); ECall (main 2);
   EWake 0 [(1, workerSocket 1); (2, workerSocket 2)]%Z false false;
   ERun (2%Z, Some 0); ECall (2%Z, Some 0);
   ECall (main 2); ERun (main 2); ECall (main 2); ECall (main 2); ERun (main 2); ECall (main 2);
   ELeave; ECall (main 2)].

Definition wc_end : cluster := default wc_start (run_labels wc_next wc_start wc_events).

Lemma wc_reached :
  carefully_reached (λ _, true) words_map count_reduce merge_by_key ["a.txt"; "b.txt"] 2 wc_files wc_end.
Proof.
  exists wc_start. split; [vm_compute; reflexivity|]. apply careful_run with wc_events.
  vm_compute. reflexivity.
Qed.

Lemma mapreduce_correct_witness :
  Done (coord wc_end) = true ∧ threads wc_end = ∅ ∧
  files wc_end !! out_name 1 = Some (out_lines count_reduce
    (job_groups words_map merge_by_key ["a.txt"; "b.txt"] 2 wc_files 1)).
Proof.
  split; [vm_compute; reflexivity|]. split; [vm_compute; reflexivity|].
  apply (mapreduce_correct (λ _, true) words_map count_reduce merge_by_key ["a.txt"; "b.txt"] 2 wc_files
    wc_end wc_job_ok wc_reached); [vm_compute; reflexivity|lia].
Defined.

(** Worker 2 has been given the second map task. *)
Definition wc_mid : cluster := default wc_start (run_labels wc_next wc_start (take 8 wc_events)).
Definition wc_task : pc := RunMap {| mr_NReduce := 2; mr_Filename := "b.txt"; mr_Maptask_id := 1 |}.

Lemma wc_mid_reached :
  carefully_reached (λ _, true) words_map count_reduce merge_by_key ["a.txt"; "b.txt"] 2 wc_files wc_mid.
Proof.
  exists wc_start. split; [vm_compute; reflexivity|]. apply careful_run with (take 8 wc_events).
  vm_compute. reflexivity.
Qed.

Lemma mapreduce_no_fault_witness :
  ∃ fs p', threads wc_mid !! main 2 = Some wc_task ∧
    exec (λ _, true) words_map count_reduce merge_by_key wc_task (files wc_mid) = Some (Ok (fs, p')).
Proof.
  destruct (mapreduce_no_fault (λ _, true) words_map count_reduce merge_by_key ["a.txt"; "b.txt"] 2 wc_files
    wc_mid wc_job_ok wc_mid_reached) as [_ H].
  destruct (H (main 2) wc_task) as [_ Hrun]; [vm_compute; reflexivity|].
  destruct (Hrun (default (Crash NilDereference)
    (exec (λ _, true) words_map count_reduce merge_by_key wc_task (files wc_mid)))) as (fs & p' & E);
    [vm_compute; reflexivity|].
  exists fs, p'. split; [vm_compute; reflexivity|]. rewrite <-E. vm_compute. reflexivity.
Defined.

(** What the condition on a run excludes.  Worker 1 is slow with the first map task,
which the monitor sends to worker 2 as well; worker 1 finishes and reports it, and
then worker 2, which opens the intermediate files anew, dies after one pair. *)
Definition lossy_events : list event :=
  [EJoin 1; ECall (main 1); ECall (main 1); EJoin 2; ECall (main 2);
   EWake 0 [(2, workerSocket 2); (1, workerSocket 1)]%Z false false;
   ERun (main 1); ECall (main 1); EPartial (2%Z, Some 0) 1; EDie 2 [];
   ECall (main 1); ERun (main 1); ECall (main 1); ECall (main 1);
   ECall (main 1); ERun (main 1); ECall (main 1); ECall (main 1); ERun (main 1); ECall (main 1)].

(** C33. A task that is redone is not safe against a second failure: intermediate files
are truncated and written in place, so a worker that dies while it redoes a map task
that was reported meanwhile leaves them incomplete.  There is a run in which the
coordinator ends with [Done], no process has failed otherwise, and an output file is
not what the job should leave. *)
Theorem redo_loses_pairs :
  ∃ s, run_labels (cluster_next (λ _, true) words_map count_reduce merge_by_key) wc_start lossy_events = Some s ∧
    Done (coord s) = true ∧ coord_status s = Up ∧
    ∃ r, (0 ≤ r < 2)%Z ∧ files s !! out_name r ≠ Some (out_lines count_reduce
      (job_groups words_map merge_by_key ["a.txt"; "b.txt"] 2 wc_files r)).
Proof.
  exists (default wc_start (run_labels (cluster_next (λ _, true) words_map count_reduce merge_by_key)
    wc_start lossy_events)).
  split_and!; [vm_compute; reflexivity..|]. exists 0%Z. split; [lia|]. vm_compute. discriminate.
Qed.

End MrCorrect.
