(* ===== verification/MrProgress.v ===== *)
(** * The MapReduce system can always finish

From every state of the machine of [MrSystem] in which the coordinator and one
worker live, there is a run to the end of the job: no death, and no answer the
coordinator has given, leaves a task that nobody will do. *)

From S2P Require Import Prelude GoStrings Json MrCoordinator MrWorker MrJob MrSystem MrCorrect.
From stdpp Require Import options.
Import Json Mr MrWorker MrJob MrSystem MrCorrect.

Module MrProgress.

(** ** What is left to do *)

Definition left (c : Coordinator) : Z :=
  (len (filenames c) - counter_map c + (len (filenames c) - done_map c) +
   (nReduce c - counter_reduce c) + (nReduce c - done_reduce c))%Z.

Lemma grows_left c c' : grows c c' → (left c' ≤ left c)%Z.
Proof. intros []. unfold left. rewrite gr_files0, gr_n0. lia. Qed.

Lemma left_nonneg c : wf c → (0 ≤ left c)%Z.
Proof.
  intros []. pose proof (count_true_le (map_complete c)). pose proof (count_true_le (reduce_complete c)).
  unfold left, len in *. lia.
Qed.

(** A phase that is not over has a task that is not reported. *)
Lemma flag_missing (l : list bool) :
  Z.of_nat (count_true l) ≠ len l → ∃ i, (0 ≤ i < len l)%Z ∧ index l i = Ok false.
Proof.
  intros H. destruct (decide (Forall (λ b, b = true) l)) as [Hall|Hn].
  - destruct H. unfold len. f_equal. by apply count_true_full.
  - apply not_Forall_Exists in Hn; [|apply _]. apply Exists_exists in Hn as (b & [i Hi]%list_elem_of_lookup & Hb).
    destruct b; [by destruct Hb|]. exists (Z.of_nat i). pose proof (lookup_lt_Some _ _ _ Hi). unfold len.
    split; [lia|]. apply index_Ok. split; [lia|]. by rewrite Nat2Z.id.
Qed.

Lemma serve_book c k c' r :
  serve c k = Ok (c', r) → worker_book c' = worker_book c ∨
  ∃ a, k = CallRegister a ∧ worker_book c' = <[wa_Worker_id a := wa_Worker_addr a]> (worker_book c).
Proof.
  destruct k as [a|a|a|a|a]; cbn; intros H; [left..|right; exists a; by injection H as <- _].
  - destruct (GiveMapTask c a) as [[[c1 r1] e]|] eqn:Hg; [|done]. injection H as <- _.
    destruct (GiveMapTask_inv _ _ _ _ _ Hg) as [(_ & -> & _)|(_ & _ & Hl)]; [done|].
    by apply give_map_locked_Ok in Hl as (_ & _ & _ & _ & ->).
  - destruct (GiveReduceTask c a) as [[[c1 r1] e]|] eqn:Hg; [|done]. injection H as <- _.
    destruct (GiveReduceTask_inv _ _ _ _ _ Hg) as [(_ & -> & _)|[(_ & _ & -> & _)|(_ & _ & _ & Hl)]]; try done.
    unfold give_reduce_locked in Hl. by go_simp.
  - unfold CheckLastMapDone in H. go_simp. repeat case_match; go_simp; repeat case_match; by simplify_eq/=.
  - unfold CheckLastReduceDone in H. go_simp. repeat case_match; go_simp; repeat case_match; by simplify_eq/=.
Qed.

Section job.
Context (can_open : string → bool).
Context (mapf : string → string → list KeyValue).
Context (reducef : string → list string → string).
Context (sort_by_key : list KeyValue → list KeyValue).
Context (inputs : list string) (n : Z) (fs0 : files_t).
Hypothesis job : job_ok can_open mapf inputs n fs0.
Implicit Types (c : Coordinator) (s : cluster).

Abbreviation step := (careful_step can_open mapf reducef sort_by_key).
Abbreviation inv := (cluster_inv mapf reducef sort_by_key inputs n fs0).

(** ** Live workers that have registered are in the book *)

Definition booked s : Prop :=
  ∀ pid p, threads s !! (pid, None) = Some p → p ≠ Registering →
    worker_book (coord s) !! pid = Some (workerSocket pid).

Lemma booked_mono s s' :
  booked s →
  (∀ pid p, threads s' !! (pid, None) = Some p → p ≠ Registering →
    ∃ q, threads s !! (pid, None) = Some q ∧ q ≠ Registering) →
  (∀ pid, is_Some (threads s !! (pid, None)) →
    worker_book (coord s) !! pid = Some (workerSocket pid) →
    worker_book (coord s') !! pid = Some (workerSocket pid)) → booked s'.
Proof.
  intros Hb Ht Hk pid p Hp Hne. destruct (Ht pid p Hp Hne) as (q & Hq & Hqn). apply Hk; eauto.
Qed.

Lemma kill_booked s pid sent : booked s → booked (kill s pid sent).
Proof.
  intros Hb. apply (booked_mono s); [done| |done].
  intros pid' p [Hp _]%map_lookup_filter_Some. eauto.
Qed.

Lemma call_booked s t p k c r ms :
  booked s → threads s !! t = Some p → remote_call t.1 p = Some k → serve (coord s) k = Ok (c, r) →
  (t.2 = None ∨ p ≠ Registering) → booked (set_thread (set_coord s c ms) t (after_call t p (Some r))).
Proof.
  intros Hb Ht Hk Hs Hmain pid q Hq Hne. cbn in *. destruct t as [pid' o]. cbn in *.
  assert (p = Registering ∨ p ≠ Registering) as [->|Hp] by (destruct p; auto).
  - destruct Hmain as [->|]; [|done]. injection Hk as <-. cbn in Hs. injection Hs as <- _. cbn.
    destruct (decide (pid = pid')) as [->|Hd]; [by rewrite lookup_insert_eq|].
    rewrite lookup_insert_ne by done. rewrite lookup_partial_alter_ne in Hq by congruence. by eapply Hb.
  - destruct (serve_book _ _ _ _ Hs) as [->|(a & -> & _)]; [|by destruct p as [|[]| | | |]].
    destruct (decide ((pid', o) = (pid, None))) as [[= -> ->]|Hd]; [by eapply Hb|].
    rewrite lookup_partial_alter_ne in Hq by done. by eapply Hb.
Qed.

(** A call of a process that has ended. *)
Lemma late_booked s k c r ms lt :
  booked s → call_fine inputs n (coord s) k → serve (coord s) k = Ok (c, r) →
  booked (set_coord (set_late s lt) c ms).
Proof.
  intros Hb (pid & p & Hk & _) Hs. apply (booked_mono s); [done|by eauto|]. intros pid' _ Hpid'. cbn.
  destruct (serve_book _ _ _ _ Hs) as [->|(a & -> & ->)]; [done|].
  destruct p as [|[]| | | |]; try done. injection Hk as <-. cbn.
  destruct (decide (pid = pid')) as [->|Hne]; [apply lookup_insert_eq|by rewrite lookup_insert_ne].
Qed.

Lemma step_booked s s' : inv s → booked s → step s s' → booked s'.
Proof using job.
  intros Hi Hb (e & Hcare & Hn). destruct e as [pid|pid sent|t|j|j|t|t m|k order lost stale|]; cbn in Hn.
  - destruct (threads s !! (pid, None)) eqn:Hp; [done|]. injection Hn as <-.
    apply (booked_mono s); [done| |done]. intros pid' p. cbn.
    destruct (decide (pid = pid')) as [->|]; [rewrite lookup_partial_alter_eq; by intros [= <-]|].
    rewrite lookup_partial_alter_ne by congruence. eauto.
  - case_decide; [|done]. injection Hn as <-. by apply kill_booked.
  - destruct (threads s !! t) as [p|] eqn:Ht; [|done].
    destruct (remote_call t.1 p) as [k|] eqn:Hk; [|done].
    destruct (coord_status s) eqn:Hup.
    + destruct (call_inv _ _ _ _ _ _ s t p k Hi Ht Hk Hup) as (c & r & Hs & _ & E & _). rewrite E in Hn.
      injection Hn as <-. apply (call_booked s t p k); try done.
      destruct t as [pid [k'|]]; [right|by left]. intros ->.
      by destruct (ci_redo _ _ _ _ _ _ (proj1 Hi) pid k' _ Ht) as (_ & [] & _ & []).
    + unfold call_coordinator in Hn. rewrite Hup in Hn. injection Hn as <-. by apply kill_booked.
    + unfold call_coordinator in Hn. rewrite Hup in Hn. injection Hn as <-. by apply kill_booked.
  - destruct (late s !! j) as [k|] eqn:Hj; [|done]. cbn [mbind option_bind] in Hn.
    destruct (coord_status s) eqn:Hup; [|unfold call_coordinator in Hn; cbn in Hn; by rewrite Hup in Hn..].
    destruct (late_inv _ _ _ _ _ _ s j k Hi Hj Hup) as (c & r & Hs & _ & E & _). rewrite E in Hn.
    injection Hn as <-. apply (late_booked s k c r); try done.
    apply (ci_late _ _ _ _ _ _ (proj1 Hi)), list_elem_of_lookup. eauto.
  - destruct (late s !! j); [|done]. by injection Hn as <-.
  - destruct (threads s !! t) as [p|] eqn:Ht; [|done]. cbn [mbind option_bind] in Hn.
    assert (match p with RunMap _ | RunReduce _ => True | _ => False end) as Hp by by destruct p.
    destruct (exec _ _ _ _ p (files s)) as [[[fs p']|f]|]; [..|done]; injection Hn as <-; [|by apply kill_booked].
    apply (booked_mono s); [done| |done]. intros pid q. cbn.
    destruct (decide (t = (pid, None))) as [->|]; [exists p; split; [done|by intros ->]|].
    rewrite lookup_partial_alter_ne by done. eauto.
  - destruct (_ ≫= _) as [[fs|f]|]; [..|done]; injection Hn as <-; [done|by apply kill_booked].
  - unfold wake in Hn. destruct (coord_status s); try done. destruct (monitors s !! k) as [m|]; [|done].
    destruct (busy s k || _) eqn:Hord; [done|]. apply orb_false_iff in Hord as [_ Hord%negb_false_iff].
    destruct (monitor_turn _ _ m) as [[[p|]|f]|]; try (by injection Hn as <-); [|done].
    destruct (callWorker _ _ order (coord s)) as [[c addr]|f] eqn:Hcw; [|by injection Hn as <-].
    destruct (listener s addr) as [pid|]; [|done]. injection Hn as <-.
    destruct (callWorker_spec _ _ _ _ _ _ Hord Hcw) as (_ & Hkeep & _).
    apply (booked_mono s); [done|..]; cbn.
    + intros pid' q. rewrite lookup_partial_alter_ne by done. eauto.
    + intros pid' Hl Hbk. apply Hkeep; [done|]. apply dial_spec. eauto.
  - destruct (coord_status s); try done. destruct (Done (coord s)); [|done]. by injection Hn as <-.
Qed.

(** ** Single steps of a live system *)

(** What happens when nothing fails: calls, tasks and monitors. *)
Definition calm (e : event) : Prop :=
  match e with ECall _ | ERun _ | EWake _ _ false false => True | _ => False end.
Definition calm_step s s' : Prop :=
  ∃ e, calm e ∧ cluster_next can_open mapf reducef sort_by_key s e = Some s'.

Lemma calm_step_step s s' : calm_step s s' → step s s'.
Proof. intros (e & He & Hn). exists e. split; [by destruct e|done]. Qed.

(** The coordinator runs, and worker [w] lives. *)
Record ready (w : Z) s : Prop := {
  rd_inv : inv s;
  rd_booked : booked s;
  rd_up : coord_status s = Up;
  rd_live : is_Some (threads s !! (w, None)) }.

Lemma do_step s s' e :
  calm e → cluster_next can_open mapf reducef sort_by_key s e = Some s' → calm_step s s'.
Proof. intros He Hn. by exists e. Qed.

Lemma do_call w s t p k :
  ready w s → threads s !! t = Some p → remote_call t.1 p = Some k →
  ∃ s' r, calm_step s s' ∧ ready w s' ∧ serve (coord s) k = Ok (coord s', r) ∧ grows (coord s) (coord s') ∧
    threads s' = partial_alter (λ _, after_call t p (Some r)) t (threads s).
Proof using job.
  intros [Hi Hb Hup Hl] Ht Hk.
  destruct (call_inv _ _ _ _ _ _ s t p k Hi Ht Hk Hup) as (c & r & Hs & Hcd & E & Hinv).
  eexists _, r. split_and!; [eapply (do_step _ _ (ECall t)); [done|cbn; by rewrite Ht, Hk, E]| |done|apply Hcd|done].
  assert (calm_step s (set_thread (set_coord s c (monitors s ++ spawned r)) t (after_call t p (Some r)))) as Hst.
  { eapply (do_step _ _ (ECall t)); [done|cbn; by rewrite Ht, Hk, E]. }
  split; [done|exact (step_booked _ _ Hi Hb (calm_step_step _ _ Hst))|done|]. cbn. destruct (decide ((w, None) = t)) as [<-|Hne].
  - rewrite lookup_partial_alter_eq. destruct p as [|[]| | | |]; try done;
      cbn [after_call Worker_turn]; case_match; by eexists.
  - by rewrite lookup_partial_alter_ne.
Qed.

Lemma do_run w s t p :
  ready w s → threads s !! t = Some p →
  match p with RunMap _ | RunReduce _ => True | _ => False end →
  ∃ s' p', calm_step s s' ∧ ready w s' ∧ coord s' = coord s ∧ threads s' = <[t := p']> (threads s) ∧
    match p, p' with
    | RunMap r, TellMap a => ma_Maptask_id a = mr_Maptask_id r
    | RunReduce r, TellReduce a => ra_Reducetask_id a = rr_Reducetask_id r
    | _, _ => False
    end.
Proof using job.
  intros [Hi Hb Hup Hl] Ht Hp.
  destruct (exec_inv _ _ _ _ _ _ _ job s t p Hi Ht Hp) as (fs & p' & E & _ & Hpp & Hinv).
  assert (calm_step s (set_thread (set_files s fs) t (Some p'))) as Hst.
  { eapply (do_step _ _ (ERun t)); [done|cbn]. rewrite Ht. cbn. by rewrite E. }
  eexists _, p'. split_and!; [done| |done|done|done].
  split; [done|exact (step_booked _ _ Hi Hb (calm_step_step _ _ Hst))|done|]. cbn. destruct (decide ((w, None) = t)) as [<-|Hne].
  - rewrite lookup_partial_alter_eq. eauto.
  - by rewrite lookup_partial_alter_ne.
Qed.

(** ** A monitor's task gets done *)

Lemma busy_thread s k : busy s k = true → ∃ pid p, threads s !! (pid, Some k) = Some p.
Proof.
  intros ([[pid o] p] & Hin & Ho)%existsb_exists. apply bool_decide_eq_true in Ho. cbn in Ho. subst o.
  exists pid, p. by apply list_elem_of_In, elem_of_map_to_list in Hin.
Qed.

Lemma map_order_self (b : gmap Z string) : map_order b (map_to_list b) = true.
Proof.
  unfold map_order. apply andb_true_intro. split; apply bool_decide_eq_true.
  - apply NoDup_fst_map_to_list.
  - apply list_to_map_to_list.
Qed.

Lemma callWorker_found s w :
  is_Some (threads s !! (w, None)) → worker_book (coord s) !! w = Some (workerSocket w) →
  ∃ c addr, callWorker (dial s) (dial s) (map_to_list (worker_book (coord s))) (coord s) = Ok (c, addr).
Proof.
  intros Hl Hw. unfold callWorker. set (order := map_to_list _).
  destruct (probe (dial s) order []) as [del addr] eqn:Hp.
  apply probe_spec in Hp as (pre & post & _ & Hdead & [(_ & <- & _)|(pid & _ & Hd)]).
  - rewrite Forall_forall in Hdead. assert (dial s (workerSocket w) = true) by (apply dial_spec; eauto).
    assert (dial s (workerSocket w) = false); [|congruence].
    apply (Hdead (w, workerSocket w)). by apply elem_of_map_to_list.
  - rewrite Hd. rewrite decide_False; [by eauto|]. intros ->.
    by apply dial_spec in Hd as (pid' & [=] & _).
Qed.

Lemma do_wake w s k m :
  ready w s → (∀ p, threads s !! (w, None) = Some p → p ≠ Registering) → monitors s !! k = Some m →
  busy s k = false →
  match m with
  | MapMonitor i => index (map_complete (coord s)) i = Ok false
  | ReduceMonitor i _ => index (reduce_complete (coord s)) i = Ok false
  | _ => False
  end →
  ∃ s' pid p, calm_step s s' ∧ ready w s' ∧ grows (coord s) (coord s') ∧
    map_complete (coord s') = map_complete (coord s) ∧
    reduce_complete (coord s') = reduce_complete (coord s) ∧
    monitors s' = monitors s ∧ threads s' !! (pid, Some k) = Some p ∧ serves m p.
Proof using job.
  intros [Hi Hb Hup Hl] Hreg Hk Hbusy Hm.
  assert (m ∈ monitors s) as Hin by (apply list_elem_of_lookup; eauto).
  destruct (monitor_turn_spec _ _ false _ _ _ _ m (proj1 Hi) Hin) as [[_ Hfl]|(p & Ht & Hp & Hs & _)].
  { by intros ->. }
  { destruct m; try done; congruence. }
  pose proof Hl as [q Hq]. destruct (callWorker_found s w Hl (Hb w q Hq (Hreg q Hq))) as (c & addr & Hcw).
  destruct (callWorker_spec _ _ _ _ _ _ (map_order_self _) Hcw) as ((pid & Hpid & Hd & _) & _).
  apply (ci_book _ _ _ _ _ _ (proj1 Hi)) in Hpid as ->.
  apply dial_spec in Hd as (pid' & <-%workerSocket_inj & Hlive).
  pose proof (callWorker_book _ _ _ _ _ _ Hcw) as [b ->].
  match type of Hcw with _ = Ok (?c, _) =>
    set (s' := set_thread (set_coord s c (monitors s)) (pid, Some k) (Some p)) end.
  assert (cluster_next can_open mapf reducef sort_by_key s
    (EWake k (map_to_list (worker_book (coord s))) false false) = Some s') as Hn.
  { cbn. unfold wake. rewrite Hup, Hk, Hbusy, map_order_self, Ht, Hcw. cbn [orb negb].
    by rewrite (listener_spec s pid Hlive). }
  assert (calm_step s s') as Hst by by eapply do_step; [|exact Hn].
  exists s', pid, p. split_and!; try done.
  - split; [by eapply careful_step_inv, calm_step_step|exact (step_booked _ _ Hi Hb (calm_step_step _ _ Hst))|done|].
    cbn. by rewrite lookup_partial_alter_ne.
  - cbn. by rewrite lookup_partial_alter_eq.
Qed.

(** A report of a task that was not reported leaves less to do. *)
Lemma report_left c k c' r :
  wf c → serve c k = Ok (c', r) →
  match k with
  | CallMapDone a => index (map_complete c) (ma_Maptask_id a) = Ok false
  | CallReduceDone a => index (reduce_complete c) (ra_Reducetask_id a) = Ok false
  | _ => False
  end → (left c' < left c)%Z.
Proof.
  intros Hwf Hs Hk. destruct k as [| |a|a|]; try done; cbn in Hs.
  - rewrite (CheckLastMapDone_eq c a false Hk) in Hs. cbn in Hs. injection Hs as <- _.
    unfold left. cbn. lia.
  - rewrite (CheckLastReduceDone_eq c a false Hk) in Hs. cbn in Hs. injection Hs as <- _.
    unfold left. cbn. lia.
Qed.

(** The task of a monitor that is not reported yet. *)
Definition owed s (m : thread) : Prop :=
  match m with
  | MapMonitor i => index (map_complete (coord s)) i = Ok false
  | ReduceMonitor i _ => index (reduce_complete (coord s)) i = Ok false
  | _ => False
  end.

Lemma serve_thread_left w s k m pid p :
  ready w s → monitors s !! k = Some m → owed s m → threads s !! (pid, Some k) = Some p → serves m p →
  ∃ s', rtc calm_step s s' ∧ ready w s' ∧ (left (coord s') < left (coord s))%Z.
Proof using job.
  intros Hr Hk Hm Hp Hs.
  assert (∃ s1 p1, rtc calm_step s s1 ∧ ready w s1 ∧ coord s1 = coord s ∧
    threads s1 !! (pid, Some k) = Some p1 ∧
    match m, p1 with
    | MapMonitor i, TellMap a => ma_Maptask_id a = i
    | ReduceMonitor i _, TellReduce a => ra_Reducetask_id a = i
    | _, _ => False
    end) as (s1 & p1 & Hrun & Hr1 & Ec & Hp1 & Hm1).
  { destruct m; try done; destruct p as [| |x|x|x|x]; try done; cbn in Hs.
    - destruct (do_run w s _ _ Hr Hp I) as (s1 & p1 & Hst & Hr1 & Ec & Et & Hpp).
      exists s1, p1. split_and!; [by apply rtc_once|done|done|rewrite Et; apply lookup_insert_eq|].
      destruct p1; try done. congruence.
    - exists s, (TellMap x). by split_and!.
    - destruct (do_run w s _ _ Hr Hp I) as (s1 & p1 & Hst & Hr1 & Ec & Et & Hpp).
      exists s1, p1. split_and!; [by apply rtc_once|done|done|rewrite Et; apply lookup_insert_eq|].
      destruct p1; try done. congruence.
    - exists s, (TellReduce x). by split_and!. }
  pose proof (ci_wf _ _ _ _ _ _ (proj1 (rd_inv _ _ Hr1))) as Hwf. rewrite <-Ec in *.
  assert (∃ q, remote_call pid p1 = Some q ∧ match q with
    | CallMapDone a => index (map_complete (coord s1)) (ma_Maptask_id a) = Ok false
    | CallReduceDone a => index (reduce_complete (coord s1)) (ra_Reducetask_id a) = Ok false
    | _ => False
    end) as (q & Hq & Hql).
  { unfold owed in Hm. rewrite <-Ec in Hm. destruct m; try done; destruct p1; try done;
      (eexists; split; [done|]); cbn; by rewrite Hm1. }
  destruct (do_call w s1 _ _ _ Hr1 Hp1 Hq) as (s2 & r & Hst & Hr2 & Hserve & _).
  exists s2. split_and!; [by eapply rtc_r|done|]. by eapply report_left.
Qed.

Lemma monitor_left w s k m :
  ready w s → (∀ p, threads s !! (w, None) = Some p → p ≠ Registering) → monitors s !! k = Some m →
  owed s m → ∃ s', rtc calm_step s s' ∧ ready w s' ∧ (left (coord s') < left (coord s))%Z.
Proof using job.
  intros Hr Hreg Hk Hm. destruct (busy s k) eqn:Hb.
  - apply busy_thread in Hb as (pid & p & Hp).
    destruct (ci_redo _ _ _ _ _ _ (proj1 (rd_inv _ _ Hr)) pid k p Hp) as (_ & m' & Hk' & Hs).
    rewrite Hk in Hk'. injection Hk' as <-. by eapply serve_thread_left.
  - destruct (do_wake w s k m Hr Hreg Hk Hb Hm) as (s1 & pid & p & Hst & Hr1 & Hg & Em & Er & Ems & Hp & Hs).
    destruct (serve_thread_left w s1 k m pid p Hr1) as (s2 & Hrun & Hr2 & Hl); try done.
    + by rewrite Ems.
    + unfold owed. by rewrite Em, Er.
    + exists s2. split_and!; [by eapply rtc_l|done|]. pose proof (grows_left _ _ Hg). lia.
Qed.

(** ** Worker [w] gets to its next question *)

Lemma main_tell w s p :
  ready w s → threads s !! (w, None) = Some p →
  match p with TellMap _ | TellReduce _ | Registering => True | _ => False end →
  ∃ s' q, rtc calm_step s s' ∧ ready w s' ∧ grows (coord s) (coord s') ∧
    threads s' !! (w, None) = Some (Ask q).
Proof using job.
  intros Hr Hp Hpp.
  assert (∃ k, remote_call w p = Some k) as [k Hk] by (destruct p as [|[]| | | |]; by eauto).
  destruct (do_call w s (w, None) p k Hr Hp Hk) as (s1 & r & Hst & Hr1 & _ & Hg & Et).
  destruct p as [| | |a| |a]; try done;
    (eexists s1, _; split_and!; [by apply rtc_once|done|done|rewrite Et; by rewrite lookup_partial_alter_eq]).
Qed.

Lemma main_ask w s :
  ready w s → ∃ s' q, rtc calm_step s s' ∧ ready w s' ∧ grows (coord s) (coord s') ∧
    threads s' !! (w, None) = Some (Ask q).
Proof using job.
  intros Hr. destruct (rd_live _ _ Hr) as [p Hp].
  destruct p as [|q|x|a|x|a]; [by eapply main_tell| | |by eapply main_tell| |by eapply main_tell].
  - exists s, q. by split_and!.
  - destruct (do_run w s _ _ Hr Hp I) as (s1 & p1 & Hst & Hr1 & Ec & Et & Hpp).
    destruct (main_tell w s1 p1 Hr1) as (s2 & q & Hrun & Hr2 & Hg & Hq).
    { rewrite Et. apply lookup_insert_eq. }
    { by destruct p1. }
    exists s2, q. rewrite Ec in Hg. split_and!; try done. by eapply rtc_l.
  - destruct (do_run w s _ _ Hr Hp I) as (s1 & p1 & Hst & Hr1 & Ec & Et & Hpp).
    destruct (main_tell w s1 p1 Hr1) as (s2 & q & Hrun & Hr2 & Hg & Hq).
    { rewrite Et. apply lookup_insert_eq. }
    { by destruct p1. }
    exists s2, q. rewrite Ec in Hg. split_and!; try done. by eapply rtc_l.
Qed.

(** Asking for a map task hands one out, or shows that all are handed out. *)
Lemma ask_map_left w s :
  ready w s → threads s !! (w, None) = Some (Ask MapPhase) →
  ∃ s', calm_step s s' ∧ ready w s' ∧
    ((left (coord s') < left (coord s))%Z ∨
     coord s' = coord s ∧ threads s' !! (w, None) = Some (Ask ReducePhase)).
Proof using job.
  intros Hr Hp. destruct (do_call w s (w, None) _ _ Hr Hp eq_refl) as (s1 & r & Hst & Hr1 & Hs & _ & Et).
  exists s1. split_and!; [done..|]. cbn in Hs.
  destruct (GiveMapTask (coord s) _) as [[[c1 r1] e]|] eqn:Hg; [|done]. injection Hs as <- <-.
  destruct (GiveMapTask_inv _ _ _ _ _ Hg) as [(Hlen & E & -> & ->)|(Hlt & -> & Hl)].
  - right. split; [done|]. rewrite Et. by rewrite lookup_partial_alter_eq.
  - left. apply give_map_locked_Ok in Hl as (_ & _ & _ & _ & ->). unfold left. cbn. lia.
Qed.

(** The map phase is handed out and the worker asks for a reduce task. *)
Lemma ask_reduce_left w s :
  ready w s → threads s !! (w, None) = Some (Ask ReducePhase) → Done (coord s) = false →
  ∃ s', rtc calm_step s s' ∧ ready w s' ∧ (left (coord s') < left (coord s))%Z.
Proof using job.
  intros Hr Hp Hnd. destruct (rd_inv _ _ Hr) as [Hc _]. destruct (ci_wf _ _ _ _ _ _ Hc).
  pose proof (ci_pc _ _ _ _ _ _ Hc _ _ Hp) as Hall. cbn in Hall.
  pose proof (ci_files _ _ _ _ _ _ Hc) as Hf. pose proof (ci_n _ _ _ _ _ _ Hc) as Hn.
  assert (∀ p, threads s !! (w, None) = Some p → p ≠ Registering) as Hreg by (intros p; congruence).
  destruct (decide (done_map (coord s) = len (filenames (coord s)))) as [Hdm|Hdm].
  2: { destruct (flag_missing (map_complete (coord s))) as (i & Hi & Hfl); [lia|].
       assert (MapMonitor i ∈ monitors s) as [k Hk]%list_elem_of_lookup.
       { apply (ci_map_monitor _ _ _ _ _ _ Hc); [rewrite Hall, <-Hf; lia|done]. }
       by apply (monitor_left w s k (MapMonitor i)). }
  destruct (decide (counter_reduce (coord s) < nReduce (coord s))%Z) as [Hlt|Hge].
  - destruct (do_call w s (w, None) _ _ Hr Hp eq_refl) as (s1 & r & Hst & Hr1 & Hs & _ & Et).
    exists s1. split_and!; [by apply rtc_once|done|]. cbn in Hs.
    destruct (GiveReduceTask (coord s) _) as [[[c1 r1] e]|] eqn:Hg; [|done]. injection Hs as <- <-.
    destruct (GiveReduceTask_inv _ _ _ _ _ Hg) as [(? & _)|[(_ & ? & _)|(_ & _ & _ & Hl)]]; [done|lia|].
    rewrite give_reduce_locked_Ok in Hl by lia. injection Hl as <- _. unfold left. cbn. lia.
  - assert (done_reduce (coord s) ≠ nReduce (coord s)) as Hdr.
    { intros E. unfold Done in Hnd. by rewrite !bool_decide_true in Hnd by done. }
    destruct (flag_missing (reduce_complete (coord s))) as (i & Hi & Hfl); [lia|].
    assert (ReduceMonitor i (rr_Reducefiles (reduce_reply inputs i)) ∈ monitors s) as [k Hk]%list_elem_of_lookup.
    { apply (ci_reduce_monitor _ _ _ _ _ _ Hc); [lia|done]. }
    by apply (monitor_left w s k (ReduceMonitor i (rr_Reducefiles (reduce_reply inputs i)))).
Qed.

Lemma ready_left w s :
  ready w s → ∃ s', rtc calm_step s s' ∧ ready w s' ∧
    (Done (coord s') = true ∨ (left (coord s') < left (coord s))%Z).
Proof using job.
  intros Hr. destruct (main_ask w s Hr) as (s1 & q & Hrun & Hr1 & Hg & Hq).
  pose proof (grows_left _ _ Hg) as Hle.
  destruct (Done (coord s1)) eqn:Hd; [by exists s1; eauto|].
  pose proof (ci_pc _ _ _ _ _ _ (proj1 (rd_inv _ _ Hr1)) _ _ Hq) as Hok. destruct q; try done.
  - destruct (ask_map_left w s1 Hr1 Hq) as (s2 & Hst & Hr2 & [Hl|[Ec Hq2]]).
    + exists s2. split_and!; [by eapply rtc_r|done|right; lia].
    + destruct (ask_reduce_left w s2 Hr2 Hq2) as (s3 & Hrun3 & Hr3 & Hl); [by rewrite Ec|].
      exists s3. split_and!; [|done|right; rewrite Ec in Hl; lia].
      etrans; [done|]. by eapply rtc_l.
  - destruct (ask_reduce_left w s1 Hr1 Hq Hd) as (s3 & Hrun3 & Hr3 & Hl).
    exists s3. split_and!; [by etrans|done|right; lia].
Qed.

Lemma ready_finishes w s :
  ready w s → ∃ s', rtc calm_step s s' ∧ ready w s' ∧ Done (coord s') = true.
Proof using job.
  intros Hr. remember (Z.to_nat (left (coord s))) as m eqn:Hm. revert s Hr Hm.
  induction m as [m IH] using lt_wf_ind. intros s Hr ->.
  destruct (ready_left w s Hr) as (s1 & Hrun & Hr1 & [Hd|Hl]); [by eauto|].
  pose proof (left_nonneg _ (ci_wf _ _ _ _ _ _ (proj1 (rd_inv _ _ Hr1)))).
  destruct (IH (Z.to_nat (left (coord s1))) ltac:(lia) s1 Hr1 eq_refl) as (s2 & Hrun2 & Hr2 & Hd).
  exists s2. split_and!; [by etrans|done|done].
Qed.

Lemma reached_booked s :
  carefully_reached can_open mapf reducef sort_by_key inputs n fs0 s → booked s.
Proof using job.
  intros (s0 & Hs & Hrun). pose proof (start_inv can_open mapf reducef sort_by_key inputs n fs0 job s0 Hs) as Hi.
  assert (booked s0) as Hb.
  { unfold start in Hs. destruct (MakeCoordinator inputs n); [|done]. by injection Hs as <-. }
  clear Hs. induction Hrun; [done|]. by eauto using careful_step_inv, step_booked.
Qed.
End job.

(** C2. The system can always finish.  From every state that a careful run has reached (one
in which nothing was stopped in the middle of redoing a settled task; handlers one at a
time; the job as [job_ok] says), as long as the coordinator runs and one worker process
lives, there is a way to go on, by calls, tasks and monitors that wake up and without any
failure, after which [Done] is true and every output file holds the result of its reduce
task: no task is ever lost with the worker that had it. *)
Theorem mapreduce_can_finish can_open mapf reducef sort_by_key inputs n fs0 s w :
  job_ok can_open mapf inputs n fs0 →
  carefully_reached can_open mapf reducef sort_by_key inputs n fs0 s →
  coord_status s = Up → is_Some (threads s !! (w, None)) →
  ∃ s', rtc (calm_step can_open mapf reducef sort_by_key) s s' ∧
    coord_status s' = Up ∧ is_Some (threads s' !! (w, None)) ∧ Done (coord s') = true ∧
    ∀ r, (0 ≤ r < n)%Z →
      files s' !! out_name r = Some (out_lines reducef (job_groups mapf sort_by_key inputs n fs0 r)).
Proof.
  intros job Hs Hup Hl.
  destruct (ready_finishes can_open mapf reducef sort_by_key inputs n fs0 job w s) as (s' & Hrun & [] & Hd).
  - split; [by apply (reached_inv can_open)|by eapply reached_booked|done|done].
  - exists s'. split_and!; try done. by eapply done_results.
Qed.

(** The state of the run of word count after its first worker has died with a map
task half done. *)
Definition wc_orphaned : cluster :=
  default wc_start (run_labels wc_next wc_start (take 6 wc_events)).

Lemma mapreduce_can_finish_witness :
  ∃ s', rtc (calm_step (λ _, true) words_map count_reduce merge_by_key) wc_orphaned s' ∧
    Done (coord s') = true.
Proof.
  destruct (mapreduce_can_finish (λ _, true) words_map count_reduce merge_by_key ["a.txt"; "b.txt"] 2 wc_files
    wc_orphaned 2) as (s' & Hrun & _ & _ & Hd & _).
  - exact wc_job_ok.
  - exists wc_start. split; [vm_compute; reflexivity|]. apply careful_run with (take 6 wc_events).
    vm_compute. reflexivity.
  - vm_compute. reflexivity.
  - vm_compute. eexists. reflexivity.
  - exists s'. split; [exact Hrun|exact Hd].
Defined.

End MrProgress.
