(* ===== verification/MrOverlap.v ===== *)
(** * The MapReduce system with handlers that overlap

The machine of [MrSystem] runs a handler of the coordinator in one step.  Here a
call starts a thread of [MrCoordinator], whose sections run one by one between the
sections of other handlers and all other steps of the system; the caller waits, and
when its process ends the handler goes on.  A run in which no handler makes a test
while another is between the same test and its effect ([race_free]) is a run of the
machine of [MrSystem], section for call, so that what is proved of that machine
holds here ([simulation]). *)

From S2P Require Import Prelude GoStrings Json MrCoordinator MrWorker MrJob MrSystem MrCorrect MrProgress.
From stdpp Require Import options.
Import Json Mr MrWorker MrJob MrSystem MrCorrect MrProgress.

Module MrOverlap.

(** ** The machine *)

(** A handler that runs: the thread that waits for it, if it still does, and the
program point. *)
Abbreviation handler := (option tid * thread)%type.

Record overlapped := mkOverlapped { base : cluster; handlers : list handler }.

(** Handlers whose caller is gone. *)
Definition orphan (ts : threads_t) (h : handler) : handler :=
  (h.1 ≫= λ t, if ts !! t is Some _ then Some t else None, h.2).

(** Processes that have ended leave their handlers behind; calls they have not made
are not made. *)
Definition after_local (s : cluster) (hs : list handler) : overlapped :=
  mkOverlapped (set_late s []) (orphan (threads s) <$> hs).

Definition waiting (hs : list handler) (t : tid) : bool :=
  existsb (λ h, bool_decide (h.1 = Some t)) hs.

(** The reply [r] of a handler, or a failure, comes back to the thread that waits. *)
Definition resume (s : cluster) (o : option tid) (r : option response) : cluster :=
  match o with
  | Some t => match threads s !! t with
              | Some p => set_thread s t (after_call t p r)
              | None => s
              end
  | None => s
  end.

(** The steps that are not calls. *)
Definition is_local (e : event) : bool :=
  match e with
  | ECall _ | ELate _ | ELose _ | EDie _ (_ :: _) => false
  | _ => true
  end.

Inductive oevent :=
| OLocal (e : event)
| OSend (t : tid)                     (* a thread sends its call *)
| OSection (j : nat)                  (* handler [j] runs its next section *)
| OReturn (j : nat)                   (* handler [j] has returned: the reply arrives *)
| OFail (j : nat).                    (* the coordinator is gone: the call fails *)

Section machine.
Context (can_open : string → bool).
Context (mapf : string → string → list KeyValue).
Context (reducef : string → list string → string).
Context (sort_by_key : list KeyValue → list KeyValue).

Definition overlapped_next (s : overlapped) (e : oevent) : option overlapped :=
  let b := base s in let hs := handlers s in
  match e with
  | OLocal e =>
      if is_local e then
        (λ b', after_local b' hs) <$> cluster_next can_open mapf reducef sort_by_key b e
      else None
  | OSend t =>
      match threads b !! t ≫= remote_call t.1 with
      | Some k =>
          if waiting hs t then None
          else match coord_status b with
               | Up => Some (mkOverlapped b (hs ++ [(Some t, entry k)]))
               | Exited | Died _ => Some (after_local (kill b t.1 []) hs)
               end
      | None => None
      end
  | OSection j =>
      match coord_status b, hs !! j with
      | Up, Some (o, h) =>
          match tstep (coord b) h with
          | Some (Ok (c, h', new)) =>
              Some (mkOverlapped (set_coord b c (monitors b ++ new)) (<[j := (o, h')]> hs))
          | Some (Crash f) => Some (mkOverlapped (set_status b (Died f)) hs)
          | None => None
          end
      | _, _ => None
      end
  | OReturn j =>
      match coord_status b, hs !! j with
      | Up, Some (o, h) =>
          match response_of h with
          | Some r => Some (mkOverlapped (resume b o (Some r)) (delete j hs))
          | None => None
          end
      | _, _ => None
      end
  | OFail j =>
      match coord_status b, hs !! j with
      | Up, _ | _, None => None
      | _, Some (o, _) => Some (mkOverlapped (resume b o None) (delete j hs))
      end
  end.
End machine.

Definition overlapped_start (inputs : list string) (n : Z) (fs : files_t) : outcome overlapped :=
  let* s := start inputs n fs in Ok (mkOverlapped s []).

(** ** Runs without races *)

(** The call of a handler that has had no effect yet. *)
Definition call_of (h : thread) : option call :=
  match h with
  | GM0 a | GM1 a => Some (CallGiveMap a)
  | GR0 a | GR1 a | GR2 a => Some (CallGiveReduce a)
  | CM0 a | CM1 a => Some (CallMapDone a)
  | CR0 a | CR1 a => Some (CallReduceDone a)
  | RW0 a => Some (CallRegister a)
  | _ => None
  end.

(** The calls whose callers are gone. *)
Definition orphan_call (h : handler) : option call := if h.1 is None then call_of h.2 else None.
Definition orphan_calls (hs : list handler) : list call := omap orphan_call hs.

(** Between the test and the effect. *)
Definition in_give_map (h : handler) : option () := if h.2 is GM1 _ then Some () else None.
Definition in_give_reduce (h : handler) : option () := if h.2 is GR2 _ then Some () else None.
Definition in_map_done (h : handler) : option Z := if h.2 is CM1 a then Some (ma_Maptask_id a) else None.
Definition in_reduce_done (h : handler) : option Z :=
  if h.2 is CR1 a then Some (ra_Reducetask_id a) else None.

(** A handler makes a test whose result no other handler is about to change. *)
Definition race_free (c : Coordinator) (hs : list handler) (h : thread) : Prop :=
  match h with
  | GM0 _ =>
      (counter_map c < len (filenames c))%Z →
      (counter_map c + Z.of_nat (length (omap in_give_map hs)) < len (filenames c))%Z
  | GR1 _ =>
      (counter_reduce c < nReduce c)%Z →
      (counter_reduce c + Z.of_nat (length (omap in_give_reduce hs)) < nReduce c)%Z
  | CM0 a => ma_Maptask_id a ∉ omap in_map_done hs
  | CR0 a => ra_Reducetask_id a ∉ omap in_reduce_done hs
  | _ => True
  end.

Global Instance race_free_dec c hs h : Decision (race_free c hs h).
Proof. destruct h; apply _. Defined.

(** The base with the calls in transit, as [MrSystem] has them. *)
Definition with_late (s : overlapped) : cluster := set_late (base s) (orphan_calls (handlers s)).

(** The conditions on runs: that of [MrCorrect], and no race. *)
Definition orderly (s : overlapped) (e : oevent) : Prop :=
  match e with
  | OLocal e => careful (with_late s) e
  | OSection j => ∀ o h, handlers s !! j = Some (o, h) → race_free (coord (base s)) (handlers s) h
  | _ => True
  end.

Definition orderlyb (s : overlapped) (e : oevent) : bool :=
  match e with
  | OLocal e => carefulb (with_late s) e
  | OSection j =>
      if handlers s !! j is Some (_, h) then bool_decide (race_free (coord (base s)) (handlers s) h) else true
  | _ => true
  end.

Lemma orderlyb_sound s e : orderlyb s e = true → orderly s e.
Proof.
  destruct e as [e| |j| |]; cbn; try done; [apply carefulb_sound|].
  intros H o h Hj. rewrite Hj in H. by apply bool_decide_eq_true in H.
Qed.

(** ** The relation of the two machines *)

(** The answer of a handler that has had its effect, as far as the caller sees it. *)
Definition answer_of (h : thread) : option response :=
  match h with
  | GMret r e => Some (RespMap r e)
  | GRret r e => Some (RespReduce r e)
  | CM2 _ | CM3 _ | CMret _ | CR2 _ | CR3 _ | CRret _ | RWret => Some (RespErr None)
  | _ => None
  end.

(** A thread at [p] waits for handler [h]. *)
Definition asks (t : tid) (p : pc) (h : thread) : Prop :=
  match h with
  | GM0 _ | GM1 _ | GMret _ _ => p = Ask MapPhase
  | GR0 _ | GR1 _ | GR2 _ | GRret _ _ => p = Ask ReducePhase
  | CM0 _ | CM1 _ | CM2 _ | CM3 _ | CMret _ => ∃ a, p = TellMap a
  | CR0 _ | CR1 _ | CR2 _ | CR3 _ | CRret _ => ∃ a, p = TellReduce a
  | RW0 _ | RWret => p = Registering
  | MapMonitor _ | ReduceMonitor _ _ | Stopped => False
  end ∧ ∀ k, call_of h = Some k → remote_call t.1 p = Some k.

(** Where [MrSystem] has the thread: the call is still to come, or is over. *)
Definition seen (t : tid) (p : pc) (h : thread) : option pc :=
  if answer_of h is Some r then after_call t p (Some r) else Some p.

Record threads_sim (hs : list handler) (ts tsa : threads_t) : Prop := {
  th_owner : NoDup (omap fst hs);
  th_idle : ∀ t, t ∉ omap fst hs → tsa !! t = ts !! t;
  th_call : ∀ t h, (Some t, h) ∈ hs → ∃ p, ts !! t = Some p ∧ asks t p h ∧ tsa !! t = seen t p h }.

(** Reports that have set their flag count as counted. *)
Definition counted (c : Coordinator) (hs : list handler) : Coordinator :=
  set_done_reduce
    (set_done_map c (done_map c + Z.of_nat (length (omap (λ h, pending_map h.2) hs))))
    (done_reduce c + Z.of_nat (length (omap (λ h, pending_reduce h.2) hs))).

(** What a handler knows between two sections. *)
Definition knows (c : Coordinator) (h : thread) : Prop :=
  match h with
  | GR1 _ | GR2 _ => done_map c = len (filenames c)
  | CM1 a => index (map_complete c) (ma_Maptask_id a) = Ok false
  | CR1 a => index (reduce_complete c) (ra_Reducetask_id a) = Ok false
  | MapMonitor _ | ReduceMonitor _ _ | Stopped => False
  | _ => True
  end.

Record windows (c : Coordinator) (hs : list handler) : Prop := {
  w_map : (counter_map c + Z.of_nat (length (omap in_give_map hs)) ≤ len (filenames c))%Z;
  w_reduce : (counter_reduce c + Z.of_nat (length (omap in_give_reduce hs)) ≤ nReduce c)%Z;
  w_map_done : NoDup (omap in_map_done hs);
  w_reduce_done : NoDup (omap in_reduce_done hs);
  w_knows : ∀ o h, (o, h) ∈ hs → knows c h }.

Record sim (s : overlapped) (a : cluster) : Prop := {
  sm_up : coord_status (base s) = Up;
  sm_up_a : coord_status a = Up;
  sm_coord : coord a = counted (coord (base s)) (handlers s);
  sm_monitors : monitors a = monitors (base s);
  sm_files : files a = files (base s);
  sm_none : late (base s) = [];
  sm_late : late a ≡ₚ orphan_calls (handlers s);
  sm_threads : threads_sim (handlers s) (threads (base s)) (threads a);
  sm_windows : windows (coord (base s)) (handlers s) }.

Implicit Types (hs : list handler) (ts tsa : threads_t).

(** ** Threads *)

Lemma asks_next c c' h h' new t p :
  tstep c h = Some (Ok (c', h', new)) → asks t p h → asks t p h'.
Proof.
  intros Ht [Hp Hk]. destruct h; cbn in Ht; try done; injection Ht as Ht; go_cases; cbn in *;
    repeat match goal with b : bool |- _ => destruct b end;
    (split; [done|]); cbn; intros k' Hk'; try done; by apply Hk.
Qed.

Lemma owner_insert (hs : list handler) j o h h' :
  hs !! j = Some (o, h) → omap fst (<[j := (o, h')]> hs) ≡ₚ omap fst hs.
Proof. intros Hj. by apply (omap_insert_same fst hs j (o, h) (o, h')). Qed.

Lemma owner_elem (hs : list handler) t : t ∈ omap fst hs ↔ ∃ h, (Some t, h) ∈ hs.
Proof.
  rewrite list_elem_of_omap. split; [intros ([o h] & Hin & Ho); cbn in Ho; subst; eauto|].
  intros [h Hin]. by exists (Some t, h).
Qed.

Lemma th_move hs ts tsa j t h h' p :
  threads_sim hs ts tsa → hs !! j = Some (Some t, h) → ts !! t = Some p → asks t p h' →
  threads_sim (<[j := (Some t, h')]> hs) ts (partial_alter (λ _, seen t p h') t tsa).
Proof.
  intros [Hnd Hidle Hcall] Hj Hp Ha. pose proof (owner_insert hs j _ h h' Hj) as Ho. split.
  - by rewrite Ho.
  - intros t' Ht'. rewrite Ho in Ht'. rewrite lookup_partial_alter_ne; [by apply Hidle|].
    intros ->. apply Ht', owner_elem. exists h. apply list_elem_of_lookup. eauto.
  - intros t' h1 [i Hi]%list_elem_of_lookup.
    apply list_lookup_insert_Some in Hi as [(<- & [= -> ->] & _)|[Hne Hi]].
    + exists p. by rewrite lookup_partial_alter_eq.
    + destruct (Hcall t' h1) as (p1 & ? & ? & ?); [apply list_elem_of_lookup; eauto|].
      exists p1. split_and!; [done..|]. rewrite lookup_partial_alter_ne; [done|]. intros <-.
      destruct Hne. by apply (omap_index_inj fst hs j i (Some t, h) (Some t, h1) t).
Qed.

(** A handler nobody waits for. *)
Lemma th_orphan hs ts tsa j h h' :
  threads_sim hs ts tsa → hs !! j = Some (None, h) → threads_sim (<[j := (None, h')]> hs) ts tsa.
Proof.
  intros [Hnd Hidle Hcall] Hj. pose proof (owner_insert hs j _ h h' Hj) as Ho. split.
  - by rewrite Ho.
  - intros t Ht. apply Hidle. by rewrite Ho in Ht.
  - intros t h1 [?|Hin]%elem_of_insert_inv; [done|]. by apply Hcall.
Qed.

(** A handler goes on without a change for its caller. *)
Lemma th_stay hs ts tsa j o h c c' h' new :
  threads_sim hs ts tsa → hs !! j = Some (o, h) → tstep c h = Some (Ok (c', h', new)) →
  (∀ t p, asks t p h → seen t p h' = seen t p h) → threads_sim (<[j := (o, h')]> hs) ts tsa.
Proof.
  intros Hth Hj Hs Hseen. destruct o as [t|]; [|by eapply th_orphan].
  destruct (th_call _ _ _ Hth t h) as (p & Hp & Ha & Hpa); [apply list_elem_of_lookup; eauto|].
  rewrite <-(Hseen t p Ha) in Hpa. pose proof (th_move _ _ _ _ _ _ _ _ Hth Hj Hp (asks_next _ _ _ _ _ _ _ Hs Ha)) as H.
  by rewrite <-Hpa, partial_alter_self in H.
Qed.

(** ** What handlers know *)

Lemma windows_move c c' hs j o h h' :
  windows c hs → hs !! j = Some (o, h) →
  (counter_map c' + Z.of_nat (length (omap in_give_map (<[j := (o, h')]> hs))) ≤ len (filenames c'))%Z →
  (counter_reduce c' + Z.of_nat (length (omap in_give_reduce (<[j := (o, h')]> hs))) ≤ nReduce c')%Z →
  (∀ i, in_map_done (o, h') = Some i → i ∉ omap in_map_done hs) →
  (∀ i, in_reduce_done (o, h') = Some i → i ∉ omap in_reduce_done hs) →
  (∀ i o1 h1, i ≠ j → hs !! i = Some (o1, h1) → knows c h1 → knows c' h1) → knows c' h' →
  windows c' (<[j := (o, h')]> hs).
Proof.
  intros [] Hj Hm Hr Hcm Hcr Hst Hk. split; [done|done|..].
  - by eapply omap_insert_NoDup.
  - by eapply omap_insert_NoDup.
  - intros o1 h1 [i Hi]%list_elem_of_lookup.
    apply list_lookup_insert_Some in Hi as [(_ & [= -> ->] & _)|[Hne Hi]]; [done|].
    eapply Hst; [done..|]. eapply w_knows0, list_elem_of_lookup. eauto.
Qed.

(** No more reports are counted, or about to be, than there are tasks. *)
Lemma counted_map_le c hs :
  wf (counted c hs) → (done_map c + Z.of_nat (length (omap (λ h, pending_map h.2) hs)) ≤ len (filenames c))%Z.
Proof.
  intros []. pose proof (count_true_le (map_complete c)) as H. cbn in *. unfold len, count_true in *. lia.
Qed.
Lemma counted_reduce_le c hs :
  wf (counted c hs) → (done_reduce c + Z.of_nat (length (omap (λ h, pending_reduce h.2) hs)) ≤ nReduce c)%Z.
Proof.
  intros []. pose proof (count_true_le (reduce_complete c)) as H. cbn in *. unfold len, count_true in *. lia.
Qed.

Ltac lengths hs j x y Hj :=
  pose proof (omap_insert_length in_give_map hs j x y Hj);
  pose proof (omap_insert_length in_give_reduce hs j x y Hj);
  pose proof (omap_insert_length (λ h : handler, pending_map h.2) hs j x y Hj);
  pose proof (omap_insert_length (λ h : handler, pending_reduce h.2) hs j x y Hj);
  cbn [in_give_map in_give_reduce pending_map pending_reduce option_list length snd] in *.

Ltac by_move Hw Hj := eapply windows_move; [exact Hw|exact Hj|..]; cbn in *; try done; try lia.

Lemma windows_section c c' hs j o h h' new :
  windows c hs → wf (counted c hs) → hs !! j = Some (o, h) → race_free c hs h →
  tstep c h = Some (Ok (c', h', new)) → windows c' (<[j := (o, h')]> hs).
Proof.
  intros Hw Hwf Hj Hrf Ht. pose proof (w_map _ _ Hw) as Hm. pose proof (w_reduce _ _ Hw) as Hr.
  pose proof (w_knows _ _ Hw o h) as Hk. specialize (Hk ltac:(apply list_elem_of_lookup; eauto)).
  lengths hs j (o, h) (o, h') Hj.
  destruct h; cbn in Ht; try done; injection Ht as Ht; cbn [race_free knows] in *.
  - case_decide; go_simp; by_move Hw Hj.
  - destruct (give_map_locked c) as [[c1 r]|] eqn:Hg; [|done]. cbn in Ht. simplify_eq.
    apply give_map_locked_Ok in Hg as (_ & _ & _ & _ & ->). by_move Hw Hj.
  - case_decide; go_simp; by_move Hw Hj.
  - case_decide; go_simp; by_move Hw Hj.
  - unfold give_reduce_locked in Ht. go_simp. by_move Hw Hj.
  - go_simp. destruct x; by_move Hw Hj. by intros i [= <-].
  - destruct (set_index _ _ _) as [l|] eqn:Hl; [|done]. cbn in Ht. simplify_eq.
    apply set_index_Ok in Hl as [Hb ->]. by_move Hw Hj.
    intros i o1 h1 Hne Hi. destruct h1; cbn; try done. intros Hf. rewrite index_insert by done.
    rewrite decide_False; [done|]. intros E. destruct Hne.
    by apply (omap_index_inj in_map_done hs i j (o1, CM1 args0) (o, CM1 args) (ma_Maptask_id args) (w_map_done _ _ Hw));
      cbn; rewrite ?E.
  - go_simp. by_move Hw Hj. intros i o1 h1 Hne Hi. pose proof (counted_map_le _ _ Hwf).
    destruct h1; cbn; try done; lia.
  - go_simp. by_move Hw Hj.
  - go_simp. destruct x; by_move Hw Hj. by intros i [= <-].
  - destruct (set_index _ _ _) as [l|] eqn:Hl; [|done]. cbn in Ht. simplify_eq.
    apply set_index_Ok in Hl as [Hb ->]. by_move Hw Hj.
    intros i o1 h1 Hne Hi. destruct h1; cbn; try done. intros Hf. rewrite index_insert by done.
    rewrite decide_False; [done|]. intros E. destruct Hne.
    by apply (omap_index_inj in_reduce_done hs i j (o1, CR1 args0) (o, CR1 args) (ra_Reducetask_id args)
      (w_reduce_done _ _ Hw)); cbn; rewrite ?E.
  - go_simp. by_move Hw Hj.
  - go_simp. by_move Hw Hj.
  - go_simp. by_move Hw Hj.
Qed.

(** ** What a section does, seen from the whole handler *)

Variant effect (c : Coordinator) (hs : list handler) (h : thread)
    (c' : Coordinator) (hs' : list handler) (h' : thread) (new : list thread) : Prop :=
| EffectNone :                        (* before the effect, or after it *)
    new = [] → call_of h' = call_of h → answer_of h' = answer_of h →
    counted c' hs' = counted c hs → effect c hs h c' hs' h' new
| EffectWait a :                      (* [GiveReduceTask] refuses for now *)
    h = GR0 a → h' = GRret {| rr_Reducetask_id := -1; rr_Reducefiles := [] |} None →
    new = [] → counted c' hs' = counted c hs → effect c hs h c' hs' h' new
| EffectCall k r r' :                 (* the effect of the whole handler *)
    call_of h = Some k → call_of h' = None → answer_of h' = Some r →
    serve (counted c hs) k = Ok (counted c' hs', r') → new = spawned r' →
    (∀ t p, asks t p h → after_call t p (Some r) = after_call t p (Some r')) →
    effect c hs h c' hs' h' new.

Ltac same_counted :=
  unfold counted, set_done_map, set_done_reduce, set_counter_map, set_counter_reduce,
    set_map_complete, set_reduce_complete, set_worker_book; cbn; f_equal; lia.

Lemma EffectReport c hs h c' hs' h' new k e :
  serve (counted c hs) k = Ok (counted c' hs', RespErr e) → call_of h = Some k → call_of h' = None →
  answer_of h' = Some (RespErr None) → new = [] →
  (∀ t p, asks t p h → after_call t p (Some (RespErr None)) = after_call t p (Some (RespErr e))) →
  effect c hs h c' hs' h' new.
Proof. intros. by apply EffectCall with k (RespErr None) (RespErr e). Qed.

(** A report, whose handler alone is the equation [E]. *)
Ltac report_effect k E :=
  eapply (EffectReport _ _ _ _ _ _ _ k);
    [cbn [serve]; rewrite E; cbn [bind]; do 2 f_equal; same_counted|done..|by intros t p [[a ->] _]].
Ltac no_effect := apply EffectNone; try done; same_counted.

(** The locked section of [GiveReduceTask] does not touch what is counted. *)
Lemma give_reduce_counted c c' r hs hs' :
  give_reduce_locked c = Ok (c', r) →
  length (omap (λ h, pending_map h.2) hs') = length (omap (λ h, pending_map h.2) hs) →
  length (omap (λ h, pending_reduce h.2) hs') = length (omap (λ h, pending_reduce h.2) hs) →
  give_reduce_locked (counted c hs) = Ok (counted c' hs', r) ∧ rr_Reducetask_id r = counter_reduce c.
Proof.
  intros Hg Hlm Hlr. split; [|unfold give_reduce_locked in Hg; by go_simp].
  unfold give_reduce_locked in *. cbn. destruct (make_slice _ _) as [l|]; [|done]. cbn in *.
  destruct (for_each _ _ _) as [l'|]; [|done]. cbn in *. simplify_eq/=. do 2 f_equal. same_counted.
Qed.

(** What the invariant says of the handler [h] at [j] and of the counters. *)
Ltac section_facts c hs j o h h' Hw Hwf Hj :=
  pose proof (w_map _ _ Hw) as Hm; pose proof (w_reduce _ _ Hw) as Hr;
  pose proof (counted_map_le _ _ Hwf) as Hcm; pose proof (wf_counter_reduce _ Hwf) as Hcr;
  pose proof (w_knows _ _ Hw o h) as Hk; specialize (Hk ltac:(apply list_elem_of_lookup; eauto));
  lengths hs j (o, h) (o, h') Hj;
  pose proof (omap_lookup_split in_give_map hs j _ Hj) as Hs1%Permutation_length;
  pose proof (omap_lookup_split in_give_reduce hs j _ Hj) as Hs2%Permutation_length;
  rewrite length_app in Hs1, Hs2.

Lemma give_section_effect c c' hs j o h h' new :
  windows c hs → wf (counted c hs) → hs !! j = Some (o, h) →
  tstep c h = Some (Ok (c', h', new)) →
  match h with GM0 _ | GM1 _ | GR0 _ | GR1 _ | GR2 _ => True | _ => False end →
  effect c hs h c' (<[j := (o, h')]> hs) h' new.
Proof.
  intros Hw Hwf Hj Ht Hg. section_facts c hs j o h h' Hw Hwf Hj.
  destruct h; try done; clear Hg; injection Ht as Ht; cbn in *.
  - case_decide; go_simp.
    + apply EffectCall with (CallGiveMap args) (RespMap MapReply0 (Some EOF)) (RespMap MapReply0 (Some EOF));
        try done. cbn. unfold GiveMapTask. cbn.
      rewrite decide_True by done. cbn. do 2 f_equal. same_counted.
    + no_effect.
  - destruct (give_map_locked c) as [[c1 r]|] eqn:Hg; [|done]. cbn in Ht. simplify_eq.
    apply EffectCall with (CallGiveMap args) (RespMap r None) (RespMap r None); try done.
    cbn. unfold GiveMapTask. cbn. rewrite decide_False by lia. unfold give_map_locked in *. cbn.
    destruct (index (filenames c) (counter_map c)) as [f|]; [|done]. cbn in *. simplify_eq/=.
    do 2 f_equal. same_counted.
  - case_decide; go_simp; [no_effect|].
    eapply EffectWait; try done. same_counted.
  - case_decide; go_simp; [|no_effect].
    apply EffectCall with (CallGiveReduce args) (RespReduce ReduceReply0 (Some EOF))
      (RespReduce ReduceReply0 (Some EOF)); try done.
    cbn. unfold GiveReduceTask. cbn. rewrite decide_True by lia. rewrite decide_True by done. cbn.
    do 2 f_equal. same_counted.
  - destruct (give_reduce_locked c) as [[c1 r]|] eqn:Hg; [|done]. cbn in Ht. simplify_eq.
    destruct (give_reduce_counted c c' r hs (<[j := (o, GRret r None)]> hs) Hg) as [E Hid]; [cbn in *; lia..|].
    apply EffectCall with (CallGiveReduce args) (RespReduce r None) (RespReduce r None); try done.
    + cbn [serve]. unfold GiveReduceTask. cbn [counted filenames done_map set_done_map set_done_reduce].
      rewrite decide_True by (cbn; lia). rewrite decide_False by (cbn; lia). by rewrite E.
    + cbn. by rewrite decide_False by lia.
Qed.

Lemma section_effect c c' hs j o h h' new :
  windows c hs → wf (counted c hs) → hs !! j = Some (o, h) →
  tstep c h = Some (Ok (c', h', new)) → effect c hs h c' (<[j := (o, h')]> hs) h' new.
Proof.
  intros Hw Hwf Hj Ht. pose proof (give_section_effect _ _ _ _ _ _ _ _ Hw Hwf Hj Ht) as Hgive.
  section_facts c hs j o h h' Hw Hwf Hj.
  destruct h; cbn in Ht; try done; try (by apply Hgive); clear Hgive; injection Ht as Ht; cbn in *.
  - destruct (index _ _) as [b|] eqn:Hb; [|done]. cbn in Ht. simplify_eq. destruct b.
    + pose proof (CheckLastMapDone_eq (counted c' hs) args true Hb) as E. cbn in *.
      report_effect (CallMapDone args) E.
    + cbn in *. no_effect.
  - destruct (set_index _ _ _) as [l|] eqn:Hl; [|done]. cbn in Ht. simplify_eq.
    apply set_index_Ok in Hl as [_ ->].
    pose proof (CheckLastMapDone_eq (counted c hs) args false Hk) as E. cbn in *.
    report_effect (CallMapDone args) E.
  - go_simp. no_effect.
  - go_simp. no_effect.
  - destruct (index _ _) as [b|] eqn:Hb; [|done]. cbn in Ht. simplify_eq. destruct b.
    + pose proof (CheckLastReduceDone_eq (counted c' hs) args true Hb) as E. cbn in *.
      report_effect (CallReduceDone args) E.
    + cbn in *. no_effect.
  - destruct (set_index _ _ _) as [l|] eqn:Hl; [|done]. cbn in Ht. simplify_eq.
    apply set_index_Ok in Hl as [_ ->].
    pose proof (CheckLastReduceDone_eq (counted c hs) args false Hk) as E. cbn in *.
    report_effect (CallReduceDone args) E.
  - go_simp. no_effect.
  - go_simp. no_effect.
  - go_simp. eapply EffectCall with (CallRegister args) (RespErr None) (RespErr None); try done.
    cbn. do 2 f_equal. same_counted.
Qed.

(** ** Sections of handlers *)

Lemma orphan_calls_same hs j o h h' :
  hs !! j = Some (o, h) → orphan_call (o, h') = orphan_call (o, h) →
  orphan_calls (<[j := (o, h')]> hs) ≡ₚ orphan_calls hs.
Proof. intros Hj E. by eapply omap_insert_same. Qed.

(** The call of an orphan is one of the late calls. *)
Lemma orphan_calls_old hs j h h' k (lt : list call) :
  lt ≡ₚ orphan_calls hs → hs !! j = Some (None, h) → call_of h = Some k → call_of h' = None →
  ∃ i, lt !! i = Some k ∧ delete i lt ≡ₚ orphan_calls (<[j := (None, h')]> hs).
Proof.
  intros Hlt Hj Hk Hk'.
  pose proof (omap_insert_old orphan_call hs j (None, h) (None, h') k Hj Hk Hk') as E.
  fold (orphan_calls hs) in E. rewrite <-Hlt in E.
  assert (k ∈ lt) as [i Hi]%list_elem_of_lookup by (rewrite E; set_solver).
  exists i. split; [done|]. apply delete_Permutation in Hi as Ep. rewrite Ep in E. by apply Permutation_cons_inv in E.
Qed.

(** ** Calls that start and end *)

Lemma entry_asks t p k : remote_call t.1 p = Some k → asks t p (entry k) ∧ answer_of (entry k) = None.
Proof.
  intros Hk. destruct p as [|[]| | | |]; cbn in Hk; simplify_eq; (split; [|done]);
    (split; [done || by eexists|]); by intros k [= <-].
Qed.

Lemma entry_quiet k o c :
  in_give_map (o, entry k) = None ∧ in_give_reduce (o, entry k) = None ∧ in_map_done (o, entry k) = None ∧
  in_reduce_done (o, entry k) = None ∧ pending_map (entry k) = None ∧ pending_reduce (entry k) = None ∧
  knows c (entry k).
Proof. by destruct k. Qed.

Lemma windows_send c hs o k : windows c hs → windows c (hs ++ [(o, entry k)]).
Proof.
  intros []. destruct (entry_quiet k o c) as (? & ? & ? & ? & _ & _ & ?).
  split; rewrite ?omap_snoc_none by done; try done.
  intros o1 h1 [?|[= -> ->]%list_elem_of_singleton]%elem_of_app; eauto.
Qed.

Lemma counted_send c hs o k : counted c (hs ++ [(o, entry k)]) = counted c hs.
Proof.
  destruct (entry_quiet k o c) as (_ & _ & _ & _ & ? & ? & _). unfold counted.
  by rewrite !omap_snoc_none by done.
Qed.

Lemma waiting_elem hs t : waiting hs t = false → t ∉ omap fst hs.
Proof.
  intros Hw [h Hin]%owner_elem. assert (waiting hs t = true); [|congruence].
  apply existsb_elem with (Some t, h); [done|]. by apply bool_decide_eq_true.
Qed.

Lemma th_send hs ts tsa t p k :
  threads_sim hs ts tsa → t ∉ omap fst hs → ts !! t = Some p → remote_call t.1 p = Some k →
  threads_sim (hs ++ [(Some t, entry k)]) ts tsa.
Proof.
  intros [Hnd Hidle Hcall] Hn Hp Hk. destruct (entry_asks t p k Hk) as [Ha Hans]. split.
  - rewrite omap_app. cbn. apply NoDup_app. split_and!; [done|set_solver|apply NoDup_singleton].
  - intros t' Ht'. apply Hidle. rewrite omap_app in Ht'. set_solver.
  - intros t' h [Hin|[= -> ->]%list_elem_of_singleton]%elem_of_app; [by apply Hcall|].
    exists p. split_and!; [done..|]. unfold seen. rewrite Hans. by rewrite Hidle.
Qed.

Lemma response_quiet o h r c :
  response_of h = Some r → pending_map h = None ∧ pending_reduce h = None ∧ orphan_call (o, h) = None ∧
  ∀ t p, asks t p h → seen t p h = after_call t p (Some r) ∧ knows c h.
Proof.
  destruct h; try done; cbn; intros [= <-]; (split_and!; [by destruct o..|]);
    intros t p [Hp _]; (split; [|done]); by naive_solver.
Qed.

Lemma windows_delete c hs j x : hs !! j = Some x → windows c hs → windows c (delete j hs).
Proof.
  intros Hj []. split.
  - rewrite (omap_lookup_split in_give_map hs j x Hj), length_app in w_map0. lia.
  - rewrite (omap_lookup_split in_give_reduce hs j x Hj), length_app in w_reduce0. lia.
  - rewrite (omap_lookup_split in_map_done hs j x Hj) in w_map_done0. by apply NoDup_app in w_map_done0 as (_ & _ & ?).
  - rewrite (omap_lookup_split in_reduce_done hs j x Hj) in w_reduce_done0. by apply NoDup_app in w_reduce_done0 as (_ & _ & ?).
  - intros o h Hin. apply (w_knows0 o). by eapply elem_of_submseteq, submseteq_delete.
Qed.

Lemma th_return hs ts tsa j t h p r :
  threads_sim hs ts tsa → hs !! j = Some (Some t, h) → ts !! t = Some p → seen t p h = after_call t p (Some r) →
  threads_sim (delete j hs) (partial_alter (λ _, after_call t p (Some r)) t ts) tsa.
Proof.
  intros [Hnd Hidle Hcall] Hj Hp Hseen.
  pose proof (omap_lookup_split fst hs j _ Hj) as Ho. cbn in Ho.
  assert (t ∉ omap fst (delete j hs)) as Hnt.
  { rewrite Ho in Hnd. by apply NoDup_cons in Hnd as [? _]. }
  split.
  - rewrite Ho in Hnd. by apply NoDup_cons in Hnd as [_ ?].
  - intros t' Ht'. destruct (decide (t' = t)) as [->|Hne].
    + rewrite lookup_partial_alter_eq, <-Hseen.
      destruct (Hcall t h) as (p' & Hp' & _ & E); [apply list_elem_of_lookup; eauto|]. congruence.
    + rewrite lookup_partial_alter_ne by done. apply Hidle. rewrite Ho. set_solver.
  - intros t' h' Hin. assert (t' ≠ t) as Hne by (intros ->; apply Hnt, owner_elem; eauto).
    rewrite lookup_partial_alter_ne by done. apply Hcall. by eapply elem_of_submseteq, submseteq_delete.
Qed.

Lemma th_return_orphan hs ts tsa j h :
  threads_sim hs ts tsa → hs !! j = Some (None, h) → threads_sim (delete j hs) ts tsa.
Proof.
  intros [Hnd Hidle Hcall] Hj.
  pose proof (omap_delete_none fst hs j _ Hj eq_refl) as Ho. split.
  - by rewrite Ho.
  - intros t. rewrite Ho. apply Hidle.
  - intros t h' Hin. apply Hcall. by eapply elem_of_submseteq, submseteq_delete.
Qed.

(** ** Steps that are not calls *)

Lemma orphan_id ts hs : (∀ t h, (Some t, h) ∈ hs → is_Some (ts !! t)) → orphan ts <$> hs = hs.
Proof.
  intros H. rewrite <-(list_fmap_id hs) at 2. apply list_fmap_ext. intros i [[t|] h] Hi; [|done].
  unfold orphan. cbn. destruct (H t h) as [p ->]; [apply list_elem_of_lookup; eauto|done].
Qed.

Lemma omap_orphan {B} (f : handler → option B) ts hs :
  (∀ o o' h, f (o, h) = f (o', h)) → omap f (orphan ts <$> hs) = omap f hs.
Proof.
  intros Hf. induction hs as [|[o h] hs IH]; [done|]. cbn. rewrite IH.
  unfold orphan. cbn. match goal with |- context [f (?x, h)] => by rewrite (Hf x o h) end.
Qed.

Lemma windows_orphan c ts hs : windows c hs → windows c (orphan ts <$> hs).
Proof.
  intros []. split; rewrite ?omap_orphan by done; try done.
  intros o h ([o' h'] & [= -> ->] & Hin)%list_elem_of_fmap. eauto.
Qed.

Lemma counted_orphan c ts hs : counted c (orphan ts <$> hs) = counted c hs.
Proof. unfold counted. by rewrite !omap_orphan by done. Qed.

(** A thread that does not wait. *)
Lemma th_set hs ts tsa t o :
  threads_sim hs ts tsa → t ∉ omap fst hs →
  threads_sim hs (partial_alter (λ _, o) t ts) (partial_alter (λ _, o) t tsa).
Proof.
  intros [Hnd Hidle Hcall] Hn. split; [done|..].
  - intros t' Ht'. destruct (decide (t' = t)) as [->|Hne]; [by rewrite !lookup_partial_alter_eq|].
    rewrite !lookup_partial_alter_ne by done. by apply Hidle.
  - intros t' h Hin. rewrite !lookup_partial_alter_ne; [by apply Hcall|..]; (intros ->; apply Hn, owner_elem; eauto).
Qed.

Lemma th_running hs ts tsa t p :
  threads_sim hs ts tsa → ts !! t = Some p → remote_call t.1 p = None → (t ∉ omap fst hs) ∧ tsa !! t = Some p.
Proof.
  intros Hth Hp Hk.
  assert (t ∉ omap fst hs) as Hn.
  { intros [h Hin]%owner_elem. destruct (th_call _ _ _ Hth t h Hin) as (p' & Hp' & [Ha _] & _).
    rewrite Hp in Hp'. injection Hp' as <-. destruct h, p as [|[]| | | |]; naive_solver. }
  split; [done|]. by rewrite (th_idle _ _ _ Hth t Hn).
Qed.

(** A call that is over does not leave a report to be made. *)
Lemma after_call_tell t p h r q :
  asks t p h → after_call t p r = Some q → (∀ x, q ≠ TellMap x) ∧ (∀ x, q ≠ TellReduce x).
Proof.
  intros [Ha _] E. destruct p as [|[]| | | |], h, t as [pid [k|]]; try (by destruct Ha); try done;
    cbn in E; repeat case_match; naive_solver.
Qed.

Lemma after_main pid p r : is_Some (after_call (pid, None) p r).
Proof. destruct p as [|[]| | | |]; cbn; repeat case_match; by eexists. Qed.

(** The main threads are the same. *)
Lemma th_live hs ts tsa pid :
  threads_sim hs ts tsa → (is_Some (tsa !! (pid, None)) ↔ is_Some (ts !! (pid, None))).
Proof.
  intros [Hnd Hidle Hcall]. destruct (decide ((pid, None) ∈ omap fst hs)) as [[h Hin]%owner_elem|Hn].
  - destruct (Hcall _ h Hin) as (p & -> & [Ha _] & ->). split; [done|]. intros _. unfold seen.
    destruct (answer_of h); [apply after_main|by eexists].
  - by rewrite Hidle.
Qed.

Lemma th_redo hs ts tsa t : threads_sim hs ts tsa → is_Some (tsa !! t) → is_Some (ts !! t).
Proof.
  intros [Hnd Hidle Hcall] H. destruct (decide (t ∈ omap fst hs)) as [[h Hin]%owner_elem|Hn].
  - destruct (Hcall _ h Hin) as (p & -> & _). eauto.
  - by rewrite <-Hidle.
Qed.

(** The calls that process [pid] has sent and that have had no effect yet. *)
Definition unserved (pid : Z) (h : handler) : option tid :=
  match h.1 with
  | Some t => if decide (t.1 = pid) then if call_of h.2 is Some _ then Some t else None else None
  | None => None
  end.

Lemma unserved_NoDup pid hs : NoDup (omap fst hs) → NoDup (omap (unserved pid) hs).
Proof.
  intros Hnd. apply (sublist_NoDup _ _ Hnd). apply omap_sublist. intros [[t|] h] b; cbn; [|done].
  unfold unserved. cbn. case_decide; [|done]. by destruct (call_of h).
Qed.

Lemma kill_late hs ts tsa pid :
  threads_sim hs ts tsa →
  orphan_calls (orphan (filter (λ tp : (Z * option nat) * pc, tp.1.1 ≠ pid) ts) <$> hs)
  ≡ₚ orphan_calls hs ++ sent_calls tsa pid (omap (unserved pid) hs).
Proof.
  intros [Hnd Hidle Hcall]. unfold sent_calls, orphan_calls. rewrite omap_omap.
  set (ts' := filter _ ts).
  assert (omap orphan_call (orphan ts' <$> hs) = omap (λ h, orphan_call (orphan ts' h)) hs) as ->.
  { clear. induction hs as [|h hs IH]; [done|]. cbn. by rewrite IH. }
  rewrite (omap_ext_elem (λ h, unserved pid h ≫= _)
    (λ h, if h.1 is Some t then if decide (t.1 = pid) then call_of h.2 else None else None)).
  2: { intros [[t|] h] Hin; [|done]. unfold unserved. cbn. case_decide as Hd; [|done].
       destruct (call_of h) as [k|] eqn:Hk; cbn; [|done]. rewrite decide_True by done.
       destruct (Hcall t h Hin) as (p & _ & [_ Ha] & E). assert (answer_of h = None) as Hn by by destruct h.
       unfold seen in E. rewrite Hn in E. rewrite E. cbn. by apply Ha. }
  rewrite <-omap_split with (h := λ h, match h.1 with
    | Some t => if decide (t.1 = pid) then call_of h.2 else None | None => call_of h.2 end).
  2: { intros [[t|] h]; unfold orphan_call; cbn; [|by left]. right. by case_decide. }
  rewrite (omap_ext_elem _ (λ h, match h.1 with
    | Some t => if decide (t.1 = pid) then call_of h.2 else None | None => call_of h.2 end)); [done|].
  intros [[t|] h] Hin; [|done]. unfold orphan_call, orphan. cbn.
  destruct (Hcall t h Hin) as (p & Hp & _). case_decide as Hd.
  - assert (ts' !! t = None) as ->; [|done]. apply map_lookup_filter_None. right. intros q _. cbn. tauto.
  - assert (ts' !! t = Some p) as ->; [|done]. by apply map_lookup_filter_Some.
Qed.

Lemma th_kill hs ts tsa pid :
  let f := filter (λ tp : (Z * option nat) * pc, tp.1.1 ≠ pid) in
  threads_sim hs ts tsa → threads_sim (orphan (f ts) <$> hs) (f ts) (f tsa).
Proof.
  intros f [Hnd Hidle Hcall].
  assert (∀ t h, (Some t, h) ∈ orphan (f ts) <$> hs → (Some t, h) ∈ hs ∧ t.1 ≠ pid) as Hback.
  { intros t h ([[t'|] h'] & E & Hin)%list_elem_of_fmap; unfold orphan in E; cbn in E; [|done].
    destruct (f ts !! t') as [p|] eqn:Hp; [|done]. injection E as -> ->.
    apply map_lookup_filter_Some in Hp as [_ ?]. done. }
  split.
  - apply (sublist_NoDup _ _ Hnd). clear -hs. induction hs as [|[[t|] h] hs IH]; [done|..]; cbn; [|done].
    destruct (f ts !! t); [by apply sublist_skip|by apply sublist_cons].
  - intros t Hn. destruct (decide (t.1 = pid)) as [Hd|Hd].
    + assert (∀ m, f m !! t = None) as Hnone; [|by rewrite !Hnone].
      intros m. apply map_lookup_filter_None. right. intros q _. cbn. tauto.
    + apply option_eq. intros q. unfold f. rewrite !map_lookup_filter_Some.
      rewrite Hidle; [done|]. intros [h Hin]%owner_elem. apply Hn, owner_elem. exists h.
      apply list_elem_of_fmap. exists (Some t, h). split; [|done]. unfold orphan. cbn.
      destruct (Hcall t h Hin) as (p & Hp & _).
      assert (f ts !! t = Some p) as ->; [|done]. by apply map_lookup_filter_Some.
  - intros t h [Hin Hd]%Hback. destruct (Hcall t h Hin) as (p & Hp & Ha & E). exists p.
    split_and!; [by apply map_lookup_filter_Some|done|]. apply option_eq. intros q. unfold f.
    rewrite map_lookup_filter_Some, E. naive_solver.
Qed.

(** ** The monitors *)

Lemma probe_ext d1 d1' order acc : (∀ x, d1 x = d1' x) → probe d1 order acc = probe d1' order acc.
Proof.
  intros E. revert acc. induction order as [|[pid x] order IH]; intros acc; cbn; [done|].
  rewrite E. by destruct (d1' x).
Qed.

Lemma callWorker_counted d1 d1' d2 d2' order c hs :
  (∀ x, d1 x = d1' x) → (∀ x, d2 x = d2' x) →
  callWorker d1' d2' order (counted c hs)
  = let* (c', addr) := callWorker d1 d2 order c in Ok (counted c' hs, addr).
Proof.
  intros E1 E2. unfold callWorker. rewrite (probe_ext _ _ order [] E1).
  destruct (probe d1' order []) as [del addr]. rewrite <-E2. case_decide; [done|]. by destruct (d2 addr).
Qed.

Lemma windows_book c b hs : windows c hs → windows (set_worker_book c b) hs.
Proof. intros []. by split. Qed.

Lemma monitor_turn_counted stale c hs m : monitor_turn stale (counted c hs) m = monitor_turn stale c m.
Proof. by destruct m, stale. Qed.

Section job.
Context (can_open : string → bool).
Context (mapf : string → string → list KeyValue).
Context (reducef : string → list string → string).
Context (sort_by_key : list KeyValue → list KeyValue).
Context (inputs : list string) (n : Z) (fs0 : files_t).
Hypothesis job : job_ok can_open mapf inputs n fs0.
Implicit Types (s : overlapped) (a : cluster).

Abbreviation step := (careful_step can_open mapf reducef sort_by_key).
Abbreviation inv := (cluster_inv mapf reducef sort_by_key inputs n fs0).
Abbreviation next := (cluster_next can_open mapf reducef sort_by_key).
Abbreviation onext := (overlapped_next can_open mapf reducef sort_by_key).

Lemma sim_wf s a : sim s a → inv a → wf (counted (coord (base s)) (handlers s)).
Proof. intros Hs [Hc _]. rewrite <-(sm_coord _ _ Hs). apply Hc. Qed.

Lemma careful_once a a' e :
  match e with EPartial _ _ => False | _ => True end → next a e = Some a' → rtc step a a'.
Proof. intros He Hn. apply rtc_once. exists e. split; [by destruct e|done]. Qed.

Lemma section_sim s a j o h c' h' new :
  sim s a → inv a → handlers s !! j = Some (o, h) → race_free (coord (base s)) (handlers s) h →
  tstep (coord (base s)) h = Some (Ok (c', h', new)) →
  ∃ a', rtc step a a' ∧
    sim (mkOverlapped (set_coord (base s) c' (monitors (base s) ++ new)) (<[j := (o, h')]> (handlers s))) a'.
Proof.
  intros Hs Hi Hj Hrf Ht. pose proof (sim_wf s a Hs Hi) as Hwf. destruct Hs.
  pose proof (windows_section _ _ _ _ _ _ _ _ sm_windows0 Hwf Hj Hrf Ht) as Hw.
  destruct (section_effect _ _ _ _ _ _ _ _ sm_windows0 Hwf Hj Ht)
    as [-> Hc Ha Ec|x -> -> -> Ec|k r r' Hk Hk' Ha Hsv -> Hac].
  - exists a. split; [done|]. rewrite app_nil_r. split; cbn; try done.
    + by rewrite Ec.
    + rewrite (orphan_calls_same _ _ _ h); [done..|]. unfold orphan_call. cbn. by rewrite Hc.
    + eapply th_stay; [done..|]. intros t p _. unfold seen. by rewrite Ha.
  - rewrite app_nil_r. destruct o as [t|].
    + exists a. split; [done|]. split; cbn; try done.
      * by rewrite Ec.
      * by rewrite (orphan_calls_same _ _ _ (GR0 x)).
      * eapply th_stay; [done..|]. by intros t' p [-> _].
    + destruct (orphan_calls_old _ _ _ (GRret {| rr_Reducetask_id := -1; rr_Reducefiles := [] |} None)
        _ _ sm_late0 Hj eq_refl eq_refl) as (i & Hli & Hlt).
      exists (set_late a (delete i (late a))). split.
      { apply (careful_once _ _ (ELose i)); [done|]. cbn. by rewrite Hli. }
      split; cbn; try done; [by rewrite Ec|by eapply th_orphan].
  - rewrite <-sm_coord0 in Hsv. destruct o as [t|].
    + destruct (th_call _ _ _ sm_threads0 t h) as (p & Hp & Hask & Hpa); [apply list_elem_of_lookup; eauto|].
      assert (answer_of h = None) as Hn by by destruct h.
      unfold seen in Hpa. rewrite Hn in Hpa.
      eexists. split.
      { apply (careful_once _ _ (ECall t)); [done|]. cbn. rewrite Hpa. destruct Hask as [_ Hrc].
        rewrite (Hrc k Hk). unfold call_coordinator. by rewrite sm_up_a0, Hsv. }
      split; cbn; try done.
      * by rewrite sm_monitors0.
      * rewrite (orphan_calls_same _ _ _ h); done.
      * pose proof (th_move _ _ _ _ _ _ h' p sm_threads0 Hj Hp (asks_next _ _ _ _ _ _ _ Ht Hask)) as Hth.
        unfold seen in Hth. by rewrite Ha, (Hac t p Hask) in Hth.
    + destruct (orphan_calls_old _ _ _ h' _ _ sm_late0 Hj Hk Hk') as (i & Hli & Hlt).
      eexists. split.
      { apply (careful_once _ _ (ELate i)); [done|]. cbn. rewrite Hli. cbn. unfold call_coordinator. cbn.
        by rewrite sm_up_a0, Hsv. }
      split; cbn; try done; [by rewrite sm_monitors0|by eapply th_orphan].
Qed.

Lemma send_sim s a t p k :
  sim s a → threads (base s) !! t = Some p → remote_call t.1 p = Some k → waiting (handlers s) t = false →
  sim (mkOverlapped (base s) (handlers s ++ [(Some t, entry k)])) a.
Proof.
  intros [] Hp Hk Hw%waiting_elem. split; cbn; try done.
  - by rewrite counted_send.
  - unfold orphan_calls. by rewrite omap_snoc_none.
  - by eapply th_send.
  - by apply windows_send.
Qed.

Lemma return_sim s a j o h r :
  sim s a → handlers s !! j = Some (o, h) → response_of h = Some r →
  sim (mkOverlapped (resume (base s) o (Some r)) (delete j (handlers s))) a.
Proof.
  intros [] Hj Hr. destruct (response_quiet o h r (coord (base s)) Hr) as (Hpm & Hpr & Horph & Hseen).
  assert (counted (coord (base s)) (delete j (handlers s)) = counted (coord (base s)) (handlers s)) as Ec.
  { unfold counted. by rewrite !(omap_delete_none _ (handlers s) j _ Hj) by done. }
  assert (orphan_calls (delete j (handlers s)) ≡ₚ orphan_calls (handlers s)) as El by by eapply omap_delete_none.
  destruct o as [t|]; cbn.
  - destruct (th_call _ _ _ sm_threads0 t h) as (p & Hp & Ha & _); [apply list_elem_of_lookup; eauto|].
    rewrite Hp. split; cbn; try done; [by rewrite Ec|by rewrite El| |by eapply windows_delete].
    eapply th_return; [done..|]. by apply Hseen.
  - split; cbn; try done; [by rewrite Ec|by rewrite El| |by eapply windows_delete]. by eapply th_return_orphan.
Qed.

Lemma sim_owner_alive s a t h :
  sim s a → (Some t, h) ∈ handlers s → is_Some (threads (base s) !! t).
Proof. intros Hs Hin. destruct (th_call _ _ _ (sm_threads _ _ Hs) t h Hin) as (p & -> & _). eauto. Qed.

Lemma sim_dial s a addr : sim s a → dial a addr = dial (base s) addr.
Proof.
  intros Hs. apply eq_bool_prop_intro. rewrite !Is_true_true, !dial_spec.
  by setoid_rewrite (th_live _ _ _ _ (sm_threads _ _ Hs)).
Qed.

Lemma sim_busy s a k : sim s a → busy (base s) k = false → busy a k = false.
Proof.
  intros Hs Hb. destruct (busy a k) eqn:E; [|done]. apply busy_thread in E as (pid & p & Hp).
  destruct (th_redo _ _ _ (pid, Some k) (sm_threads _ _ Hs)) as [q Hq]; [by rewrite Hp|].
  by rewrite not_busy in Hq.
Qed.

Lemma settled_map_back s a i :
  sim s a → map_settled (coord a) (threads a) (late a) i →
  map_settled (coord (with_late s)) (threads (with_late s)) (late (with_late s)) i.
Proof.
  intros Hs [Hf|[(t & x & Ht & Hx)|(x & Hin & Hx)]].
  - left. by rewrite (sm_coord _ _ Hs) in Hf.
  - right. left. exists t, x. split; [|done]. destruct (sm_threads _ _ Hs) as [_ Hidle Hcall].
    destruct (decide (t ∈ omap fst (handlers s))) as [[h Hin]%owner_elem|Hn]; [|by rewrite <-Hidle].
    destruct (Hcall t h Hin) as (p & Hp & Ha & E). rewrite E in Ht. unfold seen in Ht.
    destruct (answer_of h) as [r|] eqn:Hr; [|by rewrite Ht in Hp].
    apply (after_call_tell _ _ _ _ _ Ha) in Ht as [Hn _]. by destruct (Hn x).
  - right. right. exists x. split; [|done]. cbn. by rewrite <-(sm_late _ _ Hs).
Qed.

Lemma settled_reduce_back s a i :
  sim s a → reduce_settled (coord a) (threads a) (late a) i →
  reduce_settled (coord (with_late s)) (threads (with_late s)) (late (with_late s)) i.
Proof.
  intros Hs [Hf|[(t & x & Ht & Hx)|(x & Hin & Hx)]].
  - left. by rewrite (sm_coord _ _ Hs) in Hf.
  - right. left. exists t, x. split; [|done]. destruct (sm_threads _ _ Hs) as [_ Hidle Hcall].
    destruct (decide (t ∈ omap fst (handlers s))) as [[h Hin]%owner_elem|Hn]; [|by rewrite <-Hidle].
    destruct (Hcall t h Hin) as (p & Hp & Ha & E). rewrite E in Ht. unfold seen in Ht.
    destruct (answer_of h) as [r|] eqn:Hr; [|by rewrite Ht in Hp].
    apply (after_call_tell _ _ _ _ _ Ha) in Ht as [_ Hn]. by destruct (Hn x).
  - right. right. exists x. split; [|done]. cbn. by rewrite <-(sm_late _ _ Hs).
Qed.

(** A step that leaves the threads that wait alone. *)
Lemma sim_local s a b' a' :
  sim s a → coord_status b' = Up → coord_status a' = Up →
  coord a' = counted (coord b') (handlers s) → monitors a' = monitors b' → files a' = files b' →
  late a' = late a → threads_sim (handlers s) (threads b') (threads a') →
  windows (coord b') (handlers s) → sim (after_local b' (handlers s)) a'.
Proof.
  intros [] Hup Hup' Hc Hm Hf Hl Hth Hw. unfold after_local. rewrite orphan_id.
  - split; cbn; try done. by rewrite Hl.
  - intros t h Hin. destruct (th_call _ _ _ Hth t h Hin) as (p & -> & _). eauto.
Qed.

Lemma join_sim s a pid :
  sim s a → threads (base s) !! (pid, None) = None →
  threads a !! (pid, None) = None ∧
  sim (after_local (set_thread (base s) (pid, None) (Some Registering)) (handlers s))
    (set_thread a (pid, None) (Some Registering)).
Proof.
  intros Hs Hp. pose proof (sm_threads _ _ Hs) as Hth.
  assert ((pid, None) ∉ omap fst (handlers s)) as Hn.
  { intros [h Hin]%owner_elem. destruct (sim_owner_alive s a _ h Hs Hin) as [q Hq]. congruence. }
  split; [by rewrite (th_idle _ _ _ Hth)|].
  apply (sim_local s a); cbn; try done; try apply Hs. by apply th_set.
Qed.

Lemma die_sim s a pid :
  sim s a → ∃ a', rtc step a a' ∧ sim (after_local (kill (base s) pid []) (handlers s)) a'.
Proof.
  intros Hs. pose proof (sm_threads _ _ Hs) as Hth. set (sent := omap (unserved pid) (handlers s)).
  exists (kill a pid sent). split.
  { apply (careful_once _ _ (EDie pid sent)); [done|]. cbn.
    by rewrite decide_True by apply unserved_NoDup, Hth. }
  destruct Hs. split; cbn; try done.
  - by rewrite counted_orphan.
  - fold (sent_calls (threads a) pid sent). rewrite sm_late0. symmetry. by apply kill_late.
  - by apply th_kill.
  - by apply windows_orphan.
Qed.

Lemma wake_sim s a k order lost stale b' :
  sim s a → inv a → wake (base s) k order lost stale = Some b' → coord_status b' = Up →
  ∃ a', wake a k order lost stale = Some a' ∧ sim (after_local b' (handlers s)) a'.
Proof.
  intros Hs [Hinv _] Hw Hup. pose proof (sm_threads _ _ Hs) as Hth. pose proof (sm_coord _ _ Hs) as Ec.
  unfold wake in *. rewrite (sm_up _ _ Hs) in Hw. rewrite (sm_up_a _ _ Hs), (sm_monitors _ _ Hs).
  destruct (monitors (base s) !! k) as [m|] eqn:Hk; [|done].
  destruct (busy (base s) k) eqn:Hb; [done|]. rewrite (sim_busy s a k Hs Hb).
  assert (worker_book (coord a) = worker_book (coord (base s))) as -> by by rewrite Ec.
  destruct (map_order _ order) eqn:Hord; [|done]. cbn [orb negb] in *.
  rewrite Ec, monitor_turn_counted. destruct (monitor_turn _ _ m) as [[[p|]|f]|]; [| |by simplify_eq|done].
  2: { injection Hw as <-. eexists. split; [done|]. by apply (sim_local s a); cbn; try done; apply Hs. }
  rewrite (callWorker_counted (dial (base s)) (dial a) (if lost then λ _, false else dial (base s))).
  2: { intros x. by rewrite (sim_dial s a). }
  2: { intros x. destruct lost; [done|]. by rewrite (sim_dial s a). }
  destruct (callWorker _ _ order (coord (base s))) as [[c addr]|f] eqn:Hcw; [|by simplify_eq]. cbn.
  destruct (callWorker_spec _ _ _ _ _ _ Hord Hcw) as ((pid & Hpid & Hdial & _) & _).
  pose proof (callWorker_book _ _ _ _ _ _ Hcw) as [bk ->].
  assert (addr = workerSocket pid) as ->.
  { apply (ci_book _ _ _ _ _ _ Hinv). by rewrite Ec. }
  apply dial_spec in Hdial as (pid' & <-%workerSocket_inj & Hlive).
  rewrite (listener_spec _ pid Hlive) in Hw. injection Hw as <-.
  rewrite (listener_spec a pid) by by apply (th_live _ _ _ _ Hth). eexists. split; [done|].
  apply (sim_local s a); cbn; try done; try apply Hs.
  - apply th_set; [done|]. intros [h Hin]%owner_elem. destruct (sim_owner_alive s a _ h Hs Hin) as [q Hq].
    by rewrite not_busy in Hq.
  - apply windows_book, Hs.
Qed.

Lemma run_sim s a t p fs p' :
  sim s a → threads (base s) !! t = Some p → remote_call t.1 p = None →
  sim (after_local (set_thread (set_files (base s) fs) t (Some p')) (handlers s))
    (set_thread (set_files a fs) t (Some p')).
Proof.
  intros Hs Ht Hk. destruct (th_running _ _ _ _ _ (sm_threads _ _ Hs) Ht Hk) as [Hn _].
  apply (sim_local s a); cbn; try done; try apply Hs. apply th_set; [apply Hs|done].
Qed.

Lemma partial_sim s a fs : sim s a → sim (after_local (set_files (base s) fs) (handlers s)) (set_files a fs).
Proof. intros Hs. by apply (sim_local s a); cbn; try done; apply Hs. Qed.

Lemma local_sim s a e b' :
  sim s a → inv a → careful (with_late s) e → is_local e = true → next (base s) e = Some b' →
  coord_status b' = Up → ∃ a', rtc step a a' ∧ sim (after_local b' (handlers s)) a'.
Proof using job.
  intros Hs Hi Hcare Hl Hn Hup. pose proof (sm_threads _ _ Hs) as Hth.
  destruct e as [pid|pid sent|t|j|j|t|t m|k order lost stale|]; try done; cbn in Hn.
  - destruct (threads (base s) !! (pid, None)) eqn:Hp; [done|]. injection Hn as <-.
    destruct (join_sim s a pid Hs Hp) as [Hpa Hsim]. eexists. split; [|done].
    apply (careful_once _ _ (EJoin pid)); [done|]. cbn. by rewrite Hpa.
  - destruct sent; [|done]. case_decide; [|done]. injection Hn as <-. by apply die_sim.
  - destruct (threads (base s) !! t) as [p|] eqn:Ht; [|done]. cbn [mbind option_bind] in Hn.
    assert (match p with RunMap _ | RunReduce _ => True | _ => False end) as Hp by by destruct p.
    assert (remote_call t.1 p = None) as Hk by by destruct p.
    destruct (th_running _ _ _ _ _ Hth Ht Hk) as [_ Hta].
    destruct (exec_inv _ _ _ _ _ _ _ job a t p Hi Hta Hp) as (fs & p' & E & _).
    rewrite <-(sm_files _ _ Hs), E in Hn. injection Hn as <-.
    eexists. split; [|by eapply run_sim]. apply (careful_once _ _ (ERun t)); [done|].
    cbn. rewrite Hta. cbn. by rewrite E.
  - destruct (threads (base s) !! t) as [p|] eqn:Ht; [|done]. cbn [mbind option_bind] in Hn.
    assert (match p with RunMap _ | RunReduce _ => True | _ => False end) as Hp by by destruct p.
    assert (remote_call t.1 p = None) as Hk by by destruct p.
    destruct (th_running _ _ _ _ _ Hth Ht Hk) as [_ Hta]. rewrite <-(sm_files _ _ Hs) in Hn.
    destruct (exec_partial _ _ _ _ p m (files a)) as [out|] eqn:E; [|done].
    destruct (partial_inv _ _ _ _ _ _ _ job a t m p out Hi Hta E) as (fs & -> & _). injection Hn as <-.
    eexists. split; [|by apply partial_sim]. apply rtc_once. exists (EPartial t m). split.
    + cbn in Hcare |- *. rewrite Hta. rewrite Ht in Hcare. destruct p; try done; contradict Hcare.
      * by apply (settled_map_back s a).
      * by apply (settled_reduce_back s a).
    + cbn. rewrite Hta. cbn. by rewrite E.
  - destruct (wake_sim s a k order lost stale b' Hs Hi Hn Hup) as (a' & Hw & Hsim). exists a'. split; [|done].
    by apply (careful_once _ _ (EWake k order lost stale)).
  - rewrite (sm_up _ _ Hs) in Hn. destruct (Done _); [|done]. by injection Hn as <-.
Qed.

(** A step that is orderly: no race, and no stop in the middle of a settled task. *)
Definition ostep s s' : Prop := ∃ e, orderly s e ∧ onext s e = Some s'.

(** One step of the machine with overlapping handlers is none or some of the other. *)
Lemma step_sim s a s' :
  sim s a → inv a → ostep s s' → coord_status (base s') = Up → ∃ a', rtc step a a' ∧ sim s' a'.
Proof using job.
  intros Hs Hi (e & Ho & Hn) Hup. pose proof (sm_up _ _ Hs) as Hup0. destruct e as [e|t|j|j|j]; cbn in Hn.
  - destruct (is_local e) eqn:Hl; [|done]. destruct (next (base s) e) as [b'|] eqn:Hb; [|done].
    injection Hn as <-. by eapply local_sim.
  - destruct (threads (base s) !! t) as [p|] eqn:Ht; [|done]. cbn [mbind option_bind] in Hn.
    destruct (remote_call t.1 p) as [k|] eqn:Hk; [|done]. destruct (waiting _ t) eqn:Hw; [done|].
    rewrite Hup0 in Hn. injection Hn as <-. exists a. split; [done|]. by eapply send_sim.
  - rewrite Hup0 in Hn. destruct (handlers s !! j) as [[o h]|] eqn:Hj; [|done].
    destruct (tstep _ h) as [[[[c' h'] new]|f]|] eqn:Ht; [|by simplify_eq|done].
    injection Hn as <-. eapply section_sim; try done. by apply (Ho o).
  - rewrite Hup0 in Hn. destruct (handlers s !! j) as [[o h]|] eqn:Hj; [|done].
    destruct (response_of h) as [r|] eqn:Hr; [|done]. injection Hn as <-. exists a. split; [done|].
    by eapply return_sim.
  - by rewrite Hup0 in Hn.
Qed.

(** A coordinator that is gone does not come back. *)
Lemma next_up b e b' :
  is_local e = true → next b e = Some b' → coord_status b' = Up → coord_status b = Up.
Proof.
  intros Hl Hn Hup. destruct e as [pid|pid sent|t|j|j|t|t m|k order lost stale|]; try done; cbn in Hn.
  - destruct (threads b !! _); [done|]. by injection Hn as <-.
  - case_decide; [|done]. by injection Hn as <-.
  - destruct (_ ≫= _) as [[[fs p]|f]|]; [..|done]; by injection Hn as <-.
  - destruct (_ ≫= _) as [[fs|f]|]; [..|done]; by injection Hn as <-.
  - unfold wake in Hn. by destruct (coord_status b).
  - by destruct (coord_status b).
Qed.

Lemma resume_status b o r : coord_status (resume b o r) = coord_status b.
Proof. destruct o as [t|]; [|done]. cbn. by destruct (threads b !! t). Qed.

Lemma step_up s s' : ostep s s' → coord_status (base s') = Up → coord_status (base s) = Up.
Proof.
  intros (e & _ & Hn) Hup. destruct e as [e|t|j|j|j]; cbn in Hn.
  - destruct (is_local e) eqn:Hl; [|done]. destruct (next (base s) e) as [b'|] eqn:Hb; [|done].
    injection Hn as <-. by eapply next_up.
  - destruct (_ ≫= _); [|done]. destruct (waiting _ _); [done|].
    destruct (coord_status (base s)) eqn:Hst; [done|..]; injection Hn as <-; cbn in Hup; congruence.
  - by destruct (coord_status (base s)).
  - by destruct (coord_status (base s)).
  - destruct (coord_status (base s)) eqn:Hst; [done|..]; (destruct (handlers s !! j) as [[o h]|]; [|done]);
      injection Hn as <-; cbn in Hup; rewrite resume_status in Hup; congruence.
Qed.

(** A state of the system in a run all of whose steps are [orderly]. *)
Definition orderly_reached s : Prop := ∃ s0, overlapped_start inputs n fs0 = Ok s0 ∧ rtc ostep s0 s.

Lemma start_sim s : overlapped_start inputs n fs0 = Ok s → start inputs n fs0 = Ok (base s) ∧ sim s (base s).
Proof.
  unfold overlapped_start. destruct (start inputs n fs0) as [b|] eqn:Hb; [|done]. intros [= <-].
  split; [done|]. unfold start in Hb. destruct (MakeCoordinator inputs n) as [c|] eqn:Hc; [|done].
  injection Hb as <-. pose proof (wf_counter_reduce _ (MakeCoordinator_wf _ _ _ Hc)) as Hr.
  pose proof (wf_counter_map _ (MakeCoordinator_wf _ _ _ Hc)) as Hm.
  split; cbn; try done.
  - destruct c. unfold counted, set_done_map, set_done_reduce. cbn. by rewrite !Z.add_0_r.
  - split; cbn; [constructor|done|by intros t h ?%not_elem_of_nil].
  - split; cbn; try lia; [constructor..|]. by intros o h ?%not_elem_of_nil.
Qed.

(** Every run without a race, as long as the coordinator runs, is one of [MrSystem]. *)
Lemma oreached_sim s :
  orderly_reached s → coord_status (base s) = Up →
  ∃ a, carefully_reached can_open mapf reducef sort_by_key inputs n fs0 a ∧ inv a ∧ sim s a.
Proof using job.
  intros (s0 & H0 & Hrun). apply start_sim in H0 as [Hst Hsim]. intros Hup.
  assert (carefully_reached can_open mapf reducef sort_by_key inputs n fs0 (base s0)) as Hr by (exists (base s0); done).
  revert Hr Hsim Hup. clear Hst. generalize (base s0) at 1 2 as a. intros a Hr Hsim Hup.
  revert a Hr Hsim. induction Hrun as [s|s s1 s2 Hst Hrun IH]; intros a Hr Hsim.
  - exists a. split_and!; [done|by eapply reached_inv|done].
  - pose proof (reached_inv can_open mapf reducef sort_by_key inputs n fs0 job a Hr) as Hi.
    assert (coord_status (base s1) = Up) as Hup1.
    { clear -Hrun Hup. induction Hrun; [done|]. eapply step_up; [done|]. auto. }
    destruct (step_sim s a s1 Hsim Hi Hst Hup1) as (a1 & Hrun1 & Hsim1).
    destruct Hr as (a0 & Ha0 & Hra). apply (IH Hup a1); [|done]. exists a0. split; [done|]. by etrans.
Qed.

Lemma sim_done s a : sim s a → inv a → Done (coord (base s)) = true → Done (coord a) = true.
Proof.
  intros Hs Hi [Hm Hr]%andb_prop. apply bool_decide_eq_true in Hm, Hr.
  pose proof (sim_wf s a Hs Hi) as Hwf. pose proof (counted_map_le _ _ Hwf). pose proof (counted_reduce_le _ _ Hwf).
  rewrite (sm_coord _ _ Hs). unfold Done. cbn. apply andb_true_intro. split; apply bool_decide_eq_true; lia.
Qed.
End job.

(** ** A run: word count, with handlers that overlap *)

Section runs.
Context (can_open : string → bool).
Context (mapf : string → string → list KeyValue).
Context (reducef : string → list string → string).
Context (sort_by_key : list KeyValue → list KeyValue).

Definition orderly_next (s : overlapped) (e : oevent) : option overlapped :=
  if orderlyb s e then overlapped_next can_open mapf reducef sort_by_key s e else None.

Lemma orderly_run s es s' :
  run_labels orderly_next s es = Some s' → rtc (ostep can_open mapf reducef sort_by_key) s s'.
Proof.
  revert s. induction es as [|e es IH]; intros s; cbn [run_labels]; [by intros [= ->]|].
  unfold orderly_next at 1. destruct (orderlyb s e) eqn:Hc; [|done].
  destruct (overlapped_next _ _ _ _ s e) as [s1|] eqn:Hn; [|done]. intros H.
  apply rtc_l with s1; [|by apply IH]. exists e. split; [by apply orderlyb_sound|done].
Qed.
End runs.

Abbreviation wc_onext := (orderly_next (λ _, true) words_map count_reduce merge_by_key).

Definition wc_ostart : overlapped := mkOverlapped wc_start [].

(** Workers 1 and 2 make the same call, and the sections of the two handlers take turns. *)
Definition both (sections : nat) : list oevent :=
  [OSend (main 1); OSend (main 2)] ++
  mjoin (replicate sections [OSection 0; OSection 1]) ++ [OReturn 1; OReturn 0].

(** Both workers register, get a map task each, report it, find no other, and get a
reduce task each. *)
Definition wc_overlap_first : list oevent :=
  [OLocal (EJoin 1); OLocal (EJoin 2)] ++ both 1 ++ both 2 ++
  [OLocal (ERun (main 1)); OLocal (ERun (main 2))] ++ both 4 ++ both 1 ++ both 3.

(** Both report their tasks; worker 1 ends in the middle of its call, whose handler
goes on to its end. *)
Definition wc_overlap_half : list oevent :=
  wc_overlap_first ++
  [OLocal (ERun (main 1)); OLocal (ERun (main 2)); OSend (main 1); OSend (main 2);
   OSection 0; OSection 1; OSection 1; OLocal (EDie 1 [])].
Definition wc_overlap : list oevent :=
  wc_overlap_half ++ [OSection 0; OSection 0; OSection 1; OSection 1; OReturn 1; OSection 0].

Definition wc_obusy : overlapped := default wc_ostart (run_labels wc_onext wc_ostart wc_overlap_half).
Definition wc_oend : overlapped := default wc_ostart (run_labels wc_onext wc_ostart wc_overlap).

Lemma wc_orun es s :
  run_labels wc_onext wc_ostart es = Some s →
  orderly_reached (λ _, true) words_map count_reduce merge_by_key ["a.txt"; "b.txt"] 2 wc_files s.
Proof. intros H. exists wc_ostart. split; [vm_compute; reflexivity|by apply orderly_run with es]. Qed.


End MrOverlap.
