(* ===== verification/MrOverlapProgress.v ===== *)
(** * The system with overlapping handlers: progress, faults and races

Handlers that have started can always be run to their end without a race, after
which the machine is that of [MrSystem]; so what can be finished there can be
finished here.  The last part has the runs with races: what goes wrong when two
handlers pass the same test. *)

From S2P Require Import Prelude GoStrings Json MrCoordinator MrWorker MrJob MrSystem MrCorrect MrProgress MrOverlap.
From stdpp Require Import options.
Import Json Mr MrWorker MrJob MrSystem MrCorrect MrProgress MrOverlap.

Module MrOverlapProgress.

Implicit Types (hs : list handler) (s : overlapped) (a b : cluster).

(** ** What is left of a handler *)

Definition sections_left (h : thread) : nat :=
  match h with
  | GMret _ _ | GRret _ _ | CMret _ | CRret _ | RWret => 1
  | GM1 _ | GR2 _ | CM3 _ | CR3 _ | RW0 _ => 2
  | GM0 _ | GR1 _ | CM2 _ | CR2 _ => 3
  | GR0 _ | CM1 _ | CR1 _ => 4
  | CM0 _ | CR0 _ => 5
  | MapMonitor _ | ReduceMonitor _ _ | Stopped => 0
  end.

Definition work hs : nat := sum_list_with (λ h, sections_left h.2) hs.

Lemma work_split hs j x : hs !! j = Some x → work hs = sections_left x.2 + work (delete j hs).
Proof. intros Hj. unfold work. by rewrite (delete_Permutation hs j x Hj) at 1. Qed.

Lemma work_insert hs j x y :
  hs !! j = Some x → work (<[j := y]> hs) + sections_left x.2 = work hs + sections_left y.2.
Proof.
  intros Hj. rewrite (work_split hs j x Hj). rewrite (work_split (<[j := y]> hs) j y).
  - rewrite delete_insert_list. lia.
  - apply list_lookup_insert_eq. by eapply lookup_lt_Some.
Qed.

Lemma tstep_work c h c' h' new :
  tstep c h = Some (Ok (c', h', new)) → sections_left h' < sections_left h.
Proof.
  destruct h; cbn; try done; intros H; injection H as H; go_cases; cbn; try lia;
    match goal with x : bool |- _ => destruct x end; cbn; lia.
Qed.

(** The tests that can race. *)
Definition is_test (h : thread) : bool := match h with GM0 _ | GR1 _ | CM0 _ | CR0 _ => true | _ => false end.

Lemma not_test_free c hs h : is_test h = false → race_free c hs h.
Proof. by destruct h. Qed.

(** When every handler is before a test, none is after it. *)
Lemma all_tests_free c hs h : Forall (λ x, is_test x.2 = true) hs → race_free c hs h.
Proof.
  intros Hall.
  assert (∀ (B : Type) (f : handler → option B), (∀ o h, is_test h = true → f (o, h) = None) → omap f hs = []) as Hn.
  { intros B f Hf. induction Hall as [|[o x] hs Hx _ IH]; [done|]. cbn. rewrite Hf by done. apply IH. }
  destruct h; cbn; try done.
  - rewrite Hn by by intros ? []. cbn. lia.
  - rewrite Hn by by intros ? []. cbn. lia.
  - rewrite Hn by by intros ? []. set_solver.
  - rewrite Hn by by intros ? []. set_solver.
Qed.

Lemma free_handler c hs :
  hs ≠ [] → ∃ j o h, hs !! j = Some (o, h) ∧ race_free c hs h.
Proof.
  intros Hne. destruct (decide (Forall (λ x : handler, is_test x.2 = true) hs)) as [Hall|Hn].
  - destruct hs as [|[o h] hs]; [done|]. exists 0, o, h. split; [done|]. by apply all_tests_free.
  - apply not_Forall_Exists in Hn; [|apply _]. apply Exists_exists in Hn as ([o h] & [j Hj]%list_elem_of_lookup & Ht).
    exists j, o, h. split; [done|]. apply not_test_free. by apply not_true_is_false.
Qed.

(** No handler runs: the two machines are in the same state. *)
Lemma sim_quiet b a : sim (mkOverlapped b []) a → a = b.
Proof.
  intros []. cbn in *. destruct a as [c st ms ts lt fs], b as [c' st' ms' ts' lt' fs']. cbn in *. subst.
  f_equal.
  - destruct c'. unfold counted, set_done_map, set_done_reduce. cbn. by rewrite !Z.add_0_r.
  - apply map_eq. intros t. apply (th_idle _ _ _ sm_threads0). set_solver.
  - by apply Permutation_nil_r.
Qed.

Section job.
Context (can_open : string → bool).
Context (mapf : string → string → list KeyValue).
Context (reducef : string → list string → string).
Context (sort_by_key : list KeyValue → list KeyValue).
Context (inputs : list string) (n : Z) (fs0 : files_t).
Hypothesis job : job_ok can_open mapf inputs n fs0.

Abbreviation step := (careful_step can_open mapf reducef sort_by_key).
Abbreviation inv := (cluster_inv mapf reducef sort_by_key inputs n fs0).
Abbreviation next := (cluster_next can_open mapf reducef sort_by_key).
Abbreviation onext := (overlapped_next can_open mapf reducef sort_by_key).

(** ** Sections do not fail *)

(** The call of a handler that has had no effect is one a thread makes. *)
Lemma handler_fine s a o h k :
  sim s a → inv a → (o, h) ∈ handlers s → call_of h = Some k → call_fine inputs n (coord a) k.
Proof.
  intros Hs [Hc _] Hin Hk. destruct o as [t|].
  - destruct (th_call _ _ _ (sm_threads _ _ Hs) t h Hin) as (p & _ & [_ Ha] & E). exists t.1, p.
    split; [by apply Ha|]. apply (ci_pc _ _ _ _ _ _ Hc t). rewrite E. unfold seen. by destruct h.
  - apply (ci_late _ _ _ _ _ _ Hc). rewrite (sm_late _ _ Hs). apply list_elem_of_omap. by exists (None, h).
Qed.

Lemma section_ok s a j o h out :
  sim s a → inv a → handlers s !! j = Some (o, h) → tstep (coord (base s)) h = Some out →
  ∃ c h' new, out = Ok (c, h', new).
Proof.
  intros Hs Hi Hj Ht. assert ((o, h) ∈ handlers s) as Hin by (apply list_elem_of_lookup; eauto).
  pose proof (handler_fine s a o h) as Hf. pose proof (sim_wf _ _ _ _ _ _ s a Hs Hi) as Hwf.
  pose proof (sm_windows _ _ Hs) as Hw. pose proof (w_knows _ _ Hw o h Hin) as Hk.
  pose proof (w_map _ _ Hw) as Hm. pose proof (wf_counter_map _ Hwf) as Hcm.
  pose proof (wf_map_len _ Hwf) as Hml. pose proof (wf_reduce_len _ Hwf) as Hrl.
  pose proof (wf_counter_reduce _ Hwf) as Hcr. cbn in Hcm, Hml, Hrl, Hcr.
  pose proof (omap_lookup_split in_give_map _ _ _ Hj) as Hs1%Permutation_length. rewrite length_app in Hs1.
  rewrite (sm_coord _ _ Hs) in Hf.
  destruct h; cbn in *; try done; injection Ht as <-; try (case_decide; by eauto); try by eauto.
  - destruct (index_in_range (filenames (coord (base s))) (counter_map (coord (base s)))) as [f E]; [lia|].
    unfold give_map_locked. rewrite E. cbn. eauto.
  - rewrite give_reduce_locked_Ok by lia. cbn. eauto.
  - destruct (Hf _ Hs Hi Hin eq_refl) as (pid & p & Hp & Hok).
    destruct p as [|[]| | | |]; cbn in Hp; simplify_eq. cbn in Hok.
    destruct (index_in_range (map_complete (coord (base s))) (ma_Maptask_id args)) as [b E]; [lia|].
    rewrite E. cbn. eauto.
  - rewrite set_index_in_range by by eapply index_ok_bounds. cbn. eauto.
  - destruct (Hf _ Hs Hi Hin eq_refl) as (pid & p & Hp & Hok).
    destruct p as [|[]| | | |]; cbn in Hp; simplify_eq. cbn in Hok.
    destruct (index_in_range (reduce_complete (coord (base s))) (ra_Reducetask_id args)) as [b E]; [lia|].
    rewrite E. cbn. eauto.
  - rewrite set_index_in_range by by eapply index_ok_bounds. cbn. eauto.
Qed.

(** ** Handlers run to their end *)

Definition ocalm (e : oevent) : Prop :=
  match e with OLocal e => calm e | OSend _ | OSection _ | OReturn _ => True | OFail _ => False end.
Definition ocalm_step s s' : Prop := ∃ e, ocalm e ∧ orderly s e ∧ onext s e = Some s'.

Lemma ocalm_ostep s s' : ocalm_step s s' → ostep can_open mapf reducef sort_by_key s s'.
Proof. intros (e & _ & ? & ?). by exists e. Qed.

(** A handler that is not over has a section to run, or a reply to send. *)
Lemma handler_moves s a j o h :
  sim s a → inv a → handlers s !! j = Some (o, h) →
  is_Some (response_of h) ∨ is_Some (tstep (coord (base s)) h).
Proof.
  intros Hs Hi Hj. assert (knows (coord (base s)) h) as Hk.
  { eapply (w_knows _ _ (sm_windows _ _ Hs)), list_elem_of_lookup. eauto. }
  destruct h; cbn in *; try done; by eauto.
Qed.

Lemma resume_live s o r w :
  is_Some (threads (base s) !! (w, None)) → is_Some (threads (resume (base s) o r) !! (w, None)).
Proof.
  intros Hl. destruct o as [t|]; [|done]. cbn. destruct (threads (base s) !! t) as [p|] eqn:Hp; [|done]. cbn.
  destruct (decide ((w, None) = t)) as [<-|Hne]; [|by rewrite lookup_partial_alter_ne].
  rewrite lookup_partial_alter_eq. apply after_main.
Qed.

Lemma flush_step s a w :
  sim s a → inv a → is_Some (threads (base s) !! (w, None)) → handlers s ≠ [] →
  ∃ s', ocalm_step s s' ∧ coord_status (base s') = Up ∧ is_Some (threads (base s') !! (w, None)) ∧
    work (handlers s') < work (handlers s).
Proof.
  intros Hs Hi Hl Hne. destruct (free_handler (coord (base s)) _ Hne) as (j & o & h & Hj & Hfree).
  pose proof (sm_up _ _ Hs) as Hup.
  destruct (handler_moves s a j o h Hs Hi Hj) as [[r Hr]|[out Ht]].
  - exists (mkOverlapped (resume (base s) o (Some r)) (delete j (handlers s))). split_and!.
    + exists (OReturn j). split_and!; [done..|]. cbn. by rewrite Hup, Hj, Hr.
    + cbn. by rewrite resume_status.
    + by apply resume_live.
    + cbn [handlers]. rewrite (work_split _ j _ Hj). cbn [snd].
      assert (0 < sections_left h) by (destruct h; cbn in *; done || lia). lia.
  - destruct (section_ok s a j o h out Hs Hi Hj Ht) as (c & h' & new & ->).
    exists (mkOverlapped (set_coord (base s) c (monitors (base s) ++ new)) (<[j := (o, h')]> (handlers s))).
    split_and!; [|done|done|].
    + exists (OSection j). split_and!; [done| |].
      * intros o' h1 Hj'. rewrite Hj in Hj'. by injection Hj' as <- <-.
      * cbn. by rewrite Hup, Hj, Ht.
    + cbn [handlers]. pose proof (work_insert _ j _ (o, h') Hj) as E.
      pose proof (tstep_work _ _ _ _ _ Ht). cbn [snd] in E. lia.
Qed.

Lemma flush s a w :
  sim s a → carefully_reached can_open mapf reducef sort_by_key inputs n fs0 a → is_Some (threads (base s) !! (w, None)) →
  ∃ b, rtc ocalm_step s (mkOverlapped b []) ∧
    carefully_reached can_open mapf reducef sort_by_key inputs n fs0 b ∧ coord_status b = Up ∧ late b = [] ∧
    is_Some (threads b !! (w, None)).
Proof using job.
  remember (work (handlers s)) as m eqn:Hm. revert s a Hm.
  induction m as [m IH] using lt_wf_ind. intros s a -> Hs Hr Hl.
  pose proof (reached_inv can_open mapf reducef sort_by_key inputs n fs0 job a Hr) as Hi.
  destruct (decide (handlers s = [])) as [E|Hne].
  - destruct s as [b hs]. cbn in E, Hl. subst hs. pose proof (sim_quiet b a Hs) as ->.
    exists b. split_and!; [done|done|apply Hs|apply Hs|done].
  - destruct (flush_step s a w Hs Hi Hl Hne) as (s1 & Hst & Hup & Hl1 & Hwork).
    destruct (step_sim can_open mapf reducef sort_by_key inputs n fs0 job s a s1 Hs Hi (ocalm_ostep _ _ Hst) Hup)
      as (a1 & Hra & Hs1).
    destruct (IH _ Hwork s1 a1 eq_refl Hs1) as (b & Hrun & ?); [|done|].
    + destruct Hr as (a0 & ? & ?). exists a0. split; [done|]. by etrans.
    + exists b. split; [by eapply rtc_l|done].
Qed.

(** ** A call on its own *)

(** The sections of one handler, with nothing else running. *)
Lemma sections_alone b t h c h' new :
  coord_status b = Up → tstep (coord b) h = Some (Ok (c, h', new)) →
  ocalm_step (mkOverlapped b [(Some t, h)])
    (mkOverlapped (set_coord b c (monitors b ++ new)) [(Some t, h')]).
Proof.
  intros Hup Ht. exists (OSection 0). split_and!; [done| |].
  - intros o h1 [= <- <-]. cbn. destruct (is_test h) eqn:E; [|by apply not_test_free].
    apply all_tests_free. by repeat constructor.
  - cbn. by rewrite Hup, Ht.
Qed.

Lemma section_quiet b t h c h' b' :
  coord_status b = Up → tstep (coord b) h = Some (Ok (c, h', [])) → b' = set_coord b c (monitors b) →
  ocalm_step (mkOverlapped b [(Some t, h)]) (mkOverlapped b' [(Some t, h')]).
Proof. intros Hup Ht ->. rewrite <-(app_nil_r (monitors b)). by apply sections_alone. Qed.

(** A section on its own that starts no monitor, as [tac] says. *)
Ltac quiet tac := eapply rtc_l; [eapply section_quiet; [done|cbn; tac|done]|].
Ltac last_quiet tac := eapply rtc_once, section_quiet; [done|cbn; tac|done].

Lemma map_report_alone cb ms ts lt fs t x c e :
  CheckLastMapDone cb x = Ok (c, e) →
  rtc ocalm_step (mkOverlapped (mkCluster cb Up ms ts lt fs) [(Some t, CM0 x)])
    (mkOverlapped (mkCluster c Up ms ts lt fs) [(Some t, CMret e)]).
Proof.
  intros Hc. unfold CheckLastMapDone in Hc.
  destruct (index (map_complete cb) (ma_Maptask_id x)) as [[]|] eqn:Hb; cbn in Hc; [..|done].
  - quiet ltac:(by rewrite Hb).
    eapply rtc_once, section_quiet; [done| |done]. cbn. by case_decide; simplify_eq.
  - destruct (set_index _ _ _) as [l|] eqn:Hl; [|done]. cbn in Hc.
    quiet ltac:(by rewrite Hb).
    quiet ltac:(by rewrite Hl).
    eapply rtc_l; [by eapply section_quiet|].
    eapply rtc_once, section_quiet; [done| |done]. cbn. by case_decide; simplify_eq.
Qed.

Lemma reduce_report_alone cb ms ts lt fs t x c e :
  CheckLastReduceDone cb x = Ok (c, e) →
  rtc ocalm_step (mkOverlapped (mkCluster cb Up ms ts lt fs) [(Some t, CR0 x)])
    (mkOverlapped (mkCluster c Up ms ts lt fs) [(Some t, CRret e)]).
Proof.
  intros Hc. unfold CheckLastReduceDone in Hc.
  destruct (index (reduce_complete cb) (ra_Reducetask_id x)) as [[]|] eqn:Hb; cbn in Hc; [..|done].
  - quiet ltac:(by rewrite Hb).
    eapply rtc_once, section_quiet; [done| |done]. cbn. by case_decide; simplify_eq.
  - destruct (set_index _ _ _) as [l|] eqn:Hl; [|done]. cbn in Hc.
    quiet ltac:(by rewrite Hb).
    quiet ltac:(by rewrite Hl).
    eapply rtc_l; [by eapply section_quiet|].
    eapply rtc_once, section_quiet; [done| |done]. cbn. by case_decide; simplify_eq.
Qed.

Lemma alone_run b t k c r :
  coord_status b = Up → (0 ≤ counter_map (coord b))%Z → (0 ≤ counter_reduce (coord b))%Z →
  serve (coord b) k = Ok (c, r) →
  ∃ h, rtc ocalm_step (mkOverlapped b [(Some t, entry k)])
      (mkOverlapped (set_coord b c (monitors b ++ spawned r)) [(Some t, h)]) ∧ response_of h = Some r.
Proof.
  intros Hup Hcm Hcr Hs. destruct b as [cb st ms ts lt fs]. cbn in Hup. subst st.
  destruct k as [x|x|x|x|x]; cbn in *.
  - unfold GiveMapTask in Hs. case_decide as Hd.
    + cbn in Hs. injection Hs as <- <-. eexists (GMret _ (Some EOF)). split; [|done]. cbn. rewrite app_nil_r.
      last_quiet ltac:(by rewrite decide_True).
    + destruct (give_map_locked cb) as [[c1 r1]|] eqn:Hg; [|done]. cbn in Hs. injection Hs as <- <-.
      exists (GMret r1 None). split; [|done].
      quiet ltac:(by rewrite decide_False).
      apply rtc_once, sections_alone; [done|]. cbn. by rewrite Hg.
  - unfold GiveReduceTask in Hs. case_decide as Hd.
    + case_decide as Hd'.
      * cbn in Hs. injection Hs as <- <-. eexists (GRret _ (Some EOF)). split; [|done]. cbn. rewrite app_nil_r.
        quiet ltac:(by rewrite decide_True).
        last_quiet ltac:(by rewrite decide_True).
      * rewrite give_reduce_locked_Ok in Hs by done. cbn in Hs. injection Hs as <- <-.
        eexists (GRret _ None). split; [|done].
        quiet ltac:(by rewrite decide_True).
        quiet ltac:(by rewrite decide_False).
        cbn. rewrite decide_False by lia.
        apply rtc_once, sections_alone; [done|]. cbn. by rewrite give_reduce_locked_Ok.
    + cbn in Hs. injection Hs as <- <-. eexists (GRret _ None). split; [|done]. cbn. rewrite app_nil_r.
      last_quiet ltac:(by rewrite decide_False).
  - destruct (CheckLastMapDone cb x) as [[c1 e]|] eqn:Hc; [|done]. cbn in Hs. injection Hs as <- <-.
    exists (CMret e). split; [|done]. cbn. rewrite app_nil_r. by apply map_report_alone.
  - destruct (CheckLastReduceDone cb x) as [[c1 e]|] eqn:Hc; [|done]. cbn in Hs. injection Hs as <- <-.
    exists (CRret e). split; [|done]. cbn. rewrite app_nil_r. by apply reduce_report_alone.
  - injection Hs as <- <-. eexists RWret. split; [|done]. cbn. rewrite app_nil_r.
    by eapply rtc_once, section_quiet.
Qed.

Lemma call_alone b t p k c r :
  coord_status b = Up → inv b → threads b !! t = Some p → remote_call t.1 p = Some k →
  serve (coord b) k = Ok (c, r) →
  rtc ocalm_step (mkOverlapped b [])
    (mkOverlapped (set_thread (set_coord b c (monitors b ++ spawned r)) t (after_call t p (Some r))) []).
Proof.
  intros Hup [Hc _] Hp Hk Hs. destruct (ci_wf _ _ _ _ _ _ Hc).
  destruct (alone_run b t k c r Hup) as (h & Hrun & Hr); [lia|lia|done|].
  eapply rtc_l; [|eapply rtc_r; [exact Hrun|]].
  - exists (OSend t). split_and!; [done..|]. cbn. rewrite Hp. cbn. by rewrite Hk, Hup.
  - exists (OReturn 0). split_and!; [done..|]. cbn. rewrite Hup, Hr. cbn. by rewrite Hp.
Qed.

(** A calm step of [MrSystem]. *)
Lemma calm_step_overlapped b b' :
  inv b → late b = [] → coord_status b = Up → coord_status b' = Up →
  calm_step can_open mapf reducef sort_by_key b b' →
  rtc ocalm_step (mkOverlapped b []) (mkOverlapped b' []) ∧ late b' = [].
Proof using job.
  intros Hi Hl Hup Hup' (e & He & Hn).
  assert (is_local e = true → late b' = [] → rtc ocalm_step (mkOverlapped b []) (mkOverlapped b' []) ∧ late b' = []) as Hloc.
  { intros Hle Hl'. split; [|done]. apply rtc_once. exists (OLocal e). split_and!; [done|by destruct e|].
    cbn. rewrite Hle, Hn. cbn. unfold after_local. cbn. destruct b'. cbn in *. by subst. }
  destruct e as [pid|pid sent|t|j|j|t|t m|k order lost stale|]; try done; cbn in Hn.
  - destruct (threads b !! t) as [p|] eqn:Hp; [|done]. destruct (remote_call t.1 p) as [k|] eqn:Hk; [|done].
    destruct (call_inv _ _ _ _ _ _ b t p k Hi Hp Hk Hup) as (c & r & Hs & _ & E & _). rewrite E in Hn.
    injection Hn as <-. split; [by eapply call_alone|done].
  - apply Hloc; [done|]. destruct (_ ≫= _) as [[[fs p]|f]|]; [..|done]; injection Hn as <-; cbn; by rewrite Hl.
  - apply Hloc; [done|]. unfold wake in Hn. rewrite Hup in Hn. destruct (monitors b !! k); [|done].
    destruct (_ || _); [done|]. destruct (monitor_turn _ _ _) as [[[p|]|f]|]; try done; try by injection Hn as <-.
    destruct (callWorker _ _ _ _) as [[c addr]|f]; [|by injection Hn as <-].
    destruct (listener b addr); [|done]. by injection Hn as <-.
Qed.
Lemma calm_up b b' :
  calm_step can_open mapf reducef sort_by_key b b' → coord_status b' = Up → coord_status b = Up.
Proof.
  intros (e & He & Hn) Hup. destruct (is_local e) eqn:Hl; [by eapply next_up|]. destruct e; try done. cbn in Hn.
  destruct (coord_status b) eqn:Hst; [done|..]; (destruct (threads b !! _); [|done]);
    (destruct (remote_call _ _); [|done]); unfold call_coordinator in Hn; rewrite Hst in Hn;
    injection Hn as <-; cbn in Hup; congruence.
Qed.

Lemma calm_run_overlapped b b' :
  rtc (calm_step can_open mapf reducef sort_by_key) b b' → inv b → late b = [] → coord_status b' = Up →
  rtc ocalm_step (mkOverlapped b []) (mkOverlapped b' []).
Proof using job.
  induction 1 as [b|b b1 b2 Hst Hrun IH]; [done|]. intros Hi Hl Hup.
  assert (coord_status b1 = Up) as Hup1 by (clear -Hrun Hup; induction Hrun; eauto using calm_up).
  destruct (calm_step_overlapped b b1 Hi Hl (calm_up _ _ Hst Hup1) Hup1 Hst) as [Hr Hl1].
  etrans; [exact Hr|]. apply IH; [|done|done]. eapply careful_step_inv; [done|done|]. by apply calm_step_step.
Qed.

(** ** Faults *)

Lemma wake_dead s a k order lost stale b' :
  sim s a → inv a → next (base s) (EWake k order lost stale) = Some b' → dead_ok (coord_status b').
Proof.
  intros Hs Hi Hn. cbn in Hn. unfold wake in Hn. rewrite (sm_up _ _ Hs) in Hn.
  destruct (monitors (base s) !! k) as [m|] eqn:Hk; [|done]. destruct (_ || _); [done|].
  assert (m ≠ Stopped) as Hns by by intros ->.
  destruct (monitor_turn_spec inputs n stale _ _ _ _ m (proj1 Hi)) as [[Ht _]|(p & Ht & _)].
  { rewrite (sm_monitors _ _ Hs). apply list_elem_of_lookup. eauto. }
  { done. }
  all: rewrite (sm_coord _ _ Hs), monitor_turn_counted in Ht; rewrite Ht in Hn.
  - injection Hn as <-. cbn. by rewrite (sm_up _ _ Hs).
  - destruct (callWorker _ _ order _) as [[c addr]|f] eqn:Hcw.
    + destruct (listener _ addr); [|done]. injection Hn as <-. cbn. by rewrite (sm_up _ _ Hs).
    + injection Hn as <-. by eapply callWorker_fault.
Qed.

Lemma ostep_dead s s' :
  (coord_status (base s) = Up → ∃ a, sim s a ∧ inv a) → ostep can_open mapf reducef sort_by_key s s' →
  dead_ok (coord_status (base s)) → dead_ok (coord_status (base s')).
Proof.
  intros Hsim (e & _ & Hn) Hok. destruct e as [e|t|j|j|j]; cbn in Hn.
  - destruct (is_local e) eqn:Hl; [|done]. destruct (next (base s) e) as [b'|] eqn:Hb; [|done].
    injection Hn as <-. cbn.
    destruct e as [pid|pid sent|t|j|j|t|t m|k order lost stale|]; try done; cbn in Hb.
    + destruct (threads _ !! _); [done|]. by injection Hb as <-.
    + case_decide; [|done]. by injection Hb as <-.
    + destruct (_ ≫= _) as [[[fs p]|f]|]; [..|done]; by injection Hb as <-.
    + destruct (_ ≫= _) as [[fs|f]|]; [..|done]; by injection Hb as <-.
    + destruct (coord_status (base s)) eqn:Hup; [|unfold wake in Hb; by rewrite Hup in Hb..].
      destruct (Hsim eq_refl) as (a & Hs & Hi). by eapply wake_dead.
    + destruct (coord_status (base s)); try done. destruct (Done _); [|done]. by injection Hb as <-.
  - destruct (_ ≫= _); [|done]. destruct (waiting _ _); [done|].
    destruct (coord_status (base s)) eqn:Hup; injection Hn as <-; cbn; by rewrite Hup.
  - destruct (coord_status (base s)) eqn:Hup; [|done..]. destruct (handlers s !! j) as [[o h]|] eqn:Hj; [|done].
    destruct (tstep _ h) as [out|] eqn:Ht; [|done]. destruct (Hsim eq_refl) as (a & Hs & Hi).
    destruct (section_ok s a j o h out Hs Hi Hj Ht) as (c & h' & new & ->). injection Hn as <-. cbn. by rewrite Hup.
  - destruct (coord_status (base s)) eqn:Hup; [|done..]. destruct (handlers s !! j) as [[o h]|]; [|done].
    destruct (response_of h); [|done]. injection Hn as <-. cbn. by rewrite resume_status, Hup.
  - destruct (coord_status (base s)) eqn:Hup, (handlers s !! j) as [[o h]|]; try done;
      injection Hn as <-; cbn; by rewrite resume_status, Hup.
Qed.

Lemma oreached_dead s : orderly_reached can_open mapf reducef sort_by_key inputs n fs0 s → dead_ok (coord_status (base s)).
Proof using job.
  intros (s0 & H0 & Hrun). revert s Hrun. refine (rtc_ind_r _ s0 _ _).
  - apply start_sim in H0 as [_ Hs]; [|done..]. by rewrite (sm_up _ _ Hs).
  - intros s s' Hrun Hst Hok. refine (ostep_dead s s' _ Hst Hok). intros Hup.
    destruct (oreached_sim can_open mapf reducef sort_by_key inputs n fs0 job s) as (a & _ & Hi & Hs); [by exists s0|done|eauto].
Qed.

Lemma oreached_finishes s w :
  orderly_reached can_open mapf reducef sort_by_key inputs n fs0 s → coord_status (base s) = Up →
  is_Some (threads (base s) !! (w, None)) →
  ∃ b, rtc ocalm_step s (mkOverlapped b []) ∧ ready mapf reducef sort_by_key inputs n fs0 w b ∧ Done (coord b) = true.
Proof using job.
  intros Hs Hup Hl. destruct (oreached_sim _ _ _ _ _ _ _ job s Hs Hup) as (a & Ha & _ & Hsim).
  destruct (flush s a w Hsim Ha Hl) as (b & Hrun & Hb & Hupb & Hlb & Hwb).
  pose proof (reached_inv can_open mapf reducef sort_by_key inputs n fs0 job b Hb) as Hi.
  destruct (ready_finishes can_open mapf reducef sort_by_key inputs n fs0 job w b) as (b' & Hrun' & Hr & Hd).
  { split; [done|by eapply reached_booked|done|done]. }
  exists b'. split_and!; [|done|done]. etrans; [exact Hrun|].
  apply calm_run_overlapped; [done|done|done|]. apply Hr.
Qed.
End job.



(** ** Runs *)


(** Both workers die with their reduce tasks; a monitor finds nobody. *)
Definition wc_deserted : list oevent :=
  wc_overlap_first ++
  [OLocal (EDie 1 []); OLocal (EDie 2 []);
   OLocal (EWake 2 [(1, workerSocket 1); (2, workerSocket 2)]%Z false false)].
Definition wc_odead : overlapped := default wc_ostart (run_labels wc_onext wc_ostart wc_deserted).


(** ** Races *)

(** Worker 1 is slow with its reduce task; the task's monitor sends it to worker 2, and
both report it at the same time. *)
Definition wc_twice : list oevent :=
  wc_overlap_first ++
  [OLocal (ERun (main 1));
   OLocal (EWake 2 [(2, workerSocket 2); (1, workerSocket 1)]%Z false false);
   OLocal (ERun (2%Z, Some 2)); OSend (main 1); OSend (2%Z, Some 2);
   OSection 0; OSection 1; OSection 0; OSection 1; OSection 0; OSection 1].

(** Both workers have one reduce task to ask for: worker 1 has run one of the two. *)
Definition wc_one_left : list oevent :=
  [OLocal (EJoin 1); OLocal (EJoin 2)] ++ both 1 ++ both 2 ++
  [OLocal (ERun (main 1)); OLocal (ERun (main 2))] ++ both 4 ++ both 1 ++
  [OSend (main 1); OSection 0; OSection 0; OSection 0; OReturn 0; OLocal (ERun (main 1));
   OSend (main 1); OSection 0; OSection 0; OSection 0; OSection 0; OReturn 0].
Definition wc_third : list oevent :=
  wc_one_left ++ both 3 ++ [OLocal (ERun (main 1)); OLocal (ERun (main 2)); OSend (main 2); OSection 0].

Abbreviation wc_any := (overlapped_next (λ _, true) words_map count_reduce merge_by_key).

(** C39. Without the lock over a whole handler the job can end too early, or the coordinator
can fail.  Two reports of one reduce task that both test its flag before either sets it
are counted twice, and [Done] is true although an output file was never written; two
requests that both find one reduce task left get tasks [nReduce - 1] and [nReduce],
and the report of the second indexes out of range.  Neither run is orderly. *)
Theorem overlapped_races :
  (∃ s, run_labels wc_any wc_ostart wc_twice = Some s ∧ coord_status (base s) = Up ∧
    Done (coord (base s)) = true ∧ files (base s) !! out_name 1 = None ∧
    index (reduce_complete (coord (base s))) 1 = Ok false ∧ run_labels wc_onext wc_ostart wc_twice = None) ∧
  (∃ s, run_labels wc_any wc_ostart wc_third = Some s ∧
    coord_status (base s) = Died IndexOutOfRange ∧
    is_Some (files (base s) !! out_name 2) ∧ run_labels wc_onext wc_ostart wc_third = None).
Proof.
  split.
  - destruct (run_labels wc_any wc_ostart wc_twice) as [s|] eqn:E; [|by vm_compute in E].
    exists s. vm_compute in E. injection E as <-. split_and!; vm_compute; reflexivity.
  - destruct (run_labels wc_any wc_ostart wc_third) as [s|] eqn:E; [|by vm_compute in E].
    exists s. vm_compute in E. injection E as <-. split_and!; try (vm_compute; reflexivity). vm_compute. by eexists.
Qed.

End MrOverlapProgress.
