(* ===== verification/Labrpc.v ===== *)
(** * The simulated network ([src/labrpc/labrpc.go])

[Network] is the record of the same name, with one function per method.  A
request in flight is a goroutine of [processReq] together with the goroutine
that runs its handler: [rstate] is where the two are, and [next] is one atomic
section of one goroutine, or a call of a method of the network by the program
that controls it.  Random choices, timers and the handlers' results are in the
labels; how long a delay takes is left out.

Names of ends and servers are interface values ([iface]: the strings and
integers the repository uses); a [*Server] is an address in [heap], so that two
servers registered under one name, one after the other, are told apart. *)

From S2P Require Import Prelude GoStrings.
From stdpp Require Import options.

Module Labrpc.

Inductive iface := IStr (s : string) | IInt (i : Z).

Global Instance iface_eq_dec : EqDecision iface.
Proof. solve_decision. Defined.
Global Program Instance iface_countable : Countable iface :=
  inj_countable' (λ x, match x with IStr s => inl s | IInt i => inr i end)
                 (λ y, match y with inl s => IStr s | inr i => IInt i end) _.
Next Obligation. by intros []. Qed.

(** ** Services and servers *)

(** What [MakeService] looks at of a method: its name, whether it is exported,
its numbers of arguments (the receiver counts) and results, and whether its
second argument is a pointer. *)
Record method := {
  m_name : string; m_exported : bool; m_numIn : Z; m_in2_ptr : bool; m_numOut : Z }.

Record Service := { svc_name : string; svc_methods : gset string }.

Definition is_handler (m : method) : bool :=
  m_exported m && bool_decide (m_numIn m = 3)%Z && m_in2_ptr m && bool_decide (m_numOut m = 0)%Z.

Definition MakeService (type_name : string) (methods : list method) : Service :=
  {| svc_name := type_name;
     svc_methods := foldl (λ s m, if is_handler m then {[m_name m]} ∪ s else s) ∅ methods |}.

Record Server := mkServer { services : gmap string Service; srv_count : Z }.

Definition MakeServer : Server := mkServer ∅ 0.

Definition AddService (rs : Server) (svc : Service) : Server :=
  mkServer (<[svc_name svc := svc]> (services rs)) (srv_count rs).

Definition Server_GetCount (rs : Server) : Z := srv_count rs.

(** [Service.dispatch], up to the call of the method: the method that is called. *)
Definition Service_dispatch (svc : Service) (methname : string) : outcome string :=
  if decide (methname ∈ svc_methods svc) then Ok methname
  else Crash (FatalExit "labrpc.Service.dispatch(): unknown method").

(** [Server.dispatch], up to the call of the method: the server counts the
request, and the service and method named in [svcMeth] are looked up. *)
Definition Server_dispatch (rs : Server) (svcMeth : string)
    : outcome (Server * (string * string)) :=
  let rs := mkServer (services rs) (int64 (srv_count rs + 1)) in
  let dot := LastIndexByte svcMeth dot_byte in
  let* serviceName := slice_to svcMeth dot in
  let* methodName := slice_from svcMeth (dot + 1) in
  match services rs !! serviceName with
  | Some svc => let* m := Service_dispatch svc methodName in Ok (rs, (serviceName, m))
  | None => Crash (FatalExit "labrpc.Server.dispatch(): unknown service")
  end.

(** ** The network *)

Record Network := mkNetwork {
  reliable : bool;
  longDelays : bool;
  longReordering : bool;
  ends : gset iface;
  enabled : gmap iface bool;
  servers : gmap iface (option nat);
  connections : gmap iface (option iface);
  net_done : bool;
  count : Z;
  bytes : Z }.

Definition MakeNetwork : Network := mkNetwork true false false ∅ ∅ ∅ ∅ false 0 0.

(** [Cleanup] closes the channel [done]; closing it twice panics. *)
Definition Cleanup (rn : Network) : outcome Network :=
  if net_done rn then Crash CloseOfClosed
  else Ok (mkNetwork (reliable rn) (longDelays rn) (longReordering rn) (ends rn) (enabled rn)
             (servers rn) (connections rn) true (count rn) (bytes rn)).
Definition Reliable (rn : Network) (yes : bool) : Network :=
  mkNetwork yes (longDelays rn) (longReordering rn) (ends rn) (enabled rn)
    (servers rn) (connections rn) (net_done rn) (count rn) (bytes rn).
Definition LongReordering (rn : Network) (yes : bool) : Network :=
  mkNetwork (reliable rn) (longDelays rn) yes (ends rn) (enabled rn)
    (servers rn) (connections rn) (net_done rn) (count rn) (bytes rn).
Definition LongDelays (rn : Network) (yes : bool) : Network :=
  mkNetwork (reliable rn) yes (longReordering rn) (ends rn) (enabled rn)
    (servers rn) (connections rn) (net_done rn) (count rn) (bytes rn).
Definition with_maps (rn : Network) (es : gset iface) (en : gmap iface bool)
    (sv : gmap iface (option nat)) (cn : gmap iface (option iface)) : Network :=
  mkNetwork (reliable rn) (longDelays rn) (longReordering rn) es en sv cn
    (net_done rn) (count rn) (bytes rn).

(** A missing key of a Go map reads as the zero value. *)
Definition is_enabled (rn : Network) (endname : iface) : bool := default false (enabled rn !! endname).
Definition connected_to (rn : Network) (endname : iface) : option iface :=
  mjoin (connections rn !! endname).
Definition server_of (rn : Network) (servername : iface) : option nat :=
  mjoin (servers rn !! servername).

Definition MakeEnd (rn : Network) (endname : iface) : outcome Network :=
  if decide (endname ∈ ends rn) then Crash (FatalExit "MakeEnd: already exists")
  else Ok (with_maps rn ({[endname]} ∪ ends rn) (<[endname := false]> (enabled rn)) (servers rn)
             (<[endname := None]> (connections rn))).

Definition DeleteEnd (rn : Network) (endname : iface) : outcome Network :=
  if decide (endname ∈ ends rn) then
    Ok (with_maps rn (ends rn ∖ {[endname]}) (delete endname (enabled rn)) (servers rn)
          (delete endname (connections rn)))
  else Crash (FatalExit "MakeEnd: doesn't exists").

Definition AddServer (rn : Network) (servername : iface) (rs : nat) : Network :=
  with_maps rn (ends rn) (enabled rn) (<[servername := Some rs]> (servers rn)) (connections rn).
Definition DeleteServer (rn : Network) (servername : iface) : Network :=
  with_maps rn (ends rn) (enabled rn) (<[servername := None]> (servers rn)) (connections rn).
Definition Connect (rn : Network) (endname servername : iface) : Network :=
  with_maps rn (ends rn) (enabled rn) (servers rn) (<[endname := Some servername]> (connections rn)).
Definition Enable (rn : Network) (endname : iface) (b : bool) : Network :=
  with_maps rn (ends rn) (<[endname := b]> (enabled rn)) (servers rn) (connections rn).

(** [GetCount] reads the count through the server's pointer, which is nil when
the server was deleted or never added. *)
Definition GetCount (rn : Network) (heap : gmap nat Server) (servername : iface) : outcome Z :=
  match server_of rn servername ≫= (heap !!.) with
  | Some rs => Ok (Server_GetCount rs)
  | None => Crash NilDereference
  end.
Definition GetTotalCount (rn : Network) : Z := count rn.
Definition GetTotalBytes (rn : Network) : Z := bytes rn.

(** [atomic.AddInt32(&rn.count, 1)] and [atomic.AddInt64(&rn.bytes, n)]. *)
Definition add_count (rn : Network) : Network :=
  mkNetwork (reliable rn) (longDelays rn) (longReordering rn) (ends rn) (enabled rn)
    (servers rn) (connections rn) (net_done rn) (int32 (count rn + 1)) (bytes rn).
Definition add_bytes (rn : Network) (s : string) : Network :=
  mkNetwork (reliable rn) (longDelays rn) (longReordering rn) (ends rn) (enabled rn)
    (servers rn) (connections rn) (net_done rn) (count rn)
    (int64 (bytes rn + Z.of_nat (String.length s))).

(** ** Requests *)

Record reqMsg := { r_endname : iface; r_svcMeth : string; r_args : string }.
Record replyMsg := mkReply { rp_ok : bool; rp_reply : string }.

(** What [readEndnameInfo] returns. *)
Record info := mkInfo {
  i_enabled : bool; i_servername : option iface; i_server : option nat;
  i_reliable : bool; i_longreordering : bool }.

Definition readEndnameInfo (rn : Network) (endname : iface) : info :=
  let servername := connected_to rn endname in
  mkInfo (is_enabled rn endname) servername (servername ≫= server_of rn)
    (reliable rn) (longReordering rn).

Definition isServerDead (rn : Network) (endname servername : iface) (server : nat) : bool :=
  negb (is_enabled rn endname) || bool_decide (server_of rn servername ≠ Some server).

(** A server that was found: its name and address, and the two flags. *)
Record target := mkTarget { t_name : iface; t_server : nat; t_reliable : bool; t_reorder : bool }.

Definition find_target (i : info) : option target :=
  if i_enabled i then
    match i_servername i, i_server i with
    | Some n, Some s => Some (mkTarget n s (i_reliable i) (i_longreordering i))
    | _, _ => None
    end
  else None.

(** Where the goroutine of [processReq] is. *)
Inductive phase :=
| PStart                        (* before readEndnameInfo *)
| PLost                         (* no server: a failure is sent after a delay *)
| PDeliver (t : target)         (* a server was found; the request may be dropped *)
| PWait (t : target)            (* the handler goroutine is started *)
| PGaveUp (t : target)          (* the server was found dead: a failure will be sent *)
| PGot (t : target) (r : string)(* the handler's reply was received *)
| PChecked (t : target) (r : string) (* the server was found alive after that *)
| PDelayed (r : string)         (* the reply will be sent after a long delay *)
| PReplied (m : replyMsg).

(** Where the goroutine that runs the handler is. *)
Inductive hstate :=
| HNone                         (* not started *)
| HReady (server : nat)         (* started, before server.dispatch *)
| HStarted                      (* in the handler *)
| HReturned (r : string).       (* the reply is offered on the channel, or drained *)

(** [found] is what [readEndnameInfo] returned, which the goroutine keeps in its
variables until it ends; [execs] counts the calls of the handler. *)
Record rstate := mkR {
  rq : reqMsg; ph : phase; hd : hstate; execs : nat; found : option target }.

Record world := mkWorld { net : Network; heap : gmap nat Server; reqs : list rstate }.

Definition failed : phase := PReplied (mkReply false "").

(** ** Steps *)

Inductive netop :=
| OpReliable (b : bool) | OpLongDelays (b : bool) | OpLongReordering (b : bool)
| OpMakeEnd (e : iface) | OpDeleteEnd (e : iface)
| OpAddServer (s : iface) (a : nat) (rs : Server) | OpDeleteServer (s : iface)
| OpConnect (e s : iface) | OpEnable (e : iface) (b : bool)
| OpCleanup.

(** A new server is put at an address that is not in use. *)
Definition apply_op (w : world) (op : netop) : option (outcome world) :=
  let keep rn := mkWorld rn (heap w) (reqs w) in
  match op with
  | OpReliable b => Some (Ok (keep (Reliable (net w) b)))
  | OpLongDelays b => Some (Ok (keep (LongDelays (net w) b)))
  | OpLongReordering b => Some (Ok (keep (LongReordering (net w) b)))
  | OpMakeEnd e => Some (let* rn := MakeEnd (net w) e in Ok (keep rn))
  | OpDeleteEnd e => Some (let* rn := DeleteEnd (net w) e in Ok (keep rn))
  | OpAddServer s a rs =>
      if decide (a ∈ dom (heap w)) then None
      else Some (Ok (mkWorld (AddServer (net w) s a) (<[a := rs]> (heap w)) (reqs w)))
  | OpDeleteServer s => Some (Ok (keep (DeleteServer (net w) s)))
  | OpConnect e s => Some (Ok (keep (Connect (net w) e s)))
  | OpEnable e b => Some (Ok (keep (Enable (net w) e b)))
  | OpCleanup => Some (let* rn := Cleanup (net w) in Ok (keep rn))
  end.

Inductive label :=
| LOp (op : netop)
| LCall (r : reqMsg)             (* the network takes a request from its channel: after
                                    [Cleanup] too, until its goroutine chooses [done] *)
| LRead (i : nat)                (* readEndnameInfo *)
| LSend (i : nat) (drop : bool)  (* drop the request, or start the handler goroutine *)
| LDispatch (i : nat)            (* the handler goroutine calls the handler *)
| LReturn (i : nat) (r : string) (* the handler returns *)
| LRecv (i : nat)                (* the select receives the reply *)
| LTick (i : nat)                (* the select's timer fires *)
| LCheck (i : nat)               (* the last check whether the server is dead *)
| LFinal (i : nat) (drop delay : bool)  (* send the reply or a failure, or delay the reply *)
| LFire (i : nat).               (* a delayed reply is sent *)

Definition set_ph (x : rstate) (p : phase) : rstate := mkR (rq x) p (hd x) (execs x) (found x).

Definition dead_for (rn : Network) (x : rstate) (t : target) : bool :=
  isServerDead rn (r_endname (rq x)) (t_name t) (t_server t).

(** The section of [processReq] (or of its handler goroutine) that the label
names, for request [x]: the network, the request, and the handler's server. *)
Definition rstep (w : world) (x : rstate) (l : label)
    : option (outcome (Network * gmap nat Server * rstate)) :=
  let keep x := Some (Ok (net w, heap w, x)) in
  match l, ph x with
  | LRead _, PStart =>
      let f := find_target (readEndnameInfo (net w) (r_endname (rq x))) in
      keep (mkR (rq x) (match f with Some t => PDeliver t | None => PLost end)
              (hd x) (execs x) f)
  | LSend _ drop, PDeliver t =>
      if drop then if t_reliable t then None else keep (set_ph x failed)
      else keep (mkR (rq x) (PWait t) (HReady (t_server t)) (execs x) (found x))
  | LDispatch _, _ =>
      match hd x with
      | HReady a =>
          match heap w !! a with
          | Some rs =>
              Some (let* (rs, _) := Server_dispatch rs (r_svcMeth (rq x)) in
                    Ok (net w, <[a := rs]> (heap w), mkR (rq x) (ph x) HStarted (S (execs x)) (found x)))
          | None => None
          end
      | _ => None
      end
  | LReturn _ r, _ =>
      match hd x with
      | HStarted => keep (mkR (rq x) (ph x) (HReturned r) (execs x) (found x))
      | _ => None
      end
  | LRecv _, PWait t => match hd x with HReturned r => keep (set_ph x (PGot t r)) | _ => None end
  | LTick _, PWait t =>
      keep (set_ph x (if dead_for (net w) x t then PGaveUp t else PWait t))
  | LCheck _, PGot t r =>
      keep (set_ph x (if dead_for (net w) x t then PGaveUp t else PChecked t r))
  | LFinal _ _ _, PGaveUp t => keep (set_ph x failed)
  | LFinal _ drop delay, PChecked t r =>
      if drop then if t_reliable t then None else keep (set_ph x failed)
      else if delay then if t_reorder t then keep (set_ph x (PDelayed r)) else None
      else Some (Ok (add_bytes (net w) r, heap w, set_ph x (PReplied (mkReply true r))))
  | LFire _, PLost => keep (set_ph x failed)
  | LFire _, PDelayed r =>
      Some (Ok (add_bytes (net w) r, heap w, set_ph x (PReplied (mkReply true r))))
  | _, _ => None
  end.

Definition label_req (l : label) : option nat :=
  match l with
  | LOp _ | LCall _ => None
  | LRead i | LSend i _ | LDispatch i | LReturn i _ | LRecv i | LTick i | LCheck i
  | LFinal i _ _ | LFire i => Some i
  end.

Definition next (w : world) (l : label) : option (outcome world) :=
  match l with
  | LOp op => apply_op w op
  | LCall r =>
      Some (Ok (mkWorld (add_bytes (add_count (net w)) (r_args r)) (heap w)
                  (reqs w ++ [mkR r PStart HNone 0 None])))
  | _ =>
      match label_req l with
      | Some i =>
          match reqs w !! i with
          | Some x =>
              match rstep w x l with
              | Some (Ok (rn, h, x')) => Some (Ok (mkWorld rn h (<[i := x']> (reqs w))))
              | Some (Crash f) => Some (Crash f)
              | None => None
              end
          | None => None
          end
      | None => None
      end
  end.

Definition step (w w' : world) : Prop := ∃ l, next w l = Some (Ok w').

Definition start : world := mkWorld MakeNetwork ∅ [].

(** ** The client's side *)

(** [ClientEnd.Call]: [rep] is the message on the reply channel, [decode] is
[labgob]'s decoder.  The result is [None] for [false], and the decoded reply for
[true]. *)
Definition Call {R} (closed : bool) (rep : replyMsg) (decode : string → option R)
    : outcome (option R) :=
  if closed then Ok None
  else if rp_ok rep then
    match decode (rp_reply rep) with
    | Some r => Ok (Some r)
    | None => Crash (FatalExit "ClientEnd.Call(): decode reply")
    end
  else Ok None.

Definition next_ok (w : world) (l : label) : option world :=
  match next w l with Some (Ok w') => Some w' | _ => None end.

(** ** One request *)

Definition target_of (p : phase) : option target :=
  match p with
  | PDeliver t | PWait t | PGaveUp t | PGot t _ | PChecked t _ => Some t
  | PStart | PLost | PDelayed _ | PReplied _ => None
  end.

Definition executed (h : hstate) : nat :=
  match h with HNone | HReady _ => 0 | HStarted | HReturned _ => 1 end.

(** The two goroutines of a request agree: the handler has run at most once,
and a reply that was received is the one the handler returned. *)
Definition req_inv (x : rstate) : Prop :=
  execs x = executed (hd x) ∧
  match ph x with
  | PStart | PLost | PDeliver _ => hd x = HNone
  | PWait _ | PGaveUp _ => hd x ≠ HNone
  | PGot _ r | PChecked _ r | PDelayed r => hd x = HReturned r
  | PReplied m => rp_ok m = true → hd x = HReturned (rp_reply m)
  end.

Ltac rstep_cases H :=
  unfold rstep in H;
  repeat match type of H with
  | context [match ?t with _ => _ end] =>
      lazymatch t with
      | context [match _ with _ => _ end] => fail
      | _ => destruct t eqn:?
      end
  end; go_simp.

Lemma rstep_req_inv w x l rn h x' :
  rstep w x l = Some (Ok (rn, h, x')) → req_inv x → req_inv x'.
Proof.
  destruct x as [q p hx n fd]. intros H [He Hp]. unfold req_inv in *.
  destruct l; simpl in H; try done; destruct p; rstep_cases H; simpl in *; try done;
    try naive_solver.
Qed.

(** A step of the world, seen from its requests: an operation of the network, a
new request, or one section of one request. *)
Lemma next_cases w l w' :
  next w l = Some (Ok w') →
  (∃ op, l = LOp op ∧ apply_op w op = Some (Ok w')) ∨
  (∃ r, l = LCall r ∧ w' = mkWorld (add_bytes (add_count (net w)) (r_args r)) (heap w)
               (reqs w ++ [mkR r PStart HNone 0 None])) ∨
  (∃ i x rn h x', label_req l = Some i ∧ reqs w !! i = Some x ∧
     rstep w x l = Some (Ok (rn, h, x')) ∧ w' = mkWorld rn h (<[i := x']> (reqs w))).
Proof.
  intros Hl. destruct l as [op|r|i|i d|i|i r|i|i|i|i d d'|i]; cbn [next label_req] in Hl;
    [by eauto|by simplify_eq; eauto|right; right..];
    destruct (reqs w !! i) as [x|] eqn:Hi; try done;
    match type of Hl with context [rstep w x ?l] =>
      destruct (rstep w x l) as [[[[rn h] x']|]|] eqn:Hx; simplify_eq; by exists i, x, rn, h, x'
    end.
Qed.

Lemma step_inv w w' :
  step w w' →
  (∃ op, apply_op w op = Some (Ok w')) ∨
  (∃ r, w' = mkWorld (add_bytes (add_count (net w)) (r_args r)) (heap w)
               (reqs w ++ [mkR r PStart HNone 0 None])) ∨
  (∃ i l x rn h x', label_req l = Some i ∧ reqs w !! i = Some x ∧
     rstep w x l = Some (Ok (rn, h, x')) ∧ w' = mkWorld rn h (<[i := x']> (reqs w))).
Proof. intros [l Hl%next_cases]. naive_solver eauto 10. Qed.

Lemma apply_op_reqs w op w' : apply_op w op = Some (Ok w') → reqs w' = reqs w.
Proof. destruct op; simpl; intros H; repeat case_decide; go_simp; done. Qed.

Lemma step_reqs (I : rstate → Prop) w w' :
  (∀ r, I (mkR r PStart HNone 0 None)) →
  (∀ x l rn h x', rstep w x l = Some (Ok (rn, h, x')) → I x → I x') →
  step w w' → (∀ x, x ∈ reqs w → I x) → ∀ x, x ∈ reqs w' → I x.
Proof.
  intros Hnew Hstep [(op & Hop)|[(r & ->)|(i & l & x0 & rn & h & x' & _ & Hi & Hx & ->)]]%step_inv HI x.
  - rewrite (apply_op_reqs _ _ _ Hop). auto.
  - simpl. rewrite elem_of_app, list_elem_of_singleton. naive_solver.
  - simpl. intros [->|?]%elem_of_insert_inv; [|auto].
    eapply Hstep; [done|]. apply HI. by eapply list_elem_of_lookup_2.
Qed.

Lemma reachable_req_inv w x : steps step start w → x ∈ reqs w → req_inv x.
Proof.
  intros Hw. revert x.
  apply (steps_invariant step (λ w, ∀ x, x ∈ reqs w → req_inv x) start w); [..|done].
  - intros a b Ha Hab. eapply step_reqs; [done| |done|done]. intros. by eapply rstep_req_inv.
  - by intros x ?%not_elem_of_nil.
Qed.

(** C9. At most once, and no invented reply: in every reachable state of the
network, whatever the drops, delays, timers and changes of the network, the
handler of a request has been called at most once; and a request that was
answered with success was executed exactly once, and was sent the reply its
handler returned. *)
Theorem at_most_once w i x :
  steps step start w → reqs w !! i = Some x →
  execs x ≤ 1 ∧
  ∀ m, ph x = PReplied m → rp_ok m = true → execs x = 1 ∧ hd x = HReturned (rp_reply m).
Proof.
  intros Hw Hx%list_elem_of_lookup_2. destruct (reachable_req_inv w x Hw Hx) as [He Hp].
  split; [destruct (hd x); simpl in He; lia|].
  intros m Hm Hok. rewrite Hm in Hp. specialize (Hp Hok). by rewrite He, Hp.
Qed.

(** ** Servers that were deleted *)

(** Every server address in use was allocated. *)
Definition alloc_inv (w : world) : Prop :=
  (∀ n a, server_of (net w) n = Some a → a ∈ dom (heap w)) ∧
  (∀ x t, x ∈ reqs w → found x = Some t → t_server t ∈ dom (heap w)).

Lemma ends_servers rn e rn' :
  MakeEnd rn e = Ok rn' ∨ DeleteEnd rn e = Ok rn' → servers rn' = servers rn.
Proof. unfold MakeEnd, DeleteEnd. intros [H|H]; case_decide; by simplify_eq/=. Qed.

(** An operation changes who answers to a name only by deleting the server, or
by adding one at a new address. *)
Lemma apply_op_cases w op w' :
  apply_op w op = Some (Ok w') →
  (servers (net w') = servers (net w) ∧ heap w' = heap w) ∨
  (∃ s, servers (net w') = <[s := None]> (servers (net w)) ∧ heap w' = heap w) ∨
  (∃ s a rs, (a ∉ dom (heap w)) ∧ servers (net w') = <[s := Some a]> (servers (net w)) ∧
     heap w' = <[a := rs]> (heap w)).
Proof.
  destruct op as [b|b|b|e|e|s a rs|s|e s|e b|]; simpl; intros H; repeat case_decide; simplify_eq/=; auto.
  - destruct (MakeEnd (net w) e) as [rn|] eqn:E; simplify_eq/=. eauto using ends_servers.
  - destruct (DeleteEnd (net w) e) as [rn|] eqn:E; simplify_eq/=. eauto using ends_servers.
  - right; right. by exists s, a, rs.
  - right; left. by exists s.
  - unfold Cleanup in H. destruct (net_done (net w)); simplify_eq/=. auto.
Qed.

Lemma apply_op_server w op w' n a :
  apply_op w op = Some (Ok w') → server_of (net w') n = Some a →
  server_of (net w) n = Some a ∨ ((a ∉ dom (heap w)) ∧ a ∈ dom (heap w')).
Proof.
  unfold server_of.
  intros [(-> & ->)|[(s & -> & ->)|(s & a' & rs & Ha & -> & ->)]]%apply_op_cases; [by auto|..].
  - rewrite lookup_insert. case_decide; simpl; [done|auto].
  - rewrite lookup_insert. case_decide; simpl; [|auto]. intros. simplify_eq. right. set_solver.
Qed.

Lemma apply_op_heap w op w' : apply_op w op = Some (Ok w') → dom (heap w) ⊆ dom (heap w').
Proof.
  intros [(_ & ->)|[(s & _ & ->)|(s & a' & rs & _ & _ & ->)]]%apply_op_cases; set_solver.
Qed.

Lemma rstep_net w x l rn h x' :
  rstep w x l = Some (Ok (rn, h, x')) →
  enabled rn = enabled (net w) ∧ servers rn = servers (net w) ∧ dom h = dom (heap w).
Proof.
  destruct x as [q p hx n fd]. intros H.
  destruct l; simpl in H; try done; destruct p; rstep_cases H; simpl; try done;
  by rewrite dom_insert_lookup_L.
Qed.

Lemma find_target_server rn e t :
  find_target (readEndnameInfo rn e) = Some t →
  is_enabled rn e = true ∧ server_of rn (t_name t) = Some (t_server t) ∧ t_reliable t = reliable rn.
Proof.
  unfold find_target, readEndnameInfo. simpl. destruct (is_enabled rn e); [|done].
  destruct (connected_to rn e) as [n|]; simpl; [|done].
  destruct (server_of rn n) as [a|] eqn:Ha; [|done]. intros. by simplify_eq.
Qed.

Lemma find_target_name rn e t :
  find_target (readEndnameInfo rn e) = Some t → connected_to rn e = Some (t_name t).
Proof.
  unfold find_target, readEndnameInfo. simpl. destruct (is_enabled rn e); [|done].
  destruct (connected_to rn e) as [n|]; simpl; [|done]. destruct (server_of rn n); [|done].
  intros. by simplify_eq.
Qed.

(** Where an end is connected: only [Connect] connects it to a server. *)
Lemma rstep_connections w x l rn h x' :
  rstep w x l = Some (Ok (rn, h, x')) → connections rn = connections (net w).
Proof.
  destruct x as [q p hx n fd]. intros H.
  destruct l; simpl in H; try done; destruct p; rstep_cases H; done.
Qed.

Lemma apply_op_connected w op w' e n :
  apply_op w op = Some (Ok w') → (∀ s, op ≠ OpConnect e s) →
  connected_to (net w') e = Some n → connected_to (net w) e = Some n.
Proof.
  intros H Hne. destruct op as [b|b|b|e'|e'|s a rs|s|e' s|e' b|]; simpl in H; repeat case_decide; go_simp; try done.
  - unfold MakeEnd in *. case_decide; go_simp. unfold connected_to. simpl. rewrite lookup_insert.
    by case_decide.
  - unfold DeleteEnd in *. case_decide; go_simp. unfold connected_to. simpl. rewrite lookup_delete.
    by case_decide.
  - unfold connected_to. simpl. rewrite lookup_insert_ne; [done|]. intros ->. by eapply Hne.
  - unfold Cleanup in *. case_match; by go_simp.
Qed.

(** What a request found is kept from the section that reads it on. *)
Lemma rstep_found w x l rn h x' t :
  rstep w x l = Some (Ok (rn, h, x')) → found x' = Some t →
  found x = Some t ∨
  (ph x = PStart ∧ find_target (readEndnameInfo (net w) (r_endname (rq x))) = Some t).
Proof.
  destruct x as [q p hx n fd]. intros H Ht.
  destruct l; simpl in H; try done; destruct p; rstep_cases H; simpl in *; simplify_eq; auto.
Qed.

Lemma alloc_inv_step w w' : alloc_inv w → step w w' → alloc_inv w'.
Proof.
  intros [Hs Ht] [(op & Hop)|[(r & ->)|(i & l & x & rn & h & x' & _ & Hi & Hx & ->)]]%step_inv.
  - pose proof (apply_op_heap _ _ _ Hop) as Hd. split.
    + intros n a [?|[_ ?]]%(apply_op_server _ _ _ _ _ Hop); [apply Hd; eauto|done].
    + intros x t. rewrite (apply_op_reqs _ _ _ Hop). intros. apply Hd. eauto.
  - split; [done|]. intros x t. simpl. rewrite elem_of_app, list_elem_of_singleton.
    intros [?| ->]; [by eapply Ht|done].
  - destruct (rstep_net _ _ _ _ _ _ Hx) as (He & Hsv & Hd).
    split; simpl; rewrite Hd.
    + intros n a. unfold server_of. rewrite Hsv. apply Hs.
    + intros y t [->|Hy]%elem_of_insert_inv Hty; [|by eapply Ht].
      apply list_elem_of_lookup_2 in Hi.
      destruct (rstep_found _ _ _ _ _ _ _ Hx Hty) as [Htx|[_ Hf]]; [by eapply Ht|].
      apply find_target_server in Hf as (_ & Hf & _). by eapply Hs.
Qed.

Lemma reachable_alloc_inv w : steps step start w → alloc_inv w.
Proof.
  intros Hw. apply (steps_invariant step alloc_inv start w); [| |done].
  - intros a b ??. by eapply alloc_inv_step.
  - split; [done|]. by intros x t ?%not_elem_of_nil.
Qed.

(** The variables of the goroutine: nothing was found before the network was
read, the server a request is with is the one that was found, and a handler is
started only when one was found. *)
Definition found_inv (x : rstate) : Prop :=
  match ph x with
  | PStart => found x = None ∧ hd x = HNone
  | p => ∀ t, target_of p = Some t → found x = Some t
  end ∧
  (hd x ≠ HNone → is_Some (found x)).

Lemma rstep_found_inv w x l rn h x' :
  rstep w x l = Some (Ok (rn, h, x')) → found_inv x → found_inv x'.
Proof.
  destruct x as [q p hx n fd]. intros H [Hf Hh]. unfold found_inv in *.
  destruct l; simpl in H; try done; destruct p; rstep_cases H; simpl in *; naive_solver eauto.
Qed.

Lemma reachable_found_inv w x : steps step start w → x ∈ reqs w → found_inv x.
Proof.
  intros Hw. revert x.
  apply (steps_invariant step (λ w, ∀ x, x ∈ reqs w → found_inv x) start w); [..|done].
  - intros a b Ha Hab. eapply step_reqs; [done| |done|done]. intros. by eapply rstep_found_inv.
  - by intros x ?%not_elem_of_nil.
Qed.

Lemma rstep_keeps_found w x l rn h x' t :
  rstep w x l = Some (Ok (rn, h, x')) → found_inv x → found x = Some t → found x' = Some t.
Proof.
  destruct x as [q p hx n fd]. intros H [Hf _] Ht.
  destruct l; simpl in H; try done; destruct p; rstep_cases H; simpl in *; naive_solver.
Qed.

Lemma step_keeps_found w w' i x t :
  steps step start w → step w w' → reqs w !! i = Some x → found x = Some t →
  ∃ x', reqs w' !! i = Some x' ∧ found x' = Some t.
Proof.
  intros Hw [(op & Hop)|[(r & ->)|(j & l & y & rn & h & y' & _ & Hj & Hy & ->)]]%step_inv Hi Ht.
  - rewrite (apply_op_reqs _ _ _ Hop). by exists x.
  - exists x. split; [by apply lookup_app_l_Some|done].
  - simpl. destruct (decide (i = j)) as [->|Hne]; [|by exists x; rewrite list_lookup_insert_ne].
    simplify_eq. exists y'. split; [apply list_lookup_insert_eq; by eapply lookup_lt_Some|].
    eapply rstep_keeps_found; [done| |done]. eapply reachable_found_inv; [done|by eapply list_elem_of_lookup_2].
Qed.

(** What a request may still be sent once the server it found is gone. *)
Definition late_answer (p : phase) (m : replyMsg) : Prop :=
  match p with
  | PReplied m' => m = m'
  | PDelayed r => m = mkReply true r
  | PChecked t r => m = mkReply true r ∨ (t_reliable t = false ∧ m = mkReply false "")
  | PStart | PLost | PDeliver _ | PWait _ | PGaveUp _ | PGot _ _ => m = mkReply false ""
  end.

Lemma rstep_late_answer w x l rn h x' t m :
  rstep w x l = Some (Ok (rn, h, x')) → found_inv x → found x = Some t →
  server_of (net w) (t_name t) ≠ Some (t_server t) →
  late_answer (ph x') m → late_answer (ph x) m.
Proof.
  destruct x as [q p hx n fd]. intros H Hf Ht Hne.
  assert (dead_for (net w) (mkR q p hx n fd) t = true) as Hdead.
  { unfold dead_for, isServerDead. by rewrite (bool_decide_eq_true_2 _ Hne), orb_true_r. }
  destruct Hf as [Hf _]. simpl in Hf, Ht. subst fd.
  destruct p; simpl in Hf; try (by destruct Hf);
    try (specialize (Hf _ eq_refl); injection Hf as ->);
    destruct l; simpl in H; try done; rewrite ?Hdead in H; rstep_cases H; simpl; auto.
Qed.

(** Request [i] found a server that is gone, and what it may still be sent is
what phase [p] allows. *)
Definition orphan (i : nat) (t : target) (p : phase) (w : world) : Prop :=
  server_of (net w) (t_name t) ≠ Some (t_server t) ∧ t_server t ∈ dom (heap w) ∧
  ∃ x, reqs w !! i = Some x ∧ found_inv x ∧ found x = Some t ∧
    ∀ m, late_answer (ph x) m → late_answer p m.

Lemma orphan_step i t p w w' : orphan i t p w → step w w' → orphan i t p w'.
Proof.
  intros (Hne & Ha & x & Hx & Hfi & Hf & Hm)
    [(op & Hop)|[(r & ->)|(j & l & y & rn & h & y' & _ & Hj & Hy & ->)]]%step_inv.
  - split_and!.
    + by intros [?|[? _]]%(apply_op_server _ _ _ _ _ Hop).
    + by apply (apply_op_heap _ _ _ Hop).
    + exists x. by rewrite (apply_op_reqs _ _ _ Hop).
  - split_and!; [done..|]. exists x. split; [by apply lookup_app_l_Some|done].
  - destruct (rstep_net _ _ _ _ _ _ Hy) as (He & Hsv & Hdom).
    unfold orphan. simpl. rewrite Hdom. unfold server_of. rewrite Hsv. fold (server_of (net w)).
    split_and!; [done..|]. destruct (decide (i = j)) as [->|Hij].
    + simplify_eq. exists y'. split_and!.
      * apply list_lookup_insert_eq. by eapply lookup_lt_Some.
      * by eapply rstep_found_inv.
      * by eapply rstep_keeps_found.
      * intros m ?. apply Hm. by eapply (rstep_late_answer _ _ _ _ _ _ t).
    + exists x. by rewrite list_lookup_insert_ne.
Qed.

(** C22. What a server that was deleted can still answer.  Take a request that
found server [t], at a moment when that server is no longer the one registered
under its name (it was deleted, and perhaps replaced), and let the network go on
in any way.  If the request had not passed the last check for dead servers, it
fails.  If it had passed it, a reply that was put off by long reordering is
still sent, as a success; and one that was about to be sent is sent, or dropped
if the network was unreliable when the request was read. *)
Theorem deleted_server_answers w i x t w' x' m :
  steps step start w → reqs w !! i = Some x → found x = Some t →
  server_of (net w) (t_name t) ≠ Some (t_server t) →
  steps step w w' → reqs w' !! i = Some x' → ph x' = PReplied m →
  match ph x with
  | PReplied m' => m = m'
  | PDelayed r => m = mkReply true r
  | PChecked _ r => m = mkReply true r ∨ (t_reliable t = false ∧ m = mkReply false "")
  | PStart | PLost | PDeliver _ | PWait _ | PGaveUp _ | PGot _ _ => m = mkReply false ""
  end.
Proof.
  intros Hw Hx Hf Hne Hsteps Hx' Hm.
  pose proof (list_elem_of_lookup_2 _ _ _ Hx) as Hin.
  pose proof (reachable_found_inv w x Hw Hin) as Hfi.
  assert (orphan i t (ph x) w) as Ho.
  { split_and!; [done| |by exists x]. destruct (reachable_alloc_inv w Hw) as [_ Ha]. by eapply Ha. }
  apply (steps_invariant step (orphan i t (ph x))) in Hsteps; [|intros; by eapply orphan_step|done].
  destruct Hsteps as (_ & _ & y & Hy & _ & _ & Hl). simplify_eq.
  rewrite Hm in Hl. specialize (Hl m eq_refl). destruct Hfi as [Hfi _].
  destruct (ph x) as [| |u|u|u|u r|u r|r|m']; try done. assert (u = t) as -> by (pose proof (Hfi u eq_refl); congruence). done.
Qed.

(** ** A network that is not disturbed *)

Definition not_op (l : label) : bool := match l with LOp _ => false | _ => true end.

(** A request to a server that is up, over a network that was reliable when the
request was read. *)
Definition healthy (e : iface) (t : target) (w : world) (x : rstate) : Prop :=
  r_endname (rq x) = e ∧ is_enabled (net w) e = true ∧
  server_of (net w) (t_name t) = Some (t_server t) ∧ t_reliable t = true ∧
  match ph x with
  | PDeliver t' | PWait t' | PGot t' _ | PChecked t' _ => t' = t
  | PDelayed _ => True
  | PReplied m => rp_ok m = true
  | PStart | PLost | PGaveUp _ => False
  end.

Lemma rstep_healthy e t w x l rn h x' rs :
  rstep w x l = Some (Ok (rn, h, x')) → healthy e t w x → healthy e t (mkWorld rn h rs) x'.
Proof.
  intros H (He & Hen & Hs & Hr & Hp).
  destruct (rstep_net _ _ _ _ _ _ H) as (Een & Esv & _).
  assert (dead_for (net w) x t = false) as Hdead.
  { unfold dead_for, isServerDead. rewrite He, Hen, Hs. by rewrite bool_decide_eq_false_2 by tauto. }
  unfold healthy, is_enabled, server_of. simpl. rewrite Een, Esv.
  assert (r_endname (rq x') = r_endname (rq x) ∧
    match ph x' with
    | PDeliver t' | PWait t' | PGot t' _ | PChecked t' _ => t' = t
    | PDelayed _ => True
    | PReplied m => rp_ok m = true
    | PStart | PLost | PGaveUp _ => False
    end) as [-> ?]; [|done].
  destruct x as [q p hx n fd]. simpl in *.
  destruct p; try done; simplify_eq/=; destruct l; simpl in H; try done;
    rewrite ?Hdead, ?Hr in H; rstep_cases H; done.
Qed.

Lemma next_ok_step w l w' : next_ok w l = Some w' → next w l = Some (Ok w').
Proof. unfold next_ok. intros. repeat case_match; by simplify_eq. Qed.

Lemma healthy_next e t i w l w' x :
  next_ok w l = Some w' → not_op l = true → reqs w !! i = Some x → healthy e t w x →
  ∃ x', reqs w' !! i = Some x' ∧ healthy e t w' x'.
Proof.
  intros Hl%next_ok_step Hop Hx Hh.
  assert (∀ r, w' = mkWorld (add_bytes (add_count (net w)) (r_args r)) (heap w)
    (reqs w ++ [mkR r PStart HNone 0 None]) → ∃ x', reqs w' !! i = Some x' ∧ healthy e t w' x') as Hcall.
  { intros r ->. exists x. split; [by apply lookup_app_l_Some|done]. }
  destruct l as [op|r|j|j d|j|j r|j|j|j|j d d'|j]; cbn [next label_req] in Hl;
    [done|by simplify_eq; eapply Hcall|..];
    destruct (reqs w !! j) as [y|] eqn:Hj; try done;
    match type of Hl with context [rstep w y ?l] =>
      destruct (rstep w y l) as [[[[rn h] y']|]|] eqn:Hy; simplify_eq
    end; cbn [reqs];
    (destruct (decide (i = j)) as [->|Hne];
     [simplify_eq; exists y'; split;
       [apply list_lookup_insert_eq; by eapply lookup_lt_Some|by eapply rstep_healthy]
     |exists x; rewrite list_lookup_insert_ne by done; split; [done|];
      destruct (rstep_net _ _ _ _ _ _ Hy) as (Een & Esv & _);
      unfold healthy, is_enabled, server_of in *; simpl; by rewrite Een, Esv]).
Qed.

(** A reliable network loses nothing: a request that found its server while
the network was reliable is not answered with a failure as long as the network
is not changed, whatever the order of timers, long delays, other requests and
the handler. *)
Theorem reliable_no_failure w i x t ls w' x' m :
  reqs w !! i = Some x → ph x = PDeliver t → t_reliable t = true →
  is_enabled (net w) (r_endname (rq x)) = true →
  server_of (net w) (t_name t) = Some (t_server t) →
  Forall (λ l, not_op l = true) ls → run_labels next_ok w ls = Some w' →
  reqs w' !! i = Some x' → ph x' = PReplied m → rp_ok m = true.
Proof.
  intros Hx Hp Hr Hen Hs Hls Hrun Hx' Hm.
  assert (healthy (r_endname (rq x)) t w x) as Hh by (unfold healthy; by rewrite Hp).
  assert (∃ x'', reqs w' !! i = Some x'' ∧ healthy (r_endname (rq x)) t w' x'') as (y & Hy & Hhy).
  { clear Hx' Hm Hp Hen Hs. revert Hh. generalize (r_endname (rq x)) as e. intros e Hh.
    revert w x Hx Hh Hrun. induction Hls as [|l ls Hl _ IH]; intros w x Hx Hh Hrun; simplify_eq/=.
    - by eauto.
    - destruct (next_ok w l) as [w1|] eqn:Hw1; [|done].
      destruct (healthy_next e t i w l w1 x) as (x1 & Hx1 & Hh1); [done..|]. by eapply (IH w1 x1). }
  simplify_eq. destruct Hhy as (_ & _ & _ & _ & Hhp). by rewrite Hm in Hhp.
Qed.

(** One section of the last request. *)
Lemma next_ok_last rn h rs x l rn' h' x' :
  label_req l = Some (length rs) →
  rstep (mkWorld rn h (rs ++ [x])) x l = Some (Ok (rn', h', x')) →
  next_ok (mkWorld rn h (rs ++ [x])) l = Some (mkWorld rn' h' (rs ++ [x'])).
Proof.
  intros Hl Hx.
  assert ((rs ++ [x]) !! length rs = Some x) as Hlook by by apply list_lookup_middle.
  assert (<[length rs := x']> (rs ++ [x]) = rs ++ [x']) as Hins.
  { rewrite <-(Nat.add_0_r (length rs)) at 1. by rewrite insert_app_r. }
  destruct l; try discriminate Hl; injection Hl as ->; unfold next_ok; cbn [next label_req reqs];
    by rewrite Hlook, Hx, Hins.
Qed.

(** A request can be answered: a call through an enabled end connected to a
registered server, for a method the server has, can be carried through
to a successful answer with the reply of the handler, and the server counts it
once. *)
Lemma call_served w q s a rs rs' sm r :
  is_enabled (net w) (r_endname q) = true → connected_to (net w) (r_endname q) = Some s →
  server_of (net w) s = Some a → heap w !! a = Some rs →
  Server_dispatch rs (r_svcMeth q) = Ok (rs', sm) →
  let i := length (reqs w) in
  ∃ w' x', run_labels next_ok w
      [LCall q; LRead i; LSend i false; LDispatch i; LReturn i r; LRecv i; LCheck i;
       LFinal i false false]
    = Some w' ∧
    reqs w' !! i = Some x' ∧ ph x' = PReplied (mkReply true r) ∧ execs x' = 1 ∧
    heap w' !! a = Some rs' ∧ srv_count rs' = int64 (srv_count rs + 1).
Proof.
  intros Hen Hco Hs Ha Hd i. destruct w as [rn h rqs]. cbn [net heap reqs] in *.
  set (t := mkTarget s a (reliable rn) (longReordering rn)).
  assert (dead_for rn (mkR q (PGot t r) (HReturned r) 1 (Some t)) t = false) as Hdead.
  { unfold dead_for, isServerDead; simpl. rewrite Hen, Hs. by rewrite bool_decide_eq_false_2 by tauto. }
  eexists _, _. split_and!.
  - cbn [run_labels].
    unfold next_ok at 1. cbn [next net heap reqs]. unfold i.
    erewrite (next_ok_last _ _ rqs _ (LRead (length rqs)) _ _ (mkR q (PDeliver t) HNone 0 (Some t))) by
      (reflexivity ||
       (unfold rstep, find_target, readEndnameInfo; simpl;
        unfold is_enabled, connected_to, server_of in *; simpl; rewrite Hen, Hco; simpl; by rewrite Hs)).
    erewrite (next_ok_last _ _ rqs _ (LSend (length rqs) false)) by reflexivity.
    erewrite (next_ok_last _ _ rqs _ (LDispatch (length rqs))) by
      (reflexivity || (cbn [rstep hd net heap t_server t rq]; rewrite Ha, Hd; reflexivity)).
    erewrite (next_ok_last _ _ rqs _ (LReturn (length rqs) r)) by reflexivity.
    erewrite (next_ok_last _ _ rqs _ (LRecv (length rqs))) by reflexivity.
    erewrite (next_ok_last _ _ rqs _ (LCheck (length rqs)) _ _
        (mkR q (PChecked t r) (HReturned r) 1 (Some t))) by
      (reflexivity ||
       (unfold rstep; simpl; unfold dead_for, isServerDead, is_enabled, server_of in *;
        simpl in *; rewrite Hdead; reflexivity)).
    erewrite (next_ok_last _ _ rqs _ (LFinal (length rqs) false false)) by reflexivity.
    reflexivity.
  - by apply list_lookup_middle.
  - done.
  - done.
  - simpl. apply lookup_insert_eq.
  - unfold Server_dispatch in Hd. go_simp. by case_match; go_simp.
Qed.

(** ** Names of methods *)

(** A method is found by its name: a request for [svc.meth], where [meth]
has no dot, calls method [meth] of service [svc] exactly when the server has
that service and the service that method; otherwise the process ends. *)
Theorem dispatch_by_name rs svc meth :
  str_all (λ c, bool_decide (c ≠ dot_byte)) meth →
  Server_dispatch rs (svc +:+ String dot_byte meth) =
  match services rs !! svc with
  | Some s =>
      if decide (meth ∈ svc_methods s)
      then Ok (mkServer (services rs) (int64 (srv_count rs + 1)), (svc, meth))
      else Crash (FatalExit "labrpc.Service.dispatch(): unknown method")
  | None => Crash (FatalExit "labrpc.Server.dispatch(): unknown service")
  end.
Proof.
  intros Hm. unfold Server_dispatch. rewrite LastIndexByte_app, slice_to_app by done. simpl.
  replace (Z.of_nat (String.length svc) + 1)%Z
    with (Z.of_nat (String.length (svc +:+ String dot_byte "")))
    by (rewrite str_app_length; simpl; lia).
  replace (svc +:+ String dot_byte meth) with ((svc +:+ String dot_byte "") +:+ meth)
    by by rewrite str_app_assoc.
  rewrite slice_from_app. simpl. destruct (services rs !! svc) as [s|]; [|done].
  unfold Service_dispatch. by case_decide.
Qed.

(** A method name without a dot stops the process: the slice [svcMeth[:-1]]
is out of range. *)
Theorem dispatch_no_dot rs name :
  str_all (λ c, bool_decide (c ≠ dot_byte)) name →
  Server_dispatch rs name = Crash IndexOutOfRange.
Proof.
  intros Hn. unfold Server_dispatch. rewrite LastIndexByte_none by done.
  by rewrite slice_to_negative.
Qed.

Lemma MakeService_fold methods (s : gset string) m :
  m ∈ foldl (λ s m, if is_handler m then {[m_name m]} ∪ s else s) s methods ↔
  m ∈ s ∨ ∃ d, d ∈ methods ∧ is_handler d = true ∧ m_name d = m.
Proof.
  revert s. induction methods as [|d l IH]; intros s; simpl.
  { split; [by left|]. by intros [?|(d & ?%not_elem_of_nil & _)]. }
  rewrite IH. setoid_rewrite elem_of_cons. split.
  - intros [Hm|(d' & Hd' & Hh & Hn)]; [|by right; exists d'; auto].
    destruct (is_handler d) eqn:Hd; [|by left].
    apply elem_of_union in Hm as [->%elem_of_singleton|?]; [|by left].
    right. exists d. auto.
  - intros [Hm|(d' & [->|Hd'] & Hh & <-)].
    + left. destruct (is_handler d); [|done]. apply elem_of_union. by right.
    + left. rewrite Hh. apply elem_of_union. left. by apply elem_of_singleton.
    + right. by exists d'.
Qed.

(** [MakeService] offers exactly the methods that look like handlers. *)
Theorem MakeService_methods type_name methods m :
  m ∈ svc_methods (MakeService type_name methods) ↔
  ∃ d, d ∈ methods ∧ m_name d = m ∧ m_exported d = true ∧ m_numIn d = 3%Z ∧
    m_in2_ptr d = true ∧ m_numOut d = 0%Z.
Proof.
  unfold MakeService. simpl. rewrite MakeService_fold. unfold is_handler. split.
  - intros [?|(d & Hd & Hh & <-)]; [set_solver|]. exists d.
    rewrite !andb_true_iff, !bool_decide_eq_true in Hh. tauto.
  - intros (d & Hd & <- & Hh). right. exists d. split_and!; [done| |done].
    rewrite !andb_true_iff, !bool_decide_eq_true. tauto.
Qed.

(** ** Statistics *)

Definition is_LCall (l : label) : bool := match l with LCall _ => true | _ => false end.

Lemma rstep_count w x l rn h x' :
  rstep w x l = Some (Ok (rn, h, x')) → count rn = count (net w).
Proof.
  destruct x as [q p hx n fd]. intros H.
  destruct l; simpl in H; try done; destruct p; rstep_cases H; done.
Qed.

Lemma apply_op_count w op w' : apply_op w op = Some (Ok w') → count (net w') = count (net w).
Proof.
  destruct op; simpl; intros H; repeat case_decide; go_simp; try done;
    unfold MakeEnd, DeleteEnd, Cleanup in *; case_match; by go_simp.
Qed.

Lemma next_ok_count w l w' :
  next_ok w l = Some w' →
  count (net w') = if is_LCall l then int32 (count (net w) + 1) else count (net w).
Proof.
  intros Hl%next_ok_step. destruct l as [op|r|i|i d|i|i r|i|i|i|i d d'|i]; cbn [next label_req] in Hl.
  { by eapply apply_op_count. }
  { by simplify_eq. }
  all: destruct (reqs w !! i) as [x|]; try done;
    match type of Hl with context [rstep ?w ?x ?l] =>
      destruct (rstep w x l) as [[[[rn h] x']|]|] eqn:Hx; simplify_eq; by eapply rstep_count
    end.
Qed.

Lemma int32_succ z : int32 (int32 z + 1) = int32 (z + 1).
Proof.
  unfold int32, wrap_signed. f_equal.
  set (k := (2 ^ (32 - 1))%Z). set (b := (2 ^ 32)%Z).
  replace ((z + k) `mod` b - k + 1 + k)%Z with ((z + k) `mod` b + 1)%Z by lia.
  rewrite Zplus_mod_idemp_l. f_equal. lia.
Qed.

Definition calls (ls : list label) : nat := length (filter (λ l, is_LCall l = true) ls).

Lemma run_count ls w z w' :
  count (net w) = int32 z → run_labels next_ok w ls = Some w' →
  count (net w') = int32 (z + Z.of_nat (calls ls)).
Proof.
  unfold calls. revert w z. induction ls as [|l ls IH]; intros w z Hz Hrun; simplify_eq/=.
  { by rewrite Z.add_0_r. }
  destruct (next_ok w l) as [w1|] eqn:Hl; [|done].
  pose proof (next_ok_count _ _ _ Hl) as Hc. rewrite filter_cons.
  destruct (is_LCall l).
  - rewrite decide_True by done. simpl length.
    replace (z + Z.of_nat _)%Z
      with (z + 1 + Z.of_nat (length (filter (λ l, is_LCall l = true) ls)))%Z by lia.
    apply (IH w1); [|done]. by rewrite Hc, Hz, int32_succ.
  - rewrite decide_False by done. apply (IH w1); [congruence|done].
Qed.

(** [GetTotalCount] counts the requests the network has taken, as long as
there are fewer than 2^31 of them; then the 32-bit counter wraps. *)
Theorem total_count ls w :
  run_labels next_ok start ls = Some w →
  GetTotalCount (net w) = int32 (Z.of_nat (calls ls)) ∧
  (Z.of_nat (calls ls) < 2 ^ 31 → GetTotalCount (net w) = Z.of_nat (calls ls))%Z.
Proof.
  intros Hrun. unfold GetTotalCount.
  assert (count (net w) = int32 (Z.of_nat (calls ls))) as E.
  { by rewrite (run_count ls start 0 w) by done. }
  split; [done|]. intros Hk. rewrite E. apply wrap_signed_small; lia.
Qed.

(** [GetCount] of a server that was deleted dereferences a nil pointer. *)
Theorem GetCount_deleted rn h s :
  GetCount (DeleteServer rn s) h s = Crash NilDereference.
Proof.
  unfold GetCount, DeleteServer, server_of. simpl. by rewrite lookup_insert_eq.
Qed.

(** ** A small network *)

Definition demo_service : Service :=
  MakeService "Raft" [ {| m_name := "AppendEntries"; m_exported := true; m_numIn := 3;
                          m_in2_ptr := true; m_numOut := 0 |} ].
Definition demo_server : Server := AddService MakeServer demo_service.
Definition demo_req : reqMsg :=
  {| r_endname := IStr "e"; r_svcMeth := "Raft.AppendEntries"; r_args := "args" |}.
Definition demo_setup : list label :=
  [LOp (OpMakeEnd (IStr "e")); LOp (OpAddServer (IInt 0) 5 demo_server);
   LOp (OpConnect (IStr "e") (IInt 0)); LOp (OpEnable (IStr "e") true)].

Definition demo (ls : list label) : world := default start (run_labels next_ok start (demo_setup ++ ls)).

Lemma run_labels_reach ls w w' : run_labels next_ok w ls = Some w' → steps step w w'.
Proof.
  apply run_labels_steps. intros a l b Hl. exists l. by apply next_ok_step.
Qed.

Lemma demo_reach ls :
  is_Some (run_labels next_ok start (demo_setup ++ ls)) → steps step start (demo ls).
Proof.
  intros [w Hw]. unfold demo. rewrite Hw. by apply (run_labels_reach (demo_setup ++ ls)).
Qed.

Definition demo_answered : list label :=
  [LCall demo_req; LRead 0; LSend 0 false; LDispatch 0; LTick 0; LReturn 0 "yes"; LRecv 0; LCheck 0;
   LFinal 0 false false].

Lemma at_most_once_witness :
  ∃ x, reqs (demo demo_answered) !! 0 = Some x ∧ execs x ≤ 1.
Proof.
  eexists. split; [vm_compute; reflexivity|].
  refine (proj1 (at_most_once (demo demo_answered) 0 _ _ _)).
  - apply demo_reach. vm_compute. by eexists.
  - vm_compute. reflexivity.
Defined.

(** The server is replaced while the handler runs; and it is replaced while its
reply is put off by long reordering. *)
Definition demo_replace : list label :=
  [LOp (OpDeleteServer (IInt 0)); LOp (OpAddServer (IInt 0) 6 demo_server)].
Definition demo_replaced : list label :=
  [LCall demo_req; LRead 0; LSend 0 false; LDispatch 0] ++ demo_replace.
Definition demo_finish : list label := [LReturn 0 "yes"; LRecv 0; LCheck 0; LFinal 0 false false].
Definition demo_target : target := mkTarget (IInt 0) 5 true false.

Definition demo_late : list label :=
  [LOp (OpLongReordering true); LCall demo_req; LRead 0; LSend 0 false; LDispatch 0;
   LReturn 0 "yes"; LRecv 0; LCheck 0; LFinal 0 false true] ++ demo_replace.
Definition demo_late_target : target := mkTarget (IInt 0) 5 true true.

Lemma deleted_server_answers_witness :
  (∃ x' m, reqs (demo (demo_replaced ++ demo_finish)) !! 0 = Some x' ∧ ph x' = PReplied m ∧
     m = mkReply false "") ∧
  (∃ x' m, reqs (demo (demo_late ++ [LFire 0])) !! 0 = Some x' ∧ ph x' = PReplied m ∧
     m = mkReply true "yes").
Proof.
  split; eexists _, _; (split; [vm_compute; reflexivity|]; split; [reflexivity|]).
  - refine (deleted_server_answers (demo demo_replaced) 0
      (mkR demo_req (PWait demo_target) HStarted 1 (Some demo_target)) demo_target
      (demo (demo_replaced ++ demo_finish))
      (mkR demo_req failed (HReturned "yes") 1 (Some demo_target)) _ _ _ _ _ _ _ _).
    + apply demo_reach. vm_compute. by eexists.
    + vm_compute. reflexivity.
    + reflexivity.
    + vm_compute. intros H. discriminate H.
    + apply (run_labels_reach demo_finish). vm_compute. reflexivity.
    + vm_compute. reflexivity.
    + reflexivity.
  - refine (deleted_server_answers (demo demo_late) 0
      (mkR demo_req (PDelayed "yes") (HReturned "yes") 1 (Some demo_late_target)) demo_late_target
      (demo (demo_late ++ [LFire 0]))
      (mkR demo_req (PReplied (mkReply true "yes")) (HReturned "yes") 1 (Some demo_late_target))
      _ _ _ _ _ _ _ _).
    + apply demo_reach. vm_compute. by eexists.
    + vm_compute. reflexivity.
    + reflexivity.
    + vm_compute. intros H. discriminate H.
    + apply (run_labels_reach [LFire 0]). vm_compute. reflexivity.
    + vm_compute. reflexivity.
    + reflexivity.
Defined.

Lemma reliable_no_failure_witness :
  ∃ x' m, reqs (demo demo_answered) !! 0 = Some x' ∧ ph x' = PReplied m ∧ rp_ok m = true.
Proof.
  eexists _, _. split; [vm_compute; reflexivity|]. split; [reflexivity|].
  apply (reliable_no_failure (demo [LCall demo_req; LRead 0]) 0
    (mkR demo_req (PDeliver demo_target) HNone 0 (Some demo_target)) demo_target
    [LSend 0 false; LDispatch 0; LTick 0; LReturn 0 "yes"; LRecv 0; LCheck 0; LFinal 0 false false]
    (demo demo_answered)
    (mkR demo_req (PReplied (mkReply true "yes")) (HReturned "yes") 1 (Some demo_target)));
  try (vm_compute; reflexivity). repeat constructor.
Defined.

Lemma call_served_witness :
  ∃ w' x', run_labels next_ok (demo [])
      [LCall demo_req; LRead 0; LSend 0 false; LDispatch 0; LReturn 0 "yes"; LRecv 0; LCheck 0;
       LFinal 0 false false] = Some w' ∧
    reqs w' !! 0 = Some x' ∧ ph x' = PReplied (mkReply true "yes") ∧ execs x' = 1 ∧
    heap w' !! 5 = Some (mkServer (services demo_server) 1) ∧ srv_count (mkServer (services demo_server) 1) = int64 (srv_count demo_server + 1).
Proof.
  apply (call_served (demo []) demo_req (IInt 0) 5 demo_server
    (mkServer (services demo_server) 1) ("Raft", "AppendEntries") "yes"); vm_compute; reflexivity.
Defined.

Lemma dispatch_by_name_witness :
  Server_dispatch demo_server ("Raft" +:+ String dot_byte "AppendEntries")
  = Ok (mkServer (services demo_server) 1, ("Raft", "AppendEntries")).
Proof.
  rewrite (dispatch_by_name demo_server "Raft" "AppendEntries") by (vm_compute; exact I).
  vm_compute. reflexivity.
Defined.

Lemma dispatch_no_dot_witness :
  Server_dispatch demo_server "AppendEntries" = Crash IndexOutOfRange.
Proof. apply (dispatch_no_dot demo_server "AppendEntries"). vm_compute. exact I. Defined.

Lemma total_count_witness :
  GetTotalCount (net (demo demo_answered)) = 1%Z.
Proof.
  refine (proj2 (total_count (demo_setup ++ demo_answered) (demo demo_answered) _) _);
    vm_compute; reflexivity.
Defined.

End Labrpc.
