(* ===== verification/Persister.v ===== *)
(** * Stable storage of a Raft peer ([src/raft/persister.go])

A byte slice of Go is a view of an array in the heap, so two of them can share
their bytes.  [heap] holds the arrays, a [slice] is a view ([None] is nil), and
[clone], [Copy], [Save] and the readers are translated over them.  The callers
hold slices of their own, can write to them and hand them to [Save]; [step] is
one call of a method or one such write.  The theorem is that persisters behave
as values all the same: what one holds changes only by its own [Save]. *)

From S2P Require Import Prelude.
From stdpp Require Import options.

Module Persister.

Abbreviation byte := Byte.byte.
Abbreviation heap_t := (gmap nat (list byte)).

Record slice := mkSlice { base : nat; off : nat; slen : nat }.

Definition slice_len (s : option slice) : nat := match s with Some s => slen s | None => 0 end.

Definition array (h : heap_t) (a : nat) : list byte := default [] (h !! a).

Definition contents (h : heap_t) (s : option slice) : list byte :=
  match s with Some s => take (slen s) (drop (off s) (array h (base s))) | None => [] end.

(** [make([]byte, n)]. *)
Definition make_bytes (h : heap_t) (n : nat) : heap_t * slice :=
  let a := fresh (dom h) in (<[a := replicate n Byte.x00]> h, mkSlice a 0 n).

(** Overwrite the bytes of [s] from its start. *)
Definition write_bytes (h : heap_t) (s : slice) (bs : list byte) : heap_t :=
  let arr := array h (base s) in
  <[base s := take (off s) arr ++ bs ++ drop (off s + length bs) arr]> h.

(** The builtin [copy]: as many bytes as fit. *)
Definition copy_bytes (h : heap_t) (dst : slice) (src : option slice) : heap_t :=
  write_bytes h dst (take (slen dst) (contents h src)).

Record Persister := mkPersister { raftstate : option slice; snapshot : option slice }.

Definition MakePersister : Persister := mkPersister None None.

Definition clone (h : heap_t) (orig : option slice) : heap_t * slice :=
  let '(h, x) := make_bytes h (slice_len orig) in (copy_bytes h x orig, x).

Definition Copy (ps : Persister) : Persister := mkPersister (raftstate ps) (snapshot ps).

Definition ReadRaftState (h : heap_t) (ps : Persister) : heap_t * slice := clone h (raftstate ps).
Definition RaftStateSize (ps : Persister) : Z := Z.of_nat (slice_len (raftstate ps)).

Definition Save (h : heap_t) (ps : Persister) (raftstate snapshot : option slice)
    : heap_t * Persister :=
  let '(h, x) := clone h raftstate in
  let '(h, y) := clone h snapshot in
  (h, mkPersister (Some x) (Some y)).

Definition ReadSnapshot (h : heap_t) (ps : Persister) : heap_t * slice := clone h (snapshot ps).
Definition SnapshotSize (ps : Persister) : Z := Z.of_nat (slice_len (snapshot ps)).

(** ** Persisters and the slices their callers hold *)

Record world := mkWorld { heap : heap_t; pers : list Persister; held : list slice }.

Inductive op :=
| ONew (bs : list byte)              (* the caller allocates a slice *)
| OReslice (i : nat) (lo hi : nat)   (* the caller takes held[i][lo:hi] *)
| OWrite (i j : nat) (b : byte)      (* the caller writes held[i][j] *)
| OMakePersister
| OCopy (p : nat)
| OSave (p : nat) (rs sn : option nat)
| OReadRaftState (p : nat)
| OReadSnapshot (p : nat).

(** A slice argument: nil, or a slice the caller holds. *)
Definition arg (w : world) (i : option nat) : option (option slice) :=
  match i with None => Some None | Some i => Some <$> held w !! i end.

Definition step (w : world) (o : op) : option world :=
  match o with
  | ONew bs =>
      let a := fresh (dom (heap w)) in
      Some (mkWorld (<[a := bs]> (heap w)) (pers w) (held w ++ [mkSlice a 0 (length bs)]))
  | OReslice i lo hi =>
      s ← held w !! i;
      if decide (lo ≤ hi ≤ slen s) then
        Some (mkWorld (heap w) (pers w) (held w ++ [mkSlice (base s) (off s + lo) (hi - lo)]))
      else None
  | OWrite i j b =>
      s ← held w !! i;
      if decide (j < slen s) then
        Some (mkWorld (write_bytes (heap w) (mkSlice (base s) (off s + j) 1) [b]) (pers w) (held w))
      else None
  | OMakePersister => Some (mkWorld (heap w) (pers w ++ [MakePersister]) (held w))
  | OCopy p => ps ← pers w !! p; Some (mkWorld (heap w) (pers w ++ [Copy ps]) (held w))
  | OSave p rs sn =>
      ps ← pers w !! p; r ← arg w rs; s ← arg w sn;
      let '(h, ps) := Save (heap w) ps r s in Some (mkWorld h (<[p := ps]> (pers w)) (held w))
  | OReadRaftState p =>
      ps ← pers w !! p;
      let '(h, x) := ReadRaftState (heap w) ps in Some (mkWorld h (pers w) (held w ++ [x]))
  | OReadSnapshot p =>
      ps ← pers w !! p;
      let '(h, x) := ReadSnapshot (heap w) ps in Some (mkWorld h (pers w) (held w ++ [x]))
  end.

Definition start : world := mkWorld ∅ [] [].

(** ** The specification: persisters as values *)

Abbreviation stored := (list (list byte * list byte)).

Definition stored_of (h : heap_t) (ps : Persister) : list byte * list byte :=
  (contents h (raftstate ps), contents h (snapshot ps)).
Definition abs (w : world) : stored := stored_of (heap w) <$> pers w.

Definition arg_contents (w : world) (i : option nat) : list byte :=
  match i with None => [] | Some i => contents (heap w) (held w !! i) end.

Definition spec_step (w : world) (st : stored) (o : op) : stored :=
  match o with
  | OMakePersister => st ++ [([], [])]
  | OCopy p => st ++ option_list (st !! p)
  | OSave p rs sn => <[p := (arg_contents w rs, arg_contents w sn)]> st
  | ONew _ | OReslice _ _ _ | OWrite _ _ _ | OReadRaftState _ | OReadSnapshot _ => st
  end.

(** What a reader returned: the contents of the last slice the caller holds. *)
Definition returned (w : world) : list byte := contents (heap w) (last (held w)).

Definition read_ok (st : stored) (w' : world) (o : op) : Prop :=
  match o with
  | OReadRaftState p => st !! p ≫= (λ v, Some v.1) = Some (returned w')
  | OReadSnapshot p => st !! p ≫= (λ v, Some v.2) = Some (returned w')
  | _ => True
  end.

(** ** Slices *)

(** The view lies inside its array. *)
Definition slice_ok (h : heap_t) (s : slice) : Prop :=
  ∃ arr, h !! base s = Some arr ∧ off s + slen s ≤ length arr.
Definition oslice_ok (h : heap_t) (s : option slice) : Prop := from_option (slice_ok h) True s.

Definition bases (s : option slice) : gset nat := match s with Some s => {[base s]} | None => ∅ end.

Lemma contents_length h s : oslice_ok h s → length (contents h s) = slice_len s.
Proof.
  destruct s as [s|]; [|done]. intros (arr & Harr & Hl). simpl. unfold array. rewrite Harr. simpl.
  rewrite length_take, length_drop. lia.
Qed.

Lemma contents_insert h s a bs :
  a ∉ bases s → contents (<[a := bs]> h) s = contents h s.
Proof.
  destruct s as [s|]; [|done]. simpl. intros Ha. unfold array.
  rewrite lookup_insert_ne; [done|]. set_solver.
Qed.

Lemma slice_ok_insert h s a bs :
  slice_ok h s → (∀ arr, h !! a = Some arr → length arr = length bs) → slice_ok (<[a := bs]> h) s.
Proof.
  intros (arr & Harr & Hl) Hlen. unfold slice_ok. rewrite lookup_insert. case_decide as Hd.
  - exists bs. split; [done|]. rewrite <-(Hlen arr); [done|]. by rewrite Hd.
  - by exists arr.
Qed.

Lemma fresh_lookup (h : heap_t) : h !! fresh (dom h) = None.
Proof. apply not_elem_of_dom. apply is_fresh. Qed.

Lemma oslice_ok_bases h s : oslice_ok h s → bases s ⊆ dom h.
Proof.
  destruct s as [s|]; [|set_solver]. intros (arr & Harr & _). simpl.
  apply elem_of_dom_2 in Harr. set_solver.
Qed.

(** A clone is a new array with the bytes of the original. *)
Lemma clone_spec h orig :
  oslice_ok h orig →
  let a := fresh (dom h) in
  clone h orig = (<[a := contents h orig]> h, mkSlice a 0 (slice_len orig)).
Proof.
  intros Hok a. pose proof (oslice_ok_bases h orig Hok) as Hb.
  assert (a ∉ bases orig) as Ha by (intros ?%Hb; by apply (is_fresh (dom h))).
  unfold clone, make_bytes. fold a. cbn [fst snd]. f_equal.
  unfold copy_bytes, write_bytes. cbn [base off slen].
  rewrite contents_insert by done. unfold array. rewrite lookup_insert_eq. simpl.
  rewrite insert_insert_eq. f_equal.
  rewrite take_ge by by rewrite contents_length.
  rewrite contents_length by done. by rewrite drop_replicate, Nat.sub_diag, app_nil_r.
Qed.

Lemma contents_new h a bs : contents (<[a := bs]> h) (Some (mkSlice a 0 (length bs))) = bs.
Proof. simpl. unfold array. rewrite lookup_insert_eq. simpl. by rewrite firstn_all. Qed.

(** ** The invariant: persisters and callers do not share arrays *)

Definition pers_bases (ps : Persister) : gset nat := bases (raftstate ps) ∪ bases (snapshot ps).

Record inv (w : world) : Prop := {
  held_ok : ∀ s, s ∈ held w → slice_ok (heap w) s;
  pers_ok : ∀ ps, ps ∈ pers w → oslice_ok (heap w) (raftstate ps) ∧ oslice_ok (heap w) (snapshot ps);
  apart : ∀ s ps, s ∈ held w → ps ∈ pers w → base s ∉ pers_bases ps }.

Lemma pers_bases_dom w ps : inv w → ps ∈ pers w → pers_bases ps ⊆ dom (heap w).
Proof.
  intros Hw Hps. destruct (pers_ok _ Hw _ Hps) as [H1%oslice_ok_bases H2%oslice_ok_bases].
  unfold pers_bases. set_solver.
Qed.

Lemma stored_insert w ps a bs :
  a ∉ pers_bases ps → stored_of (<[a := bs]> (heap w)) ps = stored_of (heap w) ps.
Proof.
  unfold pers_bases, stored_of. intros Ha.
  by rewrite !contents_insert by set_solver.
Qed.

(** Storing an array that no persister uses changes no persister. *)
Lemma abs_insert w a bs :
  (∀ ps, ps ∈ pers w → a ∉ pers_bases ps) → stored_of (<[a := bs]> (heap w)) <$> pers w = abs w.
Proof.
  intros Ha. apply list_fmap_ext. intros i ps Hps%list_elem_of_lookup_2.
  apply stored_insert. by apply Ha.
Qed.

Lemma fresh_apart w ps : inv w → ps ∈ pers w → fresh (dom (heap w)) ∉ pers_bases ps.
Proof. intros Hw Hps ?%(pers_bases_dom w ps Hw Hps). by apply (is_fresh (dom (heap w))). Qed.

Lemma oslice_ok_insert h s a bs :
  oslice_ok h s → (∀ arr, h !! a = Some arr → length arr = length bs) →
  oslice_ok (<[a := bs]> h) s.
Proof. destruct s; [|done]. apply slice_ok_insert. Qed.

(** A new array, with the slice the caller holds of it. *)
Lemma inv_alloc w bs :
  inv w →
  inv (mkWorld (<[fresh (dom (heap w)) := bs]> (heap w)) (pers w)
         (held w ++ [mkSlice (fresh (dom (heap w))) 0 (length bs)])).
Proof.
  intros Hw. set (a := fresh (dom (heap w))).
  assert (∀ arr, heap w !! a = Some arr → length arr = length bs) as Hfresh.
  { unfold a. by rewrite fresh_lookup. }
  split; simpl.
  - intros s [Hs| ->%list_elem_of_singleton]%elem_of_app.
    + apply slice_ok_insert; [by apply Hw|done].
    + exists bs. simpl. by rewrite lookup_insert_eq.
  - intros ps Hps. destruct (pers_ok _ Hw _ Hps). by split; apply oslice_ok_insert.
  - intros s ps [Hs| ->%list_elem_of_singleton]%elem_of_app Hps.
    + by apply Hw.
    + by apply fresh_apart.
Qed.

Lemma held_lookup w i s : held w !! i = Some s → s ∈ held w.
Proof. apply list_elem_of_lookup_2. Qed.

Lemma inv_reslice w i lo hi w' : inv w → step w (OReslice i lo hi) = Some w' → inv w'.
Proof.
  intros Hw Hs. simpl in Hs. destruct (held w !! i) as [s|] eqn:Hi; simplify_eq/=.
  case_decide as Hd; simplify_eq. apply held_lookup in Hi.
  split; simpl; [|apply Hw|].
  - intros x [Hx| ->%list_elem_of_singleton]%elem_of_app; [by apply Hw|].
    destruct (held_ok _ Hw _ Hi) as (arr & Harr & Hl). exists arr. simpl. split; [done|lia].
  - intros x ps [Hx| ->%list_elem_of_singleton]%elem_of_app Hps;
      [by apply (apart _ Hw)|by apply (apart _ Hw s)].
Qed.

Lemma write_length k (b : byte) arr :
  k + 1 ≤ length arr → length (take k arr ++ [b] ++ drop (k + 1) arr) = length arr.
Proof. intros Hl. rewrite !length_app, length_take, length_drop. simpl. lia. Qed.

Lemma inv_write w i j b w' : inv w → step w (OWrite i j b) = Some w' → inv w' ∧ abs w' = abs w.
Proof.
  intros Hw Hs. simpl in Hs. destruct (held w !! i) as [s|] eqn:Hi; simplify_eq/=.
  case_decide as Hd; simplify_eq. apply held_lookup in Hi.
  destruct (held_ok _ Hw _ Hi) as (arr & Harr & Hl).
  unfold write_bytes, array. cbn [base off]. rewrite Harr. cbn [default from_option id length].
  assert (∀ arr', heap w !! base s = Some arr' →
    length arr' = length (take (off s + j) arr ++ [b] ++ drop (off s + j + 1) arr)) as Hlen.
  { intros arr' Harr'. simplify_eq.
    by rewrite write_length by lia. }
  split; [split; simpl|].
  - intros x Hx. apply slice_ok_insert; [by apply Hw|done].
  - intros ps Hps. destruct (pers_ok _ Hw _ Hps). by split; apply oslice_ok_insert.
  - apply (apart _ Hw).
  - apply (abs_insert w). intros ps Hps. by apply (apart _ Hw).
Qed.

Lemma inv_pers w ps :
  inv w → (oslice_ok (heap w) (raftstate ps) ∧ oslice_ok (heap w) (snapshot ps)) →
  (∀ s, s ∈ held w → base s ∉ pers_bases ps) →
  inv (mkWorld (heap w) (pers w ++ [ps]) (held w)).
Proof.
  intros Hw Hok Hap. split; simpl; [apply Hw|..].
  - intros x [Hx| ->%list_elem_of_singleton]%elem_of_app; [by apply Hw|done].
  - intros s x Hs [Hx| ->%list_elem_of_singleton]%elem_of_app; [by apply Hw|by apply Hap].
Qed.

(** Reading through [clone]. *)
Lemma inv_clone w o h x :
  inv w → oslice_ok (heap w) o → clone (heap w) o = (h, x) →
  let w' := mkWorld h (pers w) (held w ++ [x]) in
  inv w' ∧ abs w' = abs w ∧ returned w' = contents (heap w) o.
Proof.
  intros Hw Ho. rewrite clone_spec by done. intros ?. simplify_eq. simpl.
  rewrite <-(contents_length (heap w) o Ho). split_and!.
  - by apply inv_alloc.
  - apply (abs_insert w). intros. by apply fresh_apart.
  - unfold returned. simpl. rewrite last_snoc. apply contents_new.
Qed.

Lemma arg_ok w i o : inv w → arg w i = Some o →
  oslice_ok (heap w) o ∧ contents (heap w) o = arg_contents w i.
Proof.
  intros Hw. destruct i as [i|]; simpl.
  - destruct (held w !! i) as [s|] eqn:Hi; [|done]. intros ?. simplify_eq/=. split; [|done].
    apply Hw. by eapply held_lookup.
  - intros. by simplify_eq.
Qed.

(** [Save] stores the bytes of its arguments in two new arrays. *)
Lemma Save_spec w ps r s :
  inv w → oslice_ok (heap w) r → oslice_ok (heap w) s →
  ∃ a b, (a ∉ dom (heap w)) ∧ (b ∉ dom (heap w)) ∧ a ≠ b ∧
    Save (heap w) ps r s =
      (<[b := contents (heap w) s]> (<[a := contents (heap w) r]> (heap w)),
       mkPersister (Some (mkSlice a 0 (length (contents (heap w) r))))
                   (Some (mkSlice b 0 (length (contents (heap w) s))))).
Proof.
  intros Hw Hr Hs. set (a := fresh (dom (heap w))).
  set (h := <[a := contents (heap w) r]> (heap w)). exists a, (fresh (dom h)).
  assert (a ∉ dom (heap w)) as Ha by apply is_fresh.
  pose proof (is_fresh (dom h)) as Hb. unfold h in Hb at 2. rewrite dom_insert in Hb.
  split_and!; [done|set_solver|set_solver|].
  unfold Save. rewrite clone_spec by done. cbn [fst snd]. fold a h.
  assert (contents h s = contents (heap w) s) as E.
  { apply contents_insert. intros ?%(oslice_ok_bases _ _ Hs). by apply Ha. }
  rewrite clone_spec.
  - by rewrite E, !contents_length.
  - apply oslice_ok_insert; [done|]. unfold a. by rewrite fresh_lookup.
Qed.

Lemma inv_save w p rs sn w' :
  inv w → step w (OSave p rs sn) = Some w' →
  inv w' ∧ abs w' = <[p := (arg_contents w rs, arg_contents w sn)]> (abs w).
Proof.
  intros Hw Hs. cbn [step] in Hs. destruct (pers w !! p) as [ps|] eqn:Hp; [|done]. cbn [mbind option_bind] in Hs.
  destruct (arg w rs) as [r|] eqn:Hr; [|done]. destruct (arg w sn) as [s|] eqn:Hsn; [|done].
  cbn [mbind option_bind] in Hs.
  destruct (arg_ok w rs r Hw Hr) as [Hrok <-]. destruct (arg_ok w sn s Hw Hsn) as [Hsok <-].
  destruct (Save_spec w ps r s Hw Hrok Hsok) as (a & b & Ha & Hb & Hab & E).
  rewrite E in Hs. simplify_eq.
  assert (∀ x, oslice_ok (heap w) x → oslice_ok
    (<[b := contents (heap w) s]> (<[a := contents (heap w) r]> (heap w))) x) as Hok.
  { intros x Hx. apply oslice_ok_insert; [apply oslice_ok_insert; [done|]|].
    - rewrite (not_elem_of_dom_1 _ _ Ha). done.
    - rewrite lookup_insert_ne, (not_elem_of_dom_1 _ _ Hb) by done. done. }
  assert (∀ q, q ∈ pers w → (a ∉ pers_bases q) ∧ (b ∉ pers_bases q)) as Hapart.
  { intros q Hq. pose proof (pers_bases_dom w q Hw Hq). set_solver. }
  split; [split; simpl|].
  - intros x Hx. apply (Hok (Some x)). by apply Hw.
  - intros q [->|Hq]%elem_of_insert_inv; [split|].
    + exists (contents (heap w) r). simpl. by rewrite lookup_insert_ne, lookup_insert_eq by done.
    + exists (contents (heap w) s). simpl. by rewrite lookup_insert_eq.
    + destruct (pers_ok _ Hw _ Hq). auto.
  - intros x q Hx [->|Hq]%elem_of_insert_inv; [|by apply (apart _ Hw)].
    destruct (held_ok _ Hw _ Hx) as (arr & Harr%elem_of_dom_2 & _).
    unfold pers_bases. simpl. set_solver.
  - unfold abs. simpl. rewrite list_fmap_insert. f_equal.
    + unfold stored_of. cbn [raftstate snapshot]. rewrite contents_new.
      rewrite contents_insert by (simpl; set_solver). by rewrite contents_new.
    + apply list_fmap_ext. intros i q Hq%list_elem_of_lookup_2. destruct (Hapart q Hq).
      pose proof (stored_insert (mkWorld (<[a := contents (heap w) r]> (heap w)) [] []) q b
        (contents (heap w) s)) as E1. simpl in E1. rewrite E1 by done. by apply stored_insert.
Qed.

Lemma step_refines w o w' :
  inv w → step w o = Some w' → inv w' ∧ abs w' = spec_step w (abs w) o ∧ read_ok (abs w) w' o.
Proof.
  intros Hw Hs. destruct o as [bs|i lo hi|i j b| |p|p rs sn|p|p].
  - cbn [step] in Hs. injection Hs as <-. split; [by apply inv_alloc|]. split; [|done].
    apply (abs_insert w). intros. by apply fresh_apart.
  - split; [by eapply inv_reslice|]. split; [|done]. simpl in Hs.
    destruct (held w !! i); simplify_eq/=. case_decide; by simplify_eq.
  - destruct (inv_write _ _ _ _ _ Hw Hs). done.
  - cbn [step] in Hs. injection Hs as <-. split; [by apply inv_pers|]. split; [|done].
    unfold abs. simpl. by rewrite fmap_app.
  - cbn [step] in Hs. destruct (pers w !! p) as [ps|] eqn:Hp; [|done]. simplify_eq/=.
    pose proof (list_elem_of_lookup_2 _ _ _ Hp) as Hin. split; [|split; [|done]].
    + apply inv_pers; [done|exact (pers_ok _ Hw ps Hin)|]. intros s Hs. by apply (apart _ Hw s ps).
    + unfold abs. simpl. by rewrite fmap_app, list_lookup_fmap, Hp.
  - destruct (inv_save _ _ _ _ _ Hw Hs). done.
  - cbn [step] in Hs. destruct (pers w !! p) as [ps|] eqn:Hp; [|done]. cbn [mbind option_bind] in Hs.
    destruct (ReadRaftState (heap w) ps) as [h x] eqn:E. simplify_eq.
    pose proof (list_elem_of_lookup_2 _ _ _ Hp) as Hin.
    destruct (inv_clone w (raftstate ps) h x) as (? & ? & Hret); [done|apply (pers_ok _ Hw ps Hin)|done|].
    split_and!; [done..|]. cbn [read_ok]. rewrite Hret. unfold abs. by rewrite list_lookup_fmap, Hp.
  - cbn [step] in Hs. destruct (pers w !! p) as [ps|] eqn:Hp; [|done]. cbn [mbind option_bind] in Hs.
    destruct (ReadSnapshot (heap w) ps) as [h x] eqn:E. simplify_eq.
    pose proof (list_elem_of_lookup_2 _ _ _ Hp) as Hin.
    destruct (inv_clone w (snapshot ps) h x) as (? & ? & Hret); [done|apply (pers_ok _ Hw ps Hin)|done|].
    split_and!; [done..|]. cbn [read_ok]. rewrite Hret. unfold abs. by rewrite list_lookup_fmap, Hp.
Qed.

Lemma run_inv ls w : run_labels step start ls = Some w → inv w.
Proof.
  intros Hrun. apply (steps_invariant (λ a b, ∃ o, step a o = Some b) inv start w).
  - intros a b Ha [o Ho]. by eapply step_refines.
  - split; simpl; by intros ? ?%not_elem_of_nil || intros ?? ?%not_elem_of_nil.
  - apply (run_labels_steps step _ ls); [|done]. intros a o b ?. by exists o.
Qed.

(** C24. Persisters are values: after any sequence of calls, and of writes by the
callers to the slices they hold, a further call changes what the persisters hold
exactly as if each held two byte strings of its own ([Save] stores the bytes its
arguments have at that moment, [Copy] makes another persister with the same
bytes, nothing else changes any persister), and the readers return the bytes
that are stored. *)
Theorem persisters_are_values ls w o w' :
  run_labels step start ls = Some w → step w o = Some w' →
  abs w' = spec_step w (abs w) o ∧ read_ok (abs w) w' o.
Proof. intros Hw%run_inv Hs. by destruct (step_refines w o w' Hw Hs). Qed.

Definition demo_ops : list op :=
  [OMakePersister; ONew [Byte.x01; Byte.x02]; OSave 0 (Some 0) None; OCopy 0; OWrite 0 1 Byte.x09;
   OSave 0 (Some 0) (Some 0)].
Definition demo (ops : list op) : world := default start (run_labels step start ops).
Definition demo_read : world := demo (demo_ops ++ [OReadRaftState 1]).

Lemma persisters_are_values_witness :
  abs demo_read = [([Byte.x01; Byte.x09], [Byte.x01; Byte.x09]); ([Byte.x01; Byte.x02], [])] ∧
  Some (returned demo_read) = Some [Byte.x01; Byte.x02].
Proof.
  destruct (persisters_are_values demo_ops (demo demo_ops) (OReadRaftState 1) demo_read) as [E R];
    [vm_compute; reflexivity|vm_compute; reflexivity|].
  rewrite E. split; [vm_compute; reflexivity|]. rewrite <-R. vm_compute. reflexivity.
Defined.

End Persister.
