(* ===== verification/RaftPeer.v ===== *)
(** * The visible part of a Raft peer ([src/raft/raft.go])

Most of [raft.go] is left out of the repository; this file models what is
there: the data types, the log accessors, the channels and the kill switch. *)

From S2P Require Import Prelude Persister.
From stdpp Require Import options.

Module RaftPeer.

(** A message on [applyCh]; [C] is what a command can be. *)
Record ApplyMsg (C : Type) := mkApplyMsg {
  CommandValid : bool;
  Command : C;
  CommandIndex : Z;
  SnapshotValid : bool;
  Snapshot : list Byte.byte;
  SnapshotTerm : Z;
  SnapshotIndex : Z }.
Arguments mkApplyMsg {C} _ _ _ _ _ _ _.
Arguments CommandValid {C} _.
Arguments Command {C} _.
Arguments CommandIndex {C} _.
Arguments SnapshotValid {C} _.
Arguments Snapshot {C} _.
Arguments SnapshotTerm {C} _.
Arguments SnapshotIndex {C} _.

Record LogEntry (C : Type) := mkEntry { Term : Z; EntryCommand : C }.
Arguments mkEntry {C} _ _.
Arguments Term {C} _.
Arguments EntryCommand {C} _.

Inductive State := Leader | Candidate | Follower.

(** An unbuffered channel of booleans: its identity, and how many goroutines are
waiting to receive from it. *)
Record chan_bool := mkChan { chan_id : nat; receivers : nat }.

Record Raft (C : Type) := mkRaft {
  persister : Persister.Persister;  (* what the pointer refers to *)
  me : Z;
  dead : Z;
  currentTerm : Z;
  votedFor : Z;
  logs : list (LogEntry C);
  commitIndex : Z;
  lastApplied : Z;
  nextIndex : list Z;
  matchIndex : list Z;
  state : State;
  voteCount : Z;
  winElectCh : chan_bool;
  stepDownCh : chan_bool;
  grantVoteCh : chan_bool;
  heartbeatCh : chan_bool;
  snapLastIndex : Z;
  snapLastTerm : Z }.
Arguments mkRaft {C} _ _ _ _ _ _ _ _ _ _ _ _ _ _ _ _ _ _.
Arguments persister {C} _.
Arguments me {C} _.
Arguments dead {C} _.
Arguments currentTerm {C} _.
Arguments votedFor {C} _.
Arguments logs {C} _.
Arguments commitIndex {C} _.
Arguments lastApplied {C} _.
Arguments nextIndex {C} _.
Arguments matchIndex {C} _.
Arguments state {C} _.
Arguments voteCount {C} _.
Arguments winElectCh {C} _.
Arguments stepDownCh {C} _.
Arguments grantVoteCh {C} _.
Arguments heartbeatCh {C} _.
Arguments snapLastIndex {C} _.
Arguments snapLastTerm {C} _.

Section peer.
Context {C : Type}.
Implicit Types rf : Raft C.

Definition GetRaftStateSize rf : Z := Persister.RaftStateSize (persister rf).
Definition ReadSnapshot (h : gmap nat (list Byte.byte)) rf : gmap nat (list Byte.byte) * Persister.slice :=
  Persister.ReadSnapshot h (persister rf).

Definition getLastIndex rf : Z := int64 (int64 (len (logs rf) - 1) + snapLastIndex rf).

Definition getLastTerm rf : outcome Z :=
  let* e := index (logs rf) (int64 (getLastIndex rf - snapLastIndex rf)) in Ok (Term e).

(** [r] is what [rand.Intn(40)] returned. *)
Definition getElectionTimeout (r : Z) : Z := 120 + r.

(** A send in a [select] with a default branch: the value is delivered when a
goroutine is waiting for it, and dropped otherwise. *)
Definition sendToChannel (ch : chan_bool) (value : bool) : chan_bool * option bool :=
  match receivers ch with
  | S n => (mkChan (chan_id ch) n, Some value)
  | O => (ch, None)
  end.

Definition Kill rf : Raft C :=
  mkRaft (persister rf) (me rf) 1 (currentTerm rf) (votedFor rf) (logs rf) (commitIndex rf)
    (lastApplied rf) (nextIndex rf) (matchIndex rf) (state rf) (voteCount rf) (winElectCh rf)
    (stepDownCh rf) (grantVoteCh rf) (heartbeatCh rf) (snapLastIndex rf) (snapLastTerm rf).

Definition killed rf : bool := bool_decide (dead rf = 1)%Z.

(** Four new channels; [c] is the first identity that is not in use. *)
Definition resetChannels (c : nat) rf : Raft C :=
  mkRaft (persister rf) (me rf) (dead rf) (currentTerm rf) (votedFor rf) (logs rf) (commitIndex rf)
    (lastApplied rf) (nextIndex rf) (matchIndex rf) (state rf) (voteCount rf) (mkChan c 0)
    (mkChan (c + 1) 0) (mkChan (c + 2) 0) (mkChan (c + 3) 0) (snapLastIndex rf) (snapLastTerm rf).

(** The index of a log that was compacted up to [snapLastIndex]: whatever the
snapshot index, even where the sum wraps around, [getLastTerm] reads the last
entry that is in memory; it panics exactly when the log has no entry, not even
the one that stands for the snapshot. *)
Lemma getLastTerm_last rf :
  (len (logs rf) ≤ 2 ^ 63)%Z →
  getLastTerm rf = match last (logs rf) with
                   | Some e => Ok (Term e)
                   | None => Crash IndexOutOfRange
                   end.
Proof.
  intros Hlen. unfold getLastTerm, getLastIndex.
  assert (int64 (int64 (int64 (len (logs rf) - 1) + snapLastIndex rf) - snapLastIndex rf)
          = len (logs rf) - 1)%Z as ->.
  { pose proof (len_nonneg (logs rf)).
    assert (int64 (len (logs rf) - 1) = len (logs rf) - 1)%Z as E by (apply wrap_signed_small; lia).
    rewrite E. rewrite <-E at 2. unfold int64, wrap_signed. f_equal.
    generalize (len (logs rf) - 1)%Z (snapLastIndex rf) (2 ^ (64 - 1))%Z (2 ^ 64)%Z. intros n s k b.
    replace ((n + s + k) `mod` b - k - s + k)%Z with ((n + s + k) `mod` b - s)%Z by lia.
    rewrite Zminus_mod_idemp_l. f_equal. lia. }
  destruct (logs rf) as [|e l _] eqn:E using rev_ind; [done|].
  rewrite last_snoc. unfold len. rewrite length_app. simpl.
  replace (Z.of_nat (length l + 1) - 1)%Z with (Z.of_nat (length l)) by lia.
  unfold index. rewrite decide_True by lia. rewrite Nat2Z.id.
  by rewrite list_lookup_middle.
Qed.

Lemma Kill_killed rf : killed (Kill rf) = true.
Proof. done. Qed.

End peer.

End RaftPeer.
