(* ===== verification/ShardCtrler.v ===== *)
(** * The shard controller ([src/shardctrler/{common,server,client}.go])

[ShardCtrler] is the state of one server.  Its goroutines are the one that
applies what Raft has agreed on ([runShardCtrler]) and one per request
([sendToRaftAndWait]); they meet in [indexChan], a channel of capacity one per
log index, under the mutex.  [next] is one atomic section of one of them.
Raft's answers ([Start], the messages on [applyCh]) and the timers are in the
labels.  The handlers that compute configurations, and the test that compares
two operations, are not part of the repository: they are the fields of the
class [Handlers].

The clerk's four calls retry until a server accepts; [retry] is the loop they
share, with the [k]-th RPC's result as a parameter. *)

From S2P Require Import Prelude RaftPeer.
From stdpp Require Import options.

Module ShardCtrler.

(** ** Data *)

Definition NShards : Z := 10.

Record Config := mkConfig { Num : Z; Shards : list Z; Groups : gmap Z (list string) }.

Definition zero_config : Config := mkConfig 0 (replicate (Z.to_nat NShards) 0%Z) ∅.

(** A [time.Time] is its instant in nanoseconds. *)
Record Op := mkOp {
  Command : string;
  ArgsJoin : gmap Z (list string);
  ArgsLeave : list Z;
  ArgsMoveShard : Z;
  ArgsMoveGid : Z;
  ArgsQuery : Z;
  ReplyQuery : Config;
  ClientId : Z;
  TimeStamp : Z }.

Record JoinArgs := mkJoinArgs { j_Servers : gmap Z (list string); j_ClientId : Z; j_TimeStamp : Z }.
Record LeaveArgs := mkLeaveArgs { l_GIDs : list Z; l_ClientId : Z; l_TimeStamp : Z }.
Record MoveArgs := mkMoveArgs { m_Shard : Z; m_GID : Z; m_ClientId : Z; m_TimeStamp : Z }.
Record QueryArgs := mkQueryArgs { q_Num : Z; q_ClientId : Z; q_TimeStamp : Z }.

(** [JoinReply], [LeaveReply] and [MoveReply] have the same fields. *)
Record AckReply := mkAckReply { a_WrongLeader : bool; a_Err : string }.
Record QueryReply := mkQueryReply { q_WrongLeader : bool; q_Err : string; q_Config : Config }.

Class Handlers := {
  handleJoin : list Config → Op → list Config * Op;
  handleLeave : list Config → Op → list Config * Op;
  handleMove : list Config → Op → list Config * Op;
  handleQuery : list Config → Op → list Config * Op;
  isOpMatched : Op → Op → bool }.

(** The buffer of a channel of capacity one is an [option]; a channel is never
removed from [indexChan] or replaced, so its index names it. *)
Record ShardCtrler := mkSC {
  me : Z;
  rf_dead : Z;
  dead : Z;
  configs : list Config;
  cache : gmap Z Z;
  indexChan : gmap Z (option Op) }.

Definition set_indexChan (sc : ShardCtrler) (ic : gmap Z (option Op)) : ShardCtrler :=
  mkSC (me sc) (rf_dead sc) (dead sc) (configs sc) (cache sc) ic.

Definition Kill (sc : ShardCtrler) : ShardCtrler :=
  mkSC (me sc) 1 (dead sc) (configs sc) (cache sc) (indexChan sc).

Definition killed (sc : ShardCtrler) : bool := bool_decide (dead sc = 1)%Z.

Definition StartServer (me : Z) : outcome ShardCtrler :=
  let* cs := make_slice 1 zero_config in
  let* c := index cs 0 in
  let* shards := for_each (λ s i, set_index s i 0%Z) (range NShards) (Shards c) in
  let* cs := set_index cs 0 (mkConfig 0 shards ∅) in
  Ok (mkSC me 0 0 cs ∅ ∅).

Section server.
Context `{Handlers}.

(** ** Applying one operation *)

(** The [switch] on the command. *)
Definition run_command (cs : list Config) (op : Op) : list Config * Op :=
  if decide (Command op = "Join") then handleJoin cs op
  else if decide (Command op = "Leave") then handleLeave cs op
  else if decide (Command op = "Move") then handleMove cs op
  else if decide (Command op = "Query") then handleQuery cs op
  else (cs, op).

(** Run the operation unless one of the client with this time stamp or a later
one was run before. *)
Definition apply_op (sc : ShardCtrler) (op : Op) : ShardCtrler * Op :=
  if match cache sc !! ClientId op with
     | None => true
     | Some lastTime => bool_decide (lastTime < TimeStamp op)%Z
     end
  then
    let '(cs, op') := run_command (configs sc) op in
    (mkSC (me sc) (rf_dead sc) (dead sc) cs (<[ClientId op := TimeStamp op]> (cache sc))
       (indexChan sc), op')
  else (sc, op).

(** Make the channel of an index if it does not exist. *)
Definition ensure_chan (sc : ShardCtrler) (index : Z) : ShardCtrler :=
  match indexChan sc !! index with
  | Some _ => sc
  | None => set_indexChan sc (<[index := None]> (indexChan sc))
  end.

(** Where the goroutine of [runShardCtrler] is.  When it is blocked in the send
[opCh <- op] it holds the mutex. *)
Inductive loop_state :=
| Receiving
| Blocked (index : Z) (op : Op)
| Stopped.

(** The body of the loop of [runShardCtrler], for one message ([None] is a
command that is not an [Op]). *)
Definition receive (sc : ShardCtrler) (m : RaftPeer.ApplyMsg (option Op))
    : ShardCtrler * loop_state :=
  match RaftPeer.Command m with
  | None => (sc, Receiving)
  | Some op =>
      if RaftPeer.CommandValid m then
        let index := RaftPeer.CommandIndex m in
        let '(sc, op) := apply_op sc op in
        let sc := ensure_chan sc index in
        match indexChan sc !! index with
        | Some None => (set_indexChan sc (<[index := Some op]> (indexChan sc)), Receiving)
        | _ => (sc, Blocked index op)
        end
      else (sc, Receiving)
  end.

(** ** The goroutines of a server *)

(** Where a call of [sendToRaftAndWait] is: after [Start], waiting in the
[select], or returned (with the index, when it got one). *)
Inductive call_state :=
| Started (op : Op) (index : Z)
| Waiting (op : Op) (index : Z)
| Returned (op : Op) (index : option Z) (ok : bool) (result : Op).

Record world := mkWorld {
  sc : ShardCtrler;
  loop : loop_state;
  calls : list call_state;
  log : list (RaftPeer.ApplyMsg (option Op)) }.   (* the messages received so far *)

Inductive label :=
| LSubmit (op : Op) (started : option Z)  (* Start: the index, if this is the leader *)
| LLock (i : nat)                         (* the section under the mutex *)
| LReceive (i : nat)                      (* the select receives *)
| LTimeout (i : nat)                      (* the select times out *)
| LApply (m : RaftPeer.ApplyMsg (option Op))
| LStop                                   (* the loop finds the server killed *)
| LKill.

Definition has_lock (l : loop_state) : bool := match l with Blocked _ _ => true | _ => false end.

Definition next (w : world) (l : label) : option world :=
  match l with
  | LSubmit op None =>
      Some (mkWorld (sc w) (loop w) (calls w ++ [Returned op None false op]) (log w))
  | LSubmit op (Some index) =>
      Some (mkWorld (sc w) (loop w) (calls w ++ [Started op index]) (log w))
  | LLock i =>
      match calls w !! i with
      | Some (Started op index) =>
          if has_lock (loop w) then None
          else Some (mkWorld (ensure_chan (sc w) index) (loop w)
                       (<[i := Waiting op index]> (calls w)) (log w))
      | _ => None
      end
  | LReceive i =>
      match calls w !! i with
      | Some (Waiting op index) =>
          match indexChan (sc w) !! index with
          | Some (Some r) =>
              let cs := <[i := Returned op (Some index) (isOpMatched op r) r]> (calls w) in
              match loop w with
              | Blocked index' op' =>
                  if decide (index' = index) then
                    Some (mkWorld (set_indexChan (sc w) (<[index := Some op']> (indexChan (sc w))))
                            Receiving cs (log w))
                  else
                    Some (mkWorld (set_indexChan (sc w) (<[index := None]> (indexChan (sc w))))
                            (loop w) cs (log w))
              | _ =>
                  Some (mkWorld (set_indexChan (sc w) (<[index := None]> (indexChan (sc w))))
                          (loop w) cs (log w))
              end
          | _ => None
          end
      | _ => None
      end
  | LTimeout i =>
      match calls w !! i with
      | Some (Waiting op index) =>
          Some (mkWorld (sc w) (loop w) (<[i := Returned op (Some index) false op]> (calls w)) (log w))
      | _ => None
      end
  | LApply m =>
      match loop w with
      | Receiving =>
          if killed (sc w) then None
          else let '(sc', loop') := receive (sc w) m in
               Some (mkWorld sc' loop' (calls w) (log w ++ [m]))
      | _ => None
      end
  | LStop =>
      match loop w with
      | Receiving => if killed (sc w) then Some (mkWorld (sc w) Stopped (calls w) (log w)) else None
      | _ => None
      end
  | LKill => Some (mkWorld (Kill (sc w)) (loop w) (calls w) (log w))
  end.

Definition step (w w' : world) : Prop := ∃ l, next w l = Some w'.

Definition initial (me : Z) : world :=
  mkWorld (mkSC me 0 0 [zero_config] ∅ ∅) Receiving [] [].

End server.

(** ** The specification: a log of operations *)

Section theorems.
Context `{Handlers}.

(** The operation of a message, with its index. *)
Definition op_of (m : RaftPeer.ApplyMsg (option Op)) : option (Z * Op) :=
  match RaftPeer.Command m with
  | Some op => if RaftPeer.CommandValid m then Some (RaftPeer.CommandIndex m, op) else None
  | None => None
  end.
Definition ops (l : list (RaftPeer.ApplyMsg (option Op))) : list (Z * Op) := omap op_of l.

(** Nothing of the same client with this time stamp or a later one came before. *)
Definition is_new (earlier : list Op) (op : Op) : bool :=
  forallb (λ o, bool_decide (ClientId o = ClientId op → TimeStamp o < TimeStamp op)%Z) earlier.

(** One operation of the replicated state machine: what has come so far, and the
configurations. *)
Definition spec_apply (st : list Op * list Config) (op : Op) : list Op * list Config :=
  (st.1 ++ [op], if is_new st.1 op then (run_command st.2 op).1 else st.2).
Definition spec_run (os : list Op) : list Op * list Config := foldl spec_apply ([], [zero_config]) os.
Definition spec_configs (os : list Op) : list Config := (spec_run os).2.

(** The operation as it is sent to the waiting request: with the reply filled in
by its handler if it was run, unchanged otherwise. *)
Definition spec_result (earlier : list Op) (op : Op) : Op :=
  if is_new earlier op then (run_command (spec_configs earlier) op).2 else op.

(** The operations that were run. *)
Fixpoint executed_from (earlier os : list Op) : list Op :=
  match os with
  | [] => []
  | o :: os => (if is_new earlier o then [o] else []) ++ executed_from (earlier ++ [o]) os
  end.
Definition executed (os : list Op) : list Op := executed_from [] os.

Lemma spec_run_fst os : (spec_run os).1 = os.
Proof.
  unfold spec_run. induction os as [|o os IH] using rev_ind; [done|].
  rewrite foldl_app. simpl. by rewrite IH.
Qed.

Lemma spec_configs_snoc os o :
  spec_configs (os ++ [o])
  = if is_new os o then (run_command (spec_configs os) o).1 else spec_configs os.
Proof.
  unfold spec_configs, spec_run. rewrite foldl_app. simpl. fold (spec_run os).
  by rewrite spec_run_fst.
Qed.

Lemma executed_from_app e l1 l2 :
  executed_from e (l1 ++ l2) = executed_from e l1 ++ executed_from (e ++ l1) l2.
Proof.
  revert e. induction l1 as [|o l1 IH]; intros e; simpl; [by rewrite app_nil_r|].
  by rewrite IH, <-!app_assoc.
Qed.

Lemma executed_snoc os o :
  executed (os ++ [o]) = executed os ++ (if is_new os o then [o] else []).
Proof. unfold executed. rewrite executed_from_app. simpl. by rewrite app_nil_r. Qed.

Lemma is_new_spec earlier op :
  is_new earlier op = true ↔
  ∀ o, o ∈ earlier → ClientId o = ClientId op → (TimeStamp o < TimeStamp op)%Z.
Proof.
  unfold is_new. rewrite forallb_forall. setoid_rewrite bool_decide_eq_true.
  by setoid_rewrite <-list_elem_of_In.
Qed.

Lemma executed_incl os o : o ∈ executed os → o ∈ os.
Proof.
  induction os as [|o' os IH] using rev_ind; [by intros ?%not_elem_of_nil|].
  rewrite executed_snoc, !elem_of_app. intros [?|Ho]; [by auto|right].
  destruct (is_new os o'); [done|by apply not_elem_of_nil in Ho].
Qed.

Lemma executed_again os o1 o2 :
  ClientId o2 = ClientId o1 → TimeStamp o2 = TimeStamp o1 →
  executed (os ++ [o1; o2]) = executed (os ++ [o1]).
Proof.
  intros Hc Ht. change [o1; o2] with ([o1] ++ [o2]). rewrite app_assoc, (executed_snoc _ o2).
  destruct (is_new (os ++ [o1]) o2) eqn:Hn; [|by rewrite app_nil_r].
  rewrite is_new_spec in Hn. specialize (Hn o1).
  rewrite elem_of_app, list_elem_of_singleton in Hn.
  specialize (Hn (or_intror eq_refl) (eq_sym Hc)). lia.
Qed.

(** The configurations are those that the executed operations produce, one after
the other. *)
Lemma spec_configs_executed os :
  spec_configs os = foldl (λ cs o, (run_command cs o).1) [zero_config] (executed os).
Proof.
  induction os as [|o os IH] using rev_ind; [done|].
  rewrite spec_configs_snoc, executed_snoc, foldl_app, <-IH. by destruct (is_new os o).
Qed.

(** ** The cache *)

(** The cache has, for each client, the latest time stamp that was run. *)
Definition cache_ok (os : list Op) (c : gmap Z Z) : Prop :=
  ∀ id, match c !! id with
        | None => ∀ o, o ∈ os → ClientId o ≠ id
        | Some t => (∃ o, o ∈ os ∧ ClientId o = id ∧ TimeStamp o = t) ∧
                    ∀ o, o ∈ os → ClientId o = id → (TimeStamp o ≤ t)%Z
        end.

Lemma cache_ok_new os c op :
  cache_ok os c →
  match c !! ClientId op with
  | None => true
  | Some t => bool_decide (t < TimeStamp op)%Z
  end = is_new os op.
Proof.
  intros Hc. specialize (Hc (ClientId op)). apply eq_bool_prop_intro.
  rewrite !Is_true_true, is_new_spec.
  destruct (c !! ClientId op) as [t|].
  - destruct Hc as [(o & Ho & Hid & <-) Hmax]. rewrite bool_decide_eq_true. split; [|by auto].
    intros Hlt o' Ho' Hid'. specialize (Hmax o' Ho' Hid'). lia.
  - split; [|done]. intros _ o Ho Hid. by destruct (Hc o Ho).
Qed.

Lemma cache_ok_old os c op : cache_ok os c → is_new os op = false → cache_ok (os ++ [op]) c.
Proof.
  intros Hc Hold id. pose proof (cache_ok_new os c op Hc) as E. rewrite Hold in E.
  specialize (Hc id). destruct (c !! id) as [t|] eqn:Ht.
  - destruct Hc as [(o & Ho & Hid & <-) Hmax]. split; [exists o; set_solver|].
    intros o' [Ho'|Ho']%elem_of_app Hid'; [by auto|].
    apply list_elem_of_singleton in Ho' as ->. rewrite Hid', Ht in E.
    apply bool_decide_eq_false in E. lia.
  - intros o' [Ho'|Ho']%elem_of_app; [by auto|].
    apply list_elem_of_singleton in Ho' as ->. intros <-. by rewrite Ht in E.
Qed.

Lemma cache_ok_add os c op :
  cache_ok os c → is_new os op = true →
  cache_ok (os ++ [op]) (<[ClientId op := TimeStamp op]> c).
Proof.
  intros Hc Hnew id. rewrite is_new_spec in Hnew. rewrite lookup_insert. case_decide as Hd.
  - subst id. split; [exists op; set_solver|].
    intros o [Ho|Ho]%elem_of_app Hid; [by apply Z.lt_le_incl, Hnew|].
    by apply list_elem_of_singleton in Ho as ->.
  - specialize (Hc id). destruct (c !! id) as [t|].
    + destruct Hc as [(o & Ho & Hid & <-) Hmax]. split; [exists o; set_solver|].
      intros o' [Ho'|Ho']%elem_of_app Hid'; [by auto|].
      by apply list_elem_of_singleton in Ho' as ->.
    + intros o' [Ho'|Ho']%elem_of_app; [by auto|]. by apply list_elem_of_singleton in Ho' as ->.
Qed.

(** ** What a step does to the state *)

(** The replicated part of the state, and what does not change. *)
Definition replica_ok (os : list Op) (s : ShardCtrler) : Prop :=
  configs s = spec_configs os ∧ cache_ok os (cache s) ∧ dead s = 0%Z.

Lemma apply_op_spec os s op :
  replica_ok os s →
  ∃ s', apply_op s op = (s', spec_result os op) ∧ replica_ok (os ++ [op]) s' ∧
        indexChan s' = indexChan s.
Proof.
  intros (Hcf & Hca & Hd). unfold apply_op, spec_result.
  rewrite (cache_ok_new os _ _ Hca). rewrite <-Hcf.
  destruct (is_new os op) eqn:Hnew.
  - destruct (run_command (configs s) op) as [cs op'] eqn:Hrun. eexists. split; [done|].
    split; [|done]. split_and!; simpl; [|by apply cache_ok_add|done].
    by rewrite spec_configs_snoc, Hnew, <-Hcf, Hrun.
  - exists s. split; [done|]. split; [|done]. split_and!; [|by apply cache_ok_old|done].
    by rewrite spec_configs_snoc, Hnew.
Qed.

(** The same, with what is asked of the operation written out. *)
Lemma spec_result_new os op :
  (∀ o, o ∈ os → ClientId o = ClientId op → (TimeStamp o < TimeStamp op)%Z) →
  spec_result os op = (run_command (spec_configs os) op).2.
Proof. intros Hn%is_new_spec. unfold spec_result. by rewrite Hn. Qed.

Lemma is_new_old os op o :
  o ∈ os → ClientId o = ClientId op → (TimeStamp op ≤ TimeStamp o)%Z → is_new os op = false.
Proof.
  intros Ho Hid Hle. apply not_true_is_false. rewrite is_new_spec. intros Hn. specialize (Hn o Ho Hid). lia.
Qed.

Lemma spec_result_old os op o :
  o ∈ os → ClientId o = ClientId op → (TimeStamp op ≤ TimeStamp o)%Z → spec_result os op = op.
Proof. intros Ho Hid Hle. unfold spec_result. by rewrite (is_new_old os op o). Qed.

Lemma apply_op_new os s op :
  replica_ok os s → (∀ o, o ∈ os → ClientId o = ClientId op → (TimeStamp o < TimeStamp op)%Z) →
  configs (apply_op s op).1 = (run_command (configs s) op).1 ∧ (apply_op s op).2 = (run_command (configs s) op).2 ∧
  replica_ok (os ++ [op]) (apply_op s op).1.
Proof.
  intros Hr Hn. destruct (apply_op_spec os s op Hr) as (s' & -> & Hr' & _). cbn.
  rewrite (proj1 Hr), (proj1 Hr'), spec_result_new by done. apply is_new_spec in Hn.
  by rewrite spec_configs_snoc, Hn.
Qed.

Lemma apply_op_old os s op o :
  replica_ok os s → o ∈ os → ClientId o = ClientId op → (TimeStamp op ≤ TimeStamp o)%Z →
  configs (apply_op s op).1 = configs s ∧ (apply_op s op).2 = op.
Proof.
  intros Hr Ho Hid Hle. destruct (apply_op_spec os s op Hr) as (s' & -> & Hr' & _). cbn.
  rewrite (proj1 Hr), (proj1 Hr'), (spec_result_old os op o) by done.
  by rewrite spec_configs_snoc, (is_new_old os op o).
Qed.

Lemma ensure_chan_fields s index :
  configs (ensure_chan s index) = configs s ∧ cache (ensure_chan s index) = cache s ∧
  dead (ensure_chan s index) = dead s.
Proof. unfold ensure_chan. by case_match. Qed.

Lemma ensure_chan_lookup s index i r :
  indexChan (ensure_chan s index) !! i = Some (Some r) → indexChan s !! i = Some (Some r).
Proof.
  unfold ensure_chan. case_match eqn:E; [done|]. simpl. rewrite lookup_insert.
  by case_decide; subst.
Qed.

Lemma replica_ok_chan os s s' :
  configs s' = configs s → cache s' = cache s → dead s' = dead s → replica_ok os s → replica_ok os s'.
Proof. unfold replica_ok. by intros -> -> ->. Qed.

(** The results that were produced: index and operation, for each message that
carried an operation. *)
Fixpoint results_from (earlier : list Op) (ios : list (Z * Op)) : list (Z * Op) :=
  match ios with
  | [] => []
  | (i, o) :: ios => (i, spec_result earlier o) :: results_from (earlier ++ [o]) ios
  end.
Definition results (ios : list (Z * Op)) : list (Z * Op) := results_from [] ios.

Lemma results_from_app e l1 l2 :
  results_from e (l1 ++ l2) = results_from e l1 ++ results_from (e ++ (snd <$> l1)) l2.
Proof.
  revert e. induction l1 as [|[i o] l1 IH]; intros e; simpl; [by rewrite app_nil_r|].
  by rewrite IH, <-app_assoc.
Qed.

Lemma results_snoc l i o : results (l ++ [(i, o)]) = results l ++ [(i, spec_result (snd <$> l) o)].
Proof. unfold results. by rewrite results_from_app. Qed.

Lemma results_from_fst e l : fst <$> results_from e l = fst <$> l.
Proof. revert e. induction l as [|[i o] l IH]; intros e; simpl; [done|]. by rewrite IH. Qed.

Lemma results_elem e ios i r :
  (i, r) ∈ results_from e ios →
  ∃ before o after, ios = before ++ (i, o) :: after ∧ r = spec_result (e ++ (snd <$> before)) o.
Proof.
  revert e. induction ios as [|[j o] ios IH]; intros e; simpl; [by intros ?%not_elem_of_nil|].
  intros [E|Hin]%elem_of_cons.
  - simplify_eq. exists [], o, ios. by rewrite app_nil_r.
  - destruct (IH _ Hin) as (b & o' & a & -> & ->). exists ((j, o) :: b), o', a.
    by rewrite <-app_assoc.
Qed.

Definition blocked_on (l : loop_state) : option (Z * Op) :=
  match l with Blocked i o => Some (i, o) | _ => None end.

(** The invariant of the machine. *)
Record inv (w : world) : Prop := {
  inv_replica : replica_ok (snd <$> ops (log w)) (sc w);
  inv_chan : ∀ i r, indexChan (sc w) !! i = Some (Some r) → (i, r) ∈ results (ops (log w));
  inv_running : loop w ≠ Stopped;
  inv_blocked : ∀ i r, blocked_on (loop w) = Some (i, r) →
    (i, r) ∈ results (ops (log w)) ∧ ¬ NoDup (fst <$> ops (log w));
  inv_calls : ∀ op oi r, Returned op oi true r ∈ calls w →
    isOpMatched op r = true ∧ ∃ i, oi = Some i ∧ (i, r) ∈ results (ops (log w)) }.

Lemma ops_snoc l m : ops (l ++ [m]) = ops l ++ option_list (op_of m).
Proof. unfold ops. rewrite omap_app. simpl. by destruct (op_of m). Qed.

Lemma results_mono ios ios' x : x ∈ results ios → x ∈ results (ios ++ ios').
Proof. unfold results. rewrite results_from_app, elem_of_app. by left. Qed.

Lemma results_index ios i r : (i, r) ∈ results ios → i ∈ (fst <$> ios).
Proof.
  intros Hr. rewrite <-(results_from_fst []). apply list_elem_of_fmap. by exists (i, r).
Qed.

Lemma receive_none s m : op_of m = None → receive s m = (s, Receiving).
Proof. unfold op_of, receive. intros. by repeat case_match. Qed.

Lemma receive_some s m i op :
  op_of m = Some (i, op) →
  receive s m =
    let '(s', r) := apply_op s op in
    let s' := ensure_chan s' i in
    match indexChan s' !! i with
    | Some None => (set_indexChan s' (<[i := Some r]> (indexChan s')), Receiving)
    | _ => (s', Blocked i r)
    end.
Proof.
  unfold op_of, receive. destruct (RaftPeer.Command m); [|done].
  destruct (RaftPeer.CommandValid m); [|done]. intros. by simplify_eq.
Qed.

Lemma ensure_chan_exists s i : is_Some (indexChan (ensure_chan s i) !! i).
Proof.
  unfold ensure_chan. destruct (indexChan s !! i) eqn:E; [by eauto|]. simpl.
  rewrite lookup_insert_eq. by eauto.
Qed.

Lemma inv_calls_mono (cs : list call_state) ios ios' :
  (∀ op oi r, Returned op oi true r ∈ cs →
     isOpMatched op r = true ∧ ∃ i, oi = Some i ∧ (i, r) ∈ results ios) →
  ∀ op oi r, Returned op oi true r ∈ cs →
     isOpMatched op r = true ∧ ∃ i, oi = Some i ∧ (i, r) ∈ results (ios ++ ios').
Proof.
  intros Hcs op oi r (? & i & ? & ?)%Hcs. split; [done|]. exists i. eauto using results_mono.
Qed.

Lemma receive_inv w m s' l' :
  inv w → loop w = Receiving → receive (sc w) m = (s', l') →
  inv (mkWorld s' l' (calls w) (log w ++ [m])).
Proof.
  intros [Hrep Hch _ _ Hca] Hl. destruct (op_of m) as [[i op]|] eqn:Hop.
  2: { rewrite receive_none by done. intros ?; simplify_eq.
       split; simpl; rewrite ?ops_snoc, ?Hop, ?app_nil_r; done. }
  rewrite (receive_some _ _ _ _ Hop).
  destruct (apply_op_spec _ _ op Hrep) as (s1 & -> & Hrep1 & Hic).
  destruct (ensure_chan_fields s1 i) as (Ecf & Eca & Ed).
  set (os := ops (log w)) in *.
  assert (ops (log w ++ [m]) = os ++ [(i, op)]) as Eops by by rewrite ops_snoc, Hop.
  assert (replica_ok (snd <$> os ++ [(i, op)]) (ensure_chan s1 i)) as Hrep2.
  { rewrite fmap_app. by eapply replica_ok_chan. }
  assert (∀ j r, indexChan (ensure_chan s1 i) !! j = Some (Some r) → (j, r) ∈ results os) as Hch1.
  { intros j r Hj%ensure_chan_lookup. apply Hch. by rewrite <-Hic. }
  pose proof (inv_calls_mono _ _ [(i, op)] Hca) as Hca1.
  assert ((i, spec_result (snd <$> os) op) ∈ results (os ++ [(i, op)])) as Hnew.
  { rewrite results_snoc, elem_of_app, list_elem_of_singleton. by right. }
  lazy beta iota zeta.
  destruct (ensure_chan_exists s1 i) as [[r0|] Ei]; rewrite Ei; intros ?; simplify_eq;
    split; simpl; rewrite ?Eops; try done.
  - intros j r Hj%Hch1. by apply results_mono.
  - intros j r E. injection E as <- <-. split; [done|].
    rewrite fmap_app, NoDup_app. intros (_ & Hd & _). apply (Hd i).
    + by eapply results_index, Hch1.
    + simpl. by apply list_elem_of_singleton.
  - intros j r. rewrite lookup_insert. case_decide as Hd; intros Hj; simplify_eq; [done|].
    by apply results_mono, Hch1.
Qed.

Lemma calls_insert w i c (P : Op → option Z → Op → Prop) :
  (∀ op oi r, c = Returned op oi true r → P op oi r) →
  (∀ op oi r, Returned op oi true r ∈ calls w → P op oi r) →
  ∀ op oi r, Returned op oi true r ∈ <[i := c]> (calls w) → P op oi r.
Proof. intros Hc Hw op oi r [?|?]%elem_of_insert_inv; eauto. Qed.

Lemma receive_call_inv w i w' : inv w → next w (LReceive i) = Some w' → inv w'.
Proof.
  intros [Hrep Hch Hrn Hbl Hca] Hs. cbn [next] in Hs.
  destruct (calls w !! i) as [[| op idx|]|] eqn:Hi; try done.
  destruct (indexChan (sc w) !! idx) as [[r|]|] eqn:Hx; try done.
  assert (∀ op' oi r', Returned op' oi true r' ∈
    <[i := Returned op (Some idx) (isOpMatched op r) r]> (calls w) →
    isOpMatched op' r' = true ∧ ∃ j, oi = Some j ∧ (j, r') ∈ results (ops (log w))) as Hca'.
  { apply calls_insert; [|done]. intros op' oi r' E. simplify_eq. split; [done|]. eauto. }
  assert (∀ o j r', (∀ q, o = Some q → (idx, q) ∈ results (ops (log w))) →
    <[idx := o]> (indexChan (sc w)) !! j = Some (Some r') → (j, r') ∈ results (ops (log w))) as Hch'.
  { intros o j r' Ho. rewrite lookup_insert. case_decide as Hd; intros; simplify_eq; auto. }
  destruct (loop w) as [|idx' op'|] eqn:Hlp; [|case_decide as Hd|]; simplify_eq;
    split; simpl; try done; try (intros j r'; by apply Hch');
    try (intros j r'; apply Hch'; intros q ?; simplify_eq; by apply Hbl).
Qed.

Lemma inv_step w w' : inv w → step w w' → inv w'.
Proof.
  intros Hw [l Hl]. destruct l as [op [idx|]|i|i|i|m| |].
  1-2: cbn in Hl; simplify_eq; destruct Hw as [Hrep Hch Hrn Hbl Hca]; split; simpl; try done;
    intros op' oi r [?|E%list_elem_of_singleton]%elem_of_app; by auto.
  - cbn in Hl. destruct (calls w !! i) as [[op idx| |]|]; try done.
    destruct (has_lock (loop w)); simplify_eq. destruct Hw as [Hrep Hch Hrn Hbl Hca].
    destruct (ensure_chan_fields (sc w) idx) as (Ecf & Eca & Ed). split; simpl; try done.
    + by eapply replica_ok_chan.
    + intros j r ?%ensure_chan_lookup. auto.
    + apply calls_insert; [by intros|done].
  - by eapply receive_call_inv.
  - cbn in Hl. destruct (calls w !! i) as [[|op idx|]|]; try done. simplify_eq.
    destruct Hw as [Hrep Hch Hrn Hbl Hca]. split; simpl; try done. apply calls_insert; [by intros|done].
  - cbn [next] in Hl. destruct (loop w) eqn:Hlp; try done. destruct (killed (sc w)); [done|].
    destruct (receive (sc w) m) as [s' l'] eqn:Hr. simplify_eq. by eapply receive_inv.
  - cbn in Hl. destruct (loop w) eqn:Hlp; try done.
    destruct Hw as [(_ & _ & Hd) _ _ _ _]. unfold killed in Hl. by rewrite Hd in Hl.
  - cbn in Hl. simplify_eq. destruct Hw as [Hrep Hch Hrn Hbl Hca]. by split.
Qed.

Lemma inv_initial i : inv (initial i).
Proof.
  split; simpl; try done.
  - split_and!; [done| |done]. intros id. simpl. rewrite lookup_empty. by intros ? ?%not_elem_of_nil.
  - by intros ??? ?%not_elem_of_nil.
Qed.

Lemma reachable_inv i w : steps step (initial i) w → inv w.
Proof. apply steps_invariant; [apply inv_step|apply inv_initial]. Qed.

(** C10. The replicas implement the replicated state machine: whatever requests,
timeouts, kills and changes of leader a server goes through, its configurations
are those obtained from the initial one by running, in order, the operations of
the messages Raft has delivered, each unless an operation of the same client
with the same or a later time stamp was delivered before.  Two servers that have
received the same messages have the same configurations. *)
Theorem replica_state i w :
  steps step (initial i) w →
  configs (sc w) = foldl (λ cs o, (run_command cs o).1) [zero_config] (executed (snd <$> ops (log w))).
Proof.
  intros [(Hcf & _ & _) _ _ _ _]%reachable_inv. by rewrite Hcf, spec_configs_executed.
Qed.

(** At most once: of the operations that are run, those of one client have
strictly increasing time stamps, so that an operation delivered again, as a
retransmission with the same time stamp is, is not run again. *)
Theorem executed_increasing os id :
  StronglySorted (λ a b, TimeStamp a < TimeStamp b)%Z (filter (λ o, ClientId o = id) (executed os)).
Proof.
  induction os as [|o os IH] using rev_ind; [constructor|].
  rewrite executed_snoc, filter_app. destruct (is_new os o) eqn:Hnew; [|by rewrite app_nil_r].
  rewrite filter_cons, filter_nil. case_decide as Hid; [|by rewrite app_nil_r].
  apply StronglySorted_snoc; [done|]. rewrite is_new_spec in Hnew.
  apply Forall_forall. intros o' [Hid' Ho'%executed_incl]%list_elem_of_filter.
  apply Hnew; [done|]. by rewrite Hid'.
Qed.

(** An acknowledged request was applied: when [sendToRaftAndWait] returns
true, Raft delivered a message at the very index that [Start] gave the request,
and what is returned is the operation of that message as it came out of the
state machine at that point of the log (with its reply, if it was run), and
matches the operation that was asked for. *)
Theorem acknowledged_applied i w op oi r :
  steps step (initial i) w → Returned op oi true r ∈ calls w →
  isOpMatched op r = true ∧
  ∃ idx before o after, oi = Some idx ∧ ops (log w) = before ++ (idx, o) :: after ∧
    r = spec_result (snd <$> before) o.
Proof.
  intros Hw%reachable_inv Hr. destruct (inv_calls _ Hw _ _ _ Hr) as (Hm & idx & -> & Hin).
  split; [done|]. exists idx.
  destruct (results_elem [] (ops (log w)) idx r Hin) as (b & o & a & Eops & Er). by exists b, o, a.
Qed.

(** The loop never blocks: as long as Raft delivers at most one operation per
index, the send to the channel of an index finds its buffer empty, so that the
goroutine that applies operations is never stuck with the mutex. *)
Theorem loop_never_blocks i w :
  steps step (initial i) w → NoDup (fst <$> ops (log w)) → has_lock (loop w) = false.
Proof.
  intros Hw%reachable_inv Hnd. destruct (loop w) as [|idx op|] eqn:Hl; [done| |done].
  by destruct (inv_blocked _ Hw idx op) as [_ []]; [rewrite Hl|].
Qed.

(** Killing a server does not stop it: [Kill] sets the flag of its Raft peer
only, the server's own flag, which its loop tests, is never set, and so the loop
never ends. *)
Theorem never_killed i w :
  steps step (initial i) w → killed (sc w) = false ∧ loop w ≠ Stopped.
Proof.
  intros [(_ & _ & Hd) _ Hrn _ _]%reachable_inv. split; [|done]. unfold killed. by rewrite Hd.
Qed.

Lemma apply_op_set_indexChan s ic o :
  apply_op (set_indexChan s ic) o = (set_indexChan (apply_op s o).1 ic, (apply_op s o).2).
Proof. unfold apply_op. simpl. case_match; [|done]. by destruct (run_command (configs s) o). Qed.

Lemma apply_op_frame s o :
  indexChan (apply_op s o).1 = indexChan s ∧ killed (apply_op s o).1 = killed s.
Proof. unfold apply_op. case_match; [|done]. by destruct (run_command (configs s) o). Qed.

Lemma receive_empty s m idx o :
  op_of m = Some (idx, o) → mjoin (indexChan s !! idx) = None →
  receive s m
  = (set_indexChan (apply_op s o).1 (<[idx := Some (apply_op s o).2]> (indexChan s)), Receiving).
Proof.
  intros Hm Hx. rewrite (receive_some _ _ _ _ Hm). destruct (apply_op_frame s o) as [Hic _].
  destruct (apply_op s o) as [s1 r]. cbn [fst snd] in *. unfold ensure_chan. rewrite Hic.
  destruct (indexChan s !! idx) as [[?|]|] eqn:E; simplify_eq/=.
  - by rewrite Hic, E.
  - rewrite lookup_insert_eq. by rewrite insert_insert_eq.
Qed.

Lemma ensure_chan_same s idx b : indexChan s !! idx = Some b → ensure_chan s idx = s.
Proof. unfold ensure_chan. by intros ->. Qed.

Ltac next_simp :=
  cbn [run_labels next calls loop sc log has_lock indexChan set_indexChan fst snd].

(** A request that is delivered completes: if the channel of its index has
not been used, then whether Raft delivers the message before or after the
request looks up the channel, the request receives the operation as the state
machine returns it, and is answered by the comparison with what was asked. *)
Theorem request_completes w op idx m o :
  loop w = Receiving → killed (sc w) = false → indexChan (sc w) !! idx = None →
  op_of m = Some (idx, o) →
  let i := length (calls w) in
  let r := (apply_op (sc w) o).2 in
  Forall (λ ls, ∃ w', run_labels next w ls = Some w' ∧ loop w' = Receiving ∧
      calls w' = calls w ++ [Returned op (Some idx) (isOpMatched op r) r])
    [[LSubmit op (Some idx); LApply m; LLock i; LReceive i];
     [LSubmit op (Some idx); LLock i; LApply m; LReceive i]].
Proof.
  intros Hl Hk Hx Hm i r.
  destruct w as [s l cs lg]. simpl in *. subst l.
  assert (∀ c, (cs ++ [c]) !! i = Some c) as Hlook by (intros; by apply list_lookup_middle).
  assert (∀ c c', <[i := c']> (cs ++ [c]) = cs ++ [c']) as Hins.
  { intros. unfold i. rewrite <-(Nat.add_0_r (length cs)). by rewrite insert_app_r. }
  destruct (apply_op_frame s o) as [Hic Hkl].
  repeat constructor; cbn [run_labels next calls loop sc].
  - rewrite Hk, (receive_empty s m idx o) by (done || by rewrite Hx). next_simp.
    rewrite Hlook. next_simp. erewrite ensure_chan_same by (simpl; apply lookup_insert_eq).
    rewrite Hins, Hlook. next_simp. rewrite lookup_insert_eq.
    eexists. split; [done|]. simpl. by rewrite Hins.
  - rewrite Hlook. next_simp. unfold ensure_chan. rewrite Hx, Hins.
    assert (killed (set_indexChan s (<[idx := None]> (indexChan s))) = false) as -> by done.
    rewrite (receive_empty _ m idx o) by (done || (simpl; by rewrite lookup_insert_eq)).
    rewrite apply_op_set_indexChan. next_simp. rewrite Hlook. next_simp.
    rewrite lookup_insert_eq. eexists. split; [done|]. simpl. by rewrite Hins.
Qed.

End theorems.

Lemma StartServer_spec i : StartServer i = Ok (sc (initial i)).
Proof. reflexivity. Qed.

(** ** The clerk *)

Record Clerk (E : Type) := mkClerk { servers : list E; clientID : Z }.
Arguments mkClerk {E} _ _.
Arguments servers {E} _.
Arguments clientID {E} _.

(** [bigx] is what [rand.Int] returned, between 0 and 2^62. *)
Definition nrand (bigx : Z) : Z := int64 bigx.

Definition MakeClerk {E} (servers : list E) (bigx : Z) : Clerk E := mkClerk servers (nrand bigx).

(** The loops that the clerk's calls share.  [call k srv args] is the result of
the [k]-th RPC ([None] when [Call] returns false); [stamp k args] is what is done
to the arguments before it.  The requests that were sent are collected in
[sent]. *)
Section retry.
Context {E A R : Type}.
Context (call : nat → E → A → option R) (stamp : nat → A → A) (wrongLeader : R → bool).

Fixpoint try_each (srvs : list E) (args : A) (sent : list (E * A)) : list (E * A) * A * option R :=
  match srvs with
  | [] => (sent, args, None)
  | srv :: srvs =>
      let k := length sent in
      let args := stamp k args in
      let sent := sent ++ [(srv, args)] in
      match call k srv args with
      | Some reply =>
          if wrongLeader reply then try_each srvs args sent else (sent, args, Some reply)
      | None => try_each srvs args sent
      end
  end.

(** The outer loop, for at most [fuel] rounds. *)
Fixpoint retry (fuel : nat) (srvs : list E) (args : A) (sent : list (E * A))
    : list (E * A) * option R :=
  match fuel with
  | O => (sent, None)
  | S fuel =>
      match try_each srvs args sent with
      | (sent, _, Some reply) => (sent, Some reply)
      | (sent, args, None) => retry fuel srvs args sent
      end
  end.

Definition rejected (k : nat) (srv : E) (args : A) : Prop :=
  ∀ reply, call k srv args = Some reply → wrongLeader reply = true.

(** Stamping again overwrites. *)
Context (stamp_over : ∀ i j a, stamp j (stamp i a) = stamp j a).

Definition requests (k : nat) (srvs : list E) (a : A) : list (E * A) :=
  imap (λ j srv, (srv, stamp (k + j) a)) srvs.

Lemma requests_cons k srv srvs a :
  requests k (srv :: srvs) a = (srv, stamp k a) :: requests (S k) srvs a.
Proof.
  unfold requests. rewrite imap_cons, Nat.add_0_r. f_equal. apply imap_ext. intros j x _. simpl.
  by rewrite Nat.add_succ_r.
Qed.

(** A round: the servers are asked in order until one accepts. *)
Lemma try_each_spec srvs a args sent :
  (∀ j, stamp j args = stamp j a) →
  ∃ args', (∀ j, stamp j args' = stamp j a) ∧
  let k := length sent in
  ((try_each srvs args sent = (sent ++ requests k srvs a, args', None) ∧
    ∀ j srv, srvs !! j = Some srv → rejected (k + j) srv (stamp (k + j) a)) ∨
   (∃ m srv r, srvs !! m = Some srv ∧ call (k + m) srv (stamp (k + m) a) = Some r ∧
      wrongLeader r = false ∧
      (∀ j srv, j < m → srvs !! j = Some srv → rejected (k + j) srv (stamp (k + j) a)) ∧
      try_each srvs args sent = (sent ++ requests k (take (S m) srvs) a, args', Some r))).
Proof using stamp_over.
  revert args sent. induction srvs as [|srv srvs IH]; intros args sent Hargs; cbn [try_each].
  { exists args. split; [done|]. left. by rewrite app_nil_r. }
  set (k := length sent). rewrite Hargs.
  destruct (call k srv (stamp k a)) as [r|] eqn:Hc;
    [destruct (wrongLeader r) eqn:Hw|].
  2: { exists (stamp k a). split; [by intros|]. right. exists 0, srv, r. rewrite Nat.add_0_r.
       split_and!; [done..|intros; lia|]. simpl. by rewrite requests_cons, take_0. }
  all: destruct (IH (stamp k a) (sent ++ [(srv, stamp k a)])) as (args' & Hargs' & H); [by intros|];
    rewrite length_app in H; simpl in H; fold k in H; replace (k + 1) with (S k) in H by lia;
    exists args'; split; [done|];
    assert (rejected k srv (stamp k a)) as Hrej by (intros ? ?; congruence).
  all: destruct H as [[Et Hall]|(m & srv' & r' & Hm & Hcall & Hwl & Hbefore & Et)].
  all: try (left; split;
    [by rewrite Et, requests_cons, <-app_assoc
    |intros [|j] x Hx; simplify_eq/=; [by rewrite Nat.add_0_r|rewrite Nat.add_succ_r; by apply Hall]]).
  all: right; exists (S m), srv', r'; rewrite !Nat.add_succ_r; split_and!; try done;
    [intros [|j] x Hj Hx; simplify_eq/=;
      [by rewrite Nat.add_0_r|rewrite Nat.add_succ_r; apply Hbefore; [lia|done]]
    |by rewrite Et, firstn_cons, requests_cons, <-app_assoc].
Qed.

Lemma try_each_app l1 l2 args sent :
  try_each (l1 ++ l2) args sent =
  match try_each l1 args sent with
  | (sent, args, None) => try_each l2 args sent
  | x => x
  end.
Proof.
  revert args sent. induction l1 as [|srv l1 IH]; intros args sent; [done|]. simpl.
  destruct (call _ _ _) as [r|]; [|by apply IH]. by destruct (wrongLeader r); [apply IH|].
Qed.

(** The servers as they are asked in [fuel] rounds. *)
Definition asked (fuel : nat) (srvs : list E) : list E := concat (replicate fuel srvs).

Lemma retry_flat fuel srvs args sent :
  retry fuel srvs args sent = let '(sent, _, r) := try_each (asked fuel srvs) args sent in (sent, r).
Proof.
  unfold asked. revert args sent. induction fuel as [|fuel IH]; intros args sent; [done|]. simpl.
  rewrite try_each_app. destruct (try_each srvs args sent) as [[sent' args'] [r|]]; [done|apply IH].
Qed.

Lemma asked_lookup fuel srvs k :
  k < fuel * length srvs → asked fuel srvs !! k = srvs !! (k `mod` length srvs).
Proof.
  unfold asked. revert k. induction fuel as [|fuel IH]; intros k Hk; [lia|]. simpl in *.
  destruct (decide (k < length srvs)) as [Hlt|Hge].
  - by rewrite lookup_app_l, Nat.mod_small.
  - rewrite lookup_app_r, IH by lia. f_equal.
    replace k with (k - length srvs + 1 * length srvs) at 2 by lia. by rewrite Nat.Div0.mod_add.
Qed.

Lemma asked_length fuel srvs : length (asked fuel srvs) = fuel * length srvs.
Proof. unfold asked. induction fuel as [|n IH]; simpl; [done|]. by rewrite length_app, IH. Qed.

Lemma requests_lookup srvs a j srv : srvs !! j = Some srv → requests 0 srvs a !! j = Some (srv, stamp j a).
Proof. intros Hj. unfold requests. by rewrite list_lookup_imap, Hj. Qed.

(** The [j]-th request that was sent. *)
Lemma retry_sent fuel srvs a sent res j srv args :
  retry fuel srvs a [] = (sent, res) → sent !! j = Some (srv, args) →
  args = stamp j a ∧ srvs !! (j `mod` length srvs) = Some srv.
Proof using stamp_over.
  rewrite retry_flat.
  destruct (try_each_spec (asked fuel srvs) a a [] (λ _, eq_refl))
    as (args' & _ & [[-> _]|(m & srv' & r & Hm & _ & _ & _ & ->)]);
    intros ? Hj; simplify_eq; simpl in Hj; unfold requests in Hj;
    rewrite list_lookup_imap, fmap_Some in Hj; destruct Hj as (x & Hx & ?); simplify_eq.
  2: apply lookup_take_Some in Hx as [Hx _].
  all: pose proof (lookup_lt_Some _ _ _ Hx) as Hlt; rewrite asked_length in Hlt;
    by rewrite asked_lookup in Hx.
Qed.

(** A server accepts: the requests go round the servers until the first one that
is accepted, whose reply is returned. *)
Lemma retry_accepted srvs a k srv r fuel :
  srvs !! (k `mod` length srvs) = Some srv →
  call k srv (stamp k a) = Some r → wrongLeader r = false →
  (∀ j s, j < k → srvs !! (j `mod` length srvs) = Some s → rejected j s (stamp j a)) →
  k < fuel * length srvs →
  ∃ sent, retry fuel srvs a [] = (sent, Some r) ∧ length sent = S k.
Proof using stamp_over.
  intros Hsrv Hc Hw Hrej Hk. rewrite retry_flat.
  assert (asked fuel srvs !! k = Some srv) as Hak by by rewrite asked_lookup.
  assert (∀ j s, asked fuel srvs !! j = Some s → srvs !! (j `mod` length srvs) = Some s) as Hasked.
  { intros j s Hj. pose proof (lookup_lt_Some _ _ _ Hj) as Hlt. rewrite asked_length in Hlt.
    by rewrite asked_lookup in Hj. }
  destruct (try_each_spec (asked fuel srvs) a a [] (λ _, eq_refl))
    as (args' & _ & [[_ Hall]|(m & srv' & r' & Hm & Hcm & Hwm & Hbefore & ->)]).
  { specialize (Hall k srv Hak r Hc). congruence. }
  assert (m = k) as ->.
  { destruct (Nat.lt_trichotomy m k) as [Hlt|[?|Hlt]]; [|done|].
    - specialize (Hrej m srv' Hlt (Hasked _ _ Hm) r' Hcm). congruence.
    - specialize (Hbefore k srv Hlt Hak r Hc). congruence. }
  simpl in *. simplify_eq. eexists. split; [done|]. unfold requests.
  rewrite length_imap, length_take. apply lookup_lt_Some in Hak. lia.
Qed.

(** No server accepts: the call does not return. *)
Lemma retry_rejected srvs a fuel :
  (∀ j s, srvs !! (j `mod` length srvs) = Some s → rejected j s (stamp j a)) →
  (retry fuel srvs a []).2 = None.
Proof using stamp_over.
  intros Hrej. rewrite retry_flat.
  destruct (try_each_spec (asked fuel srvs) a a [] (λ _, eq_refl))
    as (args' & _ & [[-> _]|(m & srv' & r & Hm & Hc & Hw & _ & ->)]); [done|].
  pose proof (lookup_lt_Some _ _ _ Hm) as Hlt. rewrite asked_length in Hlt.
  rewrite asked_lookup in Hm by done. specialize (Hrej m srv' Hm r Hc). congruence.
Qed.

End retry.

(** [now k] is the [k]-th reading of the clock.  The result of a call is [None]
as long as it has not returned. *)
Section calls.
Context {E : Type}.
Implicit Types (ck : Clerk E) (now : nat → Z).

Definition Query ck (call : nat → E → QueryArgs → option QueryReply) now (num : Z) (fuel : nat)
    : list (E * QueryArgs) * option Config :=
  let args := mkQueryArgs num (clientID ck) (now 0) in
  let '(sent, r) := retry call (λ _ args, args) q_WrongLeader fuel (servers ck) args [] in
  (sent, q_Config <$> r).

Definition Join ck (call : nat → E → JoinArgs → option AckReply) now (srvs : gmap Z (list string))
    (fuel : nat) : list (E * JoinArgs) * option () :=
  let args := mkJoinArgs srvs (clientID ck) 0 in
  let stamp k args := mkJoinArgs (j_Servers args) (j_ClientId args) (now k) in
  let '(sent, r) := retry call stamp a_WrongLeader fuel (servers ck) args [] in
  (sent, (λ _, ()) <$> r).

Definition Leave ck (call : nat → E → LeaveArgs → option AckReply) now (gids : list Z) (fuel : nat)
    : list (E * LeaveArgs) * option () :=
  let args := mkLeaveArgs gids (clientID ck) 0 in
  let stamp k args := mkLeaveArgs (l_GIDs args) (l_ClientId args) (now k) in
  let '(sent, r) := retry call stamp a_WrongLeader fuel (servers ck) args [] in
  (sent, (λ _, ()) <$> r).

Definition Move ck (call : nat → E → MoveArgs → option AckReply) now (shard gid : Z) (fuel : nat)
    : list (E * MoveArgs) * option () :=
  let args := mkMoveArgs shard gid (clientID ck) (now 0) in
  let '(sent, r) := retry call (λ _ args, args) a_WrongLeader fuel (servers ck) args [] in
  (sent, (λ _, ()) <$> r).

(** [Query] returns the answer of the first server that accepts: if the
requests before the [k]-th are lost or refused, and the server the [k]-th one
goes to accepts it, then the call returns that server's configuration after
[k + 1] requests, whatever the number of rounds it takes. *)
Theorem Query_returns ck call now num k srv r fuel :
  let args := mkQueryArgs num (clientID ck) (now 0) in
  servers ck !! (k `mod` length (servers ck)) = Some srv →
  call k srv args = Some r → q_WrongLeader r = false →
  (∀ j s reply, j < k → servers ck !! (j `mod` length (servers ck)) = Some s →
     call j s args = Some reply → q_WrongLeader reply = true) →
  k < fuel * length (servers ck) →
  ∃ sent, Query ck call now num fuel = (sent, Some (q_Config r)) ∧ length sent = S k.
Proof.
  intros args Hs Hc Hw Hrej Hk. unfold Query. fold args.
  destruct (retry_accepted call (λ _ args, args) q_WrongLeader (λ _ _ _, eq_refl) (servers ck) args
    k srv r fuel) as (sent & -> & Hl); [done..| |done|by eauto].
  intros j s Hj Hsj reply. by apply Hrej.
Qed.

(** What the requests of a call carry: [Query] and [Move] send the same
arguments each time, [Join] and [Leave] a new time stamp. *)
Lemma Query_sent ck call now num fuel sent res j srv args :
  Query ck call now num fuel = (sent, res) → sent !! j = Some (srv, args) →
  args = mkQueryArgs num (clientID ck) (now 0).
Proof.
  unfold Query. destruct (retry _ _ _ _ _ _ _) as [sent' r] eqn:Hr. intros ? Hj. simplify_eq.
  by eapply (retry_sent call (λ _ args, args)) in Hr as [-> _].
Qed.

Lemma Move_sent ck call now shard gid fuel sent res j srv args :
  Move ck call now shard gid fuel = (sent, res) → sent !! j = Some (srv, args) →
  args = mkMoveArgs shard gid (clientID ck) (now 0).
Proof.
  unfold Move. destruct (retry _ _ _ _ _ _ _) as [sent' r] eqn:Hr. intros ? Hj. simplify_eq.
  by eapply (retry_sent call (λ _ args, args)) in Hr as [-> _].
Qed.

Lemma Join_sent ck call now srvs fuel sent res j srv args :
  Join ck call now srvs fuel = (sent, res) → sent !! j = Some (srv, args) →
  args = mkJoinArgs srvs (clientID ck) (now j).
Proof.
  unfold Join. destruct (retry _ _ _ _ _ _ _) as [sent' r] eqn:Hr. intros ? Hj. simplify_eq.
  eapply retry_sent in Hr as [-> _]; [done|by intros|done].
Qed.

Lemma Leave_sent ck call now gids fuel sent res j srv args :
  Leave ck call now gids fuel = (sent, res) → sent !! j = Some (srv, args) →
  args = mkLeaveArgs gids (clientID ck) (now j).
Proof.
  unfold Leave. destruct (retry _ _ _ _ _ _ _) as [sent' r] eqn:Hr. intros ? Hj. simplify_eq.
  eapply retry_sent in Hr as [-> _]; [done|by intros|done].
Qed.

(** A retried [Move] (or [Query]) is run once: of two operations that carry
the client and time stamp of two requests of the same call, the first to be
delivered may be run, the second is not. *)
Theorem move_retry_deduplicated ck call now shard gid fuel sent res i j e1 a1 e2 a2 o1 o2 os :
  Move ck call now shard gid fuel = (sent, res) →
  sent !! i = Some (e1, a1) → sent !! j = Some (e2, a2) →
  ClientId o1 = m_ClientId a1 → TimeStamp o1 = m_TimeStamp a1 →
  ClientId o2 = m_ClientId a2 → TimeStamp o2 = m_TimeStamp a2 →
  executed (os ++ [o1; o2]) = executed (os ++ [o1]).
Proof.
  intros Hm Hi Hj C1 T1 C2 T2.
  rewrite (Move_sent _ _ _ _ _ _ _ _ _ _ _ Hm Hi) in *. rewrite (Move_sent _ _ _ _ _ _ _ _ _ _ _ Hm Hj) in *.
  simpl in *. by rewrite (executed_again os o1 o2) by congruence.
Qed.

End calls.

(** C34. Retries of [Join] are not recognised as retries.  Two attempts of one call, of
which the second was sent at a later time, carry different time stamps (the clock is
read for each of them, and [Leave] is the same).  Take a server that has been told of
nothing of this client from the time of the first attempt on.  When it is told of the
two attempts in the order in which they were sent, it runs the join twice; when it is
told of them in the other order, it runs the second one only, and the request for the
first gets its operation back as it was sent, without an answer. *)
Theorem join_retry_not_deduplicated `{Handlers} {E} (ck : Clerk E) call now srvs fuel sent res i j e1 a1 e2 a2 o1 o2 me w :
  Join ck call now srvs fuel = (sent, res) →
  sent !! i = Some (e1, a1) → sent !! j = Some (e2, a2) → (now i < now j)%Z →
  ClientId o1 = j_ClientId a1 → TimeStamp o1 = j_TimeStamp a1 →
  ClientId o2 = j_ClientId a2 → TimeStamp o2 = j_TimeStamp a2 →
  steps step (initial me) w →
  (∀ k o, (k, o) ∈ ops (log w) → ClientId o = ClientId o1 → (TimeStamp o < TimeStamp o1)%Z) →
  let cs1 := (run_command (configs (sc w)) o1).1 in
  let in_order := apply_op (apply_op (sc w) o1).1 o2 in
  let reversed := apply_op (apply_op (sc w) o2).1 o1 in
  (configs in_order.1 = (run_command cs1 o2).1 ∧ in_order.2 = (run_command cs1 o2).2) ∧
  (configs reversed.1 = (run_command (configs (sc w)) o2).1 ∧ reversed.2 = o1).
Proof.
  intros Hm Hi Hj Hlt C1 T1 C2 T2 Hw Hnew cs1.
  rewrite (Join_sent _ _ _ _ _ _ _ _ _ _ Hm Hi) in *. rewrite (Join_sent _ _ _ _ _ _ _ _ _ _ Hm Hj) in *. cbn in *.
  pose proof (inv_replica _ (reachable_inv me w Hw)) as Hr. set (os := snd <$> ops (log w)) in *.
  assert (∀ o, o ∈ os → ClientId o = ClientId o1 → (TimeStamp o < TimeStamp o1)%Z) as H1.
  { intros o ([k o'] & -> & Hin)%list_elem_of_fmap. by apply (Hnew k). }
  assert (∀ o, o ∈ os → ClientId o = ClientId o2 → (TimeStamp o < TimeStamp o2)%Z) as H2.
  { intros o Ho Hid. specialize (H1 o Ho ltac:(congruence)). lia. }
  destruct (apply_op_new os _ o1 Hr H1) as (E1 & _ & Hr1). destruct (apply_op_new os _ o2 Hr H2) as (E2 & _ & Hr2). split.
  - destruct (apply_op_new _ _ o2 Hr1) as (-> & -> & _); [|by rewrite E1].
    intros o [Ho| ->%list_elem_of_singleton]%elem_of_app Hid; [by apply H2|lia].
  - destruct (apply_op_old _ _ o1 o2 Hr2) as (-> & ->); [set_solver|congruence|lia|by rewrite E2].
Qed.

(** ** A small run

Handlers for the witnesses: a join adds the groups in a new configuration, a
query returns the latest one. *)
Definition demo_Join (cs : list Config) (op : Op) : list Config * Op :=
  let c := default zero_config (last cs) in
  (cs ++ [mkConfig (Num c + 1) (Shards c) (ArgsJoin op ∪ Groups c)], op).
Definition demo_Query (cs : list Config) (op : Op) : list Config * Op :=
  (cs, mkOp (Command op) (ArgsJoin op) (ArgsLeave op) (ArgsMoveShard op) (ArgsMoveGid op)
         (ArgsQuery op) (default zero_config (last cs)) (ClientId op) (TimeStamp op)).
Definition demo_matched (a b : Op) : bool :=
  bool_decide (ClientId a = ClientId b ∧ TimeStamp a = TimeStamp b).

#[local] Instance demo_handlers : Handlers := {|
  handleJoin := demo_Join; handleLeave := pair; handleMove := pair;
  handleQuery := demo_Query; isOpMatched := demo_matched |}.

Definition demo_op (cmd : string) (client time : Z) : Op :=
  mkOp cmd {[ 1%Z := ["a"; "b"] ]} [] 0 0 (-1) zero_config client time.
Definition demo_msg (idx : Z) (op : Op) : RaftPeer.ApplyMsg (option Op) :=
  RaftPeer.mkApplyMsg true (Some op) idx false [] 0 0.

(** A join by one client, delivered twice, and a query by another. *)
Definition demo_labels : list label :=
  [LSubmit (demo_op "Join" 7 100) (Some 1%Z); LApply (demo_msg 1 (demo_op "Join" 7 100));
   LKill; LLock 0; LReceive 0; LApply (demo_msg 2 (demo_op "Join" 7 100));
   LSubmit (demo_op "Query" 8 50) (Some 3%Z); LLock 1; LApply (demo_msg 3 (demo_op "Query" 8 50));
   LReceive 1].
Definition demo_world : world := default (initial 0) (run_labels next (initial 0) demo_labels).

Lemma demo_reachable : steps step (initial 0) demo_world.
Proof.
  apply (run_labels_steps next step demo_labels); [|vm_compute; reflexivity].
  intros a l b Hl. by exists l.
Qed.

Lemma replica_state_witness :
  length (configs (sc demo_world)) = 2 ∧ executed (snd <$> ops (log demo_world))
    = [demo_op "Join" 7 100; demo_op "Query" 8 50].
Proof.
  rewrite (replica_state 0 demo_world demo_reachable). split; vm_compute; reflexivity.
Defined.

Definition demo_result : Op := (demo_Query (configs (sc demo_world)) (demo_op "Query" 8 50)).2.

Lemma acknowledged_applied_witness :
  isOpMatched (demo_op "Query" 8 50) demo_result = true ∧
  ∃ idx before o after, Some 3%Z = Some idx ∧ ops (log demo_world) = before ++ (idx, o) :: after ∧
    demo_result = spec_result (snd <$> before) o.
Proof.
  apply (acknowledged_applied 0 demo_world); [exact demo_reachable|].
  apply (list_elem_of_lookup_2 _ 1). vm_compute. reflexivity.
Defined.

Lemma loop_never_blocks_witness : has_lock (loop demo_world) = false.
Proof.
  apply (loop_never_blocks 0 demo_world demo_reachable).
  apply (bool_decide_unpack _). vm_compute. exact I.
Defined.

Lemma never_killed_witness : killed (sc demo_world) = false ∧ loop demo_world ≠ Stopped.
Proof. apply (never_killed 0 demo_world demo_reachable). Defined.

Lemma request_completes_witness :
  Forall (λ ls, ∃ w', run_labels next (initial 0) ls = Some w' ∧ loop w' = Receiving ∧
      calls w' = [Returned (demo_op "Join" 7 100) (Some 1%Z) true (demo_op "Join" 7 100)])
    [[LSubmit (demo_op "Join" 7 100) (Some 1%Z); LApply (demo_msg 1 (demo_op "Join" 7 100));
      LLock 0; LReceive 0];
     [LSubmit (demo_op "Join" 7 100) (Some 1%Z); LLock 0;
      LApply (demo_msg 1 (demo_op "Join" 7 100)); LReceive 0]].
Proof.
  exact (request_completes (initial 0) (demo_op "Join" 7 100) 1 (demo_msg 1 (demo_op "Join" 7 100))
    (demo_op "Join" 7 100) eq_refl eq_refl eq_refl eq_refl).
Defined.

(** Three servers; the first two requests fail. *)
Definition demo_clerk : Clerk nat := MakeClerk [0; 1; 2] 7.
Definition demo_query_call (k : nat) (srv : nat) (args : QueryArgs) : option QueryReply :=
  match k with
  | 0 => None
  | 1 => Some (mkQueryReply true "" zero_config)
  | _ => Some (mkQueryReply false "OK" (mkConfig 5 [] ∅))
  end.
Definition demo_call {A} (k : nat) (srv : nat) (args : A) : option AckReply :=
  if decide (k < 4) then None else Some (mkAckReply false "OK").
Definition demo_now (k : nat) : Z := 100 + Z.of_nat k.

Lemma Query_returns_witness :
  ∃ sent, Query demo_clerk demo_query_call demo_now (-1) 1 = (sent, Some (mkConfig 5 [] ∅)) ∧
    length sent = 3.
Proof.
  apply (Query_returns demo_clerk demo_query_call demo_now (-1) 2 2
    (mkQueryReply false "OK" (mkConfig 5 [] ∅)) 1);
    [reflexivity|reflexivity|reflexivity| |simpl; lia].
  intros [|[|j]] s reply Hj _; simpl; intros ?; simplify_eq/=; [done|lia].
Defined.

Lemma move_retry_deduplicated_witness :
  executed [demo_op "Move" 7 100; demo_op "Move" 7 100] = executed [demo_op "Move" 7 100].
Proof.
  apply (move_retry_deduplicated demo_clerk demo_call demo_now 3 1 2
    (Move demo_clerk demo_call demo_now 3 1 2).1 (Some ()) 1 4 1 (mkMoveArgs 3 1 7 100)
    1 (mkMoveArgs 3 1 7 100) (demo_op "Move" 7 100) (demo_op "Move" 7 100) []);
  vm_compute; reflexivity.
Defined.

Lemma join_retry_not_deduplicated_witness :
  let cs1 := (run_command (configs (sc (initial 0))) (demo_op "Join" 7 101)).1 in
  let in_order := apply_op (apply_op (sc (initial 0)) (demo_op "Join" 7 101)).1 (demo_op "Join" 7 104) in
  let reversed := apply_op (apply_op (sc (initial 0)) (demo_op "Join" 7 104)).1 (demo_op "Join" 7 101) in
  (length (configs in_order.1) = 3 ∧ length (configs reversed.1) = 2) ∧
  (configs in_order.1 = (run_command cs1 (demo_op "Join" 7 104)).1 ∧
   in_order.2 = (run_command cs1 (demo_op "Join" 7 104)).2) ∧
  (configs reversed.1 = (run_command (configs (sc (initial 0))) (demo_op "Join" 7 104)).1 ∧
   reversed.2 = demo_op "Join" 7 101).
Proof.
  intros cs1 in_order reversed. split; [vm_compute; by split|].
  apply (join_retry_not_deduplicated demo_clerk demo_call demo_now ∅ 2
    (Join demo_clerk demo_call demo_now ∅ 2).1 (Some ()) 1 4 1 (mkJoinArgs ∅ 7 101)
    1 (mkJoinArgs ∅ 7 104) (demo_op "Join" 7 101) (demo_op "Join" 7 104) 0 (initial 0));
  try (vm_compute; reflexivity).
  - apply steps_refl.
  - intros k o Ho. by apply not_elem_of_nil in Ho.
Defined.

End ShardCtrler.
