(* ===== verification/ShardKV.v ===== *)
(** * The sharded key/value store ([src/shardkv/{common,client,server}.go])

The clerk in full: [key2shard], and the loops of [Get] and [PutAppend], which
ask the controller for the configuration, try the servers of the group that has
the key's shard, and start again with the next configuration.  The result of
the [i]-th call of the [q]-th round and the [q]-th configuration are parameters.

Of the server, what the repository contains: [StartServer],
[sendToRaftAndWait], [Kill] and [killed]; the handlers and the loops are left
out there. *)

From S2P Require Import Prelude GoStrings Labrpc RaftPeer ShardCtrler.
From stdpp Require Import options.

Module ShardKV.

Abbreviation Config := ShardCtrler.Config.

Definition OK : string := "OK".
Definition ErrNoKey : string := "ErrNoKey".
Definition ErrWrongGroup : string := "ErrWrongGroup".
Definition ErrWrongLeader : string := "ErrWrongLeader".
Definition ErrWrongVersion : string := "ErrWrongVersion".
Definition ErrNotReady : string := "ErrNotReady".

Record PutAppendArgs := mkPutAppendArgs {
  p_Key : string; p_Value : string; p_Op : string; p_ClientId : Z; p_TimeStamp : Z }.
Record PutAppendReply := mkPutAppendReply { p_Config : Config; p_Err : string }.
Record GetArgs := mkGetArgs { g_Key : string; g_ClientId : Z; g_TimeStamp : Z }.
Record GetReply := mkGetReply { g_Err : string; g_Value : string }.

(** ** The clerk *)

Definition key2shard (key : string) : Z :=
  let shard := match key with
               | EmptyString => 0%Z
               | String c _ => Z.of_nat (Ascii.nat_of_ascii c)
               end in
  Z.rem shard ShardCtrler.NShards.

(** [bigx] is what [rand.Int] returned, between 0 and 2^62. *)
Definition nrand (bigx : Z) : Z := int64 bigx.

(** A client end is known by its name; [make_end] is part of [call], below. *)
Record Clerk := mkClerk { sm : ShardCtrler.Clerk Labrpc.iface; config : Config; clientID : Z }.

Definition MakeClerk (ctrlers : list Labrpc.iface) (bigx1 bigx2 : Z) : Clerk :=
  mkClerk (ShardCtrler.MakeClerk ctrlers bigx1) ShardCtrler.zero_config (nrand bigx2).

(** What a reply makes the loop over the servers do. *)
Inductive verdict (V : Type) := Accept (v : V) | Break | Continue.
Arguments Accept {V} _.
Arguments Break {V}.
Arguments Continue {V}.

(** A request that was sent: the round, the server and the arguments. *)
Definition request (A : Type) : Type := nat * string * A.

Section loops.
Context {A R V : Type}.
Context (call : nat → nat → string → A → option R) (judge : R → verdict V).

(** The loop over the servers [srvs] of the group, from position [i]. *)
Fixpoint try_group (q i : nat) (srvs : list string) (args : A) (sent : list (request A))
    : list (request A) * option V :=
  match srvs with
  | [] => (sent, None)
  | srv :: srvs =>
      let sent := sent ++ [(q, srv, args)] in
      match call q i srv args with
      | Some reply =>
          match judge reply with
          | Accept v => (sent, Some v)
          | Break => (sent, None)
          | Continue => try_group q (S i) srvs args sent
          end
      | None => try_group q (S i) srvs args sent
      end
  end.

(** The outer loop, from round [q], for at most [fuel] rounds; [query q] is the
configuration the controller gave for the round. *)
Fixpoint try_rounds (fuel q : nat) (query : nat → Config) (key : string) (args : A)
    (sent : list (request A)) : outcome (list (request A) * option (V * Config)) :=
  match fuel with
  | O => Ok (sent, None)
  | S fuel =>
      let config := query q in
      let shard := key2shard key in
      let* gid := index (ShardCtrler.Shards config) shard in
      match ShardCtrler.Groups config !! gid with
      | Some srvs =>
          match try_group q 0 srvs args sent with
          | (sent, Some v) => Ok (sent, Some (v, config))
          | (sent, None) => try_rounds fuel (S q) query key args sent
          end
      | None => try_rounds fuel (S q) query key args sent
      end
  end.
End loops.

(** The tests on a reply in [Get] and in [PutAppend]. *)
Definition judge_get (r : GetReply) : verdict string :=
  if decide (g_Err r = OK ∨ g_Err r = ErrNoKey) then Accept (g_Value r)
  else if decide (g_Err r = ErrWrongGroup) then Break
  else Continue.

Definition judge_put (r : PutAppendReply) : verdict () :=
  if decide (p_Err r = OK) then Accept ()
  else if decide (p_Err r = ErrWrongGroup) then Break
  else Continue.

(** The result of a call that has returned: the clerk, with the configuration it
holds now, and the value. *)
Definition finish {A V} (ck : Clerk) (r : list (request A) * option (V * Config))
    : list (request A) * option (Clerk * V) :=
  (r.1, (λ vc, (mkClerk (sm ck) vc.2 (clientID ck), vc.1)) <$> r.2).

Definition Get (ck : Clerk) (call : nat → nat → string → GetArgs → option GetReply)
    (query : nat → Config) (now : Z) (key : string) (fuel : nat)
    : outcome (list (request GetArgs) * option (Clerk * string)) :=
  let args := mkGetArgs key (clientID ck) now in
  let* r := try_rounds call judge_get fuel 0 query key args [] in Ok (finish ck r).

Definition PutAppend (ck : Clerk) (call : nat → nat → string → PutAppendArgs → option PutAppendReply)
    (query : nat → Config) (now : Z) (key value op : string) (fuel : nat)
    : outcome (list (request PutAppendArgs) * option (Clerk * ())) :=
  let args := mkPutAppendArgs key value op (clientID ck) now in
  let* r := try_rounds call judge_put fuel 0 query key args [] in Ok (finish ck r).

Definition Put ck call query now key value fuel := PutAppend ck call query now key value "Put" fuel.
Definition Append ck call query now key value fuel :=
  PutAppend ck call query now key value "Append" fuel.

(** ** The server *)

Record Op := mkOp {
  Op_ : string; Key : string; Value : string; ClientId : Z; TimeStamp : Z;
  Config_ : Config; ShardId : Z; ConfigNum : Z; ShardIds : list Z;
  ShardData : list (gmap string string); Ack : gmap Z Z }.

Record ShardKV := mkKV {
  me : Z; rf_dead : Z; dead : Z; gid : Z; maxraftstate : Z;
  commitChan : gmap Z (option Op);
  kv_config : Config; prevConfig : Config;
  data : list (gmap string string); ack : gmap Z Z }.

Definition set_commitChan (kv : ShardKV) (cc : gmap Z (option Op)) : ShardKV :=
  mkKV (me kv) (rf_dead kv) (dead kv) (gid kv) (maxraftstate kv) cc (kv_config kv)
    (prevConfig kv) (data kv) (ack kv).

Definition Kill (kv : ShardKV) : ShardKV :=
  mkKV (me kv) 1 (dead kv) (gid kv) (maxraftstate kv) (commitChan kv) (kv_config kv)
    (prevConfig kv) (data kv) (ack kv).

Definition killed (kv : ShardKV) : bool := bool_decide (dead kv = 1)%Z.

(** [sendToRaftAndWait], one call on its own: [started] is the index that [Start]
returned to a leader, [received] what arrived on the channel before the timeout,
and [isOpMatched] is not in the repository. *)
Definition sendToRaftAndWait (isOpMatched : Op → Op → bool) (kv : ShardKV) (op : Op)
    (started : option Z) (received : option Op) : ShardKV * (bool * Op) :=
  match started with
  | None => (kv, (false, op))
  | Some idx =>
      let kv := match commitChan kv !! idx with
                | Some _ => kv
                | None => set_commitChan kv (<[idx := None]> (commitChan kv))
                end in
      match received with
      | Some r => (set_commitChan kv (<[idx := None]> (commitChan kv)), (isOpMatched op r, r))
      | None => (kv, (false, op))
      end
  end.

(** [decodeSnapshot] is not in the repository. *)
Definition StartServer (decodeSnapshot : ShardKV → ShardKV) (me maxraftstate gid : Z)
    : outcome ShardKV :=
  let kv := mkKV me 0 0 gid maxraftstate ∅ ShardCtrler.zero_config ShardCtrler.zero_config
              (replicate (Z.to_nat ShardCtrler.NShards) ∅) ∅ in
  let* d := for_each (λ d i, set_index d i ∅) (range ShardCtrler.NShards) (data kv) in
  Ok (decodeSnapshot (mkKV (me) 0 0 gid maxraftstate ∅ (kv_config kv) (prevConfig kv) d ∅)).

(** ** Shards *)

(** Every key has a shard: the index is within the array of shards, and
depends on the first byte of the key only. *)
Theorem key2shard_range key :
  (0 ≤ key2shard key < ShardCtrler.NShards)%Z ∧
  ∀ c s, key = String c s → key2shard key = (Z.of_nat (Ascii.nat_of_ascii c) `mod` 10)%Z.
Proof.
  unfold key2shard, ShardCtrler.NShards. split.
  - destruct key as [|c s]; [change (Z.rem 0 10) with 0%Z; lia|]. apply Z.rem_bound_pos; lia.
  - intros c s ->. apply Z.rem_mod_nonneg; lia.
Qed.

Definition shards_ok (c : Config) : Prop := length (ShardCtrler.Shards c) = 10.

(** The group that has the key, in a configuration. *)
Definition group_of (c : Config) (key : string) : option (list string) :=
  ShardCtrler.Shards c !! Z.to_nat (key2shard key) ≫= (ShardCtrler.Groups c !!.).

Lemma key2shard_bounds key : (0 ≤ key2shard key < 10)%Z.
Proof.
  unfold key2shard, ShardCtrler.NShards. destruct key as [|c s];
    [change (Z.rem 0 10) with 0%Z; lia|]. apply Z.rem_bound_pos; lia.
Qed.

Section loop_theorems.
Context {A R V : Type}.
Context (call : nat → nat → string → A → option R) (judge : R → verdict V).
Context (args : A).

(** The verdict on the [i]-th call of round [q]. *)
Definition answer (q i : nat) (srv : string) : verdict V :=
  match call q i srv args with Some r => judge r | None => Continue end.

(** The value round [q] returns: the first server that does not make the loop
continue accepts. *)
Fixpoint group_value (q i : nat) (srvs : list string) : option V :=
  match srvs with
  | [] => None
  | srv :: srvs =>
      match answer q i srv with
      | Accept v => Some v
      | Break => None
      | Continue => group_value q (S i) srvs
      end
  end.
Lemma try_group_spec q i srvs sent :
  ∃ new, try_group call judge q i srvs args sent = (sent ++ new, group_value q i srvs) ∧
    ∀ x, x ∈ new → ∃ srv, x = (q, srv, args) ∧ srv ∈ srvs.
Proof.
  revert i sent. induction srvs as [|srv srvs IH]; intros i sent; simpl.
  { exists []. rewrite app_nil_r. split; [done|]. by intros x ?%not_elem_of_nil. }
  assert (∀ x : request A, x ∈ [(q, srv, args)] → ∃ s, x = (q, s, args) ∧ s ∈ srv :: srvs) as H1.
  { intros x ->%list_elem_of_singleton. exists srv. set_solver. }
  assert (∃ new, try_group call judge q (S i) srvs args (sent ++ [(q, srv, args)])
      = (sent ++ new, group_value q (S i) srvs) ∧
      ∀ x, x ∈ new → ∃ s, x = (q, s, args) ∧ s ∈ srv :: srvs) as Hgo.
  { destruct (IH (S i) (sent ++ [(q, srv, args)])) as (new & -> & Hnew).
    exists ((q, srv, args) :: new). rewrite <-app_assoc. split; [done|].
    intros x [->|Hx]%elem_of_cons; [by apply H1, list_elem_of_singleton|].
    destruct (Hnew x Hx) as (s & ? & ?). exists s. set_solver. }
  unfold answer. destruct (call q i srv args) as [r|]; [|done].
  destruct (judge r); eauto.
Qed.

Context (query : nat → Config) (key : string).

Definition round_value (q : nat) : option V := group_of (query q) key ≫= group_value q 0.

Context (query_ok : ∀ q, shards_ok (query q)).

Lemma group_lookup q :
  ∃ g, index (ShardCtrler.Shards (query q)) (key2shard key) = Ok g ∧
    group_of (query q) key = ShardCtrler.Groups (query q) !! g.
Proof using query_ok.
  pose proof (key2shard_bounds key) as Hb.
  destruct (index_in_range (ShardCtrler.Shards (query q)) (key2shard key)) as [g Hg].
  { unfold len. rewrite (query_ok q). lia. }
  exists g. split; [done|]. apply index_Ok in Hg as [_ Hg]. unfold group_of. by rewrite Hg.
Qed.

(** Each request goes to the group that has the key. *)
Definition routed (x : request A) : Prop :=
  ∃ q srv srvs, x = (q, srv, args) ∧ group_of (query q) key = Some srvs ∧ srv ∈ srvs.

Lemma try_rounds_spec fuel q sent :
  ∃ new res, try_rounds call judge fuel q query key args sent = Ok (sent ++ new, res) ∧
    (∀ x, x ∈ new → routed x) ∧
    match res with
    | Some (v, c) => ∃ q', q ≤ q' < q + fuel ∧ round_value q' = Some v ∧ c = query q' ∧
                           ∀ p, q ≤ p < q' → round_value p = None
    | None => ∀ p, q ≤ p < q + fuel → round_value p = None
    end.
Proof using query_ok.
  revert q sent. induction fuel as [|fuel IH]; intros q sent.
  { exists [], None. simpl. rewrite app_nil_r. split_and!; [done|by intros x ?%not_elem_of_nil|lia]. }
  cbn [try_rounds]. destruct (group_lookup q) as (g & -> & Hg). cbn [bind].
  assert (∀ sent', round_value q = None → ∃ new res,
    try_rounds call judge fuel (S q) query key args sent' = Ok (sent' ++ new, res) ∧
    (∀ x, x ∈ new → routed x) ∧
    match res with
    | Some (v, c) => ∃ q', q ≤ q' < q + S fuel ∧ round_value q' = Some v ∧ c = query q' ∧
                           ∀ p, q ≤ p < q' → round_value p = None
    | None => ∀ p, q ≤ p < q + S fuel → round_value p = None
    end) as Hnext.
  { intros sent' Hq. destruct (IH (S q) sent') as (new & res & -> & Hnew & Hres).
    exists new, res. split_and!; [done..|]. destruct res as [[v c]|].
    - destruct Hres as (q' & Hq' & Hv & -> & Hp). exists q'. split_and!; [lia|lia|done|done|].
      intros p Hpq. destruct (decide (p = q)) as [->|]; [done|]. apply Hp. lia.
    - intros p Hpq. destruct (decide (p = q)) as [->|]; [done|]. apply Hres. lia. }
  rewrite <-Hg. unfold round_value in Hnext at 1.
  destruct (group_of (query q) key) as [srvs|] eqn:Hgr; [|by apply Hnext]. cbn in Hnext.
  destruct (try_group_spec q 0 srvs sent) as (new & -> & Hnew).
  assert (∀ x, x ∈ new → routed x) as Hrouted.
  { intros x (srv & -> & Hin)%Hnew. by exists q, srv, srvs. }
  destruct (group_value q 0 srvs) as [v|] eqn:Hv.
  - exists new, (Some (v, query q)). split_and!; [done..|]. exists q.
    split_and!; [lia|lia| |done|lia]. unfold round_value. by rewrite Hgr.
  - destruct (Hnext (sent ++ new) eq_refl) as (new' & res & -> & Hnew' & Hres).
    exists (new ++ new'), res. rewrite app_assoc. split_and!; [done| |done].
    intros x [?|?]%elem_of_app; auto.
Qed.

End loop_theorems.

(** [Get] asks the right group and returns its answer: it never fails; each
request goes to a server of the group that has the key's shard in the
configuration of its round, and all requests carry the same arguments; it
returns as soon as there is a round in which a server answers with the value or
with no key before any server of the group refuses, the value of the first such
round; and otherwise it goes on. *)
Theorem Get_correct ck call query now key fuel :
  (∀ q, shards_ok (query q)) →
  let args := mkGetArgs key (clientID ck) now in
  let value q := round_value call judge_get args query key q in
  ∃ sent res, Get ck call query now key fuel = Ok (sent, res) ∧
    (∀ x, x ∈ sent → routed args query key x) ∧
    match res with
    | Some (ck', v) => ∃ q, q < fuel ∧ value q = Some v ∧ config ck' = query q ∧
                            ∀ p, p < q → value p = None
    | None => ∀ p, p < fuel → value p = None
    end.
Proof.
  intros Hq args value. unfold Get. fold args.
  destruct (try_rounds_spec call judge_get args query key Hq fuel 0 [])
    as (new & res & -> & Hnew & Hres).
  eexists _, _. split; [done|]. simpl. split; [done|].
  destruct res as [[v c]|]; simpl.
  - destruct Hres as (q & Hlt & Hv & -> & Hp). exists q. split_and!; [lia|done..|].
    intros p Hpq. apply Hp. lia.
  - intros p Hpq. apply Hres. lia.
Qed.

(** [PutAppend] asks the right group, with the same client and time stamp in
each request, and returns exactly when a server of the group has accepted the
operation. *)
Theorem PutAppend_correct ck call query now key val op fuel :
  (∀ q, shards_ok (query q)) →
  let args := mkPutAppendArgs key val op (clientID ck) now in
  let value q := round_value call judge_put args query key q in
  ∃ sent res, PutAppend ck call query now key val op fuel = Ok (sent, res) ∧
    (∀ x, x ∈ sent → routed args query key x) ∧
    (is_Some res ↔ ∃ q, q < fuel ∧ value q = Some ()).
Proof.
  intros Hq args value. unfold PutAppend. fold args.
  destruct (try_rounds_spec call judge_put args query key Hq fuel 0 [])
    as (new & res & -> & Hnew & Hres).
  eexists _, _. split; [done|]. simpl. split; [done|]. rewrite fmap_is_Some.
  destruct res as [[[] c]|]; simpl.
  - destruct Hres as (q & Hlt & Hv & _ & _). split; [|by eauto]. intros _. exists q. split; [lia|done].
  - split; [by intros []|]. intros (q & Hlt & Hv). unfold value in Hv.
    by rewrite Hres in Hv by lia.
Qed.

(** [StartServer] gives ten empty shards to [decodeSnapshot]. *)
Lemma StartServer_data dec i mrs g :
  StartServer dec i mrs g
  = Ok (dec (mkKV i 0 0 g mrs ∅ ShardCtrler.zero_config ShardCtrler.zero_config (replicate 10 ∅) ∅)).
Proof. reflexivity. Qed.

(** [Kill] does not set the flag that the loops of the server test. *)
Lemma Kill_not_killed kv : killed (Kill kv) = killed kv.
Proof. done. Qed.

(** ** A small run *)

Definition demo_clerk : Clerk := MakeClerk (Labrpc.IInt <$> range 3) 3 7.
(** The shard of the key moves from group 1 to group 2. *)
Definition demo_query (q : nat) : Config :=
  ShardCtrler.mkConfig (Z.of_nat q) (replicate 10 (if decide (q = 0) then 1%Z else 2%Z))
    {[ 1%Z := ["a"; "b"]; 2%Z := ["c"; "d"] ]}.
Definition demo_get (q i : nat) (srv : string) (args : GetArgs) : option GetReply :=
  match q, i with
  | 0, 0 => None
  | 0, _ => Some (mkGetReply ErrWrongGroup "")
  | _, 0 => Some (mkGetReply ErrWrongLeader "")
  | _, _ => Some (mkGetReply OK "v")
  end.
Definition demo_put (q i : nat) (srv : string) (args : PutAppendArgs) : option PutAppendReply :=
  match q, i with
  | 0, _ => Some (mkPutAppendReply ShardCtrler.zero_config ErrWrongGroup)
  | _, _ => Some (mkPutAppendReply ShardCtrler.zero_config OK)
  end.

Lemma demo_query_ok q : shards_ok (demo_query q).
Proof. reflexivity. Qed.

Lemma Get_correct_witness :
  let args := mkGetArgs "k" 7 100 in
  ∃ sent res, Get demo_clerk demo_get demo_query 100 "k" 3 = Ok (sent, res) ∧
    (∀ x, x ∈ sent → routed args demo_query "k" x) ∧
    match res with
    | Some (ck', v) => ∃ q, q < 3 ∧
        round_value demo_get judge_get args demo_query "k" q = Some v ∧ config ck' = demo_query q ∧
        ∀ p, p < q → round_value demo_get judge_get args demo_query "k" p = None
    | None => ∀ p, p < 3 → round_value demo_get judge_get args demo_query "k" p = None
    end.
Proof. exact (Get_correct demo_clerk demo_get demo_query 100 "k" 3 demo_query_ok). Defined.

Lemma PutAppend_correct_witness :
  let args := mkPutAppendArgs "k" "v" "Put" 7 100 in
  ∃ sent res, PutAppend demo_clerk demo_put demo_query 100 "k" "v" "Put" 3 = Ok (sent, res) ∧
    (∀ x, x ∈ sent → routed args demo_query "k" x) ∧
    (is_Some res ↔ ∃ q, q < 3 ∧ round_value demo_put judge_put args demo_query "k" q = Some ()).
Proof.
  exact (PutAppend_correct demo_clerk demo_put demo_query 100 "k" "v" "Put" 3 demo_query_ok).
Defined.

Example demo_get_result :
  match Get demo_clerk demo_get demo_query 100 "k" 3 with
  | Ok (sent, Some (_, v)) => v = "v" ∧ length sent = 4
  | _ => False
  end.
Proof. vm_compute. split; reflexivity. Qed.

End ShardKV.
