(* ===== verification/CtrlCluster.v ===== *)
(** * The controller service: servers over one replicated log

The servers of [ShardCtrler] together.  Raft's code is not part of the repository; it
is here what the comments of [src/raft/raft.go] promise the service: the commands
agreed on form one list that only grows, the command with index [k] is the [k]-th of
it, every server is told of them in order from the first on, [Start] gives the index
at which the command will be if it is ever agreed on, and nothing else is.  Nothing is
asked of the leader: a server may believe that it is one at any time, and the indices
that [Start] gives may be taken by other commands, or never.

A server that is shut down and started again is a new instance, which is told of the
commands from the first on; the old instance, which [Kill] does not stop, may go on. *)

From S2P Require Import Prelude RaftPeer ShardCtrler.
From stdpp Require Import options.
Import ShardCtrler.

Module CtrlCluster.

Global Instance Config_eq_dec : EqDecision Config.
Proof. solve_decision. Defined.
Global Instance Op_eq_dec : EqDecision Op.
Proof. solve_decision. Defined.

(** ** The machine *)

(** The message that tells of the command with index [k]; [None] is a command that is
not an [Op]. *)
Definition message (k : Z) (e : option Op) : RaftPeer.ApplyMsg (option Op) :=
  RaftPeer.mkApplyMsg true e k false [] 0 0.

Fixpoint messages_from (k : Z) (l : list (option Op)) : list (RaftPeer.ApplyMsg (option Op)) :=
  match l with
  | [] => []
  | e :: l => message k e :: messages_from (k + 1) l
  end.
Definition messages (l : list (option Op)) : list (RaftPeer.ApplyMsg (option Op)) := messages_from 1 l.

(** The operations among the commands. *)
Definition commands (l : list (option Op)) : list Op := omap (λ e, e) l.

Record service := mkService {
  insts : list world;                 (* the instances of servers *)
  chosen : list (option Op);          (* the commands agreed on *)
  issued : list (Z * Op) }.           (* what [Start] was asked for, with its index *)

Inductive clabel :=
| CStart (me : Z)
| CLocal (j : nat) (l : label)
| CSubmit (j : nat) (op : Op) (index : Z)
| CChoose (e : option Op)
| CDeliver (j : nat).

(** Steps of a server that do not involve Raft, or find that it is not the leader. *)
Definition is_local (l : label) : bool :=
  match l with LSubmit _ (Some _) | LApply _ => false | _ => true end.

Section service.
Context `{Handlers}.

Definition inst_step (c : service) (j : nat) (l : label) (issued' : list (Z * Op)) : option service :=
  match insts c !! j with
  | Some w => match next w l with
              | Some w' => Some (mkService (<[j := w']> (insts c)) (chosen c) issued')
              | None => None
              end
  | None => None
  end.

Definition service_next (c : service) (l : clabel) : option service :=
  match l with
  | CStart me =>
      match StartServer me with
      | Ok s => Some (mkService (insts c ++ [mkWorld s Receiving [] []]) (chosen c) (issued c))
      | Crash _ => None
      end
  | CLocal j l => if is_local l then inst_step c j l (issued c) else None
  | CSubmit j op index => inst_step c j (LSubmit op (Some index)) (issued c ++ [(index, op)])
  | CChoose e =>
      if match e with
         | Some op => bool_decide ((Z.of_nat (length (chosen c)) + 1, op)%Z ∈ issued c)
         | None => true
         end
      then Some (mkService (insts c) (chosen c ++ [e]) (issued c)) else None
  | CDeliver j =>
      match insts c !! j with
      | Some w =>
          match chosen c !! length (log w) with
          | Some e => inst_step c j (LApply (message (Z.of_nat (length (log w)) + 1) e)) (issued c)
          | None => None
          end
      | None => None
      end
  end.

Definition service_step (c c' : service) : Prop := ∃ l, service_next c l = Some c'.
Definition service_start : service := mkService [] [] [].
Definition reached (c : service) : Prop := steps service_step service_start c.

(** ** The log and what an instance has been told *)

Lemma messages_from_app k l1 l2 :
  messages_from k (l1 ++ l2) = messages_from k l1 ++ messages_from (k + Z.of_nat (length l1)) l2.
Proof.
  revert k. induction l1 as [|e l1 IH]; intros k; cbn -[Z.of_nat]; [by rewrite Z.add_0_r|].
  rewrite IH. do 3 f_equal. lia.
Qed.

Lemma messages_from_length k l : length (messages_from k l) = length l.
Proof. revert k. induction l as [|e l IH]; intros k; cbn; [done|]. by rewrite IH. Qed.

Lemma messages_length l : length (messages l) = length l.
Proof. apply messages_from_length. Qed.

Lemma messages_snoc l e : messages (l ++ [e]) = messages l ++ [message (Z.of_nat (length l) + 1) e].
Proof. unfold messages. rewrite messages_from_app. cbn. do 3 f_equal. lia. Qed.

Lemma messages_prefix l1 l2 : l1 `prefix_of` l2 → messages l1 `prefix_of` messages l2.
Proof. intros [l ->]. unfold messages. rewrite messages_from_app. by eexists. Qed.

Lemma commands_app l1 l2 : commands (l1 ++ l2) = commands l1 ++ commands l2.
Proof. apply omap_app. Qed.

Lemma commands_prefix l l' : l `prefix_of` l' → commands l `prefix_of` commands l'.
Proof. intros [k ->]. rewrite commands_app. by eexists. Qed.

Lemma take_prefix_of {A} n m (l l' : list A) :
  l `prefix_of` l' → n ≤ m → n ≤ length l → take n l `prefix_of` take m l'.
Proof.
  intros [k ->] Hnm Hn. exists (drop n (take m (l ++ k))).
  rewrite <-(take_drop n (take m (l ++ k))) at 1. by rewrite take_take, Nat.min_l, take_app_le.
Qed.

Lemma ops_messages_from k l : snd <$> ops (messages_from k l) = commands l.
Proof.
  revert k. induction l as [|[op|] l IH]; intros k; cbn; [done| |].
  - f_equal. apply IH.
  - apply IH.
Qed.

Lemma ops_messages l : snd <$> ops (messages l) = commands l.
Proof. apply ops_messages_from. Qed.

Lemma messages_index k l i o :
  (i, o) ∈ ops (messages_from k l) → (k ≤ i < k + Z.of_nat (length l))%Z.
Proof.
  revert k. induction l as [|e l IH]; intros k; cbn -[Z.of_nat]; [by intros ?%not_elem_of_nil|].
  destruct e as [op|]; cbn -[Z.of_nat].
  - intros [?|Hin%IH]%elem_of_cons; [simplify_eq|]; lia.
  - intros Hin%IH. lia.
Qed.

Lemma messages_NoDup k l : NoDup (fst <$> ops (messages_from k l)).
Proof.
  revert k. induction l as [|e l IH]; intros k; cbn; [constructor|]. destruct e as [op|]; cbn; [|apply IH].
  constructor; [|apply IH]. intros ([i o] & -> & Hin)%list_elem_of_fmap. apply messages_index in Hin. cbn in Hin. lia.
Qed.

(** The operation at an index, and those before it. *)
Lemma messages_split k l before idx o after :
  ops (messages_from k l) = before ++ (idx, o) :: after →
  (k ≤ idx)%Z ∧ l !! Z.to_nat (idx - k) = Some (Some o) ∧ snd <$> before = commands (take (Z.to_nat (idx - k)) l).
Proof.
  revert k before. induction l as [|e l IH]; intros k before Heq; cbn in Heq.
  { by destruct before. }
  assert (∀ b, ops (messages_from (k + 1) l) = b ++ (idx, o) :: after →
    (k ≤ idx)%Z ∧ (e :: l) !! Z.to_nat (idx - k) = Some (Some o) ∧
    commands [e] ++ (snd <$> b) = commands (take (Z.to_nat (idx - k)) (e :: l))) as Hgo.
  { intros b Hb. destruct (IH _ _ Hb) as (Hk & Hl & Hs).
    replace (Z.to_nat (idx - k)) with (S (Z.to_nat (idx - (k + 1)))) by lia. cbn [lookup list_lookup take].
    split_and!; [lia|done|]. rewrite Hs. by destruct e. }
  destruct e as [op|]; cbn in Heq; [|by apply (Hgo before)].
  destruct before as [|x before]; simplify_eq/=.
  - rewrite Z.sub_diag. by split_and!.
  - by apply (Hgo before).
Qed.

Record service_inv (c : service) : Prop := {
  si_run : ∀ j w, insts c !! j = Some w → ∃ me, steps step (initial me) w;
  si_log : ∀ j w, insts c !! j = Some w → log w = messages (take (length (log w)) (chosen c));
  si_issued : ∀ k op, chosen c !! k = Some (Some op) → (Z.of_nat k + 1, op)%Z ∈ issued c }.

Lemma next_log w l w' :
  next w l = Some w' → log w' = log w ++ match l with LApply m => [m] | _ => [] end.
Proof.
  destruct l; cbn [next]; intros Hn; repeat case_match; simplify_eq/=; by rewrite ?app_nil_r.
Qed.

(** What becomes of an invariant of the instances. *)
Lemma inst_step_inv c j l issued' c' :
  service_inv c → inst_step c j l issued' = Some c' → issued c ⊆ issued' →
  match l with
  | LApply m => ∃ w e, insts c !! j = Some w ∧ chosen c !! length (log w) = Some e ∧
                  m = message (Z.of_nat (length (log w)) + 1) e
  | _ => True
  end → service_inv c'.
Proof.
  intros [Hr Hl Hi] Hs Hsub Hm. unfold inst_step in Hs. destruct (insts c !! j) as [w|] eqn:Hj; [|done].
  destruct (next w l) as [w'|] eqn:Hn; [|done]. injection Hs as <-.
  pose proof (next_log _ _ _ Hn) as Hlog. split; cbn.
  - intros k v [(<- & <- & _)|[_ Hk]]%list_lookup_insert_Some; [|eauto].
    destruct (Hr j w Hj) as [me Hme]. exists me. eapply steps_step; [done|by exists l].
  - intros k v [(<- & <- & _)|[_ Hk]]%list_lookup_insert_Some; [|eauto].
    destruct l; rewrite ?app_nil_r in Hlog; try (rewrite Hlog; eauto; fail).
    destruct Hm as (? & e & [= <-] & He & ->). rewrite Hlog, length_app. cbn. rewrite Nat.add_1_r.
    rewrite (take_S_r _ _ _ He), messages_snoc, length_take. rewrite <-(Hl j w Hj) at 1.
    apply lookup_lt_Some in He. do 4 f_equal. lia.
  - intros k op Hk. by apply Hsub, Hi.
Qed.

Lemma service_inv_step c c' : service_inv c → service_step c c' → service_inv c'.
Proof.
  intros Hc [l Hl]. destruct l as [me|j l|j op index|e|j]; cbn [service_next] in Hl.
  - rewrite StartServer_spec in Hl. injection Hl as <-. destruct Hc as [Hr Hl Hi].
    split; [| |done]; intros j w [Hj|[_ Hj]]%lookup_app_Some; eauto;
      apply list_lookup_singleton_Some in Hj as [_ <-]; [exists me; apply steps_refl|done].
  - destruct (is_local l) eqn:Hloc; [|done]. eapply inst_step_inv; [done..|]. by destruct l.
  - eapply inst_step_inv; [done|exact Hl|set_solver|done].
  - destruct Hc as [Hr Hlog Hi]. case_match eqn:He; [|done]. injection Hl as <-. split; cbn; [done| |].
    + intros j w Hj. rewrite (Hlog j w Hj) at 1. rewrite take_app_le; [done|].
      rewrite (Hlog j w Hj), messages_length, length_take. lia.
    + intros k op [Hk|[Hk Hop]]%lookup_app_Some; [eauto|]. apply list_lookup_singleton_Some in Hop as [Hz ->].
      apply bool_decide_eq_true in He. by replace k with (length (chosen c)) by lia.
  - destruct (insts c !! j) as [w|] eqn:Hj; [|done]. destruct (chosen c !! length (log w)) as [e|] eqn:He; [|done].
    eapply inst_step_inv; [done|exact Hl|done|]. by exists w, e.
Qed.

Lemma service_reached c : reached c → service_inv c.
Proof.
  apply (steps_invariant service_step service_inv); [apply service_inv_step|].
  split; cbn; intros *; by rewrite lookup_nil.
Qed.

(** *** Instances *)

(** The operations an instance has been told of. *)
Definition told (c : service) (w : world) : list Op := commands (take (length (log w)) (chosen c)).

Lemma inst_ops c j w : service_inv c → insts c !! j = Some w → snd <$> ops (log w) = told c w.
Proof. intros Hc Hj. rewrite (si_log _ Hc j w Hj) at 1. apply ops_messages. Qed.

Lemma inst_inv c j w : service_inv c → insts c !! j = Some w → inv w.
Proof. intros Hc Hj. destruct (si_run _ Hc j w Hj) as [me Hme]. by eapply reachable_inv. Qed.

Lemma inst_replica c j w : service_inv c → insts c !! j = Some w → replica_ok (told c w) (sc w).
Proof. intros Hc Hj. rewrite <-(inst_ops c j w Hc Hj). apply (inv_replica _ (inst_inv c j w Hc Hj)). Qed.

Lemma told_all c w : length (log w) = length (chosen c) → told c w = commands (chosen c).
Proof. unfold told. intros ->. by rewrite firstn_all. Qed.

Lemma inst_configs c j w :
  service_inv c → insts c !! j = Some w → configs (sc w) = spec_configs (told c w).
Proof. intros Hc Hj. apply (inst_replica c j w Hc Hj). Qed.

(** An instance is never stuck: an index is told of once. *)
Lemma inst_receiving c j w : service_inv c → insts c !! j = Some w → loop w = Receiving.
Proof.
  intros Hc Hj. pose proof (inst_inv c j w Hc Hj) as Hw. destruct (loop w) as [|i o|] eqn:Hl; [done| |].
  - destruct (inv_blocked _ Hw i o) as [_ []]; [by rewrite Hl|]. rewrite (si_log _ Hc j w Hj). apply messages_NoDup.
  - by destruct (inv_running _ Hw).
Qed.

(** An acknowledged request is an operation of the log, as the state machine returned it. *)
Lemma acked_at c j w op oi r :
  service_inv c → insts c !! j = Some w → Returned op oi true r ∈ calls w →
  ∃ idx o, oi = Some idx ∧ (1 ≤ idx ≤ Z.of_nat (length (log w)))%Z ∧
    chosen c !! Z.to_nat (idx - 1) = Some (Some o) ∧ isOpMatched op r = true ∧
    r = spec_result (commands (take (Z.to_nat (idx - 1)) (chosen c))) o.
Proof.
  intros Hc Hj Hr. destruct (inv_calls _ (inst_inv c j w Hc Hj) _ _ _ Hr) as (Hm & idx & -> & Hin).
  destruct (results_elem [] _ idx r Hin) as (b & o & a & Eops & Er). rewrite (si_log _ Hc j w Hj) in Eops.
  destruct (messages_split _ _ _ _ _ _ Eops) as (Hk & Hl & Hb). exists idx, o.
  apply lookup_take_Some in Hl as [Hl Hlt]. rewrite take_take, Nat.min_l in Hb by lia.
  split_and!; [done|lia|lia|done|done|]. by rewrite Er, Hb.
Qed.

(** ** What was executed *)

Lemma executed_prefix os os' : os `prefix_of` os' → executed os `prefix_of` executed os'.
Proof. intros [l ->]. unfold executed. rewrite executed_from_app. by eexists. Qed.

Definition ids (op : Op) : Z * Z := (ClientId op, TimeStamp op).

Lemma executed_covers os o :
  o ∈ os → ∃ e, e ∈ executed os ∧ ClientId e = ClientId o ∧ (TimeStamp o ≤ TimeStamp e)%Z.
Proof.
  revert o. induction os as [|o' os IH] using rev_ind; [by intros ? ?%not_elem_of_nil|].
  intros o. rewrite executed_snoc. setoid_rewrite elem_of_app.
  intros [(e & He & ?)%IH| ->%list_elem_of_singleton]; [eauto|].
  destruct (is_new os o') eqn:Hn; [exists o'; set_solver|].
  destruct (decide (Exists (λ o, ClientId o = ClientId o' ∧ TimeStamp o' ≤ TimeStamp o)%Z os)) as [Hex|Hno].
  - apply Exists_exists in Hex as (o & (e & He & Hid' & Hle')%IH & Hid & Hle). exists e. split_and!; [by left|congruence|lia].
  - assert (is_new os o' = true) as Hnew; [|congruence]. apply is_new_spec. intros o Ho Hid.
    apply not_Exists_Forall in Hno; [|apply _]. rewrite Forall_forall in Hno. specialize (Hno o Ho). cbn in Hno.
    destruct (decide (TimeStamp o' ≤ TimeStamp o)%Z); [tauto|lia].
Qed.

Lemma executed_NoDup os : NoDup (ids <$> executed os).
Proof.
  induction os as [|o os IH] using rev_ind; [constructor|]. rewrite executed_snoc, fmap_app.
  destruct (is_new os o) eqn:Hn; [|by rewrite app_nil_r]. apply NoDup_app. split_and!; [done| |apply NoDup_singleton].
  intros x (e & -> & He)%list_elem_of_fmap Hx. apply list_elem_of_singleton in Hx. injection Hx as Hid Ht.
  apply executed_incl in He. rewrite is_new_spec in Hn. specialize (Hn e He Hid). lia.
Qed.

(** The one place where an operation is executed. *)
Lemma executed_once os e :
  e ∈ executed os → ∃ before after, executed os = before ++ e :: after ∧ ∀ o, o ∈ before ++ after → ids o ≠ ids e.
Proof.
  intros (b & a & Heq)%list_elem_of_split. exists b, a. split; [done|]. intros o Ho Hid.
  pose proof (executed_NoDup os) as Hnd. rewrite Heq, fmap_app in Hnd. cbn in Hnd.
  apply NoDup_app in Hnd as (_ & Hd & [Hn _]%NoDup_cons). apply elem_of_app in Ho as [Ho|Ho].
  - apply (Hd (ids o)); [by apply list_elem_of_fmap_2|]. rewrite Hid. set_solver.
  - apply Hn. rewrite <-Hid. by apply list_elem_of_fmap_2.
Qed.

(** ** Agreement *)

(** C11. The servers of the controller agree.  In every state that requests, elections,
failures and restarts can bring the service to, no server is stuck, and of any two
instances of servers, the one that has been told of more commands has the
configurations that the other will have, or has: those of the other with more
operations run on them.  In particular two that have been told of equally many have
the same. *)
Theorem service_agreement c j1 w1 j2 w2 :
  reached c → insts c !! j1 = Some w1 → insts c !! j2 = Some w2 → length (log w1) ≤ length (log w2) →
  (loop w1 = Receiving ∧ loop w2 = Receiving) ∧
  ∃ later, executed (told c w2) = executed (told c w1) ++ later ∧
    configs (sc w2) = foldl (λ cs o, (run_command cs o).1) (configs (sc w1)) later ∧
    (length (log w1) = length (log w2) → later = []).
Proof.
  intros Hc%service_reached H1 H2 Hle. split; [eauto using inst_receiving|].
  assert (told c w1 `prefix_of` told c w2) as Hp.
  { apply commands_prefix, take_prefix_of; [done..|]. rewrite (si_log _ Hc j1 w1 H1), messages_length, length_take. lia. }
  destruct (executed_prefix _ _ Hp) as [later Hl]. exists later. split_and!; [done| |].
  - rewrite (inst_configs c j1 w1), (inst_configs c j2 w2), !spec_configs_executed by done. by rewrite Hl, foldl_app.
  - intros Heq. unfold told in Hl. rewrite Heq in Hl. apply (f_equal length) in Hl. rewrite length_app in Hl.
    apply nil_length_inv. lia.
Qed.

(** ** Requests *)

Lemma chosen_grows c c' : steps service_step c c' → chosen c `prefix_of` chosen c'.
Proof.
  intros Hs. induction Hs as [|c1 c2 c3 _ IH [l Hl]]; [done|]. etrans; [exact IH|].
  destruct l; cbn [service_next] in Hl; unfold inst_step in Hl; repeat case_match; simplify_eq/=; try done; by eexists.
Qed.

Lemma commands_elem l k op : l !! k = Some (Some op) → op ∈ commands l.
Proof. intros Hk. apply list_elem_of_omap. exists (Some op). split; [|done]. by eapply list_elem_of_lookup_2. Qed.

(** What the service asks of the hidden functions: the handlers keep whose operation it
is, [isOpMatched] accepts the operation itself, as it is or been through its handler,
and no operation of another client or another time. *)
Class HandlerLaws : Prop := {
  run_ids : ∀ cs op, ids (run_command cs op).2 = ids op;
  matched_ids : ∀ a b, isOpMatched a b = true → ids a = ids b;
  matched_self : ∀ op, isOpMatched op op = true;
  matched_run : ∀ cs op, isOpMatched op (run_command cs op).2 = true }.

Section requests.
Context `{laws : !HandlerLaws}.

Lemma result_ids os op : ids (spec_result os op) = ids op.
Proof using laws. unfold spec_result. destruct (is_new os op); [apply run_ids|done]. Qed.

(** The result of an operation, by what comes before it of the client of [op]. *)
Lemma result_cases earlier o op r :
  ids o = ids op → r = spec_result earlier o →
  ((∀ o', o' ∈ earlier → ClientId o' = ClientId op → (TimeStamp o' < TimeStamp op)%Z) →
   r = (run_command (spec_configs earlier) o).2) ∧
  ((∃ o', o' ∈ earlier ∧ ClientId o' = ClientId op ∧ (TimeStamp op ≤ TimeStamp o')%Z) → r = o).
Proof using Type.
  intros [= <- <-] ->. split; [by intros ?%spec_result_new|].
  intros (o' & Ho & Hid & Hle). by apply (spec_result_old _ _ o').
Qed.

(** The operation that an acknowledged request stands for. *)
Lemma acked_op c j w op idx r :
  service_inv c → insts c !! j = Some w → Returned op (Some idx) true r ∈ calls w →
  ∃ o, chosen c !! Z.to_nat (idx - 1) = Some (Some o) ∧ ids o = ids op ∧
    (1 ≤ idx ≤ Z.of_nat (length (log w)))%Z ∧ length (log w) ≤ length (chosen c) ∧
    r = spec_result (commands (take (Z.to_nat (idx - 1)) (chosen c))) o.
Proof using laws.
  intros Hc Hj Hr. destruct (acked_at c j w op _ r Hc Hj Hr) as (? & o & [= <-] & Hidx & Ho & Hm & Er).
  exists o. split_and!; [done| |lia|lia| |done].
  - apply matched_ids in Hm. by rewrite Hm, Er, result_ids.
  - rewrite (si_log _ Hc j w Hj), messages_length, length_take. lia.
Qed.

(** An operation that an acknowledged request stands for was executed before or there. *)
Lemma acked_executed c j w op idx r :
  service_inv c → insts c !! j = Some w → Returned op (Some idx) true r ∈ calls w →
  (∀ o, o ∈ commands (take (Z.to_nat idx) (chosen c)) → ClientId o = ClientId op → (TimeStamp o ≤ TimeStamp op)%Z) →
  ∃ e, e ∈ executed (commands (take (Z.to_nat idx) (chosen c))) ∧ ids e = ids op.
Proof using laws.
  intros Hc Hj Hr Hmax. destruct (acked_op c j w op idx r Hc Hj Hr) as (o & Ho & Hid & Hidx & _ & _).
  injection Hid as Hcl Hts. destruct (executed_covers (commands (take (Z.to_nat idx) (chosen c))) o) as (e & He & Hce & Hte).
  { apply (commands_elem _ (Z.to_nat (idx - 1))). rewrite lookup_take_lt by lia. done. }
  exists e. split; [done|]. apply executed_incl in He. specialize (Hmax e He ltac:(congruence)).
  unfold ids. f_equal; [congruence|lia].
Qed.

(** Exactly once.  When a server has acknowledged a request, an operation of its
client with its time stamp has been executed, in the log of all servers, once and for
ever: whatever happens from then on, whatever retries reach whatever servers, the
operations executed have it once, every instance, restarted ones too, has run the
first so many of them, and those told of the commands up to the request's index have
run it.  Of the client it is asked that it has used no later time stamp up to there. *)
Lemma acked_exactly_once c j w op idx r c' :
  reached c → insts c !! j = Some w → Returned op (Some idx) true r ∈ calls w →
  (∀ o, o ∈ commands (take (Z.to_nat idx) (chosen c)) → ClientId o = ClientId op → (TimeStamp o ≤ TimeStamp op)%Z) →
  steps service_step c c' →
  ∃ before e after, executed (commands (chosen c')) = before ++ e :: after ∧ ids e = ids op ∧
    (∃ i, (i, e) ∈ issued c') ∧ (∀ o, o ∈ before ++ after → ids o ≠ ids op) ∧
    ∀ j' w', insts c' !! j' = Some w' →
      ∃ ran, ran `prefix_of` before ++ e :: after ∧
        configs (sc w') = foldl (λ cs o, (run_command cs o).1) [zero_config] ran ∧
        ((idx ≤ Z.of_nat (length (log w')))%Z → e ∈ ran).
Proof using laws.
  intros Hreach Hj Hr Hmax Hsteps. pose proof (service_reached c Hreach) as Hc.
  assert (service_inv c') as Hc' by (apply service_reached; by eapply steps_trans).
  destruct (acked_executed c j w op idx r Hc Hj Hr Hmax) as (e & He & Hid).
  destruct (acked_op c j w op idx r Hc Hj Hr) as (_ & _ & _ & Hidx & Hlen & _).
  pose proof (chosen_grows c c' Hsteps) as Hp. set (n := Z.to_nat idx) in *.
  assert (e ∈ executed (commands (chosen c'))) as He'.
  { eapply elem_of_prefix; [exact He|]. apply executed_prefix, commands_prefix. etrans; [apply prefix_take|done]. }
  destruct (executed_once _ e He') as (b & a & Heq & Hno). exists b, e, a. rewrite <-Hid.
  split_and!; [done|done| |done|].
  - apply executed_incl in He'. apply list_elem_of_omap in He' as (x & [k Hk]%list_elem_of_lookup & ->).
    eexists. by apply (si_issued _ Hc').
  - intros j' w' Hj'. exists (executed (told c' w')). split_and!.
    + rewrite <-Heq. apply executed_prefix, commands_prefix, prefix_take.
    + by rewrite (inst_configs c' j' w'), spec_configs_executed.
    + intros Hle. eapply elem_of_prefix; [exact He|]. apply executed_prefix, commands_prefix, take_prefix_of; [done|lia..].
Qed.

(** C12. In the order of the requests.  Suppose that a request was acknowledged while
nothing of another one (its client and time stamp) had been agreed on, as when the other
is made after the answer, and that the other is acknowledged at last, at whatever
server.  Then the second one's index is the larger: the commands before it contain
those up to the first one's index.  If none of the commands before it is of its client
with its time or a later one, its answer is that of running its operation on the
configurations that all the commands before it produce; otherwise its operation is not
run, and comes back as it was sent. *)
Theorem requests_in_order c1 jA wA opA iA rA c2 jB wB opB iB rB :
  reached c1 → insts c1 !! jA = Some wA → Returned opA (Some iA) true rA ∈ calls wA →
  (∀ o, o ∈ commands (chosen c1) → ids o ≠ ids opB) → steps service_step c1 c2 →
  insts c2 !! jB = Some wB → Returned opB (Some iB) true rB ∈ calls wB →
  let earlier := commands (take (Z.to_nat (iB - 1)) (chosen c2)) in
  (iA < iB)%Z ∧ commands (take (Z.to_nat iA) (chosen c1)) `prefix_of` earlier ∧
  ∃ o, chosen c2 !! Z.to_nat (iB - 1) = Some (Some o) ∧ ids o = ids opB ∧
    ((∀ o', o' ∈ earlier → ClientId o' = ClientId opB → (TimeStamp o' < TimeStamp opB)%Z) →
     rB = (run_command (spec_configs earlier) o).2) ∧
    ((∃ o', o' ∈ earlier ∧ ClientId o' = ClientId opB ∧ (TimeStamp opB ≤ TimeStamp o')%Z) → rB = o).
Proof using laws.
  intros Hreach HjA HrA Hfresh Hsteps HjB HrB earlier. pose proof (service_reached c1 Hreach) as Hc1.
  assert (service_inv c2) as Hc2 by (apply service_reached; by eapply steps_trans).
  destruct (acked_op c1 jA wA opA iA rA Hc1 HjA HrA) as (_ & _ & _ & HiA & HlA & _).
  destruct (acked_op c2 jB wB opB iB rB Hc2 HjB HrB) as (o & Ho & Hid & HiB & _ & Er).
  pose proof (chosen_grows c1 c2 Hsteps) as Hp.
  assert (Z.of_nat (length (chosen c1)) < iB)%Z as Hlt.
  { destruct (decide (Z.of_nat (length (chosen c1)) < iB)%Z) as [|Hge]; [done|].
    destruct (lookup_lt_is_Some_2 (chosen c1) (Z.to_nat (iB - 1))) as [x Hx]; [lia|].
    pose proof (prefix_lookup_Some _ _ _ _ Hx Hp). assert (x = Some o) as -> by congruence.
    destruct (Hfresh o (commands_elem _ _ _ Hx) Hid). }
  split_and!; [lia|apply commands_prefix, take_prefix_of; [done|lia..]|].
  destruct (result_cases earlier o opB rB Hid Er) as [? ?]. by exists o.
Qed.

(** ** A request can be answered *)

(** The next command is delivered. *)
Lemma deliver_one c j w e :
  service_inv c → insts c !! j = Some w → chosen c !! length (log w) = Some e →
  ∃ w', service_next c (CDeliver j) = Some (mkService (<[j := w']> (insts c)) (chosen c) (issued c)) ∧
    calls w' = calls w ∧ length (log w') = S (length (log w)).
Proof using Type.
  intros Hc Hj He. pose proof (inst_receiving c j w Hc Hj) as Hl.
  destruct (inv_replica _ (inst_inv c j w Hc Hj)) as (_ & _ & Hd).
  cbn [service_next]. rewrite Hj, He. unfold inst_step. rewrite Hj. cbn [next]. rewrite Hl.
  unfold killed. rewrite Hd. cbn [bool_decide]. destruct (receive _ _) as [s' l'].
  eexists. split_and!; [done|done|]. cbn. rewrite length_app. cbn. lia.
Qed.

Lemma catch_up c j w :
  reached c → insts c !! j = Some w →
  ∃ c' w', steps service_step c c' ∧ insts c' !! j = Some w' ∧ chosen c' = chosen c ∧ issued c' = issued c ∧
    calls w' = calls w ∧ length (log w') = length (chosen c).
Proof using Type.
  remember (length (chosen c) - length (log w)) as n eqn:Hn. revert c w Hn.
  induction n as [|n IH]; intros c w Hn Hc Hj; pose proof (service_reached c Hc) as Hi.
  - exists c, w. split_and!; try done; [apply steps_refl|].
    assert (length (log w) ≤ length (chosen c)); [|lia].
    rewrite (si_log _ Hi j w Hj), messages_length, length_take. lia.
  - destruct (lookup_lt_is_Some_2 (chosen c) (length (log w))) as [e He]; [lia|].
    destruct (deliver_one c j w e Hi Hj He) as (w1 & Hs & Hcalls & Hlog).
    assert (steps service_step c (mkService (<[j := w1]> (insts c)) (chosen c) (issued c))) as H1
      by (apply steps_one; by exists (CDeliver j)).
    destruct (IH (mkService (<[j := w1]> (insts c)) (chosen c) (issued c)) w1) as (c' & w' & Hs' & Hj' & Hch & Hiss & Hcl & Hlg); cbn; [lia| | |].
    { by eapply steps_trans. }
    { apply list_lookup_insert_eq. by eapply lookup_lt_Some. }
    exists c', w'. split_and!; [by eapply steps_trans|done..|congruence|done].
Qed.

(** The life of a request whose operation comes at its index, when the channel of the
index is empty or does not exist. *)
Lemma request_life w op idx m :
  loop w = Receiving → killed (sc w) = false → mjoin (indexChan (sc w) !! idx) = None →
  op_of m = Some (idx, op) →
  let i := length (calls w) in let r := (apply_op (sc w) op).2 in
  ∃ w1 w2 w3 w4, next w (LSubmit op (Some idx)) = Some w1 ∧ next w1 (LLock i) = Some w2 ∧
    next w2 (LApply m) = Some w3 ∧ next w3 (LReceive i) = Some w4 ∧
    log w1 = log w ∧ log w2 = log w ∧ configs (sc w4) = configs (apply_op (sc w) op).1 ∧
    calls w4 = calls w ++ [Returned op (Some idx) (isOpMatched op r) r].
Proof using Type.
  intros Hl Hk Hx Hm i r. destruct w as [s l cs lg]. cbn in *. subst l.
  assert (∀ c, (cs ++ [c]) !! i = Some c) as Hlook by (intros; by apply list_lookup_middle).
  assert (∀ c c', <[i := c']> (cs ++ [c]) = cs ++ [c']) as Hins.
  { intros. unfold i. rewrite <-(Nat.add_0_r (length cs)). by rewrite insert_app_r. }
  eexists _, (mkWorld (ensure_chan s idx) Receiving (cs ++ [Waiting op idx]) lg), _, _.
  split; [done|]. split; [cbn; by rewrite Hlook, Hins|].
  assert (killed (ensure_chan s idx) = killed s ∧ mjoin (indexChan (ensure_chan s idx) !! idx) = None ∧
    ensure_chan s idx = set_indexChan s (indexChan (ensure_chan s idx))) as (Hk' & Hx' & Heq).
  { unfold ensure_chan. destruct (indexChan s !! idx) eqn:E; [rewrite E; by destruct s|]. cbn. by rewrite lookup_insert_eq. }
  split; [cbn; by rewrite Hk', Hk, (receive_empty _ m idx op Hm Hx')|].
  split; [cbn; by rewrite Hlook, lookup_insert_eq|]. cbn. rewrite Hins, Heq, apply_op_set_indexChan. by split_and!.
Qed.

(** The same in the service, at an instance that has been told of everything. *)
Lemma request_run c j op i w w1 w2 w3 w4 :
  let idx := (Z.of_nat (length (chosen c)) + 1)%Z in
  insts c !! j = Some w → length (log w2) = length (chosen c) →
  next w (LSubmit op (Some idx)) = Some w1 → next w1 (LLock i) = Some w2 →
  next w2 (LApply (message idx (Some op))) = Some w3 → next w3 (LReceive i) = Some w4 →
  ∃ c', service_next c (CSubmit j op idx) = Some c' ∧
    steps service_step c' (mkService (<[j := w4]> (insts c)) (chosen c ++ [Some op]) (issued c ++ [(idx, op)])).
Proof using Type.
  intros idx Hj Hlg H1 H2 H3 H4. pose proof (lookup_lt_Some _ _ _ Hj) as Hlt.
  set (at_ w' ch := mkService (<[j := w']> (insts c)) ch (issued c ++ [(idx, op)])).
  assert (∀ w' w'' l cl ch, next w' l = Some w'' →
    service_next (at_ w' ch) cl = inst_step (at_ w' ch) j l (issued c ++ [(idx, op)]) →
    service_step (at_ w' ch) (at_ w'' ch)) as Hinst.
  { intros w' w'' l cl ch Hn Hcl. exists cl. rewrite Hcl. unfold inst_step. cbn. rewrite list_lookup_insert_eq by done.
    by rewrite Hn, list_insert_insert_eq. }
  exists (at_ w1 (chosen c)). split; [cbn [service_next]; unfold inst_step; by rewrite Hj, H1|].
  apply (steps_step _ (at_ w3 (chosen c ++ [Some op]))); [|by apply (Hinst _ _ (LReceive i) (CLocal j (LReceive i)))].
  apply (steps_step _ (at_ w2 (chosen c ++ [Some op]))).
  2: { apply (Hinst _ _ _ (CDeliver j) _ H3). cbn. rewrite list_lookup_insert_eq by done.
       by rewrite Hlg, list_lookup_middle. }
  apply (steps_step _ (at_ w2 (chosen c))).
  2: { exists (CChoose (Some op)). cbn. rewrite bool_decide_eq_true_2; [done|].
       apply elem_of_app. right. by apply list_elem_of_singleton. }
  apply steps_one. by apply (Hinst _ _ (LLock i) (CLocal j (LLock i))).
Qed.

(** A request can be answered.  From every state of the service, at every instance: if
Raft takes it for the leader and agrees on the operation, the request is answered with
what the state machine says of it after everything agreed on before.  Nothing that
happened, no request that timed out and no index given before, is in its way. *)
Lemma service_can_answer c j w op :
  reached c → insts c !! j = Some w →
  let idx := (Z.of_nat (length (chosen c)) + 1)%Z in
  ∃ c1 w1 c2 c3 w3, steps service_step c c1 ∧ insts c1 !! j = Some w1 ∧ calls w1 = calls w ∧
    service_next c1 (CSubmit j op idx) = Some c2 ∧ steps service_step c2 c3 ∧ insts c3 !! j = Some w3 ∧
    chosen c3 = chosen c ++ [Some op] ∧ configs (sc w3) = spec_configs (commands (chosen c) ++ [op]) ∧
    calls w3 = calls w ++ [Returned op (Some idx) true (spec_result (commands (chosen c)) op)].
Proof using laws.
  intros Hc Hj idx.
  destruct (catch_up c j w Hc Hj) as (c1 & w1 & Hs1 & Hj1 & Hch1 & Hiss1 & Hcl1 & Hlg1).
  assert (reached c1) as Hc1 by by eapply steps_trans. pose proof (service_reached c1 Hc1) as Hi1.
  pose proof (inst_inv c1 j w1 Hi1 Hj1) as Hw1. destruct (inv_replica _ Hw1) as (_ & _ & Hd).
  destruct (request_life w1 op idx (message idx (Some op))) as (w2 & w3 & w4 & w5 & H2 & H3 & H4 & H5 & Hl2 & Hl3 & Hcf & Hca).
  { by eapply inst_receiving. }
  { unfold killed. by rewrite Hd. }
  { destruct (indexChan (sc w1) !! idx) as [[r|]|] eqn:E; [|done..]. apply (inv_chan _ Hw1), results_index in E.
    apply list_elem_of_fmap in E as ([i o] & Hio & Hin). rewrite (si_log _ Hi1 j w1 Hj1) in Hin.
    apply messages_index in Hin. rewrite length_take, Hch1 in Hin. unfold idx in Hio. cbn in Hio. lia. }
  { done. }
  pose proof (inst_replica c1 j w1 Hi1 Hj1) as Hrep. rewrite (told_all c1 w1), Hch1 in Hrep by congruence.
  destruct (apply_op_spec _ _ op Hrep) as (s' & Hap & (Hcs & _ & _) & _). rewrite Hap in Hcf, Hca. cbn in Hcf, Hca.
  unfold idx in *. rewrite <-Hch1 in *.
  destruct (request_run c1 j op _ w1 w2 w3 w4 w5 Hj1 ltac:(congruence) H2 H3 H4 H5) as (c2 & Hsub & Hs2).
  eexists c1, w1, c2, _, w5. split_and!; [done..|exact Hs2| |done|by rewrite Hcf|].
  { apply list_lookup_insert_eq. by eapply lookup_lt_Some. }
  rewrite Hca, Hcl1. do 3 f_equal. unfold spec_result. destruct (is_new _ op); [apply matched_run|apply matched_self].
Qed.

(** C35. A retry is acknowledged without an answer.  When the operation at the index of an
acknowledged request is not the first of its client with this time stamp or a later
one, the server does not run it, and what the request gets back is the operation as it
was given to Raft: a query that is asked again after its first attempt was agreed on
is acknowledged, with [ReplyQuery] as it was sent. *)
Theorem retry_not_answered c j w op idx r o' :
  reached c → insts c !! j = Some w → Returned op (Some idx) true r ∈ calls w →
  o' ∈ commands (take (Z.to_nat (idx - 1)) (chosen c)) →
  ClientId o' = ClientId op → (TimeStamp op ≤ TimeStamp o')%Z →
  (idx, r) ∈ issued c ∧ chosen c !! Z.to_nat (idx - 1) = Some (Some r).
Proof using laws.
  intros Hc%service_reached Hj Hr Hin Hcl Hle.
  destruct (acked_op c j w op idx r Hc Hj Hr) as (o & Ho & [= Hid Ht] & Hidx & _ & Er).
  assert (is_new (commands (take (Z.to_nat (idx - 1)) (chosen c))) o = false) as Hold.
  { apply not_true_is_false. rewrite is_new_spec. intros Hnew. specialize (Hnew o' Hin ltac:(congruence)). lia. }
  unfold spec_result in Er. rewrite Hold in Er. subst r. split; [|done].
  apply (si_issued _ Hc) in Ho. by replace (Z.of_nat (Z.to_nat (idx - 1)) + 1)%Z with idx in Ho by lia.
Qed.
End requests.
End service.

(** ** A run

Two servers.  A join is answered by the first; a query is agreed on there but the
request times out, and is answered when it is asked again, at the second. *)

#[local] Existing Instance demo_handlers.

#[local] Instance demo_laws : HandlerLaws.
Proof.
  assert (∀ cs op, ids (run_command cs op).2 = ids op) as Hids.
  { intros cs op. unfold run_command. by repeat case_match. }
  split; [done|..].
  - intros a b [Hc Ht]%bool_decide_eq_true. unfold ids. by rewrite Hc, Ht.
  - intros op. by apply bool_decide_eq_true.
  - intros cs op. apply bool_decide_eq_true. specialize (Hids cs op). by injection Hids.
Qed.

Definition the_join : Op := demo_op "Join" 7 100.
Definition the_query : Op := demo_op "Query" 8 50.

Definition first_run : list clabel :=
  [CStart 0; CStart 1; CSubmit 0 the_join 1; CLocal 0 (LLock 0); CChoose (Some the_join); CDeliver 0;
   CLocal 0 (LReceive 0)].
Definition second_run : list clabel :=
  [CSubmit 0 the_query 2; CLocal 0 (LLock 1); CChoose (Some the_query); CDeliver 0; CLocal 0 (LTimeout 1);
   CSubmit 1 the_query 3; CChoose (Some the_query); CDeliver 1; CDeliver 1; CDeliver 1;
   CLocal 1 (LLock 0); CLocal 1 (LReceive 0)].

Definition demo_first : service := default service_start (run_labels service_next service_start first_run).
Definition demo_second : service := default demo_first (run_labels service_next demo_first second_run).

Lemma demo_first_reached : reached demo_first.
Proof. apply (run_labels_steps service_next _ first_run); [|vm_compute; reflexivity]. intros a l b Hl. by exists l. Qed.

Lemma demo_second_steps : steps service_step demo_first demo_second.
Proof. apply (run_labels_steps service_next _ second_run); [|vm_compute; reflexivity]. intros a l b Hl. by exists l. Qed.

Lemma demo_second_reached : reached demo_second.
Proof. eapply steps_trans; [apply demo_first_reached|apply demo_second_steps]. Qed.

Definition inst_of (c : service) (j : nat) : world := default (initial 0) (insts c !! j).

Lemma service_agreement_witness :
  ∃ later, configs (sc (inst_of demo_second 1))
    = foldl (λ cs o, (run_command cs o).1) (configs (sc (inst_of demo_second 0))) later.
Proof.
  destruct (service_agreement demo_second 0 (inst_of demo_second 0) 1 (inst_of demo_second 1))
    as (_ & later & _ & Hc & _); [apply demo_second_reached|vm_compute; reflexivity..|vm_compute; lia|].
  by exists later.
Defined.

Lemma demo_first_calls : calls (inst_of demo_first 0) = [Returned the_join (Some 1%Z) true the_join].
Proof. vm_compute. reflexivity. Qed.

Lemma demo_second_calls : calls (inst_of demo_second 1) = [Returned the_query (Some 3%Z) true the_query].
Proof. vm_compute. reflexivity. Qed.

Lemma demo_log_commands :
  commands (take (Z.to_nat 1) (chosen demo_first)) = [the_join] ∧ commands (chosen demo_first) = [the_join] ∧
  commands (chosen demo_second) = [the_join; the_query; the_query] ∧
  commands (take (Z.to_nat (3 - 1)) (chosen demo_second)) = [the_join; the_query].
Proof. split_and!; vm_compute; reflexivity. Qed.

(** The query is asked once, at the second server, after the answer to the join: it gets
the configuration that the join has made. *)
Definition asked_run : list clabel :=
  [CSubmit 1 the_query 2; CChoose (Some the_query); CLocal 1 (LLock 0); CDeliver 1; CDeliver 1; CLocal 1 (LReceive 0)].
Definition demo_asked : service := default demo_first (run_labels service_next demo_first asked_run).
Definition the_answer : Op := (run_command (spec_configs [the_join]) the_query).2.

Lemma demo_asked_steps : steps service_step demo_first demo_asked.
Proof. apply (run_labels_steps service_next _ asked_run); [|vm_compute; reflexivity]. intros a l b Hl. by exists l. Qed.

Lemma demo_asked_calls : calls (inst_of demo_asked 1) = [Returned the_query (Some 2%Z) true the_answer].
Proof. vm_compute. reflexivity. Qed.

Lemma requests_in_order_witness :
  Num (ReplyQuery the_answer) = 1%Z ∧
  let earlier := commands (take (Z.to_nat (2 - 1)) (chosen demo_asked)) in
  (1 < 2)%Z ∧ commands (take (Z.to_nat 1) (chosen demo_first)) `prefix_of` earlier ∧
  ∃ o, chosen demo_asked !! Z.to_nat (2 - 1) = Some (Some o) ∧ ids o = ids the_query ∧
    ((∀ o', o' ∈ earlier → ClientId o' = ClientId the_query → (TimeStamp o' < TimeStamp the_query)%Z) →
     the_answer = (run_command (spec_configs earlier) o).2) ∧
    ((∃ o', o' ∈ earlier ∧ ClientId o' = ClientId the_query ∧ (TimeStamp the_query ≤ TimeStamp o')%Z) → the_answer = o).
Proof.
  split; [vm_compute; reflexivity|].
  apply (requests_in_order demo_first 0 (inst_of demo_first 0) the_join 1 the_join demo_asked 1
    (inst_of demo_asked 1) the_query 2 the_answer).
  - apply demo_first_reached.
  - vm_compute. reflexivity.
  - rewrite demo_first_calls. left.
  - destruct demo_log_commands as (_ & -> & _). by intros o ->%list_elem_of_singleton.
  - apply demo_asked_steps.
  - vm_compute. reflexivity.
  - rewrite demo_asked_calls. left.
Defined.

Lemma retry_not_answered_witness :
  (3%Z, the_query) ∈ issued demo_second ∧ chosen demo_second !! Z.to_nat (3 - 1) = Some (Some the_query).
Proof.
  apply (retry_not_answered demo_second 1 (inst_of demo_second 1) the_query 3 the_query the_query).
  - apply demo_second_reached.
  - vm_compute. reflexivity.
  - rewrite demo_second_calls. left.
  - destruct demo_log_commands as (_ & _ & _ & ->). set_solver.
  - reflexivity.
  - lia.
Defined.

End CtrlCluster.
