(* ===== verification/Labgob.v ===== *)
(** * Checks around [encoding/gob] ([src/labgob/labgob.go])

A type of Go is a number, an index into a table of what [reflect] says of it, so
that types can be recursive.  [checkType] is a depth-first search of the types
that a type is made of: its recursion is not structural, and is modelled with
fuel; [S n] is enough for a table of [n] types.  [checkDefault] looks for values
that are not zero, at most three levels deep.  What both print is collected in
the state.  The encoder and decoder of the standard library are parameters. *)

From S2P Require Import Prelude GoStrings.
From stdpp Require Import options.

Module Labgob.

(** ** Types *)

Abbreviation tid := nat.

Inductive kind :=
| KStruct (fields : list (string * tid))
| KSlice (elem : tid)
| KArray (elem : tid)
| KPtr (elem : tid)
| KMap (key elem : tid)
| KOther.

(** The package's variables, and what was printed: the type and the field of
each complaint, and the name in each warning. *)
Record state := mkState {
  errorCount : Z;
  checked : gset tid;
  complaints : list (tid * string);
  warnings : list string }.

Definition init : state := mkState 0 ∅ [] [].

Definition mark (t : tid) (st : state) : state :=
  mkState (errorCount st) ({[t]} ∪ checked st) (complaints st) (warnings st).
Definition complain (t : tid) (name : string) (st : state) : state :=
  mkState (int64 (errorCount st + 1)) (checked st) (complaints st ++ [(t, name)]) (warnings st).

(** [unicode.IsUpper] of the first rune: a capital letter of ASCII; beyond ASCII
the tables of Unicode decide ([unicode_upper]). *)
Definition first_upper (unicode_upper : string → bool) (name : string) : bool :=
  match name with
  | EmptyString => false
  | String c _ =>
      let n := Ascii.nat_of_ascii c in
      if decide (n < 128) then bool_decide (65 ≤ n ≤ 90) else unicode_upper name
  end.

Fixpoint fold_opt {A S} (body : S → A → option S) (l : list A) (s : S) : option S :=
  match l with
  | [] => Some s
  | a :: l => match body s a with Some s => fold_opt body l s | None => None end
  end.

Section check_type.
Context (unicode_upper : string → bool) (types : list kind).

Fixpoint checkType (fuel : nat) (st : state) (t : tid) : option state :=
  match fuel with
  | O => None
  | S fuel =>
      if decide (t ∈ checked st) then Some st
      else
        let st := mark t st in
        match default KOther (types !! t) with
        | KStruct fields =>
            fold_opt (λ st '(name, ft),
              let st := if first_upper unicode_upper name then st else complain t name st in
              checkType fuel st ft) fields st
        | KSlice elem | KArray elem | KPtr elem => checkType fuel st elem
        | KMap key elem =>
            match checkType fuel st elem with
            | Some st => checkType fuel st key
            | None => None
            end
        | KOther => Some st
        end
  end.

Definition succs (t : tid) : list tid :=
  match default KOther (types !! t) with
  | KStruct fields => snd <$> fields
  | KSlice elem | KArray elem | KPtr elem => [elem]
  | KMap key elem => [elem; key]
  | KOther => []
  end.

(** The lower-case fields of a type. *)
Definition lower_fields (t : tid) : list (tid * string) :=
  match default KOther (types !! t) with
  | KStruct fields => (λ f, (t, f.1)) <$> filter (λ f, first_upper unicode_upper f.1 = false) fields
  | _ => []
  end.
Definition lower_of (n : gset tid) : list (tid * string) := elements n ≫= lower_fields.

Definition edge (t u : tid) : Prop := u ∈ succs t.

(** Every type that a type is made of is in the table. *)
Definition table_ok : Prop := ∀ t u, t < length types → u ∈ succs t → u < length types.

(** A set of types that has the types its members are made of. *)
Definition closed (c : gset tid) : Prop := ∀ t u, t ∈ c → edge t u → u ∈ c.

(** What visiting the types [ts] does to the state, [own] being complaints about
the type that is being visited. *)
Record visits (st : state) (ts : list tid) (own : list (tid * string)) (st' : state) : Prop := {
  v_mono : checked st ⊆ checked st';
  v_targets : ∀ t, t ∈ ts → t ∈ checked st';
  v_reach : ∀ u, u ∈ checked st' → u ∉ checked st → ∃ t, t ∈ ts ∧ rtc edge t u;
  v_closed : ∀ u v, u ∈ checked st' → u ∉ checked st → edge u v → v ∈ checked st';
  v_table : (∀ u, u ∈ checked st → u < length types) → ∀ u, u ∈ checked st' → u < length types;
  v_complaints : ∃ new, complaints st' = complaints st ++ new ∧
      new ≡ₚ own ++ lower_of (checked st' ∖ checked st) ∧
      (int64 (errorCount st) = errorCount st →
       errorCount st' = int64 (errorCount st + Z.of_nat (length new)));
  v_warnings : warnings st' = warnings st }.

Lemma lower_of_union n1 n2 : n1 ## n2 → lower_of (n1 ∪ n2) ≡ₚ lower_of n1 ++ lower_of n2.
Proof. intros Hd. unfold lower_of. by rewrite elements_disj_union, bind_app. Qed.

Lemma int64_add a b : int64 (int64 a + b) = int64 (a + b).
Proof.
  unfold int64, wrap_signed. f_equal. generalize (2 ^ (64 - 1))%Z (2 ^ 64)%Z. intros k m.
  replace ((a + k) `mod` m - k + b + k)%Z with ((a + k) `mod` m + b)%Z by lia.
  rewrite Zplus_mod_idemp_l. f_equal. lia.
Qed.

Lemma int64_int64 a : int64 (int64 a) = int64 a.
Proof. pose proof (int64_add a 0) as E. by rewrite !Z.add_0_r in E. Qed.

Lemma visits_refl st : visits st [] [] st.
Proof.
  split; try done; try (by intros ? ?%not_elem_of_nil).
  exists []. rewrite difference_diag_L, app_nil_r, Z.add_0_r. by split_and!.
Qed.

Lemma visits_trans st ts own st1 ts' own' st2 :
  visits st ts own st1 → visits st1 ts' own' st2 → visits st (ts ++ ts') (own ++ own') st2.
Proof.
  intros [M1 T1 R1 K1 B1 (n1 & E1 & P1 & C1) W1] [M2 T2 R2 K2 B2 (n2 & E2 & P2 & C2) W2].
  split.
  - by transitivity (checked st1).
  - intros t [?|?]%elem_of_app; [apply M2|]; auto.
  - intros u Hu Hn. setoid_rewrite elem_of_app. destruct (decide (u ∈ checked st1)) as [Hu1|Hu1].
    + destruct (R1 u Hu1 Hn) as (t & ? & ?). eauto.
    + destruct (R2 u Hu Hu1) as (t & ? & ?). eauto.
  - intros u v Hu Hn He. destruct (decide (u ∈ checked st1)) as [Hu1|Hu1]; [apply M2|]; eauto.
  - auto.
  - exists (n1 ++ n2). split_and!; [by rewrite E2, E1, app_assoc| |].
    + assert (checked st2 ∖ checked st
        = (checked st1 ∖ checked st) ∪ (checked st2 ∖ checked st1)) as ->.
      { apply set_eq. intros u. rewrite elem_of_union, !elem_of_difference.
        destruct (decide (u ∈ checked st1)); set_solver. }
      rewrite lower_of_union by set_solver. rewrite P1, P2. solve_Permutation.
    + intros Hc. rewrite C2 by (rewrite (C1 Hc); apply int64_int64).
      rewrite (C1 Hc), int64_add, length_app. f_equal. lia.
  - congruence.
Qed.

Lemma visits_complain st t name : visits st [] [(t, name)] (complain t name st).
Proof.
  split; simpl; try done; try (by intros ? ?%not_elem_of_nil).
  exists [(t, name)]. by rewrite difference_diag_L.
Qed.

Lemma visits_seen st t : t ∈ checked st → visits st [t] [] st.
Proof.
  intros Ht. destruct (visits_refl st) as [M T R K B C W]. split; try done.
  by intros u ->%list_elem_of_singleton.
Qed.

Lemma visits_node st t st' :
  t ∉ checked st → t < length types →
  visits (mark t st) (succs t) (lower_fields t) st' → visits st [t] [] st'.
Proof.
  intros Hn Hlt [M T R K B (new & E & P & C) W]. simpl in *.
  assert (t ∈ checked st') as Ht by set_solver.
  split.
  - set_solver.
  - by intros u ->%list_elem_of_singleton.
  - intros u Hu Hun. exists t. split; [by apply list_elem_of_singleton|].
    destruct (decide (u = t)) as [->|Hne]; [done|].
    destruct (R u Hu) as (v & Hv & Hvu); [set_solver|]. by eapply rtc_l.
  - intros u v Hu Hun He. destruct (decide (u = t)) as [->|Hne]; [by apply T|].
    apply (K u); [done|set_solver|done].
  - intros Hb. apply B. intros u [->%elem_of_singleton|?]%elem_of_union; auto.
  - exists new. split_and!; [done| |done]. rewrite P. simpl.
    assert (checked st' ∖ checked st = {[t]} ∪ checked st' ∖ ({[t]} ∪ checked st)) as ->.
    { apply set_eq. intros u. rewrite elem_of_union, !elem_of_difference, elem_of_union, elem_of_singleton.
      destruct (decide (u = t)); set_solver. }
    rewrite (lower_of_union {[t]}) by set_solver. unfold lower_of at 2.
    rewrite elements_singleton. simpl. by rewrite app_nil_r.
  - done.
Qed.

Lemma size_bound (c : gset tid) n : (∀ u, u ∈ c → u < n) → size c ≤ n.
Proof.
  intros Hc. rewrite <-(size_set_seq (C := gset nat) 0 n). apply subseteq_size.
  intros u Hu. apply elem_of_set_seq. specialize (Hc u Hu). lia.
Qed.

Lemma fold_visits fuel t fields st :
  (∀ st u, u < length types → (∀ v, v ∈ checked st → v < length types) →
     length types - size (checked st) < fuel →
     ∃ st', checkType fuel st u = Some st' ∧ visits st [u] [] st') →
  (∀ f, f ∈ fields → f.2 < length types) → (∀ v, v ∈ checked st → v < length types) →
  length types - size (checked st) < fuel →
  ∃ st', fold_opt (λ st '(name, ft),
      checkType fuel (if first_upper unicode_upper name then st else complain t name st) ft) fields st
    = Some st' ∧
    visits st (snd <$> fields)
      ((λ f, (t, f.1)) <$> filter (λ f, first_upper unicode_upper f.1 = false) fields) st'.
Proof.
  intros IH. revert st. induction fields as [|[name ft] fields IHf]; intros st Hf Hb Hfuel; simpl.
  { exists st. split; [done|apply visits_refl]. }
  set (own := if first_upper unicode_upper name then [] else [(t, name)]).
  assert (visits st [] own (if first_upper unicode_upper name then st else complain t name st)) as V0.
  { unfold own. destruct (first_upper unicode_upper name); [apply visits_refl|apply visits_complain]. }
  set (st0 := if first_upper unicode_upper name then st else complain t name st) in *.
  assert (checked st0 = checked st) as Ec by (unfold st0; by destruct (first_upper unicode_upper name)).
  destruct (IH st0 ft) as (st1 & -> & V1).
  { apply (Hf (name, ft)). set_solver. }
  { by rewrite Ec. }
  { by rewrite Ec. }
  pose proof (visits_trans _ _ _ _ _ _ _ V0 V1) as V01. simpl in V01. rewrite app_nil_r in V01.
  destruct (IHf st1) as (st2 & -> & V2).
  { intros f ?. apply Hf. set_solver. }
  { by apply (v_table _ _ _ _ V01). }
  { pose proof (subseteq_size _ _ (v_mono _ _ _ _ V01)). lia. }
  exists st2. split; [done|]. pose proof (visits_trans _ _ _ _ _ _ _ V01 V2) as V.
  rewrite filter_cons. unfold own in V. simpl. destruct (first_upper unicode_upper name); exact V.
Qed.

Lemma checkType_visits fuel st t :
  table_ok → t < length types → (∀ v, v ∈ checked st → v < length types) →
  length types - size (checked st) < fuel →
  ∃ st', checkType fuel st t = Some st' ∧ visits st [t] [] st'.
Proof.
  intros Hok. revert st t. induction fuel as [|fuel IH]; intros st t Ht Hb Hfuel; [lia|].
  cbn [checkType]. case_decide as Hd; [by eauto using visits_seen|].
  assert (∀ v, v ∈ checked (mark t st) → v < length types) as Hb'.
  { simpl. intros v [->%elem_of_singleton|?]%elem_of_union; auto. }
  assert (length types - size (checked (mark t st)) < fuel) as Hfuel'.
  { pose proof (size_bound _ _ Hb') as Hs. simpl in *.
    rewrite size_union, size_singleton in * by set_solver. lia. }
  pose proof (Hok t) as Hsucc. unfold succs in Hsucc.
  assert (∀ m, (∃ st', m = Some st' ∧ visits (mark t st) (succs t) (lower_fields t) st') →
    ∃ st', m = Some st' ∧ visits st [t] [] st') as Hnode.
  { intros m (st' & -> & V). exists st'. split; [done|]. by apply visits_node. }
  apply Hnode. unfold succs, lower_fields.
  destruct (default KOther (types !! t)) as [fields|e|e|e|k e|].
  - apply (fold_visits fuel t fields (mark t st)); [done| |done|done].
    intros f Hf. apply Hsucc; [done|]. by apply list_elem_of_fmap_2.
  - apply IH; [apply Hsucc; [done|]; by apply list_elem_of_singleton|done|done].
  - apply IH; [apply Hsucc; [done|]; by apply list_elem_of_singleton|done|done].
  - apply IH; [apply Hsucc; [done|]; by apply list_elem_of_singleton|done|done].
  - destruct (IH (mark t st) e) as (st1 & -> & V1); [apply Hsucc; set_solver|done|done|].
    destruct (IH st1 k) as (st2 & -> & V2); [apply Hsucc; set_solver|..].
    { by apply (v_table _ _ _ _ V1). }
    { pose proof (subseteq_size _ _ (v_mono _ _ _ _ V1)). lia. }
    exists st2. split; [done|]. exact (visits_trans _ _ _ _ _ _ _ V1 V2).
  - exists (mark t st). split; [done|apply visits_refl].
Qed.

(** C29. [checkType] visits everything a type is made of, once: on a table of [n]
types it terminates (with recursion no deeper than [n + 1]) whatever cycles
there are between the types; afterwards it has marked, besides what was marked
before, exactly the types that can be reached from the argument; and it has
complained of exactly the lower-case fields of the types that were not marked
before, once each, and counted the complaints. *)
Theorem checkType_complete st t :
  table_ok → t < length types → (∀ v, v ∈ checked st → v < length types) → closed (checked st) →
  int64 (errorCount st) = errorCount st →
  ∃ st' new, checkType (S (length types)) st t = Some st' ∧ closed (checked st') ∧
    (∀ u, u ∈ checked st' ↔ u ∈ checked st ∨ rtc edge t u) ∧
    complaints st' = complaints st ++ new ∧ new ≡ₚ lower_of (checked st' ∖ checked st) ∧
    errorCount st' = int64 (errorCount st + Z.of_nat (length new)).
Proof.
  intros Hok Ht Hb Hcl Hc.
  destruct (checkType_visits (S (length types)) st t) as (st' & E & V); [done..|lia|].
  destruct V as [M T R K B (new & En & P & C) W].
  assert (closed (checked st')) as Hcl'.
  { intros u v Hu He. destruct (decide (u ∈ checked st)) as [Hu1|Hu1]; [|by eauto].
    apply M. by eapply Hcl. }
  exists st', new. split_and!; [done|done| |done|done|by apply C].
  intros u. split.
  - intros Hu. destruct (decide (u ∈ checked st)) as [|Hn]; [by left|right].
    destruct (R u Hu Hn) as (x & ->%list_elem_of_singleton & ?). done.
  - intros [?|Hr]; [by apply M|]. assert (t ∈ checked st') as H0 by (apply T; by apply list_elem_of_singleton).
    clear -Hr H0 Hcl'. induction Hr as [|a b c Hab _ IH]; [done|]. apply IH. by eapply Hcl'.
Qed.

End check_type.
(** ** Values *)

(** How a field is declared: [reflect] remembers a value that was reached through
an unexported field, and for an embedded one forgets it in the next field. *)
Inductive visibility := Exported | Unexported | UnexportedEmbedded.

(** A value as [checkDefault1] sees it: [zero] says whether a value of a basic
kind is deeply equal to the zero value of its type, which is named [tname]. *)
#[warnings="-register-all"]
Inductive value :=
| VStruct (fields : list (string * visibility * value))
| VPtr (target : option value)
| VBasic (tname : string) (zero : bool)
| VOther.

(** The read-only flags of a [reflect.Value]. *)
Record ro := mkRo { sticky : bool; embed : bool }.
Definition writable : ro := mkRo false false.
Definition is_ro (r : ro) : bool := sticky r || embed r.
Definition field_ro (r : ro) (v : visibility) : ro :=
  match v with
  | Exported => mkRo (sticky r) false
  | Unexported => mkRo true false
  | UnexportedEmbedded => mkRo (sticky r) true
  end.

Definition field_name (name fname : string) : string :=
  if decide (name = "") then fname else name +:+ "." +:+ fname.

(** The case of a basic kind. *)
Definition check_basic (r : ro) (tname : string) (zero : bool) (name : string) (st : state)
    : outcome state :=
  if is_ro r then Crash UnexportedField
  else if zero then Ok st
  else
    let what := if decide (name = "") then tname else name in
    let ws := if decide (errorCount st < 1)%Z then warnings st ++ [what] else warnings st in
    Ok (mkState (int64 (errorCount st + 1)) (checked st) (complaints st) ws).

(** [levels] is how many levels are left: [4 - depth]. *)
Fixpoint checkDefault1 (levels : nat) (r : ro) (v : value) (name : string) (st : state)
    : outcome state :=
  match levels with
  | O => Ok st
  | S levels =>
      match v with
      | VStruct fields =>
          for_each (λ st '(fname, vis, vv),
            checkDefault1 levels (field_ro r vis) vv (field_name name fname) st) fields st
      | VPtr None => Ok st
      | VPtr (Some vv) => checkDefault1 levels r vv name st
      | VBasic tname zero => check_basic r tname zero name st
      | VOther => Ok st
      end
  end.

(** A value of an interface type: nil, or a type with a value. *)
Abbreviation dyn := (option (tid * value)).

Definition checkDefault (v : dyn) (st : state) : outcome state :=
  match v with
  | None => Ok st
  | Some (_, v) => checkDefault1 3 writable v "" st
  end.

(** ** The operations *)

Section operations.
Context (unicode_upper : string → bool) (types : list kind).

(** [reflect.TypeOf(nil)] is nil, and its kind is asked for.  [None] is lack of
fuel. *)
Definition checkValue (fuel : nat) (v : dyn) (st : state) : option (outcome state) :=
  match v with
  | None => Some (Crash NilDereference)
  | Some (t, _) => Ok <$> checkType unicode_upper types fuel st t
  end.

(** [gob] stands for the call of the wrapped encoder or decoder. *)
Definition Encode {R} (gob : dyn → R) (fuel : nat) (v : dyn) (st : state)
    : option (outcome (state * R)) :=
  (λ o, let* st := o in Ok (st, gob v)) <$> checkValue fuel v st.

(** The value behind a [reflect.Value]. *)
Definition EncodeValue {R} (gob : dyn → R) (fuel : nat) (value : dyn) (st : state)
    : option (outcome (state * R)) :=
  (λ o, let* st := o in Ok (st, gob value)) <$> checkValue fuel value st.

Definition Decode {R} (gob : dyn → R) (fuel : nat) (v : dyn) (st : state)
    : option (outcome (state * R)) :=
  (λ o, let* st := o in let* st := checkDefault v st in Ok (st, gob v)) <$> checkValue fuel v st.

Definition Register {R} (gob : dyn → R) (fuel : nat) (v : dyn) (st : state)
    : option (outcome (state * R)) :=
  (λ o, let* st := o in Ok (st, gob v)) <$> checkValue fuel v st.

Definition RegisterName {R} (gob : string → dyn → R) (fuel : nat) (name : string) (v : dyn) (st : state)
    : option (outcome (state * R)) :=
  (λ o, let* st := o in Ok (st, gob name v)) <$> checkValue fuel v st.

End operations.

(** ** What [checkDefault] reports *)

(** The basic values within reach: their flags, types and names. *)
Record leaf := mkLeaf { lf_ro : ro; lf_tname : string; lf_zero : bool; lf_name : string }.

Fixpoint leaves (levels : nat) (r : ro) (v : value) (name : string) : list leaf :=
  match levels with
  | O => []
  | S levels =>
      match v with
      | VStruct fields =>
          fields ≫= λ '(fname, vis, vv), leaves levels (field_ro r vis) vv (field_name name fname)
      | VPtr (Some vv) => leaves levels r vv name
      | VBasic tname zero => [mkLeaf r tname zero name]
      | VPtr None | VOther => []
      end
  end.

Definition leaf_what (l : leaf) : string :=
  if decide (lf_name l = "") then lf_tname l else lf_name l.

Definition leaf_step (st : state) (l : leaf) : outcome state :=
  check_basic (lf_ro l) (lf_tname l) (lf_zero l) (lf_name l) st.

Lemma for_each_flat {A B S} (body : S → B → outcome S) (f : A → list B) l s :
  for_each body (l ≫= f) s = for_each (λ s a, for_each body (f a) s) l s.
Proof.
  revert s. induction l as [|a l IH]; intros s; [done|]. rewrite bind_cons, for_each_app. simpl.
  destruct (for_each body (f a) s); simpl; [apply IH|done].
Qed.

Lemma for_each_body_ext {A S} (b1 b2 : S → A → outcome S) l s :
  (∀ s a, b1 s a = b2 s a) → for_each b1 l s = for_each b2 l s.
Proof.
  intros E. revert s. induction l as [|a l IH]; intros s; simpl; [done|]. rewrite E.
  by destruct (b2 s a); simpl.
Qed.

Lemma checkDefault1_leaves levels r v name st :
  checkDefault1 levels r v name st = for_each leaf_step (leaves levels r v name) st.
Proof.
  revert r v name st. induction levels as [|levels IH]; intros r v name st; [done|].
  destruct v as [fields|[vv|]|tname zero|]; simpl; [|apply IH|done| |done].
  - rewrite for_each_flat. apply for_each_body_ext. intros s [[fname vis] vv]. apply IH.
  - unfold leaf_step. simpl. by destruct (check_basic _ _ _ _ _).
Qed.

Definition nondefault (ls : list leaf) : list leaf := filter (λ l, lf_zero l = false) ls.

Lemma leaves_crash ls st :
  Exists (λ l, is_ro (lf_ro l) = true) ls → for_each leaf_step ls st = Crash UnexportedField.
Proof.
  intros He. revert st. induction He as [l ls Hl|l ls _ IH]; intros st; simpl.
  - unfold leaf_step, check_basic. by rewrite Hl.
  - unfold leaf_step at 1, check_basic. destruct (is_ro (lf_ro l)); [done|].
    by destruct (lf_zero l); simpl.
Qed.

Lemma leaves_ok ls st :
  Forall (λ l, is_ro (lf_ro l) = false) ls →
  (0 ≤ errorCount st)%Z → (errorCount st + Z.of_nat (length (nondefault ls)) < 2 ^ 63)%Z →
  for_each leaf_step ls st =
  Ok (mkState (errorCount st + Z.of_nat (length (nondefault ls))) (checked st) (complaints st)
        (warnings st ++ if decide (errorCount st = 0)%Z
                        then option_list (leaf_what <$> head (nondefault ls)) else [])).
Proof.
  intros Hro. revert st. induction Hro as [|l ls Hl _ IH]; intros st H0 Hmax.
  { simpl. rewrite Z.add_0_r. case_decide; rewrite app_nil_r; by destruct st. }
  cbn [for_each]. unfold leaf_step at 1, check_basic. rewrite Hl.
  unfold nondefault in *. rewrite filter_cons in *. destruct (lf_zero l); simpl in *.
  { apply IH; lia. }
  assert (int64 (errorCount st + 1) = errorCount st + 1)%Z as E by (apply wrap_signed_small; lia).
  rewrite IH; simpl; rewrite E; [|lia|lia]. f_equal. f_equal; [lia|].
  rewrite (decide_False (P := (errorCount st + 1 = 0)%Z)) by lia. rewrite app_nil_r.
  destruct (decide (errorCount st = 0)%Z) as [E0|E0].
  - by rewrite decide_True by lia.
  - rewrite decide_False by lia. by rewrite app_nil_r.
Qed.

(** [checkDefault] on a value: if a value of a basic kind within three levels
was reached through an unexported field, the process ends with a panic;
otherwise each value of a basic kind within three levels that is not zero is
counted, and the first of them is named in a warning, if nothing had been
reported before. *)
Theorem checkDefault_spec t v st :
  let ls := leaves 3 writable v "" in
  (0 ≤ errorCount st)%Z → (errorCount st + Z.of_nat (length (nondefault ls)) < 2 ^ 63)%Z →
  checkDefault (Some (t, v)) st =
  if decide (Exists (λ l, is_ro (lf_ro l) = true) ls) then Crash UnexportedField
  else Ok (mkState (errorCount st + Z.of_nat (length (nondefault ls))) (checked st) (complaints st)
         (warnings st ++ if decide (errorCount st = 0)%Z
                         then option_list (leaf_what <$> head (nondefault ls)) else [])).
Proof.
  intros ls H0 Hmax. unfold checkDefault. rewrite checkDefault1_leaves. fold ls.
  case_decide as He; [by apply leaves_crash|]. apply leaves_ok; [|done..].
  apply Forall_forall. intros l Hl. apply not_true_is_false. intros Hr. apply He.
  apply Exists_exists. by exists l.
Qed.

(** ** Examples *)

(** [type T struct { X int; next *T; m map[string]T }], a recursive type. *)
Definition demo_types : list kind :=
  [KStruct [("X", 1); ("next", 2); ("m", 3)]; KOther; KPtr 0; KMap 4 0; KOther; KOther].
Definition demo_upper (s : string) : bool := false.

Lemma demo_table_ok : table_ok demo_types.
Proof.
  intros t u Ht Hu. do 6 (destruct t as [|t]; [vm_compute in Hu |- *; set_solver by lia|]).
  simpl in Ht. lia.
Qed.

Lemma checkType_complete_witness :
  ∃ st' new, checkType demo_upper demo_types 7 init 2 = Some st' ∧ closed demo_types (checked st') ∧
    (∀ u, u ∈ checked st' ↔ u ∈ checked init ∨ rtc (edge demo_types) 2 u) ∧
    complaints st' = complaints init ++ new ∧
    new ≡ₚ lower_of demo_upper demo_types (checked st' ∖ checked init) ∧
    errorCount st' = int64 (errorCount init + Z.of_nat (length new)).
Proof.
  apply (checkType_complete demo_upper demo_types init 2).
  - exact demo_table_ok.
  - simpl. lia.
  - intros v. simpl. set_solver.
  - intros a b. simpl. set_solver.
  - reflexivity.
Defined.

Example demo_check_twice :
  (λ st, (complaints st, errorCount st)) <$>
    (checkType demo_upper demo_types 7 init 2 ≫= λ st, checkType demo_upper demo_types 7 st 0)
  = Some ([(0, "next"); (0, "m")], 2%Z).
Proof. vm_compute. reflexivity. Qed.

(** A reply that was used before, and one with an unexported field. *)
Definition demo_reply : value :=
  VPtr (Some (VStruct [("Term", Exported, VBasic "int" false); ("Ok", Exported, VBasic "bool" true)])).

Lemma checkDefault_spec_witness :
  checkDefault (Some (0, demo_reply)) init = Ok (mkState 1 ∅ [] ["Term"]).
Proof.
  rewrite (checkDefault_spec 0 demo_reply init) by (vm_compute; congruence || reflexivity).
  vm_compute. reflexivity.
Defined.

Example demo_unexported :
  checkDefault (Some (0, VPtr (Some (VStruct [("term", Unexported, VBasic "int" true)])))) init
  = Crash UnexportedField.
Proof. vm_compute. reflexivity. Qed.

End Labgob.
