(* ===== verification/MrSockets.v ===== *)
(** * The sockets of the MapReduce processes ([src/mr])

[Coordinator.server] and [WorkerServer.startServer]: the methods a process offers, by
the rules of [net/rpc], and the file in /var/tmp it listens on.  Files stay when a
process dies, and are removed by the next one that listens under their name, whether
or not somebody still listens there.  [MrSystem] has a worker reachable by its address
as long as it lives; here is why. *)

From S2P Require Import Prelude GoStrings MrCoordinator MrWorker MrSystem MrCorrect Labgob.
From stdpp Require Import options.

Module MrSockets.
Import MrSystem.

(** ** Methods *)

(** A method: its name, the number of its parameters, whether the last of them is a
pointer, and whether it returns an [error]. *)
Record gomethod := mkMethod { gm_name : string; gm_params : nat; gm_reply : bool; gm_error : bool }.

Definition exported (n : string) : bool := Labgob.first_upper (λ _, false) n.

(** [rpc.Register]: the methods it publishes, with the name of the type. *)
Definition suitable (m : gomethod) : bool :=
  exported (gm_name m) && bool_decide (gm_params m = 2) && gm_reply m && gm_error m.
Definition Register (type : string) (ms : list gomethod) : list string :=
  (λ m, type +:+ "." +:+ gm_name m) <$> filter (λ m, suitable m = true) ms.

Definition Coordinator_methods : list gomethod :=
  [mkMethod "server" 0 false false; mkMethod "Done" 0 false false; mkMethod "RegisterWorker" 2 true true;
   mkMethod "GiveMapTask" 2 true true; mkMethod "spawn_map_monitor" 2 false false;
   mkMethod "GiveReduceTask" 2 true true; mkMethod "spawn_reduce_monitor" 3 false false;
   mkMethod "CheckLastMapDone" 2 true true; mkMethod "CheckLastReduceDone" 2 true true;
   mkMethod "isExit" 2 true true; mkMethod "callWorkerRedoMap" 1 false false;
   mkMethod "callWorkerRedoReduce" 2 false false; mkMethod "callWorker" 3 false false].
Definition WorkerServer_methods : list gomethod :=
  [mkMethod "DoMapTask" 2 true true; mkMethod "DoReduceTask" 2 true true; mkMethod "startServer" 0 false false;
   mkMethod "SayHi" 2 true true].

Definition coordinator_offers : list string := Register "Coordinator" Coordinator_methods.
Definition worker_offers : list string := Register "WorkerServer" WorkerServer_methods.
#[global] Arguments coordinator_offers : simpl never.
#[global] Arguments worker_offers : simpl never.

(** [WorkerServer.SayHi] prints a line with the process. *)
Definition SayHi (pid : Z) : string * option MrCoordinator.Mr.error := ("Worker:  " +:+ Itoa pid +:+ " Got message !", None).

(** ** A host *)

(** Listeners have numbers; [socks] has for each socket file the one it was made for. *)
Record host := mkHost {
  socks : gmap string nat;
  listeners : gmap nat (Z * list string);      (* the process, and what it offers *)
  counter : nat }.

Definition boot : host := mkHost ∅ ∅ 0.

(** [os.Remove], [net.Listen], and the end of a process. *)
Definition Remove (h : host) (path : string) : host := mkHost (delete path (socks h)) (listeners h) (counter h).
Definition Listen (h : host) (pid : Z) (ms : list string) (path : string) : option host :=
  match socks h !! path with
  | Some _ => None                              (* address already in use *)
  | None => Some (mkHost (<[path := counter h]> (socks h)) (<[counter h := (pid, ms)]> (listeners h)) (S (counter h)))
  end.
Definition die (h : host) (pid : Z) : host :=
  mkHost (socks h) (filter (λ x, x.2.1 ≠ pid) (listeners h)) (counter h).

(** [rpc.DialHTTP]: the process that answers, and what it offers. *)
Definition Dial (h : host) (path : string) : option (Z * list string) := socks h !! path ≫= λ l, listeners h !! l.

Definition server (h : host) (pid uid : Z) : outcome host :=
  let sockname := coordinatorSock uid in
  match Listen (Remove h sockname) pid coordinator_offers sockname with
  | Some h => Ok h
  | None => Crash (FatalExit "listen error:")
  end.

Definition startServer (h : host) (pid : Z) : outcome host :=
  let sockname := workerSocket pid in
  match Listen (Remove h sockname) pid worker_offers sockname with
  | Some h => Ok h
  | None => Crash (FatalExit "Worker listen error:")
  end.

(** [call] up to the handler: the process whose handler of this name is called, or [None]
when the process that answers has no such method and [call] returns false. *)
Definition call (h : host) (uid : Z) (rpcname : string) : outcome (option Z) :=
  match Dial h (coordinatorSock uid) with
  | None => Crash (FatalExit "dialing:")
  | Some (pid, ms) => Ok (if bool_decide (rpcname ∈ ms) then Some pid else None)
  end.

Inductive hlabel := HCoordinator (pid uid : Z) | HWorker (pid : Z) | HDie (pid : Z).

(** The processes that live have different numbers. *)
Definition unused (h : host) (pid : Z) : bool := forallb (λ x, bool_decide (x.2.1 ≠ pid)) (map_to_list (listeners h)).

Definition host_next (h : host) (l : hlabel) : option host :=
  match l with
  | HCoordinator pid uid =>
      if unused h pid && bool_decide (0 ≤ uid)%Z then match server h pid uid with Ok h => Some h | _ => None end else None
  | HWorker pid => if unused h pid then match startServer h pid with Ok h => Some h | _ => None end else None
  | HDie pid => Some (die h pid)
  end.
Definition host_step (h h' : host) : Prop := ∃ l, host_next h l = Some h'.

(** ** Listening *)

Lemma listen_again h pid ms path :
  Listen (Remove h path) pid ms path =
  Some (mkHost (<[path := counter h]> (socks h)) (<[counter h := (pid, ms)]> (listeners h)) (S (counter h))).
Proof. unfold Listen, Remove. cbn. by rewrite lookup_delete_eq, insert_delete_eq. Qed.

Lemma offers_differ : coordinator_offers ≠ worker_offers.
Proof. by vm_compute. Qed.

(** The name of a worker's file is not that of a coordinator's. *)
Lemma sockets_differ uid pid : (0 ≤ uid)%Z → coordinatorSock uid ≠ workerSocket pid.
Proof.
  intros Hu E. unfold coordinatorSock, workerSocket in E.
  change "/var/tmp/5840-mr-w-" with ("/var/tmp/5840-mr-" +:+ "w-") in E. rewrite str_app_assoc in E.
  apply str_app_inj in E. pose proof (Itoa_digits uid Hu) as Hd. rewrite E in Hd. by cbn in Hd.
Qed.

Record host_inv (h : host) : Prop := {
  hi_socks : ∀ path l, socks h !! path = Some l → l < counter h;
  hi_listeners : ∀ l x, listeners h !! l = Some x → l < counter h;
  hi_worker : ∀ l pid, listeners h !! l = Some (pid, worker_offers) → socks h !! workerSocket pid = Some l;
  hi_file : ∀ pid l x, socks h !! workerSocket pid = Some l → listeners h !! l = Some x → x = (pid, worker_offers);
  hi_offers : ∀ l x, listeners h !! l = Some x → x.2 = worker_offers ∨ x.2 = coordinator_offers }.

Lemma unused_spec h pid : unused h pid = true → ∀ l x, listeners h !! l = Some x → x.1 ≠ pid.
Proof.
  unfold unused. rewrite forallb_forall. intros Hu l x Hl.
  specialize (Hu (l, x)). rewrite <-list_elem_of_In, elem_of_map_to_list in Hu. by apply Hu, bool_decide_eq_true in Hl.
Qed.

Lemma host_inv_step h h' : host_inv h → host_step h h' → host_inv h'.
Proof.
  intros [H1 H2 H3 H4 H5] [l Hl]. destruct l as [pid uid|pid|pid]; cbn [host_next] in Hl.
  - destruct (unused h pid) eqn:Hu; [|done]. destruct (bool_decide _) eqn:Hb; [|done]. apply bool_decide_eq_true in Hb.
    unfold server in Hl. rewrite listen_again in Hl. injection Hl as <-. split; cbn.
    + intros path l [[_ <-]|[_ Hp%H1]]%lookup_insert_Some; lia.
    + intros l x [[<- _]|[_ Hp%H2]]%lookup_insert_Some; lia.
    + intros l p [[_ E]|[_ Hp]]%lookup_insert_Some.
      { destruct offers_differ. exact (f_equal snd E). }
      rewrite lookup_insert_ne by by apply sockets_differ. by apply H3.
    + intros p l x. rewrite lookup_insert_ne by by apply sockets_differ. intros Hp.
      rewrite lookup_insert_ne; [by apply H4|]. apply H1 in Hp. lia.
    + intros l x [[_ <-]|[_ Hp]]%lookup_insert_Some; [by right|by eapply H5].
  - destruct (unused h pid) eqn:Hu; [|done]. pose proof (unused_spec h pid Hu) as Hun.
    unfold startServer in Hl. rewrite listen_again in Hl. injection Hl as <-. split; cbn.
    + intros path l [[_ <-]|[_ Hp%H1]]%lookup_insert_Some; lia.
    + intros l x [[<- _]|[_ Hp%H2]]%lookup_insert_Some; lia.
    + intros l p [[<- E]|[_ Hp]]%lookup_insert_Some.
      { assert (pid = p) as -> by exact (f_equal fst E). by rewrite lookup_insert_eq. }
      rewrite lookup_insert_ne; [by apply H3|]. intros E%MrCorrect.workerSocket_inj. by apply (Hun _ _ Hp).
    + intros p l x [[->%MrCorrect.workerSocket_inj <-]|[Hne Hp]]%lookup_insert_Some.
      { rewrite lookup_insert_eq. by intros [= <-]. }
      rewrite lookup_insert_ne; [by apply H4|]. apply H1 in Hp. lia.
    + intros l x [[_ <-]|[_ Hp]]%lookup_insert_Some; [by left|by eapply H5].
  - injection Hl as <-. split; cbn; [done|intros l x [Hl _]%map_lookup_filter_Some; eauto..| |].
    + intros p l x Hp [Hl _]%map_lookup_filter_Some. eauto.
    + intros l x [Hl _]%map_lookup_filter_Some. eauto.
Qed.

Lemma host_reached h : steps host_step boot h → host_inv h.
Proof. apply (steps_invariant host_step host_inv); [apply host_inv_step|]. by split; cbn. Qed.

(** A process that has started as a worker and lives. *)
Definition worker_up (h : host) (pid : Z) : Prop := ∃ l, listeners h !! l = Some (pid, worker_offers).

(** C27. A worker is reached by its address as long as it lives, and nobody else is:
whatever processes start and die on the host, in whatever order, coordinators of other
jobs too, and whatever files dead processes have left.  That is what [MrSystem] takes
the network to be: for a cluster with the same workers, who answers is the same.  And
a process that starts always gets to listen. *)
Theorem worker_sockets h s :
  steps host_step boot h → (∀ pid, pid ∈ live s ↔ worker_up h pid) →
  (∀ pid, fst <$> Dial h (workerSocket pid) = listener s (workerSocket pid)) ∧
  (∀ pid, worker_up h pid → Dial h (workerSocket pid) = Some (pid, worker_offers)) ∧
  ∀ pid uid, ∃ h1 h2, server h pid uid = Ok h1 ∧ fst <$> Dial h1 (coordinatorSock uid) = Some pid ∧
    startServer h pid = Ok h2 ∧ fst <$> Dial h2 (workerSocket pid) = Some pid.
Proof.
  intros Hh%host_reached Hs.
  assert (∀ pid, worker_up h pid → Dial h (workerSocket pid) = Some (pid, worker_offers)) as Hup.
  { intros pid [l Hl]. unfold Dial. by rewrite (hi_worker _ Hh _ _ Hl). }
  split_and!; [|done|].
  - intros pid. destruct (Dial h (workerSocket pid)) as [[pid' ms]|] eqn:Hd.
    + assert ((pid', ms) = (pid, worker_offers)) as E.
      { unfold Dial in Hd. apply bind_Some in Hd as (l & Hl & Hx). by eapply hi_file. }
      symmetry. assert (pid' = pid) as -> by exact (f_equal fst E). apply MrCorrect.listener_spec, MrCorrect.live_spec, Hs.
      unfold Dial in Hd. apply bind_Some in Hd as (l & _ & Hx). exists l. rewrite Hx. by rewrite E.
    + symmetry. unfold listener. destruct (List.find _ _) as [pid'|] eqn:Hf; [|done]. exfalso.
      apply find_some in Hf as [Hin E]. apply bool_decide_eq_true, MrCorrect.workerSocket_inj in E as ->.
      apply list_elem_of_In, Hs, Hup in Hin. congruence.
  - intros pid uid. unfold server, startServer. rewrite !listen_again. eexists _, _.
    split_and!; [done| |done|]; unfold Dial; cbn; by rewrite lookup_insert_eq; cbn; rewrite lookup_insert_eq.
Qed.

(** The methods that are called by name. *)
Definition called : list string :=
  ["Coordinator.RegisterWorker"; "Coordinator.GiveMapTask"; "Coordinator.CheckLastMapDone";
   "Coordinator.GiveReduceTask"; "Coordinator.CheckLastReduceDone"].
Definition called_back : list string := ["WorkerServer.DoMapTask"; "WorkerServer.DoReduceTask"].

Lemma published :
  Forall (λ n, n ∈ coordinator_offers) called ∧ Forall (λ n, n ∈ worker_offers) called_back ∧
  ("Coordinator.isExit" ∉ coordinator_offers) ∧ ("Coordinator.isExit" ∉ worker_offers).
Proof. split_and!; [apply (bool_decide_eq_true_1 _)..| |]; [vm_compute; reflexivity..| |]; by apply (bool_decide_eq_false_1 _). Qed.

(** C36. The workers' call of [Coordinator.isExit] is never carried out: the method's name
does not begin with a capital letter, so [net/rpc] does not publish it, and the call
returns false while the coordinator is there and the job goes on.  The other methods
that workers call are all published, and reach the coordinator that was started last. *)
Theorem isExit_not_published h uid :
  steps host_step boot h →
  (∀ r, call h uid "Coordinator.isExit" = Ok r → r = None) ∧
  ∀ pid h', server h pid uid = Ok h' → Forall (λ n, call h' uid n = Ok (Some pid)) called.
Proof.
  intros Hh%host_reached. destruct published as (Hc & _ & Hn1 & Hn2). split.
  - intros r. unfold call. destruct (Dial h (coordinatorSock uid)) as [[pid ms]|] eqn:Hd; [|done]. intros [= <-].
    unfold Dial in Hd. apply bind_Some in Hd as (l & _ & Hx).
    rewrite bool_decide_eq_false_2; [done|]. by destruct (hi_offers _ Hh _ _ Hx) as [E|E]; cbn in E; subst ms.
  - intros pid h'. unfold server. rewrite listen_again. intros [= <-]. eapply Forall_impl; [exact Hc|].
    intros n Hn. unfold call, Dial. cbn. rewrite lookup_insert_eq. cbn. rewrite lookup_insert_eq.
    by rewrite bool_decide_eq_true_2.
Qed.

(** ** A run

A worker; a coordinator; a second worker that dies; a third that gets its number. *)

Definition demo_host : host :=
  default boot (run_labels host_next boot
    [HWorker 11; HCoordinator 10 1000; HWorker 12; HDie 12; HCoordinator 13 1000; HWorker 12]).

Lemma demo_host_reached : steps host_step boot demo_host.
Proof.
  apply (run_labels_steps host_next host_step [HWorker 11; HCoordinator 10 1000; HWorker 12; HDie 12; HCoordinator 13 1000; HWorker 12]);
    [|vm_compute; reflexivity]. intros a l b Hl. by exists l.
Qed.

Lemma demo_host_listeners :
  listeners demo_host = {[0 := (11%Z, worker_offers); 1 := (10%Z, coordinator_offers);
                          3 := (13%Z, coordinator_offers); 4 := (12%Z, worker_offers)]}.
Proof. vm_compute. reflexivity. Qed.

Definition demo_cluster : cluster :=
  set_threads MrCorrect.wc_start {[(11%Z, None) := Registering; (12%Z, None) := Registering]}.

Lemma demo_cluster_live pid : pid ∈ live demo_cluster ↔ worker_up demo_host pid.
Proof.
  rewrite MrCorrect.live_spec. unfold worker_up. rewrite demo_host_listeners. split.
  - intros [x Hx]. cbn in Hx. apply lookup_insert_Some in Hx as [[[= <-] _]|[_ Hx]]; [by exists 0|].
    apply lookup_singleton_Some in Hx as [[= <-] _]. by exists 4.
  - assert (∀ p, (p, coordinator_offers) ≠ (pid, worker_offers)) as Hne.
    { intros p E. destruct offers_differ. exact (f_equal snd E). }
    intros [l Hl]. apply lookup_insert_Some in Hl as [[_ E]|[_ Hl]].
    { apply (f_equal fst) in E. cbn in E. subst. by exists Registering. }
    apply lookup_insert_Some in Hl as [[_ E]|[_ Hl]]; [by destruct (Hne 10%Z)|].
    apply lookup_insert_Some in Hl as [[_ E]|[_ Hl]]; [by destruct (Hne 13%Z)|].
    apply lookup_singleton_Some in Hl as [_ E]. apply (f_equal fst) in E. cbn in E. subst. by exists Registering.
Qed.

Lemma worker_sockets_witness :
  Dial demo_host (workerSocket 12) = Some (12%Z, worker_offers) ∧
  fst <$> Dial demo_host (workerSocket 12) = listener demo_cluster (workerSocket 12).
Proof.
  destruct (worker_sockets demo_host demo_cluster demo_host_reached demo_cluster_live) as (Hd & Hup & _).
  split; [|apply Hd]. apply Hup, demo_cluster_live. vm_compute. right. left.
Defined.

Lemma isExit_not_published_witness :
  (∀ r, call demo_host 1000 "Coordinator.isExit" = Ok r → r = None) ∧
  call demo_host 1000 "Coordinator.isExit" = Ok None.
Proof.
  split; [apply (isExit_not_published demo_host 1000), demo_host_reached|vm_compute; reflexivity].
Defined.
End MrSockets.
