(* ===== verification/Gob.v ===== *)
(** * What goes through [labgob]: encoding and decoding values

[labgob.go] hands what it has checked to [encoding/gob].  This file has what the
documentation of that package says of the values the program sends: a struct is sent
as its exported fields by name, without those that have the zero value; the elements
of slices, arrays and maps are all sent; an interface is sent as the registered name
of its type and its value.  A decoder updates the variable it is given: fields that
were not sent keep what they had, arrays, and slices that are long enough, are updated
element by element, maps are added to.  That is why [labgob]
warns of fields that do not begin with a capital letter, which would be lost, and of
variables that are not zero.

Slices have no capacity beyond their length here.  Nil slices and maps are not told
from empty ones, so that [omitted] leaves out an empty map, where [gob] leaves out a nil
one; into a variable that is zero both give an empty map.  A time is its wall clock
reading, which is all that [time.Time] encodes: the monotonic reading of a
[time.Now()] is not sent, and times that were decoded are compared without it.  A struct
of which the receiver knows no field is skipped, where [gob] returns an error. *)

From S2P Require Import Prelude GoStrings Labgob.
From stdpp Require Import options.

Module Gob.

(** ** Types and values *)

#[warnings="-register-all"]
Inductive ty :=
| TyInt (signed : bool) (bits : Z) | TyBool | TyStr
| TyTime                                  (* [time.Time], which encodes itself *)
| TyStruct (fields : list (string * ty))
| TySlice (elem : ty) | TyArray (n : nat) (elem : ty)
| TyMap (key elem : ty)
| TyIface.

(** The keys of the program's maps are numbers and strings. *)
Inductive mkey := KInt (z : Z) | KStr (s : string).

Global Instance mkey_eq_dec : EqDecision mkey.
Proof. solve_decision. Defined.

#[warnings="-register-all"]
Inductive val :=
| VInt (z : Z) | VBool (b : bool) | VStr (s : string) | VTime (z : Z)
| VStruct (fields : list val)
| VSlice (l : list val) | VArray (l : list val)
| VMap (m : list (mkey * val))
| VIface (o : option (string * val)).        (* the type's name and the value *)

(** What is sent. *)
#[warnings="-register-all"]
Inductive wire :=
| WInt (z : Z) | WBool (b : bool) | WStr (s : string) | WTime (z : Z)
| WStruct (fields : list (string * wire))
| WSeq (l : list wire)
| WMap (l : list (mkey * wire))
| WIface (name : string) (w : wire)
| WNil.                                      (* the nil interface *)

Fixpoint zero (t : ty) : val :=
  match t with
  | TyInt _ _ => VInt 0 | TyBool => VBool false | TyStr => VStr "" | TyTime => VTime 0
  | TyStruct ts => VStruct ((λ p, zero p.2) <$> ts)
  | TySlice _ => VSlice []
  | TyArray n t => VArray (replicate n (zero t))
  | TyMap _ _ => VMap []
  | TyIface => VIface None
  end.

(** Fields that are left out.  Structs and arrays are always sent. *)
Definition omitted (v : val) : bool :=
  match v with
  | VInt z => bool_decide (z = 0)%Z | VBool b => negb b | VStr s => bool_decide (s = "")
  | VTime z => bool_decide (z = 0)%Z | VSlice l => bool_decide (length l = 0)
  | VMap m => bool_decide (length m = 0) | VIface None => true
  | _ => false
  end.

Definition in_range (signed : bool) (bits z : Z) : bool :=
  if signed then bool_decide (- 2 ^ (bits - 1) ≤ z < 2 ^ (bits - 1))%Z else bool_decide (0 ≤ z < 2 ^ bits)%Z.

Section gob.
Context (uu : string → bool).                       (* upper case beyond ASCII *)
Context (reg : string → option ty).                 (* what [Register] was told *)

Abbreviation exported := (Labgob.first_upper uu).

(** ** Encoding *)

Fixpoint encode_fields (es : list (val * (ty → option wire))) (ts : list (string * ty))
    : option (list (string * wire)) :=
  match es, ts with
  | [], [] => Some []
  | (v, e) :: es, (n, t) :: ts =>
      if exported n && negb (omitted v) then
        match e t, encode_fields es ts with
        | Some w, Some ws => Some ((n, w) :: ws)
        | _, _ => None
        end
      else encode_fields es ts
  | _, _ => None
  end.

Fixpoint encode (v : val) (t : ty) : option wire :=
  match v, t with
  | VInt z, TyInt _ _ => Some (WInt z)
  | VBool b, TyBool => Some (WBool b)
  | VStr s, TyStr => Some (WStr s)
  | VTime z, TyTime => Some (WTime z)
  | VStruct vs, TyStruct ts =>
      if existsb (λ p, exported p.1) ts || bool_decide (length ts = 0)
      then WStruct <$> encode_fields ((λ v, (v, encode v)) <$> vs) ts
      else None                                     (* it has fields, but no exported ones *)
  | VSlice l, TySlice t => WSeq <$> mapM (λ v, encode v t) l
  | VArray l, TyArray n t => if decide (length l = n) then WSeq <$> mapM (λ v, encode v t) l else None
  | VMap m, TyMap _ t => WMap <$> mapM (λ p, pair p.1 <$> encode p.2 t) m
  | VIface (Some (n, v)), TyIface =>
      match reg n with Some t => WIface n <$> encode v t | None => None end
  | VIface None, TyIface => Some WNil
  | _, _ => None
  end.

(** ** Decoding *)

Fixpoint assoc {A} (n : string) (l : list (string * A)) : option A :=
  match l with
  | [] => None
  | (m, a) :: l => if decide (m = n) then Some a else assoc n l
  end.

Fixpoint decode_fields (ds : list (string * (ty → val → option val))) (ts : list (string * ty)) (xs : list val)
    : option (list val) :=
  match ts, xs with
  | [], [] => Some []
  | (n, t) :: ts, x :: xs =>
      match (match assoc n ds with
             | Some d => if exported n then d t x else Some x
             | None => Some x
             end), decode_fields ds ts xs with
      | Some v, Some vs => Some (v :: vs)
      | _, _ => None
      end
  | _, _ => None
  end.

Fixpoint decode_elems (ds : list (ty → val → option val)) (t : ty) (xs : list val) : option (list val) :=
  match ds with
  | [] => Some []
  | d :: ds =>
      match d t (default (zero t) (head xs)), decode_elems ds t (tail xs) with
      | Some v, Some vs => Some (v :: vs)
      | _, _ => None
      end
  end.

Fixpoint put (k : mkey) (v : val) (m : list (mkey * val)) : list (mkey * val) :=
  match m with
  | [] => [(k, v)]
  | (k', v') :: m => if decide (k' = k) then (k, v) :: m else (k', v') :: put k v m
  end.

Definition key_ok (t : ty) (k : mkey) : bool :=
  match t, k with
  | TyInt s b, KInt z => in_range s b z
  | TyStr, KStr _ => true
  | _, _ => false
  end.

Fixpoint decode_entries (ds : list (mkey * (ty → val → option val))) (kt t : ty) (m : list (mkey * val))
    : option (list (mkey * val)) :=
  match ds with
  | [] => Some m
  | (k, d) :: ds =>
      if key_ok kt k then
        match d t (zero t) with
        | Some v => decode_entries ds kt t (put k v m)
        | None => None
        end
      else None
  end.

(** [decode w t x]: what a variable [x] of type [t] holds after [w] was decoded into it. *)
Fixpoint decode (w : wire) (t : ty) (x : val) : option val :=
  match w, t, x with
  | WInt z, TyInt s b, _ => if in_range s b z then Some (VInt z) else None
  | WBool b, TyBool, _ => Some (VBool b)
  | WStr s, TyStr, _ => Some (VStr s)
  | WTime z, TyTime, _ => Some (VTime z)
  | WStruct ws, TyStruct ts, VStruct xs =>
      VStruct <$> decode_fields ((λ p, (p.1, decode p.2)) <$> ws) ts xs
  | WSeq ws, TySlice t, VSlice xs =>                (* in place if it is long enough, else a new array *)
      VSlice <$> decode_elems (decode <$> ws) t (if decide (length ws ≤ length xs) then xs else [])
  | WSeq ws, TyArray n t, VArray xs =>
      if decide (length ws = n) then VArray <$> decode_elems (decode <$> ws) t xs else None
  | WMap ws, TyMap kt t, VMap m =>
      VMap <$> decode_entries ((λ p, (p.1, decode p.2)) <$> ws) kt t m
  | WIface n w, TyIface, _ =>
      match reg n with
      | Some t => (λ v, VIface (Some (n, v))) <$> decode w t (zero t)
      | None => None
      end
  | WNil, TyIface, _ => Some (VIface None)
  | _, _, _ => None
  end.

(** ** Well-formedness *)

(** Every struct has fields, all exported, with different names. *)
Fixpoint sound (t : ty) : bool :=
  match t with
  | TyInt _ b => bool_decide (1 ≤ b)%Z
  | TyStruct ts => bool_decide (NoDup (fst <$> ts)) && forallb (λ p, exported p.1 && sound p.2) ts
  | TySlice t | TyArray _ t => sound t
  | TyMap k t => sound t
  | _ => true
  end.

Fixpoint typed_fields (es : list (ty → bool)) (ts : list (string * ty)) : bool :=
  match es, ts with
  | [], [] => true
  | e :: es, (_, t) :: ts => e t && typed_fields es ts
  | _, _ => false
  end.

Fixpoint typed (v : val) (t : ty) : bool :=
  match v, t with
  | VInt z, TyInt s b => in_range s b z
  | VBool _, TyBool | VStr _, TyStr | VTime _, TyTime => true
  | VStruct vs, TyStruct ts => typed_fields (typed <$> vs) ts
  | VSlice l, TySlice t => forallb (λ v, typed v t) l
  | VArray l, TyArray n t => bool_decide (length l = n) && forallb (λ v, typed v t) l
  | VMap l, TyMap kt t =>
      bool_decide (NoDup (fst <$> l)) && forallb (λ p, key_ok kt p.1 && typed p.2 t) l
  | VIface None, TyIface => true
  | VIface (Some (n, v)), TyIface => match reg n with Some t => typed v t | None => false end
  | _, _ => false
  end.
End gob.

(** ** Induction over values and what is sent *)

Lemma val_tree_ind (P : val → Prop) :
  (∀ z, P (VInt z)) → (∀ b, P (VBool b)) → (∀ s, P (VStr s)) → (∀ z, P (VTime z)) →
  (∀ vs, Forall P vs → P (VStruct vs)) → (∀ l, Forall P l → P (VSlice l)) → (∀ l, Forall P l → P (VArray l)) →
  (∀ l, Forall (λ p, P p.2) l → P (VMap l)) →
  P (VIface None) → (∀ n v, P v → P (VIface (Some (n, v)))) → ∀ v, P v.
Proof.
  intros Hi Hb Hs Ht Hst Hsl Har Hm Hf0 Hf. fix IH 1.
  intros [z|b|s|z|vs|l|l|l|[[n v]|]];
    [apply Hi|apply Hb|apply Hs|apply Ht|apply Hst|apply Hsl|apply Har|apply Hm|apply Hf, IH|apply Hf0].
  - induction vs as [|v vs IHl]; constructor; [apply IH|exact IHl].
  - induction l as [|v l IHl]; constructor; [apply IH|exact IHl].
  - induction l as [|v l IHl]; constructor; [apply IH|exact IHl].
  - induction l as [|[k v] l IHl]; constructor; [apply IH|exact IHl].
Qed.

Lemma wire_tree_ind (P : wire → Prop) :
  (∀ z, P (WInt z)) → (∀ b, P (WBool b)) → (∀ s, P (WStr s)) → (∀ z, P (WTime z)) →
  (∀ ws, Forall (λ p, P p.2) ws → P (WStruct ws)) → (∀ l, Forall P l → P (WSeq l)) →
  (∀ l, Forall (λ p, P p.2) l → P (WMap l)) → (∀ n w, P w → P (WIface n w)) → P WNil → ∀ w, P w.
Proof.
  intros Hi Hb Hs Ht Hst Hsq Hm Hf H0. fix IH 1.
  intros [z|b|s|z|ws|l|l|n w|]; [apply Hi|apply Hb|apply Hs|apply Ht|apply Hst|apply Hsq|apply Hm|apply Hf, IH|apply H0].
  - induction ws as [|[k v] l IHl]; constructor; [apply IH|exact IHl].
  - induction l as [|v l IHl]; constructor; [apply IH|exact IHl].
  - induction l as [|[k v] l IHl]; constructor; [apply IH|exact IHl].
Qed.

Section theorems.
Context (uu : string → bool) (reg : string → option ty).
Abbreviation exported := (Labgob.first_upper uu).
Abbreviation encv := (encode uu reg).
Abbreviation decv := (decode uu reg).
Abbreviation sound := (sound uu).
Abbreviation typed := (typed reg).

(** ** Zero values *)

Lemma typed_fields_spec vs ts :
  typed_fields (typed <$> vs) ts = true ↔ Forall2 (λ v p, typed v p.2 = true) vs ts.
Proof.
  revert ts. induction vs as [|v vs IH]; intros [|[n t] ts]; cbn.
  - split; [constructor|done].
  - split; [done|by intros ?%Forall2_nil_cons_inv].
  - split; [done|by intros ?%Forall2_cons_nil_inv].
  - rewrite andb_true_iff, IH, Forall2_cons. done.
Qed.

Lemma sound_struct ts :
  sound (TyStruct ts) = true ↔
  NoDup (fst <$> ts) ∧ Forall (λ p, exported p.1 = true ∧ sound p.2 = true) ts.
Proof.
  cbn. rewrite !andb_true_iff, bool_decide_eq_true, forallb_forall, Forall_forall.
  setoid_rewrite andb_true_iff. setoid_rewrite list_elem_of_In. naive_solver.
Qed.

Lemma omitted_zero v t : typed v t = true → omitted v = true → v = zero t.
Proof.
  destruct v as [z|b|s|z|vs|l|l|l|[[n v]|]], t; cbn; try done; intros _ Ho.
  - by apply bool_decide_eq_true in Ho as ->.
  - by destruct b.
  - by apply bool_decide_eq_true in Ho as ->.
  - by apply bool_decide_eq_true in Ho as ->.
  - apply bool_decide_eq_true, nil_length_inv in Ho. by subst.
  - apply bool_decide_eq_true, nil_length_inv in Ho. by subst.
Qed.

(** ** Round trips *)

Definition comes_back (v : val) (t : ty) : Prop :=
  ∃ w, encv v t = Some w ∧ decv w t (zero t) = Some v.

Lemma assoc_fmap {A B} (f : A → B) n l : assoc n ((λ p, (p.1, f p.2)) <$> l) = f <$> assoc n l.
Proof. induction l as [|[m a] l IH]; cbn; [done|]. by case_decide. Qed.

(** What is sent of the fields, each with a property [Q]. *)
Lemma encode_fields_sent (Q : val → ty → wire → Prop) vs ts :
  Forall2 (λ v p, ∃ w, encv v p.2 = Some w ∧ Q v p.2 w) vs ts →
  Forall (λ p, exported p.1 = true) ts → NoDup (fst <$> ts) →
  ∃ ws, encode_fields uu ((λ v, (v, encv v)) <$> vs) ts = Some ws ∧
    (∀ n, n ∉ fst <$> ts → assoc n ws = None) ∧
    Forall2 (λ v p, match assoc p.1 ws with
                    | Some w => omitted v = false ∧ Q v p.2 w
                    | None => omitted v = true
                    end) vs ts.
Proof.
  induction 1 as [|v [n t] vs ts (w & Hw & Hq) Hall IH]; intros Hex Hnd; cbn.
  { exists []. by split_and!; [|done|constructor]. }
  apply Forall_cons in Hex as [Hn Hex]. cbn in Hn, Hw, Hq. apply NoDup_cons in Hnd as [Hni Hnd]. cbn in Hni.
  destruct (IH Hex Hnd) as (ws & -> & Hno & Hf). rewrite Hn. cbn.
  destruct (omitted v) eqn:Ho; cbn.
  - exists ws. split_and!; [done|intros m Hm; apply Hno; set_solver|]. constructor; [|done]. cbn. by rewrite Hno.
  - rewrite Hw. exists ((n, w) :: ws). split_and!; [done| |].
    + intros m Hm. cbn. rewrite decide_False by set_solver. apply Hno. set_solver.
    + constructor; cbn; [by rewrite decide_True|]. clear -Hf Hni.
      induction Hf as [|v' [m t'] vs' ts' Hp Hf IHf]; constructor; [|apply IHf; set_solver].
      cbn in *. by rewrite decide_False by set_solver.
Qed.

Lemma decode_fields_sent ws ts xs ys :
  Forall3 (λ p x y, match assoc p.1 ws with Some w => decv w p.2 x = Some y | None => y = x end) ts xs ys →
  Forall (λ p, exported p.1 = true) ts →
  decode_fields uu ((λ p, (p.1, decv p.2)) <$> ws) ts xs = Some ys.
Proof.
  induction 1 as [|[n t] x y ts xs ys Hv Hall IH]; intros Hex; [done|]. apply Forall_cons in Hex as [Hn Hex].
  cbn in *. rewrite assoc_fmap, (IH Hex). destruct (assoc n ws) as [w|]; cbn.
  - by rewrite Hn, Hv.
  - by subst y.
Qed.

Lemma has_exported (ts : list (string * ty)) :
  Forall (λ p, exported p.1 = true) ts → existsb (λ p, exported p.1) ts || bool_decide (length ts = 0) = true.
Proof. intros Hex. destruct Hex as [|p ts Hp _]; [done|]. cbn. by rewrite Hp. Qed.

Lemma struct_comes_back vs ts :
  sound (TyStruct ts) = true → Forall2 (λ v p, typed v p.2 = true ∧ comes_back v p.2) vs ts →
  comes_back (VStruct vs) (TyStruct ts).
Proof.
  intros (Hnd & Hall)%sound_struct Hvs.
  assert (Forall (λ p, exported p.1 = true) ts) as Hex by (eapply Forall_impl; [exact Hall|naive_solver]).
  destruct (encode_fields_sent (λ v t w, decv w t (zero t) = Some v) vs ts) as (ws & Hw & _ & Hf); [|done..|].
  { eapply Forall2_impl; [exact Hvs|]. by intros v p [_ ?]. }
  exists (WStruct ws). cbn. rewrite Hw, has_exported by done. split; [done|].
  rewrite (decode_fields_sent ws ts _ vs); [done| |done]. clear -Hvs Hf.
  induction Hf as [|v p vs ts Hp Hf IH]; cbn; [constructor|]. apply Forall2_cons in Hvs as [[Hty _] Hvs].
  constructor; [|by apply IH]. destruct (assoc p.1 ws); [by destruct Hp|by apply omitted_zero].
Qed.

Lemma decode_elems_sent vs ws t xs :
  Forall2 (λ v w, decv w t (zero t) = Some v) vs ws → Forall (λ x, x = zero t) xs →
  decode_elems (decv <$> ws) t xs = Some vs.
Proof.
  intros Hf. revert xs. induction Hf as [|v w vs ws Hv _ IH]; intros xs Hx; [done|]. cbn.
  assert (default (zero t) (head xs) = zero t) as -> by by destruct Hx.
  rewrite Hv, IH; [done|]. by destruct Hx.
Qed.

Lemma put_new k v m : k ∉ fst <$> m → put k v m = m ++ [(k, v)].
Proof.
  induction m as [|[k' v'] m IH]; cbn; [done|]. intros Hk. rewrite decide_False by set_solver.
  rewrite IH; [done|set_solver].
Qed.

Lemma decode_entries_sent kt t l ws m :
  Forall2 (λ p q, q.1 = p.1 ∧ key_ok kt p.1 = true ∧ decv q.2 t (zero t) = Some p.2) l ws →
  NoDup (fst <$> m ++ l) →
  decode_entries ((λ p, (p.1, decv p.2)) <$> ws) kt t m = Some (m ++ l).
Proof.
  intros Hf. revert m. induction Hf as [|[k v] [k' w] l ws (Hk & Hok & Hv) _ IH]; intros m Hnd; cbn in *.
  { by rewrite app_nil_r. }
  subst k'. rewrite Hok, Hv. rewrite put_new.
  - rewrite IH, <-app_assoc; [done|]. by rewrite <-app_assoc.
  - rewrite fmap_app, NoDup_app in Hnd. cbn in Hnd. intros Hin. destruct Hnd as (_ & Hd & _). apply (Hd k); set_solver.
Qed.

Lemma mapM_comes_back {A B} (f : A → option B) (Q : A → B → Prop) l :
  Forall (λ v, ∃ w, f v = Some w ∧ Q v w) l → ∃ ws, mapM f l = Some ws ∧ Forall2 Q l ws.
Proof.
  induction 1 as [|v l (w & Hw & Hq) _ (ws & Hws & Hqs)]; cbn; [by exists []; split; [|constructor]|].
  rewrite Hw. cbn. rewrite Hws. exists (w :: ws). by split; [|constructor].
Qed.

Lemma elems_come_back l t :
  Forall (λ v, ∀ t, sound t = true → typed v t = true → comes_back v t) l → sound t = true →
  forallb (λ v, typed v t) l = true → Forall (λ v, comes_back v t) l.
Proof.
  intros IH Hs Hty. rewrite forallb_forall in Hty. apply Forall_forall. intros v Hv. rewrite Forall_forall in IH.
  apply IH; [done..|]. by apply Hty, list_elem_of_In.
Qed.

(** ** With a registry of sound types *)

Hypothesis reg_sound : ∀ n t, reg n = Some t → sound t = true.

Lemma roundtrip_val v t : sound t = true → typed v t = true → comes_back v t.
Proof using reg_sound.
  revert t. induction v as [z|b|s|z|vs IH|l IH|l IH|l IH| |n v IH] using val_tree_ind; intros t Hs Hty;
    destruct t as [sg bs| | | |ts|t|m t|k t|]; try done; cbn in Hs.
  - exists (WInt z). cbn in *. by rewrite Hty.
  - by exists (WBool b).
  - by exists (WStr s).
  - by exists (WTime z).
  - apply struct_comes_back; [done|]. apply sound_struct in Hs as (_ & Hall). apply typed_fields_spec in Hty.
    induction Hty as [|v p vs ts Hv _ IHt]; constructor.
    + apply Forall_cons in IH as [IH _], Hall as [[_ Hp] _]. auto.
    + apply Forall_cons in IH as [_ IH], Hall as [_ Hall]. auto.
  - destruct (mapM_comes_back (λ v, encv v t) (λ v w, decv w t (zero t) = Some v) l) as (ws & Hw & Hf).
    { by apply elems_come_back. }
    exists (WSeq ws). cbn. rewrite Hw.
    by destruct (decide _); rewrite (decode_elems_sent l ws t []).
  - cbn in Hty. apply andb_true_iff in Hty as [<-%bool_decide_eq_true Hty].
    destruct (mapM_comes_back (λ v, encv v t) (λ v w, decv w t (zero t) = Some v) l) as (ws & Hw & Hf).
    { by apply elems_come_back. }
    exists (WSeq ws). cbn. rewrite decide_True, Hw by done. split; [done|].
    rewrite decide_True by (symmetry; by eapply Forall2_length).
    rewrite (decode_elems_sent l ws t); [done..|]. by apply Forall_replicate.
  - cbn in Hty. apply andb_true_iff in Hty as [Hnd%bool_decide_eq_true Hty].
    destruct (mapM_comes_back (λ p, pair p.1 <$> encv p.2 t)
      (λ p q, q.1 = p.1 ∧ key_ok k p.1 = true ∧ decv q.2 t (zero t) = Some p.2) l) as (ws & Hw & Hf).
    { apply Forall_forall. intros [k' v] Hin. rewrite forallb_forall in Hty. rewrite Forall_forall in IH.
      pose proof (Hty (k', v) (proj1 (list_elem_of_In _ _) Hin)) as [Hk Hv]%andb_true_iff.
      destruct (IH (k', v) Hin t Hs Hv) as (w & Hw & Hd). exists (k', w). cbn in *. by rewrite Hw. }
    exists (WMap ws). cbn. rewrite Hw. by rewrite (decode_entries_sent k t l ws []).
  - by exists WNil.
  - cbn in Hty. destruct (reg n) as [t|] eqn:Hr; [|done]. destruct (IH t) as (w & Hw & Hd); [by eapply reg_sound|done|].
    exists (WIface n w). cbn. by rewrite Hr, Hw, Hd.
Qed.

(** ** Streams *)

(** A [LabEncoder] writes to, and a [LabDecoder] reads from, what stands for a buffer. *)
Record LabEncoder := mkEncoder { written : list wire }.
Record LabDecoder := mkDecoder { unread : list wire }.
Definition NewEncoder (w : list wire) : LabEncoder := mkEncoder w.
Definition NewDecoder (r : list wire) : LabDecoder := mkDecoder r.

(** The calls of [gob] behind [LabEncoder.Encode] and [LabDecoder.Decode]; [None] is the
error they return. *)
Definition gob_Encode (enc : LabEncoder) (v : val) (t : ty) : option LabEncoder :=
  (λ w, mkEncoder (written enc ++ [w])) <$> encv v t.
Definition gob_Decode (dec : LabDecoder) (t : ty) (x : val) : option (LabDecoder * val) :=
  match unread dec with
  | [] => None                                      (* io.EOF *)
  | w :: rest => pair (mkDecoder rest) <$> decv w t x
  end.

Fixpoint write_stream (enc : LabEncoder) (vs : list (val * ty)) : option LabEncoder :=
  match vs with
  | [] => Some enc
  | (v, t) :: vs => gob_Encode enc v t ≫= λ enc, write_stream enc vs
  end.
Fixpoint read_stream (dec : LabDecoder) (ts : list ty) : option (LabDecoder * list val) :=
  match ts with
  | [] => Some (dec, [])
  | t :: ts => '(dec, v) ← gob_Decode dec t (zero t); '(dec, vs) ← read_stream dec ts; Some (dec, v :: vs)
  end.

Lemma stream_comes_back vs enc :
  Forall (λ p, sound p.2 = true ∧ typed p.1 p.2 = true) vs →
  ∃ ws, write_stream enc vs = Some (mkEncoder (written enc ++ ws)) ∧
    ∀ rest, read_stream (NewDecoder (ws ++ rest)) (snd <$> vs) = Some (mkDecoder rest, fst <$> vs).
Proof using reg_sound.
  intros Hall. revert enc. induction Hall as [|[v t] vs [Hs Ht] _ IH]; intros enc; cbn in *.
  { exists []. rewrite app_nil_r. by destruct enc. }
  destruct (roundtrip_val v t Hs Ht) as (w & Hw & Hd). unfold gob_Encode. rewrite Hw. cbn.
  destruct (IH (mkEncoder (written enc ++ [w]))) as (ws & -> & Hr). exists (w :: ws). cbn. rewrite <-app_assoc.
  split; [done|]. intros rest. unfold gob_Decode. cbn. rewrite Hd. cbn. by rewrite Hr.
Qed.
End theorems.
End Gob.
