(* ===== verification/HarnessNet.v ===== *)
(** * What the test beds share

The test beds of Raft, of the controller and of the store
([src/raft/config.go], [src/shardctrler/config.go], [src/shardkv/config.go]) all
keep a matrix of the names of client ends, make a fresh row of ends when they
start a server, and connect servers by enabling ends.  This file has that part,
over the network of [Labrpc]. *)

From Stdlib Require Import Ascii.
From S2P Require Import Prelude Labrpc.
From stdpp Require Import options.

Module HarnessNet.
Import Labrpc.

(** ** Time limit *)

(** [failed] is [t.Failed()], [elapsed] the time since the start, in seconds. *)
Definition checkTimeout (failed : bool) (elapsed : Z) : outcome () :=
  if negb failed && bool_decide (120 < elapsed)%Z
  then Crash (FatalExit "test took longer than 120 seconds") else Ok ().

(** ** Random names *)

(** The characters of [base64.URLEncoding]. *)
Definition alphabet : list ascii :=
  String.list_ascii_of_string "ABCDEFGHIJKLMNOPQRSTUVWXYZabcdefghijklmnopqrstuvwxyz0123456789-_".
Definition sextet (v : Z) : ascii := default "A"%char (alphabet !! Z.to_nat (Z.land v 63)).

Definition byte_Z (b : Byte.byte) : Z := Z.of_N (Byte.to_N b).

(** [EncodeToString]: four characters for three bytes, and padding. *)
Fixpoint EncodeToString (bs : list Byte.byte) : list ascii :=
  match bs with
  | [] => []
  | [a] =>
      let v := Z.shiftl (byte_Z a) 16 in
      [sextet (Z.shiftr v 18); sextet (Z.shiftr v 12); "="%char; "="%char]
  | [a; b] =>
      let v := Z.lor (Z.shiftl (byte_Z a) 16) (Z.shiftl (byte_Z b) 8) in
      [sextet (Z.shiftr v 18); sextet (Z.shiftr v 12); sextet (Z.shiftr v 6); "="%char]
  | a :: b :: c :: bs =>
      let v := Z.lor (Z.lor (Z.shiftl (byte_Z a) 16) (Z.shiftl (byte_Z b) 8)) (byte_Z c) in
      sextet (Z.shiftr v 18) :: sextet (Z.shiftr v 12) :: sextet (Z.shiftr v 6) :: sextet v ::
      EncodeToString bs
  end.

(** [rnd k] is what [crand.Read] puts into a slice of [k] bytes. *)
Definition randstring (rnd : nat → list Byte.byte) (n : Z) : outcome string :=
  let* b := make_slice (2 * n) Byte.x00 in
  let s := EncodeToString (rnd (length b)) in
  if decide (0 ≤ n ≤ len s)%Z then Ok (String.string_of_list_ascii (take (Z.to_nat n) s))
  else Crash IndexOutOfRange.

Lemma sextet_alphabet v : sextet v ∈ alphabet.
Proof.
  unfold sextet. change 63%Z with (Z.ones 6). rewrite Z.land_ones by lia.
  pose proof (Z.mod_pos_bound v (2 ^ 6) ltac:(lia)) as Hb.
  destruct (lookup_lt_is_Some_2 alphabet (Z.to_nat (v `mod` 2 ^ 6))) as [c Hc].
  { change (length alphabet) with 64. lia. }
  rewrite Hc. by eapply list_elem_of_lookup_2.
Qed.

(** At least as many characters of the alphabet as bytes, and then only padding. *)
Lemma EncodeToString_chars bs :
  ∃ pre pad, EncodeToString bs = pre ++ pad ∧ length bs ≤ length pre ∧ Forall (λ c, c ∈ alphabet) pre.
Proof.
  assert (∀ m bs, length bs ≤ m → ∃ pre pad, EncodeToString bs = pre ++ pad ∧
    length bs ≤ length pre ∧ Forall (λ c, c ∈ alphabet) pre) as H; [|by eapply H].
  clear bs. induction m as [m IH] using lt_wf_ind. intros bs Hm.
  destruct bs as [|a [|b [|c bs]]]; cbn [EncodeToString].
  - by exists [], [].
  - eexists [_; _], _. split; [done|]. split; [simpl; lia|].
    rewrite !Forall_cons. split_and!; try apply sextet_alphabet; done.
  - eexists [_; _; _], _. split; [done|]. split; [simpl; lia|].
    rewrite !Forall_cons. split_and!; try apply sextet_alphabet; done.
  - cbn [length] in Hm. destruct (IH (length bs) ltac:(lia) bs) as (pre & pad & -> & Hl & Hf); [done|].
    eexists (_ :: _ :: _ :: _ :: pre), pad. split; [done|]. split; [cbn [length]; lia|].
    rewrite !Forall_cons. split_and!; try apply sextet_alphabet; done.
Qed.

(** A random name of length [n] has exactly [n] characters, all of them letters,
digits, dashes or underscores, whatever bytes were drawn: the slice that cuts it from
the encoding of [2n] bytes is in range and stops before the padding.  A negative
length panics. *)
Theorem randstring_shape rnd n :
  (∀ k, length (rnd k) = k) →
  match randstring rnd n with
  | Ok s => (0 ≤ n)%Z ∧ Z.of_nat (String.length s) = n ∧
      Forall (λ c, c ∈ alphabet) (String.list_ascii_of_string s)
  | Crash f => (n < 0)%Z ∧ f = MakeNegative
  end.
Proof.
  intros Hrnd. unfold randstring, make_slice. case_decide as Hn; cbn [bind]; [|split; [lia|done]].
  set (bs := rnd _). assert (length bs = Z.to_nat (2 * n)) as Hl.
  { unfold bs. by rewrite Hrnd, length_replicate. }
  destruct (EncodeToString_chars bs) as (pre & pad & E & Hp & Hf). rewrite E.
  rewrite decide_True by (unfold len; rewrite length_app; lia). rewrite take_app_le by lia.
  split; [lia|]. rewrite String.list_ascii_of_string_of_list_ascii. split; [|by apply Forall_take].
  assert (∀ l, String.length (String.string_of_list_ascii l) = length l) as Hsl
    by (induction l; simpl; congruence).
  rewrite Hsl, length_take. lia.
Qed.

Lemma randstring_shape_witness :
  match randstring (λ k, replicate k Byte.xff) 5 with
  | Ok s => (0 ≤ 5)%Z ∧ Z.of_nat (String.length s) = 5%Z ∧
      Forall (λ c, c ∈ alphabet) (String.list_ascii_of_string s)
  | Crash f => (5 < 0)%Z ∧ f = MakeNegative
  end.
Proof. apply (randstring_shape (λ k, replicate k Byte.xff) 5). intros k. apply length_replicate. Defined.

(** ** Names of ends *)

(** [cfg.endnames[i][j]]: a row that is nil has no element. *)
Definition endname_at (endnames : list (option (list string))) (i j : Z) : outcome string :=
  let* row := index endnames i in
  match row with None => Crash IndexOutOfRange | Some row => index row j end.

(** A fresh end for each server; [names] are the random names. *)
Definition make_ends (rn : Network) (names : list string) (n : Z) : outcome Network :=
  for_each (λ rn j,
    let* s := index names j in
    let* rn := MakeEnd rn (IStr s) in
    Ok (Connect rn (IStr s) (IInt j))) (range n) rn.

(** ** Enabling ends *)

(** What a sequence of calls of [Enable] does. *)
Definition apply_enables (rn : Network) (es : list (string * bool)) : Network :=
  foldl (λ rn e, Enable rn (IStr e.1) e.2) rn es.

Lemma is_enabled_Enable rn e b e' :
  is_enabled (Enable rn e b) e' = if decide (e = e') then b else is_enabled rn e'.
Proof. unfold is_enabled, Enable. simpl. rewrite lookup_insert. by case_decide. Qed.

Lemma enables_other rn es e :
  (∀ b, (e, b) ∉ es) → is_enabled (apply_enables rn es) (IStr e) = is_enabled rn (IStr e).
Proof.
  unfold apply_enables. induction es as [|[e' b] es IH] using rev_ind; intros Hn; [done|].
  rewrite foldl_snoc. simpl. rewrite is_enabled_Enable, decide_False.
  - apply IH. intros b'. specialize (Hn b'). set_solver.
  - intros [= ->]. apply (Hn b). set_solver.
Qed.

Lemma enables_all rn es e b :
  (e, b) ∈ es → (e, negb b) ∉ es → is_enabled (apply_enables rn es) (IStr e) = b.
Proof.
  unfold apply_enables. induction es as [|[e' b'] es IH] using rev_ind; intros Hin Hn.
  { by apply not_elem_of_nil in Hin. }
  rewrite foldl_snoc. simpl. rewrite is_enabled_Enable. case_decide as Hd.
  - simplify_eq. apply dec_stable. intros Hb. apply Hn.
    assert (negb b = b') as -> by (by destruct b, b'). set_solver.
  - apply IH; [|set_solver]. apply elem_of_app in Hin as [?|Hin]; [done|].
    apply list_elem_of_singleton in Hin. by simplify_eq.
Qed.

Lemma apply_enables_app rn es1 es2 :
  apply_enables rn (es1 ++ es2) = apply_enables (apply_enables rn es1) es2.
Proof. apply foldl_app. Qed.

(** A loop whose body always returns. *)
Lemma for_each_pure {A B S} (body : S → A → outcome S) (g : S → B → S) (h : A → B) l s :
  (∀ s a, a ∈ l → body s a = Ok (g s (h a))) → for_each body l s = Ok (foldl g s (h <$> l)).
Proof.
  revert s. induction l as [|a l IH]; intros s Hb; simpl; [done|].
  rewrite Hb by set_solver. simpl. apply IH. intros. apply Hb. set_solver.
Qed.

Lemma range_lookup_id {A} (d : A) (l : list A) :
  (λ j, default d (l !! Z.to_nat j)) <$> range (len l) = l.
Proof.
  apply list_eq. intros k. rewrite list_lookup_fmap. unfold range, len.
  destruct (decide (k < length l)) as [Hk|Hk].
  - rewrite lookup_seqZ_lt by lia. cbn [fmap option_fmap option_map]. rewrite Z.add_0_l, Nat2Z.id.
    destruct (lookup_lt_is_Some_2 l k Hk) as [x ->]. done.
  - rewrite lookup_seqZ_ge by lia. by rewrite lookup_ge_None_2 by lia.
Qed.

Lemma apply_enables_frame rn es :
  connections (apply_enables rn es) = connections rn ∧ servers (apply_enables rn es) = servers rn ∧
  longReordering (apply_enables rn es) = longReordering rn.
Proof.
  unfold apply_enables. induction es as [|e es IH] using rev_ind; [done|]. by rewrite foldl_snoc.
Qed.

Lemma enables_ends rn es : ends (apply_enables rn es) = ends rn.
Proof. unfold apply_enables. induction es as [|e es IH] using rev_ind; [done|]. by rewrite foldl_snoc. Qed.

(** A loop whose body makes some calls of [Enable]. *)
Lemma for_each_enables {A} (body : Network → A → outcome Network) (h : A → list (string * bool)) l rn :
  (∀ rn a, a ∈ l → body rn a = Ok (apply_enables rn (h a))) →
  for_each body l rn = Ok (apply_enables rn (l ≫= h)).
Proof.
  revert rn. induction l as [|a l IH]; intros rn Hb; [done|]. simpl.
  rewrite Hb by set_solver. cbn [bind]. rewrite apply_enables_app. apply IH.
  intros. apply Hb. set_solver.
Qed.

(** ** Making ends *)

Lemma NoDup_split_notin {A} (l done rest : list A) a : NoDup l → l = done ++ a :: rest → a ∉ done.
Proof. intros Hnd ->. apply NoDup_app in Hnd as (_ & Hd & _). intros Ha. apply (Hd a Ha). set_solver. Qed.

(** What [make_ends] does to the network. *)
Record ends_made (names : list string) (dn : list Z) (rn rn' : Network) : Prop := {
  em_ends : ∀ e, e ∈ ends rn' →
    e ∈ ends rn ∨ ∃ j s, j ∈ dn ∧ names !! Z.to_nat j = Some s ∧ e = IStr s;
  em_new : ∀ j s, j ∈ dn → names !! Z.to_nat j = Some s →
    IStr s ∈ ends rn' ∧ connections rn' !! IStr s = Some (Some (IInt j)) ∧
    is_enabled rn' (IStr s) = false;
  em_old : ∀ e, e ∈ ends rn →
    e ∈ ends rn' ∧ connections rn' !! e = connections rn !! e ∧ is_enabled rn' e = is_enabled rn e;
  em_enabled : ∀ e, is_enabled rn' e = true → is_enabled rn e = true;
  em_servers : servers rn' = servers rn;
  em_reorder : longReordering rn' = longReordering rn }.

Lemma make_ends_spec rn names m :
  len names = m → NoDup names → (∀ s, s ∈ names → IStr s ∉ ends rn) →
  ∃ rn', make_ends rn names m = Ok rn' ∧ ends_made names (range m) rn rn'.
Proof.
  intros Hl Hnd Hnew. apply (for_each_total_split _ (λ dn rn', ends_made names dn rn rn')).
  { split; try done; [by left|by intros ?? ?%not_elem_of_nil]. }
  intros dn j rest t El [He Hn Ho Hen Hs Hr].
  assert (0 ≤ j < m)%Z as Hj by (apply elem_of_range; rewrite El; set_solver).
  assert (∀ k, k ∈ dn → (0 ≤ k < m)%Z) as Hdn.
  { intros k Hk. apply elem_of_range. rewrite El. set_solver. }
  destruct (index_in_range names j) as [s Hsj]; [lia|]. rewrite Hsj. cbn [bind].
  apply index_Ok in Hsj as [_ Hsj].
  assert (∀ k s', k ∈ dn → names !! Z.to_nat k = Some s' → s' ≠ s) as Hdiff.
  { intros k s' Hk Hs' ->. pose proof (NoDup_lookup _ _ _ _ Hnd Hs' Hsj) as E.
    assert (k = j) as -> by (specialize (Hdn k Hk); lia).
    by apply (NoDup_split_notin _ _ _ _ (range_NoDup m) El). }
  assert (IStr s ∉ ends rn) as Hsn by (apply Hnew; by eapply list_elem_of_lookup_2).
  assert (IStr s ∉ ends t) as Hst.
  { intros [?|(k & s' & Hk & Hs' & [= <-])]%He; [done|]. by apply (Hdiff k s). }
  unfold MakeEnd. rewrite decide_False by done. cbn [bind].
  eexists. split; [done|]. split; simpl.
  - intros e [->%elem_of_singleton|[?|(k & s' & ? & ? & ->)]%He]%elem_of_union;
      [right; exists j, s; set_solver|by left|right; exists k, s'; set_solver].
  - unfold is_enabled. simpl. intros k s' [Hk|Hk]%elem_of_app Hs'.
    + assert (s' ≠ s) by by eapply Hdiff. rewrite !lookup_insert_ne by congruence.
      destruct (Hn k s' Hk Hs') as (? & -> & ?). set_solver.
    + apply list_elem_of_singleton in Hk as ->. simplify_eq. rewrite !lookup_insert_eq. set_solver.
  - unfold is_enabled. simpl. intros e Hin. destruct (Ho e Hin) as (? & <- & Heq).
    assert (IStr s ≠ e) by (intros <-; done). rewrite !lookup_insert_ne by done.
    split_and!; [set_solver|done|done].
  - intros e. unfold is_enabled at 1. simpl. rewrite lookup_insert. case_decide; [done|].
    apply Hen.
  - done.
  - done.
Qed.

End HarnessNet.
