(* ===== verification/CtrlHarness.v ===== *)
(** * The controller's test bed ([src/shardctrler/config.go])

[config] is the record of the same name: the network, and for each server its
persister and the names of its client ends.  Random names ([randstring]), random
choices and what a Raft peer answers to [GetState] are arguments; pointers to
clerks and servers are numbers.  The theorems say what the operations do to the
connections between the servers. *)

From S2P Require Import Prelude GoStrings Labrpc Persister HarnessNet.
From stdpp Require Import options.

Module CtrlHarness.
Import Labrpc HarnessNet.

(** ** Shuffling *)

(** [js] has what [rand.Intn(i + 1)] returns for each [i]. *)
Definition swap {A} (l : list A) (i j : Z) : outcome (list A) :=
  let* a := index l i in
  let* b := index l j in
  let* l := set_index l i b in
  set_index l j a.

Definition random_handles {A} (kvh : list A) (rnd : Z → Z) : outcome (list A) :=
  for_each (λ sa i, swap sa i (rnd i)) (range (len kvh)) kvh.

(** ** The state *)

Record config := mkCfg {
  net : Network;
  n : Z;
  servers_up : list bool;                        (* servers[i] != nil *)
  saved : list (option Persister.Persister);
  endnames : list (option (list string));
  clerks : gmap nat (list string);
  nextClientId : Z;
  srv_heap : gmap nat Server }.

Definition set_net (cfg : config) (rn : Network) : config :=
  mkCfg rn (n cfg) (servers_up cfg) (saved cfg) (endnames cfg) (clerks cfg) (nextClientId cfg)
    (srv_heap cfg).

(** Maximum log size across all servers. *)
Definition LogSize (cfg : config) : outcome Z :=
  for_each (λ logsize i,
    let* p := index (saved cfg) i in
    match p with
    | None => Crash NilDereference
    | Some p => let n := Persister.RaftStateSize p in
                Ok (if decide (logsize < n)%Z then n else logsize)
    end) (range (n cfg)) 0%Z.

(** ** Connecting servers *)

Definition endname (cfg : config) : Z → Z → outcome string := endname_at (endnames cfg).

Definition connectUnlocked (cfg : config) (i : Z) (to : list Z) : outcome config :=
  let* rn := for_each (λ rn t, let* e := endname cfg i t in Ok (Enable rn (IStr e) true)) to (net cfg) in
  let* rn := for_each (λ rn t, let* e := endname cfg t i in Ok (Enable rn (IStr e) true)) to rn in
  Ok (set_net cfg rn).

Definition disconnectUnlocked (cfg : config) (i : Z) (from : list Z) : outcome config :=
  let* rn := for_each (λ rn f,
      let* row := index (endnames cfg) i in
      match row with
      | None => Ok rn
      | Some _ => let* e := endname cfg i f in Ok (Enable rn (IStr e) false)
      end) from (net cfg) in
  let* rn := for_each (λ rn j,
      let* row := index (endnames cfg) j in
      match row with
      | None => Ok rn
      | Some _ => let* f := index from j in
                  let* e := endname cfg f i in Ok (Enable rn (IStr e) false)
      end) (range (len from)) rn in
  Ok (set_net cfg rn).

(** The same with the lock held. *)
Definition connect : config → Z → list Z → outcome config := connectUnlocked.
Definition disconnect : config → Z → list Z → outcome config := disconnectUnlocked.

Definition All (cfg : config) : outcome (list Z) :=
  let* all := make_slice (n cfg) 0%Z in
  for_each (λ all i, set_index all i i) (range (n cfg)) all.

Definition ConnectAll (cfg : config) : outcome config :=
  for_each (λ cfg i, let* all := All cfg in connectUnlocked cfg i all) (range (n cfg)) cfg.

Definition partition (cfg : config) (p1 p2 : list Z) : outcome config :=
  let* cfg := for_each (λ cfg i,
    let* cfg := disconnectUnlocked cfg i p2 in connectUnlocked cfg i p1) p1 cfg in
  for_each (λ cfg i,
    let* cfg := disconnectUnlocked cfg i p1 in connectUnlocked cfg i p2) p2 cfg.

(** ** Clients *)

Definition enable_client (b : bool) (cfg : config) (ck : nat) (to : list Z) : outcome config :=
  let names := default [] (clerks cfg !! ck) in
  let* rn := for_each (λ rn t, let* s := index names t in Ok (Enable rn (IStr s) b)) to (net cfg) in
  Ok (set_net cfg rn).
Definition ConnectClientUnlocked (cfg : config) (ck : nat) (to : list Z) : outcome config :=
  enable_client true cfg ck to.
Definition DisconnectClientUnlocked (cfg : config) (ck : nat) (from : list Z) : outcome config :=
  enable_client false cfg ck from.

Definition ConnectClient : config → nat → list Z → outcome config := ConnectClientUnlocked.
Definition DisconnectClient : config → nat → list Z → outcome config := DisconnectClientUnlocked.

(** [ck] is the address of the new clerk. *)
Definition makeClient (cfg : config) (ck : nat) (names : list string) (to : list Z) : outcome config :=
  let* rn := make_ends (net cfg) names (n cfg) in
  ConnectClientUnlocked
    (mkCfg rn (n cfg) (servers_up cfg) (saved cfg) (endnames cfg) (<[ck := names]> (clerks cfg))
       (nextClientId cfg + 1) (srv_heap cfg)) ck to.

Definition deleteClient (cfg : config) (ck : nat) : config :=
  mkCfg (net cfg) (n cfg) (servers_up cfg) (saved cfg) (endnames cfg) (delete ck (clerks cfg))
    (nextClientId cfg) (srv_heap cfg).

(** ** Servers *)

Definition ShutdownServer (cfg : config) (i : Z) : outcome config :=
  let* all := All cfg in
  let* cfg := disconnectUnlocked cfg i all in
  let rn := DeleteServer (net cfg) (IInt i) in
  let* p := index (saved cfg) i in
  let* sv := set_index (saved cfg) i (Persister.Copy <$> p) in
  let* up := index (servers_up cfg) i in
  let* ups := if up then set_index (servers_up cfg) i false else Ok (servers_up cfg) in
  Ok (mkCfg rn (n cfg) ups sv (endnames cfg) (clerks cfg) (nextClientId cfg) (srv_heap cfg)).

(** [names] are the random names of the ends, [kvsvc] and [rfsvc] what
[MakeService] returns for the controller and for its Raft peer. *)
Definition StartServer (kvsvc rfsvc : Service) (cfg : config) (i : Z) (names : list string)
    : outcome config :=
  let* ens := set_index (endnames cfg) i (Some names) in
  let* rn := make_ends (net cfg) names (n cfg) in
  let* p := index (saved cfg) i in
  let* sv := set_index (saved cfg) i
               (Some (match p with Some p => Persister.Copy p | None => Persister.MakePersister end)) in
  let* ups := set_index (servers_up cfg) i true in
  let srv := AddService (AddService MakeServer kvsvc) rfsvc in
  let a := fresh (dom (srv_heap cfg)) in
  Ok (mkCfg (AddServer rn (IInt i) a) (n cfg) ups sv ens (clerks cfg) (nextClientId cfg)
        (<[a := srv]> (srv_heap cfg))).

(** A server that is up is killed; its Raft peer is not part of the state. *)
Definition cleanup (cfg : config) (failed : bool) (elapsed : Z) : outcome config :=
  let* rn := Cleanup (net cfg) in
  let* _ := checkTimeout failed elapsed in
  Ok (set_net cfg rn).

(** The first server that is up and whose Raft peer says it is the leader. *)
Definition Leader (is_leader : Z → bool) (cfg : config) : outcome (bool * Z) :=
  for_each (λ found i,
    if found.1 : bool then Ok found
    else
      let* up := index (servers_up cfg) i in
      Ok (if up && is_leader i then (true, i) else found)) (range (n cfg)) (false, 0%Z).

(** The body of the loop of [make_partition]. *)
Definition part_step (l : Z) : list Z * list Z * Z → Z → outcome (list Z * list Z * Z) :=
  λ '(p1, p2, j) i,
    if decide (i = l) then Ok (p1, p2, j)
    else
      let* ps := if decide (j < len p1)%Z
                 then let* p1 := set_index p1 j i in Ok (p1, p2)
                 else let* p2 := set_index p2 (j - len p1) i in Ok (p1, p2) in
      Ok (ps.1, ps.2, (j + 1)%Z).

Definition make_partition (is_leader : Z → bool) (cfg : config) : outcome (list Z * list Z) :=
  let* (_, l) := Leader is_leader cfg in
  let* p1 := make_slice (n cfg `quot` 2 + 1) 0%Z in
  let* p2 := make_slice (n cfg `quot` 2) 0%Z in
  let* (p1, p2, _) := for_each (part_step l) (range (n cfg)) (p1, p2, 0%Z) in
  let* p2 := set_index p2 (len p2 - 1) l in
  Ok (p1, p2).

Definition make_config (kvsvc rfsvc : Service) (n : Z) (unreliable : bool) (names : Z → list string)
    : outcome config :=
  let* ups := make_slice n false in
  let* sv := make_slice n None in
  let* ens := make_slice n None in
  let cfg := mkCfg MakeNetwork n ups sv ens ∅ (n + 1000) ∅ in
  let* cfg := for_each (λ cfg i, StartServer kvsvc rfsvc cfg i (names i)) (range n) cfg in
  let* cfg := ConnectAll cfg in
  Ok (set_net cfg (Reliable (net cfg) (negb unreliable))).

(** ** Shuffling keeps the handles *)

Lemma insert_swap_Permutation {A} (l : list A) i j a b :
  l !! i = Some a → l !! j = Some b → <[j := a]> (<[i := b]> l) ≡ₚ l.
Proof.
  intros Hi Hj. destruct (decide (i = j)) as [->|Hne].
  { simplify_eq. by rewrite !list_insert_id by (rewrite ?list_insert_id; done). }
  assert (<[i := b]> l !! j = Some b) as Hj1 by by rewrite list_lookup_insert_ne.
  rewrite (insert_Permutation _ j b a Hj1).
  assert (delete j (<[i := b]> l) ≡ₚ delete i l) as ->.
  { apply (Permutation_cons_inv (a := b)). rewrite <-(insert_Permutation l i a b Hi).
    symmetry. by apply delete_Permutation. }
  symmetry. by apply delete_Permutation.
Qed.

Lemma swap_Permutation {A} (l : list A) i j :
  (0 ≤ i < len l)%Z → (0 ≤ j < len l)%Z → ∃ l', swap l i j = Ok l' ∧ l' ≡ₚ l.
Proof.
  intros Hi Hj. unfold swap.
  destruct (index_in_range l i Hi) as [a Ha]. destruct (index_in_range l j Hj) as [b Hb].
  rewrite Ha, Hb. simpl. rewrite set_index_in_range by done. simpl.
  rewrite set_index_in_range by (unfold len in *; by rewrite length_insert).
  eexists. split; [done|]. apply index_Ok in Ha as [_ Ha]. apply index_Ok in Hb as [_ Hb].
  by apply insert_swap_Permutation.
Qed.

(** [random_handles] returns the same handles in some order, whatever the
random choices. *)
Theorem random_handles_permutation {A} (kvh : list A) rnd :
  (∀ i, 0 ≤ i < len kvh → 0 ≤ rnd i ≤ i)%Z →
  ∃ sa, random_handles kvh rnd = Ok sa ∧ sa ≡ₚ kvh.
Proof.
  intros Hr. apply (for_each_total _ (λ _ sa, sa ≡ₚ kvh)); [done|].
  intros dn i sa Hsa [H0 H1]%elem_of_range.
  assert (len sa = len kvh) as E by (unfold len; by rewrite Hsa). specialize (Hr i (conj H0 H1)).
  destruct (swap_Permutation sa i (rnd i)) as (l' & ? & Hl'); [lia|lia|].
  exists l'. split; [done|]. by rewrite Hl'.
Qed.

(** ** Partitions *)

Lemma set_index_app_l {A} (l1 l2 : list A) j x :
  (0 ≤ j < len l1)%Z → <[Z.to_nat j := x]> (l1 ++ l2) = <[Z.to_nat j := x]> l1 ++ l2.
Proof. unfold len. intros. apply insert_app_l. lia. Qed.

Lemma set_index_app_r {A} (l1 l2 : list A) j x :
  (len l1 ≤ j)%Z → <[Z.to_nat j := x]> (l1 ++ l2) = l1 ++ <[Z.to_nat (j - len l1) := x]> l2.
Proof.
  unfold len. intros. replace (Z.to_nat j) with (length l1 + Z.to_nat (j - Z.of_nat (length l1))) by lia.
  apply insert_app_r.
Qed.

(** Writing the next free cell. *)
Lemma fill_next (os : list Z) k x :
  <[length os := x]> (os ++ replicate (S k) 0%Z) = (os ++ [x]) ++ replicate k 0%Z.
Proof.
  rewrite <-(Nat.add_0_r (length os)). rewrite insert_app_r. simpl. by rewrite <-app_assoc.
Qed.

Definition others (l : Z) (is_ : list Z) : list Z := filter (λ i, i ≠ l) is_.

(** One turn of the loop writes the next cell of the two slices taken together. *)
Lemma part_step_spec l p1 p2 os k i :
  i ≠ l → p1 ++ p2 = os ++ replicate (S k) 0%Z →
  ∃ p1' p2', part_step l (p1, p2, len os) i = Ok (p1', p2', len (os ++ [i])) ∧
    length p1' = length p1 ∧ p1' ++ p2' = (os ++ [i]) ++ replicate k 0%Z.
Proof.
  intros Hi E. unfold part_step. rewrite decide_False by done.
  assert (len (os ++ [i]) = len os + 1)%Z as -> by (unfold len; rewrite length_app; simpl; lia).
  assert (length p1 + length p2 = length os + S k) as El.
  { apply (f_equal length) in E. by rewrite !length_app, length_replicate in E. }
  rewrite <-fill_next, <-E. replace (length os) with (Z.to_nat (len os)) by (unfold len; lia).
  case_decide as Hd.
  - rewrite set_index_in_range by (unfold len in *; lia). eexists _, _. split; [done|].
    simpl. rewrite length_insert. split; [done|]. rewrite set_index_app_l; [done|unfold len in *; lia].
  - rewrite set_index_in_range by (unfold len in *; lia). eexists _, _. split; [done|].
    simpl. split; [done|]. rewrite set_index_app_r; [done|lia].
Qed.

Lemma part_loop l is_ p1 p2 os k :
  p1 ++ p2 = os ++ replicate (length (others l is_) + k) 0%Z →
  ∃ p1' p2', for_each (part_step l) is_ (p1, p2, len os) = Ok (p1', p2', len (os ++ others l is_)) ∧
    length p1' = length p1 ∧ p1' ++ p2' = os ++ others l is_ ++ replicate k 0%Z.
Proof.
  unfold others. revert p1 p2 os. induction is_ as [|i is_ IH]; intros p1 p2 os E.
  { exists p1, p2. simpl in *. by rewrite app_nil_r. }
  cbn [for_each]. rewrite filter_cons in *. destruct (decide (i ≠ l)) as [Hi|Hi].
  - simpl in E. destruct (part_step_spec l p1 p2 os _ i Hi E) as (p1' & p2' & -> & Hl & E').
    cbn [bind]. destruct (IH p1' p2' (os ++ [i]) E') as (q1 & q2 & -> & Hl2 & E2).
    exists q1, q2. rewrite <-!app_assoc in *. simpl in *. split_and!; [done|lia|done].
  - unfold part_step at 1. rewrite decide_True by (by apply dec_stable). cbn [bind].
    by apply IH.
Qed.

Lemma others_Permutation l m : (0 ≤ l < m)%Z → others l (range m) ++ [l] ≡ₚ range m.
Proof.
  intros Hl. rewrite (Permutation_app_comm _ [l]). symmetry.
  apply NoDup_Permutation; [apply range_NoDup| |].
  - constructor; [|apply NoDup_filter, range_NoDup]. unfold others.
    intros [? _]%list_elem_of_filter. done.
  - intros x. simpl. unfold others. rewrite elem_of_cons, list_elem_of_filter, elem_of_range.
    destruct (decide (x = l)); naive_solver lia.
Qed.

Lemma others_length l m : (0 ≤ l < m)%Z → length (others l (range m)) = Z.to_nat m - 1.
Proof.
  intros Hl%others_Permutation%Permutation_length. rewrite length_app, range_length in Hl.
  simpl in Hl. lia.
Qed.

Definition leads (is_leader : Z → bool) (cfg : config) (i : Z) : Prop :=
  index (servers_up cfg) i = Ok true ∧ is_leader i = true.

(** [Leader] finds the first leader, and returns 0 when there is none. *)
Lemma Leader_spec is_leader cfg :
  len (servers_up cfg) = n cfg → (1 ≤ n cfg)%Z →
  ∃ b l, Leader is_leader cfg = Ok (b, l) ∧ (0 ≤ l < n cfg)%Z ∧
    if b : bool then leads is_leader cfg l
    else l = 0%Z ∧ ∀ i, (0 ≤ i < n cfg)%Z → ¬ leads is_leader cfg i.
Proof.
  intros Hl Hn. unfold Leader.
  destruct (for_each_total (λ found i,
    if found.1 : bool then Ok found
    else
      let* up := index (servers_up cfg) i in
      Ok (if up && is_leader i then (true, i) else found))
    (λ dn st, (0 ≤ st.2 < n cfg)%Z ∧
      if st.1 : bool then leads is_leader cfg st.2
      else st.2 = 0%Z ∧ ∀ i, i ∈ dn → ¬ leads is_leader cfg i)
    (range (n cfg)) (false, 0%Z)) as ([b l] & -> & Hb & Hst).
  - simpl. split; [lia|]. split; [done|]. by intros i ?%not_elem_of_nil.
  - intros dn i [b l] [Hr Hst] Hi%elem_of_range. simpl in *. destruct b; [by eauto|].
    destruct (index_in_range (servers_up cfg) i) as [up Hup]; [lia|]. rewrite Hup. simpl.
    destruct Hst as [-> Hno]. eexists. split; [done|].
    destruct (up && is_leader i) eqn:E; simpl.
    + apply andb_true_iff in E as [-> ?]. done.
    + split; [lia|]. split; [done|]. intros k [?| ->%list_elem_of_singleton]%elem_of_app; [by auto|].
      intros [Hk Hlk]. rewrite Hup in Hk. simplify_eq. by rewrite Hlk in E.
  - exists b, l. split; [done|]. simpl in *. split; [done|]. destruct b; [done|].
    destruct Hst as [-> Hno]. split; [done|]. intros i Hi. apply Hno. by apply elem_of_range.
Qed.

(** The two slices, for any number of servers but one: all other servers in
order, a spare 0 if the number is even, and the leader. *)
Lemma make_partition_concat is_leader cfg :
  len (servers_up cfg) = n cfg → (2 ≤ n cfg)%Z →
  ∃ b l p1 p2, Leader is_leader cfg = Ok (b, l) ∧ (0 ≤ l < n cfg)%Z ∧
    make_partition is_leader cfg = Ok (p1, p2) ∧
    len p1 = (n cfg / 2 + 1)%Z ∧ len p2 = (n cfg / 2)%Z ∧ last p2 = Some l ∧
    p1 ++ p2 = others l (range (n cfg)) ++ (if Z.odd (n cfg) then [] else [0%Z]) ++ [l].
Proof.
  intros Hup Hn. destruct (Leader_spec is_leader cfg Hup) as (b & l & HL & Hlr & _); [lia|].
  unfold make_partition. rewrite HL. cbn [bind].
  rewrite Z.quot_div_nonneg by lia. set (m := (n cfg / 2)%Z).
  assert (1 ≤ m)%Z as Hm by (apply Z.div_le_lower_bound; lia).
  set (e := if Z.odd (n cfg) then 0 else 1).
  assert (n cfg = 2 * m + 1 - Z.of_nat e)%Z as En.
  { pose proof (Z.div2_odd (n cfg)) as Eo. rewrite Z.div2_div in Eo. fold m in Eo. unfold e.
    destruct (Z.odd (n cfg)); simpl in Eo; lia. }
  unfold make_slice. rewrite !decide_True by lia. cbn [bind].
  destruct (part_loop l (range (n cfg)) (replicate (Z.to_nat (m + 1)) 0%Z)
    (replicate (Z.to_nat m) 0%Z) [] (S e)) as (p1 & p2 & HF & Hl1 & Ep).
  { rewrite <-replicate_add, others_length by done. simpl. f_equal. lia. }
  change (len []) with 0%Z in HF. rewrite HF. cbn [bind]. rewrite app_nil_l in Ep.
  assert (len p1 = m + 1)%Z as El1 by (unfold len; rewrite Hl1, length_replicate; lia).
  assert (len p2 = m)%Z as El2.
  { apply (f_equal length) in Ep. rewrite !length_app, length_replicate, others_length in Ep by done. unfold len in *. lia. }
  rewrite set_index_in_range by lia. cbn [bind].
  set (p2' := <[Z.to_nat (len p2 - 1) := l]> p2).
  assert (length p2' = length p2) as El3 by apply length_insert.
  assert (p1 ++ p2' = others l (range (n cfg)) ++ (if Z.odd (n cfg) then [] else [0%Z]) ++ [l]) as Ef.
  { unfold p2'. replace (len p2 - 1)%Z with (n cfg + Z.of_nat e - 1 - len p1)%Z by lia.
    rewrite <-set_index_app_r by lia. rewrite Ep.
    assert (Z.to_nat (n cfg + Z.of_nat e - 1) = length (others l (range (n cfg)) ++ replicate e 0%Z)) as ->.
    { rewrite length_app, length_replicate, others_length by done. lia. }
    replace (S e) with (e + 1) by lia. rewrite replicate_add, app_assoc. simpl.
    rewrite (fill_next _ 0). rewrite app_nil_r, <-app_assoc. unfold e. by destruct (Z.odd (n cfg)). }
  exists b, l, p1, p2'. do 4 (split; [done|]). split; [unfold len in *; lia|]. split; [|done].
  assert (length p2' ≠ 0) as Hne by (unfold len in *; lia).
  destruct p2' as [|x q _] using rev_ind; [done|].
  rewrite last_snoc. rewrite !app_assoc in Ef. by apply app_inj_tail in Ef as [_ ->].
Qed.

(** [make_partition] of an odd number of servers puts each server into one of
two parts, the larger of them by one, and the leader into the smaller one. *)
Theorem make_partition_odd is_leader cfg :
  len (servers_up cfg) = n cfg → (3 ≤ n cfg)%Z → Z.odd (n cfg) = true →
  ∃ b l p1 p2, Leader is_leader cfg = Ok (b, l) ∧ make_partition is_leader cfg = Ok (p1, p2) ∧
    p1 ++ p2 ≡ₚ range (n cfg) ∧ len p1 = (len p2 + 1)%Z ∧ l ∈ p2.
Proof.
  intros Hup Hn Hodd.
  destruct (make_partition_concat is_leader cfg Hup) as (b & l & p1 & p2 & HL & Hl & HP & E1 & E2 & Hla & E);
    [lia|].
  exists b, l, p1, p2. split_and!; try done; [|lia|].
  - rewrite E, Hodd. simpl. by apply others_Permutation.
  - apply last_Some in Hla as [q ->]. set_solver.
Qed.

(** [make_partition] of an even number of servers puts server 0 into the parts
once more than the others, so that the parts are not a partition. *)
Theorem make_partition_even is_leader cfg :
  len (servers_up cfg) = n cfg → (2 ≤ n cfg)%Z → Z.even (n cfg) = true →
  ∃ p1 p2, make_partition is_leader cfg = Ok (p1, p2) ∧ p1 ++ p2 ≡ₚ 0%Z :: range (n cfg).
Proof.
  intros Hup Hn Heven.
  destruct (make_partition_concat is_leader cfg Hup) as (b & l & p1 & p2 & HL & Hl & HP & E1 & E2 & Hla & E);
    [lia|].
  exists p1, p2. split; [done|]. rewrite E, <-Z.negb_even, Heven. simpl.
  transitivity (0%Z :: others l (range (n cfg)) ++ [l]); [solve_Permutation|].
  by apply Permutation_cons, others_Permutation.
Qed.

(** [make_partition] of a single server ends the process: the last cell of an
empty slice is written. *)
Theorem make_partition_single is_leader cfg :
  len (servers_up cfg) = n cfg → n cfg = 1%Z →
  make_partition is_leader cfg = Crash IndexOutOfRange.
Proof.
  intros Hup Hn. destruct (Leader_spec is_leader cfg Hup) as (b & l & HL & Hl & _); [lia|].
  unfold make_partition. rewrite HL. assert (l = 0%Z) as -> by lia. by rewrite Hn.
Qed.

(** ** Connections *)

(** All servers have names for their ends. *)
Record full (cfg : config) (nm : Z → Z → string) : Prop := {
  full_rows : len (endnames cfg) = n cfg;
  full_names : ∀ i j, (0 ≤ i < n cfg)%Z → (0 ≤ j < n cfg)%Z → endname cfg i j = Ok (nm i j) }.

Definition in_range (cfg : config) (is_ : list Z) : Prop := ∀ i, i ∈ is_ → (0 ≤ i < n cfg)%Z.

Lemma full_row cfg nm i :
  full cfg nm → (0 ≤ i < n cfg)%Z → ∃ row, index (endnames cfg) i = Ok (Some row).
Proof.
  intros Hf Hi. pose proof (full_names _ _ Hf i i Hi Hi) as E. unfold endname, endname_at in E.
  destruct (index (endnames cfg) i) as [[row|]|]; simpl in E; [by eauto|done|done].
Qed.

Lemma full_set_net cfg nm rn : full cfg nm → full (set_net cfg rn) nm.
Proof. intros [H1 H2]. by split. Qed.

Lemma in_range_len cfg is_ : (0 ≤ n cfg)%Z → NoDup is_ → in_range cfg is_ → (len is_ ≤ n cfg)%Z.
Proof.
  intros Hn Hnd Hr. assert (length is_ ≤ length (range (n cfg))) as Hl.
  { apply submseteq_length, NoDup_submseteq; [done|]. intros i Hi. by apply elem_of_range, Hr. }
  rewrite range_length in Hl. unfold len. lia.
Qed.

Section names.
Context (nm : Z → Z → string).

(** The calls of [Enable] that connecting or disconnecting server [i] makes. *)
Definition links (i : Z) (to : list Z) (b : bool) : list (string * bool) :=
  ((λ t, (nm i t, b)) <$> to) ++ ((λ t, (nm t i, b)) <$> to).

Lemma links_elem i to b e b' :
  (e, b') ∈ links i to b ↔ b' = b ∧ ∃ t, t ∈ to ∧ (e = nm i t ∨ e = nm t i).
Proof.
  unfold links. rewrite elem_of_app, !list_elem_of_fmap. split.
  - intros [(t & ? & ?)|(t & ? & ?)]; simplify_eq; eauto.
  - intros (-> & t & ? & [->| ->]); [left|right]; eauto.
Qed.

Lemma connect_links cfg i to :
  full cfg nm → (0 ≤ i < n cfg)%Z → in_range cfg to →
  connectUnlocked cfg i to = Ok (set_net cfg (apply_enables (net cfg) (links i to true))).
Proof.
  intros Hf Hi Hto. unfold connectUnlocked.
  rewrite (for_each_pure _ (λ rn e, Enable rn (IStr e.1) e.2) (λ t, (nm i t, true))).
  2: { intros rn t Ht. by rewrite (full_names _ _ Hf) by auto. }
  cbn [bind]. rewrite (for_each_pure _ (λ rn e, Enable rn (IStr e.1) e.2) (λ t, (nm t i, true))).
  2: { intros rn t Ht. by rewrite (full_names _ _ Hf) by auto. }
  cbn [bind]. unfold links. by rewrite apply_enables_app.
Qed.

Lemma disconnect_links cfg i from :
  full cfg nm → (0 ≤ i < n cfg)%Z → in_range cfg from → (len from ≤ n cfg)%Z →
  disconnectUnlocked cfg i from = Ok (set_net cfg (apply_enables (net cfg) (links i from false))).
Proof.
  intros Hf Hi Hfr Hlen. unfold disconnectUnlocked.
  rewrite (for_each_pure _ (λ rn e, Enable rn (IStr e.1) e.2) (λ t, (nm i t, false))).
  2: { intros rn t Ht. destruct (full_row cfg nm i Hf Hi) as [row ->]. cbn [bind].
       by rewrite (full_names _ _ Hf) by auto. }
  cbn [bind].
  rewrite (for_each_pure _ (λ rn e, Enable rn (IStr e.1) e.2)
    (λ j, (nm (default 0%Z (from !! Z.to_nat j)) i, false))).
  2: { intros rn j Hj%elem_of_range. destruct (full_row cfg nm j Hf) as [row ->]; [lia|].
       destruct (index_in_range from j Hj) as [f Hif]. cbn [bind]. rewrite Hif. cbn [bind].
       apply index_Ok in Hif as [_ Hif]. rewrite Hif. simpl.
       rewrite (full_names _ _ Hf); [done| |done]. apply Hfr. by eapply list_elem_of_lookup_2. }
  cbn [bind]. unfold links. rewrite apply_enables_app.
  rewrite <-(range_lookup_id 0%Z from) at 4. by rewrite <-list_fmap_compose.
Qed.

Lemma links_loop (f : config → Z → outcome config) (es : Z → list (string * bool)) is_ cfg :
  (∀ cfg' i, n cfg' = n cfg → full cfg' nm → i ∈ is_ →
     f cfg' i = Ok (set_net cfg' (apply_enables (net cfg') (es i)))) →
  full cfg nm →
  for_each f is_ cfg = Ok (set_net cfg (apply_enables (net cfg) (is_ ≫= es))).
Proof.
  revert cfg. induction is_ as [|i is_ IH]; intros cfg Hf Hfull.
  { simpl. by destruct cfg. }
  simpl. rewrite Hf by (done || set_solver). cbn [bind]. rewrite IH.
  - simpl. by rewrite apply_enables_app.
  - intros cfg' j Hn ??. apply Hf; [done|done|set_solver].
  - by apply full_set_net.
Qed.

(** The calls of [Enable] that [partition] makes. *)
Definition partition_links (p1 p2 : list Z) : list (string * bool) :=
  (p1 ≫= λ i, links i p2 false ++ links i p1 true) ++ (p2 ≫= λ i, links i p1 false ++ links i p2 true).

Lemma partition_apply cfg p1 p2 :
  full cfg nm → in_range cfg p1 → in_range cfg p2 → (len p1 ≤ n cfg)%Z → (len p2 ≤ n cfg)%Z →
  partition cfg p1 p2 = Ok (set_net cfg (apply_enables (net cfg) (partition_links p1 p2))).
Proof.
  intros Hf H1 H2 L1 L2. unfold partition, partition_links.
  assert (∀ q1 q2 cfg' i, n cfg' = n cfg → full cfg' nm → in_range cfg q1 → in_range cfg q2 →
    (len q2 ≤ n cfg)%Z → i ∈ q1 →
    (let* c := disconnectUnlocked cfg' i q2 in connectUnlocked c i q1)
    = Ok (set_net cfg' (apply_enables (net cfg') (links i q2 false ++ links i q1 true)))) as Hstep.
  { intros q1 q2 cfg' i En Hf' Hq1 Hq2 Hl Hi. unfold in_range in *. rewrite <-En in *.
    rewrite disconnect_links by auto. cbn [bind].
    rewrite connect_links; [by rewrite apply_enables_app|by apply full_set_net|by auto|done]. }
  rewrite (links_loop _ (λ i, links i p2 false ++ links i p1 true)) by auto. cbn [bind].
  rewrite (links_loop _ (λ i, links i p1 false ++ links i p2 true)).
  - cbn [net set_net]. by rewrite apply_enables_app.
  - intros cfg' i En Hf' Hi. by apply (Hstep p2 p1 cfg' i).
  - by apply full_set_net.
Qed.

(** Ends have different names. *)
Definition distinct (cfg : config) : Prop :=
  ∀ i j i' j', (0 ≤ i < n cfg)%Z → (0 ≤ j < n cfg)%Z → (0 ≤ i' < n cfg)%Z → (0 ≤ j' < n cfg)%Z →
    nm i j = nm i' j' → i = i' ∧ j = j'.

Lemma partition_links_elem (p1 p2 : list Z) (e : string) (b : bool) :
  (e, b) ∈ partition_links p1 p2 ↔
  ∃ i j, e = nm i j ∧
    if b then (i ∈ p1 ∧ j ∈ p1) ∨ (i ∈ p2 ∧ j ∈ p2)
    else (i ∈ p1 ∧ j ∈ p2) ∨ (i ∈ p2 ∧ j ∈ p1).
Proof.
  unfold partition_links. rewrite elem_of_app, !list_elem_of_bind.
  setoid_rewrite elem_of_app. setoid_rewrite links_elem. split.
  - intros [(i & [(-> & t & ? & [->| ->])|(-> & t & ? & [->| ->])] & ?)
           |(i & [(-> & t & ? & [->| ->])|(-> & t & ? & [->| ->])] & ?)]; eauto 10.
  - intros (i & j & -> & Hb). destruct b.
    + destruct Hb as [[??]|[??]]; [left|right]; exists i; (split; [|done]); right; eauto.
    + destruct Hb as [[??]|[??]]; [left|right]; exists i; (split; [|done]); left; eauto.
Qed.

End names.

(** [partition] separates the two groups and connects each: afterwards the end
by which server [i] calls server [j] is enabled if both are in the same group and
disabled if they are in different ones; the ends of other servers and of clients
are as before. *)
Theorem partition_spec cfg nm (p1 p2 : list Z) :
  full cfg nm → distinct nm cfg → in_range cfg p1 → in_range cfg p2 →
  NoDup (p1 ++ p2) →
  ∃ cfg', partition cfg p1 p2 = Ok cfg' ∧
    (∀ i j, i ∈ p1 ++ p2 → j ∈ p1 ++ p2 →
       is_enabled (net cfg') (IStr (nm i j)) = bool_decide (i ∈ p1 ↔ j ∈ p1)) ∧
    (∀ e : string, (∀ i j, i ∈ p1 ++ p2 → j ∈ p1 ++ p2 → e ≠ nm i j) →
       is_enabled (net cfg') (IStr e) = is_enabled (net cfg) (IStr e)).
Proof.
  intros Hf Hd H1 H2 Hnd.
  pose proof Hnd as (N1 & Hdisj & N2)%NoDup_app.
  assert (0 ≤ n cfg)%Z as Hn by (rewrite <-(full_rows _ _ Hf); apply len_nonneg).
  eexists. split; [apply (partition_apply nm); try done; apply in_range_len; try done|]. cbn [net set_net].
  assert (∀ i, i ∈ p1 ++ p2 → (0 ≤ i < n cfg)%Z) as Hr.
  { intros i [?|?]%elem_of_app; auto. }
  assert (∀ i, i ∈ p1 ++ p2 → (i ∈ p1 ∧ (i ∉ p2)) ∨ (i ∈ p2 ∧ (i ∉ p1))) as Hside.
  { intros i [Hi|Hi]%elem_of_app; [left|right]; (split; [done|]); intros ?; by eapply Hdisj. }
  split.
  - intros i j Hi Hj. apply enables_all.
    + apply partition_links_elem. exists i, j. split; [done|].
      destruct (Hside i Hi) as [[]|[]], (Hside j Hj) as [[]|[]]; case_bool_decide; tauto.
    + rewrite partition_links_elem. intros (i' & j' & E & Hb).
      assert (i' ∈ p1 ++ p2 ∧ j' ∈ p1 ++ p2) as [Hi' Hj'].
      { rewrite !elem_of_app. destruct (negb _); tauto. }
      apply Hd in E as [<- <-]; [|by auto..].
      destruct (Hside i Hi) as [[]|[]], (Hside j Hj) as [[]|[]]; case_bool_decide; simpl in Hb; tauto.
  - intros e He. apply enables_other. intros b. rewrite partition_links_elem. intros (i & j & E & Hb).
    apply (He i j); [..|done]; rewrite elem_of_app; destruct b; tauto.
Qed.

(** ** A new test bed *)

Section make_config.
Context (kvsvc rfsvc : Service) (m : Z) (names : Z → list string).
Context (names_len : ∀ i, (0 ≤ i < m)%Z → len (names i) = m).

Definition nm (i j : Z) : string := default "" (names i !! Z.to_nat j).

(** The random names are all different. *)
Definition names_distinct : Prop :=
  ∀ i j i' j', (0 ≤ i < m)%Z → (0 ≤ j < m)%Z → (0 ≤ i' < m)%Z → (0 ≤ j' < m)%Z →
    nm i j = nm i' j' → i = i' ∧ j = j'.
Context (names_diff : names_distinct).

Definition new_server : Server := AddService (AddService MakeServer kvsvc) rfsvc.

Record started (dn : list Z) (cfg : config) : Prop := {
  st_n : n cfg = m;
  st_lens : len (servers_up cfg) = m ∧ len (saved cfg) = m ∧ len (endnames cfg) = m;
  st_names : ∀ i, i ∈ dn → index (endnames cfg) i = Ok (Some (names i));
  st_ends : ∀ e, e ∈ ends (net cfg) →
    ∃ i j, i ∈ dn ∧ (0 ≤ j < m)%Z ∧ e = IStr (nm i j);
  st_conn : ∀ i j, i ∈ dn → (0 ≤ j < m)%Z →
    IStr (nm i j) ∈ ends (net cfg) ∧ connections (net cfg) !! IStr (nm i j) = Some (Some (IInt j));
  st_servers : ∀ i, i ∈ dn → ∃ a, server_of (net cfg) (IInt i) = Some a ∧
    srv_heap cfg !! a = Some new_server;
  st_reorder : longReordering (net cfg) = false }.

Lemma names_nm i j s : (0 ≤ i < m)%Z → names i !! j = Some s →
  s = nm i (Z.of_nat j) ∧ (0 ≤ Z.of_nat j < m)%Z.
Proof using names_len.
  intros Hi Hs. unfold nm. rewrite Nat2Z.id, Hs. split; [done|].
  apply lookup_lt_Some in Hs. specialize (names_len i Hi). unfold len in names_len. lia.
Qed.

Lemma nm_lookup i j : (0 ≤ i < m)%Z → (0 ≤ j < m)%Z → names i !! Z.to_nat j = Some (nm i j).
Proof using names_len.
  intros Hi Hj. unfold nm. specialize (names_len i Hi). unfold len in names_len.
  destruct (lookup_lt_is_Some_2 (names i) (Z.to_nat j)) as [s ->]; [lia|done].
Qed.

Lemma names_NoDup i : (0 ≤ i < m)%Z → NoDup (names i).
Proof using names_len names_diff.
  intros Hi. apply NoDup_alt. intros j k s Hj Hk.
  apply (names_nm i j s Hi) in Hj as [-> Hj]. apply (names_nm i k _ Hi) in Hk as [E Hk].
  apply names_diff in E as [_ E]; [lia|done..].
Qed.

Lemma start_step dn i rest cfg :
  range m = dn ++ i :: rest → started dn cfg →
  ∃ cfg', StartServer kvsvc rfsvc cfg i (names i) = Ok cfg' ∧ started (dn ++ [i]) cfg'.
Proof using names_len names_diff.
  intros El [Hn (Lu & Ls & Le) Hnames Hends Hconn Hsrv Hreo].
  assert (0 ≤ i < m)%Z as Hi by (apply elem_of_range; rewrite El; set_solver).
  assert (∀ k, k ∈ dn → (0 ≤ k < m)%Z) as Hdn.
  { intros k Hk. apply elem_of_range. rewrite El. set_solver. }
  pose proof (NoDup_split_notin _ _ _ _ (range_NoDup m) El) as Hnotin.
  destruct (make_ends_spec (net cfg) (names i) (n cfg)) as (rn & Hrn & [Me Mn Mo _ Ms Mr]).
  { rewrite Hn. by apply names_len. }
  { by apply names_NoDup. }
  { intros s [j Hs]%list_elem_of_lookup (i' & j' & Hi' & Hj' & [= ->])%Hends.
    apply (names_nm i j _ Hi) in Hs as [E ?]. apply names_diff in E as [-> _]; auto. }
  rewrite Hn in Me, Mn. unfold StartServer. rewrite set_index_in_range by lia. cbn [bind].
  rewrite Hrn. cbn [bind].
  destruct (index_in_range (saved cfg) i) as [p ->]; [lia|]. cbn [bind].
  rewrite set_index_in_range by lia. cbn [bind]. rewrite set_index_in_range by lia. cbn [bind].
  eexists. split; [done|]. split; simpl.
  - done.
  - unfold len in *. by rewrite !length_insert.
  - intros k [Hk|Hk]%elem_of_app.
    + specialize (Hnames k Hk). rewrite index_Ok in *. destruct Hnames as [? Hlk]. split; [done|].
      rewrite list_lookup_insert_ne; [done|]. specialize (Hdn k Hk). intros E. apply Hnotin.
      by assert (i = k) as -> by lia.
    + apply list_elem_of_singleton in Hk as ->. rewrite index_Ok. split; [lia|].
      apply list_lookup_insert_eq. unfold len in Le. lia.
  - intros e [(i' & j' & ? & ? & ->)%Hends|(j & s & Hj%elem_of_range & Hs & ->)]%Me.
    + exists i', j'. set_solver.
    + exists i, j. rewrite nm_lookup in Hs by done. simplify_eq. set_solver.
  - intros k j [Hk|Hk]%elem_of_app Hj.
    + destruct (Hconn k j Hk Hj) as [Hin Hc]. destruct (Mo _ Hin) as (? & -> & _). done.
    + apply list_elem_of_singleton in Hk as ->. destruct (Mn j (nm i j)) as (? & ? & _);
        [by apply elem_of_range|by apply nm_lookup|done].
  - unfold server_of. simpl. rewrite Ms. intros k Hk. destruct (decide (k = i)) as [->|Hne].
    { rewrite lookup_insert_eq. eexists. split; [done|]. apply lookup_insert_eq. }
    assert (k ∈ dn) as Hkd by (apply elem_of_app in Hk as [?|?%list_elem_of_singleton]; done).
    destruct (Hsrv k Hkd) as (b & Hb & Hhb). exists b.
    rewrite lookup_insert_ne by congruence. split; [done|].
    rewrite lookup_insert_ne; [done|]. intros E. apply (is_fresh (dom (srv_heap cfg))).
    rewrite E. by eapply elem_of_dom_2.
  - congruence.
Qed.

Lemma started_full cfg : started (range m) cfg → full cfg nm ∧ distinct nm cfg.
Proof using names_len names_diff.
  intros [Hn (Lu & Ls & Le) Hnames Hends Hconn Hsrv Hreo]. split; [split; [congruence|]|].
  - intros i j. rewrite Hn. intros Hi Hj. unfold endname, endname_at. rewrite Hnames by by apply elem_of_range.
    cbn [bind]. apply index_Ok. split; [lia|]. by apply nm_lookup.
  - unfold distinct. by rewrite Hn.
Qed.

Lemma ConnectAll_links cfg :
  full cfg nm → (0 ≤ n cfg)%Z →
  ConnectAll cfg = Ok (set_net cfg (apply_enables (net cfg)
                         (range (n cfg) ≫= λ i, links nm i (range (n cfg)) true))).
Proof.
  intros Hf Hn. unfold ConnectAll. apply (links_loop nm); [|done].
  intros cfg' i En Hf' Hi%elem_of_range. unfold All. rewrite En.
  unfold make_slice. rewrite decide_True by done. cbn [bind].
  rewrite (for_each_fill (λ i, i)), list_fmap_id by (rewrite ?length_replicate; done). cbn [bind].
  apply connect_links; [done|lia|]. intros j Hj%elem_of_range. lia.
Qed.

(** A new test bed is connected: with random names that are all different,
[make_config] succeeds, and the end by which server [i] calls server [j] leads to
server [j], which is registered with the services of the controller and of its
Raft peer, over a network that is reliable unless asked otherwise. *)
Theorem make_config_connected unreliable :
  (0 ≤ m)%Z →
  ∃ cfg, make_config kvsvc rfsvc m unreliable names = Ok cfg ∧
    ∀ i j, (0 ≤ i < m)%Z → (0 ≤ j < m)%Z →
      ∃ a, find_target (readEndnameInfo (net cfg) (IStr (nm i j)))
           = Some (mkTarget (IInt j) a (negb unreliable) false) ∧
           srv_heap cfg !! a = Some new_server.
Proof using names_len names_diff.
  intros Hm. unfold make_config, make_slice. rewrite !decide_True by done. cbn [bind].
  destruct (for_each_total_split (λ cfg i, StartServer kvsvc rfsvc cfg i (names i)) started (range m)
    (mkCfg MakeNetwork m (replicate (Z.to_nat m) false) (replicate (Z.to_nat m) None)
       (replicate (Z.to_nat m) None) ∅ (m + 1000) ∅)) as (cfg & -> & Hst).
  { split; simpl; try done; try (by intros ? ?%not_elem_of_nil); try (by intros ?? ?%not_elem_of_nil).
    unfold len. rewrite !length_replicate. lia. }
  { intros dn i rest cfg El Hd. by eapply start_step. }
  destruct (started_full cfg Hst) as [Hf _]. destruct Hst as [Hn _ _ _ Hconn Hsrv Hreo].
  cbn [bind]. rewrite ConnectAll_links by (done || by rewrite Hn). cbn [bind].
  eexists. split; [done|]. intros i j Hi Hj. rewrite Hn.
  set (es := range m ≫= λ i, links nm i (range m) true).
  destruct (apply_enables_frame (net cfg) es) as (Fc & Fs & Fr).
  assert (is_enabled (apply_enables (net cfg) es) (IStr (nm i j)) = true) as Hen.
  { apply enables_all; unfold es; rewrite list_elem_of_bind; setoid_rewrite links_elem.
    - exists i. split; [|by apply elem_of_range]. split; [done|]. exists j.
      split; [by apply elem_of_range|by left].
    - by intros (? & [? _] & _). }
  destruct (Hsrv j) as (a & Ha & Hh); [by apply elem_of_range|]. exists a. split; [|done].
  destruct (Hconn i j) as [_ Hc]; [by apply elem_of_range|done|].
  unfold find_target, readEndnameInfo. cbn [net set_net i_enabled i_servername i_server i_reliable i_longreordering].
  unfold is_enabled, connected_to, server_of in *. cbn [Reliable enabled connections servers reliable longReordering].
  rewrite Hen, Fc, Hc, Fs, Fr, Hreo. simpl. by rewrite Ha.
Qed.

End make_config.

(** ** Shutting a server down *)

Lemma All_range cfg : (0 ≤ n cfg)%Z → All cfg = Ok (range (n cfg)).
Proof.
  intros Hn. unfold All, make_slice. rewrite decide_True by done. cbn [bind].
  by rewrite (for_each_fill (λ i, i)), list_fmap_id by (rewrite ?length_replicate; done).
Qed.

(** [ShutdownServer] cuts a server off: afterwards no request from it or to it
finds a server, the server is no longer registered, its persister holds what the
old one held, and the connections among the other servers are as before. *)
Theorem ShutdownServer_isolates cfg nm i :
  full cfg nm → distinct nm cfg → len (saved cfg) = n cfg → len (servers_up cfg) = n cfg →
  (0 ≤ i < n cfg)%Z →
  ∃ cfg', ShutdownServer cfg i = Ok cfg' ∧ server_of (net cfg') (IInt i) = None ∧
    saved cfg' = saved cfg ∧
    (∀ j, (0 ≤ j < n cfg)%Z →
       find_target (readEndnameInfo (net cfg') (IStr (nm i j))) = None ∧
       find_target (readEndnameInfo (net cfg') (IStr (nm j i))) = None) ∧
    (∀ j k, (0 ≤ j < n cfg)%Z → (0 ≤ k < n cfg)%Z → j ≠ i → k ≠ i →
       is_enabled (net cfg') (IStr (nm j k)) = is_enabled (net cfg) (IStr (nm j k))).
Proof.
  intros Hf Hd Ls Lu Hi. unfold ShutdownServer. rewrite All_range by lia. cbn [bind].
  rewrite (disconnect_links nm) by
    (done || (intros j Hj%elem_of_range; lia) || (unfold len; rewrite range_length; lia)).
  cbn [bind set_net net saved servers_up endnames clerks nextClientId srv_heap n].
  destruct (index_in_range (saved cfg) i) as [p Hp]; [lia|]. rewrite Hp. cbn [bind].
  rewrite set_index_in_range by lia. cbn [bind].
  destruct (index_in_range (servers_up cfg) i) as [up ->]; [lia|]. cbn [bind].
  set (es := links nm i (range (n cfg)) false).
  assert (∃ ups, (if up then set_index (servers_up cfg) i false else Ok (servers_up cfg)) = Ok ups)
    as [ups ->].
  { destruct up; [|by eauto]. rewrite set_index_in_range by lia. by eauto. }
  cbn [bind]. eexists. split; [done|].
  assert (∀ e, is_enabled (DeleteServer (apply_enables (net cfg) es) (IInt i)) e
    = is_enabled (apply_enables (net cfg) es) e) as Hen by done.
  split; [|split; [|split]]; cbn [net saved].
  - unfold server_of. simpl. by rewrite lookup_insert_eq.
  - apply list_insert_id. apply index_Ok in Hp as [_ ->]. by destruct p as [[]|].
  - intros j Hj. assert (∀ e, (e, false) ∈ es →
      find_target (readEndnameInfo (DeleteServer (apply_enables (net cfg) es) (IInt i)) (IStr e)) = None)
      as Hgone.
    { intros e He. unfold find_target, readEndnameInfo. cbn [i_enabled]. rewrite Hen.
      rewrite (enables_all (net cfg) es e false He); [done|]. unfold es. rewrite links_elem.
      by intros [? _]. }
    split; apply Hgone; unfold es; rewrite links_elem; (split; [done|]); exists j;
      (split; [by apply elem_of_range|]); auto.
  - intros j k Hj Hk Hji Hki. rewrite Hen. apply enables_other. intros b. unfold es.
    rewrite links_elem. intros (_ & t & Ht%elem_of_range & [E|E]); apply Hd in E as [? ?]; done.
Qed.

(** [LogSize] is the largest size of a persisted state. *)
Lemma LogSize_max cfg sizes :
  (∀ i, (0 ≤ i < n cfg)%Z → ∃ p, index (saved cfg) i = Ok (Some p) ∧ Persister.RaftStateSize p = sizes i) →
  ∃ s, LogSize cfg = Ok s ∧ (∀ i, (0 ≤ i < n cfg)%Z → (sizes i ≤ s)%Z) ∧
    (s = 0 ∨ ∃ i, (0 ≤ i < n cfg) ∧ s = sizes i)%Z.
Proof.
  intros Hs. unfold LogSize.
  match goal with |- context [for_each ?f ?l ?z] =>
    destruct (for_each_total f (λ dn s, (∀ i, i ∈ dn → (sizes i ≤ s)%Z) ∧
      (s = 0 ∨ ∃ i, (0 ≤ i < n cfg) ∧ s = sizes i)%Z) l z) as (s & E & H1 & H2)
  end.
  - split; [by intros i ?%not_elem_of_nil|by left].
  - intros dn i t [H1 H2] Hi%elem_of_range. destruct (Hs i Hi) as (p & -> & Hp). cbn [bind].
    rewrite Hp. eexists. split; [done|]. case_decide as Hlt.
    + split; [|right; by exists i]. intros k [Hk| ->%list_elem_of_singleton]%elem_of_app; [|lia].
      specialize (H1 k Hk). lia.
    + split; [|done]. intros k [Hk| ->%list_elem_of_singleton]%elem_of_app; [by auto|lia].
  - exists s. split; [exact E|]. split; [|done]. intros i Hi. apply H1. by apply elem_of_range.
Qed.

(** ** Small test beds *)

Definition demo_svc (name : string) : Service := MakeService name [].
Definition demo_names (i : Z) : list string := (λ j, Itoa i +:+ "-" +:+ Itoa j) <$> range 3.
Definition demo_cfg : config :=
  match make_config (demo_svc "ShardCtrler") (demo_svc "Raft") 3 false demo_names with
  | Ok cfg => cfg
  | Crash _ => mkCfg MakeNetwork 0 [] [] [] ∅ 0 ∅
  end.
Definition demo_size (k : Z) : config :=
  mkCfg MakeNetwork k (replicate (Z.to_nat k) true) [] [] ∅ 0 ∅.

Lemma three_cases i : (0 ≤ i < 3)%Z → i = 0%Z ∨ i = 1%Z ∨ i = 2%Z.
Proof. lia. Qed.

Ltac three := repeat match goal with
  | H : (0 ≤ _ < 3)%Z |- _ => apply three_cases in H; destruct H as [->|[->| ->]]
  end.

Lemma demo_distinct : names_distinct 3 demo_names.
Proof.
  intros i j i' j' Hi Hj Hi' Hj'. three; intros E; vm_compute in E; (discriminate E || by split).
Qed.

Lemma demo_full : full demo_cfg (nm demo_names) ∧ distinct (nm demo_names) demo_cfg.
Proof.
  split; [split; [vm_compute; reflexivity|]|exact demo_distinct].
  intros i j Hi Hj. change (n demo_cfg) with 3%Z in *. three; vm_compute; reflexivity.
Qed.

Lemma random_handles_permutation_witness :
  ∃ sa, random_handles [10; 11; 12] (λ i, 0%Z) = Ok sa ∧ sa ≡ₚ [10; 11; 12].
Proof. apply (random_handles_permutation [10; 11; 12] (λ i, 0%Z)). intros i [? _]. lia. Defined.

Lemma make_partition_odd_witness :
  ∃ b l p1 p2, Leader (λ i, bool_decide (i = 2%Z)) (demo_size 5) = Ok (b, l) ∧
    make_partition (λ i, bool_decide (i = 2%Z)) (demo_size 5) = Ok (p1, p2) ∧
    p1 ++ p2 ≡ₚ range 5 ∧ len p1 = (len p2 + 1)%Z ∧ l ∈ p2.
Proof. apply (make_partition_odd (λ i, bool_decide (i = 2%Z)) (demo_size 5)); done. Defined.

Lemma make_partition_even_witness :
  ∃ p1 p2, make_partition (λ i, bool_decide (i = 2%Z)) (demo_size 4) = Ok (p1, p2) ∧
    p1 ++ p2 ≡ₚ 0%Z :: range 4.
Proof. apply (make_partition_even (λ i, bool_decide (i = 2%Z)) (demo_size 4)); done. Defined.

Lemma make_partition_single_witness :
  make_partition (λ i, true) (demo_size 1) = Crash IndexOutOfRange.
Proof. apply (make_partition_single (λ i, true) (demo_size 1)); done. Defined.

Lemma partition_spec_witness :
  ∃ cfg', partition demo_cfg [0; 2]%Z [1]%Z = Ok cfg' ∧
    (∀ i j, i ∈ [0; 2; 1]%Z → j ∈ [0; 2; 1]%Z →
       is_enabled (net cfg') (IStr (nm demo_names i j)) = bool_decide (i ∈ [0; 2]%Z ↔ j ∈ [0; 2]%Z)) ∧
    (∀ e : string, (∀ i j, i ∈ [0; 2; 1]%Z → j ∈ [0; 2; 1]%Z → e ≠ nm demo_names i j) →
       is_enabled (net cfg') (IStr e) = is_enabled (net demo_cfg) (IStr e)).
Proof.
  apply (partition_spec demo_cfg (nm demo_names) [0; 2]%Z [1]%Z).
  - exact (proj1 demo_full).
  - exact (proj2 demo_full).
  - intros i Hi. change (n demo_cfg) with 3%Z. set_solver by lia.
  - intros i Hi. change (n demo_cfg) with 3%Z. set_solver by lia.
  - apply (bool_decide_unpack _). vm_compute. exact I.
Defined.

Lemma make_config_connected_witness :
  ∃ cfg, make_config (demo_svc "ShardCtrler") (demo_svc "Raft") 3 false demo_names = Ok cfg ∧
    ∀ i j, (0 ≤ i < 3)%Z → (0 ≤ j < 3)%Z →
      ∃ a, find_target (readEndnameInfo (net cfg) (IStr (nm demo_names i j)))
           = Some (mkTarget (IInt j) a true false) ∧
           srv_heap cfg !! a = Some (new_server (demo_svc "ShardCtrler") (demo_svc "Raft")).
Proof.
  apply (make_config_connected (demo_svc "ShardCtrler") (demo_svc "Raft") 3 demo_names).
  - intros i Hi. reflexivity.
  - exact demo_distinct.
  - lia.
Defined.

Lemma ShutdownServer_isolates_witness :
  ∃ cfg', ShutdownServer demo_cfg 1 = Ok cfg' ∧ server_of (net cfg') (IInt 1) = None ∧
    saved cfg' = saved demo_cfg ∧
    (∀ j, (0 ≤ j < 3)%Z →
       find_target (readEndnameInfo (net cfg') (IStr (nm demo_names 1 j))) = None ∧
       find_target (readEndnameInfo (net cfg') (IStr (nm demo_names j 1))) = None) ∧
    (∀ j k, (0 ≤ j < 3)%Z → (0 ≤ k < 3)%Z → j ≠ 1%Z → k ≠ 1%Z →
       is_enabled (net cfg') (IStr (nm demo_names j k))
       = is_enabled (net demo_cfg) (IStr (nm demo_names j k))).
Proof.
  apply (ShutdownServer_isolates demo_cfg (nm demo_names) 1).
  - exact (proj1 demo_full).
  - exact (proj2 demo_full).
  - vm_compute. reflexivity.
  - vm_compute. reflexivity.
  - change (n demo_cfg) with 3%Z. lia.
Defined.

(** [disconnectUnlocked] looks at the row of [j], the position in [from], where it
means the row of server [from[j]]: a server whose ends do not exist yet makes it
fail, although it is meant to be skipped. *)
Theorem disconnect_wrong_row :
  disconnectUnlocked (mkCfg MakeNetwork 2 [] [] [Some ["a"; "b"]; None] ∅ 0 ∅) 0 [1]%Z
  = Crash IndexOutOfRange.
Proof. vm_compute. reflexivity. Qed.

End CtrlHarness.
