(* ===== verification/RaftHarness.v ===== *)
(** * Raft's test bed ([src/raft/config.go])

[config] is the record of the same name.  A persister is the pair of byte
strings it holds (file [Persister] shows that it behaves so); a Raft peer is
present or not, and what it answers ([GetState], [Start]) and what it delivers
are arguments, as are the random names of client ends.  Commands are values of a
type [C] with a decidable equality, which has the value [nil].  The goroutines
that read the apply channels take the lock for each message: one message is one
step ([applier], [applierSnap]); the encoding of a snapshot is a parameter. *)

From S2P Require Import Prelude Labrpc RaftPeer HarnessNet.
From stdpp Require Import options.

Module RaftHarness.
Import Labrpc HarnessNet.

Abbreviation bytes := (list Byte.byte).

(** An error message that is not empty. *)
Inductive apply_error :=
| CommitMismatch (idx i j : Z)
| ApplyOutOfOrder (i idx : Z)
| SnapshotMismatch (i : Z).

Record config (C : Type) := mkCfg {
  finished : Z;
  net : Network;
  n : Z;
  rafts : list bool;                       (* rafts[i] != nil *)
  applyErr : list (option apply_error);
  connected : list bool;
  saved : list (option (bytes * bytes));
  endnames : list (option (list string));
  logs : list (gmap Z C);
  lastApplied : list Z;
  rpcs0 : Z; cmds0 : Z; bytes0 : Z; maxIndex : Z; maxIndex0 : Z }.
Arguments mkCfg {C} _ _ _ _ _ _ _ _ _ _ _ _ _ _ _.
Arguments finished {C} _.
Arguments net {C} _.
Arguments n {C} _.
Arguments rafts {C} _.
Arguments applyErr {C} _.
Arguments connected {C} _.
Arguments saved {C} _.
Arguments endnames {C} _.
Arguments logs {C} _.
Arguments lastApplied {C} _.
Arguments rpcs0 {C} _.
Arguments cmds0 {C} _.
Arguments bytes0 {C} _.
Arguments maxIndex {C} _.
Arguments maxIndex0 {C} _.

Section harness.
Context {C : Type} `{EqDecision C} (nil : C).
Implicit Types (cfg : config C) (m : RaftPeer.ApplyMsg C).

Definition set_net cfg (rn : Network) : config C :=
  mkCfg (finished cfg) rn (n cfg) (rafts cfg) (applyErr cfg) (connected cfg) (saved cfg)
    (endnames cfg) (logs cfg) (lastApplied cfg) (rpcs0 cfg) (cmds0 cfg) (bytes0 cfg)
    (maxIndex cfg) (maxIndex0 cfg).
Definition set_connected cfg (l : list bool) : config C :=
  mkCfg (finished cfg) (net cfg) (n cfg) (rafts cfg) (applyErr cfg) l (saved cfg)
    (endnames cfg) (logs cfg) (lastApplied cfg) (rpcs0 cfg) (cmds0 cfg) (bytes0 cfg)
    (maxIndex cfg) (maxIndex0 cfg).
Definition set_rafts cfg (l : list bool) : config C :=
  mkCfg (finished cfg) (net cfg) (n cfg) l (applyErr cfg) (connected cfg) (saved cfg)
    (endnames cfg) (logs cfg) (lastApplied cfg) (rpcs0 cfg) (cmds0 cfg) (bytes0 cfg)
    (maxIndex cfg) (maxIndex0 cfg).
Definition set_saved cfg (l : list (option (bytes * bytes))) : config C :=
  mkCfg (finished cfg) (net cfg) (n cfg) (rafts cfg) (applyErr cfg) (connected cfg) l
    (endnames cfg) (logs cfg) (lastApplied cfg) (rpcs0 cfg) (cmds0 cfg) (bytes0 cfg)
    (maxIndex cfg) (maxIndex0 cfg).
Definition set_endnames cfg (l : list (option (list string))) : config C :=
  mkCfg (finished cfg) (net cfg) (n cfg) (rafts cfg) (applyErr cfg) (connected cfg) (saved cfg)
    l (logs cfg) (lastApplied cfg) (rpcs0 cfg) (cmds0 cfg) (bytes0 cfg) (maxIndex cfg) (maxIndex0 cfg).
Definition set_logs cfg (l : list (gmap Z C)) (mi : Z) : config C :=
  mkCfg (finished cfg) (net cfg) (n cfg) (rafts cfg) (applyErr cfg) (connected cfg) (saved cfg)
    (endnames cfg) l (lastApplied cfg) (rpcs0 cfg) (cmds0 cfg) (bytes0 cfg) mi (maxIndex0 cfg).
Definition set_lastApplied cfg (l : list Z) : config C :=
  mkCfg (finished cfg) (net cfg) (n cfg) (rafts cfg) (applyErr cfg) (connected cfg) (saved cfg)
    (endnames cfg) (logs cfg) l (rpcs0 cfg) (cmds0 cfg) (bytes0 cfg) (maxIndex cfg) (maxIndex0 cfg).

(** ** The net *)

Definition connect cfg (i : Z) : outcome (config C) :=
  let* con := set_index (connected cfg) i true in
  let* rn := for_each (λ rn j,
      let* c := index con j in
      if c : bool then let* e := endname_at (endnames cfg) i j in Ok (Enable rn (IStr e) true)
      else Ok rn) (range (n cfg)) (net cfg) in
  let* rn := for_each (λ rn j,
      let* c := index con j in
      if c : bool then let* e := endname_at (endnames cfg) j i in Ok (Enable rn (IStr e) true)
      else Ok rn) (range (n cfg)) rn in
  Ok (set_net (set_connected cfg con) rn).

Definition disconnect cfg (i : Z) : outcome (config C) :=
  let* con := set_index (connected cfg) i false in
  let* rn := for_each (λ rn j,
      let* row := index (endnames cfg) i in
      match row with
      | None => Ok rn
      | Some _ => let* e := endname_at (endnames cfg) i j in Ok (Enable rn (IStr e) false)
      end) (range (n cfg)) (net cfg) in
  let* rn := for_each (λ rn j,
      let* row := index (endnames cfg) j in
      match row with
      | None => Ok rn
      | Some _ => let* e := endname_at (endnames cfg) j i in Ok (Enable rn (IStr e) false)
      end) (range (n cfg)) rn in
  Ok (set_net (set_connected cfg con) rn).

Definition rpcCount cfg (heap : gmap nat Server) (server : Z) : outcome Z :=
  GetCount (net cfg) heap (IInt server).
Definition rpcTotal cfg : Z := GetTotalCount (net cfg).
Definition bytesTotal cfg : Z := GetTotalBytes (net cfg).
Definition setunreliable cfg (unrel : bool) : config C := set_net cfg (Reliable (net cfg) (negb unrel)).
Definition setlongreordering cfg (longrel : bool) : config C :=
  set_net cfg (LongReordering (net cfg) longrel).

(** ** What the servers commit *)

Definition checkLogs cfg (i : Z) m : outcome (config C * option apply_error * bool) :=
  let v := RaftPeer.Command m in
  let idx := RaftPeer.CommandIndex m in
  let* err := for_each (λ err j,
      let* lj := index (logs cfg) j in
      Ok (match lj !! idx with
          | Some old => if decide (old = v) then err else Some (CommitMismatch idx i j)
          | None => err
          end)) (range (len (logs cfg))) None in
  let* li := index (logs cfg) i in
  let prevok := bool_decide (is_Some (li !! (idx - 1)%Z)) in
  let* ls := set_index (logs cfg) i (<[idx := v]> li) in
  let mi := if decide (maxIndex cfg < idx)%Z then idx else maxIndex cfg in
  Ok (set_logs cfg ls mi, err, prevok).

(** One message read by [applier]; an error ends the process. *)
Definition applier cfg (i : Z) m : outcome (config C) :=
  if RaftPeer.CommandValid m then
    let idx := RaftPeer.CommandIndex m in
    let* (cfg, err, prevok) := checkLogs cfg i m in
    let err := if bool_decide (1 < idx)%Z && negb prevok then Some (ApplyOutOfOrder i idx) else err in
    match err with
    | Some _ => Crash (FatalExit "apply error")
    | None => Ok cfg
    end
  else Ok cfg.

(** [decode] is the decoder: the last index and the entries of a snapshot. *)
Definition ingestSnap (decode : bytes → option (Z * list C)) cfg (i : Z) (snapshot : option bytes)
    (idx : Z) : outcome (config C * option apply_error) :=
  match snapshot with
  | None => Crash (FatalExit "nil snapshot")
  | Some snapshot =>
      match decode snapshot with
      | None => Crash (FatalExit "snapshot decode error")
      | Some (lastIncludedIndex, xlog) =>
          if decide (idx ≠ -1 ∧ idx ≠ lastIncludedIndex)%Z then Ok (cfg, Some (SnapshotMismatch i))
          else
            let* log := for_each (λ log j,
                let* x := index xlog j in Ok (<[j := x]> log)) (range (len xlog)) ∅ in
            let* ls := set_index (logs cfg) i log in
            let* la := set_index (lastApplied cfg) i lastIncludedIndex in
            Ok (set_lastApplied (set_logs cfg ls (maxIndex cfg)) la, None)
      end
  end.

Definition SnapShotInterval : Z := 10.

(** The entries up to [idx] of a log; a missing entry of a map reads as nil. *)
Definition snapshot_log (log : gmap Z C) (idx : Z) : list C :=
  (λ j, default nil (log !! j)) <$> range (idx + 1).

(** One message read by [applierSnap]: the new state, and the arguments of the
call of [rf.Snapshot], if there is one.  [encode] is the encoder.  The code takes the
lock for [ingestSnap], for [checkLogs] and to write [lastApplied[i]], and reads
[lastApplied[i]] and [logs[i]] without it; these entries are written by the applier of
server [i] alone, and by [start1] when the server is started again.  Here the message is
one step: an applier of a server's last life that is half way when [start1] runs is not
modelled.  A nil snapshot is an empty one here; the process ends on both. *)
Definition applierSnap (decode : bytes → option (Z * list C)) (encode : Z * list C → bytes)
    cfg (i : Z) m : outcome (config C * option (Z * bytes)) :=
  let fatal (err : option apply_error) (r : config C * option (Z * bytes)) :=
    match err with Some _ => Crash (FatalExit "apply error") | None => Ok r end in
  if RaftPeer.SnapshotValid m then
    let* (cfg, err) := ingestSnap decode cfg i (Some (RaftPeer.Snapshot m)) (RaftPeer.SnapshotIndex m) in
    fatal err (cfg, None)
  else if RaftPeer.CommandValid m then
    let idx := RaftPeer.CommandIndex m in
    let* la := index (lastApplied cfg) i in
    let* (cfg, err) :=
      if decide (idx ≠ la + 1)%Z then Ok (cfg, Some (ApplyOutOfOrder i idx))
      else
        let* (cfg, err, prevok) := checkLogs cfg i m in
        Ok (cfg, if bool_decide (1 < idx)%Z && negb prevok then Some (ApplyOutOfOrder i idx) else err) in
    let* las := set_index (lastApplied cfg) i idx in
    let cfg := set_lastApplied cfg las in
    let* snap :=
      if decide (Z.rem (idx + 1) SnapShotInterval = 0)%Z then
        let* li := index (logs cfg) i in
        Ok (Some (idx, encode (idx, snapshot_log li idx)))
      else Ok None in
    fatal err (cfg, snap)
  else Ok (cfg, None).

(** ** Servers *)

(** A persister that is copied, or read and saved again, holds the same bytes. *)
Definition crash1 cfg (i : Z) : outcome (config C) :=
  let* cfg := disconnect cfg i in
  let cfg := set_net cfg (DeleteServer (net cfg) (IInt i)) in
  let* p := index (saved cfg) i in
  let* up := index (rafts cfg) i in
  let* rs := if up : bool then set_index (rafts cfg) i false else Ok (rafts cfg) in
  let* sv := set_index (saved cfg) i p in
  Ok (set_saved (set_rafts cfg rs) sv).

(** [names] are the random names, [a] the address of the new server object, which
registers the service of the peer. *)
Definition start1 (decode : bytes → option (Z * list C)) cfg (i : Z) (names : list string) (a : nat)
    : outcome (config C) :=
  let* cfg := crash1 cfg i in
  let* ens := set_index (endnames cfg) i (Some names) in
  let cfg := set_endnames cfg ens in
  let* rn := make_ends (net cfg) names (n cfg) in
  let cfg := set_net cfg rn in
  let* las := set_index (lastApplied cfg) i 0%Z in
  let cfg := set_lastApplied cfg las in
  let* p := index (saved cfg) i in
  let* cfg :=
    match p with
    | Some (rs, sn) =>
        if decide (0 < len sn)%Z then
          let* (cfg, err) := ingestSnap decode cfg i (Some sn) (-1) in
          match err with Some _ => Crash (FatalExit "ingestSnap") | None => Ok cfg end
        else Ok cfg
    | None =>
        let* sv := set_index (saved cfg) i (Some ([], [])) in Ok (set_saved cfg sv)
    end in
  let* rs := set_index (rafts cfg) i true in
  Ok (set_net (set_rafts cfg rs) (AddServer (net cfg) (IInt i) a)).

Definition make_config (decode : bytes → option (Z * list C)) (n : Z) (unreliable : bool)
    (names : Z → list string) (addr : Z → nat) : outcome (config C) :=
  let* errs := make_slice n None in
  let* rs := make_slice n false in
  let* con := make_slice n false in
  let* sv := make_slice n None in
  let* ens := make_slice n None in
  let* ls := make_slice n ∅ in
  let* la := make_slice n 0%Z in
  let cfg := mkCfg 0 MakeNetwork n rs errs con sv ens ls la 0 0 0 0 0 in
  let cfg := setunreliable cfg unreliable in
  let cfg := set_net cfg (LongDelays (net cfg) true) in
  let* cfg := for_each (λ cfg i,
      let* ls := set_index (logs cfg) i ∅ in
      start1 decode (set_logs cfg ls (maxIndex cfg)) i (names i) (addr i)) (range n) cfg in
  for_each (λ cfg i, connect cfg i) (range n) cfg.

(** ** Checks on the servers

[st i] is what [GetState] of server [i] returns: its term, and whether it
believes to be the leader.  A peer that is nil is dereferenced. *)

Definition get_state cfg (st : Z → Z * bool) (i : Z) : outcome (Z * bool) :=
  let* up := index (rafts cfg) i in
  if up : bool then Ok (st i) else Crash NilDereference.

(** The leaders among the connected servers, by term. *)
Definition leaders_by_term cfg (st : Z → Z * bool) : outcome (gmap Z (list Z)) :=
  for_each (λ leaders i,
    let* c := index (connected cfg) i in
    if c : bool then
      let* (term, leader) := get_state cfg st i in
      Ok (if leader : bool then <[term := default [] (leaders !! term) ++ [i]]> leaders else leaders)
    else Ok leaders) (range (n cfg)) ∅.

(** The loop over the map, in the order [l] of the iteration. *)
Definition last_term_with_leader (l : list (Z * list Z)) : outcome Z :=
  for_each (λ last e,
    if decide (1 < len e.2)%Z then Crash (FatalExit "term has (>1) leaders")
    else Ok (if decide (last < e.1)%Z then e.1 else last)) l (-1)%Z.

(** [states k] is what the servers return in the [k]-th iteration, [order] the
order in which a map is iterated over. *)
Fixpoint one_leader_from (order : gmap Z (list Z) → list (Z * list Z)) cfg
    (states : nat → Z → Z * bool) (iters k : nat) : outcome Z :=
  match iters with
  | O => Crash (FatalExit "expected one leader, got none")
  | S iters =>
      let* leaders := leaders_by_term cfg (states k) in
      let* last := last_term_with_leader (order leaders) in
      if decide (leaders = ∅) then one_leader_from order cfg states iters (S k)
      else index (default [] (leaders !! last)) 0
  end.
Definition checkOneLeader order cfg states : outcome Z := one_leader_from order cfg states 10 0.

Definition checkTerms cfg (st : Z → Z * bool) : outcome Z :=
  for_each (λ term i,
    let* c := index (connected cfg) i in
    if c : bool then
      let* (xterm, _) := get_state cfg st i in
      if decide (term = -1)%Z then Ok xterm
      else if decide (term ≠ xterm) then Crash (FatalExit "servers disagree on term")
      else Ok term
    else Ok term) (range (n cfg)) (-1)%Z.

Definition checkNoLeader cfg (st : Z → Z * bool) : outcome () :=
  for_each (λ _ i,
    let* c := index (connected cfg) i in
    if c : bool then
      let* (_, is_leader) := get_state cfg st i in
      if is_leader : bool then Crash (FatalExit "expected no leader among connected servers")
      else Ok ()
    else Ok ()) (range (n cfg)) ().

(** How many servers have committed the entry, and the entry.  The servers are looked at
one after the other, and the appliers go on in between: [v i] is the state in which
server [i] is found.  (The number of servers never changes.) *)
Definition nCommitted cfg (v : Z → config C) (idx : Z) : outcome (Z * C) :=
  for_each (λ '(count, cmd) i,
    let* err := index (applyErr (v i)) i in
    match err with
    | Some _ => Crash (FatalExit "applyErr")
    | None =>
        let* li := index (logs (v i)) i in
        match li !! idx with
        | Some cmd1 =>
            if decide (0 < count ∧ cmd ≠ cmd1)%Z then Crash (FatalExit "committed values do not match")
            else Ok ((count + 1)%Z, cmd1)
        | None => Ok (count, cmd)
        end
    end) (range (len (rafts cfg))) (0%Z, nil).

(** [wait]: [views k] is what is found of the servers and [terms k] what they return in the
[k]-th iteration, and they are looked at once more at the end; [None] is the result -1. *)
Fixpoint wait_loop cfg (views : nat → Z → config C) (terms : nat → Z → Z * bool) (idx want startTerm : Z)
    (iters k : nat) : outcome (bool * nat) :=
  match iters with
  | O => Ok (true, k)
  | S iters =>
      let* (nd, _) := nCommitted cfg (views k) idx in
      if decide (want ≤ nd)%Z then Ok (true, S k)
      else if decide (-1 < startTerm)%Z then
        let* moved := for_each (λ moved i,
            if moved : bool then Ok true
            else let* (t, _) := get_state (views k i) (terms k) i in
                 Ok (bool_decide (startTerm < t)%Z)) (range (len (rafts cfg))) false in
        if moved : bool then Ok (false, k)
        else wait_loop cfg views terms idx want startTerm iters (S k)
      else wait_loop cfg views terms idx want startTerm iters (S k)
  end.

Definition wait cfg (views : nat → Z → config C) (terms : nat → Z → Z * bool) (idx want startTerm : Z)
    : outcome (option C) :=
  let* (go, k) := wait_loop cfg views terms idx want startTerm 30 0 in
  if go : bool then
    let* (nd, cmd) := nCommitted cfg (views k) idx in
    if decide (nd < want)%Z then Crash (FatalExit "not enough decided") else Ok (Some cmd)
  else Ok None.

(** [one]: a round is the states in which the servers are tried, the answers of [Start]
(the index, from a leader), and what is found while waiting; the rounds are those of
ten seconds, and [cfg] is the state when they are over. *)
Record round := mkRound {
  tried : Z → config C; start_ok : Z → option Z; views : list (Z → config C) }.

(** Try all servers, from the one after [starts]. *)
Fixpoint try_starts cfg (r : round) (si : nat) (starts : Z) : outcome (Z * option Z) :=
  match si with
  | O => Ok (starts, None)
  | S si =>
      let starts := Z.rem (starts + 1) (n cfg) in
      let* c := index (connected (tried r starts)) starts in
      let* up := index (rafts (tried r starts)) starts in
      match (if c && up then start_ok r starts else None) with
      | Some idx => Ok (starts, Some idx)
      | None => try_starts cfg r si starts
      end
  end.

(** Look at the servers until enough of them have committed the command. *)
Fixpoint agreed cfg (vs : list (Z → config C)) (cmd : C) (expectedServers idx : Z) : outcome bool :=
  match vs with
  | [] => Ok false
  | v :: vs =>
      let* (nd, cmd1) := nCommitted cfg v idx in
      if decide (0 < nd ∧ expectedServers ≤ nd ∧ cmd1 = cmd)%Z then Ok true
      else agreed cfg vs cmd expectedServers idx
  end.

Fixpoint one_rounds cfg (rounds : list round) (starts : Z) (cmd : C) (expectedServers : Z)
    (retry : bool) : outcome Z :=
  match rounds with
  | [] => if decide (finished cfg = 0)%Z then Crash (FatalExit "failed to reach agreement") else Ok (-1)%Z
  | r :: rounds =>
      let* (starts, idx) := try_starts cfg r (Z.to_nat (n cfg)) starts in
      match idx with
      | Some idx =>
          if decide (idx = -1)%Z then one_rounds cfg rounds starts cmd expectedServers retry
          else
            let* ok := agreed cfg (views r) cmd expectedServers idx in
            if ok : bool then Ok idx
            else if retry then one_rounds cfg rounds starts cmd expectedServers retry
            else Crash (FatalExit "failed to reach agreement")
      | None => one_rounds cfg rounds starts cmd expectedServers retry
      end
  end.
Definition one cfg rounds cmd expectedServers retry : outcome Z :=
  one_rounds cfg rounds 0 cmd expectedServers retry.

(** Statistics: [begin] remembers the counters, [end] subtracts. *)
Definition begin cfg : config C :=
  mkCfg (finished cfg) (net cfg) (n cfg) (rafts cfg) (applyErr cfg) (connected cfg) (saved cfg)
    (endnames cfg) (logs cfg) (lastApplied cfg) (rpcTotal cfg) 0 (bytesTotal cfg)
    (maxIndex cfg) (maxIndex cfg).
Definition end_ cfg (failed : bool) (elapsed : Z) : outcome (option (Z * Z * Z * Z)) :=
  let* _ := checkTimeout failed elapsed in
  Ok (if failed then None
      else Some (n cfg, rpcTotal cfg - rpcs0 cfg, int64 (bytesTotal cfg - bytes0 cfg),
                 maxIndex cfg - maxIndex0 cfg)%Z).

(** [cleanup] kills the peers, which are not part of the state. *)
Definition checkFinished cfg : bool := bool_decide (finished cfg ≠ 0)%Z.
Definition cleanup cfg (failed : bool) (elapsed : Z) : outcome (config C) :=
  let* rn := Cleanup (net cfg) in
  let* _ := checkTimeout failed elapsed in
  Ok (mkCfg 1 rn (n cfg) (rafts cfg) (applyErr cfg) (connected cfg) (saved cfg)
        (endnames cfg) (logs cfg) (lastApplied cfg) (rpcs0 cfg) (cmds0 cfg) (bytes0 cfg)
        (maxIndex cfg) (maxIndex0 cfg)).

Definition LogSize cfg : outcome Z :=
  for_each (λ logsize i,
    let* p := index (saved cfg) i in
    match p with
    | None => Crash NilDereference
    | Some p => Ok (if decide (logsize < len p.1)%Z then len p.1 else logsize)
    end) (range (n cfg)) 0%Z.

(** ** The appliers check agreement *)

(** No two servers have committed different commands at an index. *)
Definition agree (ls : list (gmap Z C)) : Prop :=
  ∀ i j li lj k v w, ls !! i = Some li → ls !! j = Some lj → li !! k = Some v → lj !! k = Some w → v = w.

(** No server has committed an index without the one before. *)
Definition no_gaps (ls : list (gmap Z C)) : Prop :=
  ∀ i li k, ls !! i = Some li → (1 < k)%Z → is_Some (li !! k) → is_Some (li !! (k - 1)%Z).

(** Nobody has committed something else at the index. *)
Definition consistent (ls : list (gmap Z C)) (idx : Z) (v : C) : Prop :=
  ∀ j lj w, ls !! j = Some lj → lj !! idx = Some w → w = v.

Lemma checkLogs_spec cfg i m li :
  index (logs cfg) i = Ok li →
  ∃ cfg' err, checkLogs cfg i m = Ok (cfg', err,
      bool_decide (is_Some (li !! (RaftPeer.CommandIndex m - 1)%Z))) ∧
    (err = None ↔ consistent (logs cfg) (RaftPeer.CommandIndex m) (RaftPeer.Command m)) ∧
    logs cfg' = <[Z.to_nat i := <[RaftPeer.CommandIndex m := RaftPeer.Command m]> li]> (logs cfg).
Proof.
  intros Hi. unfold checkLogs.
  match goal with |- context [for_each ?f ?l ?z] =>
    destruct (for_each_total f (λ dn err, err = None ↔ ∀ j lj w, j ∈ dn → logs cfg !! Z.to_nat j = Some lj →
        lj !! RaftPeer.CommandIndex m = Some w → w = RaftPeer.Command m) l z) as (err & E & Herr)
  end.
  - split; [|done]. by intros _ ??? ?%not_elem_of_nil.
  - intros dn j err Herr Hj%elem_of_range. destruct (index_in_range (logs cfg) j Hj) as [lj Hlj].
    rewrite Hlj. cbn [bind]. eexists. split; [done|]. apply index_Ok in Hlj as [_ Hlj].
    setoid_rewrite elem_of_app. setoid_rewrite list_elem_of_singleton.
    destruct (lj !! RaftPeer.CommandIndex m) as [old|] eqn:Hold; [case_decide as Hd|].
    + rewrite Herr. split; intros H j' l' w; [|by eauto].
      intros [Hj'| ->] H1 H2; [by apply (H j' l' w)|congruence].
    + split; [done|]. intros H. exfalso. apply Hd. apply (H j lj old); [by right|done|done].
    + rewrite Herr. split; intros H j' l' w; [|by eauto].
      intros [Hj'| ->] H1 H2; [by apply (H j' l' w)|congruence].
  - rewrite E. cbn [bind]. rewrite Hi. cbn [bind].
    rewrite set_index_in_range by (by eapply index_ok_bounds). cbn [bind].
    eexists _, err. split; [done|]. split; [|done]. rewrite Herr. unfold consistent. split.
    + intros H j lj w Hj. apply (H (Z.of_nat j)); [|by rewrite Nat2Z.id].
      apply elem_of_range. apply lookup_lt_Some in Hj. unfold len. lia.
    + intros H j lj w _. apply H.
Qed.

(** The test on the order of the message, as a boolean of the code. *)
Lemma order_test (li : gmap Z C) idx :
  bool_decide (1 < idx)%Z && negb (bool_decide (is_Some (li !! (idx - 1)%Z))) = false ↔
  ((1 < idx)%Z → is_Some (li !! (idx - 1)%Z)).
Proof.
  rewrite andb_false_iff, negb_false_iff, bool_decide_eq_false, bool_decide_eq_true.
  destruct (decide (1 < idx)%Z); tauto.
Qed.

(** A message that was accepted. *)
Lemma applier_Ok cfg i m cfg' :
  applier cfg i m = Ok cfg' → RaftPeer.CommandValid m = true →
  let idx := RaftPeer.CommandIndex m in
  ∃ li, logs cfg !! Z.to_nat i = Some li ∧ consistent (logs cfg) idx (RaftPeer.Command m) ∧
    ((1 < idx)%Z → is_Some (li !! (idx - 1)%Z)) ∧
    logs cfg' = <[Z.to_nat i := <[idx := RaftPeer.Command m]> li]> (logs cfg).
Proof.
  intros Hs Hv idx. unfold applier in Hs. rewrite Hv in Hs.
  destruct (index (logs cfg) i) as [li|f] eqn:Hi.
  2: { unfold checkLogs in Hs. rewrite Hi in Hs. destruct (for_each _ _ _); simpl in Hs; done. }
  destruct (checkLogs_spec cfg i m li Hi) as (c & err & E & Herr & Hlogs). rewrite E in Hs.
  cbn [bind] in Hs. fold idx in Hs, Herr, Hlogs. exists li.
  destruct (bool_decide (1 < idx)%Z && _) eqn:Ho; [done|]. rewrite order_test in Ho.
  destruct err; [done|]. simplify_eq. apply index_Ok in Hi as [_ Hi].
  split_and!; [done|by apply Herr|done|done].
Qed.

Lemma agree_insert ls i li idx v :
  ls !! i = Some li → agree ls → consistent ls idx v → agree (<[i := <[idx := v]> li]> ls).
Proof.
  intros Hi Hag Hc.
  assert (∀ j lj k w, <[i := <[idx := v]> li]> ls !! j = Some lj → lj !! k = Some w →
    k = idx ∧ w = v ∨ ∃ l, ls !! j = Some l ∧ l !! k = Some w) as Hval.
  { intros j lj k w Hj Hk. apply list_lookup_insert_Some in Hj as [(-> & <- & _)|[_ Hj]]; [|by eauto].
    apply lookup_insert_Some in Hk as [[-> ->]|[_ Hk]]; eauto. }
  intros j1 j2 l1 l2 k w1 w2 H1 H2 K1 K2.
  destruct (Hval _ _ _ _ H1 K1) as [[-> ->]|(m1 & M1 & N1)],
           (Hval _ _ _ _ H2 K2) as [[E ->]|(m2 & M2 & N2)]; subst; try done.
  - symmetry. by eapply Hc.
  - by eapply Hc.
  - by eapply (Hag j1 j2 m1 m2).
Qed.

Lemma no_gaps_insert ls i li idx v :
  ls !! i = Some li → no_gaps ls → ((1 < idx)%Z → is_Some (li !! (idx - 1)%Z)) →
  no_gaps (<[i := <[idx := v]> li]> ls).
Proof.
  intros Hi Hng Hp j lj k Hj Hk Hs.
  apply list_lookup_insert_Some in Hj as [(-> & <- & _)|[_ Hj]]; [|by eapply Hng].
  rewrite lookup_insert_is_Some' in *. right.
  destruct Hs as [<-|Hs]; [by apply Hp|by eapply Hng].
Qed.

(** The messages of all servers, in the order in which they take the lock. *)
Definition apply_all cfg (ms : list (Z * RaftPeer.ApplyMsg C)) : outcome (config C) :=
  for_each (λ cfg im, applier cfg im.1 im.2) ms cfg.

(** The appliers are a sound check of agreement: if they have read any number
of messages of any servers without ending the process, then no two servers have
committed different commands at the same index, and no server has committed an
index above 1 without the one before it. *)
Theorem applier_sound cfg ms cfg' :
  agree (logs cfg) → no_gaps (logs cfg) → apply_all cfg ms = Ok cfg' →
  agree (logs cfg') ∧ no_gaps (logs cfg').
Proof.
  intros Ha Hg. apply (for_each_inv _ (λ _ c, agree (logs c) ∧ no_gaps (logs c))); [done|].
  intros dn [i m] c c' [Hac Hgc] _ Hs. cbn [fst snd] in Hs.
  destruct (RaftPeer.CommandValid m) eqn:Hv; [|unfold applier in Hs; rewrite Hv in Hs; by simplify_eq].
  destruct (applier_Ok c i m c' Hs Hv) as (li & Hi & Hc & Ho & ->).
  split; [by apply agree_insert|by apply no_gaps_insert].
Qed.

(** The appliers miss nothing: a message whose command differs from one that
some server has committed at its index, or whose index is above 1 and does not
follow one the server has committed, ends the process; any other message is
recorded. *)
Theorem applier_complete cfg i m li :
  index (logs cfg) i = Ok li → RaftPeer.CommandValid m = true →
  let idx := RaftPeer.CommandIndex m in
  let ok := consistent (logs cfg) idx (RaftPeer.Command m) ∧
            ((1 < idx)%Z → is_Some (li !! (idx - 1)%Z)) in
  (ok → ∃ cfg', applier cfg i m = Ok cfg' ∧
          logs cfg' = <[Z.to_nat i := <[idx := RaftPeer.Command m]> li]> (logs cfg)) ∧
  (¬ ok → applier cfg i m = Crash (FatalExit "apply error")).
Proof.
  intros Hi Hv idx ok. unfold applier. rewrite Hv.
  destruct (checkLogs_spec cfg i m li Hi) as (cfg' & err & -> & Herr & Hlogs). cbn [bind]. fold idx.
  fold idx in Herr, Hlogs. unfold ok. rewrite <-Herr, <-(order_test li idx). split.
  - intros [-> ->]. by exists cfg'.
  - intros Hno. destruct (bool_decide (1 < idx)%Z && _); [done|]. destruct err; [done|]. tauto.
Qed.

(** ** Counting commits *)

Definition committed cfg (idx i : Z) : option C := logs cfg !! Z.to_nat i ≫= (.!! idx).

(** All servers that are found to have committed the index have committed the same command. *)
Lemma nCommitted_spec cfg v idx count cmd :
  nCommitted cfg v idx = Ok (count, cmd) →
  omap (λ i, committed (v i) idx i) (range (len (rafts cfg))) = replicate (Z.to_nat count) cmd ∧ (0 ≤ count)%Z.
Proof.
  intros Hrun.
  apply (for_each_inv _ (λ dn st, omap (λ i, committed (v i) idx i) dn = replicate (Z.to_nat st.1) st.2 ∧
    (0 ≤ st.1)%Z) _ _ _) in Hrun; [done|done|].
  clear count cmd Hrun. intros dn i [count cmd] st' [Hr Hc] _ Hs. cbn [fst snd] in *.
  destruct (index (applyErr (v i)) i) as [[e|]|]; cbn [bind] in Hs; [done| |done].
  destruct (index (logs (v i)) i) as [li|] eqn:Hi; cbn [bind] in Hs; [|done].
  apply index_Ok in Hi as [_ Hi]. rewrite omap_app. cbn [omap list_omap].
  unfold committed at 2. rewrite Hi. cbn [mbind option_bind].
  destruct (li !! idx) as [cmd1|]; [|simplify_eq; by rewrite app_nil_r].
  case_decide as Hd; [done|]. simplify_eq. cbn [fst snd].
  rewrite Z2Nat.inj_add by lia. split; [|lia].
  rewrite replicate_add, Hr. destruct (decide (count = 0)%Z) as [->|Hne]; [done|].
  assert (cmd = cmd1) as -> by (apply dec_stable; intros ?; apply Hd; split; [lia|done]). done.
Qed.

Lemma try_starts_Some cfg r si starts st idx :
  try_starts cfg r si starts = Ok (st, Some idx) →
  ∃ s, index (connected (tried r s)) s = Ok true ∧ index (rafts (tried r s)) s = Ok true ∧ start_ok r s = Some idx.
Proof.
  revert starts. induction si as [|si IH]; intros starts Hrun; cbn [try_starts] in Hrun; [done|].
  set (s := Z.rem (starts + 1) (n cfg)) in *.
  destruct (index (connected (tried r s)) s) as [c|] eqn:Hc; [|done]. cbn [bind] in Hrun.
  destruct (index (rafts (tried r s)) s) as [u|] eqn:Hu; [|done]. cbn [bind] in Hrun.
  destruct c, u; cbn [andb] in Hrun; try by eapply IH.
  destruct (start_ok r s) eqn:Hs; [|by eapply IH]. exists s.
  split_and!; [done|done|congruence].
Qed.

Lemma agreed_true cfg vs cmd ex idx :
  agreed cfg vs cmd ex idx = Ok true →
  ∃ v count, v ∈ vs ∧ (0 < count)%Z ∧ (ex ≤ count)%Z ∧
    omap (λ i, committed (v i) idx i) (range (len (rafts cfg))) = replicate (Z.to_nat count) cmd.
Proof.
  induction vs as [|v vs IH]; cbn [agreed]; [done|]. intros Hrun.
  destruct (nCommitted cfg v idx) as [[nd cmd1]|] eqn:Hn; [|done]. cbn [bind] in Hrun.
  case_decide as Hd.
  - destruct Hd as (? & ? & ->). exists v, nd. apply nCommitted_spec in Hn as [? _]. set_solver.
  - destruct (IH Hrun) as (v' & c & ? & ?). exists v', c. set_solver.
Qed.

(** C37. [one] returns an index on agreement only: when it returns an index other than -1
for a command, a server that was connected when it was tried accepted the command at
that index, and afterwards the servers were looked at, one after the other, and at least
one of them, and at least as many as were asked for, had committed the command there,
and no server anything else. *)
Theorem one_sound cfg rounds cmd expectedServers retry idx :
  one cfg rounds cmd expectedServers retry = Ok idx → idx ≠ (-1)%Z →
  ∃ r s v count, r ∈ rounds ∧ index (connected (tried r s)) s = Ok true ∧ index (rafts (tried r s)) s = Ok true ∧
    start_ok r s = Some idx ∧ v ∈ views r ∧ (0 < count)%Z ∧ (expectedServers ≤ count)%Z ∧
    omap (λ i, committed (v i) idx i) (range (len (rafts cfg))) = replicate (Z.to_nat count) cmd.
Proof.
  unfold one. generalize 0%Z at 1 as starts. induction rounds as [|r rounds IH]; intros starts Hrun Hidx.
  { cbn in Hrun. case_decide; simplify_eq. }
  assert (∀ st, one_rounds cfg rounds st cmd expectedServers retry = Ok idx → ∃ r0 s v count,
    r0 ∈ r :: rounds ∧ index (connected (tried r0 s)) s = Ok true ∧ index (rafts (tried r0 s)) s = Ok true ∧
    start_ok r0 s = Some idx ∧ v ∈ views r0 ∧ (0 < count)%Z ∧ (expectedServers ≤ count)%Z ∧
    omap (λ i, committed (v i) idx i) (range (len (rafts cfg))) = replicate (Z.to_nat count) cmd) as Hrest.
  { intros st Hst. destruct (IH st Hst Hidx) as (r0 & s & v & c & ? & Hx).
    exists r0, s, v, c. split; [by apply elem_of_cons; right|exact Hx]. }
  cbn [one_rounds] in Hrun.
  destruct (try_starts cfg r (Z.to_nat (n cfg)) starts) as [[st oi]|] eqn:Hts; [|done].
  cbn [bind] in Hrun. destruct oi as [i|]; [|by eapply Hrest].
  destruct (decide (i = (-1)%Z)) as [Hi|Hi]; [by eapply Hrest|].
  destruct (agreed cfg (views r) cmd expectedServers i) as [[]|] eqn:Hag; cbn [bind] in Hrun; [| |done].
  2: { destruct retry; [by eapply Hrest|done]. }
  injection Hrun as ->. destruct (try_starts_Some _ _ _ _ _ _ Hts) as (s & H1 & H2 & H3).
  destruct (agreed_true _ _ _ _ _ Hag) as (v & c & Hv & Hc1 & Hc2 & Hom).
  exists r, s, v, c. split_and!; try done. apply elem_of_cons. by left.
Qed.

(** ** Leaders *)

Definition is_conn cfg (i : Z) : Prop := index (connected cfg) i = Ok true.

Lemma leaders_spec cfg st ls :
  leaders_by_term cfg st = Ok ls →
  ∀ t i, (∃ l, ls !! t = Some l ∧ i ∈ l) ↔ (0 ≤ i < n cfg)%Z ∧ is_conn cfg i ∧ st i = (t, true).
Proof.
  intros Hrun.
  enough (∀ t i, (∃ l, ls !! t = Some l ∧ i ∈ l) ↔
    i ∈ range (n cfg) ∧ is_conn cfg i ∧ st i = (t, true)) as Hall.
  { intros t i. by rewrite Hall, elem_of_range. }
  revert Hrun. apply (for_each_inv _ (λ dn ls, ∀ t i, (∃ l, ls !! t = Some l ∧ i ∈ l) ↔
    i ∈ dn ∧ is_conn cfg i ∧ st i = (t, true))).
  - intros t i. rewrite lookup_empty, elem_of_nil. naive_solver.
  - clear. intros dn i ls ls' Hinv _ Hs t k. unfold get_state in Hs.
    rewrite elem_of_app, list_elem_of_singleton.
    destruct (index (connected cfg) i) as [[]|] eqn:Hc; cbn [bind] in Hs; [| |done].
    2: { simplify_eq. rewrite Hinv. unfold is_conn. split; [tauto|].
         intros ([?| ->] & Hk & ?); [done|congruence]. }
    destruct (index (rafts cfg) i) as [[]|]; cbn [bind] in Hs; [|done|done].
    destruct (st i) as [term []] eqn:Hst; simplify_eq.
    + rewrite lookup_insert. case_decide as Hd; [subst term|].
      * split.
        -- intros (l & [= <-] & [Hk| ->%list_elem_of_singleton]%elem_of_app).
           { destruct (ls !! t) as [l|] eqn:Hl; [|by apply not_elem_of_nil in Hk].
             destruct (proj1 (Hinv t k)) as (? & ? & ?); [by exists l|]. tauto. }
           split; [by right|]. done.
        -- intros ([Hk| ->] & Hck & Hsk).
           { destruct (proj2 (Hinv t k)) as (l & -> & Hl); [done|]. exists (l ++ [i]).
             split; [done|]. apply elem_of_app. by left. }
           eexists. split; [done|]. apply elem_of_app. right. by apply list_elem_of_singleton.
      * rewrite Hinv. split; [tauto|]. intros ([?| ->] & ? & ?); [done|congruence].
    + rewrite Hinv. split; [tauto|]. intros ([?| ->] & ? & ?); [done|congruence].
Qed.

Lemma last_term_spec l t :
  last_term_with_leader l = Ok t →
  (∀ e, e ∈ l → (len e.2 ≤ 1)%Z ∧ (e.1 ≤ t)%Z) ∧ (t = -1 ∨ ∃ e, e ∈ l ∧ e.1 = t)%Z.
Proof.
  apply (for_each_inv _ (λ dn t, (∀ e, e ∈ dn → (len e.2 ≤ 1)%Z ∧ (e.1 ≤ t)%Z) ∧
    (t = -1 ∨ ∃ e, e ∈ dn ∧ e.1 = t)%Z)).
  - split; [by intros e ?%not_elem_of_nil|by left].
  - clear. intros dn e last last' [H1 H2] _ Hs. case_decide as Hd; [done|].
    setoid_rewrite elem_of_app. setoid_rewrite list_elem_of_singleton.
    case_decide as Hlt; simplify_eq.
    + split; [|right; exists e; auto]. intros x [Hx| ->]; [|lia]. destruct (H1 x Hx). lia.
    + split; [|destruct H2 as [?|(x & ? & ?)]; eauto]. intros x [Hx| ->]; [by auto|lia].
Qed.

(** C38. [checkOneLeader] returns the leader: if it returns a server, then in one
of its ten looks at the servers this server was connected and believed to be the
leader, no other connected server believed to be the leader in the same or a
later term, and no two connected servers in any term. *)
Theorem checkOneLeader_sound order cfg states l :
  (∀ ls, order ls ≡ₚ map_to_list ls) →
  checkOneLeader order cfg states = Ok l →
  ∃ k, k < 10 ∧ let leads i := (0 ≤ i < n cfg)%Z ∧ is_conn cfg i ∧ (states k i).2 = true in
    leads l ∧
    (∀ i, leads i → i ≠ l → ((states k i).1 < (states k l).1)%Z) ∧
    (∀ i j, leads i → leads j → (states k i).1 = (states k j).1 → i = j).
Proof.
  intros Hord. unfold checkOneLeader.
  assert (∀ iters k0, one_leader_from order cfg states iters k0 = Ok l → ∃ k, k0 ≤ k < k0 + iters ∧
    let leads i := (0 ≤ i < n cfg)%Z ∧ is_conn cfg i ∧ (states k i).2 = true in
    leads l ∧ (∀ i, leads i → i ≠ l → ((states k i).1 < (states k l).1)%Z) ∧
    (∀ i j, leads i → leads j → (states k i).1 = (states k j).1 → i = j)) as Hgen.
  2: { intros Hrun. destruct (Hgen 10 0 Hrun) as (k & ? & ?). exists k. split; [lia|done]. }
  induction iters as [|iters IH]; intros k0 Hrun; [done|]. cbn [one_leader_from] in Hrun.
  destruct (leaders_by_term cfg (states k0)) as [ls|] eqn:Hls; [|done]. cbn [bind] in Hrun.
  destruct (last_term_with_leader (order ls)) as [t|] eqn:Ht; [|done]. cbn [bind] in Hrun.
  case_decide as Hempty.
  { destruct (IH _ Hrun) as (k & ? & ?). exists k. split; [lia|done]. }
  exists k0. split; [lia|]. intros leads.
  pose proof (leaders_spec cfg (states k0) ls Hls) as Hl.
  destruct (last_term_spec _ _ Ht) as [Hall Hlast].
  assert (∀ i, leads i → ∃ li, (li = [i]) ∧ ls !! (states k0 i).1 = Some li ∧
    ((states k0 i).1 ≤ t)%Z) as Hsingle.
  { intros i (Hi & Hc & Hlead). destruct (proj2 (Hl (states k0 i).1 i)) as (li & Hli & Hin).
    { split_and!; [lia|lia|done|]. destruct (states k0 i). simpl in *. by subst. }
    destruct (Hall ((states k0 i).1, li)) as [Hlen Hle].
    { rewrite Hord. by apply elem_of_map_to_list. }
    exists li. split_and!; [|done|done]. cbn [snd] in Hlen.
    destruct li as [|x [|y li]]; [by apply not_elem_of_nil in Hin| |unfold len in Hlen; simpl in Hlen; lia].
    by apply list_elem_of_singleton in Hin as ->. }
  assert (∃ ll, ls !! t = Some ll ∧ l ∈ ll) as (ll & Hll & Hin).
  { destruct (ls !! t) as [ll|] eqn:E; simpl in Hrun; [|done].
    exists ll. split; [done|]. apply index_Ok in Hrun as [_ Hrun]. by eapply list_elem_of_lookup_2. }
  destruct (proj1 (Hl t l)) as (Hr & Hc & Hst); [by exists ll|].
  assert (leads l) as Hleads by (unfold leads; by rewrite Hst).
  assert (∀ i j, leads i → leads j → (states k0 i).1 = (states k0 j).1 → i = j) as Huniq.
  { intros i j Hi Hj E. destruct (Hsingle i Hi) as (? & -> & H1 & _).
    destruct (Hsingle j Hj) as (? & -> & H2 & _). rewrite E in H1. by simplify_eq. }
  split_and!; [done| |done].
  intros i Hi Hne. rewrite Hst. cbn [fst]. destruct (Hsingle i Hi) as (_ & _ & _ & Hle).
  destruct (decide ((states k0 i).1 = t)) as [E|]; [|lia]. exfalso. apply Hne. apply Huniq; [done..|].
  by rewrite Hst.
Qed.

(** ** Snapshots *)

(** The map that [ingestSnap] builds. *)
Definition log_of (xlog : list C) : gmap Z C :=
  foldl (λ log j, <[j := default nil (xlog !! Z.to_nat j)]> log) ∅ (range (len xlog)).

Lemma log_of_lookup xlog j :
  log_of xlog !! j = if decide (0 ≤ j < len xlog)%Z then Some (default nil (xlog !! Z.to_nat j)) else None.
Proof.
  unfold log_of.
  assert (∀ l (log : gmap Z C),
    foldl (λ log j, <[j := default nil (xlog !! Z.to_nat j)]> log) log l !! j =
    if decide (j ∈ l) then Some (default nil (xlog !! Z.to_nat j)) else log !! j) as ->.
  { induction l as [|k l IH]; intros log; cbn [foldl];
      [by rewrite decide_False by apply not_elem_of_nil|].
    rewrite IH. destruct (decide (j ∈ l)) as [Hin|Hin].
    - rewrite decide_True by (apply elem_of_cons; by right). done.
    - destruct (decide (j = k)) as [->|Hne].
      + rewrite lookup_insert_eq, decide_True by (apply elem_of_cons; by left). done.
      + rewrite lookup_insert_ne, decide_False; [done|by intros [?|?]%elem_of_cons|done]. }
  rewrite lookup_empty. by apply decide_ext, elem_of_range.
Qed.

Lemma ingest_loop (xlog : list C) :
  for_each (λ log j, let* x := index xlog j in Ok (<[j := x]> log)) (range (len xlog)) ∅
  = Ok (log_of xlog).
Proof.
  unfold log_of. erewrite for_each_pure with (h := id) (g := λ log j, <[j := default nil (xlog !! Z.to_nat j)]> log).
  - by rewrite list_fmap_id.
  - intros log j [H0 H1]%elem_of_range. destruct (index_in_range xlog j (conj H0 H1)) as [x Hx].
    rewrite Hx. apply index_Ok in Hx as [_ Hx]. cbn [bind]. unfold id. by rewrite Hx.
Qed.

Lemma snapshot_log_lookup (log : gmap Z C) k j :
  log_of (snapshot_log log k) !! j = if decide (0 ≤ j ≤ k)%Z then Some (default nil (log !! j)) else None.
Proof.
  rewrite log_of_lookup.
  assert (len (snapshot_log log k) = Z.of_nat (Z.to_nat (k + 1))) as El.
  { unfold len, snapshot_log. by rewrite length_fmap, range_length. }
  destruct (decide (0 ≤ j ≤ k)%Z) as [Hj|Hj].
  - rewrite decide_True by lia. unfold snapshot_log. rewrite list_lookup_fmap. unfold range.
    rewrite lookup_seqZ_lt by lia. cbn [fmap option_fmap option_map].
    replace (0 + Z.of_nat (Z.to_nat j))%Z with j by lia. done.
  - by rewrite decide_False by lia.
Qed.

Lemma checkLogs_lastApplied cfg i m c err b :
  checkLogs cfg i m = Ok (c, err, b) → lastApplied c = lastApplied cfg.
Proof.
  unfold checkLogs. intros H. destruct (for_each _ _ _); [|done]. cbn [bind] in H.
  destruct (index (logs cfg) i); [|done]. cbn [bind] in H.
  destruct (set_index _ _ _); [|done]. cbn [bind] in H. by injection H as <- _ _.
Qed.

(** A command that [applierSnap] accepted. *)
Lemma applierSnap_Ok decode encode cfg i m cfg' o :
  RaftPeer.SnapshotValid m = false → RaftPeer.CommandValid m = true →
  applierSnap decode encode cfg i m = Ok (cfg', o) →
  let k := RaftPeer.CommandIndex m in
  ∃ la l0, index (lastApplied cfg) i = Ok la ∧ index (logs cfg) i = Ok l0 ∧ k = (la + 1)%Z ∧
    consistent (logs cfg) k (RaftPeer.Command m) ∧ ((1 < k)%Z → is_Some (l0 !! (k - 1)%Z)) ∧
    let l1 := <[k := RaftPeer.Command m]> l0 in
    logs cfg' = <[Z.to_nat i := l1]> (logs cfg) ∧
    lastApplied cfg' = <[Z.to_nat i := k]> (lastApplied cfg) ∧
    o = if decide (Z.rem (k + 1) SnapShotInterval = 0)%Z
        then Some (k, encode (k, snapshot_log l1 k)) else None.
Proof.
  intros Hsv Hcv Hrun k. unfold applierSnap in Hrun. rewrite Hsv, Hcv in Hrun. fold k in Hrun.
  destruct (index (lastApplied cfg) i) as [la|] eqn:Hla; [|done]. cbn [bind] in Hrun.
  pose proof (index_ok_bounds _ _ _ Hla) as Hib.
  destruct (decide (k ≠ la + 1)%Z) as [Hne|Heq%dec_stable].
  { cbn [bind] in Hrun. rewrite set_index_in_range in Hrun by done. cbn [bind] in Hrun.
    case_decide; [|done]. by destruct (index (logs _) i). }
  destruct (index (logs cfg) i) as [l0|f] eqn:Hl0.
  2: { unfold checkLogs in Hrun. rewrite Hl0 in Hrun. by destruct (for_each _ _ _). }
  destruct (checkLogs_spec cfg i m l0 Hl0) as (c & err & E & Herr & Hlogs).
  pose proof (checkLogs_lastApplied _ _ _ _ _ _ E) as Ela. rewrite E in Hrun. clear E.
  cbn [bind] in Hrun. fold k in Hrun, Hlogs, Herr. rewrite Ela, set_index_in_range in Hrun by done.
  cbn [bind] in Hrun. set (l1 := <[k := RaftPeer.Command m]> l0) in *.
  pose proof (index_ok_bounds _ _ _ Hl0) as Hb.
  assert (index (logs c) i = Ok l1) as Hli.
  { rewrite Hlogs. apply index_Ok. split; [lia|]. apply list_lookup_insert_eq. unfold len in Hb. lia. }
  cbn [logs set_lastApplied] in Hrun. rewrite Hli in Hrun. exists la, l0.
  destruct (decide (Z.rem (k + 1) SnapShotInterval = 0)%Z); cbn [bind] in Hrun;
    (destruct (bool_decide (1 < k)%Z && _) eqn:Ho; [done|]; rewrite order_test in Ho;
     destruct err; [done|]; injection Hrun as <- <-;
     cbv zeta; split_and!; try done; by apply Herr).
Qed.

(** A snapshot that [ingestSnap] accepted. *)
Lemma ingestSnap_Ok decode cfg i data idx cfg' :
  ingestSnap decode cfg i (Some data) idx = Ok (cfg', None) →
  ∃ k xlog, decode data = Some (k, xlog) ∧ (idx = (-1)%Z ∨ idx = k) ∧
    (0 ≤ i < len (logs cfg))%Z ∧ (0 ≤ i < len (lastApplied cfg))%Z ∧
    saved cfg' = saved cfg ∧ logs cfg' = <[Z.to_nat i := log_of xlog]> (logs cfg) ∧
    lastApplied cfg' = <[Z.to_nat i := k]> (lastApplied cfg).
Proof.
  unfold ingestSnap. intros H. destruct (decode data) as [[k xlog]|]; [|done].
  case_decide as Hd; [done|]. rewrite ingest_loop in H. cbn [bind] in H.
  destruct (set_index (logs cfg) i _) as [ls|] eqn:Hs; [|done]. cbn [bind] in H.
  destruct (set_index (lastApplied cfg) i _) as [la|] eqn:Ha; [|done]. cbn [bind] in H.
  injection H as <-. apply set_index_Ok in Hs as [Hs ->]. apply set_index_Ok in Ha as [Ha ->].
  exists k, xlog. split_and!; try done; lia.
Qed.

(** A snapshot carries the log: when [applierSnap] accepts a command and takes
a snapshot, it does so at an index that is the successor of the last one applied
and one less than a multiple of ten; and whatever server reads the snapshot back
with that index, its log is then exactly the entries 0 to that index of the
server that took it (nil where that one had none), and its last applied index is
the index of the snapshot. *)
Theorem snapshot_roundtrip decode encode cfg i m cfg' idx data cfg2 i2 :
  (∀ x, decode (encode x) = Some x) → RaftPeer.SnapshotValid m = false →
  applierSnap decode encode cfg i m = Ok (cfg', Some (idx, data)) →
  (0 ≤ i2 < len (logs cfg2))%Z → (0 ≤ i2 < len (lastApplied cfg2))%Z →
  ∃ la li cfg3, index (lastApplied cfg) i = Ok la ∧ idx = (la + 1)%Z ∧ Z.rem (idx + 1) 10 = 0%Z ∧
    index (logs cfg') i = Ok li ∧ li !! idx = Some (RaftPeer.Command m) ∧
    ingestSnap decode cfg2 i2 (Some data) idx = Ok (cfg3, None) ∧
    index (lastApplied cfg3) i2 = Ok idx ∧
    ∃ l3, index (logs cfg3) i2 = Ok l3 ∧
      ∀ j, l3 !! j = if decide (0 ≤ j ≤ idx)%Z then Some (default nil (li !! j)) else None.
Proof.
  intros Hdec Hsv Hrun Hi2 Hl2. destruct (RaftPeer.CommandValid m) eqn:Hcv.
  2: { unfold applierSnap in Hrun. by rewrite Hsv, Hcv in Hrun. }
  destruct (applierSnap_Ok decode encode cfg i m cfg' _ Hsv Hcv Hrun)
    as (la & l0 & Hla & Hl0 & Heq & _ & _ & Hlogs & _ & Ho).
  case_decide as Hrem; [|done]. injection Ho as -> ->. set (k := RaftPeer.CommandIndex m) in *.
  set (li := <[k := RaftPeer.Command m]> l0) in *. pose proof (index_ok_bounds _ _ _ Hl0) as Hb.
  assert (index (logs cfg') i = Ok li) as Hli.
  { rewrite Hlogs. apply index_Ok. split; [lia|]. apply list_lookup_insert_eq. unfold len in Hb. lia. }
  eexists la, li, _. split_and!; [done|done|done|done|apply lookup_insert_eq|..].
  - unfold ingestSnap. rewrite Hdec. rewrite decide_False by tauto.
    rewrite ingest_loop. cbn [bind]. rewrite set_index_in_range by done. cbn [bind].
    rewrite set_index_in_range by done. cbn [bind]. done.
  - cbn [lastApplied set_lastApplied]. apply index_Ok. split; [lia|]. apply list_lookup_insert_eq.
    unfold len in Hl2. lia.
  - eexists. split.
    + cbn [logs set_lastApplied set_logs]. apply index_Ok. split; [lia|].
      apply list_lookup_insert_eq. unfold len in Hi2. lia.
    + intros j. apply snapshot_log_lookup.
Qed.

(** ** The net mirrors [connected] *)

Definition conn (con : list bool) (i : Z) : bool := default false (con !! Z.to_nat i).

(** The end by which [i] calls [j], if [i] has been started. *)
Abbreviation name_of ens i j e := (endname_at ens i j = Ok e).

Record links_ok (n : Z) (con : list bool) (ens : list (option (list string))) (rn : Network) : Prop := {
  lk_con : len con = n;
  lk_ens : len ens = n;
  lk_rows : ∀ i row, index ens i = Ok (Some row) → len row = n;
  lk_ends : ∀ i j e, name_of ens i j e → IStr e ∈ ends rn;
  lk_inj : ∀ i j i' j' e, name_of ens i j e → name_of ens i' j' e → i = i' ∧ j = j';
  lk_started : ∀ i, (0 ≤ i < n)%Z → conn con i = true → ∃ row, index ens i = Ok (Some row);
  lk_enabled : ∀ i j e, name_of ens i j e → is_enabled rn (IStr e) = conn con i && conn con j;
  lk_named : ∀ e, is_enabled rn e = true → ∃ i j s, e = IStr s ∧ name_of ens i j s }.

Definition cfg_links cfg : Prop := links_ok (n cfg) (connected cfg) (endnames cfg) (net cfg).

Lemma name_of_range k con ens rn i j e :
  links_ok k con ens rn → name_of ens i j e → (0 ≤ i < k)%Z ∧ (0 ≤ j < k)%Z.
Proof.
  intros Hl He. unfold endname_at in He.
  destruct (index ens i) as [[row|]|] eqn:Hi; cbn [bind] in He; try done.
  pose proof (index_ok_bounds _ _ _ Hi). pose proof (index_ok_bounds _ _ _ He).
  rewrite (lk_ens _ _ _ _ Hl) in *. by rewrite (lk_rows _ _ _ _ Hl i row Hi) in *.
Qed.

Lemma name_of_exists k con ens rn i j row :
  links_ok k con ens rn → index ens i = Ok (Some row) → (0 ≤ j < k)%Z → ∃ e, name_of ens i j e.
Proof.
  intros Hl Hi Hj. unfold endname_at. rewrite Hi. cbn [bind]. apply index_in_range.
  by rewrite (lk_rows _ _ _ _ Hl i row Hi).
Qed.

Lemma index_conn con i : (0 ≤ i < len con)%Z → index con i = Ok (conn con i).
Proof.
  intros Hi. destruct (index_in_range con i Hi) as [b Hb]. rewrite Hb. apply index_Ok in Hb as [_ Hb].
  unfold conn. by rewrite Hb.
Qed.

Lemma conn_set con i b j :
  (0 ≤ i < len con)%Z → (0 ≤ j)%Z →
  conn (<[Z.to_nat i := b]> con) j = if decide (j = i) then b else conn con j.
Proof.
  intros Hi Hj. unfold conn. case_decide as Hd.
  - subst j. rewrite list_lookup_insert_eq; [done|]. unfold len in Hi. lia.
  - rewrite list_lookup_insert_ne; [done|lia].
Qed.

(** The calls of [Enable] of the two loops, for the servers that [test] selects. *)
Definition nm_at (ens : list (option (list string))) (i j : Z) : string :=
  match endname_at ens i j with Ok e => e | Crash _ => "" end.

Definition row_links (ens : list (option (list string))) (test : Z → bool) (b : bool) (i k : Z)
    : list (string * bool) :=
  (range k ≫= λ j, if test j then [(nm_at ens i j, b)] else []).
Definition col_links (ens : list (option (list string))) (test : Z → bool) (b : bool) (i k : Z)
    : list (string * bool) :=
  (range k ≫= λ j, if test j then [(nm_at ens j i, b)] else []).

Lemma row_links_elem ens test b i k e b' :
  (e, b') ∈ row_links ens test b i k ↔
  b' = b ∧ ∃ j, (0 ≤ j < k)%Z ∧ test j = true ∧ e = nm_at ens i j.
Proof.
  unfold row_links. rewrite list_elem_of_bind. setoid_rewrite elem_of_range. split.
  - intros (j & Hin & Hj). destruct (test j) eqn:Ht; [|by apply not_elem_of_nil in Hin].
    apply list_elem_of_singleton in Hin. simplify_eq. eauto.
  - intros (-> & j & Hj & Ht & ->). exists j. rewrite Ht. split; [by apply list_elem_of_singleton|done].
Qed.

Lemma col_links_elem ens test b i k e b' :
  (e, b') ∈ col_links ens test b i k ↔
  b' = b ∧ ∃ j, (0 ≤ j < k)%Z ∧ test j = true ∧ e = nm_at ens j i.
Proof.
  unfold col_links. rewrite list_elem_of_bind. setoid_rewrite elem_of_range. split.
  - intros (j & Hin & Hj). destruct (test j) eqn:Ht; [|by apply not_elem_of_nil in Hin].
    apply list_elem_of_singleton in Hin. simplify_eq. eauto.
  - intros (-> & j & Hj & Ht & ->). exists j. rewrite Ht. split; [by apply list_elem_of_singleton|done].
Qed.

Lemma nm_at_name ens i j e : name_of ens i j e → nm_at ens i j = e.
Proof. unfold nm_at. by intros ->. Qed.

(** What is enabled afterwards was enabled before, or was enabled by a call. *)
Lemma enables_true rn es e :
  is_enabled (apply_enables rn es) e = true →
  is_enabled rn e = true ∨ ∃ s, e = IStr s ∧ (s, true) ∈ es.
Proof.
  unfold apply_enables. induction es as [|[s b] es IH] using rev_ind; [by left|].
  rewrite foldl_snoc. simpl. rewrite is_enabled_Enable. setoid_rewrite elem_of_app.
  setoid_rewrite list_elem_of_singleton. case_decide as Hd.
  - intros ->. right. exists s. auto.
  - intros [?|(s' & ? & ?)]%IH; eauto.
Qed.

Definition has_row (ens : list (option (list string))) (j : Z) : bool :=
  match index ens j with Ok (Some _) => true | _ => false end.

Lemma has_row_true ens j : has_row ens j = true ↔ ∃ row, index ens j = Ok (Some row).
Proof. unfold has_row. destruct (index ens j) as [[row|]|]; naive_solver. Qed.

(** The end from [i] to [j], once [i] has names. *)
Lemma has_row_name k con ens rn i j :
  links_ok k con ens rn → has_row ens i = true → (0 ≤ j < k)%Z → name_of ens i j (nm_at ens i j).
Proof.
  intros Hl [row Hr]%has_row_true Hj. destruct (name_of_exists _ _ _ _ i j row Hl Hr Hj) as [e He].
  by rewrite (nm_at_name _ _ _ _ He).
Qed.

(** The links of the servers that [test] selects, all of which have names, are
the ends of the row and the column of [i]. *)
Lemma server_links_elem k con ens rn (rt ct : Z → bool) b i i' j' e b' :
  links_ok k con ens rn → (0 ≤ i < k)%Z →
  (∀ j, (0 ≤ j < k)%Z → rt j = true → has_row ens i = true) →
  (∀ j, (0 ≤ j < k)%Z → ct j = true → has_row ens j = true) →
  name_of ens i' j' e →
  (e, b') ∈ row_links ens rt b i k ++ col_links ens ct b i k ↔
  b' = b ∧ ((i' = i ∧ rt j' = true) ∨ (j' = i ∧ ct i' = true)).
Proof.
  intros Hl Hi Hrt Hct He. destruct (name_of_range _ _ _ _ _ _ _ Hl He) as [Hi' Hj'].
  rewrite elem_of_app, row_links_elem, col_links_elem. split.
  - intros [(-> & j & Hj & Ht & E)|(-> & j & Hj & Ht & E)]; (split; [done|]).
    + pose proof (has_row_name _ _ _ _ i j Hl (Hrt j Hj Ht) Hj) as He'. rewrite <-E in He'.
      destruct (lk_inj _ _ _ _ Hl _ _ _ _ _ He He') as [-> ->]. by left.
    + pose proof (has_row_name _ _ _ _ j i Hl (Hct j Hj Ht) Hi) as He'. rewrite <-E in He'.
      destruct (lk_inj _ _ _ _ Hl _ _ _ _ _ He He') as [-> ->]. by right.
  - intros (-> & [[-> Ht]|[-> Ht]]); [left|right]; (split; [done|]); eexists;
      (split; [|split; [done|by rewrite (nm_at_name _ _ _ _ He)]]); done.
Qed.

(** Setting the flag of server [i] and its ends keeps the invariant. *)
Lemma links_set k con ens rn i b rn' :
  links_ok k con ens rn → (0 ≤ i < k)%Z → (b = true → has_row ens i = true) →
  ends rn' = ends rn →
  (∀ i' j' e, name_of ens i' j' e → is_enabled rn' (IStr e)
     = conn (<[Z.to_nat i := b]> con) i' && conn (<[Z.to_nat i := b]> con) j') →
  (∀ e, is_enabled rn' e = true → ∃ i' j' s, e = IStr s ∧ name_of ens i' j' s) →
  links_ok k (<[Z.to_nat i := b]> con) ens rn'.
Proof.
  intros Hl Hi Hrow He Hen Hnamed. pose proof (lk_con _ _ _ _ Hl) as Hc. split; try apply Hl; try done.
  - unfold len in *. by rewrite length_insert.
  - rewrite He. apply (lk_ends _ _ _ _ Hl).
  - intros j Hj. rewrite conn_set by lia. case_decide as Hd; [subst j|by apply (lk_started _ _ _ _ Hl)].
    intros Hb. by apply has_row_true, Hrow.
Qed.

Lemma connect_keeps cfg i cfg' :
  cfg_links cfg → has_row (endnames cfg) i = true → connect cfg i = Ok cfg' → cfg_links cfg'.
Proof.
  intros Hl Hrow Hrun. unfold connect in Hrun. unfold cfg_links in Hl.
  destruct (set_index (connected cfg) i true) as [con|] eqn:Hcon; [|done]. cbn [bind] in Hrun.
  apply set_index_Ok in Hcon as [Hi ->]. rewrite (lk_con _ _ _ _ Hl) in Hi.
  set (con := <[Z.to_nat i := true]> (connected cfg)) in *.
  assert (len con = n cfg) as Hlen.
  { unfold con, len. rewrite length_insert. apply (lk_con _ _ _ _ Hl). }
  assert (∀ j, (0 ≤ j < n cfg)%Z → conn con j = true → has_row (endnames cfg) j = true) as Hct.
  { intros j Hj. unfold con. rewrite conn_set by (rewrite ?(lk_con _ _ _ _ Hl); lia).
    case_decide; [by subst|]. intros. by apply has_row_true, (lk_started _ _ _ _ Hl). }
  rewrite (for_each_enables _ (λ j, if conn con j then [(nm_at (endnames cfg) i j, true)] else [])) in Hrun.
  2: { intros rn j Hj%elem_of_range. rewrite index_conn by lia. cbn [bind].
       destruct (conn con j); [|done]. by rewrite (has_row_name _ _ _ _ i j Hl Hrow Hj). }
  cbn [bind] in Hrun.
  rewrite (for_each_enables _ (λ j, if conn con j then [(nm_at (endnames cfg) j i, true)] else [])) in Hrun.
  2: { intros rn j Hj%elem_of_range. rewrite index_conn by lia. cbn [bind].
       destruct (conn con j) eqn:Hcj; [|done].
       by rewrite (has_row_name _ _ _ _ j i Hl (Hct j Hj Hcj) Hi). }
  cbn [bind] in Hrun. simplify_eq. unfold cfg_links. cbn [n connected endnames net set_net set_connected].
  rewrite <-apply_enables_app.
  apply (links_set _ _ _ (net cfg)); [done|done|done|apply enables_ends| |].
  2: { intros e [?|(s & -> & Hs)]%enables_true; [by apply (lk_named _ _ _ _ Hl)|].
       apply elem_of_app in Hs as [Hs|Hs].
       - apply row_links_elem in Hs as (_ & j & Hj & _ & ->). exists i, j, (nm_at (endnames cfg) i j).
         split; [done|]. by apply (has_row_name _ _ _ _ i j Hl).
       - apply col_links_elem in Hs as (_ & j & Hj & Hcj & ->). exists j, i, (nm_at (endnames cfg) j i).
         split; [done|]. by apply (has_row_name _ _ _ _ j i Hl); [apply Hct|]. }
  intros i' j' e He. destruct (name_of_range _ _ _ _ _ _ _ Hl He) as [Hi' Hj'].
  pose proof (λ b', server_links_elem _ _ _ _ (conn con) (conn con) true i i' j' e b' Hl Hi (λ _ _ _, Hrow) Hct He)
    as Helem. unfold row_links, col_links in Helem.
  destruct (decide ((i' = i ∧ conn con j' = true) ∨ (j' = i ∧ conn con i' = true))) as [Hin|Hout].
  - rewrite (enables_all _ _ e true); [|by apply Helem|by intros [? _]%Helem].
    fold con. symmetry. apply andb_true_iff.
    assert (conn con i = true) as Hci.
    { unfold con. rewrite conn_set by (rewrite ?(lk_con _ _ _ _ Hl); lia). by rewrite decide_True. }
    destruct Hin as [[-> ?]|[-> ?]]; done.
  - rewrite enables_other by (intros b' [_ ?]%Helem; done). rewrite (lk_enabled _ _ _ _ Hl _ _ _ He).
    fold con. unfold con in *. rewrite !conn_set in * by (rewrite ?(lk_con _ _ _ _ Hl); lia).
    destruct (decide (i' = i)), (decide (j' = i)); [tauto| | |done].
    + destruct (conn (connected cfg) j'); [tauto|by rewrite andb_false_r].
    + destruct (conn (connected cfg) i'); [tauto|done].
Qed.

Lemma disconnect_keeps cfg i cfg' :
  cfg_links cfg → disconnect cfg i = Ok cfg' → cfg_links cfg' ∧ conn (connected cfg') i = false ∧
    n cfg' = n cfg ∧ endnames cfg' = endnames cfg ∧ ends (net cfg') = ends (net cfg).
Proof.
  intros Hl Hrun. unfold disconnect in Hrun. unfold cfg_links in Hl.
  destruct (set_index (connected cfg) i false) as [con|] eqn:Hcon; [|done]. cbn [bind] in Hrun.
  apply set_index_Ok in Hcon as [Hi ->]. rewrite (lk_con _ _ _ _ Hl) in Hi.
  set (con := <[Z.to_nat i := false]> (connected cfg)) in *.
  assert (∀ j, (0 ≤ j < n cfg)%Z → index (endnames cfg) j = Ok None ∨
    ∃ row, index (endnames cfg) j = Ok (Some row)) as Hrows.
  { intros j Hj. destruct (index_in_range (endnames cfg) j) as [[row|] ->]; eauto.
    by rewrite (lk_ens _ _ _ _ Hl). }
  rewrite (for_each_enables _ (λ j, if has_row (endnames cfg) i then [(nm_at (endnames cfg) i j, false)] else []))
    in Hrun.
  2: { intros rn j Hj%elem_of_range. pose proof (has_row_name _ _ _ _ i j Hl) as Hnm. unfold has_row in *.
       destruct (Hrows i Hi) as [E|[row E]]; rewrite E in *; [done|]. cbn [bind]. by rewrite Hnm. }
  cbn [bind] in Hrun.
  rewrite (for_each_enables _ (λ j, if has_row (endnames cfg) j then [(nm_at (endnames cfg) j i, false)] else []))
    in Hrun.
  2: { intros rn j Hj%elem_of_range. pose proof (has_row_name _ _ _ _ j i Hl) as Hnm. unfold has_row in *.
       destruct (Hrows j Hj) as [E|[row E]]; rewrite E in *; [done|]. cbn [bind]. by rewrite Hnm. }
  cbn [bind] in Hrun. simplify_eq. unfold cfg_links. cbn [n connected endnames net set_net set_connected].
  rewrite <-apply_enables_app.
  assert (∀ j, (0 ≤ j)%Z → conn con j = if decide (j = i) then false else conn (connected cfg) j) as Hcn.
  { intros j Hj. unfold con. rewrite conn_set by (rewrite ?(lk_con _ _ _ _ Hl); lia). done. }
  split_and!; [|rewrite Hcn by lia; by rewrite decide_True|done|done|apply enables_ends].
  apply (links_set _ _ _ (net cfg)); [done|done|done|apply enables_ends| |].
  2: { intros e [?|(s & -> & Hs)]%enables_true; [by apply (lk_named _ _ _ _ Hl)|].
       apply elem_of_app in Hs as [Hs|Hs].
       - by apply (row_links_elem _ (λ _, has_row (endnames cfg) i)) in Hs as [? _].
       - by apply col_links_elem in Hs as [? _]. }
  intros i' j' e He. destruct (name_of_range _ _ _ _ _ _ _ Hl He) as [Hi' Hj'].
  pose proof (λ b', server_links_elem _ _ _ _ (λ _, has_row (endnames cfg) i) (has_row (endnames cfg)) false
    i i' j' e b' Hl Hi (λ _ _ H, H) (λ _ _ H, H) He) as Helem. unfold row_links, col_links in Helem.
  assert (has_row (endnames cfg) i' = true) as Hhas.
  { unfold has_row. unfold endname_at in He. by destruct (index (endnames cfg) i') as [[]|]. }
  fold con. rewrite !Hcn by lia. destruct (decide (i' = i ∨ j' = i)) as [Hin|Hout].
  - rewrite (enables_all _ _ e false); [|apply Helem|by intros [? _]%Helem].
    + symmetry. apply andb_false_iff. destruct Hin; [left|right]; by rewrite decide_True.
    + split; [done|]. destruct Hin as [->| ->]; auto.
  - rewrite enables_other by (intros b' (_ & [[? _]|[? _]])%Helem; tauto).
    rewrite (lk_enabled _ _ _ _ Hl _ _ _ He). by rewrite !decide_False by tauto.
Qed.

(** The invariant speaks of the flags, the names and the ends only. *)
Lemma links_same k con ens rn rn' :
  ends rn' = ends rn → (∀ e, is_enabled rn' e = is_enabled rn e) →
  links_ok k con ens rn → links_ok k con ens rn'.
Proof.
  intros He Hen Hl. split; try apply Hl.
  - rewrite He. apply (lk_ends _ _ _ _ Hl).
  - intros i j e Hn. rewrite Hen. by apply (lk_enabled _ _ _ _ Hl).
  - intros e. rewrite Hen. apply (lk_named _ _ _ _ Hl).
Qed.

Lemma crash1_links cfg i cfg' :
  cfg_links cfg → crash1 cfg i = Ok cfg' → cfg_links cfg' ∧ conn (connected cfg') i = false ∧
    n cfg' = n cfg ∧ endnames cfg' = endnames cfg ∧ ends (net cfg') = ends (net cfg).
Proof.
  intros Hl Hrun. unfold crash1 in Hrun.
  destruct (disconnect cfg i) as [c|] eqn:Hd; [|done]. cbn [bind] in Hrun.
  destruct (disconnect_keeps cfg i c Hl Hd) as (Hl1 & Hc & Hn & Hens & Hends).
  destruct (index (saved _) i); [|done]. cbn [bind] in Hrun.
  destruct (index (rafts _) i) as [up|]; [|done]. cbn [bind] in Hrun.
  destruct (if up then _ else _); [|done]. cbn [bind] in Hrun.
  destruct (set_index (saved _) i _); [|done]. cbn [bind] in Hrun. simplify_eq.
  split; [|done]. by apply (links_same _ _ _ (net c)).
Qed.

(** The names in a table with a new row. *)
Lemma name_of_new_row ens i names j l e :
  (0 ≤ i < len ens)%Z → name_of (<[Z.to_nat i := Some names]> ens) j l e →
  (0 ≤ l)%Z ∧ (j = i ∧ names !! Z.to_nat l = Some e ∨ j ≠ i ∧ name_of ens j l e).
Proof.
  intros Hi He. unfold endname_at in He.
  destruct (index _ j) as [[row|]|] eqn:Ej; cbn [bind] in He; [|done|done].
  pose proof (index_ok_bounds _ _ _ Ej) as Hb. pose proof (index_ok_bounds _ _ _ He) as Hb2.
  split; [lia|]. rewrite index_insert in Ej by lia. case_decide as Hd.
  - simplify_eq. left. split; [done|]. by apply index_Ok in He as [_ He].
  - right. split; [done|]. unfold endname_at. by rewrite Ej.
Qed.

(** A new row of names, all of them new. *)
Lemma links_row k con ens rn i names rn' :
  links_ok k con ens rn → (0 ≤ i < k)%Z → conn con i = false → len names = k → NoDup names →
  (∀ s, s ∈ names → IStr s ∉ ends rn) → ends_made names (range k) rn rn' →
  links_ok k con (<[Z.to_nat i := Some names]> ens) rn'.
Proof.
  intros Hl Hi Hc Hlen Hnd Hnew [Me Mn Mo Men Ms Mr]. set (ens' := <[Z.to_nat i := Some names]> ens).
  pose proof (lk_ens _ _ _ _ Hl) as Hle.
  assert (0 ≤ i < len ens)%Z as Hi' by lia.
  pose proof (λ j, index_insert ens i (Some names) j Hi') as Hix.
  pose proof (λ j l e, name_of_new_row ens i names j l e Hi') as Hname. fold ens' in Hix, Hname.
  assert (∀ l e, names !! Z.to_nat l = Some e → (0 ≤ l)%Z → IStr e ∈ ends rn' ∧ is_enabled rn' (IStr e) = false ∧
    IStr e ∉ ends rn) as Hrow.
  { intros l e He Hl0. destruct (Mn l e) as (? & _ & ?); [|done|].
    - apply elem_of_range. apply lookup_lt_Some in He. unfold len in Hlen. lia.
    - split_and!; [done|done|]. apply Hnew. by eapply list_elem_of_lookup_2. }
  split.
  - apply (lk_con _ _ _ _ Hl).
  - unfold ens', len in *. by rewrite length_insert.
  - intros j row Ej. pose proof (index_ok_bounds _ _ _ Ej) as [H0 _]. rewrite Hix in Ej.
    case_decide; [by simplify_eq|by eapply (lk_rows _ _ _ _ Hl)].
  - intros j l e (H0 & [[_ He]|[_ He]])%Hname; [by apply (Hrow l e)|].
    apply Mo. by eapply (lk_ends _ _ _ _ Hl).
  - intros j l j' l' e (H0 & [[-> He]|[_ He]])%Hname (H0' & [[-> He']|[_ He']])%Hname.
    + split; [done|]. pose proof (NoDup_lookup _ _ _ _ Hnd He He'). lia.
    + destruct (Hrow l e He H0) as (_ & _ & []). by eapply (lk_ends _ _ _ _ Hl).
    + destruct (Hrow l' e He' H0') as (_ & _ & []). by eapply (lk_ends _ _ _ _ Hl).
    + by eapply (lk_inj _ _ _ _ Hl).
  - intros j Hj Hcj. rewrite Hix. case_decide; [by subst; rewrite Hc in Hcj|].
    by apply (lk_started _ _ _ _ Hl).
  - intros j l e (H0 & [[-> He]|[_ He]])%Hname.
    + rewrite Hc. by destruct (Hrow l e He H0) as (_ & -> & _).
    + destruct (Mo (IStr e)) as (_ & _ & ->); [by eapply (lk_ends _ _ _ _ Hl)|].
      by apply (lk_enabled _ _ _ _ Hl).
  - intros e He%Men. destruct (lk_named _ _ _ _ Hl e He) as (j & l & s & -> & Hs).
    rewrite (lk_enabled _ _ _ _ Hl _ _ _ Hs) in He. apply andb_true_iff in He as [Hcj _].
    destruct (name_of_range _ _ _ _ _ _ _ Hl Hs) as [Hj _].
    exists j, l, s. split; [done|]. unfold endname_at in *. rewrite Hix.
    rewrite decide_False; [done|]. intros ->. by rewrite Hc in Hcj.
Qed.

Lemma ingestSnap_frame decode cfg i sn idx cfg' err :
  ingestSnap decode cfg i sn idx = Ok (cfg', err) →
  n cfg' = n cfg ∧ connected cfg' = connected cfg ∧ endnames cfg' = endnames cfg ∧ net cfg' = net cfg.
Proof.
  intros Hrun. unfold ingestSnap in Hrun. destruct sn as [sn|]; [|done].
  destruct (decode sn) as [[li xl]|]; [|done]. case_decide; [by simplify_eq|].
  destruct (for_each _ _ _); [|done]. cbn [bind] in Hrun.
  destruct (set_index _ _ _); [|done]. cbn [bind] in Hrun.
  destruct (set_index _ _ _); [|done]. cbn [bind] in Hrun. by simplify_eq.
Qed.

Lemma start1_links decode cfg i names a cfg' :
  cfg_links cfg → len names = n cfg → NoDup names → (∀ s, s ∈ names → IStr s ∉ ends (net cfg)) →
  start1 decode cfg i names a = Ok cfg' → cfg_links cfg'.
Proof.
  intros Hl Hlen Hnd Hnew Hrun. unfold start1 in Hrun.
  destruct (crash1 cfg i) as [c|] eqn:Hcr; [|done]. cbn [bind] in Hrun.
  destruct (crash1_links cfg i c Hl Hcr) as (Hl1 & Hc & Hn & Hens & Hends).
  destruct (set_index (endnames c) i (Some names)) as [ens|] eqn:Es; [|done]. cbn [bind] in Hrun.
  apply set_index_Ok in Es as [Hi ->]. rewrite (lk_ens _ _ _ _ Hl1) in Hi.
  destruct (make_ends_spec (net c) names (n c)) as (rn & Em & Hmade);
    [congruence|done|by rewrite Hends|].
  cbn [net set_endnames n] in Hrun. rewrite Em in Hrun. cbn [bind] in Hrun.
  destruct (set_index (lastApplied _) i 0%Z) as [las|]; [|done]. cbn [bind] in Hrun.
  assert (links_ok (n c) (connected c) (<[Z.to_nat i := Some names]> (endnames c)) rn) as Hl2.
  { apply (links_row _ _ _ (net c)); try done; [congruence|by rewrite Hends]. }
  destruct (index (saved _) i) as [p|]; [|done]. cbn [bind] in Hrun.
  match type of Hrun with bind ?x _ = _ => destruct x as [c2|] eqn:E2; [|done] end. cbn [bind] in Hrun.
  destruct (set_index (rafts c2) i true) as [rs|]; [|done]. cbn [bind] in Hrun. simplify_eq.
  unfold cfg_links. cbn [n connected endnames net set_net set_rafts].
  apply (links_same _ _ _ (net c2)); [done|done|].
  assert (n c2 = n c ∧ connected c2 = connected c ∧
    endnames c2 = <[Z.to_nat i := Some names]> (endnames c) ∧ net c2 = rn) as (-> & -> & -> & ->); [|done].
  destruct p as [[rs0 sn]|].
  - destruct (decide (0 < len sn)%Z); [|by simplify_eq].
    destruct (ingestSnap _ _ _ _ _) as [[c3 err]|] eqn:Ei; [|done]. cbn [bind] in E2.
    destruct err; simplify_eq. by apply ingestSnap_frame in Ei.
  - destruct (set_index (saved _) i _); [|done]. cbn [bind] in E2. by simplify_eq.
Qed.

(** What a test does to the servers. *)
Inductive hop :=
| HConnect (i : Z) | HDisconnect (i : Z) | HCrash (i : Z) | HStart (i : Z) (names : list string) (a : nat).

Definition run_hop (decode : bytes → option (Z * list C)) cfg (o : hop) : outcome (config C) :=
  match o with
  | HConnect i => connect cfg i
  | HDisconnect i => disconnect cfg i
  | HCrash i => crash1 cfg i
  | HStart i names a => start1 decode cfg i names a
  end.

(** A server that is connected has been started; random names are new. *)
Definition hop_ok cfg (o : hop) : Prop :=
  match o with
  | HConnect i => has_row (endnames cfg) i = true
  | HDisconnect _ | HCrash _ => True
  | HStart _ names _ => len names = n cfg ∧ NoDup names ∧ ∀ s, s ∈ names → IStr s ∉ ends (net cfg)
  end.

Definition hstep decode cfg cfg' : Prop := ∃ o, hop_ok cfg o ∧ run_hop decode cfg o = Ok cfg'.

(** The state in which [make_config] starts the servers. *)
Definition blank (k : Z) : config C :=
  let z {A} (a : A) := replicate (Z.to_nat k) a in
  mkCfg 0 (LongDelays MakeNetwork true) k (z false) (z None) (z false) (z None) (z None) (z ∅) (z 0%Z)
    0 0 0 0 0.

(** C28. The net mirrors the flags: through any sequence of starts, crashes,
connections and disconnections of servers, the end by which server [i] calls
server [j] is enabled exactly when both are marked as connected, and no other end
is enabled; so the ends of an earlier incarnation of a server, whose names it has
replaced, stay disabled. *)
Theorem links_mirror_connected decode k cfg :
  (0 ≤ k)%Z → steps (hstep decode) (blank k) cfg →
  (∀ i j e, endname_at (endnames cfg) i j = Ok e →
     is_enabled (net cfg) (IStr e) = conn (connected cfg) i && conn (connected cfg) j) ∧
  (∀ e, is_enabled (net cfg) e = true → ∃ i j s, e = IStr s ∧ endname_at (endnames cfg) i j = Ok s).
Proof.
  intros Hk Hst.
  assert (cfg_links cfg) as Hl; [|split; [apply (lk_enabled _ _ _ _ Hl)|apply (lk_named _ _ _ _ Hl)]].
  apply (steps_invariant (hstep decode) cfg_links (blank k) cfg); [| |done].
  - intros c c' Hl [[l|l|l|l names a] [Hok Hrun]]; cbn in Hok, Hrun.
    + by eapply connect_keeps.
    + by eapply disconnect_keeps.
    + by eapply crash1_links.
    + destruct Hok as (? & ? & ?). by eapply start1_links.
  - assert (∀ i' row, index (replicate (Z.to_nat k) (@None (list string))) i' ≠ Ok (Some row)) as Hno.
    { intros i' row [_ Hi]%index_Ok. by apply lookup_replicate in Hi as [? _]. }
    assert (∀ i' j' e', endname_at (replicate (Z.to_nat k) None) i' j' ≠ Ok e') as Hno2.
    { intros i' j' e' He'. unfold endname_at in He'.
      destruct (index (replicate _ _) i') as [[row|]|] eqn:E; cbn [bind] in He'; [|done|done].
      by apply Hno in E. }
    split; unfold blank; simpl.
    + unfold len. rewrite length_replicate. lia.
    + unfold len. rewrite length_replicate. lia.
    + by intros i' row ?%Hno.
    + by intros i' j' e' ?%Hno2.
    + by intros i' j' i2 j2 e' ?%Hno2.
    + intros i' _. unfold conn. destruct (replicate _ _ !! _) eqn:E; [|done].
      by apply lookup_replicate in E as [-> _].
    + by intros i' j' e' ?%Hno2.
    + intros e. unfold is_enabled. simpl. by rewrite lookup_empty.
Qed.

End harness.
(** ** A small test bed *)

(** The conditions on an operation, as a test, for runs that are evaluated. *)
Definition hop_okb {C} (cfg : config C) (o : hop) : bool :=
  match o with
  | HConnect i => has_row (endnames cfg) i
  | HDisconnect _ | HCrash _ => true
  | HStart _ names _ =>
      bool_decide (len names = n cfg) && bool_decide (NoDup names) &&
      forallb (λ s, bool_decide (IStr s ∉ ends (net cfg))) names
  end.

Lemma hop_okb_ok {C} (cfg : config C) o : hop_okb cfg o = true → hop_ok cfg o.
Proof.
  destruct o as [| | |i names a]; simpl; try done. rewrite !andb_true_iff, !bool_decide_eq_true, forallb_forall.
  intros [[? ?] Hf]. split_and!; [done|done|]. intros s Hs. specialize (Hf s).
  rewrite bool_decide_eq_true, <-list_elem_of_In in Hf. auto.
Qed.

Definition demo_decode (b : bytes) : option (Z * list Z) := None.
Definition hop_next (cfg : config Z) (o : hop) : option (config Z) :=
  if hop_okb cfg o then
    match run_hop demo_decode cfg o with Ok c => Some c | Crash _ => None end
  else None.
Definition demo_up : list hop :=
  [HStart 0 ["a"; "b"] 10; HStart 1 ["c"; "d"] 11; HConnect 0; HConnect 1].
Definition demo_hops : list hop := demo_up ++ [HCrash 1; HStart 1 ["e"; "f"] 12].
Definition demo_at (ops : list hop) : config Z :=
  default (blank 2) (run_labels hop_next (blank 2) ops).

Lemma demo_hops_reach ops :
  bool_decide (is_Some (run_labels hop_next (blank 2) ops)) = true →
  steps (hstep demo_decode) (blank 2) (demo_at ops).
Proof.
  rewrite bool_decide_eq_true. intros [cfg Hrun]. unfold demo_at. rewrite Hrun.
  apply (run_labels_steps hop_next _ ops); [|done]. intros c o c' Hn. exists o.
  unfold hop_next in Hn. destruct (hop_okb c o) eqn:Hok; [|done]. apply hop_okb_ok in Hok.
  split; [done|]. destruct (run_hop demo_decode c o); by simplify_eq.
Qed.

Lemma links_mirror_connected_witness :
  (∀ i j e, endname_at (endnames (demo_at demo_hops)) i j = Ok e →
     is_enabled (net (demo_at demo_hops)) (IStr e)
     = conn (connected (demo_at demo_hops)) i && conn (connected (demo_at demo_hops)) j) ∧
  (∀ e, is_enabled (net (demo_at demo_hops)) e = true →
     ∃ i j s, e = IStr s ∧ endname_at (endnames (demo_at demo_hops)) i j = Ok s).
Proof.
  apply (links_mirror_connected demo_decode 2 (demo_at demo_hops)); [lia|].
  apply demo_hops_reach. vm_compute. reflexivity.
Defined.

Definition demo_msg (idx cmd : Z) : RaftPeer.ApplyMsg Z :=
  RaftPeer.mkApplyMsg true cmd idx false [] 0 0.
Definition demo_msgs : list (Z * RaftPeer.ApplyMsg Z) :=
  [(0, demo_msg 1 100); (1, demo_msg 1 100); (0, demo_msg 2 200)]%Z.
Definition demo_logs : config Z :=
  match apply_all (demo_at demo_up) demo_msgs with Ok c => c | Crash _ => blank 2 end.

Lemma empty_logs : agree (logs (demo_at demo_up)) ∧ no_gaps (logs (demo_at demo_up)).
Proof.
  change (logs (demo_at demo_up)) with (replicate 2 (∅ : gmap Z Z)).
  split.
  - intros i j li lj k v w [-> _]%lookup_replicate _. by rewrite lookup_empty.
  - intros i li k [-> _]%lookup_replicate _ [? ?]. by rewrite lookup_empty in *.
Qed.

Lemma applier_sound_witness : agree (logs demo_logs) ∧ no_gaps (logs demo_logs).
Proof.
  apply (applier_sound (demo_at demo_up) demo_msgs demo_logs).
  - exact (proj1 empty_logs).
  - exact (proj2 empty_logs).
  - vm_compute. reflexivity.
Defined.

(** A different command at an index that another server has committed. *)
Lemma applier_complete_witness :
  applier demo_logs 1 (demo_msg 1 101) = Crash (FatalExit "apply error").
Proof.
  apply (applier_complete demo_logs 1 (demo_msg 1 101) {[1%Z := 100%Z]});
    [vm_compute; reflexivity|reflexivity|].
  intros [Hc _]. assert (100%Z = 101%Z); [|done].
  apply (Hc 0 (default ∅ (logs demo_logs !! 0)) 100%Z); vm_compute; reflexivity.
Defined.

Definition demo_round : round (C := Z) :=
  mkRound (λ _, demo_at demo_up) (λ s, if decide (s = 1)%Z then Some 1%Z else None)
    [λ i, if decide (i = 0)%Z then demo_at demo_up else demo_logs; λ _, demo_logs].

Lemma one_sound_witness :
  ∃ r s v count, r ∈ [demo_round] ∧ index (connected (tried r s)) s = Ok true ∧
    index (rafts (tried r s)) s = Ok true ∧ start_ok r s = Some 1%Z ∧ v ∈ views r ∧
    (0 < count)%Z ∧ (2 ≤ count)%Z ∧
    omap (λ i, committed (v i) 1 i) (range (len (rafts (demo_at demo_up)))) = replicate (Z.to_nat count) 100%Z.
Proof.
  apply (one_sound 0%Z (demo_at demo_up) [demo_round] 100%Z 2 false 1);
    [vm_compute; reflexivity|done].
Defined.

(** Two leaders, of terms 3 and 5; the first look finds none. *)
Definition demo_states (k : nat) (i : Z) : Z * bool :=
  if decide (k = 0) then (3, false)%Z
  else if decide (i = 0)%Z then (3, true)%Z else if decide (i = 1)%Z then (5, true)%Z else (5, false)%Z.

Lemma checkOneLeader_sound_witness :
  ∃ k, k < 10 ∧
    let leads i := (0 ≤ i < n (demo_at demo_up))%Z ∧ is_conn (demo_at demo_up) i ∧ (demo_states k i).2 = true in
    leads 1%Z ∧
    (∀ i, leads i → i ≠ 1%Z → ((demo_states k i).1 < (demo_states k 1).1)%Z) ∧
    (∀ i j, leads i → leads j → (demo_states k i).1 = (demo_states k j).1 → i = j).
Proof.
  apply (checkOneLeader_sound map_to_list (demo_at demo_up) demo_states 1);
    [done|vm_compute; reflexivity].
Defined.

(** Nine entries, and the snapshot at the ninth.  The encoding is a table. *)
Definition demo_nine : config Z :=
  set_lastApplied (set_logs (demo_at demo_up)
    [list_to_map ((λ j, (j, (100 + j)%Z)) <$> [1; 2; 3; 4; 5; 6; 7; 8]%Z); ∅] 8) [8; 0]%Z.
Fixpoint bits (p : positive) : bytes :=
  match p with xH => [] | xO p => Byte.x00 :: bits p | xI p => Byte.x01 :: bits p end.
Fixpoint unbits (l : bytes) : positive :=
  match l with [] => xH | Byte.x00 :: l => xO (unbits l) | _ :: l => xI (unbits l) end.
Definition demo_encode (x : Z * list Z) : bytes := bits (encode x).
Definition demo_decode_bits (b : bytes) : option (Z * list Z) := decode (unbits b).

Lemma demo_codec x : demo_decode_bits (demo_encode x) = Some x.
Proof.
  assert (∀ p, unbits (bits p) = p) as E by (induction p; simpl; congruence).
  unfold demo_decode_bits, demo_encode. by rewrite E, decode_encode.
Qed.

Definition demo_snap : config Z * option (Z * bytes) :=
  match applierSnap 0%Z demo_decode_bits demo_encode demo_nine 0 (demo_msg 9 109) with
  | Ok r => r
  | Crash _ => (blank 2, None)
  end.
Definition demo_data : bytes := default [] (snd <$> demo_snap.2).

Lemma snapshot_roundtrip_witness :
  ∃ la li cfg3, index (lastApplied demo_nine) 0 = Ok la ∧ 9%Z = (la + 1)%Z ∧ Z.rem (9 + 1) 10 = 0%Z ∧
    index (logs demo_snap.1) 0 = Ok li ∧ li !! 9%Z = Some 109%Z ∧
    ingestSnap demo_decode_bits (blank 2) 1 (Some demo_data) 9 = Ok (cfg3, None) ∧
    index (lastApplied cfg3) 1 = Ok 9%Z ∧
    ∃ l3, index (logs cfg3) 1 = Ok l3 ∧
      ∀ j, l3 !! j = if decide (0 ≤ j ≤ 9)%Z then Some (default 0%Z (li !! j)) else None.
Proof.
  apply (snapshot_roundtrip 0%Z demo_decode_bits demo_encode demo_nine 0 (demo_msg 9 109)
    demo_snap.1 9 demo_data (blank 2) 1).
  - exact demo_codec.
  - reflexivity.
  - vm_compute. reflexivity.
  - unfold len. simpl. lia.
  - unfold len. simpl. lia.
Defined.

End RaftHarness.
