(* ===== verification/KvHarness.v ===== *)
(** * The store's test bed ([src/shardkv/config.go])

A test bed of the store has a network, a controller of three servers with a
clerk, and three groups of servers.  [config], [ctrler] and [group] are the
records of the same names; a server that is [nil] is [None].

Random names come from one stream: [rand k] is what the [k]-th call of
[randstring(20)] returns, and [rng] counts the calls.  The theorems assume that
the stream does not repeat, which is what the code relies on: [MakeEnd] ends the
process when a name is taken.  What [decodeSnapshot] does is not in the
repository and is a parameter. *)

From S2P Require Import Prelude GoStrings Labrpc Persister ShardCtrler ShardKV HarnessNet.
From stdpp Require Import options.

Module KvHarness.
Import Labrpc HarnessNet.

(** ** The services *)

(** The exported methods of the three types that are registered, as [reflect]
sees them: the receiver counts as an argument. *)
Definition rpc_method (name : string) : method := Build_method name true 3 true 0.
Definition other_method (name : string) (numIn numOut : Z) : method :=
  Build_method name true numIn false numOut.

Definition kv_methods : list method :=
  [rpc_method "Get"; rpc_method "PutAppend"; other_method "Kill" 1 0;
   rpc_method "TransferShard"; rpc_method "DeleteShard"].
Definition rf_methods : list method :=
  [other_method "GetState" 1 2; other_method "GetRaftStateSize" 1 1; other_method "ReadSnapshot" 1 1;
   other_method "Snapshot" 3 0; rpc_method "InstallSnapshot"; rpc_method "RequestVote";
   rpc_method "AppendEntries"; other_method "Start" 2 3; other_method "Kill" 1 0].
Definition ctl_methods : list method :=
  [rpc_method "Join"; rpc_method "Leave"; rpc_method "Move"; rpc_method "Query";
   other_method "Kill" 1 0; other_method "Raft" 1 1].

Definition kvsvc : Service := MakeService "ShardKV" kv_methods.
Definition rfsvc : Service := MakeService "Raft" rf_methods.
Definition msvc : Service := MakeService "ShardCtrler" ctl_methods.

Definition kv_server : Server := AddService (AddService MakeServer kvsvc) rfsvc.
Definition ctl_server : Server := AddService (AddService MakeServer msvc) rfsvc.

(** ** The state *)

Record group := mkGroup {
  gid : Z;
  kvs : list (option ShardKV.ShardKV);
  saved : list (option Persister.Persister);
  endnames : list (option (list string));
  mendnames : list (option (list string)) }.

Record ctrler := mkCtl {
  ctl_n : Z;
  ctl_servers : list (option ShardCtrler.ShardCtrler);
  ctl_names : list string;
  ctl_ck : option (ShardCtrler.Clerk iface) }.

(** The network, the servers it points to, and the random names used so far. *)
Record base := mkBase { bnet : Network; bheap : gmap nat Server; rng : nat }.

Record config := mkCfg {
  bs : base;
  ctl : ctrler;
  ngroups : Z;
  n : Z;
  groups : list (option group);
  clerks : gmap nat (list string);
  nextClientId : Z;
  maxraftstate : Z }.

Definition set_bnet (b : base) (rn : Network) : base := mkBase rn (bheap b) (rng b).
Definition set_bs (cfg : config) (b : base) : config :=
  mkCfg b (ctl cfg) (ngroups cfg) (n cfg) (groups cfg) (clerks cfg) (nextClientId cfg)
    (maxraftstate cfg).
Definition set_groups (cfg : config) (gs : list (option group)) : config :=
  mkCfg (bs cfg) (ctl cfg) (ngroups cfg) (n cfg) gs (clerks cfg) (nextClientId cfg)
    (maxraftstate cfg).

Definition get_group (cfg : config) (gi : Z) : outcome group :=
  let* g := index (groups cfg) gi in
  match g with Some g => Ok g | None => Crash NilDereference end.

Definition ctrlername (ctl : ctrler) (i : Z) : outcome string := index (ctl_names ctl) i.

Definition servername (gid i : Z) : string := "server-" +:+ Itoa gid +:+ "-" +:+ Itoa i.

(** Check that no server's log is too big. *)
Definition checklogs (cfg : config) : outcome () :=
  for_each (λ _ gi,
    for_each (λ _ i,
      let* g := get_group cfg gi in
      let* p := index (saved g) i in
      match p with
      | None => Crash NilDereference
      | Some p =>
          let raft := Persister.RaftStateSize p in
          let snap := Persister.SnapshotSize p in
          if bool_decide (0 ≤ maxraftstate cfg)%Z && bool_decide (8 * maxraftstate cfg < raft)%Z
          then Crash (FatalExit "persister.RaftStateSize()")
          else if bool_decide (maxraftstate cfg < 0)%Z && bool_decide (0 < snap)%Z
          then Crash (FatalExit "maxraftstate is -1, but snapshot is non-empty!")
          else Ok ()
      end) (range (n cfg)) ()) (range (ngroups cfg)) ().

Section bed.
Context (rand : nat → string).
Context (decodeSnapshot : option Persister.Persister → ShardKV.ShardKV → ShardKV.ShardKV).

Definition randstring (b : base) : base * string :=
  (mkBase (bnet b) (bheap b) (S (rng b)), rand (rng b)).

(** A new end for a server, connected and enabled. *)
Definition open_end (rn : Network) (name servername : string) : outcome Network :=
  let* rn := MakeEnd rn (IStr name) in
  Ok (Enable (Connect rn (IStr name) (IStr servername)) (IStr name) true).

(** The function given to clerks and servers to turn a server's name into an end. *)
Definition make_end (b : base) (servername : string) : outcome (base * iface) :=
  let (b, name) := randstring b in
  let* rn := open_end (bnet b) name servername in
  Ok (set_bnet b rn, IStr name).

(** A new end, with a random name, for each of [m] servers.  The names go into a
slice of [size] strings. *)
Definition fresh_ends (b : base) (size m : Z) (server : Z → outcome string)
    : outcome (base * list string) :=
  let* row := make_slice size "" in
  for_each (λ '(b, row) j,
    let (b, name) := randstring b in
    let* row := set_index row j name in
    let* rn := MakeEnd (bnet b) (IStr name) in
    let* s := server j in
    Ok (set_bnet b (Enable (Connect rn (IStr name) (IStr s)) (IStr name) true), row))
    (range m) (b, row).

(** [AddServer] with a new server. *)
Definition add_server (b : base) (name : string) (srv : Server) : base :=
  let a := fresh (dom (bheap b)) in
  mkBase (AddServer (bnet b) (IStr name) a) (<[a := srv]> (bheap b)) (rng b).

(** ** Clients *)

(** [ck] is the address of the new clerk, [bigx1] and [bigx2] its random numbers. *)
Definition makeClient (cfg : config) (c : ctrler) (ck : nat) (bigx1 bigx2 : Z)
    : outcome (config * ShardKV.Clerk) :=
  let* _ := make_slice (ctl_n c) () in
  let* (b, names) := fresh_ends (bs cfg) (n cfg) (ctl_n c) (ctrlername c) in
  let ends := (λ j, IStr (default "" (names !! Z.to_nat j))) <$> range (ctl_n c) in
  Ok (mkCfg b (ctl cfg) (ngroups cfg) (n cfg) (groups cfg) (<[ck := names]> (clerks cfg))
        (nextClientId cfg + 1) (maxraftstate cfg),
      ShardKV.MakeClerk ends bigx1 bigx2).

Definition deleteClient (cfg : config) (ck : nat) : config :=
  mkCfg (bs cfg) (ctl cfg) (ngroups cfg) (n cfg) (groups cfg) (delete ck (clerks cfg))
    (nextClientId cfg) (maxraftstate cfg).

(** ** Servers of the store *)

Definition ShutdownServer (cfg : config) (gi i : Z) : outcome config :=
  let* gg := get_group cfg gi in
  let* rn := for_each (λ rn j,
      let* name := endname_at (endnames gg) i j in
      Ok (Enable rn (IStr name) false)) (range (len (kvs gg))) (bnet (bs cfg)) in
  let* mrow := index (mendnames gg) i in
  let* rn := for_each (λ rn j,
      let* name := endname_at (mendnames gg) i j in
      Ok (Enable rn (IStr name) false)) (range (len (default [] mrow))) rn in
  let rn := DeleteServer rn (IStr (servername (gid gg) i)) in
  let* p := index (saved gg) i in
  let* sv := match p with
             | Some p => set_index (saved gg) i (Some (Persister.Copy p))
             | None => Ok (saved gg)
             end in
  let* kv := index (kvs gg) i in
  let* ks := match kv with
             | Some _ => set_index (kvs gg) i None
             | None => Ok (kvs gg)
             end in
  let* gs := set_index (groups cfg) gi (Some (mkGroup (gid gg) ks sv (endnames gg) (mendnames gg))) in
  Ok (set_groups (set_bs cfg (set_bnet (bs cfg) rn)) gs).

Definition ShutdownGroup (cfg : config) (gi : Z) : outcome config :=
  for_each (λ cfg i, ShutdownServer cfg gi i) (range (n cfg)) cfg.

(** The loop that fills a row of [endnames] with random names. *)
Definition draw (b : base) (m : Z) : outcome (base * list string) :=
  let* row := make_slice m "" in
  for_each (λ '(b, row) j,
    let (b, name) := randstring b in
    let* row := set_index row j name in
    Ok (b, row)) (range m) (b, row).

(** The slice [gg.mendnames[i]] is assigned before its names are drawn; [mendnames]
has as many rows as there are controllers. *)
Definition StartServer (cfg : config) (gi i : Z) : outcome config :=
  let* gg := get_group cfg gi in
  let* (b, row) := draw (bs cfg) (n cfg) in
  let* ens := set_index (endnames gg) i (Some row) in
  let* rn := for_each (λ rn j,
      let* name := index row j in
      open_end rn name (servername (gid gg) j)) (range (n cfg)) (bnet b) in
  let* _ := index (mendnames gg) i in
  let* (b, mrow) := fresh_ends (set_bnet b rn) (ctl_n (ctl cfg)) (ctl_n (ctl cfg)) (ctrlername (ctl cfg)) in
  let* mens := set_index (mendnames gg) i (Some mrow) in
  let* p := index (saved gg) i in
  let p := match p with Some p => Persister.Copy p | None => Persister.MakePersister end in
  let* sv := set_index (saved gg) i (Some p) in
  let* kv := ShardKV.StartServer (decodeSnapshot (Some p)) i (maxraftstate cfg) (gid gg) in
  let* ks := set_index (kvs gg) i (Some kv) in
  let b := add_server b (servername (gid gg) i) kv_server in
  let* gs := set_index (groups cfg) gi (Some (mkGroup (gid gg) ks sv ens mens)) in
  Ok (set_groups (set_bs cfg b) gs).

Definition StartGroup (cfg : config) (gi : Z) : outcome config :=
  for_each (λ cfg i, StartServer cfg gi i) (range (n cfg)) cfg.

(** ** The controller *)

Definition StartCtrlerServer (b : base) (c : ctrler) (i : Z) : outcome (base * ctrler) :=
  let* (b, _) := fresh_ends b (ctl_n c) (ctl_n c) (ctrlername c) in
  let* sc := ShardCtrler.StartServer i in
  let* svs := set_index (ctl_servers c) i (Some sc) in
  let* name := ctrlername c i in
  Ok (add_server b name ctl_server, mkCtl (ctl_n c) svs (ctl_names c) (ctl_ck c)).

Definition ctrlerclerk (b : base) (c : ctrler) (bigx : Z) : outcome (base * ShardCtrler.Clerk iface) :=
  let* (b, names) := fresh_ends b (ctl_n c) (ctl_n c) (ctrlername c) in
  Ok (b, ShardCtrler.MakeClerk (IStr <$> names) bigx).

Definition StartCtrlerService (b : base) (bigx : Z) : outcome (base * ctrler) :=
  let m := 3%Z in
  let* svs := make_slice m None in
  let* names := make_slice m "" in
  let* (b, names) := for_each (λ '(b, names) i,
      let (b, name) := randstring b in
      let* names := set_index names i ("ctlr-" +:+ name) in
      Ok (b, names)) (range m) (b, names) in
  let* (b, c) := for_each (λ '(b, c) i, StartCtrlerServer b c i) (range m) (b, mkCtl m svs names None) in
  let* (b, ck) := ctrlerclerk b c bigx in
  Ok (b, mkCtl (ctl_n c) (ctl_servers c) (ctl_names c) (Some ck)).

(** The answers of the controller ([call]) and the clock ([now]) are those of the
clerk's [Join] and [Leave]. *)
Definition joinm (cfg : config) (gis : list Z) (c : ctrler)
    (call : nat → iface → ShardCtrler.JoinArgs → option ShardCtrler.AckReply) (now : nat → Z)
    (fuel : nat) : outcome (list (iface * ShardCtrler.JoinArgs) * option ()) :=
  let* m := for_each (λ m g,
      let* gg := get_group cfg g in
      let* servernames := make_slice (n cfg) "" in
      let* servernames := for_each (λ names i, set_index names i (servername (gid gg) i))
                            (range (n cfg)) servernames in
      Ok (<[gid gg := servernames]> m)) gis ∅ in
  match ctl_ck c with
  | Some ck => Ok (ShardCtrler.Join ck call now m fuel)
  | None => Crash NilDereference
  end.
Definition join (cfg : config) (gi : Z) := joinm cfg [gi] (ctl cfg).
Definition ctljoin (cfg : config) (gi : Z) (c : ctrler) := joinm cfg [gi] c.

Definition leavem (cfg : config) (gis : list Z)
    (call : nat → iface → ShardCtrler.LeaveArgs → option ShardCtrler.AckReply) (now : nat → Z)
    (fuel : nat) : outcome (list (iface * ShardCtrler.LeaveArgs) * option ()) :=
  let* gids := for_each (λ gids g, let* gg := get_group cfg g in Ok (gids ++ [gid gg])) gis [] in
  match ctl_ck (ctl cfg) with
  | Some ck => Ok (ShardCtrler.Leave ck call now gids fuel)
  | None => Crash NilDereference
  end.
Definition leave (cfg : config) (gi : Z) := leavem cfg [gi].

(** ** The test bed as a whole *)

(** A new group, all of whose servers are still nil. *)
Definition new_group (cfg : config) (gi : Z) : outcome config :=
  let* ks := make_slice (n cfg) None in
  let* sv := make_slice (n cfg) None in
  let* ens := make_slice (n cfg) None in
  let* mens := make_slice (ctl_n (ctl cfg)) None in
  let* gs := set_index (groups cfg) gi (Some (mkGroup (100 + gi) ks sv ens mens)) in
  Ok (set_groups cfg gs).

Definition make_config (n0 : Z) (unreliable : bool) (maxraftstate bigx : Z) : outcome config :=
  let* (b, c) := StartCtrlerService (mkBase MakeNetwork ∅ 0) bigx in
  let* gs := make_slice 3 None in
  let cfg := mkCfg b c 3 n0 gs ∅ 0 maxraftstate in
  let* cfg := for_each (λ cfg gi,
      let* cfg := new_group cfg gi in
      for_each (λ cfg i, StartServer cfg gi i) (range (n cfg)) cfg) (range (ngroups cfg)) cfg in
  Ok (mkCfg (set_bnet (bs cfg) (Reliable (bnet (bs cfg)) (negb unreliable))) (ctl cfg) (ngroups cfg)
        (n cfg) (groups cfg) ∅ (n cfg + 1000) maxraftstate).

Definition cleanup (cfg : config) (failed : bool) (elapsed : Z) : outcome config :=
  let* cfg := for_each ShutdownGroup (range (ngroups cfg)) cfg in
  let* svs := for_each (λ svs i,
      let* s := index svs i in
      match s with
      | Some s => set_index svs i (Some (ShardCtrler.Kill s))
      | None => Crash NilDereference
      end) (range (ctl_n (ctl cfg))) (ctl_servers (ctl cfg)) in
  let c := mkCtl (ctl_n (ctl cfg)) svs (ctl_names (ctl cfg)) (ctl_ck (ctl cfg)) in
  let* rn := Cleanup (bnet (bs cfg)) in
  let* _ := checkTimeout failed elapsed in
  Ok (mkCfg (set_bnet (bs cfg) rn) c (ngroups cfg) (n cfg) (groups cfg) (clerks cfg) (nextClientId cfg) (maxraftstate cfg)).

End bed.
End KvHarness.
