(* ===== verification/WireTypes.v ===== *)
(** * The types that go over the wire

The types of the arguments and replies of every RPC of the program, of what Raft
logs and of what the testers encode, as [Labgob] sees them through [reflect]
([src/raft/raft.go], [src/shardctrler], [src/shardkv]), and the methods of the three
servers as [MakeService] sees them.  The theorems say what the checks of [labgob.go]
do on these types, over any sequence of operations: that they never end the process,
which fields they complain of, and when they warn; and that every call of the clerks
names a handler that takes the types the call sends. *)

From S2P Require Import Prelude GoStrings Labrpc Labgob KvHarness.
From stdpp Require Import options.
Import Labgob.

Module WireTypes.

(** ** The types *)

Inductive gotype :=
| TBool | TInt | TInt64 | TUint64 | TUint8 | TString | TInterface
(* package time *)
| TTime | TLocation | TLocationPtr | TZone | TZones | TZonePtr | TZoneTrans | TZoneTranss
(* unnamed types *)
| TBytes | TInts | TStrings | TInterfaces | TServers | TShards | TStringMap | TShardData | TAck
(* package raft *)
| TLogEntry | TLogEntries
| TInstallSnapshotArgs | TInstallSnapshotReply
| TRequestVoteArgs | TRequestVoteReply
| TAppendEntriesArgs | TAppendEntriesReply
(* package shardctrler *)
| TConfig | TCtrlErr | TCtrlOp
| TJoinArgs | TJoinReply | TLeaveArgs | TLeaveReply
| TMoveArgs | TMoveReply | TQueryArgs | TQueryReply
(* package shardkv *)
| TKvErr | TKvOp
| TPutAppendArgs | TPutAppendReply | TGetArgs | TGetReply
| TTransferShardArgs | TTransferShardReply | TDeleteShardArgs | TDeleteShardReply.

Global Instance gotype_eq_dec : EqDecision gotype.
Proof. solve_decision. Defined.

(** Every type above, its pointer and the pointer to that have a number. *)
Definition named : list gotype :=
  [TBool; TInt; TInt64; TUint64; TUint8; TString; TInterface;
   TTime; TLocation; TLocationPtr; TZone; TZones; TZonePtr; TZoneTrans; TZoneTranss;
   TBytes; TInts; TStrings; TInterfaces; TServers; TShards; TStringMap; TShardData; TAck;
   TLogEntry; TLogEntries; TInstallSnapshotArgs; TInstallSnapshotReply;
   TRequestVoteArgs; TRequestVoteReply; TAppendEntriesArgs; TAppendEntriesReply;
   TConfig; TCtrlErr; TCtrlOp; TJoinArgs; TJoinReply; TLeaveArgs; TLeaveReply;
   TMoveArgs; TMoveReply; TQueryArgs; TQueryReply;
   TKvErr; TKvOp; TPutAppendArgs; TPutAppendReply; TGetArgs; TGetReply;
   TTransferShardArgs; TTransferShardReply; TDeleteShardArgs; TDeleteShardReply].

Definition id (t : gotype) : tid := default 0 (fst <$> list_find (eq t) named).
Definition ptr (t : gotype) : tid := length named + id t.
Definition pointer (t : tid) : tid := length named + t.

Definition struct (fields : list (string * gotype)) : kind := KStruct (prod_map Datatypes.id id <$> fields).

(** *** Package time *)

Definition Time : kind := struct [("wall", TUint64); ("ext", TInt64); ("loc", TLocationPtr)].
Definition Location : kind :=
  struct [("name", TString); ("zone", TZones); ("tx", TZoneTranss); ("extend", TString);
          ("cacheStart", TInt64); ("cacheEnd", TInt64); ("cacheZone", TZonePtr)].
Definition zone : kind := struct [("name", TString); ("offset", TInt); ("isDST", TBool)].
Definition zoneTrans : kind := struct [("when", TInt64); ("index", TUint8); ("isstd", TBool); ("isutc", TBool)].

(** *** Package raft *)

Definition LogEntry : kind := struct [("Term", TInt); ("Command", TInterface)].
Definition InstallSnapshotArgs : kind :=
  struct [("Term", TInt); ("LeaderId", TInt); ("LastIncludeIndex", TInt); ("LastIncludeTerm", TInt);
          ("Data", TBytes)].
Definition InstallSnapshotReply : kind := struct [("Term", TInt)].
Definition RequestVoteArgs : kind :=
  struct [("Term", TInt); ("CandidateId", TInt); ("LastLogIndex", TInt); ("LastLogTerm", TInt)].
Definition RequestVoteReply : kind := struct [("Term", TInt); ("VoteGranted", TBool)].
Definition AppendEntriesArgs : kind :=
  struct [("Term", TInt); ("LeaderId", TInt); ("PrevLogIndex", TInt); ("PrevLogTerm", TInt);
          ("LeaderCommit", TInt); ("Entries", TLogEntries)].
Definition AppendEntriesReply : kind :=
  struct [("Term", TInt); ("Success", TBool); ("ConflictIndex", TInt); ("ConflictTerm", TInt)].

(** *** Package shardctrler *)

Definition Config : kind := struct [("Num", TInt); ("Shards", TShards); ("Groups", TServers)].
Definition JoinArgs : kind := struct [("Servers", TServers); ("ClientId", TInt64); ("TimeStamp", TTime)].
Definition JoinReply : kind := struct [("WrongLeader", TBool); ("Err", TCtrlErr)].
Definition LeaveArgs : kind := struct [("GIDs", TInts); ("ClientId", TInt64); ("TimeStamp", TTime)].
Definition LeaveReply : kind := struct [("WrongLeader", TBool); ("Err", TCtrlErr)].
Definition MoveArgs : kind :=
  struct [("Shard", TInt); ("GID", TInt); ("ClientId", TInt64); ("TimeStamp", TTime)].
Definition MoveReply : kind := struct [("WrongLeader", TBool); ("Err", TCtrlErr)].
Definition QueryArgs : kind := struct [("Num", TInt); ("ClientId", TInt64); ("TimeStamp", TTime)].
Definition QueryReply : kind := struct [("WrongLeader", TBool); ("Err", TCtrlErr); ("Config", TConfig)].
Definition CtrlOp : kind :=
  struct [("Command", TString); ("ArgsJoin", TServers); ("ArgsLeave", TInts); ("ArgsMoveShard", TInt);
          ("ArgsMoveGid", TInt); ("ArgsQuery", TInt); ("ReplyQuery", TConfig); ("ClientId", TInt64);
          ("TimeStamp", TTime)].

(** *** Package shardkv *)

Definition PutAppendArgs : kind :=
  struct [("Key", TString); ("Value", TString); ("Op", TString); ("ClientId", TInt64); ("TimeStamp", TTime)].
Definition PutAppendReply : kind := struct [("Config", TConfig); ("Err", TKvErr)].
Definition GetArgs : kind := struct [("Key", TString); ("ClientId", TInt64); ("TimeStamp", TTime)].
Definition GetReply : kind := struct [("Err", TKvErr); ("Value", TString)].
Definition KvOp : kind :=
  struct [("Op", TString); ("Key", TString); ("Value", TString); ("ClientId", TInt64); ("TimeStamp", TTime);
          ("Config", TConfig); ("ShardId", TInt); ("ConfigNum", TInt); ("ShardIds", TInts);
          ("ShardData", TShardData); ("Ack", TAck)].
Definition TransferShardArgs : kind := struct [("Num", TInt); ("ShardIds", TInts)].
Definition TransferShardReply : kind := struct [("Err", TKvErr); ("ShardData", TShardData); ("Ack", TAck)].
Definition DeleteShardArgs : kind := struct [("Num", TInt); ("ShardIds", TInts)].
Definition DeleteShardReply : kind := struct [("Err", TKvErr)].

Definition kind_of (t : gotype) : kind :=
  match t with
  | TBool | TInt | TInt64 | TUint64 | TUint8 | TString | TInterface | TCtrlErr | TKvErr => KOther
  | TTime => Time | TLocation => Location | TZone => zone | TZoneTrans => zoneTrans
  | TLocationPtr => KPtr (id TLocation) | TZonePtr => KPtr (id TZone)
  | TZones => KSlice (id TZone) | TZoneTranss => KSlice (id TZoneTrans)
  | TBytes => KSlice (id TUint8) | TInts => KSlice (id TInt) | TStrings => KSlice (id TString)
  | TInterfaces => KSlice (id TInterface)
  | TServers => KMap (id TInt) (id TStrings) | TShards => KArray (id TInt)
  | TStringMap => KMap (id TString) (id TString) | TShardData => KArray (id TStringMap)
  | TAck => KMap (id TInt64) (id TTime)
  | TLogEntry => LogEntry | TLogEntries => KSlice (id TLogEntry)
  | TInstallSnapshotArgs => InstallSnapshotArgs | TInstallSnapshotReply => InstallSnapshotReply
  | TRequestVoteArgs => RequestVoteArgs | TRequestVoteReply => RequestVoteReply
  | TAppendEntriesArgs => AppendEntriesArgs | TAppendEntriesReply => AppendEntriesReply
  | TConfig => Config | TCtrlOp => CtrlOp
  | TJoinArgs => JoinArgs | TJoinReply => JoinReply | TLeaveArgs => LeaveArgs | TLeaveReply => LeaveReply
  | TMoveArgs => MoveArgs | TMoveReply => MoveReply | TQueryArgs => QueryArgs | TQueryReply => QueryReply
  | TKvOp => KvOp | TPutAppendArgs => PutAppendArgs | TPutAppendReply => PutAppendReply
  | TGetArgs => GetArgs | TGetReply => GetReply
  | TTransferShardArgs => TransferShardArgs | TTransferShardReply => TransferShardReply
  | TDeleteShardArgs => DeleteShardArgs | TDeleteShardReply => DeleteShardReply
  end.

Definition types : list kind :=
  (kind_of <$> named) ++ (KPtr <$> seq 0 (2 * length named)).

#[global] Arguments types : simpl never.
#[global] Arguments id : simpl never.

(** ** Methods *)

(** A method as [reflect] has it: the types of its arguments after the receiver, and
the number of its results. *)
Record gomethod := { gm_name : string; gm_in : list tid; gm_out : Z }.

Definition Raft_methods : list gomethod :=
  [ {| gm_name := "AppendEntries"; gm_in := [ptr TAppendEntriesArgs; ptr TAppendEntriesReply]; gm_out := 0 |};
    {| gm_name := "GetRaftStateSize"; gm_in := []; gm_out := 1 |};
    {| gm_name := "GetState"; gm_in := []; gm_out := 2 |};
    {| gm_name := "InstallSnapshot"; gm_in := [ptr TInstallSnapshotArgs; ptr TInstallSnapshotReply]; gm_out := 0 |};
    {| gm_name := "Kill"; gm_in := []; gm_out := 0 |};
    {| gm_name := "ReadSnapshot"; gm_in := []; gm_out := 1 |};
    {| gm_name := "RequestVote"; gm_in := [ptr TRequestVoteArgs; ptr TRequestVoteReply]; gm_out := 0 |};
    {| gm_name := "Snapshot"; gm_in := [id TInt; id TBytes]; gm_out := 0 |};
    {| gm_name := "Start"; gm_in := [id TInterface]; gm_out := 3 |} ].

Definition ShardCtrler_methods : list gomethod :=
  [ {| gm_name := "Join"; gm_in := [ptr TJoinArgs; ptr TJoinReply]; gm_out := 0 |};
    {| gm_name := "Kill"; gm_in := []; gm_out := 0 |};
    {| gm_name := "Leave"; gm_in := [ptr TLeaveArgs; ptr TLeaveReply]; gm_out := 0 |};
    {| gm_name := "Move"; gm_in := [ptr TMoveArgs; ptr TMoveReply]; gm_out := 0 |};
    {| gm_name := "Query"; gm_in := [ptr TQueryArgs; ptr TQueryReply]; gm_out := 0 |};
    {| gm_name := "Raft"; gm_in := []; gm_out := 1 |} ].

Definition ShardKV_methods : list gomethod :=
  [ {| gm_name := "DeleteShard"; gm_in := [ptr TDeleteShardArgs; ptr TDeleteShardReply]; gm_out := 0 |};
    {| gm_name := "Get"; gm_in := [ptr TGetArgs; ptr TGetReply]; gm_out := 0 |};
    {| gm_name := "Kill"; gm_in := []; gm_out := 0 |};
    {| gm_name := "PutAppend"; gm_in := [ptr TPutAppendArgs; ptr TPutAppendReply]; gm_out := 0 |};
    {| gm_name := "TransferShard"; gm_in := [ptr TTransferShardArgs; ptr TTransferShardReply]; gm_out := 0 |} ].

(** What [MakeService] asks of a method; [reflect] lists the exported ones only. *)
Definition reflected (m : gomethod) : Labrpc.method :=
  {| Labrpc.m_name := gm_name m; Labrpc.m_exported := true; Labrpc.m_numIn := 1 + len (gm_in m);
     Labrpc.m_in2_ptr := if gm_in m !! 1 ≫= (types !!.) is Some (KPtr _) then true else false;
     Labrpc.m_numOut := gm_out m |}.

(** The calls of the clerks: the method, and the types of arguments and reply. *)
Definition ctrl_calls : list (string * tid * tid) :=
  [("ShardCtrler.Query", ptr TQueryArgs, ptr TQueryReply); ("ShardCtrler.Join", ptr TJoinArgs, ptr TJoinReply);
   ("ShardCtrler.Leave", ptr TLeaveArgs, ptr TLeaveReply); ("ShardCtrler.Move", ptr TMoveArgs, ptr TMoveReply)].
Definition kv_calls : list (string * tid * tid) :=
  [("ShardKV.Get", ptr TGetArgs, ptr TGetReply); ("ShardKV.PutAppend", ptr TPutAppendArgs, ptr TPutAppendReply)].

(** The handlers a list of methods has. *)
Definition handlers (ms : list gomethod) : list gomethod := filter (λ m, Labrpc.is_handler (reflected m) = true) ms.

(** What is encoded, or registered, and what is decoded into, by type: [Call] encodes a
pointer to the arguments and decodes into a pointer to the reply, [dispatch] decodes
into a pointer to the pointer to the arguments and encodes a pointer to the reply;
[StartServer] registers an [Op]; the tester of Raft encodes and decodes an index
and a log. *)
Definition all_handlers : list gomethod := handlers (Raft_methods ++ ShardCtrler_methods ++ ShardKV_methods).
Definition encoded : list tid :=
  (all_handlers ≫= gm_in) ++ [id TCtrlOp; id TKvOp; id TInt; id TInterfaces].
Definition decoded_into : list tid :=
  (all_handlers ≫= λ m, match gm_in m with [a; r] => [pointer a; r] | _ => [] end) ++ [ptr TInt; ptr TInterfaces].

(** The types of package time. *)
Definition time_types : list tid := [id TTime; id TLocation; id TZone; id TZoneTrans].

(** ** Values of a type *)

Section checks.
Context (unicode_upper : string → bool) (tbl : list kind).

Definition field_visibility (name : string) : visibility :=
  if first_upper unicode_upper name then Exported else Unexported.

(** The first [levels] levels of a value are as its type says. *)
Fixpoint shaped (levels : nat) (t : tid) (v : value) : Prop :=
  match levels with
  | O => True
  | S levels =>
      match default KOther (tbl !! t), v with
      | KStruct fields, VStruct vs =>
          Forall2 (λ f x, x.1 = (f.1, field_visibility f.1) ∧ shaped levels f.2 x.2) fields vs
      | KPtr e, VPtr o => if o is Some v then shaped levels e v else True
      | KSlice _, VOther | KArray _, VOther | KMap _ _, VOther => True
      | KOther, VBasic _ _ | KOther, VOther => True
      | _, _ => False
      end
  end.

(** No basic value lies behind an unexported field. *)
Fixpoint safe (levels : nat) (r : ro) (t : tid) : bool :=
  match levels with
  | O => true
  | S levels =>
      match default KOther (tbl !! t) with
      | KStruct fields => forallb (λ f, safe levels (field_ro r (field_visibility f.1)) f.2) fields
      | KPtr e => safe levels r e
      | KSlice _ | KArray _ | KMap _ _ => true
      | KOther => negb (is_ro r)
      end
  end.

Lemma safe_leaves levels r t v name :
  safe levels r t = true → shaped levels t v → Forall (λ l, is_ro (lf_ro l) = false) (leaves levels r v name).
Proof.
  revert r t v name. induction levels as [|levels IH]; intros r t v name Hs Hv; [done|]. cbn in *.
  destruct (default KOther (tbl !! t)) as [fields|e|e|e|k e|], v as [vs|[v|]|tname zero|]; try done.
  - apply Forall_bind. induction Hv as [|[fn ft] [x v] fields vs [E Hv] _ IHv]; [constructor|]. cbn in E, Hs. subst x.
    apply andb_prop in Hs as [Hs1 Hs2]. constructor; [by apply (IH _ ft)|by apply IHv].
  - by eapply IH.
  - apply Forall_singleton. cbn. by apply negb_true_iff.
Qed.

(** ** Sequences of operations *)

(** An operation on a value, with its type. *)
Inductive wire_op :=
| WEncode (t : tid) (v : value)
| WDecode (t : tid) (v : value)
| WRegister (t : tid) (v : value).

Definition op_type (o : wire_op) : tid := match o with WEncode t _ | WDecode t _ | WRegister t _ => t end.
Definition decoded (o : wire_op) : list leaf :=
  match o with WDecode _ v => leaves 3 writable v "" | _ => [] end.

Definition wire_step (st : state) (o : wire_op) : option (outcome state) :=
  let fuel := S (length tbl) in
  fmap (λ o : outcome (state * ()), let* (st, _) := o in Ok st)
    match o with
    | WEncode t v => Encode unicode_upper tbl (λ _, ()) fuel (Some (t, v)) st
    | WDecode t v => Decode unicode_upper tbl (λ _, ()) fuel (Some (t, v)) st
    | WRegister t v => Register unicode_upper tbl (λ _, ()) fuel (Some (t, v)) st
    end.

Fixpoint wire_run (st : state) (ops : list wire_op) : option (outcome state) :=
  match ops with
  | [] => Some (Ok st)
  | o :: ops => match wire_step st o with
                | Some (Ok st) => wire_run st ops
                | r => r
                end
  end.

(** What is not zero in the values that are decoded into. *)
Definition used (ops : list wire_op) : list leaf := ops ≫= λ o, nondefault (decoded o).

Context (encs decs : list tid).

(** The value that is decoded into is one of its type. *)
Definition op_ok (o : wire_op) : Prop :=
  match o with
  | WEncode t _ | WRegister t _ => t ∈ encs
  | WDecode t v => t ∈ decs ∧ shaped 3 t v
  end.

(** The lower-case fields of all types of the table. *)
Definition all_lower : list (tid * string) := lower_of unicode_upper tbl (set_seq 0 (length tbl)).

Record wire_inv (k : nat) (st : state) : Prop := {
  wi_table : ∀ u, u ∈ checked st → u < length tbl;
  wi_complaints : complaints st ≡ₚ lower_of unicode_upper tbl (checked st);
  wi_count : errorCount st = Z.of_nat (length (complaints st) + k) }.

Lemma init_wire_inv : wire_inv 0 init.
Proof. split; cbn; [set_solver|done|done]. Qed.

Lemma lower_of_length (c d : gset tid) : c ⊆ d →
  length (lower_of unicode_upper tbl c) ≤ length (lower_of unicode_upper tbl d).
Proof.
  intros Hs. rewrite (union_difference_L _ _ Hs), lower_of_union by set_solver. rewrite length_app. lia.
Qed.

Lemma wire_complaints_bound k st : wire_inv k st → length (complaints st) ≤ length all_lower.
Proof.
  intros [Ht Hc _]. rewrite Hc. apply lower_of_length. intros u Hu. apply elem_of_set_seq.
  specialize (Ht u Hu). lia.
Qed.

Hypothesis Htable : table_ok tbl.

(** [checkType] on one of the types. *)
Lemma check_root k st t :
  wire_inv k st → t < length tbl → (Z.of_nat (length all_lower + k) < 2 ^ 63)%Z →
  ∃ st', checkType unicode_upper tbl (S (length tbl)) st t = Some st' ∧ wire_inv k st' ∧
    visits unicode_upper tbl st [t] [] st'.
Proof using Htable.
  intros Hi Hlt Hmax.
  destruct (checkType_visits unicode_upper tbl (S (length tbl)) st t Htable Hlt) as (st' & E & V); [apply Hi|lia|].
  exists st'. split_and!; [done| |done]. pose proof (wire_complaints_bound _ _ Hi) as Hb.
  destruct (v_complaints _ _ _ _ _ _ V) as (new & En & P & C). cbn in P.
  assert (complaints st' ≡ₚ lower_of unicode_upper tbl (checked st')) as Hc.
  { rewrite (union_difference_L _ _ (v_mono _ _ _ _ _ _ V)), lower_of_union by set_solver.
    by rewrite En, P, (wi_complaints _ _ Hi). }
  assert (∀ u, u ∈ checked st' → u < length tbl) as Htab by by apply (v_table _ _ _ _ _ _ V), Hi.
  split; [done|done|].
  assert (length (complaints st') ≤ length all_lower) as Hb'.
  { rewrite Hc. apply lower_of_length. intros u Hu. apply elem_of_set_seq. specialize (Htab u Hu). lia. }
  rewrite En, length_app in *. rewrite C; rewrite (wi_count _ _ Hi).
  - unfold int64. rewrite wrap_signed_small by lia. lia.
  - apply wrap_signed_small; lia.
Qed.

Hypothesis Hencs : Forall (λ t, t < length tbl) encs.
Hypothesis Hdecs : Forall (λ t, t < length tbl ∧ safe 3 writable t = true) decs.

Lemma step_wire k st o :
  wire_inv k st → op_ok o →
  (Z.of_nat (length all_lower + k + length (nondefault (decoded o))) < 2 ^ 63)%Z →
  ∃ st', wire_step st o = Some (Ok st') ∧ wire_inv (k + length (nondefault (decoded o))) st' ∧
    checked st ⊆ checked st' ∧ op_type o ∈ checked st' ∧
    warnings st' = warnings st ++
      (if decide (errorCount st' = Z.of_nat (length (nondefault (decoded o))))
       then option_list (leaf_what <$> head (nondefault (decoded o))) else []).
Proof using Htable Hencs Hdecs.
  intros Hi Ho Hmax. rewrite Forall_forall in Hencs, Hdecs.
  assert (op_type o < length tbl) as Hlt by (destruct o; cbn in Ho; [auto|by apply Hdecs, (proj1 Ho)|auto]).
  destruct (check_root k st (op_type o) Hi Hlt) as (st1 & E & Hi1 & V); [lia|].
  pose proof (v_mono _ _ _ _ _ _ V) as Hm. pose proof (v_warnings _ _ _ _ _ _ V) as Hw.
  assert (op_type o ∈ checked st1) as Hin by (apply (v_targets _ _ _ _ _ _ V); set_solver).
  destruct o as [t v|t v|t v]; cbn [op_type decoded] in *; unfold wire_step, Encode, Decode, Register, checkValue;
    rewrite E; cbn [fmap option_fmap option_map].
  1,3: exists st1; rewrite Nat.add_0_r; split_and!; try done; rewrite Hw; case_decide; cbn; by rewrite app_nil_r.
  destruct Ho as [Ht Hv]. destruct (Hdecs t Ht) as [_ Hs].
  pose proof (wire_complaints_bound _ _ Hi1) as Hb. pose proof (wi_count _ _ Hi1) as Hc.
  unfold checkDefault. cbn [bind]. rewrite checkDefault1_leaves, leaves_ok; [|by eapply safe_leaves|lia|lia].
  eexists. split; [done|]. cbn. destruct Hi1 as [H1 H2 _]. split_and!; [split; cbn; [done|done|lia]|done|done|].
  rewrite Hw. do 2 case_decide; try done; lia.
Qed.

Lemma run_wire k st ops :
  wire_inv k st → Forall op_ok ops →
  (Z.of_nat (length all_lower + k + length (used ops)) < 2 ^ 63)%Z →
  ∃ st' w, wire_run st ops = Some (Ok st') ∧ wire_inv (k + length (used ops)) st' ∧
    checked st ⊆ checked st' ∧ (∀ o, o ∈ ops → op_type o ∈ checked st') ∧
    warnings st' = warnings st ++ w ∧ (errorCount st ≤ errorCount st')%Z ∧
    (used ops = [] ∨ (0 < errorCount st)%Z → w = []) ∧ length w ≤ 1.
Proof using Htable Hencs Hdecs.
  intros Hi Hops. revert k st Hi. induction Hops as [|o ops Ho Hops IH]; intros k st Hi Hmax.
  { exists st, []. cbn. rewrite Nat.add_0_r, app_nil_r. split_and!; try done; [set_solver|lia]. }
  unfold used in *. rewrite bind_cons, length_app in *.
  destruct (step_wire k st o Hi Ho) as (st1 & E & Hi1 & Hm & Hin & Hw); [lia|].
  pose proof (wi_count _ _ Hi) as Hc. pose proof (wi_count _ _ Hi1) as Hc1.
  destruct (IH _ st1 Hi1) as (st2 & w & E2 & Hi2 & Hm2 & Hin2 & Hw2 & Hle & Hq & Hone); [lia|].
  assert (length (complaints st) ≤ length (complaints st1)) as Hlen.
  { rewrite (Permutation_length (wi_complaints _ _ Hi)), (Permutation_length (wi_complaints _ _ Hi1)).
    by apply lower_of_length. }
  eexists st2, (_ ++ w). cbn [wire_run]. rewrite E. split_and!.
  - done.
  - by rewrite Nat.add_assoc.
  - set_solver.
  - intros o' [->|?]%elem_of_cons; [set_solver|auto].
  - by rewrite Hw2, Hw, <-app_assoc.
  - lia.
  - destruct (nondefault (decoded o)) as [|l ls] eqn:El; cbn in Hc1 |- *.
    + intros Hor. rewrite Hq by (destruct Hor; [by left|right; lia]). by destruct (decide _).
    + intros [?|?]; [done|]. rewrite decide_False, Hq by (right || idtac; lia). done.
  - destruct (nondefault (decoded o)) as [|l ls] eqn:El; cbn in Hc1 |- *; [destruct (decide _); exact Hone|].
    rewrite Hq by (right; lia). rewrite app_nil_r. destruct (decide _); cbn; lia.
Qed.
End checks.

(** ** The types of the program *)

Definition all_types : list tid := seq 0 (length types).

Lemma all_types_forallb (P : tid → bool) t : forallb P all_types = true → t < length types → P t = true.
Proof. intros H Ht. rewrite forallb_forall in H. apply H, list_elem_of_In, elem_of_seq. lia. Qed.

Lemma types_table_ok : table_ok types.
Proof.
  assert (forallb (λ t, forallb (λ u, u <? length types) (succs types t)) all_types = true) as H
    by (vm_compute; reflexivity).
  intros t u Ht Hu. apply Nat.ltb_lt. apply (all_types_forallb _ t) in H; [|done].
  rewrite forallb_forall in H. by apply H, list_elem_of_In.
Qed.

Lemma encoded_ok : Forall (λ t, t < length types) encoded.
Proof.
  apply Forall_forall. intros t Ht. apply Nat.ltb_lt.
  assert (forallb (λ t, t <? length types) encoded = true) as H by (vm_compute; reflexivity).
  rewrite forallb_forall in H. by apply H, list_elem_of_In.
Qed.

Lemma decoded_into_ok uu : Forall (λ t, t < length types ∧ safe uu types 3 writable t = true) decoded_into.
Proof.
  assert (forallb (λ t, (t <? length types) && safe uu types 3 writable t) decoded_into = true) as H
    by (vm_compute; reflexivity).
  apply Forall_forall. intros t Ht. rewrite forallb_forall in H.
  apply list_elem_of_In, H, andb_prop in Ht as [?%Nat.ltb_lt ?]. done.
Qed.

(** The lower-case fields of the table are those of package time, each once. *)
Lemma lower_time uu t : t < length types →
  (lower_fields uu types t = [] ∨ t ∈ time_types) ∧ NoDup (lower_fields uu types t).
Proof.
  assert (forallb (λ t, (bool_decide (lower_fields uu types t = []) || bool_decide (t ∈ time_types)) &&
    bool_decide (NoDup (lower_fields uu types t))) all_types = true) as H by (vm_compute; reflexivity).
  intros Ht. apply (all_types_forallb _ t) in H; [|done]. rewrite andb_true_iff, orb_true_iff, !bool_decide_eq_true in H. done.
Qed.

Lemma lower_fields_own uu tbl t x : x ∈ lower_fields uu tbl t → x.1 = t.
Proof.
  unfold lower_fields. destruct (default KOther (tbl !! t)) as [fields| | | | |]; try (by intros ?%not_elem_of_nil).
  by intros ([n u] & -> & _)%list_elem_of_fmap.
Qed.

Lemma lower_of_time uu (c : gset tid) : (∀ u, u ∈ c → u < length types) →
  NoDup (lower_of uu types c) ∧ ∀ t f, (t, f) ∈ lower_of uu types c → t ∈ time_types.
Proof.
  intros Hc. split.
  - apply NoDup_bind; [|intros t Ht%elem_of_elements; by apply lower_time, Hc|apply NoDup_elements].
    intros t1 t2 x _ _ H1%lower_fields_own H2%lower_fields_own. congruence.
  - intros t f Hin. apply list_elem_of_bind in Hin as (u & Hf & Hu%elem_of_elements).
    destruct (lower_time uu u (Hc u Hu)) as [[E|?] _]; [rewrite E in Hf; set_solver|].
    apply lower_fields_own in Hf. cbn in Hf. by subst.
Qed.

Lemma all_lower_length uu : length (all_lower uu types) = 17.
Proof. vm_compute. reflexivity. Qed.

(** C25. The types of the program are fit for [labgob], but for the time stamps.  Whatever
values of them are encoded, decoded into or registered, in whatever order, no
operation ends the process (although decoding into a [time.Time] alone would); the
only fields complained of are those inside [time.Time], each at most once; and a
warning is printed once at most, and only if something is decoded into a value that
is not zero. *)
Theorem wire_operations uu ops :
  Forall (op_ok uu types encoded decoded_into) ops → (17 + Z.of_nat (length (used ops)) < 2 ^ 63)%Z →
  ∃ st, wire_run uu types init ops = Some (Ok st) ∧
    NoDup (complaints st) ∧ (∀ t f, (t, f) ∈ complaints st → t ∈ time_types) ∧
    errorCount st = Z.of_nat (length (complaints st) + length (used ops)) ∧
    (used ops = [] → warnings st = []) ∧ length (warnings st) ≤ 1.
Proof.
  intros Hops Hmax.
  destruct (run_wire uu types encoded decoded_into types_table_ok encoded_ok (decoded_into_ok uu) 0 init ops)
    as (st & w & E & [Ht Hc Hn] & _ & _ & Hw & _ & Hq & Hone);
    [apply init_wire_inv|done|rewrite all_lower_length; lia|].
  destruct (lower_of_time uu (checked st) Ht) as [Hnd Hin]. exists st.
  cbn in Hw. rewrite Hw. split_and!; [done|by rewrite Hc|intros t f; rewrite Hc; apply Hin|done|auto|done].
Qed.

(** C40. A process that has started a server of the controller or of the store is never
warned of decoding into a value that is not zero: registering [Op] makes [labgob]
complain of the 17 fields behind its time stamp, and a warning is printed only while
nothing has been reported. *)
Theorem server_never_warned uu op v ops :
  op = TCtrlOp ∨ op = TKvOp →
  Forall (op_ok uu types encoded decoded_into) ops → (17 + Z.of_nat (length (used ops)) < 2 ^ 63)%Z →
  ∃ st, wire_run uu types init (WRegister (id op) v :: ops) = Some (Ok st) ∧
    warnings st = [] ∧ length (complaints st) = 17 ∧
    errorCount st = (17 + Z.of_nat (length (used ops)))%Z.
Proof.
  intros Hop Hops Hmax.
  assert (op_ok uu types encoded decoded_into (WRegister (id op) v)) as Ho.
  { apply (bool_decide_eq_true_1 (id op ∈ encoded)). destruct Hop as [->| ->]; vm_compute; reflexivity. }
  destruct (step_wire uu types encoded decoded_into types_table_ok encoded_ok (decoded_into_ok uu) 0 init _ (init_wire_inv uu types) Ho)
    as (st1 & E & Hi & _ & _ & Hw1); [rewrite all_lower_length; cbn; lia|].
  assert (errorCount st1 = 17%Z) as H17.
  { assert (fmap (λ o, match o with Ok st => errorCount st | Crash _ => 0%Z end)
      (wire_step uu types init (WRegister (id op) v)) = Some 17%Z) as H
      by (destruct Hop as [->| ->]; vm_compute; reflexivity).
    rewrite E in H. by injection H. }
  destruct (run_wire uu types encoded decoded_into types_table_ok encoded_ok (decoded_into_ok uu) _ st1 ops Hi Hops)
    as (st & w & E2 & Hi2 & Hm & _ & Hw & _ & Hq & _); [rewrite all_lower_length; cbn; lia|].
  pose proof (wire_complaints_bound _ _ _ _ Hi2) as Hb. rewrite all_lower_length in Hb.
  pose proof (lower_of_length uu types _ _ Hm) as Hl. cbn [decoded] in Hi, Hi2.
  change (nondefault []) with (@nil leaf) in Hi, Hi2. cbn [length] in Hi, Hi2.
  rewrite <-(wi_complaints _ _ _ _ Hi), <-(wi_complaints _ _ _ _ Hi2) in Hl.
  pose proof (wi_count _ _ _ _ Hi) as Hc1. pose proof (wi_count _ _ _ _ Hi2) as Hc.
  exists st. cbn [wire_run]. rewrite E. split_and!; [done| |lia|lia].
  rewrite Hw, Hq, Hw1 by (right; lia). cbn [decoded]. by destruct (decide _).
Qed.

(** ** Calls and handlers *)

(** A method of the list that takes these types. *)
Definition takes (ms : list gomethod) (name : string) (a r : tid) : bool :=
  existsb (λ m, bool_decide (gm_name m = name) && bool_decide (gm_in m = [a; r])) ms.

Definition called (rs : Labrpc.Server) (ms : list gomethod) (service : string) (c : string * tid * tid) : bool :=
  match Labrpc.Server_dispatch rs c.1.1 with
  | Ok (_, (svc, m)) => bool_decide (svc = service) && takes ms m c.1.2 c.2
  | Crash _ => false
  end.

(** Every call of the clerks finds its handler: [MakeService] makes handlers of exactly
the RPC methods of the three types, the servers of the testers find the method that a
clerk names, and the method takes the very types that the clerk sends and expects, so
that neither [function.Call] nor the decoder can fail on them. *)
Theorem calls_dispatched :
  (reflected <$> Raft_methods) ≡ₚ KvHarness.rf_methods ∧
  (reflected <$> ShardCtrler_methods) ≡ₚ KvHarness.ctl_methods ∧
  (reflected <$> ShardKV_methods) ≡ₚ KvHarness.kv_methods ∧
  gm_name <$> handlers Raft_methods = ["AppendEntries"; "InstallSnapshot"; "RequestVote"] ∧
  gm_name <$> handlers ShardCtrler_methods = ["Join"; "Leave"; "Move"; "Query"] ∧
  gm_name <$> handlers ShardKV_methods = ["DeleteShard"; "Get"; "PutAppend"; "TransferShard"] ∧
  forallb (called KvHarness.ctl_server ShardCtrler_methods "ShardCtrler") ctrl_calls = true ∧
  forallb (called KvHarness.kv_server ShardKV_methods "ShardKV") kv_calls = true.
Proof.
  split_and!; try (vm_compute; reflexivity); vm_compute; solve_Permutation.
Qed.

(** ** Examples *)

(** The calls of a query: the clerk encodes its arguments, the server decodes them and
encodes the reply, the clerk decodes it, into a variable that was used before. *)
Definition demo_stamp (uu : string → bool) : value :=
  VStruct [("wall", field_visibility uu "wall", VBasic "uint64" false);
           ("ext", field_visibility uu "ext", VBasic "int64" false);
           ("loc", field_visibility uu "loc", VPtr None)].
Definition demo_query (uu : string → bool) : value :=
  VPtr (Some (VStruct [("Num", Exported, VBasic "int" false); ("ClientId", Exported, VBasic "int64" false);
                       ("TimeStamp", Exported, demo_stamp uu)])).
Definition demo_reply (wrong : bool) : value :=
  VPtr (Some (VStruct [("WrongLeader", Exported, VBasic "bool" (negb wrong)); ("Err", Exported, VBasic "Err" true);
                       ("Config", Exported, VStruct [("Num", Exported, VBasic "int" true);
                         ("Shards", Exported, VOther); ("Groups", Exported, VOther)])])).
Definition demo_ops (uu : string → bool) (wrong : bool) : list wire_op :=
  [WEncode (ptr TQueryArgs) (demo_query uu); WDecode (pointer (ptr TQueryArgs)) (VPtr (Some (VPtr None)));
   WEncode (ptr TQueryReply) (demo_reply false); WDecode (ptr TQueryReply) (demo_reply wrong)].

Lemma demo_ops_ok wrong : Forall (op_ok demo_upper types encoded decoded_into) (demo_ops demo_upper wrong).
Proof.
  assert (∀ l (t : tid), existsb (Nat.eqb t) l = true → t ∈ l) as Hin.
  { intros l t (u & Hu & ->%Nat.eqb_eq)%existsb_exists. by apply list_elem_of_In. }
  repeat constructor; apply Hin; vm_compute; reflexivity.
Qed.

Lemma wire_operations_witness :
  ∃ st, wire_run demo_upper types init (demo_ops demo_upper false) = Some (Ok st) ∧
    length (complaints st) = 17 ∧ warnings st = [].
Proof.
  destruct (wire_operations demo_upper (demo_ops demo_upper false)) as (st & E & _ & _ & _ & Hw & _).
  - apply demo_ops_ok.
  - vm_compute. reflexivity.
  - exists st. split; [exact E|]. split; [|apply Hw; vm_compute; reflexivity].
    assert ((λ o, match o with Ok st => length (complaints st) | Crash _ => 0 end) <$>
      wire_run demo_upper types init (demo_ops demo_upper false) = Some 17) as H by (vm_compute; reflexivity).
    rewrite E in H. injection H as H. exact H.
Defined.

Lemma server_never_warned_witness :
  length (used (demo_ops demo_upper true)) = 1 ∧
  ∃ st, wire_run demo_upper types init (WRegister (id TKvOp) VOther :: demo_ops demo_upper true) = Some (Ok st) ∧
    warnings st = [].
Proof.
  split; [vm_compute; reflexivity|].
  destruct (server_never_warned demo_upper TKvOp VOther (demo_ops demo_upper true)) as (st & E & Hw & _).
  - right. reflexivity.
  - apply demo_ops_ok.
  - vm_compute. reflexivity.
  - exists st. split; [exact E|exact Hw].
Defined.

(** A reply that is used again is warned of, if no time stamp was seen before. *)
Example demo_warned :
  (λ o, match o with Ok st => warnings st | Crash _ => [] end) <$>
    wire_run demo_upper types init [WDecode (ptr TQueryReply) (demo_reply true)] = Some ["WrongLeader"].
Proof. vm_compute. reflexivity. Qed.

(** Decoding into a [time.Time] ends the process. *)
Example demo_time :
  wire_run demo_upper types init [WDecode (ptr TTime) (VPtr (Some (demo_stamp demo_upper)))]
  = Some (Crash UnexportedField).
Proof. vm_compute. reflexivity. Qed.
End WireTypes.
