(* ===== verification/Messages.v ===== *)
(** * The messages of the program, encoded and decoded

The types of [WireTypes] as [Gob] sees them, and the records of the models as values of
these types.  Every value of a message type comes back from [labgob] as it was sent,
when it is decoded into a variable that is zero, as the callers of [labrpc] and its
servers have it; what a variable that was used before keeps is the reason for the
warnings of [Labgob]. *)

From stdpp Require Import countable.
From S2P Require Import Prelude GoStrings RaftPeer ShardCtrler ShardKV Labgob WireTypes Gob.
From stdpp Require Import options.
Import Gob.

Module Messages.

(** ** Types *)

Definition array_length : nat := Z.to_nat ShardCtrler.NShards.

(** The type behind a name; [time.Time] encodes itself, so what is inside is not sent. *)
Fixpoint type_of (fuel : nat) (t : WireTypes.gotype) : ty :=
  match fuel with
  | O => TyIface
  | S fuel =>
      let at_ i := type_of fuel (default WireTypes.TInterface (WireTypes.named !! i)) in
      match t with
      | WireTypes.TBool => TyBool
      | WireTypes.TInt | WireTypes.TInt64 => TyInt true 64
      | WireTypes.TUint64 => TyInt false 64
      | WireTypes.TUint8 => TyInt false 8
      | WireTypes.TString | WireTypes.TCtrlErr | WireTypes.TKvErr => TyStr
      | WireTypes.TTime => TyTime
      | _ =>
          match WireTypes.kind_of t with
          | Labgob.KStruct fs => TyStruct ((λ p, (p.1, at_ p.2)) <$> fs)
          | Labgob.KSlice i => TySlice (at_ i)
          | Labgob.KArray i => TyArray array_length (at_ i)
          | Labgob.KPtr i => at_ i
          | Labgob.KMap k i => TyMap (at_ k) (at_ i)
          | Labgob.KOther => TyIface
          end
      end
  end.

Definition message_type (t : WireTypes.gotype) : ty := type_of 6 t.
#[global] Arguments message_type : simpl never.

Definition message_types : list WireTypes.gotype :=
  [WireTypes.TInt; WireTypes.TInterfaces; WireTypes.TCtrlOp; WireTypes.TKvOp;
   WireTypes.TInstallSnapshotArgs; WireTypes.TInstallSnapshotReply;
   WireTypes.TRequestVoteArgs; WireTypes.TRequestVoteReply;
   WireTypes.TAppendEntriesArgs; WireTypes.TAppendEntriesReply;
   WireTypes.TJoinArgs; WireTypes.TJoinReply; WireTypes.TLeaveArgs; WireTypes.TLeaveReply;
   WireTypes.TMoveArgs; WireTypes.TMoveReply; WireTypes.TQueryArgs; WireTypes.TQueryReply;
   WireTypes.TPutAppendArgs; WireTypes.TPutAppendReply; WireTypes.TGetArgs; WireTypes.TGetReply;
   WireTypes.TTransferShardArgs; WireTypes.TTransferShardReply;
   WireTypes.TDeleteShardArgs; WireTypes.TDeleteShardReply].

(** These are all that is encoded, directly or behind a pointer, and deeper types than
the fuel reaches there are none. *)
Lemma message_types_all :
  Forall (λ i, default WireTypes.TTime (WireTypes.named !! (i mod length WireTypes.named)) ∈ message_types)
    WireTypes.encoded ∧
  (type_of 7 <$> message_types) = (message_type <$> message_types).
Proof. split; [apply (bool_decide_eq_true_1 _)|]; vm_compute; reflexivity. Qed.

Lemma messages_sound uu : forallb (sound uu) (message_type <$> message_types) = true.
Proof. vm_compute. reflexivity. Qed.

Lemma message_sound uu t : t ∈ message_types → sound uu (message_type t) = true.
Proof.
  intros Ht. pose proof (messages_sound uu) as Hs. rewrite forallb_forall in Hs. apply Hs, list_elem_of_In.
  by apply list_elem_of_fmap_2.
Qed.

(** ** The records of the models *)

Definition int_ok (z : Z) : bool := in_range true 64 z.

Definition as_int (v : val) : option Z := match v with VInt z => Some z | _ => None end.
Definition as_time (v : val) : option Z := match v with VTime z => Some z | _ => None end.
Definition as_str (v : val) : option string := match v with VStr s => Some s | _ => None end.
Definition as_bool (v : val) : option bool := match v with VBool b => Some b | _ => None end.
Definition as_slice {A} (f : val → option A) (v : val) : option (list A) :=
  match v with VSlice l => mapM f l | _ => None end.
Definition as_array {A} (f : val → option A) (v : val) : option (list A) :=
  match v with VArray l => mapM f l | _ => None end.
Definition as_entry {A} (f : val → option A) (p : mkey * val) : option (Z * A) :=
  match p with (KInt z, v) => pair z <$> f v | _ => None end.
Definition as_map {A} (f : val → option A) (v : val) : option (gmap Z A) :=
  match v with VMap l => list_to_map <$> mapM (as_entry f) l | _ => None end.

Definition of_map {A} (f : A → val) (m : gmap Z A) : val :=
  VMap ((λ p, (KInt p.1, f p.2)) <$> map_to_list m).

(** A record of a model that stands for a message: the values it stands for, those that
fit the integers of Go, and that it is the record of its value. *)
Class Message (A : Type) := {
  mtype : WireTypes.gotype;
  to_val : A → val;
  of_val : val → option A;
  fits : A → bool;
  mtype_message : mtype ∈ message_types;
  to_val_typed : ∀ reg a, fits a = true → typed reg (to_val a) (message_type mtype) = true;
  of_to_val : ∀ a, of_val (to_val a) = Some a }.
Arguments mtype A {_}.
Global Hint Mode Message ! : typeclass_instances.

Lemma mapM_fmap_Some {A B C} (f : B → option C) (g : A → B) (h : A → C) l :
  (∀ x, f (g x) = Some (h x)) → mapM f (g <$> l) = Some (h <$> l).
Proof. intros Hf. induction l as [|x l IH]; cbn; [done|]. rewrite Hf. cbn. by rewrite IH. Qed.

Lemma as_slice_of {A} (f : val → option A) g l : (∀ x, f (g x) = Some x) → as_slice f (VSlice (g <$> l)) = Some l.
Proof. intros Hf. cbn. rewrite (mapM_fmap_Some f g (λ x, x)) by done. by rewrite list_fmap_id. Qed.

Lemma as_array_of {A} (f : val → option A) g l : (∀ x, f (g x) = Some x) → as_array f (VArray (g <$> l)) = Some l.
Proof. intros Hf. cbn. rewrite (mapM_fmap_Some f g (λ x, x)) by done. by rewrite list_fmap_id. Qed.

Lemma as_map_of {A} (f : val → option A) g m : (∀ x, f (g x) = Some x) → as_map f (of_map g m) = Some m.
Proof.
  intros Hf. cbn. rewrite (mapM_fmap_Some (as_entry f) _ (λ x, x)).
  - rewrite list_fmap_id. cbn. by rewrite list_to_map_to_list.
  - intros [k x]. cbn. by rewrite Hf.
Qed.

Lemma of_map_typed {A} reg (g : A → val) (m : gmap Z A) t :
  forallb int_ok (fst <$> map_to_list m) = true → (∀ x, typed reg (g x) t = true) →
  typed reg (of_map g m) (TyMap (TyInt true 64) t) = true.
Proof.
  intros Hk Hg. cbn. rewrite <-list_fmap_compose. apply andb_true_iff. split.
  - apply bool_decide_eq_true. change (NoDup ((KInt ∘ fst) <$> map_to_list m)). rewrite list_fmap_compose.
    apply NoDup_fmap_2; [by intros ? ? [=]|apply NoDup_fst_map_to_list].
  - apply forallb_forall. intros p (q & -> & Hq)%list_elem_of_In%list_elem_of_fmap. cbn. rewrite Hg, andb_true_r.
    rewrite forallb_forall in Hk. apply Hk, list_elem_of_In. by apply list_elem_of_fmap_2.
Qed.

Lemma elems_typed {A} reg (g : A → val) l t : (∀ x, typed reg (g x) t = true) → forallb (λ v, typed reg v t) (g <$> l) = true.
Proof. intros Hg. apply forallb_forall. intros v (x & -> & _)%list_elem_of_In%list_elem_of_fmap. apply Hg. Qed.

Lemma ints_typed reg l : forallb int_ok l = true → forallb (λ v, typed reg v (TyInt true 64)) (VInt <$> l) = true.
Proof.
  rewrite !forallb_forall. intros Hl v (z & -> & Hz)%list_elem_of_In%list_elem_of_fmap. by apply Hl, list_elem_of_In.
Qed.

(** A message type, written out. *)
Ltac spell_type :=
  match goal with
  | |- context [message_type ?t] =>
      let r := eval vm_compute in (message_type t) in
      replace (message_type t) with r by (vm_compute; reflexivity)
  end.

(** *** Messages of the controller *)

Definition of_strings (l : list string) : val := VSlice (VStr <$> l).
Definition as_strings : val → option (list string) := as_slice as_str.
Lemma as_of_strings l : as_strings (of_strings l) = Some l.
Proof. by apply as_slice_of. Qed.

Lemma of_strings_typed reg l : typed reg (of_strings l) (TySlice TyStr) = true.
Proof. by apply (elems_typed reg VStr l TyStr). Qed.

Definition of_Config (c : ShardCtrler.Config) : val :=
  VStruct [VInt (ShardCtrler.Num c); VArray (VInt <$> ShardCtrler.Shards c); of_map of_strings (ShardCtrler.Groups c)].
Definition as_Config (v : val) : option ShardCtrler.Config :=
  match v with
  | VStruct [n; s; g] =>
      n ← as_int n; s ← as_array as_int s; g ← as_map as_strings g; Some (ShardCtrler.mkConfig n s g)
  | _ => None
  end.
Definition Config_fits (c : ShardCtrler.Config) : bool :=
  int_ok (ShardCtrler.Num c) && bool_decide (length (ShardCtrler.Shards c) = array_length) &&
  forallb int_ok (ShardCtrler.Shards c) && forallb int_ok (fst <$> map_to_list (ShardCtrler.Groups c)).

Lemma as_of_Config c : as_Config (of_Config c) = Some c.
Proof.
  unfold as_Config, of_Config. cbn [as_int mbind option_bind]. rewrite as_array_of by done. cbn [mbind option_bind].
  rewrite as_map_of by apply as_of_strings. by destruct c.
Qed.

Lemma of_Config_typed reg c : Config_fits c = true → typed reg (of_Config c) (message_type WireTypes.TConfig) = true.
Proof.
  unfold Config_fits. rewrite !andb_true_iff. intros [[[Hn Hl] Hs] Hg]. spell_type. unfold int_ok in Hn.
  cbn -[of_map in_range]. rewrite Hn, length_fmap, ints_typed, of_map_typed by (done || apply of_strings_typed).
  apply bool_decide_eq_true in Hl. rewrite bool_decide_eq_true_2; [done|exact Hl].
Qed.

(** The fields of a record, one conjunct each. *)
Ltac typed_record :=
  intros reg a Ha; cbn beta in Ha; unfold int_ok in *;
  repeat match type of Ha with _ && _ = true => apply andb_true_iff in Ha as [Ha ?] end;
  spell_type; cbn -[of_map of_Config in_range];
  repeat match goal with H : in_range _ _ _ = true |- _ => rewrite H end; cbn -[of_map of_Config in_range].

(** The same of a record with a configuration inside. *)
Ltac config_record :=
  let reg := fresh in let a := fresh in let Ha := fresh in
  intros reg a Ha; cbn beta in Ha; apply (of_Config_typed reg) in Ha; revert Ha;
  repeat spell_type; cbn -[of_Config]; by intros ->.

#[local] Unset Program Cases.

Ltac message_listed := apply (bool_decide_eq_true_1 _); vm_compute; reflexivity.

#[program, export] Instance QueryArgs_message : Message ShardCtrler.QueryArgs := {|
  mtype := WireTypes.TQueryArgs;
  to_val a := VStruct [VInt (ShardCtrler.q_Num a); VInt (ShardCtrler.q_ClientId a); VTime (ShardCtrler.q_TimeStamp a)];
  of_val v := match v with VStruct [VInt n; VInt c; VTime t] => Some (ShardCtrler.mkQueryArgs n c t) | _ => None end;
  fits a := int_ok (ShardCtrler.q_Num a) && int_ok (ShardCtrler.q_ClientId a) |}.
Next Obligation. message_listed. Qed.
Next Obligation. by typed_record. Qed.
Next Obligation. by intros []. Qed.

#[program, export] Instance MoveArgs_message : Message ShardCtrler.MoveArgs := {|
  mtype := WireTypes.TMoveArgs;
  to_val a := VStruct [VInt (ShardCtrler.m_Shard a); VInt (ShardCtrler.m_GID a); VInt (ShardCtrler.m_ClientId a);
                       VTime (ShardCtrler.m_TimeStamp a)];
  of_val v := match v with
              | VStruct [VInt s; VInt g; VInt c; VTime t] => Some (ShardCtrler.mkMoveArgs s g c t)
              | _ => None
              end;
  fits a := int_ok (ShardCtrler.m_Shard a) && int_ok (ShardCtrler.m_GID a) && int_ok (ShardCtrler.m_ClientId a) |}.
Next Obligation. message_listed. Qed.
Next Obligation. by typed_record. Qed.
Next Obligation. by intros []. Qed.

#[program, export] Instance JoinArgs_message : Message ShardCtrler.JoinArgs := {|
  mtype := WireTypes.TJoinArgs;
  to_val a := VStruct [of_map of_strings (ShardCtrler.j_Servers a); VInt (ShardCtrler.j_ClientId a);
                       VTime (ShardCtrler.j_TimeStamp a)];
  of_val v := match v with
              | VStruct [m; VInt c; VTime t] => m ← as_map as_strings m; Some (ShardCtrler.mkJoinArgs m c t)
              | _ => None
              end;
  fits a := int_ok (ShardCtrler.j_ClientId a) && forallb int_ok (fst <$> map_to_list (ShardCtrler.j_Servers a)) |}.
Next Obligation. message_listed. Qed.
Next Obligation. typed_record. by rewrite of_map_typed by (done || apply of_strings_typed). Qed.
Next Obligation. intros []. cbn -[as_map]. by rewrite as_map_of by apply as_of_strings. Qed.

#[program, export] Instance LeaveArgs_message : Message ShardCtrler.LeaveArgs := {|
  mtype := WireTypes.TLeaveArgs;
  to_val a := VStruct [VSlice (VInt <$> ShardCtrler.l_GIDs a); VInt (ShardCtrler.l_ClientId a);
                       VTime (ShardCtrler.l_TimeStamp a)];
  of_val v := match v with
              | VStruct [l; VInt c; VTime t] => l ← as_slice as_int l; Some (ShardCtrler.mkLeaveArgs l c t)
              | _ => None
              end;
  fits a := int_ok (ShardCtrler.l_ClientId a) && forallb int_ok (ShardCtrler.l_GIDs a) |}.
Next Obligation. message_listed. Qed.
Next Obligation. typed_record. by rewrite ints_typed. Qed.
Next Obligation. intros []. cbn -[as_slice]. by rewrite as_slice_of. Qed.

(** [JoinReply], [LeaveReply] and [MoveReply] have the same fields, so that [gob] takes the
one for the other, and one record stands for the three. *)
Lemma acks_alike :
  message_type WireTypes.TLeaveReply = message_type WireTypes.TJoinReply ∧
  message_type WireTypes.TMoveReply = message_type WireTypes.TJoinReply.
Proof. split; vm_compute; reflexivity. Qed.

#[program, export] Instance AckReply_message : Message ShardCtrler.AckReply := {|
  mtype := WireTypes.TJoinReply;
  to_val a := VStruct [VBool (ShardCtrler.a_WrongLeader a); VStr (ShardCtrler.a_Err a)];
  of_val v := match v with VStruct [VBool b; VStr e] => Some (ShardCtrler.mkAckReply b e) | _ => None end;
  fits a := true |}.
Next Obligation. message_listed. Qed.
Next Obligation. by typed_record. Qed.
Next Obligation. by intros []. Qed.

#[program, export] Instance QueryReply_message : Message ShardCtrler.QueryReply := {|
  mtype := WireTypes.TQueryReply;
  to_val a := VStruct [VBool (ShardCtrler.q_WrongLeader a); VStr (ShardCtrler.q_Err a); of_Config (ShardCtrler.q_Config a)];
  of_val v := match v with
              | VStruct [VBool b; VStr e; c] => c ← as_Config c; Some (ShardCtrler.mkQueryReply b e c)
              | _ => None
              end;
  fits a := Config_fits (ShardCtrler.q_Config a) |}.
Next Obligation. message_listed. Qed.
Next Obligation. config_record. Qed.
Next Obligation. intros []. cbn -[as_Config of_Config]. by rewrite as_of_Config. Qed.

(** *** Messages of the key/value servers *)

#[program, export] Instance PutAppendArgs_message : Message ShardKV.PutAppendArgs := {|
  mtype := WireTypes.TPutAppendArgs;
  to_val a := VStruct [VStr (ShardKV.p_Key a); VStr (ShardKV.p_Value a); VStr (ShardKV.p_Op a);
                       VInt (ShardKV.p_ClientId a); VTime (ShardKV.p_TimeStamp a)];
  of_val v := match v with
              | VStruct [VStr k; VStr x; VStr o; VInt c; VTime t] => Some (ShardKV.mkPutAppendArgs k x o c t)
              | _ => None
              end;
  fits a := int_ok (ShardKV.p_ClientId a) |}.
Next Obligation. message_listed. Qed.
Next Obligation. by typed_record. Qed.
Next Obligation. by intros []. Qed.

#[program, export] Instance PutAppendReply_message : Message ShardKV.PutAppendReply := {|
  mtype := WireTypes.TPutAppendReply;
  to_val a := VStruct [of_Config (ShardKV.p_Config a); VStr (ShardKV.p_Err a)];
  of_val v := match v with
              | VStruct [c; VStr e] => c ← as_Config c; Some (ShardKV.mkPutAppendReply c e)
              | _ => None
              end;
  fits a := Config_fits (ShardKV.p_Config a) |}.
Next Obligation. message_listed. Qed.
Next Obligation. config_record. Qed.
Next Obligation. intros []. cbn -[as_Config of_Config]. by rewrite as_of_Config. Qed.

#[program, export] Instance GetArgs_message : Message ShardKV.GetArgs := {|
  mtype := WireTypes.TGetArgs;
  to_val a := VStruct [VStr (ShardKV.g_Key a); VInt (ShardKV.g_ClientId a); VTime (ShardKV.g_TimeStamp a)];
  of_val v := match v with VStruct [VStr k; VInt c; VTime t] => Some (ShardKV.mkGetArgs k c t) | _ => None end;
  fits a := int_ok (ShardKV.g_ClientId a) |}.
Next Obligation. message_listed. Qed.
Next Obligation. by typed_record. Qed.
Next Obligation. by intros []. Qed.

#[program, export] Instance GetReply_message : Message ShardKV.GetReply := {|
  mtype := WireTypes.TGetReply;
  to_val a := VStruct [VStr (ShardKV.g_Err a); VStr (ShardKV.g_Value a)];
  of_val v := match v with VStruct [VStr e; VStr x] => Some (ShardKV.mkGetReply e x) | _ => None end;
  fits a := true |}.
Next Obligation. message_listed. Qed.
Next Obligation. by typed_record. Qed.
Next Obligation. by intros []. Qed.

(** ** Through the network *)

(** The bytes [gob] makes of what is written, of which only that they are read back matters. *)
Class Format := {
  to_bytes : list wire → string;
  of_bytes : string → list wire;
  of_to_bytes : ∀ ws, of_bytes (to_bytes ws) = ws }.

Lemma snd_prod_map {A B C} (f : B → C) (l : list (A * B)) : snd <$> (prod_map id f <$> l) = f ∘ snd <$> l.
Proof. induction l as [|[x y] l IH]; [done|]. by rewrite !fmap_cons, IH. Qed.
Lemma fst_prod_map {A B C} (f : B → C) (l : list (A * B)) : fst <$> (prod_map id f <$> l) = fst <$> l.
Proof. induction l as [|[x y] l IH]; [done|]. by rewrite !fmap_cons, IH. Qed.

Section codec.
Context `{fmt : !Format} (uu : string → bool) (reg : string → option ty).

(** A new buffer, a new encoder, one value; [None] is the error of [Encode]. *)
Definition marshal {A} `{!Message A} (a : A) : option string :=
  (λ e, to_bytes (written e)) <$> gob_Encode uu reg (NewEncoder []) (to_val a) (message_type (mtype A)).

(** A new decoder on what arrived, one value into a variable that holds [x]. *)
Definition unmarshal_into (t : WireTypes.gotype) (b : string) (x : val) : option val :=
  snd <$> gob_Decode uu reg (NewDecoder (of_bytes b)) (message_type t) x.
Definition unmarshal {A} `{!Message A} (b : string) : option A :=
  unmarshal_into (mtype A) b (zero (message_type (mtype A))) ≫= of_val.

(** [Service.dispatch] around a handler: its arguments are decoded into a new variable and
what it left in its reply is encoded. *)
Definition dispatch {A R} `{!Message A, !Message R} (handler : A → R) (b : string) : option string :=
  a ← unmarshal (A := A) b; marshal (handler a).

(** [ClientEnd.Call] when the network carries both ways, into a reply that holds [x]. *)
Definition Call {A R} `{!Message A, !Message R} (handler : A → R) (a : A) (x : val) : option val :=
  q ← marshal a; rep ← dispatch handler q; unmarshal_into (mtype R) rep x.

Hypothesis reg_sound : ∀ n t, reg n = Some t → sound uu t = true.

Lemma unmarshal_marshal {A} `{!Message A} (a : A) :
  fits a = true → ∃ b, marshal a = Some b ∧ unmarshal_into (mtype A) b (zero (message_type (mtype A))) = Some (to_val a) ∧
    unmarshal b = Some a.
Proof using reg_sound.
  intros Ha. destruct (roundtrip_val uu reg reg_sound (to_val a) (message_type (mtype A))) as (w & Hw & Hd).
  - apply message_sound, mtype_message.
  - by apply to_val_typed.
  - exists (to_bytes [w]). unfold marshal, unmarshal, unmarshal_into, gob_Encode, gob_Decode. rewrite Hw. cbn.
    rewrite of_to_bytes. cbn. rewrite Hd. cbn. split_and!; [done..|apply of_to_val].
Qed.

Lemma dispatch_runs {A R} `{!Message A, !Message R} (handler : A → R) a :
  fits a = true → ∃ q, marshal a = Some q ∧ dispatch handler q = marshal (handler a).
Proof using reg_sound.
  intros Ha. destruct (unmarshal_marshal a Ha) as (q & Hq & _ & Ha'). exists q. split; [done|].
  unfold dispatch. by rewrite Ha'.
Qed.

(** C20. A remote call is a call: the handler gets the arguments as the caller had them, and
the caller's reply, zero before, is what the handler left in its own, whatever is sent
for the values that are zero, for all the requests and replies of the clerks. *)
Theorem remote_call_is_call {A R} `{!Message A, !Message R} (handler : A → R) (a : A) :
  fits a = true → fits (handler a) = true →
  Call handler a (zero (message_type (mtype R))) ≫= of_val = Some (handler a).
Proof using reg_sound.
  intros Ha Hr. destruct (dispatch_runs handler a Ha) as (q & Hq & Hd).
  destruct (unmarshal_marshal (handler a) Hr) as (rep & Hrep & Hv & _).
  unfold Call. rewrite Hq. cbn. rewrite Hd, Hrep. cbn. rewrite Hv. apply of_to_val.
Qed.

(** C26. What is written to one encoder, value after value, as a server writes its snapshot,
is what one decoder reads, in that order and each into a variable that is zero, and what
was written after it is left. *)
Theorem message_stream (vs : list (val * WireTypes.gotype)) (enc : LabEncoder) :
  Forall (λ p, p.2 ∈ message_types ∧ typed reg p.1 (message_type p.2) = true) vs →
  ∃ ws, write_stream uu reg enc (prod_map id message_type <$> vs) = Some (mkEncoder (written enc ++ ws)) ∧
    ∀ more, read_stream uu reg (NewDecoder (of_bytes (to_bytes (ws ++ more)))) (message_type ∘ snd <$> vs) =
      Some (mkDecoder more, fst <$> vs).
Proof using reg_sound.
  intros Hall. destruct (stream_comes_back uu reg reg_sound (prod_map id message_type <$> vs) enc) as (ws & Hw & Hr).
  { apply Forall_fmap. eapply Forall_impl; [exact Hall|]. intros [v t] [Ht Hv]. split; [by apply message_sound|done]. }
  exists ws. split; [done|]. intros more. rewrite of_to_bytes. specialize (Hr more).
  rewrite fst_prod_map, snd_prod_map in Hr. exact Hr.
Qed.

End codec.

(** ** A format

That of [gob] is its own matter; this one is enough to run the above. *)

Global Instance mkey_countable : Countable mkey.
Proof.
  refine (inj_countable' (λ k, match k with KInt z => inl z | KStr s => inr s end)
    (λ x, match x with inl z => KInt z | inr s => KStr s end) _). by intros [].
Defined.

Fixpoint tree_of (w : wire) : gen_tree mkey :=
  match w with
  | WInt z => GenNode 0 [GenLeaf (KInt z)]
  | WBool b => GenNode 1 [GenLeaf (KInt (if b then 1 else 0)%Z)]
  | WStr s => GenNode 2 [GenLeaf (KStr s)]
  | WTime z => GenNode 3 [GenLeaf (KInt z)]
  | WStruct ws => GenNode 4 ((λ p, GenNode 0 [GenLeaf (KStr p.1); tree_of p.2]) <$> ws)
  | WSeq l => GenNode 5 (tree_of <$> l)
  | WMap l => GenNode 6 ((λ p, GenNode 0 [GenLeaf p.1; tree_of p.2]) <$> l)
  | WIface n w => GenNode 7 [GenLeaf (KStr n); tree_of w]
  | WNil => GenNode 8 []
  end.

Fixpoint of_tree (t : gen_tree mkey) : wire :=
  match t with
  | GenNode 0 [GenLeaf (KInt z)] => WInt z
  | GenNode 1 [GenLeaf (KInt z)] => WBool (bool_decide (z = 1)%Z)
  | GenNode 2 [GenLeaf (KStr s)] => WStr s
  | GenNode 3 [GenLeaf (KInt z)] => WTime z
  | GenNode 4 l =>
      WStruct ((λ t, match t with GenNode _ [GenLeaf (KStr n); t] => (n, of_tree t) | _ => ("", WNil) end) <$> l)
  | GenNode 5 l => WSeq (of_tree <$> l)
  | GenNode 6 l =>
      WMap ((λ t, match t with GenNode _ [GenLeaf k; t] => (k, of_tree t) | _ => (KInt 0, WNil) end) <$> l)
  | GenNode 7 [GenLeaf (KStr n); t] => WIface n (of_tree t)
  | _ => WNil
  end.

Lemma of_tree_of w : of_tree (tree_of w) = w.
Proof.
  induction w as [z|b|s|z|ws IH|ws IH|ws IH|n w IH|] using wire_tree_ind; cbn; try done.
  - by destruct b.
  - f_equal. rewrite <-list_fmap_compose. induction IH as [|[n w] ws Hw _ IH]; [done|]. cbn in *. by rewrite Hw, IH.
  - f_equal. rewrite <-list_fmap_compose. induction IH as [|w ws Hw _ IH]; [done|]. cbn in *. by rewrite Hw, IH.
  - f_equal. rewrite <-list_fmap_compose. induction IH as [|[k w] ws Hw _ IH]; [done|]. cbn in *. by rewrite Hw, IH.
  - by rewrite IH.
Qed.

Fixpoint bits_of (p : positive) : string :=
  match p with
  | xH => ""
  | xO p => String Ascii.zero (bits_of p)
  | xI p => String Ascii.one (bits_of p)
  end.
Fixpoint of_bits (s : string) : positive :=
  match s with
  | EmptyString => xH
  | String c s => if decide (c = Ascii.one) then xI (of_bits s) else xO (of_bits s)
  end.
Lemma of_bits_of p : of_bits (bits_of p) = p.
Proof. by induction p as [p IH|p IH|]; cbn; rewrite ?IH. Qed.

#[program] Definition plain_format : Format := {|
  to_bytes ws := bits_of (countable.encode (tree_of <$> ws));
  of_bytes b := of_tree <$> default [] (countable.decode (of_bits b)) |}.
Next Obligation.
  intros ws. cbn. rewrite of_bits_of, decode_encode. cbn. rewrite <-list_fmap_compose.
  induction ws as [|w ws IH]; [done|]. cbn. by rewrite of_tree_of, IH.
Qed.

(** ** Witnesses *)

Definition demo_reg (n : string) : option ty :=
  if decide (n = "shardctrler.Op") then Some (message_type WireTypes.TCtrlOp) else None.

Lemma demo_reg_sound uu n t : demo_reg n = Some t → sound uu t = true.
Proof. unfold demo_reg. case_decide; [|done]. intros [= <-]. apply message_sound. message_listed. Qed.

Definition nobody : string → bool := λ _, false.

(** A controller of one configuration. *)
Definition demo_config : ShardCtrler.Config := ShardCtrler.mkConfig 1 (replicate 10 7%Z) {[7%Z := ["a"; "b"]]}.
Definition demo_answer (q : ShardCtrler.QueryArgs) : ShardCtrler.QueryReply :=
  if decide (ShardCtrler.q_Num q = 0)%Z then ShardCtrler.mkQueryReply false "OK" ShardCtrler.zero_config
  else ShardCtrler.mkQueryReply false "OK" demo_config.

Lemma remote_call_is_call_witness :
  Call (fmt := plain_format) nobody demo_reg demo_answer (ShardCtrler.mkQueryArgs 0 5 9)
    (zero (message_type WireTypes.TQueryReply)) ≫= of_val =
  Some (ShardCtrler.mkQueryReply false "OK" ShardCtrler.zero_config).
Proof.
  exact (remote_call_is_call (fmt := plain_format) nobody demo_reg (demo_reg_sound nobody) demo_answer
    (ShardCtrler.mkQueryArgs 0 5 9) eq_refl eq_refl).
Defined.

(** The snapshot of a server that has applied three commands. *)
Definition demo_snapshot : list (val * WireTypes.gotype) :=
  [(VInt 3, WireTypes.TInt);
   (VSlice [VIface None; VIface (Some ("shardctrler.Op", zero (message_type WireTypes.TCtrlOp)))], WireTypes.TInterfaces)].

Lemma message_stream_witness :
  ∃ ws, write_stream nobody demo_reg (NewEncoder []) (prod_map id message_type <$> demo_snapshot) = Some (mkEncoder ws) ∧
    read_stream nobody demo_reg (NewDecoder (of_bytes (Format := plain_format) (to_bytes (Format := plain_format) (ws ++ []))))
      (message_type ∘ snd <$> demo_snapshot) = Some (mkDecoder [], fst <$> demo_snapshot).
Proof.
  destruct (message_stream (fmt := plain_format) nobody demo_reg (demo_reg_sound nobody) demo_snapshot (NewEncoder []))
    as (ws & Hw & Hr).
  - repeat apply Forall_cons_2; [split..|constructor]; [message_listed|vm_compute; reflexivity..|message_listed|vm_compute; reflexivity].
  - exists ws. split; [exact Hw|exact (Hr [])].
Defined.
End Messages.
