(* ===== verification/Client.v ===== *)
(** * A client on the network

A program that makes remote calls ([ClientEnd.Call] of [src/labrpc/labrpc.go]), and
the network of [Labrpc], in one step machine.  The program waits while its call is
on the network, where everything else goes on: other calls, drops, delays, servers
that die and are replaced.  A program is given by what it does next in each of its
states, and by the state it is in when that is done. *)

From S2P Require Import Prelude GoStrings Labrpc.
From stdpp Require Import options.
Import Labrpc.

Module Client.

(** ** Programs *)

Inductive action :=
| ACall (q : reqMsg)            (* [Call] *)
| AOp (op : netop)              (* an operation of the network *)
| AClock                        (* [time.Now] *)
| AName                         (* [randstring] *)
| ASleep                        (* [time.Sleep] *)
| AHalt.                        (* the program has returned *)

(** What an action gives.  Of a call that was answered it is the number of the
request, which the code does not see, and the reply. *)
Inductive input :=
| IReply (o : option (nat * string))
| IClock (z : Z)
| IName (s : string)
| IGo.

Definition expects (a : action) (i : input) : bool :=
  match a, i with
  | ACall _, IReply _ | AOp _, IGo | AClock, IClock _ | AName, IName _ | ASleep, IGo => true
  | _, _ => false
  end.

Record prog (S : Type) := mkProg { act : S → action; resume : S → input → outcome S }.
Arguments mkProg {S} _ _.
Arguments act {S} _ _.
Arguments resume {S} _ _ _.

(** The end of [Call]: what the program gets, decoded. *)
Definition reply_of (o : option (nat * string)) : replyMsg :=
  match o with Some (_, s) => mkReply true s | None => mkReply false "" end.
Definition received {R} (o : option (nat * string)) (dec : string → option R) : outcome (option R) :=
  Call false (reply_of o) dec.
#[global] Arguments received : simpl never.
(** The same, where the decoder does not fail. *)
Definition decoded {R} (dec : string → option R) (o : option (nat * string)) : option R :=
  o ≫= λ x, dec x.2.

Lemma received_decoded {R} (dec : string → option R) o r : received o dec = Ok r → r = decoded dec o.
Proof.
  unfold received, Call, decoded. destruct o as [[i s]|]; cbn; [|by intros [= <-]].
  destruct (dec s); [|done]. by intros [= <-].
Qed.

(** ** The machine *)

(** [pending] is the request the program waits for. *)
Record system (S : Type) := mkSystem { wld : world; here : S; pending : option nat }.
Arguments mkSystem {S} _ _ _.
Arguments wld {S} _.
Arguments here {S} _.
Arguments pending {S} _.

Inductive slabel :=
| SNet (l : label)              (* the network, and other clients *)
| SSend                         (* the call is sent *)
| SClosed                       (* the network is gone: the call returns false *)
| SAnswer                       (* the answer arrives *)
| SClock (z : Z)
| SName (s : string)
| SGo.

Section machine.
Context {S : Type} (p : prog S).

Definition advance (s : system S) (w : world) (i : input) : outcome (system S) :=
  let* st := resume p (here s) i in Ok (mkSystem w st None).

Definition system_next (s : system S) (l : slabel) : option (outcome (system S)) :=
  let w := wld s in
  match l, pending s with
  | SNet l, _ => (λ o, let* w := o in Ok (mkSystem w (here s) (pending s))) <$> next w l
  | SSend, None =>
      match act p (here s) with
      | ACall q =>
          (λ o, let* w' := o in Ok (mkSystem w' (here s) (Some (length (reqs w))))) <$> next w (LCall q)
      | _ => None
      end
  | SClosed, None =>
      match act p (here s) with
      | ACall _ => if net_done (net w) then Some (advance s w (IReply None)) else None
      | _ => None
      end
  | SAnswer, Some i =>
      match ph <$> reqs w !! i with
      | Some (PReplied m) =>
          Some (advance s w (IReply (if rp_ok m then Some (i, rp_reply m) else None)))
      | _ => None
      end
  | SClock z, None => if act p (here s) is AClock then Some (advance s w (IClock z)) else None
  | SName n, None => if act p (here s) is AName then Some (advance s w (IName n)) else None
  | SGo, None =>
      match act p (here s) with
      | AOp op => (λ o, let* w := o in advance s w IGo) <$> apply_op w op
      | ASleep => Some (advance s w IGo)
      | _ => None
      end
  | _, _ => None
  end.

Definition system_ok (s : system S) (l : slabel) : option (system S) :=
  match system_next s l with Some (Ok s') => Some s' | _ => None end.
Definition system_step (s s' : system S) : Prop := ∃ l, system_next s l = Some (Ok s').

Lemma system_ok_step s l s' : system_ok s l = Some s' → system_step s s'.
Proof. unfold system_ok. intros H. exists l. by destruct (system_next s l) as [[]|]; simplify_eq. Qed.

Lemma run_system ls s s' : run_labels system_ok s ls = Some s' → rtc system_step s s'.
Proof.
  revert s. induction ls as [|l ls IH]; intros s; cbn; [by intros [= <-]|].
  destruct (system_ok s l) as [s1|] eqn:E; [|done]. intros H. eapply rtc_l; [by eapply system_ok_step|auto].
Qed.

(** ** What a run keeps *)

(** Request [i] is [q], and was executed once, with reply [s]. *)
Definition served (w : world) (i : nat) (q : reqMsg) (s : string) : Prop :=
  ∃ x, reqs w !! i = Some x ∧ rq x = q ∧ hd x = HReturned s ∧ execs x = 1.

(** And the server that executed it is the one that was registered as [n] when the
network took the request. *)
Definition served_at (w : world) (i : nat) (q : reqMsg) (s : string) (n : iface) : Prop :=
  ∃ x t, reqs w !! i = Some x ∧ rq x = q ∧ hd x = HReturned s ∧ execs x = 1 ∧ found x = Some t ∧ t_name t = n.

Lemma rstep_keeps w x l rn h x' :
  req_inv x → rstep w x l = Some (Ok (rn, h, x')) →
  rq x' = rq x ∧ ∀ s, hd x = HReturned s → hd x' = HReturned s ∧ execs x' = execs x.
Proof.
  destruct x as [q ph0 hx n]. intros [_ Hp] H. simpl in Hp.
  destruct l; simpl in H; try done; destruct ph0; rstep_cases H; simpl;
    (split; [done|intros ? Hs0; by simplify_eq]).
Qed.

Lemma step_request w w' i x :
  steps step start w → step w w' → reqs w !! i = Some x →
  ∃ x', reqs w' !! i = Some x' ∧ rq x' = rq x ∧
    ∀ s, hd x = HReturned s → hd x' = HReturned s ∧ execs x' = execs x.
Proof.
  intros Hw [(op & Hop)|[(r & ->)|(j & l & y & rn & h & y' & _ & Hj & Hy & ->)]]%step_inv Hi.
  - rewrite (apply_op_reqs _ _ _ Hop). by exists x.
  - exists x. cbn. split; [by apply lookup_app_l_Some|done].
  - cbn. destruct (decide (i = j)) as [->|Hne]; [|by exists x; rewrite list_lookup_insert_ne].
    simplify_eq. exists y'. split; [apply list_lookup_insert_eq; by eapply lookup_lt_Some|].
    eapply rstep_keeps; [|done]. eapply reachable_req_inv; [done|by eapply list_elem_of_lookup_2].
Qed.

Lemma served_step w w' i q s : steps step start w → step w w' → served w i q s → served w' i q s.
Proof.
  intros Hw Hst (x & Hi & Hq & Hh & He). destruct (step_request _ _ _ _ Hw Hst Hi) as (x' & Hi' & Hq' & Hh').
  destruct (Hh' s Hh) as [? ?]. exists x'. split_and!; congruence.
Qed.

(** The request that is waited for is the one that was sent. *)
Definition waits (s : system S) : Prop :=
  match pending s with
  | Some i => ∃ q x, act p (here s) = ACall q ∧ reqs (wld s) !! i = Some x ∧ rq x = q
  | None => True
  end.

(** A step: of the network; a call that is sent; an input that the program takes; or an
operation that the program performs on the network. *)
Lemma system_cases s l s' :
  waits s → system_next s l = Some (Ok s') →
  (∃ l0, l = SNet l0 ∧ next (wld s) l0 = Some (Ok (wld s')) ∧ here s' = here s ∧ pending s' = pending s) ∨
  (∃ q, pending s = None ∧ act p (here s) = ACall q ∧ next (wld s) (LCall q) = Some (Ok (wld s')) ∧
     here s' = here s ∧ pending s' = Some (length (reqs (wld s)))) ∨
  (∃ i, wld s' = wld s ∧ pending s' = None ∧ expects (act p (here s)) i = true ∧ (∀ op, act p (here s) ≠ AOp op) ∧
     resume p (here s) i = Ok (here s') ∧
     ∀ j r, i = IReply (Some (j, r)) → pending s = Some j ∧
       ∃ x m, reqs (wld s) !! j = Some x ∧ ph x = PReplied m ∧ rp_ok m = true ∧ rp_reply m = r) ∨
  (∃ op, pending s = None ∧ pending s' = None ∧ act p (here s) = AOp op ∧
     apply_op (wld s) op = Some (Ok (wld s')) ∧ resume p (here s) IGo = Ok (here s')).
Proof.
  assert (∀ w i, advance s w i = Ok s' → wld s' = w ∧ pending s' = None ∧ resume p (here s) i = Ok (here s')) as Hadv.
  { intros w i H. unfold advance in H. destruct (resume p (here s) i) as [st|]; [|done]. by injection H as <-. }
  intros Hwt Hl. unfold waits in Hwt. unfold system_next in Hl. destruct l as [l| | | |z|n|].
  - left. destruct (next (wld s) l) as [[w|]|] eqn:E; cbn in Hl; [|done..]. injection Hl as <-. by exists l.
  - right; left. destruct (pending s); [done|]. destruct (act p (here s)) as [q| | | | |]; try done.
    injection Hl as <-. by exists q.
  - right; right; left. destruct (pending s); [done|]. destruct (act p (here s)) as [q| | | | |]; try done.
    destruct (net_done _); [|done]. injection Hl as (? & ? & ?)%Hadv. by eexists (IReply None).
  - right; right; left. destruct (pending s) as [i|]; [|done]. destruct Hwt as (q & x & Ha & Hi & _).
    rewrite Hi in Hl. cbn in Hl. destruct (ph x) as [| | | | | | | |m] eqn:Hp; try done.
    injection Hl as (? & ? & ?)%Hadv. exists (IReply (if rp_ok m then Some (i, rp_reply m) else None)).
    rewrite Ha. split_and!; [done..|].
    intros j r Ho. destruct (rp_ok m) eqn:Hm; [|done]. injection Ho as <- <-. split; [done|by exists x, m].
  - right; right; left. destruct (pending s); [done|]. destruct (act p (here s)); try done.
    injection Hl as (? & ? & ?)%Hadv. by eexists (IClock z).
  - right; right; left. destruct (pending s); [done|]. destruct (act p (here s)); try done.
    injection Hl as (? & ? & ?)%Hadv. by eexists (IName n).
  - right; right. destruct (pending s); [done|]. destruct (act p (here s)) as [|op| | | |]; try done.
    + right. destruct (apply_op (wld s) op) as [[w|]|] eqn:Ho; cbn in Hl; [|done..].
      injection Hl as (<- & ? & ?)%Hadv. by exists op.
    + left. injection Hl as (? & ? & ?)%Hadv. by eexists IGo.
Qed.

(** A reply that was sent is what a handler that was executed once has returned. *)
Lemma replied_served w i x m :
  steps step start w → reqs w !! i = Some x → ph x = PReplied m → rp_ok m = true → served w i (rq x) (rp_reply m).
Proof.
  intros Hw Hi Hp Hm. destruct (reachable_req_inv w x Hw) as [He Hph]; [by eapply list_elem_of_lookup_2|].
  rewrite Hp in Hph. specialize (Hph Hm). rewrite Hph in He. by exists x.
Qed.

(** An invariant of the program: it must survive the steps of the network, and what
the program does with an input, where the reply of a call is what a handler that was
executed once has returned. *)
Context (P : world → S → Prop).
Hypothesis P_net : ∀ w w' st, steps step start w → step w w' → P w st → P w' st.
Hypothesis P_reply : ∀ w st q o st',
  act p st = ACall q → P w st → (∀ i s, o = Some (i, s) → served w i q s) →
  resume p st (IReply o) = Ok st' → P w st'.
Hypothesis P_other : ∀ w st i st',
  expects (act p st) i = true → (∀ o, i ≠ IReply o) → P w st → resume p st i = Ok st' → P w st'.

Lemma system_inv_step s s' :
  steps step start (wld s) → waits s → P (wld s) (here s) → system_step s s' →
  steps step start (wld s') ∧ waits s' ∧ P (wld s') (here s').
Proof using P_net P_reply P_other.
  intros Hw Hwt HP [l Hl].
  destruct (system_cases s l s' Hwt Hl)
    as [(l0 & _ & Hn & Hh & Hp)|[(q & Hp & Ha & Hn & Hh & Hp')|[(i & Hw' & Hp & He & _ & Hr & Hi)|
        (op & Hp & Hp' & Ha & Ho & Hr)]]]; unfold waits in Hwt |- *.
  - assert (step (wld s) (wld s')) as Hst by by exists l0. rewrite Hh, Hp.
    split_and!; [by eapply steps_step| |by eapply P_net].
    destruct (pending s) as [i|]; [|done]. destruct Hwt as (q & x & Ha & Hi & Hq).
    destruct (step_request _ _ _ _ Hw Hst Hi) as (x' & Hi' & Hq' & _). exists q, x'. split_and!; congruence.
  - assert (step (wld s) (wld s')) as Hst by by exists (LCall q). rewrite Hh, Hp'.
    split_and!; [by eapply steps_step| |by eapply P_net]. injection Hn as <-.
    eexists q, _. split_and!; [done|by apply list_lookup_middle|done].
  - rewrite Hw', Hp. split_and!; [done|done|]. destruct i as [o|z|n|]; [|by eapply P_other; [| |exact HP|]..].
    destruct (act p (here s)) as [q| | | | |] eqn:Ha; try done. eapply P_reply; [done|done| |done].
    intros j r ->. destruct (Hi j r eq_refl) as (Hj & x & m & Hx & Hph & Hm & <-). rewrite Hj in Hwt.
    destruct Hwt as (q' & x' & Ha' & Hx' & Hq). rewrite Hx in Hx'. injection Hx' as <-. injection Ha' as ->.
    rewrite <-Hq. by apply replied_served.
  - assert (step (wld s) (wld s')) as Hst by by exists (LOp op). rewrite Hp'.
    split_and!; [by eapply steps_step|done|]. eapply P_other; [| |by eapply P_net|exact Hr]; [by rewrite Ha|done].
Qed.

Lemma system_inv w0 st0 s :
  steps step start w0 → P w0 st0 → rtc system_step (mkSystem w0 st0 None) s →
  steps step start (wld s) ∧ waits s ∧ P (wld s) (here s).
Proof using P_net P_reply P_other.
  intros Hw HP. remember (mkSystem w0 st0 None) as s0 eqn:E.
  assert (steps step start (wld s0) ∧ waits s0 ∧ P (wld s0) (here s0)) as H by by subst.
  clear Hw HP E. intros Hrun. induction Hrun as [|a b c Hab _ IH]; [done|].
  destruct H as (Hw & Hwt & HP). by apply IH, system_inv_step with a.
Qed.
End machine.
End Client.
