(* ===== verification/Clerks.v ===== *)
(** * The clerks on the network ([src/shardctrler/client.go], [src/shardkv/client.go])

The calls of the two clerks as programs of [Client], with the encoders and decoders
of [encoding/gob] as parameters: each remote call, clock reading, random name, new
end and sleep is a step, and between the steps the network does what it wants.  The
functions of [ShardCtrler] and [ShardKV] that model the same calls, with an oracle
for what the remote calls give, are what these programs compute; and what the
remote calls gave is what handlers returned. *)

From S2P Require Import Prelude GoStrings Labrpc ShardCtrler ShardKV Client.
From stdpp Require Import options.
Import Labrpc Client.

Module Clerks.

(** ** The controller's clerk *)

(** How the four calls differ: the method, the types with their codes, the test on the
reply, and whether the time is read once or before each request. *)
Record shape (A R : Type) := mkShape {
  sh_meth : string;
  sh_enc : A → string;
  sh_dec : string → option R;
  sh_wrong : R → bool;
  sh_stamp : Z → A → A;
  sh_each : bool }.
Arguments mkShape {A R} _ _ _ _ _ _.
Arguments sh_meth {A R} _.
Arguments sh_enc {A R} _ _.
Arguments sh_dec {A R} _ _.
Arguments sh_wrong {A R} _ _.
Arguments sh_stamp {A R} _ _ _.
Arguments sh_each {A R} _.

Inductive cpoint (A R : Type) :=
| CStart (args : A)                                     (* before the loops *)
| CTry (args : A) (stamped : bool) (todo : list iface)  (* the servers left in this round *)
| CDone (reply : R).
Arguments CStart {A R} _.
Arguments CTry {A R} _ _ _.
Arguments CDone {A R} _.

(** With the point: the clock readings so far, and the requests with their answers,
which the code does not keep. *)
Record cstate (A R : Type) := mkC {
  point : cpoint A R; clocks : list Z; tried : list (iface * A * option (nat * string)) }.
Arguments mkC {A R} _ _ _.
Arguments point {A R} _.
Arguments clocks {A R} _.
Arguments tried {A R} _.

Section ctrl.
Context {A R : Type} (sh : shape A R) (srvs : list iface).
Implicit Types (st : cstate A R).

Definition ctrl_act (st : cstate A R) : action :=
  match point st with
  | CStart _ => AClock
  | CTry _ _ [] => ASleep
  | CTry args stamped (srv :: _) =>
      if sh_each sh && negb stamped then AClock
      else ACall {| r_endname := srv; r_svcMeth := sh_meth sh; r_args := sh_enc sh args |}
  | CDone _ => AHalt
  end.

Definition ctrl_resume (st : cstate A R) (i : input) : outcome (cstate A R) :=
  match point st, i with
  | CStart args, IClock z => Ok (mkC (CTry (sh_stamp sh z args) true srvs) (clocks st ++ [z]) (tried st))
  | CTry args false (srv :: todo), IClock z =>
      Ok (mkC (CTry (sh_stamp sh z args) true (srv :: todo)) (clocks st ++ [z]) (tried st))
  | CTry args _ (srv :: todo), IReply o =>
      let* r := received o (sh_dec sh) in
      let tried := tried st ++ [(srv, args, o)] in
      match r with
      | Some reply =>
          Ok (mkC (if sh_wrong sh reply then CTry args false todo else CDone reply) (clocks st) tried)
      | None => Ok (mkC (CTry args false todo) (clocks st) tried)
      end
  | CTry args stamped [], IGo => Ok (mkC (CTry args stamped srvs) (clocks st) (tried st))
  | _, _ => Ok st
  end.

Definition ctrl_prog : prog (cstate A R) := mkProg ctrl_act ctrl_resume.

Definition ctrl_start (args : A) : cstate A R :=
  mkC (if sh_each sh then CTry args false srvs else CStart args) [] [].

(** *** What the program computes *)

Hypothesis stamp_over : ∀ i j a, sh_stamp sh j (sh_stamp sh i a) = sh_stamp sh j a.
Context (args0 : A).

(** An oracle of [retry] that gives what the requests so far have got. *)
Definition agrees (st : cstate A R) (call : nat → iface → A → option R) (now : nat → Z) : Prop :=
  (∀ k e a o, tried st !! k = Some (e, a, o) → call k e a = decoded (sh_dec sh) o) ∧
  (∀ k z, clocks st !! k = Some z → now k = z).

Definition oracle (st : cstate A R) (k : nat) (e : iface) (a : A) : option R :=
  tried st !! k ≫= λ x, decoded (sh_dec sh) x.2.
Definition clock_of (st : cstate A R) (k : nat) : Z := default 0%Z (clocks st !! k).

Lemma oracle_agrees st : agrees st (oracle st) (clock_of st).
Proof. split; intros *; unfold oracle, clock_of; by intros ->. Qed.

Definition stamping (now : nat → Z) (k : nat) (a : A) : A := if sh_each sh then sh_stamp sh (now k) a else a.
Definition first_args (now : nat → Z) : A := if sh_each sh then args0 else sh_stamp sh (now 0) args0.

(** What [retry] gives, given enough rounds. *)
Definition computes (call : nat → iface → A → option R) (now : nat → Z)
    (rest : nat → list (iface * A) * option R) : Prop :=
  ∃ n, ∀ fuel, ShardCtrler.retry call (stamping now) (sh_wrong sh) (n + S fuel) srvs (first_args now) [] = rest fuel.

Definition goes_on (call : nat → iface → A → option R) (now : nat → Z) (todo : list iface) (args : A)
    (sent : list (iface * A)) (fuel : nat) : list (iface * A) * option R :=
  match ShardCtrler.try_each call (stamping now) (sh_wrong sh) todo args sent with
  | (sent, _, Some reply) => (sent, Some reply)
  | (sent, args, None) => ShardCtrler.retry call (stamping now) (sh_wrong sh) fuel srvs args sent
  end.

Definition refines (st : cstate A R) : Prop :=
  match point st with
  | CStart args => args = args0 ∧ tried st = [] ∧ clocks st = [] ∧ sh_each sh = false
  | CTry args stamped todo =>
      (sh_each sh = true → length (clocks st) = length (tried st) + (if stamped then 1 else 0) ∧
         (stamped = true → ∀ z, clocks st !! length (tried st) = Some z → sh_stamp sh z args = args)) ∧
      ∀ call now, agrees st call now → computes call now (goes_on call now todo args (fst <$> tried st))
  | CDone r => ∀ call now, agrees st call now → computes call now (λ _, (fst <$> tried st, Some r))
  end.

Lemma refines_start : refines (ctrl_start args0).
Proof.
  unfold ctrl_start. destruct (sh_each sh) eqn:He; [|by cbn]. cbn. split; [done|].
  intros call now _. exists 0. intros fuel. unfold first_args. rewrite He. done.
Qed.

Lemma agrees_app st pt zs ts call now :
  agrees (mkC pt (clocks st ++ zs) (tried st ++ ts)) call now → agrees st call now.
Proof.
  intros [H1 H2]. split.
  - intros k e a o Hk. apply H1. cbn. by apply lookup_app_l_Some.
  - intros k z Hk. apply H2. cbn. by apply lookup_app_l_Some.
Qed.

Lemma goes_on_stamp call now srv todo a a' sent fuel :
  stamping now (length sent) a = stamping now (length sent) a' →
  goes_on call now (srv :: todo) a sent fuel = goes_on call now (srv :: todo) a' sent fuel.
Proof. intros E. unfold goes_on. cbn [ShardCtrler.try_each]. by rewrite E. Qed.

(** One request more. *)
Lemma goes_on_reply st args stamped srv todo o call now fuel :
  refines (mkC (CTry args stamped (srv :: todo)) (clocks st) (tried st)) →
  (sh_each sh && negb stamped) = false →
  agrees (mkC (CTry args stamped (srv :: todo)) (clocks st) (tried st ++ [(srv, args, o)])) call now →
  goes_on call now (srv :: todo) args (fst <$> tried st) fuel =
  match decoded (sh_dec sh) o with
  | Some r => if sh_wrong sh r then goes_on call now todo args (fst <$> tried st ++ [(srv, args, o)]) fuel
              else (fst <$> tried st ++ [(srv, args, o)], Some r)
  | None => goes_on call now todo args (fst <$> tried st ++ [(srv, args, o)]) fuel
  end.
Proof.
  intros [Hst _] Hs [Hc Hn]. unfold goes_on. cbn [ShardCtrler.try_each]. cbn in Hst, Hc, Hn.
  rewrite length_fmap, fmap_app. cbn.
  assert (stamping now (length (tried st)) args = args) as ->.
  { unfold stamping. destruct (sh_each sh); [|done]. destruct stamped; [|done]. destruct (Hst eq_refl) as [Hl Hz].
    destruct (lookup_lt_is_Some_2 (clocks st) (length (tried st))) as [z Hzk]; [lia|].
    rewrite (Hn _ _ Hzk). by apply Hz. }
  rewrite (Hc (length (tried st)) srv args o) by by apply list_lookup_middle.
  destruct (decoded _ o) as [r|]; [|done]. by destruct (sh_wrong sh r).
Qed.

Lemma refines_reply args stamped srv todo zs ts o st' :
  (sh_each sh && negb stamped) = false → refines (mkC (CTry args stamped (srv :: todo)) zs ts) →
  (let* r := received o (sh_dec sh) in
   match r with
   | Some reply => Ok (mkC (if sh_wrong sh reply then CTry args false todo else CDone reply) zs (ts ++ [(srv, args, o)]))
   | None => Ok (mkC (CTry args false todo) zs (ts ++ [(srv, args, o)]))
   end) = Ok st' → refines st'.
Proof using Type.
  intros Hs Hr Hn.
  destruct (received o (sh_dec sh)) as [r|] eqn:Hrc; [|done]. cbn in Hn.
  apply received_decoded in Hrc. subst r.
  assert (∀ call now pt, agrees (mkC pt zs (ts ++ [(srv, args, o)])) call now → ∃ n, ∀ fuel,
    ShardCtrler.retry call (stamping now) (sh_wrong sh) (n + S fuel) srvs (first_args now) [] =
    match decoded (sh_dec sh) o with
    | Some r => if sh_wrong sh r then goes_on call now todo args (fst <$> ts ++ [(srv, args, o)]) fuel
                else (fst <$> ts ++ [(srv, args, o)], Some r)
    | None => goes_on call now todo args (fst <$> ts ++ [(srv, args, o)]) fuel
    end) as Hgo.
  { intros call now pt Hag. destruct (proj2 Hr call now) as [n Hn'].
    { eapply (agrees_app (mkC (CTry args stamped (srv :: todo)) zs ts) _ [] [_]). cbn. by rewrite app_nil_r. }
    exists n. intros fuel. rewrite Hn'. by apply (goes_on_reply (mkC (CTry args stamped (srv :: todo)) zs ts) args stamped). }
  assert (sh_each sh = true → length zs = length (ts ++ [(srv, args, o)]) + 0 ∧ (false = true →
    ∀ z, zs !! length (ts ++ [(srv, args, o)]) = Some z → sh_stamp sh z args = args)) as Hz.
  { intros Hea. destruct (proj1 Hr Hea) as [Hl _]. rewrite Hea in Hs. destruct stamped; [|done]. cbn in Hl.
    rewrite length_app. cbn. by split; [lia|]. }
  destruct (decoded (sh_dec sh) o) as [r|]; [destruct (sh_wrong sh r)|]; injection Hn as <-;
    [split; [exact Hz|]| |split; [exact Hz|]]; intros call now Hag; exact (Hgo call now _ Hag).
Qed.

Lemma refines_resume st i st' :
  expects (ctrl_act st) i = true → refines st → ctrl_resume st i = Ok st' → refines st'.
Proof using stamp_over.
  intros He Hr Hn. destruct st as [pt zs ts]. unfold ctrl_resume in Hn. unfold ctrl_act in He. cbn in Hn, He.
  destruct pt as [args|args stamped [|srv todo]|r].
  - destruct i as [|z| |]; try done. injection Hn as <-. destruct Hr as (-> & Ht & Hz & Hea). cbn in Ht, Hz. subst.
    split; [by rewrite Hea|]. intros call now [_ Hnow]. exists 0. intros fuel. cbn.
    unfold goes_on, first_args. by rewrite Hea, (Hnow 0 z eq_refl).
  - destruct i; try done. assert (st' = mkC (CTry args stamped srvs) zs ts) as -> by (by destruct stamped; simplify_eq).
    destruct Hr as [Hst Hr]. split; [done|]. intros call now Hag. destruct (Hr call now Hag) as [n Hn'].
    exists (S n). intros fuel. specialize (Hn' (S fuel)). cbn in Hn'. by rewrite Nat.add_succ_l, <-Nat.add_succ_r, Hn'.
  - destruct (sh_each sh && negb stamped) eqn:Hs.
    + apply andb_prop in Hs as [Hea Hns]. destruct stamped; [done|]. destruct i as [|z| |]; try done.
      injection Hn as <-. destruct Hr as [Hst Hr]. cbn in Hst, Hr. destruct (Hst Hea) as [Hl _]. split.
      * intros _. cbn. rewrite length_app, Hl. cbn. split; [lia|]. intros _ z'.
        rewrite Nat.add_0_r in Hl. rewrite <-Hl, list_lookup_middle by done. intros [= <-]. apply stamp_over.
      * intros call now Hag. destruct (Hr call now) as [n Hn'].
        { eapply (agrees_app (mkC (CTry args false (srv :: todo)) zs ts) _ [z] []). cbn. by rewrite app_nil_r. }
        exists n. intros fuel. rewrite Hn'. cbn. apply goes_on_stamp. rewrite length_fmap. unfold stamping.
        by rewrite Hea, stamp_over.
    + destruct i as [o| | |]; try done. apply (refines_reply args stamped srv todo zs ts o st' Hs Hr). by destruct stamped.
  - done.
Qed.

(** *** What the remote calls gave *)

Definition request_of (e : iface) (a : A) : reqMsg :=
  {| r_endname := e; r_svcMeth := sh_meth sh; r_args := sh_enc sh a |}.

(** Every answer is what a handler returned that was executed once, for that request. *)
Definition genuine (w : world) st : Prop :=
  ∀ e a i s, (e, a, Some (i, s)) ∈ tried st → served w i (request_of e a) s.

(** The call has returned what the last request got. *)
Definition ended st : Prop :=
  match point st with
  | CDone r => ∃ e a i s, last (tried st) = Some (e, a, Some (i, s)) ∧ sh_dec sh s = Some r ∧ sh_wrong sh r = false
  | _ => True
  end.

Record ctrl_inv (w : world) st : Prop := {
  cl_refines : refines st;
  cl_genuine : genuine w st;
  cl_ended : ended st }.

Lemma ctrl_inv_start w : ctrl_inv w (ctrl_start args0).
Proof.
  split; [apply refines_start|by intros e a i s ?%not_elem_of_nil|].
  unfold ended, ctrl_start. by destruct (sh_each sh).
Qed.

Lemma ctrl_inv_net w w' st : steps step start w → step w w' → ctrl_inv w st → ctrl_inv w' st.
Proof. intros Hw Hst []. split; [done| |done]. intros e a i s Hin. eapply served_step; eauto. Qed.

Lemma ctrl_resume_tried st i st' :
  expects (ctrl_act st) i = true → ctrl_resume st i = Ok st' →
  (tried st' = tried st ∧ (∀ r, point st' ≠ CDone r) ∧ ∀ o, i ≠ IReply o) ∨
  ∃ e a o, i = IReply o ∧ ctrl_act st = ACall (request_of e a) ∧ tried st' = tried st ++ [(e, a, o)] ∧
    ∀ r, point st' = CDone r → ∃ j s, o = Some (j, s) ∧ sh_dec sh s = Some r ∧ sh_wrong sh r = false.
Proof.
  intros He Hn. destruct st as [pt zs ts]. unfold ctrl_resume in Hn. unfold ctrl_act in He |- *. cbn in Hn, He |- *.
  destruct pt as [args|args stamped [|srv todo]|r]; [| | |done].
  - left. destruct i; try done. by injection Hn as <-.
  - left. destruct i, stamped; try done; by injection Hn as <-.
  - destruct (sh_each sh && negb stamped) eqn:Hs.
    + left. destruct i, stamped; try done; by injection Hn as <-.
    + right. destruct i as [o| | |]; try done. exists srv, args, o. split_and!; [done|done|..].
      all: destruct stamped; cbn in Hn; destruct (received o (sh_dec sh)) as [r|] eqn:Hr;
        cbn in Hn; try discriminate Hn; apply received_decoded in Hr; subst r; destruct (decoded (sh_dec sh) o) as [r|] eqn:Hd;
        injection Hn as <-; try done; destruct (sh_wrong sh r) eqn:Hw; try done; cbn; intros r' [= <-];
        destruct o as [[j s]|]; try done; by exists j, s.
Qed.

Lemma ctrl_inv_resume w st i st' :
  expects (ctrl_act st) i = true → ctrl_inv w st →
  (∀ q j s, ctrl_act st = ACall q → i = IReply (Some (j, s)) → served w j q s) →
  ctrl_resume st i = Ok st' → ctrl_inv w st'.
Proof using stamp_over.
  intros He [Hr Hg Hd] Hserved Hn. split; [by eapply refines_resume|..].
  - intros e a j s Hin. destruct (ctrl_resume_tried st i st' He Hn) as [(E & _)|(e' & a' & o & -> & Ha & E & _)];
      rewrite E in Hin; [by apply Hg|]. apply elem_of_app in Hin as [?|Hin%list_elem_of_singleton]; [by apply Hg|].
    injection Hin as <- <- <-. by apply Hserved.
  - unfold ended. destruct (point st') as [| |r] eqn:Hp; try done.
    destruct (ctrl_resume_tried st i st' He Hn) as [(_ & Hno & _)|(e & a & o & _ & _ & E & Hdone)];
      [by destruct (Hno r)|]. destruct (Hdone r Hp) as (j & s & -> & ? & ?).
    exists e, a, j, s. by rewrite E, last_snoc.
Qed.

Lemma ctrl_run w0 s :
  steps step start w0 → rtc (system_step ctrl_prog) (mkSystem w0 (ctrl_start args0) None) s →
  ctrl_inv (wld s) (here s).
Proof using stamp_over.
  intros Hw Hrun. refine (proj2 (proj2 (system_inv ctrl_prog ctrl_inv _ _ _ w0 _ s Hw (ctrl_inv_start w0) Hrun))).
  - apply ctrl_inv_net.
  - intros w st q o st' Ha Hi Hserved Hn. cbn in Ha. eapply ctrl_inv_resume; [|done| |done]; [by rewrite Ha|].
    intros q' j x Ha' [= ->]. rewrite Ha in Ha'. injection Ha' as <-. by apply Hserved.
  - intros w st i st' He Hno Hi Hn. eapply ctrl_inv_resume; [done|done| |done]. intros q j x _ ->. by destruct (Hno (Some (j, x))).
Qed.
End ctrl.

(** C17. A call of the controller's clerk, on any network, computes what the loops of
[ShardCtrler.retry] say of it.  When it returns, the requests it has sent and its
result are those of [retry], for an oracle that gives for each request what the
network gave; every answer it got is the reply of a handler that was executed exactly
once, for the very request; and the result is the reply of the last, which did not
say that the leader is wrong. *)
Theorem ctrl_clerk_refines {A R} (sh : shape A R) srvs args0 w0 s reply :
  (∀ i j a, sh_stamp sh j (sh_stamp sh i a) = sh_stamp sh j a) → steps step start w0 →
  rtc (system_step (ctrl_prog sh srvs)) (mkSystem w0 (ctrl_start sh srvs args0) None) s →
  point (here s) = CDone reply →
  let st := here s in
  (∃ n, ∀ fuel, ShardCtrler.retry (oracle sh st) (stamping sh (clock_of st)) (sh_wrong sh) (n + S fuel) srvs
      (first_args sh args0 (clock_of st)) [] = (fst <$> tried st, Some reply)) ∧
  (∀ e a i r, (e, a, Some (i, r)) ∈ tried st → served (wld s) i (request_of sh e a) r) ∧
  ∃ e a i r, last (tried st) = Some (e, a, Some (i, r)) ∧ sh_dec sh r = Some reply ∧ sh_wrong sh reply = false.
Proof.
  intros Hover Hw Hrun Hp st. destruct (ctrl_run sh srvs Hover args0 w0 s Hw Hrun) as [Hr Hg He].
  unfold refines in Hr. unfold ended in He. rewrite Hp in Hr, He.
  split_and!; [|done|done]. apply Hr, oracle_agrees.
Qed.

(** ** The four calls *)

Section codes.
Context (enc_query : ShardCtrler.QueryArgs → string) (dec_query : string → option ShardCtrler.QueryReply).
Context (enc_join : ShardCtrler.JoinArgs → string) (enc_leave : ShardCtrler.LeaveArgs → string).
Context (enc_move : ShardCtrler.MoveArgs → string) (dec_ack : string → option ShardCtrler.AckReply).

Definition query_shape : shape ShardCtrler.QueryArgs ShardCtrler.QueryReply :=
  mkShape "ShardCtrler.Query" enc_query dec_query ShardCtrler.q_WrongLeader
    (λ z a, ShardCtrler.mkQueryArgs (ShardCtrler.q_Num a) (ShardCtrler.q_ClientId a) z) false.
Definition join_shape : shape ShardCtrler.JoinArgs ShardCtrler.AckReply :=
  mkShape "ShardCtrler.Join" enc_join dec_ack ShardCtrler.a_WrongLeader
    (λ z a, ShardCtrler.mkJoinArgs (ShardCtrler.j_Servers a) (ShardCtrler.j_ClientId a) z) true.
Definition leave_shape : shape ShardCtrler.LeaveArgs ShardCtrler.AckReply :=
  mkShape "ShardCtrler.Leave" enc_leave dec_ack ShardCtrler.a_WrongLeader
    (λ z a, ShardCtrler.mkLeaveArgs (ShardCtrler.l_GIDs a) (ShardCtrler.l_ClientId a) z) true.
Definition move_shape : shape ShardCtrler.MoveArgs ShardCtrler.AckReply :=
  mkShape "ShardCtrler.Move" enc_move dec_ack ShardCtrler.a_WrongLeader
    (λ z a, ShardCtrler.mkMoveArgs (ShardCtrler.m_Shard a) (ShardCtrler.m_GID a) (ShardCtrler.m_ClientId a) z) false.

Context (ck : ShardCtrler.Clerk iface).

Definition query_start (num : Z) : cstate _ _ :=
  ctrl_start query_shape (ShardCtrler.servers ck) (ShardCtrler.mkQueryArgs num (ShardCtrler.clientID ck) 0).
Definition join_start (srvs : gmap Z (list string)) : cstate _ _ :=
  ctrl_start join_shape (ShardCtrler.servers ck) (ShardCtrler.mkJoinArgs srvs (ShardCtrler.clientID ck) 0).
Definition leave_start (gids : list Z) : cstate _ _ :=
  ctrl_start leave_shape (ShardCtrler.servers ck) (ShardCtrler.mkLeaveArgs gids (ShardCtrler.clientID ck) 0).
Definition move_start (shard gid : Z) : cstate _ _ :=
  ctrl_start move_shape (ShardCtrler.servers ck) (ShardCtrler.mkMoveArgs shard gid (ShardCtrler.clientID ck) 0).

Lemma retry_of {A R} (sh : shape A R) args0 w0 s reply :
  (∀ i j a, sh_stamp sh j (sh_stamp sh i a) = sh_stamp sh j a) → steps step start w0 →
  rtc (system_step (ctrl_prog sh (ShardCtrler.servers ck)))
    (mkSystem w0 (ctrl_start sh (ShardCtrler.servers ck) args0) None) s →
  point (here s) = CDone reply →
  ∃ fuel, ShardCtrler.retry (oracle sh (here s)) (stamping sh (clock_of (here s))) (sh_wrong sh) fuel
    (ShardCtrler.servers ck) (first_args sh args0 (clock_of (here s))) [] = (fst <$> tried (here s), Some reply).
Proof.
  intros Hover Hw Hrun Hp. destruct (ctrl_run sh _ Hover args0 w0 s Hw Hrun) as [Hr _ _].
  unfold refines in Hr. rewrite Hp in Hr. destruct (Hr _ _ (oracle_agrees sh (here s))) as [n Hn].
  by exists (n + 1).
Qed.

(** The four calls are those of [ShardCtrler]. *)
Lemma Query_refines num w0 s reply :
  steps step start w0 →
  rtc (system_step (ctrl_prog query_shape (ShardCtrler.servers ck))) (mkSystem w0 (query_start num) None) s →
  point (here s) = CDone reply →
  ∃ fuel, ShardCtrler.Query ck (oracle query_shape (here s)) (clock_of (here s)) num fuel
    = (fst <$> tried (here s), Some (ShardCtrler.q_Config reply)).
Proof.
  intros Hw Hrun Hp. edestruct (retry_of query_shape) as [fuel E]; [done|exact Hw|exact Hrun|exact Hp|].
  exists fuel. unfold ShardCtrler.Query. unfold stamping, first_args in E. cbn in E. by rewrite E.
Qed.

Lemma Join_refines srvs w0 s reply :
  steps step start w0 →
  rtc (system_step (ctrl_prog join_shape (ShardCtrler.servers ck))) (mkSystem w0 (join_start srvs) None) s →
  point (here s) = CDone reply →
  ∃ fuel, ShardCtrler.Join ck (oracle join_shape (here s)) (clock_of (here s)) srvs fuel
    = (fst <$> tried (here s), Some ()).
Proof.
  intros Hw Hrun Hp. edestruct (retry_of join_shape) as [fuel E]; [done|exact Hw|exact Hrun|exact Hp|].
  exists fuel. unfold ShardCtrler.Join. unfold stamping, first_args in E. cbn in E. by rewrite E.
Qed.

Lemma Leave_refines gids w0 s reply :
  steps step start w0 →
  rtc (system_step (ctrl_prog leave_shape (ShardCtrler.servers ck))) (mkSystem w0 (leave_start gids) None) s →
  point (here s) = CDone reply →
  ∃ fuel, ShardCtrler.Leave ck (oracle leave_shape (here s)) (clock_of (here s)) gids fuel
    = (fst <$> tried (here s), Some ()).
Proof.
  intros Hw Hrun Hp. edestruct (retry_of leave_shape) as [fuel E]; [done|exact Hw|exact Hrun|exact Hp|].
  exists fuel. unfold ShardCtrler.Leave. unfold stamping, first_args in E. cbn in E. by rewrite E.
Qed.

Lemma Move_refines shard gid w0 s reply :
  steps step start w0 →
  rtc (system_step (ctrl_prog move_shape (ShardCtrler.servers ck))) (mkSystem w0 (move_start shard gid) None) s →
  point (here s) = CDone reply →
  ∃ fuel, ShardCtrler.Move ck (oracle move_shape (here s)) (clock_of (here s)) shard gid fuel
    = (fst <$> tried (here s), Some ()).
Proof.
  intros Hw Hrun Hp. edestruct (retry_of move_shape) as [fuel E]; [done|exact Hw|exact Hrun|exact Hp|].
  exists fuel. unfold ShardCtrler.Move. unfold stamping, first_args in E. cbn in E. by rewrite E.
Qed.
End codes.
End Clerks.
