(* ===== verification/CtrlEndToEnd.v ===== *)
(** * The controller end to end: clerk, network and service

A client of [Client], the network of [Labrpc] between, and the servers of
[CtrlCluster] behind it, in one step machine.  A handler of the service starts when
the network dispatches its request; it is a call of [sendToRaftAndWait] at some
instance, and when this has returned, the handler returns its reply to the network.
The handlers themselves ([Join], [Leave], [Move], [Query]) are hidden: what operation
they make of a request and what reply of the result are parameters. *)

From S2P Require Import Prelude GoStrings RaftPeer Labrpc ShardCtrler CtrlCluster Client Clerks Gob Messages HarnessNet KvHarness.
From stdpp Require Import options.
Import Labrpc Client CtrlCluster.

Module CtrlEndToEnd.
Import ShardCtrler (Handlers, Op, Returned, calls, ClientId, TimeStamp, configs, zero_config, run_command).

(** ** The machine *)

(** The hidden handlers: the methods, the operation for the bytes of a request, and the
bytes of the reply for what [sendToRaftAndWait] returned. *)
Record rpcs := mkRpcs {
  methods : list string;
  op_for : string → string → Op;
  answer : string → bool → Op → string }.

(** [running] has for a request the instance that handles it, and the call there. *)
Record joint (S : Type) := mkJoint {
  client : system S; ctrl : service; running : gmap nat (nat * nat) }.
Arguments mkJoint {S} _ _ _.
Arguments client {S} _.
Arguments ctrl {S} _.
Arguments running {S} _.

Inductive jlabel :=
| JClient (l : slabel)                              (* the client, the network, other servers *)
| JHandle (i j : nat) (started : option Z)          (* request [i] reaches instance [j] *)
| JReturn (i : nat)
| JCtrl (l : clabel).                               (* the service, and its other requests *)

Section joint.
Context `{hs : Handlers} (rp : rpcs) {S : Type} (p : prog S).
Implicit Types (s : joint S) (w : world).

Definition ours w (i : nat) : bool :=
  match reqs w !! i with
  | Some x => bool_decide (r_svcMeth (rq x) ∈ methods rp)
  | None => false
  end.

Definition handler_label (l : slabel) : option nat :=
  match l with SNet (LDispatch i) | SNet (LReturn i _) => Some i | _ => None end.

Definition joint_next s (l : jlabel) : option (joint S) :=
  let w := wld (client s) in
  match l with
  | JClient l =>
      if match handler_label l with Some i => ours w i | None => false end then None
      else cl ← system_ok p (client s) l; Some (mkJoint cl (ctrl s) (running s))
  | JHandle i j started =>
      x ← reqs w !! i; v ← insts (ctrl s) !! j;
      if ours w i then
        let op := op_for rp (r_svcMeth (rq x)) (r_args (rq x)) in
        cl ← system_ok p (client s) (SNet (LDispatch i));
        c ← service_next (ctrl s) (match started with
                                   | Some index => CSubmit j op index
                                   | None => CLocal j (ShardCtrler.LSubmit op None)
                                   end);
        Some (mkJoint cl c (<[i := (j, length (calls v))]> (running s)))
      else None
  | JReturn i =>
      x ← reqs w !! i; '(j, k) ← running s !! i; v ← insts (ctrl s) !! j;
      match calls v !! k with
      | Some (Returned _ _ ok r) =>
          cl ← system_ok p (client s) (SNet (LReturn i (answer rp (r_svcMeth (rq x)) ok r)));
          Some (mkJoint cl (ctrl s) (running s))
      | _ => None
      end
  | JCtrl l => c ← service_next (ctrl s) l; Some (mkJoint (client s) c (running s))
  end.

Definition joint_step s s' : Prop := ∃ l, joint_next s l = Some s'.

(** ** What becomes of a call of [sendToRaftAndWait] *)

Definition call_op (c : ShardCtrler.call_state) : Op :=
  match c with ShardCtrler.Started op _ | ShardCtrler.Waiting op _ | Returned op _ _ _ => op end.

Definition becomes (c c' : ShardCtrler.call_state) : Prop :=
  call_op c' = call_op c ∧ ∀ op oi ok r, c = Returned op oi ok r → c' = c.

Lemma becomes_refl c : becomes c c.
Proof. done. Qed.

Lemma call_becomes v l v' k c :
  ShardCtrler.next v l = Some v' → calls v !! k = Some c → ∃ c', calls v' !! k = Some c' ∧ becomes c c'.
Proof.
  intros Hn Hk.
  assert (∀ i c0 c1, calls v !! i = Some c0 → becomes c0 c1 →
    ∃ c', <[i := c1]> (calls v) !! k = Some c' ∧ becomes c c') as Hins.
  { intros i c0 c1 Hi Hb. destruct (decide (i = k)) as [->|Hne].
    - rewrite list_lookup_insert_eq by by eapply lookup_lt_Some. exists c1. by simplify_eq.
    - rewrite list_lookup_insert_ne by done. eauto using becomes_refl. }
  destruct l as [op [idx|]|i|i|i|m| |]; cbn [ShardCtrler.next] in Hn.
  1,2: simplify_eq; exists c; cbn; by rewrite lookup_app_l by by eapply lookup_lt_Some.
  - destruct (calls v !! i) as [[]|] eqn:Hi; try done. case_match; simplify_eq. by eapply Hins.
  - destruct (calls v !! i) as [[]|] eqn:Hi; try done. repeat case_match; simplify_eq; by eapply Hins.
  - destruct (calls v !! i) as [[]|] eqn:Hi; try done. simplify_eq. by eapply Hins.
  - repeat case_match; simplify_eq. eauto using becomes_refl.
  - repeat case_match; simplify_eq. eauto using becomes_refl.
  - simplify_eq. eauto using becomes_refl.
Qed.

Lemma inst_step_call c j l iss c' j' v k x :
  inst_step c j l iss = Some c' → insts c !! j' = Some v → calls v !! k = Some x →
  ∃ v' x', insts c' !! j' = Some v' ∧ calls v' !! k = Some x' ∧ becomes x x'.
Proof.
  unfold inst_step. intros Hs Hj Hk. destruct (insts c !! j) as [v0|] eqn:Hj0; [|done].
  destruct (ShardCtrler.next v0 l) as [v1|] eqn:Hn; [|done]. injection Hs as <-. cbn.
  destruct (decide (j = j')) as [->|Hne].
  - rewrite list_lookup_insert_eq by by eapply lookup_lt_Some. simplify_eq.
    destruct (call_becomes _ _ _ _ _ Hn Hk) as (x' & ? & ?). eauto.
  - rewrite list_lookup_insert_ne by done. eauto using becomes_refl.
Qed.

Lemma service_call c l c' j v k x :
  service_next c l = Some c' → insts c !! j = Some v → calls v !! k = Some x →
  ∃ v' x', insts c' !! j = Some v' ∧ calls v' !! k = Some x' ∧ becomes x x'.
Proof.
  intros Hs Hj Hk. destruct l as [me|j0 l|j0 op idx|e|j0]; cbn [service_next] in Hs.
  - rewrite ShardCtrler.StartServer_spec in Hs. injection Hs as <-. cbn.
    rewrite lookup_app_l by by eapply lookup_lt_Some. eauto using becomes_refl.
  - destruct (is_local l); [|done]. by eapply inst_step_call.
  - by eapply inst_step_call.
  - case_match; [|done]. injection Hs as <-. eauto using becomes_refl.
  - repeat case_match; try done. by eapply inst_step_call.
Qed.

(** ** What becomes of a request *)

Definition live (h : hstate) : Prop := h = HStarted ∨ ∃ r, h = HReturned r.

Lemma rstep_live w x l rn h x' :
  rstep w x l = Some (Ok (rn, h, x')) → live (hd x') →
  rq x' = rq x ∧ (hd x = hd x' ∨ (∃ i, l = LDispatch i ∧ hd x' = HStarted) ∨
    ∃ i r, l = LReturn i r ∧ hd x = HStarted ∧ hd x' = HReturned r).
Proof.
  destruct x as [q p0 h0 n]. intros Hs Hl. destruct l; cbn in Hs; try done; destruct p0; rstep_cases Hs; cbn in *;
    (split; [done|]); first [by left|by right; left; eauto|by right; right; eauto|by destruct Hl as [|[]]].
Qed.

(** A request that a step leaves dispatched was so, or this step is that of its handler. *)
Lemma net_live w l w' i x' :
  next w l = Some (Ok w') → reqs w' !! i = Some x' → live (hd x') →
  ∃ x, reqs w !! i = Some x ∧ rq x' = rq x ∧
    (hd x = hd x' ∨ (l = LDispatch i ∧ hd x' = HStarted) ∨ ∃ r, l = LReturn i r ∧ hd x = HStarted ∧ hd x' = HReturned r).
Proof.
  intros Hn Hi Hl. destruct (label_req l) as [i0|] eqn:Hr.
  - assert (∃ x0 rn h x1, reqs w !! i0 = Some x0 ∧ rstep w x0 l = Some (Ok (rn, h, x1)) ∧
      w' = mkWorld rn h (<[i0 := x1]> (reqs w))) as (x0 & rn & h & x1 & H0 & Hs & ->).
    { destruct l; cbn [label_req] in Hr; try done; injection Hr as ->; cbn [next label_req] in Hn;
        (destruct (reqs w !! i0) as [x0|]; [|done]); repeat case_match; simplify_eq; eauto 10. }
    cbn in Hi. apply list_lookup_insert_Some in Hi as [(<- & <- & _)|[Hne Hi]]; [|by exists x'; auto].
    destruct (rstep_live _ _ _ _ _ _ Hs Hl) as [Hq Hc]. exists x0. split_and!; [done..|].
    destruct Hc as [?|[(k & -> & ?)|(k & r & -> & ? & ?)]]; injection Hr as <- || idtac; [by left|by auto|by eauto 10].
  - exists x'. split_and!; [|done|by left]. destruct l as [op|q| | | | | | | | |]; try done; cbn in Hn.
    + by rewrite <-(apply_op_reqs _ _ _ Hn).
    + injection Hn as <-. cbn in Hi. apply lookup_app_Some in Hi as [?|[_ Hx]]; [done|].
      apply list_lookup_singleton_Some in Hx as [_ <-]. by destruct Hl as [|[]].
Qed.

Lemma system_world (t t' : system S) l :
  system_next p t l = Some (Ok t') →
  wld t' = wld t ∨ ∃ l', next (wld t) l' = Some (Ok (wld t')) ∧
    (l = SNet l' ∨ (∃ q, l' = LCall q) ∨ ∃ op, l' = LOp op).
Proof.
  intros Hs. destruct l as [l| | | |z|n|]; cbn in Hs; unfold advance in Hs.
  - right. exists l. destruct (next (wld t) l) as [[w|]|]; cbn in Hs; simplify_eq. by auto.
  - right. destruct (pending t), (act p (here t)) as [q| | | | |]; try done. exists (LCall q). cbn in Hs |- *.
    injection Hs as <-. eauto.
  - left. repeat case_match; simplify_eq; destruct (resume _ _ _); cbn in Hs; by simplify_eq.
  - left. repeat case_match; simplify_eq; destruct (resume _ _ _); cbn in Hs; by simplify_eq.
  - left. repeat case_match; simplify_eq; destruct (resume _ _ _); cbn in Hs; by simplify_eq.
  - left. repeat case_match; simplify_eq; destruct (resume _ _ _); cbn in Hs; by simplify_eq.
  - destruct (pending t); [done|]. destruct (act p (here t)) as [|op| | | |]; try done.
    + right. exists (LOp op). cbn. destruct (apply_op (wld t) op) as [[w|]|]; cbn in Hs; [|done..].
      destruct (resume _ _ _); cbn in Hs; simplify_eq. eauto.
    + left. destruct (resume _ _ _); cbn in Hs; by simplify_eq.
Qed.

Lemma net_world (t t' : system S) l : system_ok p t (SNet l) = Some t' → next (wld t) l = Some (Ok (wld t')).
Proof. unfold system_ok. cbn. destruct (next (wld t) l) as [[w|]|]; cbn; intros; by simplify_eq. Qed.

(** ** Handlers and calls *)

(** The call of a request that was dispatched; what the handler has returned is the
answer to what the call has returned. *)
Definition handled (c : service) (rn : gmap nat (nat * nat)) (i : nat) (x : rstate) : Prop :=
  ∃ j k v cs, rn !! i = Some (j, k) ∧ insts c !! j = Some v ∧ calls v !! k = Some cs ∧
    call_op cs = op_for rp (r_svcMeth (rq x)) (r_args (rq x)) ∧
    ∀ str, hd x = HReturned str → ∃ op oi ok r, cs = Returned op oi ok r ∧ str = answer rp (r_svcMeth (rq x)) ok r.

Definition accounted s : Prop :=
  ∀ i x, reqs (wld (client s)) !! i = Some x → r_svcMeth (rq x) ∈ methods rp → live (hd x) →
  handled (ctrl s) (running s) i x.

Lemma handled_service c l c' rn i x : service_next c l = Some c' → handled c rn i x → handled c' rn i x.
Proof.
  intros Hs (j & k & v & cs & Hrn & Hj & Hk & Hop & Hret).
  destruct (service_call _ _ _ _ _ _ _ Hs Hj Hk) as (v' & cs' & Hj' & Hk' & Hop' & Hb).
  exists j, k, v', cs'. split_and!; [done..|congruence|]. intros str Hstr.
  destruct (Hret str Hstr) as (op & oi & ok & r & -> & ->). rewrite (Hb _ _ _ _ eq_refl). eauto 10.
Qed.

Lemma handled_same c rn i x x' : rq x' = rq x → hd x = hd x' → handled c rn i x → handled c rn i x'.
Proof. unfold handled. by intros -> ->. Qed.

Lemma submitted c j v op started c' :
  service_next c (match started with
                  | Some index => CSubmit j op index
                  | None => CLocal j (ShardCtrler.LSubmit op None)
                  end) = Some c' →
  insts c !! j = Some v →
  ∃ v' cs, insts c' !! j = Some v' ∧ calls v' !! length (calls v) = Some cs ∧ call_op cs = op.
Proof.
  intros Hs Hj. pose proof (lookup_lt_Some _ _ _ Hj) as Hlt.
  destruct started as [idx|]; cbn in Hs; unfold inst_step in Hs; rewrite Hj in Hs; cbn in Hs; injection Hs as <-;
    cbn; rewrite list_lookup_insert_eq by done; eexists _, _; (split; [done|]); cbn;
    rewrite list_lookup_middle by done; by split.
Qed.

(** A handler starts once. *)
Lemma dispatch_fresh w i w' x : next w (LDispatch i) = Some (Ok w') → reqs w !! i = Some x → ¬ live (hd x).
Proof. cbn. intros Hn Hi. rewrite Hi in Hn. destruct (hd x); [by intros [|[]]..|done|done]. Qed.

Lemma accounted_client s l s' : accounted s → joint_next s (JClient l) = Some s' → accounted s'.
Proof.
  intros Ha Hl i x' Hi Hm Hlive. cbn [joint_next] in Hl.
  destruct (match handler_label l with Some _ => _ | None => _ end) eqn:Hg; [done|].
  destruct (system_ok p (client s) l) as [cl|] eqn:Hcl; cbn in Hl; [|done]. injection Hl as <-. cbn in *.
  unfold system_ok in Hcl. destruct (system_next p (client s) l) as [[t|]|] eqn:Hn; simplify_eq.
  destruct (system_world _ _ _ Hn) as [E|(l' & Hl' & Hwhich)]; [rewrite E in Hi; by apply Ha|].
  destruct (net_live _ _ _ _ _ Hl' Hi Hlive) as (x & Hx & Hq & [Hh|Hh]).
  { apply (handled_same _ _ _ x); [done..|]. apply Ha; [done|by rewrite <-Hq|by rewrite Hh]. }
  assert (handler_label (SNet l') = Some i) as Hlab by (destruct Hh as [[-> _]|(r & -> & _)]; done).
  destruct Hwhich as [->|[[q ->]|[op ->]]]; [|done..]. rewrite Hlab in Hg. unfold ours in Hg. rewrite Hx in Hg.
  apply bool_decide_eq_false in Hg. by rewrite Hq in Hm.
Qed.

Lemma accounted_handle s i0 j st s' : accounted s → joint_next s (JHandle i0 j st) = Some s' → accounted s'.
Proof.
  intros Ha Hl i x' Hi Hm Hlive. cbn [joint_next] in Hl.
  destruct (reqs (wld (client s)) !! i0) as [x0|] eqn:Hx0; cbn in Hl; [|done].
  destruct (insts (ctrl s) !! j) as [v|] eqn:Hj; cbn in Hl; [|done].
  destruct (ours _ _); [|done]. destruct (system_ok _ _ _) as [cl|] eqn:Hcl; cbn in Hl; [|done].
  destruct (service_next _ _) as [c|] eqn:Hc; cbn in Hl; [|done]. injection Hl as <-. cbn in *.
  apply net_world in Hcl. destruct (net_live _ _ _ _ _ Hcl Hi Hlive) as (x & Hx & Hq & Hcase).
  destruct (decide (i = i0)) as [->|Hne].
  - assert (x0 = x) as -> by congruence. destruct (submitted _ _ _ _ _ _ Hc Hj) as (v' & cs & Hv' & Hcs & Hop).
    exists j, (length (calls v)), v', cs. rewrite lookup_insert_eq, Hq. split_and!; [done..|].
    intros str Hstr. destruct Hcase as [Hh|[[_ Hh]|(r & Hr & _)]]; [|congruence|done].
    destruct (dispatch_fresh _ _ _ _ Hcl Hx). rewrite Hh. by right; eauto.
  - destruct Hcase as [Hh|[[[= ->] _]|(r & ? & _)]]; [|done..]. apply (handled_same _ _ _ x); [done..|].
    assert (handled (ctrl s) (running s) i x) as Hold by (apply Ha; [done|by rewrite <-Hq|by rewrite Hh]).
    apply (handled_service _ _ _ _ _ _ Hc) in Hold. unfold handled in *. by rewrite lookup_insert_ne.
Qed.

Lemma accounted_return s i0 s' : accounted s → joint_next s (JReturn i0) = Some s' → accounted s'.
Proof.
  intros Ha Hl i x' Hi Hm Hlive. cbn [joint_next] in Hl.
  destruct (reqs (wld (client s)) !! i0) as [x0|] eqn:Hx0; cbn in Hl; [|done].
  destruct (running s !! i0) as [[j k]|] eqn:Hrn; cbn in Hl; [|done].
  destruct (insts (ctrl s) !! j) as [v|] eqn:Hj; cbn in Hl; [|done].
  destruct (calls v !! k) as [[| |op oi ok r]|] eqn:Hk; try done.
  destruct (system_ok _ _ _) as [cl|] eqn:Hcl; cbn in Hl; [|done]. injection Hl as <-. cbn in *.
  apply net_world in Hcl. destruct (net_live _ _ _ _ _ Hcl Hi Hlive) as (x & Hx & Hq & Hcase).
  assert (live (hd x)) as Hlx by (destruct Hcase as [->|[[? _]|(? & _ & -> & _)]]; [done|done|by left]).
  pose proof (Ha i x Hx ltac:(by rewrite <-Hq) Hlx) as Hold.
  destruct Hcase as [Hh|[[? _]|(r' & Hr' & _ & Hh)]]; [by apply (handled_same _ _ _ x)|done|].
  injection Hr' as <- <-. assert (x0 = x) as -> by congruence.
  destruct Hold as (j' & k' & v' & cs & Hrn' & Hj' & Hk' & Hop & _).
  assert (j' = j ∧ k' = k) as [-> ->] by (split; congruence). assert (v' = v) as -> by congruence.
  assert (cs = Returned op oi ok r) as -> by congruence.
  exists j, k, v, (Returned op oi ok r). rewrite Hq. split_and!; [done..|]. intros str. rewrite Hh.
  intros [= <-]. eauto 10.
Qed.

Lemma accounted_step s s' : accounted s → joint_step s s' → accounted s'.
Proof.
  intros Ha [l Hl]. destruct l as [l|i0 j st|i0|l];
    [by eapply accounted_client|by eapply accounted_handle|by eapply accounted_return|].
  cbn in Hl. destruct (service_next (ctrl s) l) as [c|] eqn:Hc; cbn in Hl; [|done]. injection Hl as <-.
  intros i x Hi Hm Hlive. eapply handled_service; [exact Hc|]. by apply Ha.
Qed.

(** ** The parts of the machine *)

Lemma joint_parts s s' :
  joint_step s s' →
  (client s' = client s ∨ ∃ l, system_ok p (client s) l = Some (client s')) ∧
  (ctrl s' = ctrl s ∨ ∃ l, service_next (ctrl s) l = Some (ctrl s')).
Proof.
  intros [l Hl]. destruct l as [l|i j st|i|l]; cbn [joint_next] in Hl.
  - case_match; [done|]. apply bind_Some in Hl as (cl & Hcl & [= <-]). cbn. eauto.
  - apply bind_Some in Hl as (x & _ & Hl). apply bind_Some in Hl as (v & _ & Hl). case_match; [|done].
    apply bind_Some in Hl as (cl & Hcl & Hl). apply bind_Some in Hl as (c & Hc & [= <-]). cbn.
    split; right; eexists; [exact Hcl|exact Hc].
  - apply bind_Some in Hl as (x & _ & Hl). apply bind_Some in Hl as ([j k] & _ & Hl).
    apply bind_Some in Hl as (v & _ & Hl). destruct (calls v !! k) as [[| |op oi ok r]|]; try done.
    apply bind_Some in Hl as (cl & Hcl & [= <-]). cbn. eauto.
  - apply bind_Some in Hl as (c & Hc & [= <-]). cbn. eauto.
Qed.

Lemma joint_run s s' :
  rtc joint_step s s' → accounted s →
  accounted s' ∧ rtc (system_step p) (client s) (client s') ∧ steps service_step (ctrl s) (ctrl s').
Proof.
  induction 1 as [s|s s1 s' Hst _ IH]; intros Ha; [by split_and!; [|apply rtc_refl|apply steps_refl]|].
  destruct (IH (accounted_step _ _ Ha Hst)) as (Ha' & Hcl & Hct). destruct (joint_parts _ _ Hst) as [Hc Hs].
  split_and!; [done|..].
  - destruct Hc as [<-|[l Hl]]; [done|]. eapply rtc_l; [by eapply system_ok_step|done].
  - destruct Hs as [<-|[l Hl]]; [done|]. eapply steps_trans; [apply steps_one; by exists l|done].
Qed.

(** A request that was served, of ours, is a call that has returned. *)
Lemma served_call s i q str :
  accounted s → served (wld (client s)) i q str → r_svcMeth q ∈ methods rp →
  ∃ j v oi ok r, insts (ctrl s) !! j = Some v ∧ str = answer rp (r_svcMeth q) ok r ∧
    Returned (op_for rp (r_svcMeth q) (r_args q)) oi ok r ∈ calls v.
Proof.
  intros Ha (x & Hi & <- & Hh & _) Hm. destruct (Ha i x Hi Hm) as (j & k & v & cs & _ & Hj & Hk & Hop & Hret).
  { right. eauto. }
  destruct (Hret str Hh) as (op & oi & ok & r & -> & ->). cbn in Hop. subst op.
  exists j, v, oi, ok, r. split_and!; [done..|]. by eapply list_elem_of_lookup_2.
Qed.

(** At the beginning nothing of ours is under way. *)
Lemma accounted_start s :
  (∀ x, x ∈ reqs (wld (client s)) → r_svcMeth (rq x) ∉ methods rp) → accounted s.
Proof. intros Hno i x Hi Hm. destruct (Hno x); [by eapply list_elem_of_lookup_2|done]. Qed.
End joint.

(** ** The controller's clerk *)

Section clerk.
Context `{hs : Handlers} `{laws : !HandlerLaws} (rp : rpcs) {A R : Type} (sh : Clerks.shape A R) (srvs : list iface).
Context (cid : Z) (args0 : A).

(** What is asked of the hidden handler of the method: its operation has the client and
the time of the request, and when [sendToRaftAndWait] returns false it says that the
leader is wrong. *)
Record rpc_laws : Prop := {
  rl_method : Clerks.sh_meth sh ∈ methods rp;
  rl_ids : ∀ z, ids (op_for rp (Clerks.sh_meth sh) (Clerks.sh_enc sh (Clerks.sh_stamp sh z args0))) = (cid, z);
  rl_wrong : ∀ r reply, Clerks.sh_dec sh (answer rp (Clerks.sh_meth sh) false r) = Some reply →
    Clerks.sh_wrong sh reply = true }.

Abbreviation program := (Clerks.ctrl_prog sh srvs).

(** A call that begins: what was on the network and in the service before is arbitrary. *)
Record begins (s0 : joint (Clerks.cstate A R)) : Prop := {
  bg_client : here (client s0) = Clerks.ctrl_start sh srvs args0 ∧ pending (client s0) = None;
  bg_net : steps step start (wld (client s0));
  bg_ctrl : reached (ctrl s0);
  bg_acc : accounted rp s0 }.

Hypothesis stamp_over : ∀ i j a, Clerks.sh_stamp sh j (Clerks.sh_stamp sh i a) = Clerks.sh_stamp sh j a.

(** The arguments of all attempts are those of the call, with a time. *)
Lemma tried_stamped w st reply e a o :
  Clerks.ctrl_inv sh srvs args0 w st → Clerks.point st = Clerks.CDone reply → (e, a, o) ∈ Clerks.tried st →
  ∃ z, a = Clerks.sh_stamp sh z args0 ∧ (Clerks.sh_each sh = false → z = Clerks.clock_of st 0).
Proof using stamp_over.
  intros [Hr _ _] Hp [k Hk]%list_elem_of_lookup. unfold Clerks.refines in Hr. rewrite Hp in Hr.
  destruct (Hr _ _ (Clerks.oracle_agrees sh st)) as [n Hn]. specialize (Hn 0).
  eapply ShardCtrler.retry_sent with (j := k) (srv := e) (args := a) in Hn as [-> _].
  - unfold Clerks.stamping, Clerks.first_args. destruct (Clerks.sh_each sh); [|by eauto].
    by exists (Clerks.clock_of st k).
  - intros i j b. unfold Clerks.stamping. by destruct (Clerks.sh_each sh).
  - by rewrite list_lookup_fmap, Hk.
Qed.

Lemma clerk_inv s0 s :
  begins s0 → rtc (joint_step rp program) s0 s → Clerks.ctrl_inv sh srvs args0 (wld (client s)) (here (client s)).
Proof using stamp_over.
  intros [[Hst Hpd] Hw _ Ha] Hrun. destruct (joint_run rp program _ _ Hrun Ha) as (_ & Hcl & _).
  apply (Clerks.ctrl_run sh srvs stamp_over args0 (wld (client s0))); [done|].
  destruct (client s0) as [w0 st0 pd0]. cbn in *. by subst.
Qed.

(** What a call that has returned stands for. *)
Lemma call_returned s0 s reply :
  rpc_laws → begins s0 → rtc (joint_step rp program) s0 s → Clerks.point (here (client s)) = Clerks.CDone reply →
  ∃ z e i x j v idx r,
    last (Clerks.tried (here (client s))) = Some (e, Clerks.sh_stamp sh z args0, Some (i, x)) ∧
    insts (ctrl s) !! j = Some v ∧
    Returned (op_for rp (Clerks.sh_meth sh) (Clerks.sh_enc sh (Clerks.sh_stamp sh z args0))) (Some idx) true r ∈ calls v ∧
    Clerks.sh_dec sh (answer rp (Clerks.sh_meth sh) true r) = Some reply.
Proof using stamp_over laws.
  intros [Hm Hids Hwrong] Hb Hrun Hp. pose proof (clerk_inv s0 s Hb Hrun) as Hinv. destruct Hb as [_ _ Hc Ha].
  destruct (joint_run rp program _ _ Hrun Ha) as (Ha' & _ & Hct).
  pose proof Hinv as [_ Hg He]. unfold Clerks.ended in He. rewrite Hp in He. destruct He as (e & a & i & x & Hl & Hd & Hnw).
  assert ((e, a, Some (i, x)) ∈ Clerks.tried (here (client s))) as Hin by by apply last_Some_elem_of.
  destruct (tried_stamped _ _ _ _ _ _ Hinv Hp Hin) as (z & -> & _).
  destruct (served_call rp s i _ x Ha' (Hg _ _ _ _ Hin) Hm) as (j & v & oi & ok & r & Hj & -> & Hr). cbn in Hr, Hd.
  destruct ok; [|rewrite (Hwrong _ _ Hd) in Hnw; done].
  assert (service_inv (ctrl s)) as Hsi by (apply service_reached; by eapply steps_trans).
  destruct (acked_at _ _ _ _ _ _ Hsi Hj Hr) as (idx & _ & -> & _).
  by exists z, e, i, (answer rp (Clerks.sh_meth sh) true r), j, v, idx, r.
Qed.

(** C5. The answer a clerk returns is the state machine's.  Whatever the network loses,
delays or reorders, whatever servers fail or restart and whatever other clients ask:
when a call of the controller's clerk returns, its reply is the hidden handler's answer
to the result [r] of an operation of this client, with the time of the last attempt, at
a place [k] of the log that all servers share.  If nothing of this client with that time
or a later one comes before that place, [r] is the result of running the operation on
the configurations that everything before the place produces; otherwise the operation
was not run there, and [r] is the operation as it was sent.  If nothing of this client
with that time was in the log when the call began, then everything that was in it then
comes before the place: what was acknowledged before the call is seen by it. *)
Theorem clerk_answered s0 s reply :
  rpc_laws → begins s0 → rtc (joint_step rp program) s0 s → Clerks.point (here (client s)) = Clerks.CDone reply →
  ∃ z e i x k o r,
    let earlier := commands (take k (chosen (ctrl s))) in
    last (Clerks.tried (here (client s))) = Some (e, Clerks.sh_stamp sh z args0, Some (i, x)) ∧
    chosen (ctrl s) !! k = Some (Some o) ∧ ids o = (cid, z) ∧
    Clerks.sh_dec sh (answer rp (Clerks.sh_meth sh) true r) = Some reply ∧
    ((∀ o', o' ∈ earlier → ClientId o' = cid → (TimeStamp o' < z)%Z) →
     r = (ShardCtrler.run_command (ShardCtrler.spec_configs earlier) o).2) ∧
    ((∃ o', o' ∈ earlier ∧ ClientId o' = cid ∧ (z ≤ TimeStamp o')%Z) → r = o) ∧
    ((∀ o', o' ∈ commands (chosen (ctrl s0)) → ids o' ≠ (cid, z)) →
     chosen (ctrl s0) `prefix_of` take k (chosen (ctrl s))).
Proof using stamp_over laws.
  intros Hl Hb Hrun Hp. destruct (call_returned s0 s reply Hl Hb Hrun Hp) as (z & e & i & x & j & v & idx & r & Hlast & Hj & Hr & Hd).
  destruct (joint_run rp program _ _ Hrun (bg_acc _ Hb)) as (_ & _ & Hct).
  assert (service_inv (ctrl s)) as Hsi by (apply service_reached; eapply steps_trans; [apply (bg_ctrl _ Hb)|done]).
  destruct (acked_op _ _ _ _ _ _ Hsi Hj Hr) as (o & Ho & Hid & _ & _ & Er).
  destruct (result_cases _ _ _ _ Hid Er) as [Hnew Hold]. rewrite (rl_ids Hl) in Hid.
  pose proof (rl_ids Hl z) as [= E1 E2]. rewrite E1, E2 in Hnew, Hold.
  exists z, e, i, x, (Z.to_nat (idx - 1)), o, r. cbn zeta. split_and!; [done..|]. intros Hno.
  pose proof (chosen_grows _ _ Hct) as Hpre.
  destruct (decide (length (chosen (ctrl s0)) ≤ Z.to_nat (idx - 1))) as [Hle|Hgt].
  - rewrite <-(firstn_all (chosen (ctrl s0))). by apply take_prefix_of.
  - destruct (lookup_lt_is_Some_2 (chosen (ctrl s0)) (Z.to_nat (idx - 1))) as [y Hy]; [lia|].
    pose proof (prefix_lookup_Some _ _ _ _ Hy Hpre). assert (y = Some o) as -> by congruence.
    by destruct (Hno o (commands_elem _ _ _ Hy)).
Qed.

(** C4. Exactly once, end to end.  A call of [Move] or [Query], which take the time once,
sends the same arguments with every attempt.  Suppose that it has returned, and that up
to then the client has used no later time.  Then, at an index [idx] of the log, there is
an operation of this client with this time, and from then on, whatever becomes of the
attempts that are still on the network or with a server: there is one list of operations
of which every instance of a server, restarted ones too, has run the first so many, one
after the other, to get its configurations; the list has exactly one operation of this
client with this time; and every instance that has been told of the log up to [idx] has
run it. *)
Theorem clerk_exactly_once s0 s reply s' :
  rpc_laws → begins s0 → Clerks.sh_each sh = false → rtc (joint_step rp program) s0 s →
  Clerks.point (here (client s)) = Clerks.CDone reply →
  let z := Clerks.clock_of (here (client s)) 0 in
  (∀ o, o ∈ commands (chosen (ctrl s)) → ClientId o = cid → (TimeStamp o ≤ z)%Z) →
  rtc (joint_step rp program) s s' →
  (∀ e a o, (e, a, o) ∈ Clerks.tried (here (client s)) → a = Clerks.sh_stamp sh z args0) ∧
  ∃ before e after idx o,
    ShardCtrler.executed (commands (chosen (ctrl s'))) = before ++ e :: after ∧
    ids e = (cid, z) ∧ (∀ o', o' ∈ before ++ after → ids o' ≠ (cid, z)) ∧
    chosen (ctrl s) !! Z.to_nat (idx - 1) = Some (Some o) ∧ ids o = (cid, z) ∧
    ∀ j w, insts (ctrl s') !! j = Some w →
      ∃ ran, ran `prefix_of` before ++ e :: after ∧
        ShardCtrler.configs (ShardCtrler.sc w) =
          foldl (λ cs o, (ShardCtrler.run_command cs o).1) [zero_config] ran ∧
        ((idx ≤ Z.of_nat (length (ShardCtrler.log w)))%Z → e ∈ ran).
Proof using stamp_over laws.
  intros Hl Hb Heach Hrun Hp z Hmax Hrun'.
  destruct (joint_run rp program _ _ Hrun (bg_acc _ Hb)) as (Ha & Hcl & Hct).
  destruct (joint_run rp program _ _ Hrun' Ha) as (_ & _ & Hct').
  assert (∀ e a o, (e, a, o) ∈ Clerks.tried (here (client s)) → a = Clerks.sh_stamp sh z args0) as Hall.
  { intros e a o Hin. destruct (tried_stamped _ _ _ _ _ _ (clerk_inv s0 s Hb Hrun) Hp Hin) as (z' & -> & Hz).
    by rewrite (Hz Heach). }
  split; [done|].
  destruct (call_returned s0 s reply Hl Hb Hrun Hp) as (z' & e & i & x & j & v & idx & r & Hlast & Hj & Hr & Hd).
  apply last_Some_elem_of, Hall in Hlast. rewrite Hlast in Hr.
  assert (reached (ctrl s)) as Hs by (eapply steps_trans; [apply (bg_ctrl _ Hb)|done]).
  destruct (acked_op _ _ _ _ _ _ (service_reached _ Hs) Hj Hr) as (o & Ho & Hido & _).
  destruct (acked_exactly_once (ctrl s) j v _ idx r (ctrl s') Hs Hj Hr) as (b & e' & a & Heq & Hid & _ & Hno & Hran).
  - intros o' Ho' Hcid. pose proof (rl_ids Hl z) as [= E1 E2]. rewrite E1 in Hcid. rewrite E2. apply Hmax; [|done].
    eapply elem_of_prefix; [exact Ho'|]. apply commands_prefix, prefix_take.
  - done.
  - rewrite (rl_ids Hl) in Hid, Hno, Hido. by exists b, e', a, idx, o.
Qed.
End clerk.

(** ** A run

Two servers of the controller, with handlers for [Move] and [Query] that decode their
arguments.  The first attempt is executed, but the network drops the reply; the second
one is answered. *)

#[local] Existing Instance ShardCtrler.demo_handlers.
#[local] Existing Instance CtrlCluster.demo_laws.
#[local] Existing Instance Messages.plain_format.
Import (hints) Messages.

Definition bytes {T} `{!Messages.Message T} (a : T) : string :=
  default "" (Messages.marshal Messages.nobody Messages.demo_reg a).
Definition parsed {T} `{!Messages.Message T} (b : string) : option T :=
  Messages.unmarshal Messages.nobody Messages.demo_reg b.

Definition demo_move (b : string) : Op :=
  match parsed (T := ShardCtrler.MoveArgs) b with
  | Some a => ShardCtrler.mkOp "Move" ∅ [] (ShardCtrler.m_Shard a) (ShardCtrler.m_GID a) 0 zero_config
                (ShardCtrler.m_ClientId a) (ShardCtrler.m_TimeStamp a)
  | None => ShardCtrler.mkOp "" ∅ [] 0 0 0 zero_config 0 0
  end.
Definition demo_rpcs : rpcs := mkRpcs ["ShardCtrler.Move"] (λ _, demo_move)
  (λ _ ok _, bytes (ShardCtrler.mkAckReply (negb ok) (if ok then "OK" else ""))).

Definition demo_shape : Clerks.shape ShardCtrler.MoveArgs ShardCtrler.AckReply := Clerks.move_shape bytes parsed.
Definition demo_args : ShardCtrler.MoveArgs := ShardCtrler.mkMoveArgs 3 7 8 0.
Definition demo_servers : list iface := [IStr "c0"; IStr "c1"].

Definition demo_ops : list netop :=
  [OpMakeEnd (IStr "c0"); OpMakeEnd (IStr "c1");
   OpAddServer (IStr "s0") 0 KvHarness.ctl_server; OpAddServer (IStr "s1") 1 KvHarness.ctl_server;
   OpConnect (IStr "c0") (IStr "s0"); OpEnable (IStr "c0") true;
   OpConnect (IStr "c1") (IStr "s1"); OpEnable (IStr "c1") true; OpReliable false].
Definition demo_net : world := default start (run_labels next_ok start (LOp <$> demo_ops)).

Lemma demo_net_steps : steps step start demo_net.
Proof. apply (run_labels_reach (LOp <$> demo_ops)). vm_compute. reflexivity. Qed.

Definition demo_begin : joint (Clerks.cstate ShardCtrler.MoveArgs ShardCtrler.AckReply) :=
  mkJoint (mkSystem demo_net (Clerks.ctrl_start demo_shape demo_servers demo_args) None) demo_first ∅.

Definition to_handler (i : nat) : list jlabel := JClient <$> [SSend; SNet (LRead i); SNet (LSend i false)].
Definition the_move : Op := demo_move (bytes (ShardCtrler.mkMoveArgs 3 7 8 50)).

Definition demo_run : list jlabel :=
  [JClient (SClock 50)] ++ to_handler 0 ++
  [JHandle 0 0 (Some 2%Z); JCtrl (CLocal 0 (ShardCtrler.LLock 1)); JCtrl (CChoose (Some the_move)); JCtrl (CDeliver 0);
   JCtrl (CLocal 0 (ShardCtrler.LReceive 1)); JReturn 0; JClient (SNet (LRecv 0)); JClient (SNet (LCheck 0)); JClient (SNet (LFinal 0 true false));
   JClient SAnswer] ++ to_handler 1 ++
  [JHandle 1 1 (Some 3%Z); JCtrl (CLocal 1 (ShardCtrler.LLock 0)); JCtrl (CChoose (Some the_move));
   JCtrl (CDeliver 1); JCtrl (CDeliver 1); JCtrl (CDeliver 1);
   JCtrl (CLocal 1 (ShardCtrler.LReceive 0)); JReturn 1; JClient (SNet (LRecv 1)); JClient (SNet (LCheck 1)); JClient (SNet (LFinal 1 false false));
   JClient SAnswer].
Definition demo_prog := Clerks.ctrl_prog demo_shape demo_servers.
Definition demo_end := default demo_begin (run_labels (joint_next demo_rpcs demo_prog) demo_begin demo_run).

Lemma parsed_bytes {T} `{!Messages.Message T} (a : T) : Messages.fits a = true → parsed (bytes a) = Some a.
Proof.
  intros Ha. unfold parsed, bytes.
  destruct (Messages.unmarshal_marshal Messages.nobody Messages.demo_reg (Messages.demo_reg_sound Messages.nobody) a Ha)
    as (b & -> & _ & Hb). exact Hb.
Qed.

Lemma demo_move_ids z : ids (demo_move (bytes (ShardCtrler.mkMoveArgs 3 7 8 z))) = (8%Z, z).
Proof. unfold demo_move. by rewrite parsed_bytes. Qed.

Lemma demo_rpc_laws : rpc_laws demo_rpcs demo_shape 8 demo_args.
Proof.
  split.
  - left.
  - exact demo_move_ids.
  - intros r reply. change (parsed (bytes (ShardCtrler.mkAckReply true "")) = Some reply → ShardCtrler.a_WrongLeader reply = true).
    rewrite parsed_bytes by done. by intros [= <-].
Qed.

Lemma demo_begins : begins demo_rpcs demo_shape demo_servers demo_args demo_begin.
Proof.
  split; [done|apply demo_net_steps|apply demo_first_reached|].
  apply accounted_start. intros x Hx. exfalso. revert Hx. apply not_elem_of_nil.
Qed.

Lemma run_joint ls s : run_labels (joint_next demo_rpcs demo_prog) demo_begin ls = Some s → rtc (joint_step demo_rpcs demo_prog) demo_begin s.
Proof.
  generalize demo_begin. induction ls as [|l ls IH]; intros s0; cbn; [by intros [= <-]|].
  destruct (joint_next demo_rpcs demo_prog s0 l) as [s1|] eqn:E; [|done]. intros Hs. eapply rtc_l; [by exists l|auto].
Qed.

Lemma demo_end_run : rtc (joint_step demo_rpcs demo_prog) demo_begin demo_end.
Proof. apply (run_joint demo_run). vm_compute. reflexivity. Qed.

Lemma demo_end_done :
  Clerks.point (here (client demo_end)) = Clerks.CDone (ShardCtrler.mkAckReply false "OK").
Proof. vm_compute. reflexivity. Qed.

Lemma clerk_answered_witness :
  ∃ z k o r, let earlier := commands (take k (chosen (ctrl demo_end))) in
    chosen (ctrl demo_end) !! k = Some (Some o) ∧ ids o = (8%Z, z) ∧
    ((∀ o', o' ∈ earlier → ClientId o' = 8%Z → (TimeStamp o' < z)%Z) →
     r = (ShardCtrler.run_command (ShardCtrler.spec_configs earlier) o).2) ∧
    ((∃ o', o' ∈ earlier ∧ ClientId o' = 8%Z ∧ (z ≤ TimeStamp o')%Z) → r = o).
Proof.
  destruct (clerk_answered demo_rpcs demo_shape demo_servers 8 demo_args (λ _ _ _, eq_refl) demo_begin demo_end
    (ShardCtrler.mkAckReply false "OK") demo_rpc_laws demo_begins demo_end_run demo_end_done)
    as (z & _ & _ & _ & k & o & r & _ & Ho & Hid & _ & Hnew & Hold & _).
  exists z, k, o, r. exact (conj Ho (conj Hid (conj Hnew Hold))).
Defined.

Lemma demo_end_log :
  commands (chosen (ctrl demo_end)) = [the_join; the_move; the_move] ∧
  Clerks.clock_of (here (client demo_end)) 0 = 50%Z ∧ ClientId the_join = 7%Z ∧ TimeStamp the_move = 50%Z.
Proof. split_and!; vm_compute; reflexivity. Qed.

Lemma clerk_exactly_once_witness :
  ∃ before e after idx, ids e = (8%Z, Clerks.clock_of (here (client demo_end)) 0) ∧
    (∀ o', o' ∈ before ++ after → ids o' ≠ (8%Z, Clerks.clock_of (here (client demo_end)) 0)) ∧
    ∀ j w, insts (ctrl demo_end) !! j = Some w →
      ∃ ran, ran `prefix_of` before ++ e :: after ∧
        ShardCtrler.configs (ShardCtrler.sc w) =
          foldl (λ cs o, (ShardCtrler.run_command cs o).1) [zero_config] ran ∧
        ((idx ≤ Z.of_nat (length (ShardCtrler.log w)))%Z → e ∈ ran).
Proof.
  destruct (clerk_exactly_once demo_rpcs demo_shape demo_servers 8 demo_args (λ _ _ _, eq_refl) demo_begin demo_end
    (ShardCtrler.mkAckReply false "OK") demo_end demo_rpc_laws demo_begins eq_refl demo_end_run demo_end_done)
    as (_ & b & e & a & idx & o & _ & Hid & Hno & _ & _ & Hran).
  - destruct demo_end_log as (-> & -> & E1 & E4). intros o Ho Hc.
    apply elem_of_cons in Ho as [->|Ho]; [rewrite E1 in Hc; discriminate Hc|].
    apply elem_of_cons in Ho as [->|Ho]; [rewrite E4; apply Z.le_refl|].
    apply list_elem_of_singleton in Ho as ->. rewrite E4. apply Z.le_refl.
  - apply rtc_refl.
  - exists b, e, a, idx. exact (conj Hid (conj Hno Hran)).
Defined.
End CtrlEndToEnd.
