(* ===== verification/KvClerk.v ===== *)
(** * The store's clerk on the network ([src/shardkv/client.go])

[Get] and [PutAppend] as one program of [Client]: the time is read, the controller's
clerk is asked for the configuration ([Clerks]), and the servers of the key's group
are asked in turn, each through a new end that [make_end] opens ([makeClient] of
[src/shardkv/config.go]); then it sleeps and asks the controller again. *)

From S2P Require Import Prelude GoStrings Labrpc ShardCtrler ShardKV Client Clerks.
From stdpp Require Import options.
Import Labrpc Client Clerks ShardKV.

Module KvClerk.

Abbreviation Config := ShardCtrler.Config.
Abbreviation qstate := (cstate ShardCtrler.QueryArgs ShardCtrler.QueryReply).

(** The requests of a round: the server, the name of the end and the answer. *)
Abbreviation tries := (list (string * string * option (nat * string))).

(** [got] is what the servers asked in this round have answered. *)
Inductive kpoint (A V : Type) :=
| KClock                                               (* [args.TimeStamp = time.Now()] *)
| KQuery (args : A) (q : qstate)                       (* [ck.sm.Query(-1)] *)
| KName (args : A) (c : Config) (got : tries) (srv : string) (todo : list string)
| KEnd (ops : list netop) (name : string)              (* in [make_end], then the call *)
    (args : A) (c : Config) (got : tries) (srv : string) (todo : list string)
| KSleep (args : A)
| KDone (args : A) (v : V) (c : Config).
Arguments KClock {A V}.
Arguments KQuery {A V} _ _.
Arguments KName {A V} _ _ _ _ _.
Arguments KEnd {A V} _ _ _ _ _ _ _.
Arguments KSleep {A V} _.
Arguments KDone {A V} _ _ _.

(** With the point: the rounds that are over, each with its configuration and what it
got, which the code does not keep. *)
Record kstate (A V : Type) := mkK { kpt : kpoint A V; past : list (Config * tries) }.
Arguments mkK {A V} _ _.
Arguments kpt {A V} _.
Arguments past {A V} _.

Section kv.
Context {A R V : Type}.
Context (meth : string) (enc : A → string) (dec : string → option R) (judge : R → verdict V).
Context (mkargs : Z → A) (key : string).
Context (enc_query : ShardCtrler.QueryArgs → string) (dec_query : string → option ShardCtrler.QueryReply).
Context (sm : ShardCtrler.Clerk iface).
Implicit Types (st : kstate A V).

Abbreviation qshape := (query_shape enc_query dec_query).
Abbreviation ctrlers := (ShardCtrler.servers sm).
Definition ask_controller : qstate := query_start enc_query dec_query sm (-1).

(** The operations of [make_end]. *)
Definition end_ops (name srv : string) : list netop :=
  [OpMakeEnd (IStr name); OpConnect (IStr name) (IStr srv); OpEnable (IStr name) true].

Definition kv_request (name : string) (args : A) : reqMsg :=
  {| r_endname := IStr name; r_svcMeth := meth; r_args := enc args |}.

Definition kv_act st : action :=
  match kpt st with
  | KClock => AClock
  | KQuery _ q => ctrl_act qshape q
  | KName _ _ _ _ _ => AName
  | KEnd (op :: _) _ _ _ _ _ _ => AOp op
  | KEnd [] name args _ _ _ _ => ACall (kv_request name args)
  | KSleep _ => ASleep
  | KDone _ _ _ => AHalt
  end.

(** The next server, or the end of the round. *)
Definition next_server (args : A) (c : Config) (got : tries) (todo : list string) (rs : list (Config * tries))
    : kstate A V :=
  match todo with
  | srv :: todo => mkK (KName args c got srv todo) rs
  | [] => mkK (KSleep args) (rs ++ [(c, got)])
  end.

(** A round starts: the group of the key's shard. *)
Definition enter_round (args : A) (c : Config) (rs : list (Config * tries)) : outcome (kstate A V) :=
  let* gid := index (ShardCtrler.Shards c) (key2shard key) in
  Ok (next_server args c [] (default [] (ShardCtrler.Groups c !! gid)) rs).

Definition kv_resume st (i : input) : outcome (kstate A V) :=
  match kpt st, i with
  | KClock, IClock z => Ok (mkK (KQuery (mkargs z) ask_controller) (past st))
  | KQuery args q, i =>
      let* q := ctrl_resume qshape ctrlers q i in
      match point q with
      | CDone reply => enter_round args (ShardCtrler.q_Config reply) (past st)
      | _ => Ok (mkK (KQuery args q) (past st))
      end
  | KName args c got srv todo, IName name =>
      Ok (mkK (KEnd (end_ops name srv) name args c got srv todo) (past st))
  | KEnd (_ :: ops) name args c got srv todo, IGo => Ok (mkK (KEnd ops name args c got srv todo) (past st))
  | KEnd [] name args c got srv todo, IReply o =>
      let* r := received o dec in
      let got := got ++ [(srv, name, o)] in
      match judge <$> r with
      | Some (Accept v) => Ok (mkK (KDone args v c) (past st ++ [(c, got)]))
      | Some Break => Ok (mkK (KSleep args) (past st ++ [(c, got)]))
      | Some Continue | None => Ok (next_server args c got todo (past st))
      end
  | KSleep args, IGo => Ok (mkK (KQuery args ask_controller) (past st))
  | _, _ => Ok st
  end.

Definition kv_prog : prog (kstate A V) := mkProg kv_act kv_resume.
Definition kv_start : kstate A V := mkK KClock [].

(** ** What the program computes *)

(** The rounds with the one that is going on. *)
Definition history st : list (Config * tries) :=
  match kpt st with
  | KName _ c got _ _ | KEnd _ _ _ c got _ _ => past st ++ [(c, got)]
  | _ => past st
  end.

(** The oracles of [try_rounds] that give what the rounds so far have got. *)
Definition kagrees (h : list (Config * tries)) (call : nat → nat → string → A → option R)
    (query : nat → Config) : Prop :=
  ∀ q c got, h !! q = Some (c, got) →
    query q = c ∧ ∀ i srv name o a, got !! i = Some (srv, name, o) → call q i srv a = decoded dec o.

Definition kcall (h : list (Config * tries)) (q i : nat) (srv : string) (a : A) : option R :=
  h !! q ≫= λ r, r.2 !! i ≫= λ x, decoded dec x.2.
Definition kquery (h : list (Config * tries)) (q : nat) : Config :=
  default ShardCtrler.zero_config (fst <$> h !! q).

Lemma kcall_agrees h : kagrees h (kcall h) (kquery h).
Proof.
  intros q c got Hq. unfold kcall, kquery. rewrite Hq. split; [done|]. intros i srv name o a Hi. cbn. by rewrite Hi.
Qed.

(** The requests of the rounds. *)
Definition sent_from (args : A) (q0 : nat) (h : list (Config * tries)) : list (request A) :=
  concat (imap (λ q r, (λ x, (q0 + q, x.1.1, args)) <$> r.2) h).
Definition sent_of (args : A) (h : list (Config * tries)) : list (request A) := sent_from args 0 h.

Lemma sent_of_snoc args h c got :
  sent_of args (h ++ [(c, got)]) = sent_of args h ++ ((λ x, (length h, x.1.1, args)) <$> got).
Proof.
  unfold sent_of, sent_from. rewrite imap_app, concat_app. cbn. by rewrite app_nil_r, Nat.add_0_r.
Qed.

Definition rounds_are (call : nat → nat → string → A → option R) (query : nat → Config) (args : A) (n : nat)
    (rest : nat → outcome (list (request A) * option (V * Config))) : Prop :=
  ∀ fuel, try_rounds call judge (n + fuel) 0 query key args [] = rest fuel.

(** The rest of a round, from position [i], and of the rounds after it. *)
Definition round_rest call query args (q i : nat) (todo : list string) (sent : list (request A)) (c : Config)
    (fuel : nat) : outcome (list (request A) * option (V * Config)) :=
  match try_group call judge q i todo args sent with
  | (sent, Some v) => Ok (sent, Some (v, c))
  | (sent, None) => try_rounds call judge fuel (S q) query key args sent
  end.

Definition args_ok (args : A) : Prop := ∃ z, args = mkargs z.

Definition kv_refines st : Prop :=
  match kpt st with
  | KClock => past st = []
  | KQuery args _ | KSleep args =>
      args_ok args ∧ ∀ call query, kagrees (past st) call query →
        rounds_are call query args (length (past st)) (λ fuel,
          try_rounds call judge fuel (length (past st)) query key args (sent_of args (past st)))
  | KName args c got srv todo | KEnd _ _ args c got srv todo =>
      args_ok args ∧ ∀ call query, kagrees (history st) call query →
        rounds_are call query args (S (length (past st)))
          (round_rest call query args (length (past st)) (length got) (srv :: todo) (sent_of args (history st)) c)
  | KDone args v c =>
      args_ok args ∧ ∀ call query, kagrees (past st) call query →
        rounds_are call query args (length (past st)) (λ _, Ok (sent_of args (past st), Some (v, c)))
  end.

Lemma kagrees_prefix h h' call query :
  (∀ q c got, h !! q = Some (c, got) → ∃ more, h' !! q = Some (c, got ++ more)) →
  kagrees h' call query → kagrees h call query.
Proof.
  intros Hp Ha q c got Hq. destruct (Hp q c got Hq) as [more Hq']. destruct (Ha _ _ _ Hq') as [? Hi].
  split; [done|]. intros i srv name o a Hg. eapply Hi. by apply lookup_app_l_Some.
Qed.

Lemma kagrees_app h h' call query : kagrees (h ++ h') call query → kagrees h call query.
Proof.
  apply kagrees_prefix. intros q c got Hq. exists []. rewrite app_nil_r. by apply lookup_app_l_Some.
Qed.

Lemma kagrees_last h c got more call query :
  kagrees (h ++ [(c, got ++ more)]) call query → kagrees (h ++ [(c, got)]) call query.
Proof.
  apply kagrees_prefix. intros q c' got' [Hq|[Hl Hq]]%lookup_app_Some.
  - exists []. rewrite app_nil_r. by apply lookup_app_l_Some.
  - exists more. rewrite lookup_app_r by done. destruct (q - length h); [|done]. by injection Hq as <- <-.
Qed.

(** The rest of a round is a state of the program. *)
Lemma next_server_refines args c got todo rs :
  args_ok args →
  (∀ call query, kagrees (rs ++ [(c, got)]) call query →
     rounds_are call query args (S (length rs))
       (round_rest call query args (length rs) (length got) todo (sent_of args (rs ++ [(c, got)])) c)) →
  kv_refines (next_server args c got todo rs).
Proof.
  intros Ha Hr. destruct todo as [|srv todo]; cbn; [|done]. split; [done|]. intros call query Hag fuel.
  rewrite length_app. cbn. rewrite Nat.add_1_r. by apply Hr.
Qed.

Lemma enter_round_refines args c rs st :
  args_ok args →
  (∀ call query, kagrees rs call query →
     rounds_are call query args (length rs) (λ fuel,
       try_rounds call judge fuel (length rs) query key args (sent_of args rs))) →
  enter_round args c rs = Ok st → kv_refines st.
Proof.
  intros Ha Hr He. unfold enter_round in He. destruct (index _ _) as [gid|] eqn:Hi; [|done]. injection He as <-.
  apply next_server_refines; [done|]. intros call query Hag fuel.
  specialize (Hr call query (kagrees_app _ _ _ _ Hag) (S fuel)). cbn in Hr. rewrite Nat.add_succ_r in Hr.
  rewrite Nat.add_succ_l, Hr. destruct (Hag (length rs) c []) as [Hq _]; [by apply list_lookup_middle|].
  rewrite Hq, Hi. cbn. unfold round_rest. rewrite sent_of_snoc. cbn. rewrite app_nil_r.
  destruct (ShardCtrler.Groups c !! gid) as [srvs|]; cbn; [|done].
  by destruct (try_group call judge (length rs) 0 srvs args (sent_of args rs)) as [sent [v|]].
Qed.

Lemma round_rest_reply call query args rs c got srv name todo o fuel :
  kagrees (rs ++ [(c, got ++ [(srv, name, o)])]) call query →
  round_rest call query args (length rs) (length got) (srv :: todo) (sent_of args (rs ++ [(c, got)])) c fuel =
  let sent := sent_of args (rs ++ [(c, got ++ [(srv, name, o)])]) in
  match judge <$> decoded dec o with
  | Some (Accept v) => Ok (sent, Some (v, c))
  | Some Break => try_rounds call judge fuel (S (length rs)) query key args sent
  | Some Continue | None =>
      round_rest call query args (length rs) (length (got ++ [(srv, name, o)])) todo sent c fuel
  end.
Proof.
  intros Hag. unfold round_rest at 1. cbn [try_group].
  destruct (Hag (length rs) c (got ++ [(srv, name, o)])) as [_ Hc]; [by apply list_lookup_middle|].
  rewrite (Hc (length got) srv name o args) by by apply list_lookup_middle.
  rewrite !sent_of_snoc, fmap_app, <-app_assoc. cbn. rewrite length_app, Nat.add_1_r.
  destruct (decoded dec o) as [r|]; cbn; [|done]. by destruct (judge r).
Qed.

Lemma kv_refines_resume st i st' :
  expects (kv_act st) i = true → kv_refines st → kv_resume st i = Ok st' → kv_refines st'.
Proof.
  intros He Hr Hn. destruct st as [pt rs]. unfold kv_resume in Hn. unfold kv_act in He. cbn in Hn, He.
  destruct pt as [|args q|args c got srv todo|[|op ops] name args c got srv todo|args|args v c]; cbn in Hr.
  - destruct i as [|z| |]; try done. injection Hn as <-. cbn. subst rs. split; [by exists z|done].
  - destruct Hr as [Ha Hr]. destruct (ctrl_resume qshape ctrlers q i) as [q'|]; [|done]. cbn in Hn.
    destruct (point q') as [| |reply]; [by injection Hn as <-..|]. by eapply enter_round_refines.
  - destruct i; try done. by injection Hn as <-.
  - destruct i as [o| | |]; try done. destruct Hr as [Ha Hr]. cbn in Hr.
    destruct (received o dec) as [r|] eqn:Hrc; [|done]. cbn in Hn. apply received_decoded in Hrc. subst r.
    assert (∀ call query, kagrees (rs ++ [(c, got ++ [(srv, name, o)])]) call query →
      ∀ fuel, try_rounds call judge (S (length rs) + fuel) 0 query key args [] =
        round_rest call query args (length rs) (length got) (srv :: todo) (sent_of args (rs ++ [(c, got)])) c fuel) as Hgo.
    { intros call query Hag fuel. by apply Hr, (kagrees_last _ _ _ [(srv, name, o)]). }
    pose proof (λ call query fuel Hag, eq_trans (Hgo call query Hag fuel)
      (round_rest_reply call query args rs c got srv name todo o fuel Hag)) as Hgo'. cbn in Hgo'.
    destruct (judge <$> decoded dec o) as [[v| |]|]; injection Hn as <-.
    + split; [done|]. intros call query Hag fuel. cbn. rewrite length_app, Nat.add_1_r. by apply Hgo'.
    + split; [done|]. intros call query Hag fuel. cbn. rewrite length_app, Nat.add_1_r. by apply Hgo'.
    + apply next_server_refines; [done|]. intros call query Hag fuel. by apply Hgo'.
    + apply next_server_refines; [done|]. intros call query Hag fuel. by apply Hgo'.
  - destruct i; try done. by injection Hn as <-.
  - destruct i; try done. by injection Hn as <-.
  - done.
Qed.

(** ** What the remote calls gave *)

(** A configuration that the controller gave: the reply of a handler of [Query] that
was executed once, asked for the latest one, and did not say that it is not the leader. *)
Definition config_genuine (w : world) (c : Config) : Prop :=
  ∃ e z i s reply, e ∈ ctrlers ∧
    served w i (request_of qshape e (ShardCtrler.mkQueryArgs (-1) (ShardCtrler.clientID sm) z)) s ∧
    dec_query s = Some reply ∧ ShardCtrler.q_WrongLeader reply = false ∧ ShardCtrler.q_Config reply = c.

(** The requests of a round go to servers of the key's group, in order, and each answer
is the reply of a handler that was executed once. *)
Definition round_genuine (w : world) (args : A) (c : Config) (got : tries) : Prop :=
  config_genuine w c ∧
  (fst <$> (fst <$> got)) `prefix_of` default [] (group_of c key) ∧
  ∀ srv name i s, (srv, name, Some (i, s)) ∈ got → served w i (kv_request name args) s.

Definition point_genuine (w : world) (pt : kpoint A V) (rs : list (Config * tries)) : Prop :=
  match pt with
  | KClock => rs = []
  | KQuery args q =>
      ctrl_inv qshape ctrlers (ShardCtrler.mkQueryArgs (-1) (ShardCtrler.clientID sm) 0) w q ∧
      (∀ r, point q ≠ CDone r) ∧ ∀ c got, (c, got) ∈ rs → round_genuine w args c got
  | KName args c got srv todo | KEnd _ _ args c got srv todo =>
      round_genuine w args c got ∧ default [] (group_of c key) = (fst <$> (fst <$> got)) ++ srv :: todo ∧
      ∀ c got, (c, got) ∈ rs → round_genuine w args c got
  | KSleep args => ∀ c got, (c, got) ∈ rs → round_genuine w args c got
  | KDone args v c =>
      (∀ c got, (c, got) ∈ rs → round_genuine w args c got) ∧
      ∃ got srv name i s reply, last rs = Some (c, got) ∧ last got = Some (srv, name, Some (i, s)) ∧
        dec s = Some reply ∧ judge reply = Accept v
  end.

Definition kv_inv (w : world) st : Prop := kv_refines st ∧ point_genuine w (kpt st) (past st).

Lemma round_genuine_net w w' args c got :
  steps step start w → step w w' → round_genuine w args c got → round_genuine w' args c got.
Proof.
  intros Hw Hst ((e & z & i & x & reply & He & Hs & Hd) & Hg & Ht). split_and!; [|done|].
  - exists e, z, i, x, reply. split_and!; [done|by eapply served_step|apply Hd..].
  - intros srv name j y Hin. eapply served_step; eauto.
Qed.

Lemma kv_inv_net w w' st : steps step start w → step w w' → kv_inv w st → kv_inv w' st.
Proof.
  intros Hw Hst [Hr Hg]. split; [done|]. unfold point_genuine in *.
  destruct (kpt st) as [|args q|args c got srv todo|ops name args c got srv todo|args|args v c]; [done|..].
  - destruct Hg as (Hq & Hnd & Hp). split_and!; [by eapply ctrl_inv_net|done|eauto using round_genuine_net].
  - destruct Hg as (Hc & Hgr & Hp). split_and!; [by eapply round_genuine_net|done|eauto using round_genuine_net].
  - destruct Hg as (Hc & Hgr & Hp). split_and!; [by eapply round_genuine_net|done|eauto using round_genuine_net].
  - eauto using round_genuine_net.
  - destruct Hg as [Hp Hl]. split; [eauto using round_genuine_net|done].
Qed.

(** The reply with which a query has ended. *)
Lemma query_genuine w q reply :
  ctrl_inv qshape ctrlers (ShardCtrler.mkQueryArgs (-1) (ShardCtrler.clientID sm) 0) w q →
  point q = CDone reply → config_genuine w (ShardCtrler.q_Config reply).
Proof.
  intros [Hr Hg He] Hp. unfold refines in Hr. unfold ended in He. rewrite Hp in Hr, He.
  destruct He as (e & a & i & s & Hl & Hd & Hw).
  destruct (Hr _ _ (oracle_agrees qshape q)) as [n Hn]. specialize (Hn 0).
  apply last_Some in Hl as [l Hl]. rewrite Hl in Hn.
  destruct (ShardCtrler.retry_sent _ _ _ (λ _ _ _, eq_refl) _ _ _ _ _ (length (fst <$> l)) e a Hn) as [-> Hs].
  { rewrite fmap_app. by apply list_lookup_middle. }
  exists e, (clock_of q 0), i, s, reply. split_and!; [by eapply list_elem_of_lookup_2| |done|done|done].
  apply Hg. rewrite Hl. apply elem_of_app. right. by apply list_elem_of_singleton.
Qed.

Lemma next_server_genuine w args c got todo rs :
  round_genuine w args c got → default [] (group_of c key) = (fst <$> (fst <$> got)) ++ todo →
  (∀ c got, (c, got) ∈ rs → round_genuine w args c got) →
  let st := next_server args c got todo rs in point_genuine w (kpt st) (past st).
Proof.
  intros Hc Hg Hrs. destruct todo as [|srv todo]; cbn; [|done].
  intros c' got' [?|Hin%list_elem_of_singleton]%elem_of_app; [by apply Hrs|]. by injection Hin as -> ->.
Qed.

Lemma enter_round_genuine w args c rs st :
  config_genuine w c → (∀ c got, (c, got) ∈ rs → round_genuine w args c got) →
  enter_round args c rs = Ok st → point_genuine w (kpt st) (past st).
Proof.
  intros Hc Hrs He. unfold enter_round in He. destruct (index _ _) as [gid|] eqn:Hi; [|done]. injection He as <-.
  apply index_Ok in Hi as [_ Hi].
  apply next_server_genuine; [split_and!; [done|apply prefix_nil|by intros ????? %not_elem_of_nil]| |done].
  unfold group_of. by rewrite Hi.
Qed.

Lemma kv_inv_resume w st i st' :
  expects (kv_act st) i = true → kv_inv w st →
  (∀ q j s, kv_act st = ACall q → i = IReply (Some (j, s)) → served w j q s) →
  kv_resume st i = Ok st' → kv_inv w st'.
Proof.
  intros He [Hr Hg] Hserved Hn. split; [by eapply kv_refines_resume|].
  destruct st as [pt rs]. unfold kv_resume in Hn. unfold kv_act in He, Hserved. cbn in Hn, He, Hg, Hserved.
  destruct pt as [|args q|args c got srv todo|[|op ops] name args c got srv todo|args|args v c]; cbn in Hg.
  - destruct i as [|z| |]; try done. injection Hn as <-. subst rs.
    split_and!; [apply ctrl_inv_start|done|by intros ???%not_elem_of_nil].
  - destruct Hg as (Hq & _ & Hrs). destruct (ctrl_resume qshape ctrlers q i) as [q'|] eqn:Hq'; [|done]. cbn in Hn.
    assert (ctrl_inv qshape ctrlers (ShardCtrler.mkQueryArgs (-1) (ShardCtrler.clientID sm) 0) w q') as Hi
      by (eapply ctrl_inv_resume; [done|exact He|exact Hq|exact Hserved|exact Hq']).
    destruct (point q') as [| |reply] eqn:Hp; [injection Hn as <-..|].
    1,2: split_and!; [done|intros r; by rewrite Hp|done].
    eapply enter_round_genuine; [by eapply query_genuine|done|done].
  - destruct i; try done. by injection Hn as <-.
  - destruct i as [o| | |]; try done. destruct Hg as (Hc & Hgr & Hrs).
    assert (round_genuine w args c (got ++ [(srv, name, o)])) as Hc'.
    { destruct Hc as (Hcfg & _ & Ht). split_and!; [done| |].
      - rewrite Hgr, !fmap_app. cbn. apply prefix_app, prefix_cons, prefix_nil.
      - intros srv' name' j x [Hin|Hin%list_elem_of_singleton]%elem_of_app; [by eapply Ht|].
        injection Hin as -> -> <-. by apply Hserved. }
    assert (∀ c' got', (c', got') ∈ rs ++ [(c, got ++ [(srv, name, o)])] → round_genuine w args c' got') as Hrs'.
    { intros c' got' [?|Hin%list_elem_of_singleton]%elem_of_app; [by apply Hrs|]. by injection Hin as -> ->. }
    destruct (received o dec) as [r|] eqn:Hrc; [|done]. cbn in Hn. apply received_decoded in Hrc. subst r.
    destruct (decoded dec o) as [r|] eqn:Hd; cbn in Hn; [destruct (judge r) as [v| |] eqn:Hj|]; injection Hn as <-.
    + split; [done|]. destruct o as [[j x]|]; [|done]. exists (got ++ [(srv, name, Some (j, x))]), srv, name, j, x, r. cbn. by rewrite !last_snoc.
    + done.
    + apply next_server_genuine; [done| |done]. by rewrite Hgr, !fmap_app, <-app_assoc.
    + apply next_server_genuine; [done| |done]. by rewrite Hgr, !fmap_app, <-app_assoc.
  - destruct i; try done. by injection Hn as <-.
  - destruct i; try done. injection Hn as <-. split_and!; [apply ctrl_inv_start|done|done].
  - done.
Qed.

Lemma kv_run w0 s :
  steps step start w0 → rtc (system_step kv_prog) (mkSystem w0 kv_start None) s → kv_inv (wld s) (here s).
Proof.
  intros Hw Hrun.
  refine (proj2 (proj2 (system_inv kv_prog kv_inv _ _ _ w0 kv_start s Hw _ Hrun))); [..|done].
  - apply kv_inv_net.
  - intros w st q o st' Ha Hi Hserved Hn. cbn in Ha. eapply kv_inv_resume; [|done| |done]; [by rewrite Ha|].
    intros q' j x Ha' [= ->]. rewrite Ha in Ha'. injection Ha' as <-. by apply Hserved.
  - intros w st i st' He Hno Hi Hn. eapply kv_inv_resume; [done|done| |done].
    intros q j x _ ->. by destruct (Hno (Some (j, x))).
Qed.

(** ** Which server is asked

The names of the ends are random ([randstring]), so that nobody else connects the end
that the clerk has made: [private_step] is a step of the system in which that is so. *)

Definition leaves_alone st (l : slabel) : Prop :=
  match l, kpt st with
  | SNet (LOp (OpConnect e _)), KEnd _ name _ _ _ _ _ => e ≠ IStr name
  | _, _ => True
  end.
#[global] Instance leaves_alone_dec st l : Decision (leaves_alone st l).
Proof. unfold leaves_alone. repeat case_match; apply _. Defined.

Definition private_step (p : prog (kstate A V)) (s s' : system (kstate A V)) : Prop :=
  ∃ l, leaves_alone (here s) l ∧ system_next p s l = Some (Ok s').

Definition private_ok (p : prog (kstate A V)) (s : system (kstate A V)) (l : slabel) : option (system (kstate A V)) :=
  if decide (leaves_alone (here s) l) then system_ok p s l else None.

Lemma run_private p ls s s' : run_labels (private_ok p) s ls = Some s' → rtc (private_step p) s s'.
Proof.
  revert s. induction ls as [|l ls IH]; intros s; cbn; [by intros [= <-]|]. unfold private_ok at 1.
  case_decide as Hl; [|done]. unfold system_ok.
  destruct (system_next p s l) as [[s1|]|] eqn:E; [|done..]. intros H. eapply rtc_l; [by exists l|auto].
Qed.

Lemma private_system p s s' : rtc (private_step p) s s' → rtc (system_step p) s s'.
Proof. intros H. induction H as [|a b c (l & _ & Hl) _ IH]; [done|]. eapply rtc_l; [by exists l|done]. Qed.

(** All the requests to the store. *)
Definition all_tries st : tries := concat (snd <$> history st).

Definition went (w : world) (i : nat) (srv : string) : Prop :=
  ∃ x t, reqs w !! i = Some x ∧ found x = Some t ∧ t_name t = IStr srv.

(** The end leads to the server it was made for, or nowhere; a request that waits has
found that server, if it has found one; and so had the requests before it. *)
Definition end_leads (w : world) (pd : option nat) st : Prop :=
  match kpt st with
  | KEnd ops name _ _ _ srv _ =>
      ops `suffix_of` end_ops name srv ∧
      (length ops ≤ 1 → ∀ n, connected_to (net w) (IStr name) = Some n → n = IStr srv) ∧
      ∀ i x t, pd = Some i → reqs w !! i = Some x → found x = Some t → t_name t = IStr srv
  | _ => True
  end.

Definition reach_inv (s : system (kstate A V)) : Prop :=
  end_leads (wld s) (pending s) (here s) ∧
  ∀ srv name i r, (srv, name, Some (i, r)) ∈ all_tries (here s) → went (wld s) i srv.

Lemma went_step w w' i srv : steps step start w → step w w' → went w i srv → went w' i srv.
Proof.
  intros Hw Hst (x & t & Hi & Hf & Hn). destruct (step_keeps_found _ _ _ _ _ Hw Hst Hi Hf) as (x' & ? & ?).
  by exists x', t.
Qed.

Lemma next_server_tries args c got todo rs :
  all_tries (next_server args c got todo rs) = concat (snd <$> (rs ++ [(c, got)])).
Proof. by destruct todo. Qed.

(** An input adds a request to the list only when it is the answer to it. *)
Lemma resume_tries st i st' :
  expects (kv_act st) i = true → kv_resume st i = Ok st' →
  all_tries st' = all_tries st ∨
  ∃ name args c got srv todo o, kpt st = KEnd [] name args c got srv todo ∧ i = IReply o ∧
    all_tries st' = all_tries st ++ [(srv, name, o)].
Proof.
  intros He Hn. destruct st as [pt rs]. unfold kv_resume in Hn. unfold kv_act in He. cbn in Hn, He.
  destruct pt as [|args q|args c got srv todo|[|op ops] name args c got srv todo|args|args v c].
  - left. destruct i; try done. by injection Hn as <-.
  - left. destruct (ctrl_resume qshape ctrlers q i) as [q'|]; [|done]. cbn in Hn.
    destruct (point q') as [| |reply]; [by injection Hn as <-..|]. unfold enter_round in Hn.
    destruct (index _ _) as [gid|]; [|done]. injection Hn as <-. rewrite next_server_tries, fmap_app, concat_app.
    cbn. by rewrite app_nil_r.
  - left. destruct i; try done. by injection Hn as <-.
  - right. destruct i as [o| | |]; try done. exists name, args, c, got, srv, todo, o. split_and!; [done..|].
    assert (∀ g, concat (snd <$> (rs ++ [(c, g)])) = concat (snd <$> rs) ++ g) as Hcat.
    { intros g. rewrite fmap_app, concat_app. cbn. by rewrite app_nil_r. }
    unfold all_tries at 2. cbn. rewrite Hcat, <-app_assoc, <-Hcat.
    destruct (received o dec) as [r|]; [|done]. cbn in Hn.
    destruct (judge <$> r) as [[v| |]|]; injection Hn as <-; [done|done|apply next_server_tries..].
  - left. destruct i; try done. by injection Hn as <-.
  - left. destruct i; try done. by injection Hn as <-.
  - done.
Qed.

Lemma next_server_leads w pd args c got todo rs : end_leads w pd (next_server args c got todo rs).
Proof. by destruct todo. Qed.

(** The point of the program after an input that is not the end of an operation. *)
Lemma resume_leads w st i st' :
  expects (kv_act st) i = true → (∀ op, kv_act st ≠ AOp op) → kv_resume st i = Ok st' → end_leads w None st'.
Proof.
  intros He Hno Hn. destruct st as [pt rs]. unfold kv_resume in Hn. unfold kv_act in He, Hno. cbn in Hn, He, Hno.
  destruct pt as [|args q|args c got srv todo|[|op ops] name args c got srv todo|args|args v c].
  - destruct i; try done. by injection Hn as <-.
  - destruct (ctrl_resume qshape ctrlers q i) as [q'|]; [|done]. cbn in Hn.
    destruct (point q') as [| |reply]; [by injection Hn as <-..|]. unfold enter_round in Hn.
    destruct (index _ _) as [gid|]; [|done]. injection Hn as <-. apply next_server_leads.
  - destruct i as [| |name|]; try done. injection Hn as <-. cbn. split_and!; [done|lia|done].
  - destruct i as [o| | |]; try done. destruct (received o dec) as [r|]; [|done]. cbn in Hn.
    destruct (judge <$> r) as [[v| |]|]; injection Hn as <-; [done|done|apply next_server_leads..].
  - by destruct (Hno op).
  - destruct i; try done. by injection Hn as <-.
  - done.
Qed.

(** The program connects its end to the server it is for. *)
Lemma op_leads w w' op st st' :
  kv_act st = AOp op → apply_op w op = Some (Ok w') → kv_resume st IGo = Ok st' →
  end_leads w None st → end_leads w' None st'.
Proof.
  intros Ha Ho Hn Hl. destruct st as [pt rs]. unfold kv_act in Ha. unfold kv_resume in Hn. cbn in Ha, Hn.
  destruct pt as [|args q|args c got srv todo|[|op' ops] name args c got srv todo|args|args v c]; try done.
  - exfalso. unfold ctrl_act in Ha. by repeat case_match.
  - injection Ha as ->. injection Hn as <-. cbn in Hl |- *. destruct Hl as (Hs & Hc & _).
    split_and!; [by eapply suffix_cons_l|intros Hlen|done].
    assert (op = OpConnect (IStr name) (IStr srv) ∨ op = OpEnable (IStr name) true ∧ ops = []) as [->|[-> ->]].
    { destruct Hs as [k Hk]. unfold end_ops in Hk. destruct ops as [|op2 [|]]; cbn in Hlen; [| |lia].
      - right. destruct k as [|k1 [|k2 [|k3 [|k4 k]]]]; by simplify_eq/=.
      - left. destruct k as [|k1 [|k2 [|k3 [|k4 k]]]]; by simplify_eq/=. }
    + cbn in Ho. injection Ho as <-. unfold connected_to. cbn. rewrite lookup_insert_eq. cbn. by intros n [= <-].
    + intros n Hn. eapply Hc; [cbn; lia|]. by eapply apply_op_connected.
Qed.

(** The network leaves the end of the clerk as it is. *)
Lemma net_leads w w' l pd st :
  next w l = Some (Ok w') → leaves_alone st (SNet l) → waits kv_prog (mkSystem w st pd) →
  end_leads w pd st → end_leads w' pd st.
Proof.
  intros Hn Hal Hwt Hl. unfold end_leads, leaves_alone, waits in *. cbn in Hwt. unfold kv_act in Hwt.
  destruct (kpt st) as [| | |ops name args c got srv todo| |]; try done. destruct Hl as (Hs & Hc & Hf). split; [done|].
  assert (∀ i, pd = Some i → ops = [] ∧ ∃ x, reqs w !! i = Some x ∧ r_endname (rq x) = IStr name) as Hq.
  { intros i ->. destruct Hwt as (q & x & Ha & Hi & <-). destruct ops; [|done]. injection Ha as Ha.
    split; [done|]. exists x. by rewrite <-Ha. }
  destruct (next_cases w l w' Hn) as [(op & -> & Hop)|[(r & -> & ->)|(j & y & rn & h & y' & _ & Hj & Hy & ->)]]; cbn.
  - split; [|by rewrite (apply_op_reqs _ _ _ Hop)]. intros Hlen n Hcn. eapply Hc; [done|].
    eapply apply_op_connected; [done| |done]. intros s ->. by apply Hal.
  - split; [done|]. intros i x t Hp Hi. destruct (Hq i Hp) as (_ & x' & Hx' & _).
    rewrite (lookup_app_l_Some _ _ _ _ Hx') in Hi. injection Hi as <-. by eapply Hf.
  - split; [unfold connected_to; by rewrite (rstep_connections _ _ _ _ _ _ Hy)|].
    intros i x t Hp Hi Ht. destruct (Hq i Hp) as (-> & x' & Hx' & Hr).
    apply list_lookup_insert_Some in Hi as [(-> & <- & _)|[_ Hi]]; [|exact (Hf _ _ _ Hp Hi Ht)]. rewrite Hj in Hx'. injection Hx' as <-.
    destruct (rstep_found _ _ _ _ _ _ _ Hy Ht) as [Hfd|[_ Hfd]]; [exact (Hf _ _ _ Hp Hj Hfd)|].
    apply find_target_name in Hfd. rewrite Hr in Hfd. apply Hc in Hfd; [done|cbn; lia].
Qed.

Lemma reach_inv_step s s' :
  steps step start (wld s) → waits kv_prog s → reach_inv s → private_step kv_prog s s' → reach_inv s'.
Proof.
  intros Hw Hwt [Hl Ht] (l & Hal & Hs). destruct (system_cases kv_prog s l s' Hwt Hs)
    as [(l0 & -> & Hn & Hh & Hp)|[(q & Hp & Ha & Hn & Hh & Hp')|[(i & Hw' & Hp & He & Hno & Hr & Hi)|
        (op & Hp & Hp' & Ha & Ho & Hr)]]]; cbn in *.
  - assert (step (wld s) (wld s')) as Hst by by exists l0. split.
    + rewrite Hh, Hp. by eapply net_leads; [| |destruct s|].
    + rewrite Hh. intros srv name i r Hin. by eapply went_step, Ht.
  - assert (step (wld s) (wld s')) as Hst by by exists (LCall q). injection Hn as Hn. split.
    + rewrite Hh, Hp'. unfold end_leads in *. destruct (kpt (here s)); try done. destruct Hl as (Hs' & Hc & _).
      rewrite <-Hn. split_and!; [done|done|]. cbn. intros i x t [= <-] Hx. rewrite list_lookup_middle in Hx by done.
      by injection Hx as <-.
    + rewrite Hh. intros srv name i r Hin. by eapply went_step, Ht.
  - rewrite <-Hw' in Ht. split.
    + rewrite Hp. by eapply resume_leads.
    + intros srv name j r Hin.
      destruct (resume_tries (here s) i (here s') He Hr) as [E|(name' & args & c & got & srv' & todo & o & Hk & -> & E)];
        rewrite E in Hin; [by eapply Ht|]. apply elem_of_app in Hin as [?|Hin%list_elem_of_singleton]; [by eapply Ht|].
      injection Hin as -> -> <-. destruct (Hi j r eq_refl) as (Hj & x & m & Hx & Hph & Hm & Hrm).
      destruct (replied_served _ _ _ _ Hw Hx Hph Hm) as (x' & Hx' & _ & Hh & _). simplify_eq.
      destruct (reachable_found_inv (wld s) x Hw) as [_ [t Hf]]; [by eapply list_elem_of_lookup_2|by rewrite Hh|].
      unfold end_leads in Hl. rewrite Hk in Hl. destruct Hl as (_ & _ & Hl). rewrite Hw'. exists x, t.
      split_and!; [done|done|by eapply Hl].
  - assert (step (wld s) (wld s')) as Hst by by exists (LOp op). split.
    + rewrite Hp'. rewrite Hp in Hl. by eapply op_leads.
    + intros srv name i r Hin. eapply went_step, Ht; [done|done|].
      destruct (resume_tries (here s) IGo (here s')) as [E|(? & ? & ? & ? & ? & ? & ? & _ & ? & _)]; [..|by rewrite E in Hin|done].
      * by rewrite Ha.
      * done.
Qed.

Lemma reach_run w0 s :
  steps step start w0 → rtc (private_step kv_prog) (mkSystem w0 kv_start None) s → reach_inv s.
Proof.
  intros Hw Hrun. remember (mkSystem w0 kv_start None) as s0 eqn:E.
  assert (steps step start (wld s0) ∧ waits kv_prog s0 ∧ reach_inv s0) as H.
  { subst. split_and!; [done|done|]. split; [done|]. by intros ???? ?%not_elem_of_nil. }
  clear Hw E. induction Hrun as [|a b c Hab _ IH]; [apply H|]. destruct H as (Hw & Hwt & Hi).
  assert (system_step kv_prog a b) as Hst by (destruct Hab as (l & _ & Hl); by exists l).
  destruct (system_inv_step kv_prog (λ _ _, True) ltac:(done) ltac:(done) ltac:(done) a b Hw Hwt I Hst) as (? & ? & _).
  apply IH. split_and!; [done|done|exact (reach_inv_step a b Hw Hwt Hi Hab)].
Qed.
End kv.

(** ** [Get] and [PutAppend] *)

Section calls.
Context (enc_query : ShardCtrler.QueryArgs → string) (dec_query : string → option ShardCtrler.QueryReply).
Context (enc_get : GetArgs → string) (dec_get : string → option GetReply).
Context (enc_put : PutAppendArgs → string) (dec_put : string → option PutAppendReply).
Context (ck : Clerk).

Definition get_prog (key : string) : prog (kstate GetArgs string) :=
  kv_prog "ShardKV.Get" enc_get dec_get judge_get (λ z, mkGetArgs key (clientID ck) z) key
    enc_query dec_query (sm ck).
Definition put_prog (key value op : string) : prog (kstate PutAppendArgs ()) :=
  kv_prog "ShardKV.PutAppend" enc_put dec_put judge_put (λ z, mkPutAppendArgs key value op (clientID ck) z) key
    enc_query dec_query (sm ck).

(** The last round of a call that has returned. *)
Lemma last_round {A R V} (meth : string) (enc : A → string) (dec : string → option R) (judge : R → verdict V)
    mkargs key w0 s args v c :
  steps step start w0 →
  rtc (private_step (kv_prog meth enc dec judge mkargs key enc_query dec_query (sm ck))) (mkSystem w0 kv_start None) s →
  kpt (here s) = KDone args v c →
  (∃ z, args = mkargs z) ∧
  (∀ fuel, try_rounds (kcall dec (past (here s))) judge (length (past (here s)) + fuel) 0 (kquery (past (here s)))
     key args [] = Ok (sent_of args (past (here s)), Some (v, c))) ∧
  config_genuine enc_query dec_query (sm ck) (wld s) c ∧
  ∃ srvs srv name i r reply, group_of c key = Some srvs ∧ srv ∈ srvs ∧
    served_at (wld s) i (kv_request meth enc name args) r (IStr srv) ∧ dec r = Some reply ∧ judge reply = Accept v.
Proof.
  intros Hw Hrun Hp. destruct (reach_run _ _ _ _ _ _ _ _ _ w0 s Hw Hrun) as [_ Hreach].
  apply private_system in Hrun. destruct (kv_run _ _ _ _ _ _ _ _ _ w0 s Hw Hrun) as [Hr Hg].
  unfold kv_refines in Hr. rewrite Hp in Hr, Hg. destruct Hr as [Ha Hr].
  destruct Hg as (Hrs & got & srv & name & i & r & reply & Hl & Hgl & Hd & Hj).
  apply last_Some_elem_of in Hl, Hgl. destruct (Hrs c got) as (Hc & Hpre & Ht); [done|].
  assert (served_at (wld s) i (kv_request meth enc name args) r (IStr srv)) as Hat.
  { destruct (Ht _ _ _ _ Hgl) as (x & Hx & ? & ? & ?). destruct (Hreach srv name i r) as (x' & t & Hx' & ? & ?).
    - unfold all_tries, history. rewrite Hp. apply list_elem_of_In, in_concat. exists got.
      split; apply list_elem_of_In; [by apply (list_elem_of_fmap_2 snd _ (c, got))|done].
    - rewrite Hx in Hx'. injection Hx' as <-. by exists x, t. }
  split_and!; [done|apply Hr, kcall_agrees|done|].
  pose proof (list_elem_of_fmap_2 fst _ _ (list_elem_of_fmap_2 fst _ _ Hgl)) as Hsrv. cbn in Hsrv.
  destruct (group_of c key) as [srvs|] eqn:Hgr; cbn in Hpre.
  - exists srvs, srv, name, i, r, reply. split_and!; [done| |done|done|done].
    by eapply elem_of_prefix.
  - apply prefix_nil_inv in Hpre. rewrite Hpre in Hsrv. by apply not_elem_of_nil in Hsrv.
Qed.

(** The two calls are those of [ShardKV]. *)
Lemma Get_refines key w0 s args v c :
  steps step start w0 → rtc (private_step (get_prog key)) (mkSystem w0 kv_start None) s →
  kpt (here s) = KDone args v c →
  ∀ fuel, Get ck (kcall dec_get (past (here s))) (kquery (past (here s))) (g_TimeStamp args) key
      (length (past (here s)) + fuel)
    = Ok (sent_of args (past (here s)), Some (mkClerk (sm ck) c (clientID ck), v)).
Proof.
  intros Hw Hrun Hp fuel. destruct (last_round _ _ _ _ _ _ w0 s args v c Hw Hrun Hp) as ([z ->] & Hr & _).
  unfold Get. cbn. by rewrite Hr.
Qed.

Lemma PutAppend_refines key value op w0 s args v c :
  steps step start w0 → rtc (private_step (put_prog key value op)) (mkSystem w0 kv_start None) s →
  kpt (here s) = KDone args v c →
  ∀ fuel, PutAppend ck (kcall dec_put (past (here s))) (kquery (past (here s))) (p_TimeStamp args) key value op
      (length (past (here s)) + fuel)
    = Ok (sent_of args (past (here s)), Some (mkClerk (sm ck) c (clientID ck), v)).
Proof.
  intros Hw Hrun Hp fuel. destruct (last_round _ _ _ _ _ _ w0 s args v c Hw Hrun Hp) as ([z ->] & Hr & _).
  unfold PutAppend. cbn. by rewrite Hr.
Qed.
End calls.

(** C8. [Get] returns what a server of the key's group said, however the network drops,
delays and reorders, as long as nobody else connects an end that the clerk has made
(their names are random).  When it returns, it has asked what [ShardKV.Get] asks, for
an oracle that gives what the network gave; its value is in the reply of a handler of
[ShardKV.Get] that was executed exactly once with its key, client and time, by the
server that was registered, when the network took the request, under the name [srv] of
a server of the group that has the key in the clerk's configuration; and that
configuration is the reply of a handler of the controller's [Query], executed exactly
once, that did not say it was not the leader. *)
Theorem Get_over_network enc_query dec_query enc_get dec_get ck key w0 s args v c :
  steps step start w0 →
  rtc (private_step (get_prog enc_query dec_query enc_get dec_get ck key)) (mkSystem w0 kv_start None) s →
  kpt (here s) = KDone args v c →
  (∀ fuel, Get ck (kcall dec_get (past (here s))) (kquery (past (here s))) (g_TimeStamp args) key
      (length (past (here s)) + fuel)
    = Ok (sent_of args (past (here s)), Some (mkClerk (sm ck) c (clientID ck), v))) ∧
  (∃ e z i r reply, e ∈ ShardCtrler.servers (sm ck) ∧
     served (wld s) i {| r_endname := e; r_svcMeth := "ShardCtrler.Query";
       r_args := enc_query (ShardCtrler.mkQueryArgs (-1) (ShardCtrler.clientID (sm ck)) z) |} r ∧
     dec_query r = Some reply ∧ ShardCtrler.q_WrongLeader reply = false ∧ ShardCtrler.q_Config reply = c) ∧
  ∃ srvs srv name i r reply, group_of c key = Some srvs ∧ srv ∈ srvs ∧
    served_at (wld s) i {| r_endname := IStr name; r_svcMeth := "ShardKV.Get";
      r_args := enc_get (mkGetArgs key (clientID ck) (g_TimeStamp args)) |} r (IStr srv) ∧
    dec_get r = Some reply ∧ (g_Err reply = OK ∨ g_Err reply = ErrNoKey) ∧ v = g_Value reply.
Proof.
  intros Hw Hrun Hp. split; [by eapply Get_refines|].
  destruct (last_round _ _ _ _ _ _ _ _ _ w0 s args v c Hw Hrun Hp)
    as ([z ->] & _ & Hc & srvs & srv & name & i & r & reply & Hg & Hin & Hs & Hd & Hj). split; [exact Hc|].
  exists srvs, srv, name, i, r, reply. unfold judge_get in Hj.
  case_decide as Ho; [|by case_decide]. injection Hj as <-. by split_and!.
Qed.

(** C18. [PutAppend] returns when a server of the key's group has accepted the operation,
however the network drops, delays and reorders, as long as nobody else connects an end
that the clerk has made: a handler of [ShardKV.PutAppend] was executed exactly once with
this key, value, operation, client and time and answered [OK], by the server that was
registered, when the network took the request, under the name of a server of the group
that has the key in the clerk's configuration, which a handler of [Query] returned. *)
Theorem PutAppend_over_network enc_query dec_query enc_put dec_put ck key value op w0 s args v c :
  steps step start w0 →
  rtc (private_step (put_prog enc_query dec_query enc_put dec_put ck key value op)) (mkSystem w0 kv_start None) s →
  kpt (here s) = KDone args v c →
  (∀ fuel, PutAppend ck (kcall dec_put (past (here s))) (kquery (past (here s))) (p_TimeStamp args) key value op
      (length (past (here s)) + fuel)
    = Ok (sent_of args (past (here s)), Some (mkClerk (sm ck) c (clientID ck), v))) ∧
  config_genuine enc_query dec_query (sm ck) (wld s) c ∧
  ∃ srvs srv name i r reply, group_of c key = Some srvs ∧ srv ∈ srvs ∧
    served_at (wld s) i {| r_endname := IStr name; r_svcMeth := "ShardKV.PutAppend";
      r_args := enc_put (mkPutAppendArgs key value op (clientID ck) (p_TimeStamp args)) |} r (IStr srv) ∧
    dec_put r = Some reply ∧ p_Err reply = OK.
Proof.
  intros Hw Hrun Hp. split; [by eapply PutAppend_refines|].
  destruct (last_round _ _ _ _ _ _ _ _ _ w0 s args v c Hw Hrun Hp)
    as ([z ->] & _ & Hc & srvs & srv & name & i & r & reply & Hg & Hin & Hs & Hd & Hj). split; [exact Hc|].
  exists srvs, srv, name, i, r, reply. unfold judge_put in Hj.
  case_decide as Ho; [|by case_decide]. by split_and!.
Qed.
End KvClerk.
