(* ===== verification/ClerkProgress.v ===== *)
(** * The clerks can finish

Whatever has happened to the requests of a call so far, they can all be brought to an
end, one way or the other; and when a server can be reached that accepts, the call of
the controller's clerk can return. *)

From S2P Require Import Prelude GoStrings Labrpc ShardCtrler Client Clerks.
From stdpp Require Import options.
Import Labrpc Client Clerks.

Module ClerkProgress.

(** ** Requests *)

(** How far a request is from its answer. *)
Definition stage (x : rstate) : nat :=
  match ph x with
  | PStart => 8
  | PDeliver _ => 7
  | PWait _ => match hd x with HReady _ => 6 | HStarted => 5 | HNone | HReturned _ => 4 end
  | PGot _ _ => 3
  | PChecked _ _ => 2
  | PLost | PGaveUp _ | PDelayed _ => 1
  | PReplied _ => 0
  end.

(** The server that answers to a name has the method. *)
Definition has_method (w : world) (meth : string) (a : nat) : Prop :=
  ∃ rs rs' sm, heap w !! a = Some rs ∧ Server_dispatch rs meth = Ok (rs', sm).

(** Steps of one request: the network and the other requests stay as they are. *)
Record apart (i : nat) (w w' : world) : Prop := {
  ap_steps : steps step w w';
  ap_enabled : enabled (net w') = enabled (net w);
  ap_servers : servers (net w') = servers (net w);
  ap_connections : connections (net w') = connections (net w);
  ap_others : ∀ j, j ≠ i → reqs w' !! j = reqs w !! j;
  ap_length : length (reqs w') = length (reqs w);
  ap_methods : ∀ meth a, has_method w meth a → has_method w' meth a }.

Lemma apart_refl i w : apart i w w.
Proof. split; try done. apply steps_refl. Qed.

Lemma apart_trans i w1 w2 w3 : apart i w1 w2 → apart i w2 w3 → apart i w1 w3.
Proof.
  intros [] []. split; [by eapply steps_trans|congruence..| |congruence|auto].
  intros j Hj. rewrite ap_others1 by done. auto.
Qed.

Lemma dispatch_services rs meth rs' sm :
  Server_dispatch rs meth = Ok (rs', sm) →
  services rs' = services rs ∧ ∀ m, (∃ rs2 x, Server_dispatch rs m = Ok (rs2, x)) → ∃ rs2 x, Server_dispatch rs' m = Ok (rs2, x).
Proof.
  intros Hd.
  assert (services rs' = services rs) as E by (unfold Server_dispatch in Hd; go_simp; by case_match; go_simp).
  split; [done|]. intros m (rs2 & x & Hm). unfold Server_dispatch in Hm |- *. cbn in *. rewrite E.
  destruct (slice_to m _) as [sv|]; [|done]. cbn in *. destruct (slice_from m _) as [mt|]; [|done]. cbn in *.
  destruct (services rs !! sv); [|done]. destruct (Service_dispatch _ _); [|done]. cbn in *. eauto.
Qed.

Lemma method_insert (h : gmap nat Server) a0 s0 m0 s1 y meth a :
  h !! a0 = Some s0 → Server_dispatch s0 m0 = Ok (s1, y) →
  (∃ rs rs' sm, h !! a = Some rs ∧ Server_dispatch rs meth = Ok (rs', sm)) →
  ∃ rs rs' sm, <[a0 := s1]> h !! a = Some rs ∧ Server_dispatch rs meth = Ok (rs', sm).
Proof.
  intros H0 Hd (rs & rs' & sm & Ha & Hm). destruct (decide (a0 = a)) as [->|Hne].
  - simplify_eq. destruct (dispatch_services _ _ _ _ Hd) as [_ Hall].
    destruct (Hall meth) as (rs2 & x & Hx); [eauto|]. exists s1, rs2, x. by rewrite lookup_insert_eq.
  - exists rs, rs', sm. by rewrite lookup_insert_ne.
Qed.

Lemma rstep_apart w i x l rn h x' :
  reqs w !! i = Some x → label_req l = Some i → rstep w x l = Some (Ok (rn, h, x')) →
  apart i w (mkWorld rn h (<[i := x']> (reqs w))).
Proof.
  intros Hi Hl Hx. destruct (rstep_net _ _ _ _ _ _ Hx) as (He & Hs & _).
  split; cbn; [|done|done| | |by rewrite length_insert|].
  - apply steps_one. exists l. destruct l; try done; injection Hl as ->; cbn [next label_req]; by rewrite Hi, Hx.
  - destruct x as [q p hx n fd]. destruct l; simpl in Hx; try done; destruct p; rstep_cases Hx; done.
  - intros j Hj. by rewrite list_lookup_insert_ne.
  - intros meth a Hm. unfold has_method in *. cbn.
    destruct x as [q p hx n fd]. destruct l; simpl in Hx; try done; destruct p; rstep_cases Hx;
      eauto using method_insert.
Qed.

(** A handler that waits to be started is that of the server that was found. *)
Definition ready_ok (x : rstate) : Prop :=
  match ph x, hd x with
  | PWait t, HReady a => a = t_server t
  | _, _ => True
  end.

Lemma reachable_ready_ok w x : steps step start w → x ∈ reqs w → ready_ok x.
Proof.
  intros Hw. revert x.
  apply (steps_invariant step (λ w, ∀ x, x ∈ reqs w → req_inv x ∧ ready_ok x) start w); [..|done].
  - intros a b Ha Hab. eapply step_reqs; [done| |done|done]. intros x l rn h x' Hx [Hi Hr].
    split; [by eapply rstep_req_inv|]. destruct x as [q p hx n fd]. destruct Hi as [_ Hi]. unfold ready_ok in *. simpl in *.
    destruct l; simpl in Hx; try done; destruct p; rstep_cases Hx; simpl in *; by try case_match.
  - by intros x ?%not_elem_of_nil.
Qed.

(** The server a request is for has the method, if it is found. *)
Definition reach_ok (w : world) (x : rstate) : Prop :=
  (∀ t, target_of (ph x) = Some t → has_method w (r_svcMeth (rq x)) (t_server t)) ∧
  (ph x = PStart → ∀ t, find_target (readEndnameInfo (net w) (r_endname (rq x))) = Some t →
     has_method w (r_svcMeth (rq x)) (t_server t)).

(** A request that is not answered can make a step towards its answer; if its handler
returns in that step, it may return any string. *)
Lemma request_label w i x str :
  steps step start w → reqs w !! i = Some x → reach_ok w x → 0 < stage x →
  ∃ l rn h x', label_req l = Some i ∧ rstep w x l = Some (Ok (rn, h, x')) ∧ rq x' = rq x ∧ stage x' < stage x ∧
    (∀ t, target_of (ph x') = Some t → has_method w (r_svcMeth (rq x)) (t_server t)) ∧ ph x' ≠ PStart ∧
    ∀ r, hd x' = HReturned r → hd x = HReturned r ∨ l = LReturn i r ∧ r = str.
Proof.
  intros Hw Hi [Ht Hs] Hstage.
  pose proof (list_elem_of_lookup_2 _ _ _ Hi) as Hin.
  destruct (reachable_req_inv w x Hw Hin) as [_ Hinv]. pose proof (reachable_ready_ok w x Hw Hin) as Hready.
  destruct x as [q p hx n fd]. unfold stage in *. cbn in *.
  destruct p as [| |t|t|t|t r|t r|r|m]; cbn in *.
  - exists (LRead i). eexists _, _, _. split_and!; [done|done|done|..]; cbn.
    + destruct (find_target _); cbn; lia.
    + intros t. destruct (find_target _) as [t'|] eqn:E; [|done]. cbn. intros [= <-]. by apply Hs.
    + by destruct (find_target _).
    + by left.
  - exists (LFire i). eexists _, _, _. split_and!; [done|done|done|cbn; lia|done|done|by left].
  - exists (LSend i false). eexists _, _, _. split_and!; [done|done|done|cbn; lia|done|done|done].
  - destruct hx as [|a| |r].
    + done.
    + cbn in Hready. subst a. destruct (Ht t eq_refl) as (rs & rs' & sm & Ha & Hd).
      exists (LDispatch i). eexists _, _, _.
      split_and!; [done|cbn; rewrite Ha, Hd; reflexivity|done|cbn; lia|done|done|done].
    + exists (LReturn i str). eexists _, _, _. split_and!; [done|done|done|cbn; lia|done|done|].
      cbn. intros r [= ->]. by right.
    + exists (LRecv i). eexists _, _, _. split_and!; [done|done|done|cbn; lia|done|done|by left].
  - exists (LFinal i false false). eexists _, _, _. split_and!; [done|done|done|cbn; lia|done|done|by left].
  - exists (LCheck i).
    destruct (dead_for (net w) (mkR q (PGot t r) hx n fd) t) eqn:Hdead; eexists _, _, _;
      (split_and!; [done|cbn; by rewrite Hdead|done|cbn; lia|by intros ? [= <-]; apply Ht|done|by left]).
  - exists (LFinal i false false). eexists _, _, _. split_and!; [done|done|done|cbn; lia|done|done|by left].
  - exists (LFire i). eexists _, _, _. split_and!; [done|done|done|cbn; lia|done|done|by left].
  - lia.
Qed.

(** What such a step leaves. *)
Lemma label_moves w i x l rn h x' :
  reqs w !! i = Some x → label_req l = Some i → rstep w x l = Some (Ok (rn, h, x')) → rq x' = rq x →
  (∀ t, target_of (ph x') = Some t → has_method w (r_svcMeth (rq x)) (t_server t)) → ph x' ≠ PStart →
  let w' := mkWorld rn h (<[i := x']> (reqs w)) in
  next w l = Some (Ok w') ∧ apart i w w' ∧ reqs w' !! i = Some x' ∧ reach_ok w' x'.
Proof.
  intros Hi Hl Hx Hq Ht Hns w'. pose proof (rstep_apart w i x l rn h x' Hi Hl Hx) as Hap. split_and!; [|done|..].
  - destruct l; try done; injection Hl as ->; cbn [next label_req]; by rewrite Hi, Hx.
  - cbn. apply list_lookup_insert_eq. by eapply lookup_lt_Some.
  - split; [|done]. intros t Htt. apply (ap_methods _ _ _ Hap). rewrite Hq. by apply Ht.
Qed.

Lemma request_moves w i x str :
  steps step start w → reqs w !! i = Some x → reach_ok w x → 0 < stage x →
  ∃ w' x', apart i w w' ∧ reqs w' !! i = Some x' ∧ rq x' = rq x ∧ reach_ok w' x' ∧ stage x' < stage x ∧
    ∀ r, hd x' = HReturned r → hd x = HReturned r ∨ r = str.
Proof.
  intros Hw Hi Hr Hstage.
  destruct (request_label w i x str Hw Hi Hr Hstage) as (l & rn & h & x' & Hl & Hx & Hq & Hlt & Ht & Hns & Hret).
  destruct (label_moves w i x l rn h x' Hi Hl Hx Hq Ht Hns) as (_ & Hap & Hi' & Hr').
  eexists _, x'. split_and!; [done..|]. intros r Hh. destruct (Hret r Hh) as [?|[_ ?]]; auto.
Qed.

Lemma request_finishes w i x str :
  steps step start w → reqs w !! i = Some x → reach_ok w x →
  ∃ w' x' m, apart i w w' ∧ reqs w' !! i = Some x' ∧ ph x' = PReplied m ∧
    (rp_ok m = true → hd x = HReturned (rp_reply m) ∨ rp_reply m = str).
Proof.
  remember (stage x) as k eqn:Hk. revert w x Hk. induction k as [k IH] using lt_wf_ind. intros w x -> Hw Hi Hr.
  destruct (decide (stage x = 0)) as [E|Hne].
  - destruct (ph x) as [| | | | | | | |m] eqn:Hp; unfold stage in E; rewrite Hp in E; try done; [by destruct (hd x)|].
    exists w, x, m. split_and!; [apply apart_refl|done|done|]. intros Hok. left.
    destruct (reachable_req_inv w x Hw) as [_ Hinv]; [by eapply list_elem_of_lookup_2|]. rewrite Hp in Hinv. auto.
  - destruct (request_moves w i x str Hw Hi Hr) as (w1 & x1 & Hap & Hi1 & _ & Hr1 & Hlt & Hret); [lia|].
    destruct (IH (stage x1) Hlt w1 x1 eq_refl) as (w2 & x2 & m & Hap2 & Hi2 & Hp & Hm);
      [by eapply steps_trans, (ap_steps _ _ _ Hap)|done|done|].
    exists w2, x2, m. split_and!; [by eapply apart_trans|done|done|]. intros Hok.
    destruct (Hm Hok) as [Hh|?]; [|by right]. destruct (Hret _ Hh); auto.
Qed.

(** ** Calls *)

(** The server that an end leads to. *)
Definition target_addr (rn : Network) (e : iface) : option nat :=
  if is_enabled rn e then connected_to rn e ≫= server_of rn else None.

Lemma find_target_addr rn e t :
  find_target (readEndnameInfo rn e) = Some t → target_addr rn e = Some (t_server t).
Proof.
  unfold find_target, readEndnameInfo, target_addr. cbn. destruct (is_enabled rn e); [|done].
  destruct (connected_to rn e) as [n|]; cbn; [|done]. destruct (server_of rn n); [|done]. by intros [= <-].
Qed.

(** The ends are enabled and connected as they were, the same servers are registered, and
they have the methods they had. *)
Record undisturbed (w w' : world) : Prop := {
  ud_steps : steps step w w';
  ud_enabled : enabled (net w') = enabled (net w);
  ud_servers : servers (net w') = servers (net w);
  ud_connections : connections (net w') = connections (net w);
  ud_methods : ∀ meth a, has_method w meth a → has_method w' meth a }.

Lemma undisturbed_refl w : undisturbed w w.
Proof. split; [apply steps_refl|done..]. Qed.

Lemma undisturbed_trans w1 w2 w3 : undisturbed w1 w2 → undisturbed w2 w3 → undisturbed w1 w3.
Proof. intros [] []. split; [by eapply steps_trans|congruence..|auto]. Qed.

Lemma addr_same rn rn' e :
  enabled rn' = enabled rn → servers rn' = servers rn → connections rn' = connections rn →
  target_addr rn' e = target_addr rn e.
Proof.
  intros He Hs Hc. unfold target_addr, is_enabled, connected_to. rewrite He, Hc.
  destruct (default false _); [|done]. destruct (mjoin _) as [n|]; [|done]. cbn. unfold server_of. by rewrite Hs.
Qed.

Lemma ud_addr w w' : undisturbed w w' → ∀ e, target_addr (net w') e = target_addr (net w) e.
Proof. intros [] e. by apply addr_same. Qed.

Lemma apart_undisturbed i w w' : apart i w w' → undisturbed w w'.
Proof. by intros []. Qed.

Lemma call_undisturbed w q :
  undisturbed w (mkWorld (add_bytes (add_count (net w)) (r_args q)) (heap w) (reqs w ++ [mkR q PStart HNone 0 None])).
Proof. split; [apply steps_one; by exists (LCall q)|done..]. Qed.

Lemma next_undisturbed w l w' : next_ok w l = Some w' → not_op l = true → undisturbed w w'.
Proof.
  intros Hl%next_ok_step Hop.
  destruct l as [op|r|j|j d|j|j r|j|j|j|j d d'|j]; cbn [next label_req] in Hl;
    [done|injection Hl as <-; apply call_undisturbed|..];
    destruct (reqs w !! j) as [y|] eqn:Hj; try done;
    match type of Hl with context [rstep w y ?l] =>
      destruct (rstep w y l) as [[[[rn h] y']|]|] eqn:Hy; simplify_eq;
      by eapply apart_undisturbed, (rstep_apart w j y l)
    end.
Qed.

Lemma run_undisturbed ls w w' :
  run_labels next_ok w ls = Some w' → Forall (λ l, not_op l = true) ls → undisturbed w w'.
Proof.
  intros Hrun Hls. revert w Hrun. induction Hls as [|l ls Hl _ IH]; intros w Hrun; cbn in Hrun.
  - injection Hrun as <-. apply undisturbed_refl.
  - destruct (next_ok w l) as [w1|] eqn:E; [|done]. eapply undisturbed_trans; [by eapply next_undisturbed|auto].
Qed.

Section system.
Context {S : Type} (p : prog S).

Lemma net_steps w w' st pd : steps step w w' → rtc (system_step p) (mkSystem w st pd) (mkSystem w' st pd).
Proof.
  induction 1 as [|w1 w2 w3 _ IH [l Hl]]; [done|]. eapply rtc_r; [exact IH|]. exists (SNet l). cbn. by rewrite Hl.
Qed.

Lemma answer_step w st i x m st' :
  reqs w !! i = Some x → ph x = PReplied m →
  resume p st (IReply (if rp_ok m then Some (i, rp_reply m) else None)) = Ok st' →
  system_step p (mkSystem w st (Some i)) (mkSystem w st' None).
Proof. intros Hi Hp Hr. exists SAnswer. cbn. rewrite Hi. cbn. rewrite Hp. unfold advance. cbn. by rewrite Hr. Qed.

Lemma send_step w st q :
  act p st = ACall q →
  system_step p (mkSystem w st None)
    (mkSystem (mkWorld (add_bytes (add_count (net w)) (r_args q)) (heap w) (reqs w ++ [mkR q PStart HNone 0 None]))
       st (Some (length (reqs w)))).
Proof. intros Ha. exists SSend. cbn. by rewrite Ha. Qed.

Lemma op_step w st op w' st' :
  act p st = AOp op → apply_op w op = Some (Ok w') → resume p st IGo = Ok st' →
  system_step p (mkSystem w st None) (mkSystem w' st' None).
Proof. intros Ha Ho Hr. exists SGo. cbn. rewrite Ha, Ho. cbn. unfold advance. cbn. by rewrite Hr. Qed.

(** A call that waits comes to an end. *)
Lemma pending_ends w st i x str :
  steps step start w → reqs w !! i = Some x → reach_ok w x →
  ∃ w' o, undisturbed w w' ∧ (∀ j r, o = Some (j, r) → hd x = HReturned r ∨ r = str) ∧
    ∀ st', resume p st (IReply o) = Ok st' → rtc (system_step p) (mkSystem w st (Some i)) (mkSystem w' st' None).
Proof.
  intros Hw Hi Hr. destruct (request_finishes w i x str Hw Hi Hr) as (w' & x' & m & Hap & Hi' & Hp & Hm).
  exists w', (if rp_ok m then Some (i, rp_reply m) else None). split_and!; [by eapply apart_undisturbed| |].
  - intros j r. destruct (rp_ok m); [|done]. intros [= <- <-]. auto.
  - intros st' Hres. eapply rtc_r; [by apply net_steps, (ap_steps _ _ _ Hap)|]. by eapply answer_step.
Qed.

(** A call that is made comes to an end. *)
Lemma call_ends w st q str :
  steps step start w → act p st = ACall q →
  (∀ a, target_addr (net w) (r_endname q) = Some a → has_method w (r_svcMeth q) a) →
  ∃ w' o, undisturbed w w' ∧ (∀ j r, o = Some (j, r) → r = str) ∧
    ∀ st', resume p st (IReply o) = Ok st' → rtc (system_step p) (mkSystem w st None) (mkSystem w' st' None).
Proof.
  intros Hw Ha Hm. pose proof (call_undisturbed w q) as Hu. pose proof (send_step w st q Ha) as Hsend.
  set (w1 := mkWorld (add_bytes (add_count (net w)) (r_args q)) (heap w) (reqs w ++ [mkR q PStart HNone 0 None])) in *.
  destruct (pending_ends w1 st (length (reqs w)) (mkR q PStart HNone 0 None) str) as (w' & o & Hu' & Ho & Hres).
  - eapply steps_trans; [exact Hw|apply (ud_steps _ _ Hu)].
  - cbn. by apply list_lookup_middle.
  - split; [done|]. intros _ t Ht%find_target_addr. cbn in Ht |- *. apply (ud_methods _ _ Hu), Hm. by rewrite <-Ht.
  - exists w', o. split_and!; [by eapply undisturbed_trans| |].
    + intros j r E. by destruct (Ho j r E).
    + intros st' Hst. eapply rtc_l; [exact Hsend|by apply Hres].
Qed.

(** A call to a server that is there can be answered. *)
Lemma call_succeeds w st q str a :
  act p st = ACall q → target_addr (net w) (r_endname q) = Some a → has_method w (r_svcMeth q) a →
  ∃ w' i, undisturbed w w' ∧
    ∀ st', resume p st (IReply (Some (i, str))) = Ok st' →
      rtc (system_step p) (mkSystem w st None) (mkSystem w' st' None).
Proof.
  intros Ha Hat (rs & rs' & sm & Hrs & Hd). unfold target_addr in Hat.
  destruct (is_enabled (net w) (r_endname q)) eqn:Hen; [|done].
  destruct (connected_to (net w) (r_endname q)) as [n|] eqn:Hco; [|done]. cbn in Hat.
  destruct (call_served w q n a rs rs' sm str Hen Hco Hat Hrs Hd) as (w' & x' & Hrun & Hx & Hp & _).
  pose proof Hrun as Hrun0. cbn [run_labels] in Hrun. unfold next_ok at 1 in Hrun. cbn [next] in Hrun.
  exists w', (length (reqs w)). split.
  - eapply run_undisturbed; [exact Hrun0|]. by repeat constructor.
  - intros st' Hres. eapply rtc_l; [by apply send_step|]. eapply rtc_r; [apply net_steps|by eapply answer_step].
    apply (run_labels_reach [LRead (length (reqs w)); LSend (length (reqs w)) false; LDispatch (length (reqs w));
      LReturn (length (reqs w)) str; LRecv (length (reqs w)); LCheck (length (reqs w)); LFinal (length (reqs w)) false false]). exact Hrun.
Qed.
End system.

(** ** The controller's clerk *)

Section ctrl.
Context {A R : Type} (sh : shape A R) (srvs : list iface).
Implicit Types (st : cstate A R).
Abbreviation run := (rtc (system_step (ctrl_prog sh srvs))).

(** The servers of the round are servers of the clerk. *)
Definition todo_ok st : Prop := match point st with CTry _ _ todo => todo ⊆ srvs | _ => True end.

Lemma todo_ok_resume st i st' : todo_ok st → ctrl_resume sh srvs st i = Ok st' → todo_ok st'.
Proof.
  intros Hok Hn. destruct st as [pt zs ts]. unfold ctrl_resume in Hn. cbn in Hn. unfold todo_ok in *. cbn in Hok.
  destruct pt as [args|args stamped [|srv todo]|r].
  - destruct i; injection Hn as <-; cbn; set_solver.
  - destruct i, stamped; injection Hn as <-; cbn; set_solver.
  - destruct i as [o|z|n|]; [|destruct stamped; by injection Hn as <-..].
    destruct stamped; (destruct (received o (sh_dec sh)) as [[r|]|]; cbn in Hn; [..|done]); injection Hn as <-; cbn;
      try (destruct (sh_wrong sh r)); set_solver.
  - destruct i; by injection Hn as <-.
Qed.

Lemma run_todo_ok w0 args0 s :
  steps step start w0 → run (mkSystem w0 (ctrl_start sh srvs args0) None) s → todo_ok (here s).
Proof.
  intros Hw Hrun.
  refine (proj2 (proj2 (system_inv (ctrl_prog sh srvs) (λ _, todo_ok) _ _ _ w0 _ s Hw _ Hrun))); [done|..].
  - intros w st q o st' _ Hok _ Hn. exact (todo_ok_resume _ _ _ Hok Hn).
  - intros w st i st' _ _ Hok Hn. exact (todo_ok_resume _ _ _ Hok Hn).
  - unfold todo_ok, ctrl_start. cbn. destruct (sh_each sh); set_solver.
Qed.

(** Every server that an end of the clerk leads to has the method; [e0] leads to one. *)
Definition reachable_servers (w : world) : Prop :=
  ∀ e a, e ∈ srvs → target_addr (net w) e = Some a → has_method w (sh_meth sh) a.

Lemma reachable_undisturbed w w' : undisturbed w w' → reachable_servers w → reachable_servers w'.
Proof.
  intros Hu Hr e a He Ha. rewrite (ud_addr _ _ Hu) in Ha. by apply (ud_methods _ _ Hu), (Hr e).
Qed.

Lemma resume_failed args stamped srv todo zs ts :
  ctrl_resume sh srvs (mkC (CTry args stamped (srv :: todo)) zs ts) (IReply None) =
  Ok (mkC (CTry args false todo) zs (ts ++ [(srv, args, None)])).
Proof. by destruct stamped. Qed.

Lemma resume_reply args stamped srv todo zs ts i x r :
  sh_dec sh x = Some r →
  ctrl_resume sh srvs (mkC (CTry args stamped (srv :: todo)) zs ts) (IReply (Some (i, x))) =
  Ok (mkC (if sh_wrong sh r then CTry args false todo else CDone r) zs (ts ++ [(srv, args, Some (i, x))])).
Proof.
  intros Hx. assert (received (Some (i, x)) (sh_dec sh) = Ok (Some r)) as E.
  { unfold received, Call. cbn. by rewrite Hx. }
  destruct stamped; unfold ctrl_resume; cbn; by rewrite E.
Qed.

(** The call may be a part of a program [p], whose state is [emb st] during the call and
what [leave] says after it. *)
Context {S : Type} (p : prog S) (emb : cstate A R → S) (leave : cstate A R → outcome S).
Definition embedded st : outcome S := match point st with CDone _ => leave st | _ => Ok (emb st) end.
Hypothesis emb_act : ∀ st, (∀ r, point st ≠ CDone r) → act p (emb st) = ctrl_act sh st.
Hypothesis emb_resume : ∀ st i st',
  (∀ r, point st ≠ CDone r) → ctrl_resume sh srvs st i = Ok st' → resume p (emb st) i = embedded st'.
Abbreviation prun := (rtc (system_step p)).

Context (str : string) (reply : R).
Hypothesis accepts : sh_dec sh str = Some reply.
Hypothesis not_wrong : sh_wrong sh reply = false.

Lemma accepted_leaves args stamped srv todo zs ts i x :
  leave (mkC (CDone reply) zs (ts ++ [(srv, args, Some (i, str))])) = Ok x →
  resume p (emb (mkC (CTry args stamped (srv :: todo)) zs ts)) (IReply (Some (i, str))) = Ok x.
Proof using accepts not_wrong emb_resume.
  intros Hx. erewrite emb_resume; [|done|by apply resume_reply]. rewrite not_wrong. exact Hx.
Qed.

(** The clock is read, if it has to be. *)
Lemma ready_to_call w args stamped srv todo zs ts :
  ∃ args' stamped' zs',
    prun (mkSystem w (emb (mkC (CTry args stamped (srv :: todo)) zs ts)) None)
         (mkSystem w (emb (mkC (CTry args' stamped' (srv :: todo)) zs' ts)) None) ∧
    act p (emb (mkC (CTry args' stamped' (srv :: todo)) zs' ts)) = ACall (request_of sh srv args').
Proof using emb_act emb_resume.
  destruct (sh_each sh && negb stamped) eqn:E.
  - assert (stamped = false) as -> by (destruct stamped; [by rewrite andb_false_r in E|done]).
    exists (sh_stamp sh 0 args), true, (zs ++ [0%Z]). split.
    + apply rtc_once. exists (SClock 0). cbn. rewrite emb_act by done. unfold ctrl_act. cbn.
      apply andb_prop in E as [-> _]. cbn. unfold advance. cbn.
      by erewrite emb_resume; [|done|reflexivity].
    + rewrite emb_act by done. unfold ctrl_act. cbn. by rewrite andb_false_r.
  - exists args, stamped, zs. split; [done|]. rewrite emb_act by done. unfold ctrl_act. cbn. by rewrite E.
Qed.

(** The call has ended as it should. *)
Definition returns (s : system S) (w' : world) : Prop :=
  ∃ zs ts, ∀ x, leave (mkC (CDone reply) zs ts) = Ok x → prun s (mkSystem w' x None).

Lemma returns_after s s1 w' : prun s s1 → returns s1 w' → returns s w'.
Proof. intros Hrun (zs & ts & Hx). exists zs, ts. intros x Hl. etrans; [exact Hrun|by apply Hx]. Qed.

(** The rest of a round. *)
Lemma round_ends e0 a0 todo w args stamped zs ts :
  steps step start w → reachable_servers w → todo ⊆ srvs → target_addr (net w) e0 = Some a0 →
  ∃ w', undisturbed w w' ∧
    (returns (mkSystem w (emb (mkC (CTry args stamped todo) zs ts)) None) w' ∨
     (∃ args' stamped' zs' ts', prun (mkSystem w (emb (mkC (CTry args stamped todo) zs ts)) None)
        (mkSystem w' (emb (mkC (CTry args' stamped' []) zs' ts')) None)) ∧ e0 ∉ todo).
Proof using accepts not_wrong emb_act emb_resume.
  revert w args stamped zs ts. induction todo as [|srv todo IH]; intros w args stamped zs ts Hw Hr Hsub He0.
  { exists w. split; [apply undisturbed_refl|]. right. split; [by exists args, stamped, zs, ts|apply not_elem_of_nil]. }
  destruct (ready_to_call w args stamped srv todo zs ts) as (args1 & st1 & zs1 & Hrun1 & Hact).
  assert (srv ∈ srvs) as Hsrv by set_solver.
  destruct (decide (srv = e0)) as [->|Hne].
  - destruct (call_succeeds p w _ _ str a0 Hact) as (w' & i & Hu & Hres); [done|by apply (Hr e0)|].
    exists w'. split; [done|]. left. eapply returns_after; [exact Hrun1|].
    exists zs1, (ts ++ [(e0, args1, Some (i, str))]). intros x Hx. by apply Hres, accepted_leaves.
  - destruct (call_ends p w _ _ str Hw Hact) as (w' & [[i r]|] & Hu & Ho & Hres).
    { intros a Ha. by apply (Hr srv). }
    + rewrite (Ho i r eq_refl) in Hres. exists w'. split; [done|]. left. eapply returns_after; [exact Hrun1|].
      exists zs1, (ts ++ [(srv, args1, Some (i, str))]). intros x Hx. by apply Hres, accepted_leaves.
    + destruct (IH w' args1 false zs1 (ts ++ [(srv, args1, None)])) as (w2 & Hu2 & Hend).
      { by eapply steps_trans, (ud_steps _ _ Hu). }
      { by eapply reachable_undisturbed. }
      { set_solver. }
      { by rewrite (ud_addr _ _ Hu). }
      assert (prun (mkSystem w (emb (mkC (CTry args stamped (srv :: todo)) zs ts)) None)
        (mkSystem w' (emb (mkC (CTry args1 false todo) zs1 (ts ++ [(srv, args1, None)]))) None)) as Hrun2.
      { etrans; [exact Hrun1|]. apply Hres. by erewrite emb_resume; [|done|apply resume_failed]. }
      exists w2. split; [by eapply undisturbed_trans|].
      destruct Hend as [?|[(args2 & s2 & zs2 & ts2 & Hrun3) ?]]; [left; by eapply returns_after|right].
      split; [exists args2, s2, zs2, ts2; by etrans|by apply not_elem_of_cons].
Qed.

(** The rest of a round, and one more if need be. *)
Lemma call_returns e0 a0 w args stamped todo zs ts :
  steps step start w → reachable_servers w → todo ⊆ srvs → e0 ∈ srvs → target_addr (net w) e0 = Some a0 →
  ∃ w', undisturbed w w' ∧ returns (mkSystem w (emb (mkC (CTry args stamped todo) zs ts)) None) w'.
Proof using accepts not_wrong emb_act emb_resume.
  intros Hw Hr Hsub He Ha.
  destruct (round_ends e0 a0 todo w args stamped zs ts)
    as (w1 & Hu & [?|[(args1 & s1 & zs1 & ts1 & Hrun) _]]); [done..|by eauto|].
  destruct (round_ends e0 a0 srvs w1 args1 s1 zs1 ts1) as (w2 & Hu2 & [Hd|[_ Hn]]); [..|done].
  { by eapply steps_trans, (ud_steps _ _ Hu). }
  { by eapply reachable_undisturbed. }
  { done. }
  { by rewrite (ud_addr _ _ Hu). }
  exists w2. split; [by eapply undisturbed_trans|]. eapply returns_after; [exact Hrun|].
  eapply returns_after; [|exact Hd]. apply rtc_once. exists SGo. cbn. rewrite emb_act by done. cbn. unfold advance. cbn.
  erewrite emb_resume; [|done|by destruct s1]. done.
Qed.
End ctrl.

(** ** Tests of the conditions *)

Definition has_methodb (w : world) (meth : string) (a : nat) : bool :=
  match heap w !! a with
  | Some rs => match Server_dispatch rs meth with Ok _ => true | Crash _ => false end
  | None => false
  end.

Lemma has_methodb_sound w meth a : has_methodb w meth a = true → has_method w meth a.
Proof.
  unfold has_methodb, has_method. destruct (heap w !! a) as [rs|]; [|done].
  destruct (Server_dispatch rs meth) as [[rs' m]|] eqn:E; [|done]. by exists rs, rs', m.
Qed.

Definition leads_ok (w : world) (meth : string) (o : option nat) : bool :=
  match o with Some a => has_methodb w meth a | None => true end.

Lemma reachable_servers_check {A R} (sh : shape A R) srvs w :
  forallb (λ e, leads_ok w (sh_meth sh) (target_addr (net w) e)) srvs = true → reachable_servers sh srvs w.
Proof.
  intros H e a He Ha. rewrite forallb_forall in H. apply list_elem_of_In, H in He. rewrite Ha in He.
  by apply has_methodb_sound.
Qed.

Lemma reach_ok_check w x :
  leads_ok w (r_svcMeth (rq x)) (t_server <$> target_of (ph x)) = true →
  leads_ok w (r_svcMeth (rq x)) (target_addr (net w) (r_endname (rq x))) = true → reach_ok w x.
Proof.
  intros H1 H2. split.
  - intros t Ht. rewrite Ht in H1. by apply has_methodb_sound.
  - intros _ t Ht%find_target_addr. rewrite Ht in H2. by apply has_methodb_sound.
Qed.

Lemma embedded_id {A R} (st : cstate A R) : Ok st = embedded (λ st, st) Ok st.
Proof. unfold embedded. by destruct (point st). Qed.

(** C21. A call of the controller's clerk can return.  Whatever the network has done to its
requests, and wherever the call is: suppose that every end of the clerk that leads to a
server leads to one that has the method, that end [e0] does lead to a server, that some
reply is accepted by the clerk, and that a reply a handler has already returned to the
pending request can be decoded.  Then the call can be carried on to its return, and the
network is left with the same ends enabled, the same connections and the same servers. *)
Theorem ctrl_clerk_can_return {A R} (sh : shape A R) srvs args0 w0 s e0 a0 str reply :
  steps step start w0 →
  rtc (system_step (ctrl_prog sh srvs)) (mkSystem w0 (ctrl_start sh srvs args0) None) s →
  reachable_servers sh srvs (wld s) → e0 ∈ srvs → target_addr (net (wld s)) e0 = Some a0 →
  sh_dec sh str = Some reply → sh_wrong sh reply = false →
  (∀ i x, pending s = Some i → reqs (wld s) !! i = Some x →
     reach_ok (wld s) x ∧ ∀ r, hd x = HReturned r → is_Some (sh_dec sh r)) →
  ∃ s' r, rtc (system_step (ctrl_prog sh srvs)) s s' ∧ point (here s') = CDone r ∧ undisturbed (wld s) (wld s').
Proof.
  intros Hw Hrun Hr He0 Ha0 Hstr Hwr Hpend. pose proof (run_todo_ok sh srvs w0 args0 s Hw Hrun) as Htodo.
  destruct (system_inv (ctrl_prog sh srvs) (λ _ _, True) ltac:(done) ltac:(done) ltac:(done) w0 _ s Hw I Hrun)
    as (Hws & Hwait & _).
  destruct s as [w [pt zs ts] pd]. unfold todo_ok in Htodo. cbn [wld pending here point] in *.
  set (prun := rtc (system_step (ctrl_prog sh srvs))) in *.
  assert (∀ s0 w' args stamped todo zs ts, prun s0 (mkSystem w' (mkC (CTry args stamped todo) zs ts) None) →
    undisturbed w w' → todo ⊆ srvs → ∃ s' r, prun s0 s' ∧ point (here s') = CDone r ∧ undisturbed w (wld s')) as Hgo.
  { intros s0 w' args stamped todo zs' ts' Hrun0 Hu Hsub.
    destruct (call_returns sh srvs (ctrl_prog sh srvs) (λ st, st) Ok ltac:(done)
      (λ st i st' _ Hst, eq_trans Hst (embedded_id st')) str reply Hstr Hwr e0 a0 w' args stamped todo zs' ts')
      as (w2 & Hu2 & zs2 & ts2 & Hx);
      [by eapply steps_trans, (ud_steps _ _ Hu)|by eapply reachable_undisturbed|done|done|by rewrite (ud_addr _ _ Hu)|].
    exists (mkSystem w2 (mkC (CDone reply) zs2 ts2) None), reply.
    split_and!; [etrans; [exact Hrun0|by apply Hx]|done|by eapply undisturbed_trans]. }
  destruct pd as [i|].
  - destruct Hwait as (q & x & Hact & Hi & _). cbn in Hact, Hi. destruct (Hpend i x eq_refl Hi) as [Hok Hdec].
    unfold ctrl_act in Hact. cbn in Hact. destruct pt as [args|args stamped [|srv todo]|r]; try done.
    destruct (pending_ends (ctrl_prog sh srvs) w (mkC (CTry args stamped (srv :: todo)) zs ts) i x str Hws Hi Hok)
      as (w' & o & Hu & Ho & Hres).
    assert (todo ⊆ srvs) as Hsub by set_solver.
    destruct o as [[j y]|].
    + assert (∃ r, sh_dec sh y = Some r) as [r Hy] by (destruct (Ho j y eq_refl) as [Hh| ->]; [by apply Hdec|eauto]).
      specialize (Hres _ (resume_reply sh srvs args stamped srv todo zs ts j y r Hy)).
      destruct (sh_wrong sh r); [by eapply Hgo|]. eexists _, r. split_and!; [exact Hres|done|done].
    + specialize (Hres _ (resume_failed sh srvs args stamped srv todo zs ts)). by eapply Hgo.
  - destruct pt as [args|args stamped todo|r].
    + eapply (Hgo _ w (sh_stamp sh 0 args) true srvs (zs ++ [0%Z]) ts); [|apply undisturbed_refl|done].
      apply rtc_once. by exists (SClock 0).
    + eapply Hgo; [done|apply undisturbed_refl|done].
    + exists (mkSystem w (mkC (CDone r) zs ts) None), r. split_and!; [done|done|apply undisturbed_refl].
Qed.
End ClerkProgress.
