(* ===== verification/CtrlProgress.v ===== *)
(** * The controller end to end: calls can return

The machine of [CtrlEndToEnd] does not get stuck: wherever a call of the controller's
clerk is, whatever has become of its requests on the network and of their operations
in the service, it can be carried on to its return, if one of the clerk's ends leads
to a server and Raft takes some server for the leader and agrees on what it is asked. *)

From S2P Require Import Prelude GoStrings RaftPeer Labrpc ShardCtrler CtrlCluster Client Clerks ClerkProgress CtrlEndToEnd.
From stdpp Require Import options.
Import Labrpc Client CtrlCluster ClerkProgress CtrlEndToEnd.

Module CtrlProgress.
Import ShardCtrler (Handlers, Op, Returned, calls).

(** ** Calls of [sendToRaftAndWait] *)

Section service.
Context `{hs : Handlers}.

Lemma local_step c j v l v' :
  insts c !! j = Some v → is_local l = true → ShardCtrler.next v l = Some v' →
  service_step c (mkService (<[j := v']> (insts c)) (chosen c) (issued c)).
Proof. intros Hj Hl Hn. exists (CLocal j l). cbn. rewrite Hl. unfold inst_step. by rewrite Hj, Hn. Qed.

(** Every call can time out, if nothing else. *)
Lemma call_finishes c j v k cs :
  reached c → insts c !! j = Some v → calls v !! k = Some cs →
  ∃ c' v' op oi ok r, steps service_step c c' ∧ insts c' !! j = Some v' ∧ calls v' !! k = Some (Returned op oi ok r).
Proof.
  intros Hc Hj Hk. pose proof (lookup_lt_Some _ _ _ Hj) as Hlj. pose proof (lookup_lt_Some _ _ _ Hk) as Hlk.
  assert (∀ c v op idx, insts c !! j = Some v → calls v !! k = Some (ShardCtrler.Waiting op idx) →
    ∃ c' v' op oi ok r, steps service_step c c' ∧ insts c' !! j = Some v' ∧ calls v' !! k = Some (Returned op oi ok r)) as Hwait.
  { intros c0 v0 op idx Hj0 Hk0.
    pose proof (lookup_lt_Some _ _ _ Hj0). pose proof (lookup_lt_Some _ _ _ Hk0).
    eexists _, _, op, (Some idx), false, op. split_and!.
    - apply steps_one. eapply (local_step c0 j v0 (ShardCtrler.LTimeout k)); [done|done|]. cbn. by rewrite Hk0.
    - by apply list_lookup_insert_eq.
    - cbn. by apply list_lookup_insert_eq. }
  destruct cs as [op idx|op idx|op oi ok r]; [|by eapply Hwait|by exists c, v, op, oi, ok, r; split_and!; [apply steps_refl|..]].
  pose proof (inst_receiving c j v (service_reached c Hc) Hj) as Hrec.
  set (v1 := ShardCtrler.mkWorld (ShardCtrler.ensure_chan (ShardCtrler.sc v) idx) (ShardCtrler.loop v)
    (<[k := ShardCtrler.Waiting op idx]> (calls v)) (ShardCtrler.log v)).
  destruct (Hwait (mkService (<[j := v1]> (insts c)) (chosen c) (issued c)) v1 op idx) as (c' & v' & op' & oi & ok & r & Hs & Hj' & Hk').
  { by apply list_lookup_insert_eq. }
  { cbn. by apply list_lookup_insert_eq. }
  exists c', v', op', oi, ok, r. split_and!; [|done..]. eapply steps_trans; [|exact Hs]. apply steps_one.
  eapply (local_step c j v (ShardCtrler.LLock k)); [done|done|]. cbn. rewrite Hk.
  by assert (ShardCtrler.has_lock (ShardCtrler.loop v) = false) as -> by by rewrite Hrec.
Qed.
End service.

(** ** Steps of the machine *)

Section joint.
Context `{hs : Handlers} `{laws : !HandlerLaws} (rp : rpcs) {S : Type} (p : prog S).
Implicit Types (s : joint S) (w : world).
Abbreviation jrun := (rtc (joint_step rp p)).

Definition wd s : world := wld (client s).

(** A state that a run has reached, with a server that was started. *)
Record good s : Prop := {
  gd_acc : accounted rp s;
  gd_net : steps step start (wd s);
  gd_ctrl : reached (ctrl s);
  gd_inst : is_Some (insts (ctrl s) !! 0) }.

Lemma insts_stay c c' j : steps service_step c c' → is_Some (insts c !! j) → is_Some (insts c' !! j).
Proof.
  intros Hs Hj. apply lookup_lt_is_Some in Hj. apply lookup_lt_is_Some.
  induction Hs as [|c1 c2 c3 _ IH [l Hl]]; [done|]. eapply Nat.lt_le_trans; [by apply IH|].
  destruct l; cbn [service_next] in Hl; unfold inst_step in Hl; repeat case_match; simplify_eq/=;
    rewrite ?length_insert, ?length_app; lia.
Qed.

Lemma system_net (t t' : system S) : system_step p t t' → steps step (wld t) (wld t').
Proof.
  intros [l Hl]. destruct (system_world p t t' l Hl) as [->|(l' & Hn & _)]; [apply steps_refl|].
  apply steps_one. by exists l'.
Qed.

Lemma good_run s s' : jrun s s' → good s → good s'.
Proof.
  intros Hrun [Ha Hn Hc Hi]. destruct (joint_run rp p s s' Hrun Ha) as (Ha' & Hcl & Hct). split; [done|..].
  - eapply steps_trans; [exact Hn|]. unfold wd. clear -Hcl.
    induction Hcl as [|a b c Hab _ IH]; [apply steps_refl|]. eapply steps_trans; [by apply system_net|done].
  - by eapply steps_trans.
  - by eapply insts_stay.
Qed.

(** The network moves, the service moves, a handler starts, a handler returns. *)
Definition with_net s w : joint S := mkJoint (mkSystem w (here (client s)) (pending (client s))) (ctrl s) (running s).
Definition with_ctrl s (c : service) : joint S := mkJoint (client s) c (running s).

Lemma net_lift s l w' :
  next (wd s) l = Some (Ok w') → handler_label (SNet l) = None → joint_step rp p s (with_net s w').
Proof.
  intros Hn Hl. exists (JClient (SNet l)). cbn [joint_next]. rewrite Hl. unfold system_ok. cbn. unfold wd in Hn.
  by rewrite Hn.
Qed.

Lemma ctrl_lift s c : steps service_step (ctrl s) c → jrun s (with_ctrl s c).
Proof.
  intros Hs. remember (ctrl s) as c0 eqn:E. induction Hs as [|c1 c2 c3 _ IH [l Hl]].
  - subst. by destruct s.
  - eapply rtc_r; [by apply IH|]. exists (JCtrl l). cbn. by rewrite Hl.
Qed.

Lemma handle_lift s i j started x v w' c :
  reqs (wd s) !! i = Some x → r_svcMeth (rq x) ∈ methods rp → insts (ctrl s) !! j = Some v →
  next (wd s) (LDispatch i) = Some (Ok w') →
  service_next (ctrl s) (match started with
    | Some index => CSubmit j (op_for rp (r_svcMeth (rq x)) (r_args (rq x))) index
    | None => CLocal j (ShardCtrler.LSubmit (op_for rp (r_svcMeth (rq x)) (r_args (rq x))) None)
    end) = Some c →
  joint_step rp p s (mkJoint (mkSystem w' (here (client s)) (pending (client s))) c
    (<[i := (j, length (calls v))]> (running s))).
Proof.
  intros Hi Hm Hj Hn Hc. exists (JHandle i j started). cbn [joint_next]. unfold wd in *. rewrite Hi. cbn [mbind option_bind].
  rewrite Hj. cbn [mbind option_bind]. unfold ours. rewrite Hi, bool_decide_eq_true_2 by done.
  unfold system_ok. cbn [system_next]. rewrite Hn. cbn [fmap option_fmap option_map bind mbind option_bind].
  by rewrite Hc.
Qed.

Lemma return_lift s i j k x v op oi ok r w' :
  reqs (wd s) !! i = Some x → running s !! i = Some (j, k) → insts (ctrl s) !! j = Some v →
  calls v !! k = Some (Returned op oi ok r) →
  next (wd s) (LReturn i (answer rp (r_svcMeth (rq x)) ok r)) = Some (Ok w') → joint_step rp p s (with_net s w').
Proof.
  intros Hi Hr Hj Hk Hn. exists (JReturn i). cbn [joint_next]. unfold wd in *. rewrite Hi. cbn [mbind option_bind].
  rewrite Hr. cbn [mbind option_bind]. rewrite Hj. cbn [mbind option_bind]. rewrite Hk.
  unfold system_ok. cbn [system_next]. by rewrite Hn.
Qed.

(** ** Requests *)

(** The client is where it was, and of the requests only [i] has moved. *)
Record aside (i : nat) s s' : Prop := {
  as_run : jrun s s';
  as_here : here (client s') = here (client s);
  as_pending : pending (client s') = pending (client s);
  as_apart : apart i (wd s) (wd s') }.

Lemma aside_trans i s1 s2 s3 : aside i s1 s2 → aside i s2 s3 → aside i s1 s3.
Proof. intros [] []. split; [by etrans|congruence..|by eapply apart_trans]. Qed.

Lemma aside_refl i s : aside i s s.
Proof. split; [done..|apply apart_refl]. Qed.

Lemma aside_ctrl i s c : steps service_step (ctrl s) c → aside i s (with_ctrl s c).
Proof. intros Hs. split; [by apply ctrl_lift|done..|apply apart_refl]. Qed.

(** A handler that has started has, or comes to have, something to return. *)
Lemma handler_result s i x :
  good s → reqs (wd s) !! i = Some x → r_svcMeth (rq x) ∈ methods rp → hd x = HStarted →
  ∃ c j k v op oi ok r, steps service_step (ctrl s) c ∧ running s !! i = Some (j, k) ∧ insts c !! j = Some v ∧
    calls v !! k = Some (Returned op oi ok r).
Proof.
  intros Hg Hi Hm Hh. destruct (gd_acc _ Hg i x Hi Hm) as (j & k & v & cs & Hr & Hj & Hk & _); [by left|].
  destruct (call_finishes (ctrl s) j v k cs (gd_ctrl _ Hg) Hj Hk) as (c & v' & op & oi & ok & r & Hs & Hj' & Hk').
  by exists c, j, k, v', op, oi, ok, r.
Qed.

Lemma rstep_return w x i r rn h x' : rstep w x (LReturn i r) = Some (Ok (rn, h, x')) → hd x = HStarted.
Proof. cbn. by destruct (ph x), (hd x). Qed.

(** A request that is not answered can make a step towards its answer. *)
Lemma joint_moves s i x :
  good s → reqs (wd s) !! i = Some x → r_svcMeth (rq x) ∈ methods rp → reach_ok (wd s) x → 0 < stage x →
  ∃ s' x', aside i s s' ∧ reqs (wd s') !! i = Some x' ∧ rq x' = rq x ∧ reach_ok (wd s') x' ∧ stage x' < stage x.
Proof.
  intros Hg Hi Hm Hr Hstage.
  assert (∃ c str, steps service_step (ctrl s) c ∧ (hd x = HStarted → ∃ j k v op oi ok r, running s !! i = Some (j, k) ∧
    insts c !! j = Some v ∧ calls v !! k = Some (Returned op oi ok r) ∧ str = answer rp (r_svcMeth (rq x)) ok r))
    as (c & str & Hc & Hres).
  { destruct (hd x) eqn:Hh; try (exists (ctrl s), ""; split; [apply steps_refl|done]).
    destruct (handler_result s i x Hg Hi Hm Hh) as (c & j & k & v & op & oi & ok & r & ? & ? & ? & ?).
    exists c, (answer rp (r_svcMeth (rq x)) ok r). split; [done|]. intros _. by exists j, k, v, op, oi, ok, r. }
  destruct (request_label (wd s) i x str (gd_net _ Hg) Hi Hr Hstage) as (l & rn & h & x' & Hl & Hx & Hq & Hlt & Ht & Hns & Hret).
  destruct (label_moves (wd s) i x l rn h x' Hi Hl Hx Hq Ht Hns) as (Hn & Hap & Hi' & Hr').
  set (w' := mkWorld rn h (<[i := x']> (reqs (wd s)))) in *. set (s1 := with_ctrl s c).
  pose proof (aside_ctrl i s c Hc) as Has. pose proof (good_run _ _ (as_run _ _ _ Has) Hg) as Hg1.
  assert (∀ s', joint_step rp p s1 s' → client s' = mkSystem w' (here (client s)) (pending (client s)) →
    ∃ s' x', aside i s s' ∧ reqs (wd s') !! i = Some x' ∧ rq x' = rq x ∧ reach_ok (wd s') x' ∧ stage x' < stage x) as Hgo.
  { intros s' Hst Hcl. exists s', x'. unfold wd. rewrite Hcl. split_and!; [|done..].
    eapply aside_trans; [exact Has|]. split; [by apply rtc_once|by rewrite Hcl..|]. unfold wd at 2. by rewrite Hcl. }
  destruct l as [op|q|j|j d|j|j r|j|j|j|j d d'|j]; try done; injection Hl as ->.
  all: try (eapply Hgo; [by eapply net_lift|done]; fail).
  - destruct (gd_inst _ Hg1) as [v Hv]. change (insts c !! 0 = Some v) in Hv.
    eapply Hgo; [eapply (handle_lift s1 i 0 None x v w'); [done..|]|done]. cbn. unfold inst_step. rewrite Hv. reflexivity.
  - pose proof (rstep_return _ _ _ _ _ _ _ Hx) as Hh.
    destruct (Hres Hh) as (j & k & v & op & oi & ok & r' & Hrn & Hj & Hk & ->).
    assert (r = answer rp (r_svcMeth (rq x)) ok r') as ->.
    { assert (hd x' = HReturned r) as Hh'. { cbn in Hx. rewrite Hh in Hx. destruct (ph x); by simplify_eq/=. }
      destruct (Hret r Hh') as [?|[_ ?]]; congruence. }
    eapply Hgo; [by eapply (return_lift s1)|done].
Qed.

Lemma joint_finishes s i x :
  good s → reqs (wd s) !! i = Some x → r_svcMeth (rq x) ∈ methods rp → reach_ok (wd s) x →
  ∃ s' x' m, aside i s s' ∧ reqs (wd s') !! i = Some x' ∧ rq x' = rq x ∧ ph x' = PReplied m ∧
    (rp_ok m = true → ∃ ok r, rp_reply m = answer rp (r_svcMeth (rq x)) ok r).
Proof.
  remember (stage x) as k eqn:Hk. revert s x Hk. induction k as [k IH] using lt_wf_ind. intros s x -> Hg Hi Hm Hr.
  destruct (decide (stage x = 0)) as [E|Hne].
  - destruct (ph x) as [| | | | | | | |m] eqn:Hp; unfold stage in E; rewrite Hp in E; try done; [by destruct (hd x)|].
    exists s, x, m. split_and!; [apply aside_refl|done..|]. intros Hok.
    destruct (reachable_req_inv (wd s) x (gd_net _ Hg)) as [_ Hinv]; [by eapply list_elem_of_lookup_2|].
    rewrite Hp in Hinv. destruct (gd_acc _ Hg i x Hi Hm) as (_ & _ & _ & cs & _ & _ & _ & _ & Hret); [right; eauto|].
    destruct (Hret _ (Hinv Hok)) as (op & oi & ok & r & _ & ->). eauto.
  - destruct (joint_moves s i x Hg Hi Hm Hr) as (s1 & x1 & Has & Hi1 & Hq & Hr1 & Hlt); [lia|].
    destruct (IH (stage x1) Hlt s1 x1 eq_refl) as (s2 & x2 & m & Has2 & Hi2 & Hq2 & Hp & Hok);
      [by eapply good_run, Hg; apply (as_run _ _ _ Has)|done|by rewrite Hq|done|].
    exists s2, x2, m. rewrite Hq in Hq2, Hok. split_and!; [by eapply aside_trans|done..].
Qed.

(** ** Calls *)

Lemma client_lift s l cl :
  system_ok p (client s) l = Some cl → handler_label l = None → joint_step rp p s (mkJoint cl (ctrl s) (running s)).
Proof. intros Hs Hl. exists (JClient l). cbn [joint_next]. by rewrite Hl, Hs. Qed.

Lemma answer_lift s i x m st' :
  pending (client s) = Some i → reqs (wd s) !! i = Some x → ph x = PReplied m →
  resume p (here (client s)) (IReply (if rp_ok m then Some (i, rp_reply m) else None)) = Ok st' →
  joint_step rp p s (mkJoint (mkSystem (wd s) st' None) (ctrl s) (running s)).
Proof.
  intros Hp Hi Hm Hr. apply (client_lift s SAnswer); [|done]. unfold system_ok. cbn. rewrite Hp. unfold wd in Hi.
  rewrite Hi. cbn. rewrite Hm. unfold advance. cbn. by rewrite Hr.
Qed.

Definition sent (w : world) (q : reqMsg) : world :=
  mkWorld (add_bytes (add_count (net w)) (r_args q)) (heap w) (reqs w ++ [mkR q PStart HNone 0 None]).

Lemma send_lift s q :
  pending (client s) = None → act p (here (client s)) = ACall q →
  joint_step rp p s (mkJoint (mkSystem (sent (wd s) q) (here (client s)) (Some (length (reqs (wd s))))) (ctrl s) (running s)).
Proof.
  intros Hp Ha. apply (client_lift s SSend); [|done]. unfold system_ok. cbn. by rewrite Hp, Ha.
Qed.

Lemma request_kept w w' i x :
  steps step start w → steps step w w' → reqs w !! i = Some x → ∃ x', reqs w' !! i = Some x' ∧ rq x' = rq x.
Proof.
  intros Hw Hs Hi. induction Hs as [|w1 w2 w3 H12 IH H23]; [eauto|]. destruct (IH Hw Hi) as (x1 & Hx1 & <-).
  destruct (step_request w2 w3 i x1) as (x2 & ? & ? & _); [by eapply steps_trans|done..|]. eauto.
Qed.

(** The handler of a request, from its start to its return. *)
Lemma handler_run s i x w1 w2 c1 v1 c2 c3 v3 idx r :
  good s → reqs (wd s) !! i = Some x → r_svcMeth (rq x) ∈ methods rp →
  let op := op_for rp (r_svcMeth (rq x)) (r_args (rq x)) in
  steps service_step (ctrl s) c1 → insts c1 !! 0 = Some v1 → service_next c1 (CSubmit 0 op idx) = Some c2 →
  steps service_step c2 c3 → insts c3 !! 0 = Some v3 → calls v3 = calls v1 ++ [Returned op (Some idx) true r] →
  next (wd s) (LDispatch i) = Some (Ok w1) →
  next w1 (LReturn i (answer rp (r_svcMeth (rq x)) true r)) = Some (Ok w2) →
  ∃ c rn, jrun s (mkJoint (mkSystem w2 (here (client s)) (pending (client s))) c rn).
Proof using Type.
  intros Hg Hi Hm op Hs1 Hv1 Hsub Hs3 Hv3 Hcl3 Hn1 Hn2.
  destruct (step_request (wd s) w1 i x (gd_net _ Hg)) as (x1 & Hx1 & Hq & _); [by exists (LDispatch i)|done|].
  rewrite <-Hq in Hn2.
  set (s2 := mkJoint (mkSystem w1 (here (client s)) (pending (client s))) c2 (<[i := (0, length (calls v1))]> (running s))).
  exists c3, (running s2). transitivity (with_ctrl s c1); [by apply ctrl_lift|].
  eapply rtc_l; [by apply (handle_lift (with_ctrl s c1) i 0 (Some idx) x v1 w1 c2)|].
  transitivity (with_ctrl s2 c3); [by apply (ctrl_lift s2)|]. apply rtc_once.
  apply (return_lift (with_ctrl s2 c3) i 0 (length (calls v1)) x1 v3 op (Some idx) true r w2); [done| |done| |done].
  - cbn. by rewrite lookup_insert_eq.
  - rewrite Hcl3. by apply list_lookup_middle.
Qed.

(** A call through an end that leads to a server can be answered, with what an operation
of the service gives. *)
Lemma joint_call s q a :
  good s → pending (client s) = None → act p (here (client s)) = ACall q → r_svcMeth q ∈ methods rp →
  target_addr (net (wd s)) (r_endname q) = Some a → has_method (wd s) (r_svcMeth q) a →
  ∃ i r, ∀ st', resume p (here (client s)) (IReply (Some (i, answer rp (r_svcMeth q) true r))) = Ok st' →
    ∃ s', jrun s s' ∧ here (client s') = st' ∧ undisturbed (wd s) (wd s').
Proof using laws.
  intros Hg Hp Hact Hm Hat (rs & rs' & sm & Hrs & Hd). unfold target_addr in Hat.
  destruct (is_enabled _ _) eqn:Hen; [|done]. destruct (connected_to _ _) as [n|] eqn:Hco; [|done]. cbn in Hat.
  destruct (gd_inst _ Hg) as [v Hv].
  destruct (service_can_answer (ctrl s) 0 v (op_for rp (r_svcMeth q) (r_args q)) (gd_ctrl _ Hg) Hv)
    as (c1 & v1 & c2 & c3 & v3 & Hs1 & Hv1 & Hcl1 & Hsub & Hs3 & Hv3 & _ & _ & Hcl3).
  set (r := ShardCtrler.spec_result _ _) in *. set (str := answer rp (r_svcMeth q) true r).
  destruct (call_served (wd s) q n a rs rs' sm str Hen Hco Hat Hrs Hd) as (w' & x' & Hrun & Hx & Hph & _).
  assert (undisturbed (wd s) w') as Hu by (eapply run_undisturbed; [exact Hrun|by repeat constructor]).
  set (i := length (reqs (wd s))) in *. exists i, r. intros st' Hres. cbn [run_labels] in Hrun.
  change (next_ok (wd s) (LCall q)) with (Some (sent (wd s) q)) in Hrun. cbn iota in Hrun.
  destruct (next_ok (sent (wd s) q) (LRead i)) as [w2|] eqn:E2; [|done].
  destruct (next_ok w2 (LSend i false)) as [w3|] eqn:E3; [|done].
  destruct (next_ok w3 (LDispatch i)) as [w4|] eqn:E4; [|done].
  destruct (next_ok w4 (LReturn i str)) as [w5|] eqn:E5; [|done].
  destruct (next_ok w5 (LRecv i)) as [w6|] eqn:E6; [|done].
  destruct (next_ok w6 (LCheck i)) as [w7|] eqn:E7; [|done].
  destruct (next_ok w7 (LFinal i false false)) as [w8|] eqn:E8; [|done]. injection Hrun as ->.
  apply next_ok_step in E2, E3, E4, E5, E6, E7, E8.
  set (s1 := mkJoint (mkSystem (sent (wd s) q) (here (client s)) (Some i)) (ctrl s) (running s)).
  assert (jrun s (with_net s1 w3)) as Hr1.
  { eapply rtc_l; [by apply send_lift|]. eapply rtc_l; [by apply (net_lift s1 (LRead i))|].
    apply rtc_once. by apply (net_lift (with_net s1 w2) (LSend i false)). }
  destruct (request_kept (sent (wd s) q) w3 i (mkR q PStart HNone 0 None)) as (x3 & Hx3 & Hq3).
  { eapply steps_step; [apply (gd_net _ Hg)|]. by exists (LCall q). }
  { eapply steps_step; [apply steps_one; by exists (LRead i)|]. by exists (LSend i false). }
  { cbn. by apply list_lookup_middle. }
  cbn in Hq3. subst q.
  destruct (handler_run (with_net s1 w3) i x3 w4 w5 c1 v1 c2 c3 v3 _ r (good_run _ _ Hr1 Hg) Hx3 Hm Hs1 Hv1 Hsub Hs3 Hv3)
    as (c & rn & Hr2); [by rewrite Hcl1|done|done|].
  set (s5 := mkJoint (mkSystem w5 (here (client s)) (Some i)) c rn).
  eexists. split; [etrans; [exact Hr1|]; etrans; [exact Hr2|]|].
  - eapply rtc_l; [by apply (net_lift s5 (LRecv i))|]. eapply rtc_l; [by apply (net_lift (with_net s5 w6) (LCheck i))|].
    eapply rtc_l; [by apply (net_lift (with_net s5 w7) (LFinal i false false))|].
    apply rtc_once. by eapply (answer_lift (with_net s5 w')).
  - by split.
Qed.

(** A call through an end that leads nowhere can fail. *)
Lemma joint_lost s q :
  pending (client s) = None → act p (here (client s)) = ACall q → target_addr (net (wd s)) (r_endname q) = None →
  ∃ w', undisturbed (wd s) w' ∧ ∀ st', resume p (here (client s)) (IReply None) = Ok st' →
    jrun s (mkJoint (mkSystem w' st' None) (ctrl s) (running s)).
Proof.
  intros Hp Hact Hat. set (i := length (reqs (wd s))). pose proof (call_undisturbed (wd s) q) as Hu.
  fold (sent (wd s) q) in Hu. set (w1 := sent (wd s) q) in *.
  assert (reqs w1 !! i = Some (mkR q PStart HNone 0 None)) as Hi by (by apply list_lookup_middle).
  assert (find_target (readEndnameInfo (net w1) (r_endname q)) = None) as Hf.
  { destruct (find_target _) as [t|] eqn:E; [|done]. apply find_target_addr in E. by rewrite (ud_addr _ _ Hu), Hat in E. }
  destruct (label_moves w1 i _ (LRead i) (net w1) (heap w1) (mkR q PLost HNone 0 None) Hi) as (Hn2 & Hap2 & Hi2 & _); try done.
  { unfold rstep. cbn [ph rq]. by rewrite Hf. }
  set (w2 := mkWorld _ _ _) in *.
  destruct (label_moves w2 i _ (LFire i) (net w2) (heap w2) (mkR q failed HNone 0 None) Hi2) as (Hn3 & Hap3 & Hi3 & _); try done.
  set (w3 := mkWorld (net w2) _ _) in *. exists w3. split.
  { eapply undisturbed_trans; [exact Hu|]. eapply apart_undisturbed, apart_trans; [exact Hap2|exact Hap3]. }
  intros st' Hres. set (s1 := mkJoint (mkSystem w1 (here (client s)) (Some i)) (ctrl s) (running s)).
  eapply rtc_l; [by apply send_lift|]. eapply rtc_l; [by apply (net_lift s1 (LRead i))|].
  eapply rtc_l; [by apply (net_lift (with_net s1 w2) (LFire i))|]. apply rtc_once.
  by eapply (answer_lift (with_net s1 w3)).
Qed.
End joint.

(** ** The controller's clerk *)

Section clerk.
Context `{hs : Handlers} `{laws : !HandlerLaws} (rp : rpcs) {A R : Type} (sh : Clerks.shape A R) (srvs : list iface).
Abbreviation program := (Clerks.ctrl_prog sh srvs).
Abbreviation jrun := (rtc (joint_step rp program)).

(** The replies of the hidden handler can be decoded, and say that the leader is wrong
when [sendToRaftAndWait] has returned false, and only then. *)
Record reply_laws : Prop := {
  rp_method : Clerks.sh_meth sh ∈ methods rp;
  rp_decodes : ∀ ok r, ∃ reply, Clerks.sh_dec sh (answer rp (Clerks.sh_meth sh) ok r) = Some reply ∧
    Clerks.sh_wrong sh reply = negb ok }.

Definition trying (w : world) args stamped todo zs ts : system (Clerks.cstate A R) :=
  mkSystem w (Clerks.mkC (Clerks.CTry args stamped todo) zs ts) None.

(** The call has returned, and the network is as in [w]. *)
Definition returned (w : world) (s : joint (Clerks.cstate A R)) : Prop :=
  undisturbed w (wd s) ∧ ∃ reply, Clerks.point (here (client s)) = Clerks.CDone reply.

Lemma returned_after w w1 s : undisturbed w w1 → returned w1 s → returned w s.
Proof. intros Hu [Hu1 ?]. split; [by eapply undisturbed_trans|done]. Qed.

(** The clock is read, if it has to be. *)
Lemma joint_ready s w args stamped srv todo zs ts :
  client s = trying w args stamped (srv :: todo) zs ts →
  ∃ s' args' stamped' zs', jrun s s' ∧ client s' = trying w args' stamped' (srv :: todo) zs' ts ∧
    act program (here (client s')) = ACall (Clerks.request_of sh srv args').
Proof.
  intros Hcl. destruct (Clerks.sh_each sh && negb stamped) eqn:E.
  - assert (stamped = false) as -> by (destruct stamped; [by rewrite andb_false_r in E|done]).
    exists (mkJoint (trying w (Clerks.sh_stamp sh 0 args) true (srv :: todo) (zs ++ [0%Z]) ts) (ctrl s) (running s)),
      (Clerks.sh_stamp sh 0 args), true, (zs ++ [0%Z]). split_and!; [|done|].
    + apply rtc_once. apply (client_lift rp program s (SClock 0)); [|done]. rewrite Hcl. unfold system_ok. cbn.
      unfold Clerks.ctrl_act. cbn. apply andb_prop in E as [-> _]. done.
    + cbn. unfold Clerks.ctrl_act. cbn. by rewrite andb_false_r.
  - exists s, args, stamped, zs. split_and!; [done|done|]. rewrite Hcl. cbn. unfold Clerks.ctrl_act. cbn. by rewrite E.
Qed.

Hypothesis replies : reply_laws.

(** The rest of a round. *)
Lemma round_returns e0 a0 todo s w args stamped zs ts :
  good rp s → client s = trying w args stamped todo zs ts → reachable_servers sh srvs w → todo ⊆ srvs →
  target_addr (net w) e0 = Some a0 →
  ∃ s', jrun s s' ∧ (returned w s' ∨
    (∃ w' args' stamped' zs' ts', client s' = trying w' args' stamped' [] zs' ts' ∧ undisturbed w w') ∧ e0 ∉ todo).
Proof using laws replies.
  revert s w args stamped zs ts. induction todo as [|srv todo IH]; intros s w args stamped zs ts Hg Hcl Hr Hsub He0.
  { exists s. split; [done|]. right. split; [|apply not_elem_of_nil]. exists w, args, stamped, zs, ts.
    split; [done|apply undisturbed_refl]. }
  destruct (joint_ready s w args stamped srv todo zs ts Hcl) as (s1 & args1 & st1 & zs1 & Hrun1 & Hcl1 & Hact).
  pose proof (good_run rp program _ _ Hrun1 Hg) as Hg1.
  assert (pending (client s1) = None ∧ wd s1 = w) as [Hp1 Hw1] by (unfold wd; by rewrite Hcl1).
  destruct (target_addr (net w) srv) as [a|] eqn:Ha.
  - destruct (joint_call rp program s1 _ a Hg1 Hp1 Hact (rp_method replies)) as (i & r & Hres).
    { by rewrite Hw1. }
    { rewrite Hw1. apply (Hr srv); [set_solver|done]. }
    destruct (rp_decodes replies true r) as (reply & Hdec & Hwr). rewrite Hcl1 in Hres.
    destruct (Hres _ (resume_reply sh srvs args1 st1 srv todo zs1 ts i _ reply Hdec)) as (s2 & Hrun2 & Hh & Hu).
    rewrite Hw1 in Hu. exists s2. split; [by etrans|]. left. split; [done|]. exists reply. rewrite Hh, Hwr. done.
  - destruct (joint_lost rp program s1 _ Hp1 Hact) as (w2 & Hu & Hres); [by rewrite Hw1|]. rewrite Hw1 in Hu.
    rewrite Hcl1 in Hres. specialize (Hres _ (resume_failed sh srvs args1 st1 srv todo zs1 ts)).
    destruct (IH _ w2 args1 false zs1 (ts ++ [(srv, args1, None)]) (good_run rp program _ _ Hres Hg1) eq_refl)
      as (s3 & Hrun3 & Hend).
    { by eapply reachable_undisturbed. }
    { set_solver. }
    { by rewrite (ud_addr _ _ Hu). }
    exists s3. split; [by etrans; [|etrans]|]. destruct Hend as [?|[(w3 & a3 & st3 & zs3 & ts3 & ? & ?) Hn]];
      [left; by eapply returned_after|right].
    split; [exists w3, a3, st3, zs3, ts3; split; [done|by eapply undisturbed_trans]|].
    apply not_elem_of_cons. split; [|done]. intros ->. congruence.
Qed.

(** The rest of a round, and one more if need be. *)
Lemma tries_return e0 a0 todo s w args stamped zs ts :
  good rp s → client s = trying w args stamped todo zs ts → reachable_servers sh srvs w → todo ⊆ srvs →
  e0 ∈ srvs → target_addr (net w) e0 = Some a0 → ∃ s', jrun s s' ∧ returned w s'.
Proof using laws replies.
  intros Hg Hcl Hr Hsub He Ha.
  destruct (round_returns e0 a0 todo s w args stamped zs ts Hg Hcl Hr Hsub Ha)
    as (s1 & Hrun1 & [?|[(w1 & a1 & st1 & zs1 & ts1 & Hcl1 & Hu) _]]); [by exists s1|].
  pose proof (good_run rp program _ _ Hrun1 Hg) as Hg1.
  set (s2 := mkJoint (trying w1 a1 st1 srvs zs1 ts1) (ctrl s1) (running s1)).
  assert (joint_step rp program s1 s2) as H12.
  { apply (client_lift rp program s1 SGo); [|done]. rewrite Hcl1. unfold system_ok. cbn. by destruct st1. }
  destruct (round_returns e0 a0 srvs s2 w1 a1 st1 zs1 ts1) as (s3 & Hrun3 & [Hd|[_ Hn]]); [..|done].
  { by eapply good_run, Hg1; apply rtc_once. }
  { done. }
  { by eapply reachable_undisturbed. }
  { done. }
  { by rewrite (ud_addr _ _ Hu). }
  exists s3. split; [|by eapply returned_after]. etrans; [exact Hrun1|]. by eapply rtc_l.
Qed.

(** A call that waits is answered, or fails, and goes on or has returned. *)
Lemma pending_goes_on s i w args stamped srv todo zs ts x :
  good rp s → client s = mkSystem w (Clerks.mkC (Clerks.CTry args stamped (srv :: todo)) zs ts) (Some i) →
  reqs w !! i = Some x → r_svcMeth (rq x) = Clerks.sh_meth sh → reach_ok w x →
  ∃ s', jrun s s' ∧ (returned w s' ∨ ∃ w' zs' ts', client s' = trying w' args false todo zs' ts' ∧ undisturbed w w').
Proof using laws replies.
  intros Hg Hcl Hi Hm Hr. assert (wd s = w) as Hw by (unfold wd; by rewrite Hcl).
  destruct (joint_finishes rp program s i x Hg) as (s1 & x1 & m & Has & Hi1 & _ & Hp & Hok); rewrite ?Hw, ?Hm; [done|apply replies|done|].
  assert (pending (client s1) = Some i ∧ here (client s1) = Clerks.mkC (Clerks.CTry args stamped (srv :: todo)) zs ts) as [Hpd Hh].
  { by rewrite (as_pending _ _ _ _ _ Has), (as_here _ _ _ _ _ Has), Hcl. }
  assert (undisturbed w (wd s1)) as Hu by (rewrite <-Hw; eapply apart_undisturbed, as_apart; exact Has).
  pose proof (answer_lift rp program s1 i x1 m) as Hgo. rewrite Hh in Hgo.
  pose proof (as_run _ _ _ _ _ Has) as Hrun.
  destruct (rp_ok m) eqn:Hrm.
  - destruct (Hok eq_refl) as (ok & r & E). rewrite Hm in E. destruct (rp_decodes replies ok r) as (reply & Hdec & Hwr).
    rewrite E in Hgo. specialize (Hgo _ Hpd Hi1 Hp (resume_reply sh srvs args stamped srv todo zs ts i _ reply Hdec)).
    eexists. split; [by eapply rtc_r|]. rewrite Hwr. destruct ok; [left|right].
    + split; [done|by exists reply].
    + by eexists (wd s1), zs, _.
  - specialize (Hgo _ Hpd Hi1 Hp (resume_failed sh srvs args stamped srv todo zs ts)).
    eexists. split; [by eapply rtc_r|]. right. by eexists (wd s1), zs, _.
Qed.
End clerk.

(** C6. From the clerk to the log and back, a call can always return.  Wherever a call of
the controller's clerk is: whatever the network has done to its requests, whatever
handlers wait for Raft, whatever the servers have been told: if the ends of the clerk
lead to servers that have the method and one of them leads to a server, and there is a
server for Raft to make the leader, the call can be carried on to its return, and the
network is left with the same ends enabled, the same connections and the same servers. *)
Theorem clerk_can_be_answered `{hs : Handlers} `{laws : !HandlerLaws} (rp : rpcs) {A R : Type}
    (sh : Clerks.shape A R) (srvs : list iface) (args0 : A) s0 s e0 a0 :
  reply_laws rp sh → begins rp sh srvs args0 s0 → rtc (joint_step rp (Clerks.ctrl_prog sh srvs)) s0 s →
  is_Some (insts (ctrl s) !! 0) → reachable_servers sh srvs (wd s) → e0 ∈ srvs →
  target_addr (net (wd s)) e0 = Some a0 →
  (∀ i x, pending (client s) = Some i → reqs (wd s) !! i = Some x → reach_ok (wd s) x) →
  ∃ s' reply, rtc (joint_step rp (Clerks.ctrl_prog sh srvs)) s s' ∧
    Clerks.point (here (client s')) = Clerks.CDone reply ∧ undisturbed (wd s) (wd s').
Proof.
  intros Hlaws [[Hst Hpd] Hnet Hct Hacc] Hrun Hinst Hr He0 Ha0 Hpend.
  destruct (joint_run rp _ _ _ Hrun Hacc) as (Ha & Hcl & Hcs).
  assert (client s0 = mkSystem (wd s0) (Clerks.ctrl_start sh srvs args0) None) as Hs0
    by (unfold wd; destruct (client s0); cbn in *; by subst).
  rewrite Hs0 in Hcl. pose proof (run_todo_ok sh srvs (wd s0) args0 (client s) Hnet Hcl) as Htodo.
  destruct (system_inv (Clerks.ctrl_prog sh srvs) (λ _ _, True) ltac:(done) ltac:(done) ltac:(done) (wd s0) _ _ Hnet I Hcl)
    as (Hws & Hwait & _).
  assert (good rp s) as Hg by (split; [done|done|by eapply steps_trans|done]).
  assert (∀ s1 w args stamped todo zs ts, rtc (joint_step rp (Clerks.ctrl_prog sh srvs)) s s1 →
    client s1 = trying w args stamped todo zs ts → undisturbed (wd s) w → todo ⊆ srvs →
    ∃ s' reply, rtc (joint_step rp (Clerks.ctrl_prog sh srvs)) s s' ∧
      Clerks.point (here (client s')) = Clerks.CDone reply ∧ undisturbed (wd s) (wd s')) as Hgo.
  { intros s1 w args stamped todo zs ts Hrun1 Hcl1 Hu Hsub.
    destruct (tries_return rp sh srvs Hlaws e0 a0 todo s1 w args stamped zs ts) as (s2 & Hrun2 & Hu2 & reply & Hp);
      [by eapply good_run|done|by eapply reachable_undisturbed|done|done|by rewrite (ud_addr _ _ Hu)|].
    exists s2, reply. split_and!; [by etrans|done|by eapply undisturbed_trans]. }
  destruct (client s) as [w [pt zs ts] pd] eqn:Hc. unfold todo_ok in Htodo.
  assert (wd s = w) as Hw by (unfold wd; by rewrite Hc). cbn in Htodo, Hpend. rewrite Hw in *.
  destruct pd as [i|].
  - destruct Hwait as (q & x & Hact & Hi & Hq). cbn in Hact, Hi. unfold Clerks.ctrl_act in Hact. cbn in Hact.
    destruct pt as [args|args stamped [|srv todo]|r]; try done. case_match; [done|]. injection Hact as <-.
    destruct (pending_goes_on rp sh srvs Hlaws s i w args stamped srv todo zs ts x Hg Hc Hi) as (s1 & Hrun1 & Hend).
    { by rewrite Hq. }
    { by apply Hpend with i. }
    destruct Hend as [[Hu [reply Hp]]|(w1 & zs1 & ts1 & Hcl1 & Hu)]; [by exists s1, reply|].
    eapply (Hgo s1); [done|exact Hcl1|done|set_solver].
  - destruct pt as [args|args stamped todo|r].
    + eapply (Hgo (mkJoint (trying w (Clerks.sh_stamp sh 0 args) true srvs (zs ++ [0%Z]) ts) (ctrl s) (running s)));
        [|done|apply undisturbed_refl|done].
      apply rtc_once. apply (client_lift rp _ s (SClock 0)); [|done]. by rewrite Hc.
    + eapply (Hgo s); [done|exact Hc|apply undisturbed_refl|done].
    + exists s, r. split_and!; [done|by rewrite Hc|rewrite Hw; apply undisturbed_refl].
Qed.

(** ** A run

The call of [CtrlEndToEnd.demo_run], when its first request is with a server whose
[sendToRaftAndWait] has an index and waits. *)

#[local] Existing Instance ShardCtrler.demo_handlers.
#[local] Existing Instance CtrlCluster.demo_laws.

Definition demo_waits := default demo_begin (run_labels (joint_next demo_rpcs demo_prog) demo_begin (take 6 demo_run)).

Lemma demo_waits_run : rtc (joint_step demo_rpcs demo_prog) demo_begin demo_waits.
Proof. apply (run_joint (take 6 demo_run)). vm_compute. reflexivity. Qed.

Lemma demo_reply_laws : reply_laws demo_rpcs demo_shape.
Proof.
  split; [left|]. intros ok r. exists (ShardCtrler.mkAckReply (negb ok) (if ok then "OK" else "")).
  split; [|done]. by apply (parsed_bytes (T := ShardCtrler.AckReply)).
Qed.

Lemma demo_waits_pending :
  pending (client demo_waits) = Some 0 ∧
  ∀ x, reqs (wd demo_waits) !! 0 = Some x → reach_ok (wd demo_waits) x.
Proof.
  split; [vm_compute; reflexivity|].
  assert (match reqs (wd demo_waits) !! 0 with
    | Some x => leads_ok (wd demo_waits) (r_svcMeth (rq x)) (t_server <$> target_of (ph x)) &&
                leads_ok (wd demo_waits) (r_svcMeth (rq x)) (target_addr (net (wd demo_waits)) (r_endname (rq x)))
    | None => false end = true) as H by (vm_compute; reflexivity).
  intros x Hx. rewrite Hx in H. apply andb_prop in H as [H1 H2]. by apply reach_ok_check.
Qed.

Lemma clerk_can_be_answered_witness :
  ∃ s' reply, rtc (joint_step demo_rpcs demo_prog) demo_waits s' ∧
    Clerks.point (here (client s')) = Clerks.CDone reply ∧ undisturbed (wd demo_waits) (wd s').
Proof.
  apply (clerk_can_be_answered demo_rpcs demo_shape demo_servers demo_args demo_begin demo_waits (IStr "c1") 1).
  - exact demo_reply_laws.
  - exact demo_begins.
  - exact demo_waits_run.
  - eexists. vm_compute. reflexivity.
  - apply reachable_servers_check. vm_compute. reflexivity.
  - right. left.
  - vm_compute. reflexivity.
  - destruct demo_waits_pending as [Hp Hr]. intros i x Hi. rewrite Hp in Hi. injection Hi as <-. exact (Hr x).
Defined.
End CtrlProgress.
