(* ===== verification/KvClerkProgress.v ===== *)
(** * The store's clerk can finish

A call of [Get] or [PutAppend] that is about to ask the controller can be carried to
its return, when the controller and a server of the group can be reached; with runs of
both clerks over a network. *)

From S2P Require Import Prelude GoStrings Labrpc ShardCtrler ShardKV KvHarness Client Clerks KvClerk ClerkProgress.
From stdpp Require Import options.
Import Labrpc Client Clerks ShardKV KvClerk ClerkProgress.

Module KvClerkProgress.

(** ** New ends *)

Lemma fresh_name (es : gset iface) : ∃ name, IStr name ∉ es.
Proof.
  set (names := omap (λ x, if x is IStr s then Some s else None) (elements es)).
  exists (fresh names). intros Hin. apply (infinite_is_fresh names). apply list_elem_of_omap.
  exists (IStr (fresh names)). split; [by apply elem_of_elements|done].
Qed.

(** What [make_end] does to the network. *)
Definition opened (rn : Network) (name srv : string) : Network :=
  with_maps rn ({[IStr name]} ∪ ends rn) (<[IStr name := true]> (<[IStr name := false]> (enabled rn))) (servers rn)
    (<[IStr name := Some (IStr srv)]> (<[IStr name := None]> (connections rn))).

Lemma opened_addr rn name srv : target_addr (opened rn name srv) (IStr name) = server_of rn (IStr srv).
Proof.
  unfold target_addr, is_enabled, connected_to, opened. cbn. by rewrite !lookup_insert_eq.
Qed.

Section kv.
Context {A R V : Type}.
Context (meth : string) (enc : A → string) (dec : string → option R) (judge : R → verdict V).
Context (mkargs : Z → A) (key : string).
Context (enc_query : ShardCtrler.QueryArgs → string) (dec_query : string → option ShardCtrler.QueryReply).
Context (sm : ShardCtrler.Clerk iface).
Implicit Types (st : kstate A V).

Abbreviation qshape := (query_shape enc_query dec_query).
Abbreviation ctrlers := (ShardCtrler.servers sm).
Abbreviation kprog := (kv_prog meth enc dec judge mkargs key enc_query dec_query sm).
Abbreviation run := (rtc (system_step kprog)).

(** [make_end] with a new name, up to the call. *)
Lemma end_opens w args c got srv todo rs :
  steps step start w →
  ∃ name, let w' := mkWorld (opened (net w) name srv) (heap w) (reqs w) in
    steps step start w' ∧
    run (mkSystem w (mkK (KName args c got srv todo) rs) None)
        (mkSystem w' (mkK (KEnd [] name args c got srv todo) rs) None).
Proof.
  intros Hw. destruct (fresh_name (ends (net w))) as [name Hn]. exists name.
  assert (apply_op w (OpMakeEnd (IStr name)) = Some (Ok (mkWorld (with_maps (net w) ({[IStr name]} ∪ ends (net w))
    (<[IStr name := false]> (enabled (net w))) (servers (net w)) (<[IStr name := None]> (connections (net w))))
    (heap w) (reqs w)))) as E1.
  { cbn. unfold MakeEnd. by rewrite decide_False. }
  split.
  - eapply steps_trans; [exact Hw|]. eapply steps_step; [eapply steps_step; [apply steps_one|]|].
    + exists (LOp (OpMakeEnd (IStr name))). exact E1.
    + by exists (LOp (OpConnect (IStr name) (IStr srv))).
    + by exists (LOp (OpEnable (IStr name) true)).
  - eapply rtc_l; [by exists (SName name)|].
    eapply rtc_l; [eapply op_step; [reflexivity|exact E1|reflexivity]|].
    eapply rtc_l; [eapply op_step; reflexivity|]. apply rtc_once. eapply op_step; reflexivity.
Qed.

Context (str : string) (r : R) (v : V).
Hypothesis accepts : dec str = Some r.
Hypothesis accepted : judge r = Accept v.

(** The servers of a group that are there have the method. *)
Definition group_methods (w : world) (srvs : list string) : Prop :=
  ∀ srv a, srv ∈ srvs → server_of (net w) (IStr srv) = Some a → has_method w meth a.

Lemma group_methods_check w srvs :
  forallb (λ srv, leads_ok w meth (server_of (net w) (IStr srv))) srvs = true → group_methods w srvs.
Proof.
  intros H srv a Hs Ha. rewrite forallb_forall in H. apply list_elem_of_In, H in Hs. rewrite Ha in Hs.
  by apply has_methodb_sound.
Qed.

(** One server is asked: it answers, or the next one is asked. *)
Lemma server_asked w args c got srv todo rs :
  steps step start w → (∀ a, server_of (net w) (IStr srv) = Some a → has_method w meth a) →
  ∃ w', steps step start w' ∧ servers (net w') = servers (net w) ∧
    (∀ m a, has_method w m a → has_method w' m a) ∧
    ((∃ rs', run (mkSystem w (mkK (KName args c got srv todo) rs) None) (mkSystem w' (mkK (KDone args v c) rs') None)) ∨
     server_of (net w) (IStr srv) = None ∧
     ∃ got', run (mkSystem w (mkK (KName args c got srv todo) rs) None)
                 (mkSystem w' (next_server args c got' todo rs) None)).
Proof using accepts accepted.
  intros Hw Hm. destruct (end_opens w args c got srv todo rs Hw) as (name & Hw1 & Hrun1).
  set (w1 := mkWorld (opened (net w) name srv) (heap w) (reqs w)) in *.
  set (st1 := mkK (KEnd [] name args c got srv todo) rs) in *.
  assert (act kprog st1 = ACall (kv_request meth enc name args)) as Hact by done.
  assert (∀ i, resume kprog st1 (IReply (Some (i, str))) =
    Ok (mkK (KDone args v c) (rs ++ [(c, got ++ [(srv, name, Some (i, str))])]))) as Hacc.
  { intros i. cbn. unfold kv_resume. cbn. unfold received, Call. cbn. rewrite accepts. cbn. by rewrite accepted. }
  destruct (server_of (net w) (IStr srv)) as [a|] eqn:Ha.
  - destruct (call_succeeds kprog w1 st1 _ str a Hact) as (w2 & i & Hu & Hres).
    { cbn. by rewrite opened_addr. }
    { by apply Hm. }
    exists w2. split_and!; [by eapply steps_trans, (ud_steps _ _ Hu)|apply (ud_servers _ _ Hu)|apply (ud_methods _ _ Hu)|].
    left. eexists. etrans; [exact Hrun1|]. apply Hres, Hacc.
  - destruct (call_ends kprog w1 st1 _ str Hw1 Hact) as (w2 & o & Hu & Ho & Hres).
    { intros a. cbn. by rewrite opened_addr, Ha. }
    exists w2. split_and!; [by eapply steps_trans, (ud_steps _ _ Hu)|apply (ud_servers _ _ Hu)|apply (ud_methods _ _ Hu)|].
    destruct o as [[i x]|].
    + left. rewrite (Ho i x eq_refl) in Hres. eexists. etrans; [exact Hrun1|]. apply Hres, Hacc.
    + right. split; [done|]. eexists. etrans; [exact Hrun1|]. by apply Hres.
Qed.

Lemma group_returns srv0 a0 todo w args c got rs :
  steps step start w → group_methods w todo → srv0 ∈ todo → server_of (net w) (IStr srv0) = Some a0 →
  ∃ w' rs', run (mkSystem w (next_server args c got todo rs) None) (mkSystem w' (mkK (KDone args v c) rs') None).
Proof using accepts accepted.
  revert w got. induction todo as [|srv todo IH]; intros w got Hw Hm Hin Ha0; [by apply not_elem_of_nil in Hin|].
  destruct (server_asked w args c got srv todo rs Hw) as (w1 & Hw1 & Hs1 & Hm1 & [[rs' Hrun]|[Hno [got' Hrun]]]).
  { intros a. apply Hm. set_solver. }
  - by exists w1, rs'.
  - destruct (IH w1 got') as (w2 & rs' & Hrun2); [done|..|exists w2, rs'; by etrans].
    + intros s a Hs Hsa. apply Hm1, (Hm s); [set_solver|]. unfold server_of in *. by rewrite <-Hs1.
    + apply elem_of_cons in Hin as [->|?]; [congruence|done].
    + unfold server_of in *. by rewrite Hs1.
Qed.

(** ** The whole call *)

Context (strq : string) (qreply : ShardCtrler.QueryReply).
Hypothesis q_accepts : dec_query strq = Some qreply.
Hypothesis q_leader : ShardCtrler.q_WrongLeader qreply = false.

(** About to ask the controller. *)
Definition asks st : Prop := match kpt st with KClock | KSleep _ => True | _ => False end.

Lemma query_returns e0 a0 w args rs srvs srv0 b0 :
  steps step start w → reachable_servers qshape ctrlers w → e0 ∈ ctrlers → target_addr (net w) e0 = Some a0 →
  group_of (ShardCtrler.q_Config qreply) key = Some srvs → group_methods w srvs → srv0 ∈ srvs →
  server_of (net w) (IStr srv0) = Some b0 →
  ∃ w' args' rs', run (mkSystem w (mkK (KQuery args (ask_controller enc_query dec_query sm)) rs) None)
    (mkSystem w' (mkK (KDone args' v (ShardCtrler.q_Config qreply)) rs') None).
Proof using accepts accepted q_accepts q_leader.
  intros Hw Hr He Ha Hg Hgm Hin Hs0.
  set (leave := λ q : qstate, match point q with
    | CDone reply => enter_round (V := V) key args (ShardCtrler.q_Config reply) rs
    | _ => Ok (mkK (KQuery args q) rs) end).
  destruct (call_returns qshape ctrlers kprog (λ q, mkK (KQuery args q) rs) leave) with
    (str := strq) (reply := qreply) (e0 := e0) (a0 := a0) (w := w)
    (args := sh_stamp qshape 0 (ShardCtrler.mkQueryArgs (-1) (ShardCtrler.clientID sm) 0)) (stamped := true)
    (todo := ctrlers) (zs := [0%Z]) (ts := @nil (iface * ShardCtrler.QueryArgs * option (nat * string)))
    as (w1 & Hu & zs & ts & Hret); try done.
  { intros q i q' Hq Hn. cbn. unfold kv_resume. cbn. rewrite Hn. cbn. unfold embedded, leave. by destruct (point q'). }
  unfold group_of in Hg. destruct (ShardCtrler.Shards _ !! Z.to_nat (key2shard key)) as [gid|] eqn:Hgid; [|done]. cbn in Hg.
  assert (index (ShardCtrler.Shards (ShardCtrler.q_Config qreply)) (key2shard key) = Ok gid) as Hidx.
  { apply index_Ok. pose proof (key2shard_bounds key). split; [lia|done]. }
  specialize (Hret (next_server args (ShardCtrler.q_Config qreply) [] srvs rs)).
  destruct (group_returns srv0 b0 srvs w1 args (ShardCtrler.q_Config qreply) [] rs) as (w2 & rs' & Hrun2).
  { by eapply steps_trans, (ud_steps _ _ Hu). }
  { intros s a Hs Hsa. apply (ud_methods _ _ Hu), (Hgm s); [done|]. unfold server_of in *. by rewrite <-(ud_servers _ _ Hu). }
  { done. }
  { unfold server_of in *. by rewrite (ud_servers _ _ Hu). }
  exists w2, args, rs'. eapply rtc_l; [by exists (SClock 0)|]. etrans; [apply Hret|exact Hrun2].
  unfold leave, enter_round. cbn. rewrite Hidx. cbn. by rewrite Hg.
Qed.
End kv.

(** C19. [Get] and [PutAppend] can always return.  Wherever the network is, a call that is
about to ask the controller (at its start, or after any number of rounds) can be
carried on to its return, with the value that a server gives: if an end of the
controller leads to a server, the configuration it gives has a group for the key of
which a server is there, and the servers that are there have the methods. *)
Theorem kv_clerk_can_return {A R V} meth (enc : A → string) (dec : string → option R) (judge : R → verdict V)
    mkargs key enc_query dec_query sm w0 s e0 a0 srvs srv0 b0 str r v strq qreply :
  steps step start w0 →
  rtc (system_step (kv_prog meth enc dec judge mkargs key enc_query dec_query sm)) (mkSystem w0 kv_start None) s →
  asks (here s) →
  reachable_servers (query_shape enc_query dec_query) (ShardCtrler.servers sm) (wld s) →
  e0 ∈ ShardCtrler.servers sm → target_addr (net (wld s)) e0 = Some a0 →
  dec_query strq = Some qreply → ShardCtrler.q_WrongLeader qreply = false →
  group_of (ShardCtrler.q_Config qreply) key = Some srvs → group_methods meth (wld s) srvs →
  srv0 ∈ srvs → server_of (net (wld s)) (IStr srv0) = Some b0 →
  dec str = Some r → judge r = Accept v →
  ∃ s' args, rtc (system_step (kv_prog meth enc dec judge mkargs key enc_query dec_query sm)) s s' ∧
    kpt (here s') = KDone args v (ShardCtrler.q_Config qreply).
Proof.
  intros Hw Hrun Hask Hr He Ha Hq Hl Hg Hgm Hin Hs0 Hd Hj. set (p := kv_prog _ _ _ _ _ _ _ _ _) in *.
  destruct (system_inv p (λ _ _, True) ltac:(done) ltac:(done) ltac:(done) w0 _ s Hw I Hrun) as (Hws & Hwait & _).
  destruct s as [w [pt rs] pd]. cbn in *.
  assert (pd = None) as ->.
  { destruct pd as [i|]; [|done]. destruct Hwait as (q & x & Hact & _). unfold asks in Hask. cbn in Hact, Hask.
    unfold kv_act in Hact. cbn in Hact. by destruct pt. }
  destruct pt as [| | | |args|]; try done.
  - destruct (query_returns meth enc dec judge mkargs key enc_query dec_query sm str r v Hd Hj strq qreply Hq Hl
      e0 a0 w (mkargs 0%Z) rs srvs srv0 b0) as (w' & args' & rs' & Hrun2); [done..|].
    eexists _, args'. split; [eapply rtc_l; [by exists (SClock 0)|exact Hrun2]|done].
  - destruct (query_returns meth enc dec judge mkargs key enc_query dec_query sm str r v Hd Hj strq qreply Hq Hl
      e0 a0 w args rs srvs srv0 b0) as (w' & args' & rs' & Hrun2); [done..|].
    eexists _, args'. split; [eapply rtc_l; [by exists SGo|exact Hrun2]|done].
Qed.

(** ** Runs *)

(** A controller with two servers, of which one is not connected, and one server of
the store, which has all the shards. *)
Definition demo_ops : list netop :=
  [OpMakeEnd (IStr "c0"); OpMakeEnd (IStr "c1");
   OpAddServer (IStr "ctl-1") 1 KvHarness.ctl_server; OpAddServer (IStr "kv-0") 2 KvHarness.kv_server;
   OpConnect (IStr "c1") (IStr "ctl-1"); OpEnable (IStr "c1") true].
Definition demo_world : world := default start (run_labels next_ok start (LOp <$> demo_ops)).

Definition demo_config : Config := ShardCtrler.mkConfig 3 (replicate 10 100%Z) {[ 100%Z := ["kv-1"; "kv-0"] ]}.
Definition demo_dec_query (s : string) : option ShardCtrler.QueryReply :=
  Some (ShardCtrler.mkQueryReply (bool_decide (s = "wrong")) "" demo_config).
Definition demo_dec_get (s : string) : option GetReply := Some (mkGetReply OK s).
Definition demo_dec_put (s : string) : option PutAppendReply := Some (mkPutAppendReply demo_config s).
Definition demo_sm : ShardCtrler.Clerk iface := ShardCtrler.MakeClerk [IStr "c0"; IStr "c1"] 7.
Definition demo_ck : Clerk := MakeClerk [IStr "c0"; IStr "c1"] 7 8.

Abbreviation demo_qshape := (query_shape (λ _, "query") demo_dec_query).

Lemma demo_world_steps : steps step start demo_world.
Proof. apply (run_labels_reach (LOp <$> demo_ops)). vm_compute. reflexivity. Qed.

(** Request [i] finds no server, or is answered with [s]. *)
Definition lost (i : nat) : list slabel := [SSend; SNet (LRead i); SNet (LFire i); SAnswer].
Definition told (i : nat) (s : string) : list slabel :=
  [SSend; SNet (LRead i); SNet (LSend i false); SNet (LDispatch i); SNet (LReturn i s); SNet (LRecv i);
   SNet (LCheck i); SNet (LFinal i false false); SAnswer].

(** The first server is not connected, the second is not the leader, and later is. *)
Definition demo_query_run : list slabel :=
  [SClock 100] ++ lost 0 ++ told 1 "wrong" ++ [SGo] ++ lost 2 ++ told 3 "config".
Definition demo_qstart : system qstate :=
  mkSystem demo_world (query_start (λ _, "query") demo_dec_query demo_sm (-1)) None.
Definition demo_qrun (ls : list slabel) : system qstate :=
  default demo_qstart (run_labels (system_ok (ctrl_prog demo_qshape (ShardCtrler.servers demo_sm))) demo_qstart ls).

Lemma ctrl_clerk_refines_witness :
  length (tried (here (demo_qrun demo_query_run))) = 4 ∧
  ∃ e a i r, last (tried (here (demo_qrun demo_query_run))) = Some (e, a, Some (i, r)) ∧
    demo_dec_query r = Some (ShardCtrler.mkQueryReply false "" demo_config) ∧ false = false.
Proof.
  split; [vm_compute; reflexivity|].
  destruct (ctrl_clerk_refines demo_qshape (ShardCtrler.servers demo_sm)
    (ShardCtrler.mkQueryArgs (-1) (ShardCtrler.clientID demo_sm) 0) demo_world (demo_qrun demo_query_run)
    (ShardCtrler.mkQueryReply false "" demo_config)) as (_ & _ & H).
  - intros i j a. reflexivity.
  - exact demo_world_steps.
  - apply run_system with demo_query_run. vm_compute. reflexivity.
  - vm_compute. reflexivity.
  - exact H.
Defined.

(** The call waits for the second server, whose handler has not returned. *)
Definition demo_qwaits : system qstate := demo_qrun (take 9 demo_query_run).

Lemma ctrl_clerk_can_return_witness :
  pending demo_qwaits = Some 1 ∧
  ∃ s' r, rtc (system_step (ctrl_prog demo_qshape (ShardCtrler.servers demo_sm))) demo_qwaits s' ∧
    point (here s') = CDone r ∧ undisturbed (wld demo_qwaits) (wld s').
Proof.
  split; [vm_compute; reflexivity|].
  apply (ctrl_clerk_can_return demo_qshape (ShardCtrler.servers demo_sm)
    (ShardCtrler.mkQueryArgs (-1) (ShardCtrler.clientID demo_sm) 0) demo_world demo_qwaits
    (IStr "c1") 1 "config" (ShardCtrler.mkQueryReply false "" demo_config)).
  - exact demo_world_steps.
  - apply run_system with (take 9 demo_query_run). vm_compute. reflexivity.
  - apply reachable_servers_check. vm_compute. reflexivity.
  - right. left.
  - vm_compute. reflexivity.
  - vm_compute. reflexivity.
  - vm_compute. reflexivity.
  - intros i x Hi Hx. assert (i = 1) as -> by (assert (Some i = Some 1) as E by (rewrite <-Hi; vm_compute; reflexivity); congruence).
    split; [|intros r _; eexists; reflexivity].
    assert (Some x = reqs (wld demo_qwaits) !! 1) as E by (rewrite Hx; reflexivity).
    vm_compute in E. injection E as ->. apply reach_ok_check; vm_compute; reflexivity.
Defined.

(** ** The store *)

(** The controller answers, the first server of the group is not there, and the second
has the value. *)
Definition demo_get_run : list slabel :=
  [SClock 50; SClock 60] ++ lost 0 ++ told 1 "config" ++
  [SName "n1"; SGo; SGo; SGo] ++ lost 2 ++ [SName "n2"; SGo; SGo; SGo] ++ told 3 "value".
Abbreviation demo_get_prog := (get_prog (λ _, "query") demo_dec_query (λ _, "get") demo_dec_get demo_ck "key").
Definition demo_gstart : system (kstate GetArgs string) := mkSystem demo_world kv_start None.
Definition demo_grun (ls : list slabel) : system (kstate GetArgs string) :=
  default demo_gstart (run_labels (system_ok demo_get_prog) demo_gstart ls).

Lemma Get_over_network_witness :
  ∃ srvs srv name i r reply, group_of demo_config "key" = Some srvs ∧ srv ∈ srvs ∧
    served_at (wld (demo_grun demo_get_run)) i
      {| r_endname := IStr name; r_svcMeth := "ShardKV.Get"; r_args := "get" |} r (IStr srv) ∧
    demo_dec_get r = Some reply ∧ (g_Err reply = OK ∨ g_Err reply = ErrNoKey) ∧ "value" = g_Value reply.
Proof.
  destruct (Get_over_network (λ _, "query") demo_dec_query (λ _, "get") demo_dec_get demo_ck "key" demo_world
    (demo_grun demo_get_run) (mkGetArgs "key" 8 50) "value" demo_config) as (_ & _ & H).
  - exact demo_world_steps.
  - apply run_private with demo_get_run. vm_compute. reflexivity.
  - vm_compute. reflexivity.
  - exact H.
Defined.

Definition demo_put_run : list slabel :=
  [SClock 50; SClock 60] ++ lost 0 ++ told 1 "config" ++
  [SName "n1"; SGo; SGo; SGo] ++ lost 2 ++ [SName "n2"; SGo; SGo; SGo] ++ told 3 "OK".
Abbreviation demo_put_prog :=
  (put_prog (λ _, "query") demo_dec_query (λ _, "put") demo_dec_put demo_ck "key" "x" "Append").
Definition demo_pstart : system (kstate PutAppendArgs ()) := mkSystem demo_world kv_start None.
Definition demo_prun (ls : list slabel) : system (kstate PutAppendArgs ()) :=
  default demo_pstart (run_labels (system_ok demo_put_prog) demo_pstart ls).

Lemma PutAppend_over_network_witness :
  ∃ srvs srv name i r reply, group_of demo_config "key" = Some srvs ∧ srv ∈ srvs ∧
    served_at (wld (demo_prun demo_put_run)) i
      {| r_endname := IStr name; r_svcMeth := "ShardKV.PutAppend"; r_args := "put" |} r (IStr srv) ∧
    demo_dec_put r = Some reply ∧ p_Err reply = OK.
Proof.
  destruct (PutAppend_over_network (λ _, "query") demo_dec_query (λ _, "put") demo_dec_put demo_ck "key" "x" "Append"
    demo_world (demo_prun demo_put_run) (mkPutAppendArgs "key" "x" "Append" 8 50) () demo_config) as (_ & _ & H).
  - exact demo_world_steps.
  - apply run_private with demo_put_run. vm_compute. reflexivity.
  - vm_compute. reflexivity.
  - exact H.
Defined.

(** After a round in which the store did not answer, [Get] sleeps. *)
Definition demo_get_slept : list slabel :=
  [SClock 50; SClock 60] ++ lost 0 ++ told 1 "config" ++
  [SName "n1"; SGo; SGo; SGo] ++ lost 2 ++ [SName "n2"; SGo; SGo; SGo] ++
  [SSend; SNet (LOp (OpEnable (IStr "n2") false)); SNet (LRead 3); SNet (LFire 3); SAnswer].

Lemma kv_clerk_can_return_witness :
  length (past (here (demo_grun demo_get_slept))) = 1 ∧
  ∃ s' args, rtc (system_step demo_get_prog) (demo_grun demo_get_slept) s' ∧
    kpt (here s') = KDone args "value" demo_config.
Proof.
  split; [vm_compute; reflexivity|].
  apply (kv_clerk_can_return "ShardKV.Get" (λ _, "get") demo_dec_get judge_get
    (λ z, mkGetArgs "key" (clientID demo_ck) z) "key" (λ _, "query") demo_dec_query (sm demo_ck) demo_world
    (demo_grun demo_get_slept) (IStr "c1") 1 ["kv-1"; "kv-0"] "kv-0" 2 "value" (mkGetReply OK "value") "value"
    "config" (ShardCtrler.mkQueryReply false "" demo_config)).
  - exact demo_world_steps.
  - apply run_system with demo_get_slept. vm_compute. reflexivity.
  - vm_compute. exact I.
  - apply reachable_servers_check. vm_compute. reflexivity.
  - right. left.
  - vm_compute. reflexivity.
  - reflexivity.
  - reflexivity.
  - vm_compute. reflexivity.
  - apply group_methods_check. vm_compute. reflexivity.
  - right. left.
  - vm_compute. reflexivity.
  - reflexivity.
  - reflexivity.
Defined.
End KvClerkProgress.
