(* ===== verification/KvLinks.v ===== *)
(** * The connections of the store's test bed

The invariant [bed] of the test bed of [KvHarness]: the names of the ends are
different, each end is connected to the server it was made for, it is enabled
while its owner is up, and a server is registered while it is up.  Starting and
stopping a server ([StartServer_change], [ShutdownServer_change]) is a [change],
and a change keeps the invariant ([bed_changed]). *)

From S2P Require Import Prelude GoStrings Labrpc Persister ShardCtrler ShardKV HarnessNet KvHarness.
From stdpp Require Import options.

Module KvLinks.
Import Labrpc HarnessNet KvHarness.

(** ** Opening ends *)

(** [rn'] is [rn] with an end for each pair of a name and a server. *)
Record opened (ps : list (string * string)) (rn rn' : Network) : Prop := {
  op_ends : ∀ e, e ∈ ends rn' ↔ e ∈ ends rn ∨ ∃ p, p ∈ ps ∧ e = IStr p.1;
  op_new : ∀ p, p ∈ ps →
    connected_to rn' (IStr p.1) = Some (IStr p.2) ∧ is_enabled rn' (IStr p.1) = true;
  op_old : ∀ e, (∀ p, p ∈ ps → e ≠ IStr p.1) →
    connected_to rn' e = connected_to rn e ∧ is_enabled rn' e = is_enabled rn e;
  op_servers : servers rn' = servers rn;
  op_reliable : reliable rn' = reliable rn;
  op_reorder : longReordering rn' = longReordering rn }.

Lemma opened_nil rn : opened [] rn rn.
Proof. split; try done; [|by intros ? ?%not_elem_of_nil]. intros e. split; [by left|]. by intros [?|(? & ?%not_elem_of_nil & _)]. Qed.

Lemma opened_snoc ps rn rn1 name srv :
  opened ps rn rn1 → IStr name ∉ ends rn1 →
  ∃ rn2, open_end rn1 name srv = Ok rn2 ∧ opened (ps ++ [(name, srv)]) rn rn2.
Proof.
  intros [He Hn Ho Hs Hr Hl] Hf. unfold open_end, MakeEnd. rewrite decide_False by done. cbn [bind].
  eexists. split; [done|]. split; simpl; try done.
  - intros e. rewrite elem_of_union, elem_of_singleton, He. setoid_rewrite elem_of_app.
    setoid_rewrite list_elem_of_singleton. naive_solver.
  - unfold connected_to, is_enabled in *. simpl. intros p [Hp|Hp%list_elem_of_singleton]%elem_of_app.
    + assert (p.1 ≠ name) as Hne.
      { intros <-. apply Hf, He. right. eauto. }
      rewrite !lookup_insert_ne by congruence. by apply Hn.
    + subst p. simpl. by rewrite !lookup_insert_eq.
  - unfold connected_to, is_enabled in *. simpl. intros e Hp.
    assert (IStr name ≠ e) by (intros <-; apply (Hp (name, srv)); [set_solver|done]).
    rewrite !lookup_insert_ne by done. apply Ho. intros p ?. apply Hp. set_solver.
Qed.

Lemma opened_app ps qs rn rn1 rn2 :
  opened ps rn rn1 → opened qs rn1 rn2 → (∀ p q, p ∈ ps → q ∈ qs → p.1 ≠ q.1) →
  opened (ps ++ qs) rn rn2.
Proof.
  intros [He Hn Ho Hs Hr Hl] [He' Hn' Ho' Hs' Hr' Hl'] Hd. split; try congruence.
  - intros e. rewrite He', He. setoid_rewrite elem_of_app. naive_solver.
  - intros p [Hp|Hp]%elem_of_app; [|by apply Hn'].
    destruct (Ho' (IStr p.1)) as [-> ->]; [|by apply Hn]. intros q Hq [= E]. by apply (Hd p q).
  - intros e Hp. destruct (Ho' e) as [-> ->]; [set_solver|]. apply Ho. set_solver.
Qed.

Section bed.
Context (rand : nat → string) `{rand_inj : !Inj (=) (=) rand}.
Context (decodeSnapshot : option Persister.Persister → ShardKV.ShardKV → ShardKV.ShardKV).

(** The ends have the names drawn so far. *)
Definition base_ok (b : base) : Prop :=
  ∀ e, e ∈ ends (bnet b) → ∃ k, k < rng b ∧ e = IStr (rand k).

Lemma base_ok_fresh b k : base_ok b → rng b ≤ k → IStr (rand k) ∉ ends (bnet b).
Proof using rand_inj. intros Hb Hk (k' & ? & [= E%rand_inj])%Hb. lia. Qed.

(** The pairs of names and servers of [m] ends whose names are drawn from [k] on. *)
Definition drawn (k : nat) (server : Z → string) (m : Z) : list (string * string) :=
  (λ j, (rand (k + Z.to_nat j), server j)) <$> range m.

Lemma drawn_succ k server j :
  (0 ≤ j)%Z → drawn k server (j + 1) = drawn k server j ++ [(rand (k + Z.to_nat j), server j)].
Proof. intros Hj. unfold drawn. by rewrite range_succ, fmap_app by done. Qed.

Lemma drawn_elem k server m p :
  p ∈ drawn k server m ↔ ∃ j, (0 ≤ j < m)%Z ∧ p = (rand (k + Z.to_nat j), server j).
Proof. unfold drawn. rewrite list_elem_of_fmap. setoid_rewrite elem_of_range. naive_solver. Qed.

(** A slice of names, of which the first [j] are drawn from [k] on. *)
Definition row_upto (k : nat) (size j : Z) (row : list string) : Prop :=
  len row = size ∧ ∀ i, (0 ≤ i < j)%Z → index row i = Ok (rand (k + Z.to_nat i)).

Lemma row_upto_succ k size j row :
  (0 ≤ j < size)%Z → row_upto k size j row →
  ∃ row', set_index row j (rand (k + Z.to_nat j)) = Ok row' ∧ row_upto k size (j + 1) row'.
Proof.
  intros Hj [Hl Hr]. eexists. split; [apply set_index_in_range; lia|]. split.
  - unfold len in *. by rewrite length_insert.
  - intros i Hi. apply index_Ok. split; [lia|]. destruct (decide (i = j)) as [->|Hne].
    + apply list_lookup_insert_eq. unfold len in Hl. lia.
    + rewrite list_lookup_insert_ne by lia. specialize (Hr i). rewrite index_Ok in Hr. apply Hr. lia.
Qed.

Lemma row_upto_0 k size : (0 ≤ size)%Z → row_upto k size 0 (replicate (Z.to_nat size) "").
Proof. intros. split; [by apply len_replicate|lia]. Qed.

(** What [fresh_ends] does when the slice is large enough. *)
Record fresh_made (b : base) (size m : Z) (server : Z → string) (b' : base) (row : list string) : Prop := {
  fm_row : row_upto (rng b) size m row;
  fm_rng : rng b' = rng b + Z.to_nat m;
  fm_heap : bheap b' = bheap b;
  fm_base : base_ok b';
  fm_net : opened (drawn (rng b) server m) (bnet b) (bnet b') }.

Lemma fresh_ends_spec b size m srv server :
  base_ok b → (0 ≤ m ≤ size)%Z → (∀ j, (0 ≤ j < m)%Z → srv j = Ok (server j)) →
  ∃ b' row, fresh_ends rand b size m srv = Ok (b', row) ∧ fresh_made b size m server b' row.
Proof using rand_inj.
  intros Hb Hm Hs. unfold fresh_ends, make_slice. rewrite decide_True by lia. cbn [bind].
  for_range_inv (λ j st, fresh_made b size j server st.1 st.2) as [b' row] Hrun HP;
    [lia| | |by exists b', row].
  - split; [by apply row_upto_0; lia|simpl; lia|done|done|apply opened_nil].
  - intros j [b1 row] Hj [Hrow Hr Hh Hb1 Hn]. cbn [fst snd] in *. unfold randstring.
    rewrite Hr. destruct (row_upto_succ (rng b) size j row) as (row' & -> & Hrow'); [lia|done|]. cbn [bind].
    set (b2 := mkBase (bnet b1) (bheap b1) (S (rng b + Z.to_nat j))).
    destruct (opened_snoc _ _ _ (rand (rng b + Z.to_nat j)) (server j) Hn) as (rn & Hrn & Hop).
    { apply base_ok_fresh; [done|lia]. }
    unfold open_end in Hrn. apply bind_Ok_inv in Hrn as (rn1 & Hrn1 & [= <-]).
    cbn [bnet b2]. rewrite Hrn1. cbn [bind]. rewrite Hs by done. cbn [bind].
    eexists. split; [reflexivity|]. split; simpl; [done|lia|done| |by rewrite drawn_succ by lia].
    intros e. simpl. rewrite (op_ends _ _ _ Hop). intros [He|(p & Hp & ->)].
    + destruct (Hb e He) as (k & ? & ->). exists k. split; [lia|done].
    + apply elem_of_app in Hp as [(i & Hi & ->)%drawn_elem| ->%list_elem_of_singleton]; eexists;
        (split; [|reflexivity]); simpl; lia.
Qed.

(** A slice that is too small for its names. *)
Lemma fresh_ends_small b size m srv server :
  base_ok b → (0 ≤ size < m)%Z → (∀ j, (0 ≤ j < m)%Z → srv j = Ok (server j)) →
  fresh_ends rand b size m srv = Crash IndexOutOfRange.
Proof using rand_inj.
  intros Hb Hm Hs. destruct (fresh_ends_spec b size size srv server Hb) as (b' & row & Hrun & Hf);
    [lia|intros; apply Hs; lia|].
  unfold fresh_ends in *. destruct (make_slice size "") as [r|]; [|done]. cbn [bind] in *.
  rewrite (range_split size m) by lia.
  rewrite for_each_app, Hrun. cbn [bind for_each]. unfold randstring, set_index. rewrite decide_False; [done|].
  destruct (fm_row _ _ _ _ _ _ Hf) as [Hl _]. unfold len in Hl. lia.
Qed.

Lemma draw_spec b m :
  (0 ≤ m)%Z →
  ∃ row, draw rand b m = Ok (mkBase (bnet b) (bheap b) (rng b + Z.to_nat m), row) ∧ row_upto (rng b) m m row.
Proof.
  intros Hm. unfold draw, make_slice. rewrite decide_True by done. cbn [bind].
  for_range_inv (λ j st, st.1 = mkBase (bnet b) (bheap b) (rng b + Z.to_nat j) ∧ row_upto (rng b) m j st.2)
    as [b' row] Hrun HP; [lia| | |destruct HP as [E HP]; simpl in E; subst b'; by exists row].
  - split; [|by apply row_upto_0]. destruct b. simpl. by rewrite Nat.add_0_r.
  - intros j [b1 row] Hj [E Hrow]. cbn [fst snd] in *. subst b1. unfold randstring. cbn [rng bnet bheap].
    destruct (row_upto_succ (rng b) m j row) as (row' & -> & Hrow'); [lia|done|]. cbn [bind].
    eexists. split; [reflexivity|]. split; [simpl; f_equal; lia|done].
Qed.

(** ** The invariant *)

(** The two tables of names of a group: the ends to the servers of the group and,
for [k = true], those to the controller. *)
Definition rows (g : group) (k : bool) : list (option (list string)) :=
  if k then mendnames g else endnames g.

(** [e] is the name of the end by which server [i] of group [gi] calls the [j]-th
server of its group or, for [k = true], of the controller. *)
Definition named (cfg : config) (gi i : Z) (k : bool) (j : Z) (e : string) : Prop :=
  ∃ g, get_group cfg gi = Ok g ∧ endname_at (rows g k) i j = Ok e.

(** The server it calls. *)
Definition callee (cfg : config) (gi : Z) (k : bool) (j : Z) : string :=
  if k then default "" (ctl_names (ctl cfg) !! Z.to_nat j) else servername (100 + gi) j.

Definition is_up (o : outcome (option ShardKV.ShardKV)) : bool :=
  match o with Ok (Some _) => true | _ => false end.
Definition up (cfg : config) (gi i : Z) : bool :=
  match get_group cfg gi with Ok g => is_up (index (kvs g) i) | Crash _ => false end.

(** A group of [n] servers. *)
Record shape (n gi : Z) (g : group) : Prop := {
  sh_gid : gid g = (100 + gi)%Z;
  sh_kvs : len (kvs g) = n;
  sh_saved : len (saved g) = n;
  sh_ens : len (endnames g) = n;
  sh_mens : len (mendnames g) = 3%Z;
  sh_row : ∀ k i row, index (rows g k) i = Ok (Some row) → len row = if k then 3%Z else n;
  sh_up : ∀ i, is_up (index (kvs g) i) = true →
    (∃ p, index (saved g) i = Ok (Some p)) ∧ ∀ k, ∃ row, index (rows g k) i = Ok (Some row) }.

Record ctl_ok (b : base) (c : ctrler) : Prop := {
  ct_n : ctl_n c = 3%Z;
  ct_len : len (ctl_names c) = 3%Z;
  ct_servers : len (ctl_servers c) = 3%Z ∧ Forall is_Some (ctl_servers c);
  ct_names : ∀ name, name ∈ ctl_names c → ∃ s, name = "ctlr-" +:+ s;
  ct_srv : ∀ name, name ∈ ctl_names c →
    ∃ a, server_of (bnet b) (IStr name) = Some a ∧ bheap b !! a = Some ctl_server;
  ct_ck : is_Some (ctl_ck c) }.

Record bed (cfg : config) : Prop := {
  bd_base : base_ok (bs cfg);
  bd_ctl : ctl_ok (bs cfg) (ctl cfg);
  bd_groups : ngroups cfg = 3%Z ∧ len (groups cfg) = 3%Z;
  bd_shape : ∀ gi g, get_group cfg gi = Ok g → shape (n cfg) gi g;
  bd_named : ∀ gi i k j e, named cfg gi i k j e →
    IStr e ∈ ends (bnet (bs cfg)) ∧
    connected_to (bnet (bs cfg)) (IStr e) = Some (IStr (callee cfg gi k j)) ∧
    is_enabled (bnet (bs cfg)) (IStr e) = up cfg gi i;
  bd_inj : ∀ gi i k j gi' i' k' j' e,
    named cfg gi i k j e → named cfg gi' i' k' j' e → gi = gi' ∧ i = i' ∧ k = k' ∧ j = j';
  bd_srv : ∀ gi i, (0 ≤ gi)%Z → (0 ≤ i)%Z →
    match server_of (bnet (bs cfg)) (IStr (servername (100 + gi) i)) with
    | Some a => up cfg gi i = true ∧ bheap (bs cfg) !! a = Some kv_server
    | None => up cfg gi i = false
    end }.

Lemma get_group_Ok cfg gi g :
  get_group cfg gi = Ok g ↔ (0 ≤ gi)%Z ∧ groups cfg !! Z.to_nat gi = Some (Some g).
Proof.
  unfold get_group. split.
  - intros (o & Ho & E)%bind_Ok_inv. apply index_Ok in Ho as [??]. destruct o; naive_solver.
  - intros H. assert (index (groups cfg) gi = Ok (Some g)) as ->; [by apply index_Ok|done].
Qed.

(** The groups after one of them is replaced. *)
Lemma get_group_insert cfg b gi g' gi' :
  (0 ≤ gi < len (groups cfg))%Z → (0 ≤ gi')%Z →
  get_group (set_groups (set_bs cfg b) (<[Z.to_nat gi := Some g']> (groups cfg))) gi'
  = if decide (gi' = gi) then Ok g' else get_group cfg gi'.
Proof.
  intros Hgi Hgi'. unfold len in Hgi. case_decide as Hd.
  - subst gi'. apply get_group_Ok. split; [done|]. simpl. apply list_lookup_insert_eq. lia.
  - unfold get_group, index. simpl. by rewrite list_lookup_insert_ne by lia.
Qed.

Lemma get_group_neg cfg gi : (gi < 0)%Z → ∃ f, get_group cfg gi = Crash f.
Proof. intros. unfold get_group, index. rewrite decide_False by lia. eauto. Qed.

Lemma endname_at_Ok ens i j e :
  endname_at ens i j = Ok e ↔ ∃ row, index ens i = Ok (Some row) ∧ index row j = Ok e.
Proof.
  unfold endname_at. split; [|by intros (row & -> & ?)].
  intros ([row|] & -> & E)%bind_Ok_inv; [eauto|done].
Qed.

Lemma servername_inj gi i gi' i' :
  (0 ≤ gi)%Z → (0 ≤ gi')%Z → servername (100 + gi) i = servername (100 + gi') i' → gi = gi' ∧ i = i'.
Proof. intros ?? [? ?]%two_numbers_inj; [|lia..]. split; [lia|done]. Qed.

Lemma ctl_servername s gid i : "ctlr-" +:+ s ≠ servername gid i.
Proof. done. Qed.

(** What starting or stopping server [i] of group [gi] does: [g'] is the group
and [b'] the network afterwards, [o] whether the server is up. *)
Record change (cfg : config) (gi i : Z) (g g' : group) (b' : base) (o : bool) : Prop := {
  ch_shape : shape (n cfg) gi g';
  ch_up : ∀ i', is_up (index (kvs g') i') = if decide (i' = i) then o else is_up (index (kvs g) i');
  ch_rows : ∀ k i', i' ≠ i → index (rows g' k) i' = index (rows g k) i';
  ch_saved : ∀ i' p, index (saved g) i' = Ok (Some p) → ∃ p', index (saved g') i' = Ok (Some p');
  ch_base : base_ok b';
  ch_ends : ends (bnet (bs cfg)) ⊆ ends (bnet b');
  ch_old : ∀ gi' i' k j e, named cfg gi' i' k j e → (gi', i') ≠ (gi, i) →
    connected_to (bnet b') (IStr e) = connected_to (bnet (bs cfg)) (IStr e) ∧
    is_enabled (bnet b') (IStr e) = is_enabled (bnet (bs cfg)) (IStr e);
  ch_new : ∀ k j e, endname_at (rows g' k) i j = Ok e →
    IStr e ∈ ends (bnet b') ∧
    connected_to (bnet b') (IStr e) = Some (IStr (callee cfg gi k j)) ∧
    is_enabled (bnet b') (IStr e) = o;
  ch_fresh : ∀ k j e gi' i' k' j', endname_at (rows g' k) i j = Ok e →
    named cfg gi' i' k' j' e → (gi', i') = (gi, i);
  ch_inj : ∀ k j k' j' e, endname_at (rows g' k) i j = Ok e → endname_at (rows g' k') i j' = Ok e →
    k = k' ∧ j = j';
  ch_servers : ∀ s, s ≠ servername (100 + gi) i →
    server_of (bnet b') (IStr s) = server_of (bnet (bs cfg)) (IStr s);
  ch_heap : bheap (bs cfg) ⊆ bheap b';
  ch_srv : match server_of (bnet b') (IStr (servername (100 + gi) i)) with
           | Some a => o = true ∧ bheap b' !! a = Some kv_server
           | None => o = false
           end }.

(** The configuration after a change. *)
Definition changed (cfg : config) (gi : Z) (g' : group) (b' : base) : config :=
  set_groups (set_bs cfg b') (<[Z.to_nat gi := Some g']> (groups cfg)).

Section change.
Context (cfg : config) (gi i : Z) (g g' : group) (b' : base) (o : bool).
Context (Hbed : bed cfg) (Hg : get_group cfg gi = Ok g) (Hi : (0 ≤ i)%Z).
Context (Hch : change cfg gi i g g' b' o).

Lemma change_gi : (0 ≤ gi < len (groups cfg))%Z.
Proof using Hg.
  apply get_group_Ok in Hg as [? Hl]. apply lookup_lt_Some in Hl. unfold len. lia.
Qed.

Lemma changed_group gi' g1 :
  get_group (changed cfg gi g' b') gi' = Ok g1 →
  (gi' = gi ∧ g1 = g') ∨ (gi' ≠ gi ∧ get_group cfg gi' = Ok g1).
Proof using Hg.
  clear Hch Hbed. intros Hg1. destruct (decide (0 ≤ gi')%Z) as [Hp|Hp].
  - unfold changed in Hg1. rewrite get_group_insert in Hg1 by (done || apply change_gi).
    case_decide; [left|right]; naive_solver.
  - destruct (get_group_neg (changed cfg gi g' b') gi') as [f Hf]; [lia|]. congruence.
Qed.

Lemma changed_up gi' i' :
  (0 ≤ gi')%Z → up (changed cfg gi g' b') gi' i' = if decide ((gi', i') = (gi, i)) then o else up cfg gi' i'.
Proof using Hg Hch.
  intros Hp. unfold up, changed. rewrite get_group_insert by (done || apply change_gi).
  destruct (decide (gi' = gi)) as [->|Hne]; [|by rewrite decide_False by congruence].
  rewrite (ch_up _ _ _ _ _ _ _ Hch), Hg. by repeat case_decide; simplify_eq.
Qed.

Lemma changed_named gi' i' k j e :
  named (changed cfg gi g' b') gi' i' k j e →
  ((gi', i') = (gi, i) ∧ endname_at (rows g' k) i j = Ok e) ∨
  ((gi', i') ≠ (gi, i) ∧ named cfg gi' i' k j e).
Proof using Hg Hch.
  intros (g1 & [[-> ->]|[Hne Hg1]]%changed_group & He).
  - destruct (decide (i' = i)) as [->|Hi']; [by left|right]. split; [congruence|].
    exists g. split; [done|]. unfold endname_at in *. by rewrite <-(ch_rows _ _ _ _ _ _ _ Hch).
  - right. split; [congruence|]. by exists g1.
Qed.

Lemma bed_changed : bed (changed cfg gi g' b').
Proof using Hbed Hg Hi Hch.
  pose proof change_gi as Hgi. destruct Hbed as [Hb Hc [Hng Hlg] Hsh Hnm Hinj Hsrv]. split.
  - apply Hch.
  - destruct Hc as [????? ?]. split; try done. intros name Hn.
    destruct (ct_names0 name Hn) as [s ->]. simpl.
    rewrite (ch_servers _ _ _ _ _ _ _ Hch) by apply ctl_servername.
    destruct (ct_srv0 _ Hn) as (a & ? & ?). exists a. split; [done|].
    eapply lookup_weaken; [done|apply Hch].
  - simpl. unfold len in *. by rewrite length_insert.
  - intros gi' g1 [[-> ->]|[? ?]]%changed_group; [apply Hch|by apply Hsh].
  - intros gi' i' k j e He. assert (0 ≤ gi')%Z as Hp.
    { destruct He as (g1 & ?%get_group_Ok & _). tauto. }
    rewrite changed_up by done.
    apply changed_named in He as [[E He]|[Hne He]].
    + simplify_eq. rewrite decide_True by done. by apply (ch_new _ _ _ _ _ _ _ Hch).
    + rewrite decide_False by done. destruct (Hnm _ _ _ _ _ He) as (? & Hco & Hen).
      destruct (ch_old _ _ _ _ _ _ _ Hch _ _ _ _ _ He Hne) as [E1 E2].
      split_and!; [by apply (ch_ends _ _ _ _ _ _ _ Hch)|by etrans|by etrans].
  - intros gi1 i1 k1 j1 gi2 i2 k2 j2 e [[E1 H1]|[N1 H1]]%changed_named [[E2 H2]|[N2 H2]]%changed_named.
    + simplify_eq. by destruct (ch_inj _ _ _ _ _ _ _ Hch _ _ _ _ _ H1 H2) as [-> ->].
    + by destruct N2; eapply (ch_fresh _ _ _ _ _ _ _ Hch).
    + by destruct N1; eapply (ch_fresh _ _ _ _ _ _ _ Hch).
    + by eapply Hinj.
  - intros gi' i' Hp Hp'. rewrite changed_up by done. case_decide as Hd.
    + simplify_eq. apply Hch.
    + cbn [bs changed set_groups set_bs]. rewrite (ch_servers _ _ _ _ _ _ _ Hch).
      2: { intros E%servername_inj; [|lia..]. destruct E. congruence. }
      specialize (Hsrv gi' i' Hp Hp'). case_match; [|done]. destruct Hsrv. split; [done|].
      eapply lookup_weaken; [done|apply Hch].
Qed.

End change.

(** ** Stopping a server *)

Definition has_rows (g : group) (i : Z) : Prop := ∀ k, ∃ row, index (rows g k) i = Ok (Some row).

Lemma disable_row ens i row m rn :
  index ens i = Ok (Some row) → len row = m →
  for_each (λ rn j, let* name := endname_at ens i j in Ok (Enable rn (IStr name) false)) (range m) rn
  = Ok (apply_enables rn ((λ s, (s, false)) <$> row)).
Proof.
  intros Hr <-.
  rewrite (for_each_pure _ (λ rn e, Enable rn (IStr e.1) e.2) (λ j, (default "" (row !! Z.to_nat j), false))).
  - pose proof (list_fmap_compose (λ j, default "" (row !! Z.to_nat j)) (λ s, (s, false)) (range (len row)))
      as E. unfold compose in E. by rewrite E, range_lookup_id.
  - intros rn' j Hj%elem_of_range. destruct (index_in_range row j Hj) as [s Hs].
    assert (endname_at ens i j = Ok s) as -> by (apply endname_at_Ok; eauto).
    apply index_Ok in Hs as [_ ->]. done.
Qed.

Lemma up_true_rows g n gi i : shape n gi g → is_up (index (kvs g) i) = true → has_rows g i.
Proof. intros Hs Hu. exact (proj2 (sh_up _ _ _ Hs i Hu)). Qed.

(** The group after [ShutdownServer]. *)
Definition stopped (g : group) (i : Z) : group :=
  mkGroup (gid g)
    (match index (kvs g) i with Ok (Some _) => <[Z.to_nat i := None]> (kvs g) | _ => kvs g end)
    (match index (saved g) i with
     | Ok (Some p) => <[Z.to_nat i := Some (Persister.Copy p)]> (saved g) | _ => saved g end)
    (endnames g) (mendnames g).

Lemma stopped_up g i i' :
  is_up (index (kvs (stopped g i)) i') = if decide (i' = i) then false else is_up (index (kvs g) i').
Proof.
  simpl. destruct (index (kvs g) i) as [[kv|]|] eqn:E.
  - rewrite index_insert by (by apply index_ok_bounds in E). by case_decide.
  - case_decide; [subst; by rewrite E|done].
  - case_decide; [subst; by rewrite E|done].
Qed.

Lemma stopped_shape n gi g i : shape n gi g → shape n gi (stopped g i).
Proof.
  intros Hs. split; try apply Hs.
  - simpl. rewrite <-(sh_kvs _ _ _ Hs). repeat case_match; by rewrite ?len_insert.
  - simpl. rewrite <-(sh_saved _ _ _ Hs). repeat case_match; by rewrite ?len_insert.
  - intros i'. rewrite stopped_up. case_decide as Hd; [done|]. intros [[p Hp] Hr]%(sh_up _ _ _ Hs).
    split; [|done]. exists p. simpl. destruct (index (saved g) i) as [[q|]|] eqn:E; [|done..].
    rewrite index_insert by (by apply index_ok_bounds in E). by rewrite decide_False.
Qed.

Lemma shutdown_change cfg gi i g row mrow :
  bed cfg → get_group cfg gi = Ok g → (0 ≤ i)%Z →
  index (endnames g) i = Ok (Some row) → index (mendnames g) i = Ok (Some mrow) →
  change cfg gi i g (stopped g i)
    (set_bnet (bs cfg) (DeleteServer (apply_enables (bnet (bs cfg)) ((λ s, (s, false)) <$> row ++ mrow))
                          (IStr (servername (100 + gi) i)))) false.
Proof.
  intros Hbed Hg Hi Hr Hm. set (es := (λ s, (s, false)) <$> row ++ mrow).
  assert (∀ e b, (e, b) ∈ es ↔ b = false ∧ ∃ k j, named cfg gi i k j e) as Hes.
  { intros e b. unfold es. rewrite list_elem_of_fmap. setoid_rewrite elem_of_app. split.
    - intros (s & [= -> ->] & Hin). split; [done|].
      destruct Hin as [[j Hj]%list_elem_of_lookup|[j Hj]%list_elem_of_lookup];
        [exists false, (Z.of_nat j)|exists true, (Z.of_nat j)]; exists g; (split; [done|]); apply endname_at_Ok;
        eexists; (split; [done|]); apply index_Ok; (split; [lia|by rewrite Nat2Z.id]).
    - intros (-> & k & j & g1 & Hg1 & (r & Hr1 & [_ He%list_elem_of_lookup_2]%index_Ok)%endname_at_Ok).
      rewrite Hg in Hg1. injection Hg1 as <-. exists e. split; [done|].
      destruct k; simpl in Hr1; [rewrite Hm in Hr1|rewrite Hr in Hr1]; injection Hr1 as <-; auto. }
  assert (∀ k j e, endname_at (rows (stopped g i) k) i j = Ok e → named cfg gi i k j e) as Hn'.
  { intros [] j e He; by exists g. }
  destruct (apply_enables_frame (bnet (bs cfg)) es) as (Fc & Fs & _). split; cbn [bnet bheap set_bnet].
  - by apply stopped_shape, (bd_shape _ Hbed).
  - intros i'. by rewrite stopped_up.
  - by intros [].
  - intros i' q Hq. simpl. destruct (index (saved g) i) as [[q'|]|] eqn:E; [|by eauto..].
    rewrite index_insert by (by apply index_ok_bounds in E). case_decide; eauto.
  - intros e. simpl. rewrite enables_ends. apply (bd_base _ Hbed).
  - simpl. by rewrite enables_ends.
  - intros gi' i' k j e He Hne. unfold connected_to. simpl. rewrite Fc. split; [done|].
    unfold is_enabled. simpl. apply enables_other. intros b (_ & k' & j' & He')%Hes.
    destruct (bd_inj _ Hbed _ _ _ _ _ _ _ _ _ He He') as (-> & -> & _). done.
  - intros k j e Hn%Hn'. destruct (bd_named _ Hbed _ _ _ _ _ Hn) as (? & Hco & _).
    unfold connected_to, is_enabled in *. simpl. rewrite Fc. split_and!; [|done|].
    + by rewrite enables_ends.
    + apply enables_all; rewrite Hes; [eauto|]. by intros [? _].
  - intros k j e gi' i' k' j' He%Hn' Hn.
    by destruct (bd_inj _ Hbed _ _ _ _ _ _ _ _ _ He Hn) as (-> & -> & _).
  - intros k j k' j' e He%Hn' He'%Hn'.
    by destruct (bd_inj _ Hbed _ _ _ _ _ _ _ _ _ He He') as (_ & _ & -> & ->).
  - intros s Hs. unfold server_of. simpl. rewrite Fs, lookup_insert_ne by congruence. done.
  - done.
  - unfold server_of. simpl. by rewrite lookup_insert_eq.
Qed.

Lemma ShutdownServer_change cfg gi i g :
  bed cfg → get_group cfg gi = Ok g → (0 ≤ i < n cfg)%Z → has_rows g i →
  ∃ b', ShutdownServer cfg gi i = Ok (changed cfg gi (stopped g i) b') ∧
    change cfg gi i g (stopped g i) b' false.
Proof.
  intros Hbed Hg Hi Hrows. pose proof (bd_shape _ Hbed _ _ Hg) as Hs.
  destruct (Hrows false) as [row Hr], (Hrows true) as [mrow Hm]. simpl in Hr, Hm.
  eexists. split; [|apply (shutdown_change cfg gi i g row mrow); done || lia].
  unfold ShutdownServer. rewrite Hg. cbn [bind].
  rewrite (disable_row _ _ row) by (done || by rewrite (sh_row _ _ _ Hs false _ _ Hr), (sh_kvs _ _ _ Hs)).
  cbn [bind]. rewrite Hm. cbn [bind default from_option].
  rewrite (disable_row _ _ mrow) by done. cbn [bind].
  destruct (index_in_range (saved g) i) as [p Hp]; [by rewrite (sh_saved _ _ _ Hs)|].
  destruct (index_in_range (kvs g) i) as [kv Hk]; [by rewrite (sh_kvs _ _ _ Hs)|].
  pose proof (index_ok_bounds _ _ _ Hp). pose proof (index_ok_bounds _ _ _ Hk).
  rewrite Hp. cbn [bind].
  assert (match p with Some p => set_index (saved g) i (Some (Persister.Copy p)) | None => Ok (saved g) end
    = Ok (saved (stopped g i))) as ->.
  { simpl. rewrite Hp. destruct p; [by apply set_index_in_range|done]. }
  cbn [bind]. rewrite Hk. cbn [bind].
  assert (match kv with Some _ => set_index (kvs g) i None | None => Ok (kvs g) end
    = Ok (kvs (stopped g i))) as ->.
  { simpl. rewrite Hk. destruct kv; [by apply set_index_in_range|done]. }
  cbn [bind]. rewrite set_index_in_range by (by apply (change_gi cfg gi g)). cbn [bind].
  unfold changed. by rewrite fmap_app, apply_enables_app, <-(sh_gid _ _ _ Hs).
Qed.

(** ** Starting a server *)

Lemma open_peers b k gid m row :
  base_ok b → rng b ≤ k → (0 ≤ m)%Z → row_upto k m m row →
  ∃ rn, for_each (λ rn j, let* name := index row j in open_end rn name (servername gid j))
          (range m) (bnet b) = Ok rn ∧ opened (drawn k (servername gid) m) (bnet b) rn.
Proof using rand_inj.
  intros Hb Hk Hm [_ Hrow].
  apply (for_range_total _ (λ j rn, opened (drawn k (servername gid) j) (bnet b) rn)); [done|apply opened_nil|].
  intros j rn Hj Hop. rewrite Hrow by done. cbn [bind]. rewrite drawn_succ by lia.
  apply opened_snoc; [done|]. rewrite (op_ends _ _ _ Hop).
  intros [(k' & ? & [= E%rand_inj])%Hb|(p & (j' & ? & ->)%drawn_elem & [= E%rand_inj])]; lia.
Qed.

(** The group after [StartServer]. *)
Definition started (g : group) (i : Z) (kv : ShardKV.ShardKV) (p : Persister.Persister)
    (row mrow : list string) : group :=
  mkGroup (gid g) (<[Z.to_nat i := Some kv]> (kvs g)) (<[Z.to_nat i := Some p]> (saved g))
    (<[Z.to_nat i := Some row]> (endnames g)) (<[Z.to_nat i := Some mrow]> (mendnames g)).

Lemma started_rows g i kv p row mrow k i' n gi :
  shape n gi g → (0 ≤ i < n)%Z → (i < 3)%Z →
  index (rows (started g i kv p row mrow) k) i'
  = if decide (i' = i) then Ok (Some (if k then mrow else row)) else index (rows g k) i'.
Proof.
  intros Hs Hi H3. destruct k; simpl; apply index_insert; rewrite ?(sh_mens _ _ _ Hs), ?(sh_ens _ _ _ Hs); lia.
Qed.

Lemma started_shape n gi g i kv p row mrow :
  shape n gi g → (0 ≤ i < n)%Z → (i < 3)%Z → len row = n → len mrow = 3%Z →
  shape n gi (started g i kv p row mrow).
Proof.
  intros Hs Hi H3 Hl Hml.
  split; [apply Hs|simpl; rewrite len_insert; apply Hs..| |].
  - intros k i' r. rewrite (started_rows _ _ _ _ _ _ _ _ n gi) by done. case_decide.
    + intros [= <-]. by destruct k.
    + apply (sh_row _ _ _ Hs).
  - intros i' Hu. simpl in Hu. rewrite index_insert in Hu by (rewrite (sh_kvs _ _ _ Hs); lia).
    setoid_rewrite (started_rows _ _ _ _ _ _ _ _ n gi); [|done..]. simpl.
    rewrite index_insert by (rewrite (sh_saved _ _ _ Hs); lia).
    case_decide; [by eauto|by apply (sh_up _ _ _ Hs)].
Qed.

Section start.
Context (cfg : config) (gi i : Z) (g : group).
Context (Hbed : bed cfg) (Hg : get_group cfg gi = Ok g) (Hi : (0 ≤ i < n cfg)%Z) (H3 : (i < 3)%Z).
Context (kv : ShardKV.ShardKV) (p : Persister.Persister) (row mrow : list string) (rn : Network) (b : base).
Context (Hrow : row_upto (rng (bs cfg)) (n cfg) (n cfg) row).
Context (Hpeers : opened (drawn (rng (bs cfg)) (servername (100 + gi)) (n cfg)) (bnet (bs cfg)) rn).
Context (Hctl : fresh_made (mkBase rn (bheap (bs cfg)) (rng (bs cfg) + Z.to_nat (n cfg))) 3 3
                  (callee cfg gi true) b mrow).

(** The ends that were opened: where their names come from, and what they call. *)
Definition new_ends : list (string * string) :=
  drawn (rng (bs cfg)) (servername (100 + gi)) (n cfg) ++
  drawn (rng (bs cfg) + Z.to_nat (n cfg)) (callee cfg gi true) 3.
Definition drawn_at (k : bool) (j : Z) : nat :=
  if k then rng (bs cfg) + Z.to_nat (n cfg) + Z.to_nat j else rng (bs cfg) + Z.to_nat j.

Lemma new_ends_elem q :
  q ∈ new_ends ↔ ∃ (k : bool) j, (0 ≤ j < if k then 3 else n cfg)%Z ∧ q = (rand (drawn_at k j), callee cfg gi k j).
Proof.
  unfold new_ends. rewrite elem_of_app, !drawn_elem. split.
  - intros [(j & ? & ->)|(j & ? & ->)]; [exists false, j|exists true, j]; done.
  - intros ([] & j & ? & ->); [right|left]; by exists j.
Qed.

Lemma new_ends_opened : opened new_ends (bnet (bs cfg)) (bnet b).
Proof using Hpeers Hctl rand_inj.
  eapply opened_app; [apply Hpeers|apply (fm_net _ _ _ _ _ _ Hctl)|].
  intros q1 q2 (j1 & ? & ->)%drawn_elem (j2 & ? & ->)%drawn_elem E%rand_inj. simpl in E. lia.
Qed.

Lemma new_ends_fresh q : q ∈ new_ends → IStr q.1 ∉ ends (bnet (bs cfg)).
Proof using Hbed rand_inj.
  intros (k & j & ? & ->)%new_ends_elem. apply base_ok_fresh; [apply Hbed|]. unfold drawn_at. destruct k; lia.
Qed.

Lemma new_ends_named k j e :
  endname_at (rows (started g i kv p row mrow) k) i j = Ok e →
  (0 ≤ j < if k then 3 else n cfg)%Z ∧ e = rand (drawn_at k j).
Proof using Hbed Hg Hi H3 Hrow Hctl.
  pose proof (bd_shape _ Hbed _ _ Hg) as Hs.
  intros (r & Hr & He)%endname_at_Ok. rewrite (started_rows _ _ _ _ _ _ _ _ (n cfg) gi) in Hr by done.
  rewrite decide_True in Hr by done. injection Hr as <-.
  pose proof (index_ok_bounds _ _ _ He) as Hj. destruct k; simpl.
  - destruct (fm_row _ _ _ _ _ _ Hctl) as [Hl Hd]. rewrite Hl in Hj. rewrite Hd in He by done.
    split; [done|]. by injection He as <-.
  - destruct Hrow as [Hl Hd]. rewrite Hl in Hj. rewrite Hd in He by done. split; [done|]. by injection He as <-.
Qed.

Lemma start_change :
  change cfg gi i g (started g i kv p row mrow) (add_server b (servername (100 + gi) i) kv_server) true.
Proof using Hbed Hg Hi H3 Hrow Hpeers Hctl rand_inj.
  pose proof (bd_shape _ Hbed _ _ Hg) as Hs. pose proof new_ends_opened as Hop.
  assert (∀ k j e, endname_at (rows (started g i kv p row mrow) k) i j = Ok e →
    (e, callee cfg gi k j) ∈ new_ends) as Hin.
  { intros k j e [? ->]%new_ends_named. apply new_ends_elem. eauto. }
  assert (bheap b = bheap (bs cfg)) as Hh by apply (fm_heap _ _ _ _ _ _ Hctl).
  split.
  - apply started_shape; try done; [apply Hrow|apply (fm_row _ _ _ _ _ _ Hctl)].
  - intros i'. simpl. rewrite index_insert by (rewrite (sh_kvs _ _ _ Hs); lia). by case_decide.
  - intros k i' Hne. rewrite (started_rows _ _ _ _ _ _ _ _ (n cfg) gi) by done.
    by rewrite decide_False.
  - intros i' q Hq. simpl. rewrite index_insert by (rewrite (sh_saved _ _ _ Hs); lia). case_decide; eauto.
  - apply (fm_base _ _ _ _ _ _ Hctl).
  - intros e He. simpl. apply (op_ends _ _ _ Hop). by left.
  - intros gi' i' k j e He _. destruct (bd_named _ Hbed _ _ _ _ _ He) as (Hin' & _ & _).
    apply (op_old _ _ _ Hop). intros q Hq E. apply (new_ends_fresh q Hq). by rewrite <-E.
  - intros k j e He. specialize (Hin k j e He). destruct (op_new _ _ _ Hop _ Hin). split; [|done].
    simpl. apply (op_ends _ _ _ Hop). right. eauto.
  - intros k j e gi' i' k' j' He Hn. destruct (bd_named _ Hbed _ _ _ _ _ Hn) as (Hin' & _ & _).
    by destruct (new_ends_fresh _ (Hin k j e He)).
  - intros k j k' j' e [? ->]%new_ends_named [? E%rand_inj]%new_ends_named.
    unfold drawn_at in E. destruct k, k'; split; done || lia.
  - intros s Hne. unfold server_of. simpl. rewrite lookup_insert_ne by congruence.
    by rewrite (op_servers _ _ _ Hop).
  - simpl. rewrite Hh. apply insert_subseteq. apply not_elem_of_dom, is_fresh.
  - unfold server_of. simpl. rewrite lookup_insert_eq. simpl. split; [done|]. apply lookup_insert_eq.
Qed.

End start.

Lemma StartServer_change cfg gi i g :
  bed cfg → get_group cfg gi = Ok g → (0 ≤ i < n cfg)%Z → (i < 3)%Z →
  ∃ g' b', StartServer rand decodeSnapshot cfg gi i = Ok (changed cfg gi g' b') ∧
    change cfg gi i g g' b' true ∧ has_rows g' i ∧
    ∀ p, index (saved g) i = Ok (Some p) → index (saved g') i = Ok (Some p).
Proof using rand_inj.
  intros Hbed Hg Hi H3. pose proof (bd_shape _ Hbed _ _ Hg) as Hs. pose proof (bd_ctl _ Hbed) as Hc.
  unfold StartServer. rewrite Hg. cbn [bind].
  destruct (draw_spec (bs cfg) (n cfg)) as (row & -> & Hrow); [lia|]. cbn [bind bnet].
  rewrite set_index_in_range by (rewrite (sh_ens _ _ _ Hs); lia). cbn [bind].
  destruct (open_peers (bs cfg) (rng (bs cfg)) (gid g) (n cfg) row) as (rn & -> & Hop);
    [apply Hbed|lia|lia|done|]. cbn [bind].
  destruct (index_in_range (mendnames g) i) as [o ->]; [rewrite (sh_mens _ _ _ Hs); lia|]. cbn [bind].
  rewrite (ct_n _ _ Hc). unfold set_bnet at 1. cbn [bheap rng].
  destruct (fresh_ends_spec (mkBase rn (bheap (bs cfg)) (rng (bs cfg) + Z.to_nat (n cfg))) 3 3
    (ctrlername (ctl cfg)) (callee cfg gi true)) as (b & mrow & -> & Hf).
  { intros e He. simpl in *. apply (op_ends _ _ _ Hop) in He as [(k & ? & ->)%(bd_base _ Hbed)|(q & Hq & ->)].
    - exists k. split; [lia|done].
    - apply drawn_elem in Hq as (j & ? & ->). simpl. eexists. split; [|done]. lia. }
  { lia. }
  { intros j Hj. unfold ctrlername, callee. destruct (index_in_range (ctl_names (ctl cfg)) j) as [s Hj'];
      [by rewrite (ct_len _ _ Hc)|]. rewrite Hj'. by apply index_Ok in Hj' as [_ ->]. }
  cbn [bind]. rewrite set_index_in_range by (rewrite (sh_mens _ _ _ Hs); lia). cbn [bind].
  destruct (index_in_range (saved g) i) as [p Hp]; [rewrite (sh_saved _ _ _ Hs); lia|]. rewrite Hp. cbn [bind].
  rewrite set_index_in_range by (rewrite (sh_saved _ _ _ Hs); lia). cbn [bind].
  rewrite ShardKV.StartServer_data. cbn [bind].
  rewrite set_index_in_range by (rewrite (sh_kvs _ _ _ Hs); lia). cbn [bind].
  rewrite set_index_in_range by (by apply (change_gi cfg gi g)). cbn [bind].
  rewrite (sh_gid _ _ _ Hs) in *. set (kv := decodeSnapshot _ _). set (p' := match p with Some _ => _ | None => _ end).
  exists (started g i kv p' row mrow), (add_server b (servername (100 + gi) i) kv_server). split_and!.
  - unfold changed, started. by rewrite (sh_gid _ _ _ Hs).
  - by apply (start_change cfg gi i g Hbed Hg Hi H3 kv p' row mrow rn b).
  - intros k. rewrite (started_rows _ _ _ _ _ _ _ _ (n cfg) gi) by done. rewrite decide_True by done. eauto.
  - intros q Hq. simpl. rewrite index_insert by (rewrite (sh_saved _ _ _ Hs); lia).
    rewrite decide_True by done. unfold p'. injection Hq as ->. by destruct q.
Qed.

End bed.
End KvLinks.
