(* ===== verification/KvBed.v ===== *)
(** * The store's test bed at work

[make_config] brings up a test bed of at most three servers per group, and no
other; clients can be made in one of at least three; through any starts and
shutdowns a request finds a server exactly when both sides are up, and a client
that finds one is served. *)

From S2P Require Import Prelude GoStrings Labrpc Persister ShardCtrler ShardKV HarnessNet KvHarness KvLinks.
From stdpp Require Import options.

Module KvBed.
Import Labrpc HarnessNet KvHarness KvLinks.

Section bed.
Context (rand : nat → string) `{rand_inj : !Inj (=) (=) rand}.
Context (decodeSnapshot : option Persister.Persister → ShardKV.ShardKV → ShardKV.ShardKV).

Abbreviation base_ok := (base_ok rand).
Abbreviation bed := (bed rand).
Abbreviation StartServer := (StartServer rand decodeSnapshot).
Abbreviation make_config := (make_config rand decodeSnapshot).

(** ** The controller *)

(** The controller after [i] of its servers were started. *)
Record ctl_upto (names : list string) (i : Z) (st : base * ctrler) : Prop := {
  cu_base : base_ok st.1;
  cu_ctl : ctl_n st.2 = 3%Z ∧ ctl_names st.2 = names ∧ len (ctl_servers st.2) = 3%Z;
  cu_some : ∀ i', (0 ≤ i' < i)%Z → ∃ sc, index (ctl_servers st.2) i' = Ok (Some sc);
  cu_srv : ∀ i' name, (0 ≤ i' < i)%Z → index names i' = Ok name →
    ∃ a, server_of (bnet st.1) (IStr name) = Some a ∧ bheap st.1 !! a = Some ctl_server;
  cu_other : ∀ s, (s ∉ names) → server_of (bnet st.1) (IStr s) = None }.

Lemma ctl_start names i st :
  len names = 3%Z → NoDup names → (0 ≤ i < 3)%Z → ctl_upto names i st →
  ∃ st', StartCtrlerServer rand st.1 st.2 i = Ok st' ∧ ctl_upto names (i + 1) st'.
Proof using rand_inj.
  destruct st as [b c]. intros Hl Hnd Hi [Hb (Hn & Hnm & Hls) Hsome Hsrv Hother]. cbn [fst snd] in *.
  unfold StartCtrlerServer. rewrite Hn.
  destruct (fresh_ends_spec rand b 3 3 (ctrlername c) (λ j, default "" (names !! Z.to_nat j)))
    as (b1 & row & -> & [_ _ Hh Hb1 Hop]); [done|lia| |].
  { intros j Hj. unfold ctrlername. rewrite Hnm. destruct (index_in_range names j) as [s E]; [lia|].
    rewrite E. by apply index_Ok in E as [_ ->]. }
  cbn [bind]. rewrite ShardCtrler.StartServer_spec. cbn [bind].
  rewrite set_index_in_range by lia. cbn [bind]. unfold ctrlername. rewrite Hnm.
  destruct (index_in_range names i) as [name Hname]; [lia|]. rewrite Hname. cbn [bind].
  eexists. split; [reflexivity|]. split; cbn [fst snd ctl_n ctl_names ctl_servers add_server bnet bheap].
  - done.
  - by rewrite len_insert.
  - intros i' Hi'. rewrite index_insert by lia. case_decide; [eauto|]. apply Hsome. lia.
  - intros i' name' Hi' Hn'. unfold server_of. simpl. destruct (decide (i' = i)) as [->|Hne].
    + rewrite Hname in Hn'. injection Hn' as <-. rewrite lookup_insert_eq. simpl.
      eexists. split; [done|]. apply lookup_insert_eq.
    + rewrite lookup_insert_ne, (op_servers _ _ _ Hop).
      2: { intros [= <-]. apply Hne. apply index_Ok in Hname as [_ Hname]. apply index_Ok in Hn' as [_ Hn'].
           pose proof (NoDup_lookup _ _ _ _ Hnd Hname Hn'). lia. }
      destruct (Hsrv i' name') as (a & Ha & Hha); [lia|done|]. exists a. split; [done|].
      rewrite Hh. rewrite lookup_insert_ne; [done|]. intros E. apply (is_fresh (dom (bheap b))).
      rewrite E. by eapply elem_of_dom_2.
  - intros s Hs. unfold server_of. simpl. rewrite lookup_insert_ne, (op_servers _ _ _ Hop).
    + by apply Hother.
    + intros [= <-]. apply Hs. apply index_Ok in Hname as [_ Hname]. by eapply list_elem_of_lookup_2.
Qed.

Lemma StartCtrlerService_ok bigx :
  ∃ b c, StartCtrlerService rand (mkBase MakeNetwork ∅ 0) bigx = Ok (b, c) ∧ base_ok b ∧ ctl_ok b c ∧
    ∀ gid i, server_of (bnet b) (IStr (servername gid i)) = None.
Proof using rand_inj.
  set (names := (λ k, "ctlr-" +:+ rand k) <$> seq 0 3).
  assert (NoDup names) as Hnd.
  { apply NoDup_fmap_2; [|apply NoDup_seq]. intros k k' E%str_app_inj. by apply rand_inj. }
  unfold StartCtrlerService. cbv zeta. unfold make_slice. rewrite !decide_True by lia. cbn [bind].
  lazymatch goal with
  | |- context [for_each ?f (range 3) ?s] =>
      assert (for_each f (range 3) s = Ok (mkBase MakeNetwork ∅ 3, names)) as -> by reflexivity
  end.
  cbn [bind].
  for_range_inv (ctl_upto names) as [b c] Hrun HP; [lia| | |].
  - split; cbn [fst snd]; try done; try (by intros; lia).
  - intros i [b c] Hi Hst. by apply (ctl_start names i (b, c)).
  - rewrite Hrun. cbn [bind]. destruct HP as [Hb (Hn & Hnm & Hls) Hsome Hsrv Hother]. cbn [fst snd] in *.
    unfold ctrlerclerk. rewrite Hn.
    destruct (fresh_ends_spec rand b 3 3 (ctrlername c) (λ j, default "" (names !! Z.to_nat j)))
      as (b1 & row & -> & [_ _ Hh Hb1 Hop]); [done|lia| |].
    { intros j Hj. unfold ctrlername. rewrite Hnm. destruct (index_in_range names j) as [s E]; [done|].
      rewrite E. by apply index_Ok in E as [_ ->]. }
    cbn [bind]. eexists _, _. split; [reflexivity|]. split_and!; [done| |].
    + split; cbn [ctl_n ctl_names ctl_servers ctl_ck]; rewrite ?Hnm; try done.
      * split; [done|]. apply Forall_lookup. intros k o Ho.
        assert (0 ≤ Z.of_nat k < 3)%Z as Hk by (apply lookup_lt_Some in Ho; unfold len in Hls; lia).
        destruct (Hsome _ Hk) as [sc E]. apply index_Ok in E as [_ E]. rewrite Nat2Z.id in E.
        simplify_eq. eauto.
      * intros name (k & -> & _)%list_elem_of_fmap. eauto.
      * intros name [k Hk]%list_elem_of_lookup.
        assert (0 ≤ Z.of_nat k < 3)%Z by (apply lookup_lt_Some in Hk; simpl in Hk; lia).
        destruct (Hsrv (Z.of_nat k) name) as (a & Ha & Hha); [done|by apply index_Ok; rewrite Nat2Z.id; split; [lia|]|].
        exists a. unfold server_of in *. by rewrite (op_servers _ _ _ Hop), Hh.
    + intros gid i. unfold server_of in *. rewrite (op_servers _ _ _ Hop). apply Hother.
      intros (k & E & _)%list_elem_of_fmap. by eapply ctl_servername.
Qed.

(** ** A new test bed *)

(** The groups from [gi] on are still nil. *)
Definition nil_from (cfg : config) (gi : Z) : Prop :=
  ∀ gi', (gi ≤ gi')%Z → ∃ f, get_group cfg gi' = Crash f.

Lemma new_group_bed cfg gi :
  bed cfg → (0 ≤ gi < 3)%Z → (0 ≤ n cfg)%Z → nil_from cfg gi →
  ∃ g, new_group cfg gi = Ok (changed cfg gi g (bs cfg)) ∧ bed (changed cfg gi g (bs cfg)).
Proof.
  intros Hbed Hgi Hn Hnil. pose proof (bd_ctl _ _ Hbed) as Hc. destruct (bd_groups _ _ Hbed) as [Hng Hlg].
  set (g := mkGroup (100 + gi) (replicate (Z.to_nat (n cfg)) None) (replicate (Z.to_nat (n cfg)) None)
              (replicate (Z.to_nat (n cfg)) None) (replicate (Z.to_nat 3) None)).
  assert (∀ {A} (m : nat) i (x : A), index (replicate m None) i ≠ Ok (Some x)) as Hrep.
  { intros A m i x [_ [? ?]%lookup_replicate]%index_Ok. done. }
  assert (∀ k i j e, endname_at (rows g k) i j ≠ Ok e) as Hnone.
  { intros k i j e (row & Hr & _)%endname_at_Ok. destruct k; by apply Hrep in Hr. }
  assert (∀ i, is_up (index (kvs g) i) = false) as Hdown.
  { intros i. simpl. destruct (index _ i) as [[kv|]|] eqn:E; [by apply Hrep in E|done..]. }
  exists g. split.
  { unfold new_group, make_slice. rewrite (ct_n _ _ Hc), !decide_True by lia. cbn [bind].
    by rewrite set_index_in_range by lia. }
  assert (∀ gi' g1, get_group (changed cfg gi g (bs cfg)) gi' = Ok g1 →
    (gi' = gi ∧ g1 = g) ∨ (gi' ≠ gi ∧ get_group cfg gi' = Ok g1)) as Hgrp.
  { intros gi' g1 Hg1. assert (0 ≤ gi')%Z by (apply get_group_Ok in Hg1; tauto).
    unfold changed in Hg1. rewrite get_group_insert in Hg1 by lia. case_decide; naive_solver. }
  assert (∀ gi' i' k j e, named (changed cfg gi g (bs cfg)) gi' i' k j e → named cfg gi' i' k j e) as Hnm.
  { intros gi' i' k j e (g1 & [[-> ->]|[? ?]]%Hgrp & He); [by apply Hnone in He|by exists g1]. }
  assert (∀ gi' i', (0 ≤ gi')%Z → up (changed cfg gi g (bs cfg)) gi' i' = up cfg gi' i') as Hup.
  { intros gi' i' ?. unfold up, changed. rewrite get_group_insert by lia. case_decide; [|done]. subst gi'.
    destruct (Hnil gi) as [f ->]; [lia|]. apply Hdown. }
  split; try apply Hbed.
  - simpl. by rewrite len_insert.
  - intros gi' g1 [[-> ->]|[? ?]]%Hgrp; [|by apply (bd_shape _ _ Hbed)].
    split; simpl; rewrite ?len_replicate by lia; try done.
    + intros k i row Hr. destruct k; by apply Hrep in Hr.
    + intros i Hu. by rewrite Hdown in Hu.
  - intros gi' i' k j e He. assert (0 ≤ gi')%Z by (destruct He as (? & [? _]%get_group_Ok & _); done).
    rewrite Hup by done. by apply (bd_named _ _ Hbed), Hnm.
  - intros gi1 i1 k1 j1 gi2 i2 k2 j2 e H1%Hnm H2%Hnm. by eapply (bd_inj _ _ Hbed).
  - intros gi' i' ? ?. rewrite Hup by done. by apply (bd_srv _ _ Hbed).
Qed.

(** What a change leaves alone. *)
Lemma changed_other cfg gi g g' b gi' :
  get_group cfg gi = Ok g → gi' ≠ gi → get_group (changed cfg gi g' b) gi' = get_group cfg gi'.
Proof.
  intros Hg Hne. unfold get_group, changed, index. simpl. case_decide; [|done].
  apply get_group_Ok in Hg as [? _]. by rewrite list_lookup_insert_ne by lia.
Qed.

Lemma changed_same cfg gi g g' b :
  get_group cfg gi = Ok g → get_group (changed cfg gi g' b) gi = Ok g'.
Proof.
  intros Hg. pose proof (change_gi cfg gi g Hg). unfold changed.
  rewrite get_group_insert by lia. by rewrite decide_True.
Qed.

(** Servers [0] to [i - 1] of group [gi] have been started, and nothing else has
changed. *)
Record group_upto (cfg0 : config) (gi i : Z) (cfg : config) : Prop := {
  gu_bed : bed cfg;
  gu_n : n cfg = n cfg0;
  gu_other : ∀ gi', gi' ≠ gi → get_group cfg gi' = get_group cfg0 gi';
  gu_rows : ∃ g, get_group cfg gi = Ok g ∧
    ∀ i', (0 ≤ i' < i)%Z → has_rows g i' ∧ is_up (index (kvs g) i') = true }.

Lemma group_upto_step cfg0 gi i cfg :
  (0 ≤ i < n cfg0)%Z → (i < 3)%Z → group_upto cfg0 gi i cfg →
  ∃ cfg', StartServer cfg gi i = Ok cfg' ∧ group_upto cfg0 gi (i + 1) cfg'.
Proof using rand_inj.
  intros Hi H3 [Hbed Hn Ho (g & Hg & Hr)].
  destruct (StartServer_change rand decodeSnapshot cfg gi i g Hbed Hg) as (g' & b' & Hrun & Hch & Hrows & _);
    [lia|done|].
  eexists. split; [done|]. split.
  - apply (bed_changed rand cfg gi i g g' b' true); done || lia.
  - done.
  - intros gi' Hne. by rewrite (changed_other _ _ g) by done; apply Ho.
  - exists g'. split; [by apply (changed_same cfg gi g)|]. intros i' Hi'.
    rewrite (ch_up _ _ _ _ _ _ _ _ Hch). case_decide as Hd; [by subst|]. destruct (Hr i') as [Hr' Hu]; [lia|].
    split; [|done]. intros k. rewrite (ch_rows _ _ _ _ _ _ _ _ Hch) by done. apply Hr'.
Qed.

(** The persister of a server, [None] as long as it was never started. *)
Definition saved_at (cfg : config) (gi i : Z) : option Persister.Persister :=
  match get_group cfg gi with
  | Ok g => match index (saved g) i with Ok p => p | Crash _ => None end
  | Crash _ => None
  end.

(** A test bed whose servers have all been started at least once. *)
Record built (cfg : config) : Prop := {
  bl_bed : bed cfg;
  bl_n : (0 ≤ n cfg ≤ 3)%Z;
  bl_rows : ∀ gi, (0 ≤ gi < 3)%Z → ∃ g, get_group cfg gi = Ok g ∧ ∀ i, (0 ≤ i < n cfg)%Z → has_rows g i;
  bl_saved : ∀ gi i, (0 ≤ gi < 3)%Z → (0 ≤ i < n cfg)%Z → is_Some (saved_at cfg gi i) }.

Definition all_up (cfg : config) : Prop :=
  ∀ gi i, (0 ≤ gi < 3)%Z → (0 ≤ i < n cfg)%Z → up cfg gi i = true.

(** The test bed before the groups are made. *)
Lemma empty_nil b c n0 mrs gi : nil_from (mkCfg b c 3 n0 (replicate 3 None) ∅ 0 mrs) gi.
Proof.
  intros gi' _. destruct (get_group _ gi') as [g|f] eqn:E; [|eauto].
  by apply get_group_Ok in E as [_ [? ?]%lookup_replicate].
Qed.

Lemma empty_bed b c n0 mrs :
  base_ok b → ctl_ok b c → (∀ gid i, server_of (bnet b) (IStr (servername gid i)) = None) →
  bed (mkCfg b c 3 n0 (replicate 3 None) ∅ 0 mrs).
Proof.
  intros Hb Hc Hs.
  assert (∀ gi g, get_group (mkCfg b c 3 n0 (replicate 3 None) ∅ 0 mrs) gi ≠ Ok g) as Hn.
  { intros gi g Hg. destruct (empty_nil b c n0 mrs gi gi) as [f Hf]; [done|congruence]. }
  split; try done.
  - intros gi g Hg. by apply Hn in Hg.
  - intros gi i k j e (g & Hg & _). by apply Hn in Hg.
  - intros gi i k j ???? e (g & Hg & _). by apply Hn in Hg.
  - intros gi i ??. simpl. rewrite Hs. unfold up. destruct (get_group _ gi) eqn:E; [by apply Hn in E|done].
Qed.

(** The first [gi] groups are up, and the others are still nil. *)
Record groups_upto (n0 gi : Z) (cfg : config) : Prop := {
  gs_bed : bed cfg;
  gs_n : n cfg = n0;
  gs_up : ∀ gi', (0 ≤ gi' < gi)%Z → ∃ g, get_group cfg gi' = Ok g ∧
    ∀ i, (0 ≤ i < n0)%Z → has_rows g i ∧ is_up (index (kvs g) i) = true;
  gs_nil : nil_from cfg gi }.

(** One more group: its first [m] servers can be started. *)
Lemma groups_upto_start n0 gi cfg m :
  (0 ≤ gi < 3)%Z → (0 ≤ m ≤ n0)%Z → (m ≤ 3)%Z → groups_upto n0 gi cfg →
  ∃ cfg1 cfg', new_group cfg gi = Ok cfg1 ∧ n cfg1 = n0 ∧
    for_each (λ cfg i, StartServer cfg gi i) (range m) cfg1 = Ok cfg' ∧ group_upto cfg1 gi m cfg' ∧
    ∀ gi', gi' ≠ gi → get_group cfg1 gi' = get_group cfg gi'.
Proof using rand_inj.
  intros Hgi Hm H3 [Hbed Hn Hup Hnil].
  destruct (new_group_bed cfg gi Hbed Hgi) as (g & Hg & Hbed1); [lia|done|].
  set (cfg1 := changed cfg gi g (bs cfg)) in *.
  assert (get_group cfg1 gi = Ok g) as Hgg.
  { unfold cfg1, changed. destruct (bd_groups _ _ Hbed) as [_ Hl]. rewrite get_group_insert by lia.
    by rewrite decide_True. }
  destruct (for_range_total (λ cfg i, StartServer cfg gi i) (group_upto cfg1 gi) m cfg1) as (cfg' & Hrun & HP).
  - lia.
  - split; try done. exists g. split; [done|lia].
  - intros i c Hi Hc. apply group_upto_step; [simpl; lia|lia|done].
  - exists cfg1, cfg'. split_and!; try done. intros gi' Hne. unfold cfg1, changed, get_group, index. simpl.
    case_decide; [|done]. by rewrite list_lookup_insert_ne by lia.
Qed.

Lemma groups_upto_step n0 gi cfg :
  (0 ≤ gi < 3)%Z → (0 ≤ n0 ≤ 3)%Z → groups_upto n0 gi cfg →
  ∃ cfg', (let* cfg := new_group cfg gi in
           for_each (λ cfg i, StartServer cfg gi i) (range (n cfg)) cfg) = Ok cfg' ∧
    groups_upto n0 (gi + 1) cfg'.
Proof using rand_inj.
  intros Hgi Hn0 Hgs. destruct (groups_upto_start n0 gi cfg n0) as (cfg1 & cfg' & -> & E & Hrun & HP & Hsame);
    [done|lia|lia|done|]. cbn [bind]. rewrite E. exists cfg'. split; [done|].
  destruct HP as [Hbed Hn Ho (g & Hg & Hr)]. split; [done|congruence| |].
  - intros gi' Hi'. destruct (decide (gi' = gi)) as [->|Hne].
    + exists g. split; [done|]. intros i Hi. apply Hr. lia.
    + rewrite Ho, Hsame by done. apply (gs_up _ _ _ Hgs). lia.
  - intros gi' Hi'. rewrite Ho, Hsame by lia. apply (gs_nil _ _ _ Hgs). lia.
Qed.

(** The invariant speaks of these parts of the test bed only. *)
Lemma bed_net cfg cfg' :
  ctl cfg' = ctl cfg → ngroups cfg' = ngroups cfg → n cfg' = n cfg → groups cfg' = groups cfg →
  base_ok (bs cfg') → ends (bnet (bs cfg)) ⊆ ends (bnet (bs cfg')) →
  (∀ e, e ∈ ends (bnet (bs cfg)) →
     connected_to (bnet (bs cfg')) e = connected_to (bnet (bs cfg)) e ∧
     is_enabled (bnet (bs cfg')) e = is_enabled (bnet (bs cfg)) e) →
  servers (bnet (bs cfg')) = servers (bnet (bs cfg)) → bheap (bs cfg') = bheap (bs cfg) →
  bed cfg → bed cfg'.
Proof.
  intros Ec Eng En Eg Hb Hends Hold Hs Hh Hbed.
  assert (∀ gi, get_group cfg' gi = get_group cfg gi) as Hg by (intros; unfold get_group; by rewrite Eg).
  assert (∀ gi i, up cfg' gi i = up cfg gi i) as Hup by (intros; unfold up; by rewrite Hg).
  assert (∀ gi i k j e, named cfg' gi i k j e → named cfg gi i k j e) as Hnm.
  { intros gi i k j e (g & Hg' & He). exists g. by rewrite <-Hg. }
  split.
  - done.
  - rewrite Ec. destruct (bd_ctl _ _ Hbed) as [????? ?]. split; try done. unfold server_of. by rewrite Hs, Hh.
  - rewrite Eng, Eg. apply Hbed.
  - intros gi g. rewrite Hg, En. apply (bd_shape _ _ Hbed).
  - intros gi i k j e He%Hnm. destruct (bd_named _ _ Hbed _ _ _ _ _ He) as (Hin & Hco & Hen).
    destruct (Hold _ Hin) as [-> ->]. rewrite Hup. unfold callee in *. rewrite Ec. auto.
  - intros gi i k j gi' i' k' j' e H1%Hnm H2%Hnm. by eapply (bd_inj _ _ Hbed).
  - intros gi i ??. unfold server_of in *. rewrite Hs, Hup, Hh. by apply (bd_srv _ _ Hbed).
Qed.

Lemma make_config_built n0 unreliable mrs bigx :
  (0 ≤ n0 ≤ 3)%Z →
  ∃ cfg, make_config n0 unreliable mrs bigx = Ok cfg ∧ built cfg ∧ n cfg = n0 ∧ all_up cfg.
Proof using rand_inj.
  intros Hn0. unfold make_config.
  destruct (StartCtrlerService_ok bigx) as (b & c & -> & Hb & Hc & Hs). cbn [bind].
  change (make_slice 3 None) with (Ok (replicate 3 (@None group))). cbn [bind ngroups].
  for_range_inv (groups_upto n0) as cfg Hrun HP; [lia| | |].
  - split; [by apply empty_bed|done|lia|].
    apply empty_nil.
  - intros gi cfg Hgi HP. by apply groups_upto_step.
  - rewrite Hrun. cbn [bind]. eexists. split; [reflexivity|]. destruct HP as [Hbed Hn Hup _].
    split_and!; [|done|].
    + split; cbn [n]; [|by rewrite Hn| |].
      * eapply (bed_net cfg); try done. apply (bd_base _ _ Hbed).
      * intros gi Hgi. destruct (Hup gi Hgi) as (g & Hg & Hr). exists g. split; [done|]. rewrite Hn. apply Hr.
      * intros gi i Hgi Hi. destruct (Hup gi Hgi) as (g & Hg & Hr). rewrite Hn in Hi.
        destruct (Hr i Hi) as [_ [[p Hp] _]%(sh_up _ _ _ (bd_shape _ _ Hbed _ _ Hg))].
        unfold saved_at. change (get_group _ gi) with (get_group cfg gi). rewrite Hg, Hp. eauto.
    + intros gi i Hgi Hi. cbn [n] in Hi. rewrite Hn in Hi. destruct (Hup gi Hgi) as (g & Hg & Hr).
      unfold up. change (get_group _ gi) with (get_group cfg gi). rewrite Hg. by apply Hr.
Qed.

(** A fourth server has no row for the ends to the controller. *)
Lemma StartServer_fourth cfg gi g :
  bed cfg → get_group cfg gi = Ok g → (3 < n cfg)%Z →
  StartServer cfg gi 3 = Crash IndexOutOfRange.
Proof using rand_inj.
  intros Hbed Hg Hn. pose proof (bd_shape _ _ Hbed _ _ Hg) as Hs. unfold KvHarness.StartServer.
  rewrite Hg. cbn [bind].
  destruct (draw_spec rand (bs cfg) (n cfg)) as (row & -> & Hrow); [lia|]. cbn [bind bnet].
  rewrite set_index_in_range by (rewrite (sh_ens _ _ _ Hs); lia). cbn [bind].
  destruct (open_peers rand (bs cfg) (rng (bs cfg)) (gid g) (n cfg) row) as (rn & -> & Hop);
    [apply Hbed|lia|lia|done|]. cbn [bind].
  by rewrite index_out_of_range by (rewrite (sh_mens _ _ _ Hs); lia).
Qed.

Lemma make_config_fails n0 unreliable mrs bigx :
  ¬ (0 ≤ n0 ≤ 3)%Z →
  make_config n0 unreliable mrs bigx = Crash (if decide (n0 < 0)%Z then MakeNegative else IndexOutOfRange).
Proof using rand_inj.
  intros Hn0. unfold make_config.
  destruct (StartCtrlerService_ok bigx) as (b & c & -> & Hb & Hc & Hs). cbn [bind].
  change (make_slice 3 None) with (Ok (replicate 3 (@None group))). cbn [bind ngroups].
  change (range 3) with [0; 1; 2]%Z. cbn [for_each]. case_decide as Hneg.
  { unfold new_group, make_slice. cbn [n]. by rewrite decide_False by lia. }
  destruct (groups_upto_start n0 0 (mkCfg b c 3 n0 (replicate 3 None) ∅ 0 mrs) 3)
    as (cfg1 & cfg' & -> & E & Hrun & [Hbed Hn _ (g & Hg & _)] & _); [lia|lia|lia| |].
  { split; [by apply empty_bed|done|lia|].
    apply empty_nil. }
  cbn [bind]. rewrite E. rewrite (range_split 3 n0), for_each_app by lia. rewrite Hrun.
  cbn [bind for_each]. rewrite (StartServer_fourth cfg' 0 g) by (done || lia). done.
Qed.

(** ** Running a test bed *)

Inductive op :=
| OStart (gi i : Z) | OShutdown (gi i : Z) | OStartGroup (gi : Z) | OShutdownGroup (gi : Z)
| OClient (ck : nat) (bigx1 bigx2 : Z) | ODelete (ck : nat)
| OEnd (server : string).          (* a clerk or a server calls [make_end] *)

Definition run_op (cfg : config) (o : op) : outcome config :=
  match o with
  | OStart gi i => StartServer cfg gi i
  | OShutdown gi i => ShutdownServer cfg gi i
  | OStartGroup gi => StartGroup rand decodeSnapshot cfg gi
  | OShutdownGroup gi => ShutdownGroup cfg gi
  | OClient ck x1 x2 => let* (cfg, _) := makeClient rand cfg (ctl cfg) ck x1 x2 in Ok cfg
  | ODelete ck => Ok (deleteClient cfg ck)
  | OEnd s => let* (b, _) := make_end rand (bs cfg) s in Ok (set_bs cfg b)
  end.

Definition run_step (cfg cfg' : config) : Prop := ∃ o, run_op cfg o = Ok cfg'.

Lemma built_changed cfg gi i g g' b' o :
  built cfg → get_group cfg gi = Ok g → (0 ≤ i)%Z → change rand cfg gi i g g' b' o → has_rows g' i →
  built (changed cfg gi g' b').
Proof.
  intros [Hbed Hn Hr Hsv] Hg Hi Hch Hrows. split; [by eapply bed_changed|done| |].
  2: { intros gi' i' Hgi' Hi'. specialize (Hsv gi' i' Hgi' Hi') as [p Hp]. unfold saved_at in *.
       destruct (decide (gi' = gi)) as [->|Hne]; [|rewrite (changed_other cfg gi g) by done; eauto].
       rewrite (changed_same cfg gi g) by done. rewrite Hg in Hp.
       destruct (index (saved g) i') as [q|] eqn:Hq; [|done]. subst q.
       destruct (ch_saved _ _ _ _ _ _ _ _ Hch i' p Hq) as [p' ->]. eauto. }
  intros gi' Hgi'. destruct (decide (gi' = gi)) as [->|Hne].
  - exists g'. split; [by apply (changed_same cfg gi g)|]. intros i' Hi'.
    destruct (decide (i' = i)) as [->|Hd]; [done|]. intros k.
    rewrite (ch_rows _ _ _ _ _ _ _ _ Hch) by done. destruct (Hr gi Hgi') as (g1 & Hg1 & Hr1).
    assert (g1 = g) as -> by congruence. by apply Hr1.
  - rewrite (changed_other cfg gi g) by done. by apply Hr.
Qed.

(** [cfg'] is [cfg] with server [i] of group [gi] up or down. *)
Definition switched (cfg cfg' : config) (gi i : Z) (o : bool) : Prop :=
  n cfg' = n cfg ∧ ctl cfg' = ctl cfg ∧ ∀ gi' i', (0 ≤ gi')%Z →
    up cfg' gi' i' = if decide ((gi', i') = (gi, i)) then o else up cfg gi' i'.

Lemma StartServer_built cfg gi i cfg' :
  built cfg → StartServer cfg gi i = Ok cfg' → built cfg' ∧ switched cfg cfg' gi i true.
Proof using rand_inj.
  intros Hb Hrun.
  assert (∃ g, get_group cfg gi = Ok g ∧ (0 ≤ i < n cfg)%Z) as (g & Hg & Hi).
  { pose proof Hrun as H. unfold KvHarness.StartServer in H. apply bind_Ok_inv in H as (g & Hg & H).
    exists g. split; [done|]. apply bind_Ok_inv in H as ([b row] & _ & H).
    apply bind_Ok_inv in H as (ens & [Hi _]%set_index_Ok & _).
    by rewrite <-(sh_ens _ _ _ (bd_shape _ _ (bl_bed _ Hb) _ _ Hg)). }
  destruct (StartServer_change rand decodeSnapshot cfg gi i g) as (g' & b' & E & Hch & Hrows & _);
    [apply Hb|done|done|pose proof (bl_n _ Hb); lia|].
  rewrite E in Hrun. injection Hrun as <-. split.
  - apply (built_changed cfg gi i g g' b' true); done || lia.
  - split_and!; [done..|]. intros gi' i' ?. by apply (changed_up rand cfg gi i g).
Qed.

Lemma StartServer_ok cfg gi i :
  built cfg → (0 ≤ gi < 3)%Z → (0 ≤ i < n cfg)%Z →
  ∃ cfg', StartServer cfg gi i = Ok cfg' ∧ built cfg' ∧ switched cfg cfg' gi i true ∧
    ∀ p, saved_at cfg gi i = Some p → saved_at cfg' gi i = Some p.
Proof using rand_inj.
  intros Hb Hgi Hi. destruct (bl_rows _ Hb gi Hgi) as (g & Hg & _).
  destruct (StartServer_change rand decodeSnapshot cfg gi i g) as (g' & b' & E & Hch & Hrows & Hsv);
    [apply Hb|done|done|pose proof (bl_n _ Hb); lia|].
  eexists. split; [done|]. destruct (StartServer_built cfg gi i _ Hb E) as [? ?]. split_and!; [done..|].
  intros p. unfold saved_at. rewrite Hg, (changed_same cfg gi g) by done.
  destruct (index (saved g) i) as [q|] eqn:Hq; [|done]. intros ->. by rewrite (Hsv p).
Qed.

Lemma ShutdownServer_ok cfg gi i :
  built cfg → (0 ≤ gi < 3)%Z → (0 ≤ i < n cfg)%Z →
  ∃ cfg', ShutdownServer cfg gi i = Ok cfg' ∧ built cfg' ∧ switched cfg cfg' gi i false ∧
    saved_at cfg' gi i = saved_at cfg gi i.
Proof.
  intros Hb Hgi Hi. destruct (bl_rows _ Hb gi Hgi) as (g & Hg & Hr).
  destruct (ShutdownServer_change rand cfg gi i g) as (b' & E & Hch); [apply Hb|done|done|by apply Hr|].
  eexists. split; [done|]. split.
  - apply (built_changed cfg gi i g (stopped g i) b' false); try (done || lia).
    intros k. destruct (Hr i Hi k) as [row ?]. exists row. by destruct k.
  - split; [split_and!; [done..|]|].
    + intros gi' i' ?. by apply (changed_up rand cfg gi i g).
    + unfold saved_at. rewrite Hg, (changed_same cfg gi g) by done. simpl.
      destruct (index (saved g) i) as [[p|]|] eqn:Hp; [|by rewrite Hp..].
      rewrite index_insert, decide_True by (done || by apply index_ok_bounds in Hp). by destruct p.
Qed.

Lemma ShutdownServer_built cfg gi i cfg' :
  built cfg → ShutdownServer cfg gi i = Ok cfg' → built cfg' ∧ switched cfg cfg' gi i false.
Proof.
  intros Hb Hrun.
  assert ((0 ≤ gi < 3)%Z ∧ (0 ≤ i < n cfg)%Z) as [Hgi Hi].
  { pose proof Hrun as H. unfold ShutdownServer in H. apply bind_Ok_inv in H as (g & Hg & H). split.
    - destruct (bd_groups _ _ (bl_bed _ Hb)) as [_ <-]. by eapply change_gi.
    - do 4 (apply bind_Ok_inv in H as (? & ?Hx & H)). apply index_ok_bounds in Hx2.
      by rewrite <-(sh_saved _ _ _ (bd_shape _ _ (bl_bed _ Hb) _ _ Hg)). }
  destruct (ShutdownServer_ok cfg gi i Hb Hgi Hi) as (c & E & ? & ? & _).
  rewrite E in Hrun. by injection Hrun as <-.
Qed.

(** More ends, and nothing else. *)
Lemma built_opened cfg cfg' ps :
  ctl cfg' = ctl cfg → ngroups cfg' = ngroups cfg → n cfg' = n cfg → groups cfg' = groups cfg →
  base_ok (bs cfg') → opened ps (bnet (bs cfg)) (bnet (bs cfg')) →
  (∀ p, p ∈ ps → IStr p.1 ∉ ends (bnet (bs cfg))) → bheap (bs cfg') = bheap (bs cfg) →
  built cfg → built cfg'.
Proof.
  intros Ec Eng En Eg Hbo Hop Hfr Hh [Hbed Hn Hr Hsv]. split.
  - apply (bed_net cfg); try done; [|intros e He|apply Hop].
    + intros e He. apply (op_ends _ _ _ Hop). by left.
    + apply (op_old _ _ _ Hop). intros p Hp ->. by apply (Hfr p).
  - by rewrite En.
  - intros gi Hgi. destruct (Hr gi Hgi) as (g & Hg & ?). exists g. unfold get_group in *. by rewrite Eg, En.
  - intros gi i. unfold saved_at, get_group in *. rewrite Eg, En. apply Hsv.
Qed.

Lemma make_end_ok b s :
  base_ok b → ∃ rn, make_end rand b s = Ok (mkBase rn (bheap b) (S (rng b)), IStr (rand (rng b))) ∧
    base_ok (mkBase rn (bheap b) (S (rng b))) ∧ opened [(rand (rng b), s)] (bnet b) rn ∧
    IStr (rand (rng b)) ∉ ends (bnet b).
Proof using rand_inj.
  intros Hb. assert (IStr (rand (rng b)) ∉ ends (bnet b)) as Hf by (apply base_ok_fresh; [done..|lia]).
  destruct (opened_snoc [] _ _ (rand (rng b)) s (opened_nil (bnet b)) Hf) as (rn & Hrn & Hop).
  exists rn. unfold make_end, randstring. cbn [bnet]. rewrite Hrn. split_and!; try done.
  intros e He. simpl in *. apply (op_ends _ _ _ Hop) in He as [(k & ? & ->)%Hb|(p & Hp & ->)].
  - exists k. split; [lia|done].
  - apply list_elem_of_singleton in Hp as ->. exists (rng b). split; [lia|done].
Qed.

Lemma ctrlername_at cfg j :
  bed cfg → (0 ≤ j < 3)%Z → ctrlername (ctl cfg) j = Ok (callee cfg 0 true j).
Proof.
  intros Hbed Hj. unfold ctrlername, callee.
  destruct (index_in_range (ctl_names (ctl cfg)) j) as [s E]; [by rewrite (ct_len _ _ (bd_ctl _ _ Hbed))|].
  rewrite E. by apply index_Ok in E as [_ ->].
Qed.

Lemma makeClient_ok cfg ck x1 x2 :
  built cfg → n cfg = 3%Z →
  ∃ cfg' c, makeClient rand cfg (ctl cfg) ck x1 x2 = Ok (cfg', c) ∧ built cfg' ∧
    ctl cfg' = ctl cfg ∧ n cfg' = 3%Z ∧ groups cfg' = groups cfg ∧
    ShardCtrler.servers (ShardKV.sm c) = (λ j, IStr (rand (rng (bs cfg) + Z.to_nat j))) <$> range 3 ∧
    opened (drawn rand (rng (bs cfg)) (callee cfg 0 true) 3) (bnet (bs cfg)) (bnet (bs cfg')) ∧
    bheap (bs cfg') = bheap (bs cfg).
Proof using rand_inj.
  intros Hb Hn. pose proof (bl_bed _ Hb) as Hbed. unfold makeClient.
  rewrite (ct_n _ _ (bd_ctl _ _ Hbed)), Hn. change (make_slice 3 ()) with (Ok (replicate 3 ())). cbn [bind].
  destruct (fresh_ends_spec rand (bs cfg) 3 3 (ctrlername (ctl cfg)) (callee cfg 0 true))
    as (b & row & -> & [[_ Hrow] _ Hh Hbo Hop]); [apply Hbed|lia|by intros; apply ctrlername_at|].
  cbn [bind]. eexists _, _. split; [reflexivity|]. split_and!; try done.
  - eapply (built_opened cfg); try done. intros q (j & ? & ->)%drawn_elem.
    apply base_ok_fresh; [done|apply Hbed|lia].
  - cbn [ShardKV.MakeClerk ShardKV.sm ShardCtrler.MakeClerk ShardCtrler.servers]. apply list_fmap_ext. intros k j Hj%list_elem_of_lookup_2%elem_of_range.
    specialize (Hrow j Hj). apply index_Ok in Hrow as [_ ->]. done.
Qed.

Lemma makeClient_small cfg ck x1 x2 :
  built cfg → (n cfg < 3)%Z → makeClient rand cfg (ctl cfg) ck x1 x2 = Crash IndexOutOfRange.
Proof using rand_inj.
  intros Hb Hn. pose proof (bl_bed _ Hb) as Hbed. pose proof (bl_n _ Hb). unfold makeClient.
  rewrite (ct_n _ _ (bd_ctl _ _ Hbed)). change (make_slice 3 ()) with (Ok (replicate 3 ())). cbn [bind].
  rewrite (fresh_ends_small rand (bs cfg) (n cfg) 3 _ (callee cfg 0 true)); [done|apply Hbed|lia|].
  intros. by apply ctrlername_at.
Qed.

Lemma run_op_built cfg o cfg' : built cfg → run_op cfg o = Ok cfg' → built cfg' ∧ n cfg' = n cfg.
Proof using rand_inj.
  intros Hb. destruct o as [gi i|gi i|gi|gi|ck x1 x2|ck|s]; simpl.
  - intros [? [? _]]%StartServer_built; done.
  - intros [? [? _]]%ShutdownServer_built; done.
  - revert Hb. unfold StartGroup. intros Hb.
    apply (for_each_inv _ (λ _ c, built c ∧ n c = n cfg)); [done|].
    intros dn i c c' [Hc Hn] _ [? [? _]]%StartServer_built; [|done]. split; [done|congruence].
  - apply (for_each_inv _ (λ _ c, built c ∧ n c = n cfg)); [done|].
    intros dn i c c' [Hc Hn] _ [? [? _]]%ShutdownServer_built; [|done]. split; [done|congruence].
  - intros Hrun. destruct (decide (n cfg < 3)%Z) as [Hn|Hn].
    { by rewrite makeClient_small in Hrun. }
    assert (n cfg = 3%Z) as H3 by (pose proof (bl_n _ Hb); lia).
    destruct (makeClient_ok cfg ck x1 x2 Hb H3) as (c & cl & E & ? & _ & ? & _).
    rewrite E in Hrun. simplify_eq/=. split; [done|congruence].
  - intros [= <-]. split; [|done]. destruct Hb as [Hbed Hn Hr Hsv]. split; [|done..].
    apply (bed_net cfg); try done. apply Hbed.
  - destruct (make_end_ok (bs cfg) s) as (rn & -> & Hbo & Hop & Hfr); [apply Hb|].
    intros [= <-]. split; [|done]. eapply (built_opened cfg); try done.
    by intros p ->%list_elem_of_singleton.
Qed.

(** The test beds that the operations lead to. *)
Definition runs (n0 : Z) (cfg : config) : Prop :=
  ∃ unreliable mrs bigx cfg0, make_config n0 unreliable mrs bigx = Ok cfg0 ∧ steps run_step cfg0 cfg.

Lemma runs_built n0 cfg : runs n0 cfg → built cfg ∧ n cfg = n0.
Proof using rand_inj.
  intros (u & mrs & bigx & cfg0 & Hmk & Hst).
  destruct (decide (0 ≤ n0 ≤ 3)%Z) as [H|H]; [|by rewrite make_config_fails in Hmk].
  destruct (make_config_built n0 u mrs bigx H) as (c & E & Hb & Hn & _). rewrite E in Hmk. injection Hmk as ->.
  revert Hst. apply (steps_invariant run_step (λ c, built c ∧ n c = n0)); [|done].
  intros a b [Ha Hna] [o [? ?]%run_op_built]; [|done]. split; [done|congruence].
Qed.

(** ** Nothing but [cleanup] stops the network *)

Lemma for_each_same {A S} (f : S → A → outcome S) (g : S → bool) l s s' :
  (∀ s a s', f s a = Ok s' → g s' = g s) → for_each f l s = Ok s' → g s' = g s.
Proof.
  intros Hf. apply (for_each_inv _ (λ _ t, g t = g s)); [done|]. intros dn a t t' Ht _ Hs.
  by rewrite (Hf _ _ _ Hs).
Qed.

Abbreviation down cfg := (net_done (bnet (bs cfg))).

Lemma open_end_down rn name s rn' : open_end rn name s = Ok rn' → net_done rn' = net_done rn.
Proof. unfold open_end, MakeEnd. case_decide; [done|]. by intros [= <-]. Qed.

Lemma fresh_ends_down b size m srv b' row :
  fresh_ends rand b size m srv = Ok (b', row) → net_done (bnet b') = net_done (bnet b).
Proof.
  unfold fresh_ends. intros H. apply bind_Ok_inv in H as (r & _ & H).
  apply (for_each_same _ (λ st, net_done (bnet st.1))) in H; [done|].
  intros [b1 r1] j [b2 r2] Hs. cbn in Hs. unfold MakeEnd in Hs. go_simp. case_decide; by go_simp.
Qed.

Lemma draw_down b m b' row : draw rand b m = Ok (b', row) → net_done (bnet b') = net_done (bnet b).
Proof.
  unfold draw. intros H. apply bind_Ok_inv in H as (r & _ & H).
  apply (for_each_same _ (λ st, net_done (bnet st.1))) in H; [done|].
  intros [b1 r1] j [b2 r2] Hs. cbn in Hs. by go_simp.
Qed.

Lemma enables_down (name : Z → outcome string) l rn rn' :
  for_each (λ rn j, let* e := name j in Ok (Enable rn (IStr e) false)) l rn = Ok rn' →
  net_done rn' = net_done rn.
Proof. apply for_each_same. intros a j a' Hs. by go_simp. Qed.

Lemma ShutdownServer_down cfg gi i cfg' : ShutdownServer cfg gi i = Ok cfg' → down cfg' = down cfg.
Proof.
  unfold ShutdownServer. intros H. apply bind_Ok_inv in H as (gg & _ & H).
  apply bind_Ok_inv in H as (rn & H1 & H). apply enables_down in H1.
  apply bind_Ok_inv in H as (mrow & _ & H). apply bind_Ok_inv in H as (rn2 & H2 & H).
  apply enables_down in H2. cbv zeta in H. go_simp. congruence.
Qed.

Lemma StartServer_down cfg gi i cfg' : StartServer cfg gi i = Ok cfg' → down cfg' = down cfg.
Proof.
  unfold KvHarness.StartServer. intros H. apply bind_Ok_inv in H as (gg & _ & H).
  apply bind_Ok_inv in H as ([b row] & H1 & H). apply draw_down in H1.
  apply bind_Ok_inv in H as (ens & _ & H). apply bind_Ok_inv in H as (rn & H2 & H).
  apply (for_each_same _ net_done) in H2.
  2: { intros a j a' Hs. apply bind_Ok_inv in Hs as (nm & _ & Hs). by eapply open_end_down. }
  apply bind_Ok_inv in H as (mr & _ & H). apply bind_Ok_inv in H as ([b2 mrow] & H3 & H).
  apply fresh_ends_down in H3. cbv zeta in H. go_simp. congruence.
Qed.

Lemma StartCtrlerService_down b bigx b' c :
  StartCtrlerService rand b bigx = Ok (b', c) → net_done (bnet b') = net_done (bnet b).
Proof.
  unfold StartCtrlerService. cbv zeta. intros H. apply bind_Ok_inv in H as (svs & _ & H).
  apply bind_Ok_inv in H as (nms & _ & H). apply bind_Ok_inv in H as ([b1 n1] & H1 & H).
  apply (for_each_same _ (λ st, net_done (bnet st.1))) in H1.
  2: { intros [x1 x2] j [y1 y2] Hs. cbn in Hs. by go_simp. }
  apply bind_Ok_inv in H as ([b2 c2] & H2 & H).
  apply (for_each_same _ (λ st, net_done (bnet st.1))) in H2.
  2: { intros [x1 x2] j [y1 y2] Hs. unfold StartCtrlerServer in Hs.
       apply bind_Ok_inv in Hs as ([b3 r3] & H3 & Hs). apply fresh_ends_down in H3. go_simp. done. }
  apply bind_Ok_inv in H as ([b3 ck] & H3 & H). unfold ctrlerclerk in H3.
  apply bind_Ok_inv in H3 as ([b4 r4] & H4 & H3). apply fresh_ends_down in H4. go_simp. congruence.
Qed.

Lemma runs_up n0 cfg : runs n0 cfg → down cfg = false.
Proof.
  intros (u & mrs & bigx & cfg0 & Hmk & Hst). revert Hst.
  apply (steps_invariant run_step (λ c, down c = false)).
  - intros a b Ha [o Ho]. rewrite <-Ha. destruct o; cbn [run_op] in Ho.
    + by eapply StartServer_down.
    + by eapply ShutdownServer_down.
    + unfold StartGroup in Ho. apply (for_each_same _ (λ c, down c)) in Ho; [done|]. intros; by eapply StartServer_down.
    + unfold ShutdownGroup in Ho. apply (for_each_same _ (λ c, down c)) in Ho; [done|]. intros; by eapply ShutdownServer_down.
    + apply bind_Ok_inv in Ho as ([c ck'] & Hc & Ho). injection Ho as <-. unfold makeClient in Hc.
      apply bind_Ok_inv in Hc as (x & _ & Hc). apply bind_Ok_inv in Hc as ([b1 r1] & H1 & Hc).
      apply fresh_ends_down in H1. go_simp. done.
    + by injection Ho as <-.
    + apply bind_Ok_inv in Ho as ([b1 e1] & H1 & Ho). injection Ho as <-. unfold make_end in H1. cbn in H1.
      apply bind_Ok_inv in H1 as (rn & H1 & H2). apply open_end_down in H1. by go_simp.
  - unfold make_config in Hmk. apply bind_Ok_inv in Hmk as ([b c] & H1 & Hmk).
    apply StartCtrlerService_down in H1. apply bind_Ok_inv in Hmk as (gs & _ & Hmk).
    apply bind_Ok_inv in Hmk as (c2 & H2 & Hmk). apply (for_each_same _ (λ c, down c)) in H2.
    + injection Hmk as <-. cbn in *. congruence.
    + intros s a s' Hs. apply bind_Ok_inv in Hs as (s1 & H3 & Hs).
      apply (for_each_same _ (λ c, down c)) in Hs; [|intros; by eapply StartServer_down]. rewrite Hs.
      unfold new_group in H3. by go_simp.
Qed.

(** What a request through an end with a known connection finds. *)
Lemma find_target_connected rn e s :
  connected_to rn e = Some s →
  find_target (readEndnameInfo rn e) =
  if is_enabled rn e then (λ a, mkTarget s a (reliable rn) (longReordering rn)) <$> server_of rn s else None.
Proof.
  intros Hco. unfold find_target, readEndnameInfo. rewrite Hco. simpl.
  by destruct (is_enabled rn e), (server_of rn s).
Qed.

Lemma built_named cfg gi i (k : bool) j :
  built cfg → (0 ≤ gi < 3)%Z → (0 ≤ i < n cfg)%Z → (0 ≤ j < if k then 3 else n cfg)%Z →
  ∃ e, named cfg gi i k j e.
Proof.
  intros Hb Hgi Hi Hj. destruct (bl_rows _ Hb gi Hgi) as (g & Hg & Hr). destruct (Hr i Hi k) as [row Hrow].
  pose proof (sh_row _ _ _ (bd_shape _ _ (bl_bed _ Hb) _ _ Hg) _ _ _ Hrow) as Hl.
  destruct (index_in_range row j) as [e He]; [by rewrite Hl|].
  exists e, g. split; [done|]. apply endname_at_Ok. eauto.
Qed.

(** C30. The size of a group: a test bed comes up, with all its servers, exactly when
it has at most three servers per group.  A fourth server indexes past the end of
[mendnames], which has a row per controller instead of a row per server. *)
Theorem make_config_bounds n0 unreliable mrs bigx :
  match make_config n0 unreliable mrs bigx with
  | Ok cfg => (0 ≤ n0 ≤ 3)%Z ∧ all_up cfg
  | Crash f => (n0 < 0)%Z ∧ f = MakeNegative ∨ (3 < n0)%Z ∧ f = IndexOutOfRange
  end.
Proof using rand_inj.
  destruct (decide (0 ≤ n0 ≤ 3)%Z) as [H|H].
  - by destruct (make_config_built n0 unreliable mrs bigx H) as (c & -> & _ & _ & ?).
  - rewrite make_config_fails by done. case_decide; [left|right]; (split; [lia|done]).
Qed.

(** C16. Requests of the servers: through any starts, shutdowns and clients, the end by
which a server calls a server of its group finds a server exactly when both are
up, and then the current one of that name; the end by which it calls a server of
the controller finds that server exactly when the caller is up. *)
Theorem kv_requests n0 cfg gi i :
  runs n0 cfg → (0 ≤ gi < 3)%Z → (0 ≤ i < n0)%Z →
  (∀ j, (0 ≤ j < n0)%Z → ∃ e, named cfg gi i false j e ∧
     match find_target (readEndnameInfo (bnet (bs cfg)) (IStr e)) with
     | Some t => up cfg gi i = true ∧ up cfg gi j = true ∧
         t_name t = IStr (servername (100 + gi) j) ∧ bheap (bs cfg) !! t_server t = Some kv_server
     | None => up cfg gi i = false ∨ up cfg gi j = false
     end) ∧
  (∀ j, (0 ≤ j < 3)%Z → ∃ e, named cfg gi i true j e ∧
     match find_target (readEndnameInfo (bnet (bs cfg)) (IStr e)) with
     | Some t => up cfg gi i = true ∧ ctrlername (ctl cfg) j = Ok (callee cfg gi true j) ∧
         t_name t = IStr (callee cfg gi true j) ∧ bheap (bs cfg) !! t_server t = Some ctl_server
     | None => up cfg gi i = false
     end).
Proof using rand_inj.
  intros [Hb Hn]%runs_built Hgi Hi. pose proof (bl_bed _ Hb) as Hbed.
  split; intros j Hj.
  - destruct (built_named cfg gi i false j Hb) as [e He]; [done|lia|lia|]. exists e. split; [done|].
    destruct (bd_named _ _ Hbed _ _ _ _ _ He) as (_ & Hco & Hen). rewrite (find_target_connected _ _ _ Hco), Hen.
    pose proof (bd_srv _ _ Hbed gi j) as Hs. simpl.
    destruct (up cfg gi i) eqn:?; [|by left]. destruct (server_of _ _); simpl; [|right; apply Hs; lia].
    destruct Hs; [lia..|]. done.
  - destruct (built_named cfg gi i true j Hb) as [e He]; [done|lia|lia|]. exists e. split; [done|].
    destruct (bd_named _ _ Hbed _ _ _ _ _ He) as (_ & Hco & Hen). rewrite (find_target_connected _ _ _ Hco), Hen.
    destruct (up cfg gi i) eqn:?; [|done].
    pose proof (ctrlername_at cfg j Hbed Hj) as Hcn. pose proof Hcn as [_ Hc%list_elem_of_lookup_2]%index_Ok.
    destruct (ct_srv _ _ (bd_ctl _ _ Hbed) _ Hc) as (a & Ha & Hh).
    change (callee cfg gi true j) with (callee cfg 0 true j). rewrite Ha. simpl. done.
Qed.

(** Starting and stopping: in a test bed that has been run in any way, every server
can be shut down and started again; each call changes whether that server is up
and no other, and what its persister has stored is kept. *)
Theorem kv_restart n0 cfg gi i :
  runs n0 cfg → (0 ≤ gi < 3)%Z → (0 ≤ i < n0)%Z →
  ∃ cfg1 cfg2, ShutdownServer cfg gi i = Ok cfg1 ∧ switched cfg cfg1 gi i false ∧
    StartServer cfg1 gi i = Ok cfg2 ∧ switched cfg1 cfg2 gi i true ∧
    ∀ p, saved_at cfg gi i = Some p → saved_at cfg1 gi i = Some p ∧ saved_at cfg2 gi i = Some p.
Proof using rand_inj.
  intros [Hb <-]%runs_built Hgi Hi.
  destruct (ShutdownServer_ok cfg gi i Hb Hgi Hi) as (cfg1 & E1 & Hb1 & Hs1 & Hp1).
  destruct (StartServer_ok cfg1 gi i Hb1 Hgi) as (cfg2 & E2 & _ & Hs2 & Hp2); [by rewrite (proj1 Hs1)|].
  exists cfg1, cfg2. split_and!; try done. intros p Hp. rewrite <-Hp1 in Hp. auto.
Qed.

(** Clients: in a test bed that has been run in any way a client can be made
exactly when there are three servers per group (with fewer, the slice for the
names of its ends is too small for the three servers of the controller), and each
of its ends then leads to a server of the controller. *)
Theorem makeClient_bounds n0 cfg ck bigx1 bigx2 :
  runs n0 cfg →
  match makeClient rand cfg (ctl cfg) ck bigx1 bigx2 with
  | Ok (cfg', c) => n0 = 3%Z ∧ ∀ j, (0 ≤ j < 3)%Z →
      ∃ e name t, ShardCtrler.servers (ShardKV.sm c) !! Z.to_nat j = Some e ∧
        ctrlername (ctl cfg) j = Ok name ∧ find_target (readEndnameInfo (bnet (bs cfg')) e) = Some t ∧
        t_name t = IStr name ∧ bheap (bs cfg') !! t_server t = Some ctl_server
  | Crash f => (n0 < 3)%Z ∧ f = IndexOutOfRange
  end.
Proof using rand_inj.
  intros [Hb Hn]%runs_built. pose proof (bl_n _ Hb) as Hn3. destruct (decide (n cfg = 3)%Z) as [H3|H3].
  2: { rewrite makeClient_small by (done || lia). split; [lia|done]. }
  destruct (makeClient_ok cfg ck bigx1 bigx2 Hb H3) as (cfg' & c & -> & Hb' & Ec & _ & _ & Esv & Hop & Hh).
  split; [congruence|]. intros j Hj. pose proof (ctrlername_at cfg j (bl_bed _ Hb) Hj) as Hcn.
  pose proof Hcn as [_ Hc%list_elem_of_lookup_2]%index_Ok.
  destruct (ct_srv _ _ (bd_ctl _ _ (bl_bed _ Hb)) _ Hc) as (a & Ha & Hha).
  destruct (op_new _ _ _ Hop (rand (rng (bs cfg) + Z.to_nat j), callee cfg 0 true j)) as [Hco Hen].
  { apply drawn_elem. eauto. }
  eexists _, _, _. split_and!; [|done| | |].
  - rewrite Esv, list_lookup_fmap. unfold range. rewrite lookup_seqZ_lt by lia. simpl. by rewrite Z.add_0_l, Z2Nat.id by lia.
  - cbn [fst] in Hco, Hen. rewrite (find_target_connected _ _ _ Hco), Hen. unfold server_of in *.
    rewrite (op_servers _ _ _ Hop). cbn [snd] in *. by rewrite Ha.
  - done.
  - simpl. by rewrite Hh.
Qed.

(** Clients are served: [make_end] always gives a new end for a server of the store.
If the server is up, a request through it for any RPC of the store can be carried
through to a successful answer; if it is down, a request finds no server. *)
Theorem client_served n0 cfg gi i meth args r :
  runs n0 cfg → (0 ≤ gi)%Z → (0 ≤ i)%Z → meth ∈ ["Get"; "PutAppend"; "TransferShard"; "DeleteShard"] →
  ∃ b e, make_end rand (bs cfg) (servername (100 + gi) i) = Ok (b, e) ∧
    if up cfg gi i then
      ∃ w x, run_labels next_ok (mkWorld (bnet b) (bheap b) [])
               [LCall {| r_endname := e; r_svcMeth := "ShardKV." +:+ meth; r_args := args |};
                LRead 0; LSend 0 false; LDispatch 0; LReturn 0 r; LRecv 0; LCheck 0; LFinal 0 false false] = Some w ∧
             reqs w !! 0 = Some x ∧ ph x = PReplied (mkReply true r) ∧ execs x = 1
    else find_target (readEndnameInfo (bnet b) e) = None.
Proof using rand_inj.
  intros [Hb Hn]%runs_built Hgi Hi Hm. pose proof (bl_bed _ Hb) as Hbed.
  destruct (make_end_ok (bs cfg) (servername (100 + gi) i)) as (rn & -> & _ & Hop & _); [apply Hbed|].
  eexists _, _. split; [done|]. cbn [bnet bheap].
  destruct (op_new _ _ _ Hop (rand (rng (bs cfg)), servername (100 + gi) i)) as [Hco Hen]; [set_solver|].
  cbn [fst snd] in Hco, Hen. pose proof (bd_srv _ _ Hbed gi i Hgi Hi) as Hs.
  assert (server_of rn (IStr (servername (100 + gi) i)) = server_of (bnet (bs cfg)) (IStr (servername (100 + gi) i)))
    as Hso by (unfold server_of; by rewrite (op_servers _ _ _ Hop)).
  destruct (server_of (bnet (bs cfg)) _) as [a|] eqn:Ha.
  - destruct Hs as [-> Hh].
    assert (∃ rs' sm, Server_dispatch kv_server ("ShardKV." +:+ meth) = Ok (rs', sm)) as (rs' & sm & Hd).
    { repeat (apply elem_of_cons in Hm as [->|Hm]; [by vm_compute; eauto|]). by apply not_elem_of_nil in Hm. }
    destruct (call_served (mkWorld rn (bheap (bs cfg)) [])
      {| r_endname := IStr (rand (rng (bs cfg))); r_svcMeth := "ShardKV." +:+ meth; r_args := args |}
      (IStr (servername (100 + gi) i)) a kv_server rs' sm r Hen Hco Hso Hh Hd) as (w & x & ? & ? & ? & ? & _).
    by exists w, x.
  - rewrite Hs, (find_target_connected _ _ _ Hco), Hen, Hso. done.
Qed.

(** The map that [joinm] sends. *)
Definition joined (cfg : config) (gis : list Z) : gmap Z (list string) :=
  foldl (λ m g, <[(100 + g)%Z := servername (100 + g) <$> range (n cfg)]> m) ∅ gis.

Lemma joined_lookup cfg gis gid names :
  joined cfg gis !! gid = Some names ↔
  ∃ g, g ∈ gis ∧ gid = (100 + g)%Z ∧ names = servername gid <$> range (n cfg).
Proof.
  unfold joined. induction gis as [|g gis IH] using rev_ind.
  { simpl. rewrite lookup_empty. split; [done|]. by intros (? & ?%not_elem_of_nil & _). }
  rewrite foldl_snoc, lookup_insert_Some, IH. setoid_rewrite elem_of_app. setoid_rewrite list_elem_of_singleton.
  split.
  - intros [[<- <-]|[Hne (g' & ? & -> & ->)]]; eauto.
  - intros (g' & [?| ->] & -> & ->); [|by left].
    destruct (decide (g = g')) as [->|Hne]; [by left|right]. split; [lia|]. eauto.
Qed.

Lemma joinm_run cfg gis c ck call now fuel :
  built cfg → (∀ g, g ∈ gis → 0 ≤ g < 3)%Z → ctl_ck c = Some ck →
  joinm cfg gis c call now fuel = Ok (ShardCtrler.Join ck call now (joined cfg gis) fuel).
Proof.
  intros Hb Hgis Hck. unfold joinm.
  rewrite (for_each_pure _ (λ m g, <[(100 + g)%Z := servername (100 + g) <$> range (n cfg)]> m) (λ g, g)).
  - cbn [bind]. rewrite Hck, list_fmap_id. done.
  - intros m g Hg. destruct (bl_rows _ Hb g (Hgis g Hg)) as (gg & Hgg & _). rewrite Hgg. cbn [bind].
    pose proof (bl_n _ Hb). unfold make_slice. rewrite decide_True by lia. cbn [bind].
    rewrite (sh_gid _ _ _ (bd_shape _ _ (bl_bed _ Hb) _ _ Hgg)).
    by rewrite (for_each_fill (servername (100 + g))) by (rewrite ?length_replicate; done || lia).
Qed.

(** Joining groups: the requests that [joinm] sends to the controller name exactly the
given groups, each with the names under which its servers are registered when
they are up. *)
Theorem joinm_names n0 cfg gis call now fuel :
  runs n0 cfg → (∀ g, g ∈ gis → 0 ≤ g < 3)%Z →
  ∃ sent res, joinm cfg gis (ctl cfg) call now fuel = Ok (sent, res) ∧
    ∀ e args, (e, args) ∈ sent →
      (∀ gid names, ShardCtrler.j_Servers args !! gid = Some names ↔
         ∃ g, g ∈ gis ∧ gid = (100 + g)%Z ∧ names = servername gid <$> range n0) ∧
      (∀ g i name, ShardCtrler.j_Servers args !! (100 + g)%Z ≫= (.!! i) = Some name →
         (is_Some (server_of (bnet (bs cfg)) (IStr name)) ↔ up cfg g (Z.of_nat i) = true)).
Proof using rand_inj.
  intros [Hb <-]%runs_built Hgis. destruct (ct_ck _ _ (bd_ctl _ _ (bl_bed _ Hb))) as [ck Hck].
  rewrite (joinm_run cfg gis _ ck) by done.
  destruct (ShardCtrler.Join ck call now (joined cfg gis) fuel) as [sent res] eqn:Hj.
  exists sent, res. split; [done|]. intros e args [k Hk]%list_elem_of_lookup.
  rewrite (ShardCtrler.Join_sent _ _ _ _ _ _ _ _ _ _ Hj Hk). cbn [ShardCtrler.j_Servers].
  split; [intros; apply joined_lookup|]. intros g i name Hn.
  apply bind_Some in Hn as (names & (g' & Hg' & E & ->)%joined_lookup & Hi).
  assert (g' = g) as -> by lia. rewrite list_lookup_fmap in Hi.
  apply fmap_Some in Hi as (i' & Hi' & ->). unfold range in Hi'. apply lookup_seqZ in Hi' as [-> Hi'].
  rewrite Z.add_0_l in *. pose proof (Hgis g Hg').
  pose proof (bd_srv _ _ (bl_bed _ Hb) g (Z.of_nat i)) as Hs.
  destruct (server_of _ _) as [a|]; split; try done; try (by eauto); [intros _; apply Hs; lia|].
  intros Hu. rewrite Hs in Hu by lia. done.
Qed.

(** A persister within the limits that [checklogs] tests. *)
Definition within (mrs : Z) (p : Persister.Persister) : Prop :=
  if decide (0 ≤ mrs)%Z then (Persister.RaftStateSize p ≤ 8 * mrs)%Z else Persister.SnapshotSize p = 0%Z.

(** The check of the logs: [checklogs] passes exactly when no persister is too
large (or, without a limit, when no snapshot was taken), and otherwise fails the
test; it never panics. *)
Theorem checklogs_exact n0 cfg :
  runs n0 cfg →
  match checklogs cfg with
  | Ok _ => ∀ gi i p, (0 ≤ gi < 3)%Z → (0 ≤ i < n0)%Z → saved_at cfg gi i = Some p → within (maxraftstate cfg) p
  | Crash f => (∃ msg, f = FatalExit msg) ∧ ∃ gi i p, (0 ≤ gi < 3)%Z ∧ (0 ≤ i < n0)%Z ∧
      saved_at cfg gi i = Some p ∧ ¬ within (maxraftstate cfg) p
  end.
Proof using rand_inj.
  intros [Hb <-]%runs_built. unfold checklogs. rewrite (proj1 (bd_groups _ _ (bl_bed _ Hb))).
  assert (∀ gi i, (0 ≤ gi < 3)%Z → (0 ≤ i < n cfg)%Z → ∃ g p, get_group cfg gi = Ok g ∧
    index (saved g) i = Ok (Some p) ∧ saved_at cfg gi i = Some p) as Hsv.
  { intros gi i Hgi Hi. destruct (bl_saved _ Hb gi i Hgi Hi) as [p Hp]. pose proof Hp as Hp'. unfold saved_at in Hp.
    destruct (get_group cfg gi) as [g|]; [|done]. destruct (index (saved g) i) as [q|] eqn:E; [|done]. subst q. eauto. }
  match goal with |- context [for_each ?f (range 3) ()] => destruct (for_each_check f (range 3)) as [Ho|[-> Ho]] end.
  - destruct Ho as (f & -> & gi & Hgi%elem_of_range & Hin).
    match type of Hin with for_each ?f ?l _ = _ => destruct (for_each_check f l) as [Hi|[Hi _]] end; [|congruence].
    destruct Hi as (f' & Hf' & i & Hi%elem_of_range & Hbody). assert (f' = f) as -> by congruence.
    destruct (Hsv gi i Hgi Hi) as (g & p & Hg & Hp & Hsp). rewrite Hg in Hbody. cbn [bind] in Hbody.
    rewrite Hp in Hbody. cbn [bind] in Hbody.
    repeat case_bool_decide; simpl in Hbody; simplify_eq; (split; [eauto|]); exists gi, i, p;
      unfold within; case_decide; split_and!; done || lia.
  - intros gi i p Hgi Hi Hp. specialize (Ho gi). rewrite elem_of_range in Ho. specialize (Ho Hgi).
    match type of Ho with for_each ?f ?l _ = _ => destruct (for_each_check f l) as [(f' & E & _)|[_ Hi']] end; [congruence|].
    specialize (Hi' i). rewrite elem_of_range in Hi'. specialize (Hi' Hi).
    destruct (Hsv gi i Hgi Hi) as (g & p' & Hg & Hp' & Hsp). rewrite Hg in Hi'. cbn [bind] in Hi'.
    rewrite Hp' in Hi'. cbn [bind] in Hi'. assert (p' = p) as -> by congruence. unfold within.
    assert (0 ≤ Persister.SnapshotSize p)%Z by (unfold Persister.SnapshotSize; lia).
    repeat case_bool_decide; simpl in Hi'; case_decide; done || lia.
Qed.

(** Servers are down: those of the groups before [gi], and the first [i] of group [gi]. *)
Definition down_upto (cfg0 : config) (gi i : Z) (cfg : config) : Prop :=
  built cfg ∧ n cfg = n cfg0 ∧ ctl cfg = ctl cfg0 ∧
  ∀ gi' i', (0 ≤ gi')%Z → (gi' < gi ∨ (gi' = gi ∧ i' < i))%Z → (0 ≤ i' < n cfg0)%Z → up cfg gi' i' = false.

Lemma shutdown_all cfg :
  built cfg → ∃ cfg', for_each ShutdownGroup (range 3) cfg = Ok cfg' ∧ down_upto cfg 3 0 cfg'.
Proof.
  intros Hb. apply (for_range_total _ (λ gi c, down_upto cfg gi 0 c)); [done|by split_and!; try done; intros; lia|].
  intros gi c Hgi (Hc & Hn & Hct & Hd).
  destruct (for_range_total (λ c i, ShutdownServer c gi i) (down_upto cfg gi) (n c) c) as (c' & Hrun & Hc' & ? & ? & Hd').
  - pose proof (bl_n _ Hc). lia.
  - done.
  - intros i c1 Hi (Hc1 & Hn1 & Hct1 & Hd1). destruct (ShutdownServer_ok c1 gi i Hc1 Hgi) as (c2 & -> & Hc2 & Hs & _); [lia|].
    destruct Hs as (En & Ec & Hu). exists c2. split; [done|]. split_and!; [done|congruence..|].
    intros gi' i' Hp Hlt Hi'. rewrite Hu by done. case_decide as Hdec; [done|]. apply Hd1; [done| |done].
    destruct Hlt as [?|[-> ?]]; [by left|right]. split; [done|]. assert (i' ≠ i) by congruence. lia.
  - exists c'. split; [done|]. split_and!; try done. intros gi' i' Hp Hlt Hi'. apply Hd'; [done| |done]. lia.
Qed.

(** Cleaning up: at the end of a test every server of the store is down, the Raft peers
of the controller are killed and the network is told to stop; the test fails if it
took more than two minutes, unless it had failed already. *)
Theorem cleanup_stops n0 cfg failed elapsed :
  runs n0 cfg →
  match cleanup cfg failed elapsed with
  | Ok cfg' => (failed = true ∨ elapsed ≤ 120)%Z ∧ net_done (bnet (bs cfg')) = true ∧
      (∀ gi i, (0 ≤ gi < 3)%Z → (0 ≤ i < n0)%Z → up cfg' gi i = false) ∧
      Forall (λ o, ∃ sc, o = Some sc ∧ ShardCtrler.rf_dead sc = 1%Z) (ctl_servers (ctl cfg'))
  | Crash f => failed = false ∧ (120 < elapsed)%Z ∧ f = FatalExit "test took longer than 120 seconds"
  end.
Proof using rand_inj.
  intros Hrs. pose proof (runs_up _ _ Hrs) as Hup. apply runs_built in Hrs as [Hb <-].
  unfold cleanup. rewrite (proj1 (bd_groups _ _ (bl_bed _ Hb))).
  destruct (shutdown_all cfg Hb) as (c & Esh & Hc & Hn & Hct & Hd). rewrite Esh. cbn [bind].
  apply (for_each_same _ (λ c, down c)) in Esh.
  2: { intros s gi s' Hs. unfold ShutdownGroup in Hs.
       apply (for_each_same _ (λ c, down c)) in Hs; [done|]. intros; by eapply ShutdownServer_down. }
  destruct (bd_ctl _ _ (bl_bed _ Hc)) as [Hcn _ [Hls Hsome] _ _ _]. rewrite Hcn.
  for_range_inv (λ j svs, len svs = 3%Z ∧ Forall is_Some svs ∧
    ∀ i o, (0 ≤ i < j)%Z → index svs i = Ok o → ∃ sc, o = Some sc ∧ ShardCtrler.rf_dead sc = 1%Z)
    as svs Hrun HP; [done|by split_and!; try done; intros; lia| |].
  - intros i svs Hi (Hl & Hs & Hk). destruct (index_in_range svs i) as [o Ho]; [lia|]. rewrite Ho. cbn [bind].
    pose proof Ho as [_ Hlk]%index_Ok. destruct (Forall_lookup_1 _ _ _ _ Hs Hlk) as [sc ->].
    eexists. split; [apply set_index_in_range; lia|]. rewrite len_insert. split_and!; [done|by apply Forall_insert; eauto|].
    intros i' o' Hi'. rewrite index_insert by lia. case_decide; [intros [= <-]; eauto|]. apply Hk. lia.
  - destruct HP as (Hl & Hs & Hk). rewrite Hrun. cbn [bind]. unfold Cleanup. rewrite Esh, Hup.
    cbn [bind]. unfold checkTimeout.
    destruct failed; simpl; [|case_bool_decide; simpl; [done|]]; (split; [by (left + (right; lia))|]); split_and!; try done.
    1,3: intros gi i Hgi Hi; apply Hd; lia.
    all: apply Forall_lookup; intros k o Ho; apply (Hk (Z.of_nat k)).
    1,3: apply lookup_lt_Some in Ho; unfold len in Hl; lia.
    all: apply index_Ok; rewrite Nat2Z.id; split; [lia|done].
Qed.

End bed.

(** ** A small run *)

Definition demo_rand (k : nat) : string := Itoa (Z.of_nat k).
Global Instance demo_rand_inj : Inj (=) (=) demo_rand.
Proof. intros k k' E%Itoa_inj. lia. Defined.
Definition demo_decode (_ : option Persister.Persister) (kv : ShardKV.ShardKV) : ShardKV.ShardKV := kv.

(** Server 2 of group 1 is restarted, a client is made, and server 1 of group 0 stopped. *)
Definition demo_ops : list op := [OShutdown 1 2; OStart 1 2; OClient 0 5 6; OEnd "server-101-2"; OShutdown 0 1].
Definition demo_start : outcome config := make_config demo_rand demo_decode 3 false (-1) 7.
Definition demo_run : outcome config :=
  let* cfg := demo_start in for_each (run_op demo_rand demo_decode) demo_ops cfg.
Definition demo_cfg : config :=
  match demo_run with
  | Ok cfg => cfg
  | Crash _ => mkCfg (mkBase MakeNetwork ∅ 0) (mkCtl 0 [] [] None) 0 0 [] ∅ 0 0
  end.

Lemma for_each_steps {A S} (f : S → A → outcome S) (l : list A) s s' :
  for_each f l s = Ok s' → steps (λ a b, ∃ x, f a x = Ok b) s s'.
Proof.
  revert s. induction l as [|x l IH]; intros s Hrun; simpl in Hrun.
  - injection Hrun as <-. apply steps_refl.
  - apply bind_Ok_inv in Hrun as (t & Ht & Hrun). eapply steps_trans; [apply steps_one; eauto|by apply IH].
Qed.

Lemma demo_runs : runs demo_rand demo_decode 3 demo_cfg.
Proof.
  assert (is_ok demo_run = true) as Hok by (vm_compute; reflexivity).
  unfold demo_cfg. destruct demo_run as [cfg|] eqn:E; [|done]. unfold demo_run in E.
  apply bind_Ok_inv in E as (cfg0 & E0 & E). exists false, (-1)%Z, 7%Z, cfg0. split; [done|].
  by apply for_each_steps in E.
Qed.

Example demo_cfg_up : up demo_cfg 0 0 = true ∧ up demo_cfg 0 1 = false ∧ up demo_cfg 1 2 = true.
Proof. vm_compute. done. Qed.

Lemma make_config_bounds_witness :
  match make_config demo_rand demo_decode 4 false (-1) 7 with
  | Ok cfg => (0 ≤ 4 ≤ 3)%Z ∧ all_up cfg
  | Crash f => (4 < 0)%Z ∧ f = MakeNegative ∨ (3 < 4)%Z ∧ f = IndexOutOfRange
  end.
Proof. exact (make_config_bounds demo_rand demo_decode 4 false (-1) 7). Defined.

Lemma kv_requests_witness :
  (∃ e, named demo_cfg 0 0 false 1 e ∧
     find_target (readEndnameInfo (bnet (bs demo_cfg)) (IStr e)) = None) ∧
  (∃ e t, named demo_cfg 1 0 false 2 e ∧
     find_target (readEndnameInfo (bnet (bs demo_cfg)) (IStr e)) = Some t ∧
     t_name t = IStr "server-101-2" ∧ bheap (bs demo_cfg) !! t_server t = Some kv_server).
Proof.
  split.
  - destruct (kv_requests demo_rand demo_decode 3 demo_cfg 0 0 demo_runs) as [H _]; [lia|lia|].
    destruct (H 1%Z) as (e & He & Hf); [lia|]. exists e. split; [exact He|].
    destruct (find_target _); [|reflexivity]. destruct Hf as (_ & Hf & _).
    destruct demo_cfg_up as (_ & Hd & _). congruence.
  - destruct (kv_requests demo_rand demo_decode 3 demo_cfg 1 0 demo_runs) as [H _]; [lia|lia|].
    destruct (H 2%Z) as (e & He & Hf); [lia|]. exists e.
    destruct (find_target _) as [t|].
    + exists t. destruct Hf as (_ & _ & Hn & Hh). split_and!; [exact He|reflexivity|exact Hn|exact Hh].
    + assert (up demo_cfg 1 0 = true) as H0 by (vm_compute; reflexivity).
      destruct demo_cfg_up as (_ & _ & H2). destruct Hf; congruence.
Defined.

Lemma kv_restart_witness :
  ∃ cfg1 cfg2, ShutdownServer demo_cfg 2 1 = Ok cfg1 ∧ switched demo_cfg cfg1 2 1 false ∧
    StartServer demo_rand demo_decode cfg1 2 1 = Ok cfg2 ∧ switched cfg1 cfg2 2 1 true ∧
    ∀ p, saved_at demo_cfg 2 1 = Some p → saved_at cfg1 2 1 = Some p ∧ saved_at cfg2 2 1 = Some p.
Proof. apply (kv_restart demo_rand demo_decode 3 demo_cfg 2 1 demo_runs); lia. Defined.

Lemma makeClient_bounds_witness :
  match makeClient demo_rand demo_cfg (ctl demo_cfg) 1 8 9 with
  | Ok (cfg', c) => 3%Z = 3%Z ∧ ∀ j, (0 ≤ j < 3)%Z →
      ∃ e name t, ShardCtrler.servers (ShardKV.sm c) !! Z.to_nat j = Some e ∧
        ctrlername (ctl demo_cfg) j = Ok name ∧ find_target (readEndnameInfo (bnet (bs cfg')) e) = Some t ∧
        t_name t = IStr name ∧ bheap (bs cfg') !! t_server t = Some ctl_server
  | Crash f => (3 < 3)%Z ∧ f = IndexOutOfRange
  end.
Proof. exact (makeClient_bounds demo_rand demo_decode 3 demo_cfg 1 8 9 demo_runs). Defined.

Lemma client_served_witness :
  ∃ b e, make_end demo_rand (bs demo_cfg) (servername (100 + 1) 2) = Ok (b, e) ∧
    ∃ w x, run_labels next_ok (mkWorld (bnet b) (bheap b) [])
             [LCall {| r_endname := e; r_svcMeth := "ShardKV.Get"; r_args := "k" |};
              LRead 0; LSend 0 false; LDispatch 0; LReturn 0 "v"; LRecv 0; LCheck 0; LFinal 0 false false] = Some w ∧
           reqs w !! 0 = Some x ∧ ph x = PReplied (mkReply true "v") ∧ execs x = 1.
Proof.
  destruct (client_served demo_rand demo_decode 3 demo_cfg 1 2 "Get" "k" "v" demo_runs) as (b & e & Hm & H);
    [lia|lia|apply list_elem_of_here|].
  exists b, e. split; [exact Hm|]. destruct demo_cfg_up as (_ & _ & Hu). rewrite Hu in H. exact H.
Defined.

Lemma joinm_names_witness :
  ∃ sent res, joinm demo_cfg [2; 0]%Z (ctl demo_cfg) (λ _ _ _, None) (λ k, Z.of_nat k) 2 = Ok (sent, res) ∧
    ∀ e args, (e, args) ∈ sent →
      (∀ gid names, ShardCtrler.j_Servers args !! gid = Some names ↔
         ∃ g, g ∈ [2; 0]%Z ∧ gid = (100 + g)%Z ∧ names = servername gid <$> range 3) ∧
      (∀ g i name, ShardCtrler.j_Servers args !! (100 + g)%Z ≫= (.!! i) = Some name →
         (is_Some (server_of (bnet (bs demo_cfg)) (IStr name)) ↔ up demo_cfg g (Z.of_nat i) = true)).
Proof.
  apply (joinm_names demo_rand demo_decode 3 demo_cfg [2; 0]%Z (λ _ _ _, None) (λ k, Z.of_nat k) 2 demo_runs).
  intros g Hg. apply elem_of_cons in Hg as [->|Hg]; [lia|]. apply list_elem_of_singleton in Hg as ->. lia.
Defined.

Lemma checklogs_exact_witness :
  match checklogs demo_cfg with
  | Ok _ => ∀ gi i p, (0 ≤ gi < 3)%Z → (0 ≤ i < 3)%Z → saved_at demo_cfg gi i = Some p →
      within (maxraftstate demo_cfg) p
  | Crash f => (∃ msg, f = FatalExit msg) ∧ ∃ gi i p, (0 ≤ gi < 3)%Z ∧ (0 ≤ i < 3)%Z ∧
      saved_at demo_cfg gi i = Some p ∧ ¬ within (maxraftstate demo_cfg) p
  end.
Proof. exact (checklogs_exact demo_rand demo_decode 3 demo_cfg demo_runs). Defined.

Lemma cleanup_stops_witness :
  match cleanup demo_cfg false 60 with
  | Ok cfg' => (false = true ∨ 60 ≤ 120)%Z ∧ net_done (bnet (bs cfg')) = true ∧
      (∀ gi i, (0 ≤ gi < 3)%Z → (0 ≤ i < 3)%Z → up cfg' gi i = false) ∧
      Forall (λ o, ∃ sc, o = Some sc ∧ ShardCtrler.rf_dead sc = 1%Z) (ctl_servers (ctl cfg'))
  | Crash f => false = false ∧ (120 < 60)%Z ∧ f = FatalExit "test took longer than 120 seconds"
  end.
Proof. exact (cleanup_stops demo_rand demo_decode 3 demo_cfg false 60 demo_runs). Defined.

End KvBed.
