(* ===== verification/RaftSnap.v ===== *)
(** * Whole runs of the tester of Raft with snapshots

The appliers of [src/raft/config.go] that take snapshots ([applierSnap], with
[checkLogs] and [ingestSnap]) and the restarts of servers ([start1]) run against
each other here: a state is the tester's and the snapshots handed to the peers so
far.  [applierSnap] replaces the log of a server by the one of a snapshot without
comparing it with those of the others, so what the appliers check is not local to
one message: the theorem of this file is about runs, and an example shows what a
run may hide. *)

From S2P Require Import Prelude Labrpc RaftPeer HarnessNet RaftHarness.
From stdpp Require Import options.

Module RaftSnap.
Import Labrpc HarnessNet RaftHarness.

#[local] Instance byte_eq_decision : EqDecision Byte.byte := Byte.byte_eq_dec.

Section runs.
Context {C : Type} `{EqDecision C} (nil : C).
Context (decode : bytes → option (Z * list C)) (encode : Z * list C → bytes).
Implicit Types (ls : list (gmap Z C)) (las : list Z) (pool : list (Z * bytes)).

(** The tester, and the arguments of the calls of [rf.Snapshot] so far. *)
Definition state : Type := config C * list (Z * bytes).

(** What happens to a server: its applier reads a message, or it restarts from what
its peer has persisted, the state of the peer and a snapshot or none. *)
Inductive event :=
| EMessage (i : Z) (m : RaftPeer.ApplyMsg C)
| ERestart (i : Z) (raftstate : bytes) (snap : option (Z * bytes)) (names : list string) (a : nat).

Definition run_event (st : state) (ev : event) : outcome state :=
  match ev with
  | EMessage i m =>
      let* (cfg, o) := applierSnap nil decode encode st.1 i m in
      Ok (cfg, st.2 ++ option_list o)
  | ERestart i raftstate snap names a =>
      let* sv := set_index (saved st.1) i (Some (raftstate, default [] (snd <$> snap))) in
      let* cfg := start1 decode (set_saved st.1 sv) i names a in
      Ok (cfg, st.2)
  end.

(** Raft hands out snapshots it was given, with their index. *)
Definition genuine (st : state) (ev : event) : Prop :=
  match ev with
  | EMessage _ m =>
      RaftPeer.SnapshotValid m = true → (RaftPeer.SnapshotIndex m, RaftPeer.Snapshot m) ∈ st.2
  | ERestart _ _ snap _ _ => ∀ x, snap = Some x → x ∈ st.2
  end.

(** Some server has committed the command at the index. *)
Definition held ls (k : Z) (v : C) : Prop := ∃ j lj, ls !! j = Some lj ∧ lj !! k = Some v.

(** No command that a server had committed is gone from the logs of all servers. *)
Definition remembered ls ls' : Prop := ∀ k v, held ls k v → held ls' k v.

Definition event_step (st st' : state) : Prop :=
  ∃ ev, genuine st ev ∧ run_event st ev = Ok st' ∧ remembered (logs st.1) (logs st'.1).

(** The snapshot holds what servers have committed, from 1 to its index. *)
Definition carries ls (idx : Z) (xlog : list C) : Prop :=
  (1 ≤ idx)%Z ∧ len xlog = (idx + 1)%Z ∧ xlog !! 0 = Some nil ∧
  ∀ k, (1 ≤ k ≤ idx)%Z → ∃ v, xlog !! Z.to_nat k = Some v ∧ held ls k v.
Definition taken ls (x : Z * bytes) : Prop :=
  ∃ xlog, x.2 = encode (x.1, xlog) ∧ carries ls x.1 xlog.

Record runs_ok ls las pool : Prop := {
  ro_len : length ls = length las;
  ro_agree : agree ls;
  ro_gaps : no_gaps ls;
  ro_zero : ∀ v, held ls 0 v → v = nil;
  ro_dense : ∀ i li la, ls !! i = Some li → las !! i = Some la →
    (0 ≤ la)%Z ∧ ∀ k, (1 ≤ k ≤ la)%Z → is_Some (li !! k);
  ro_pool : ∀ x, x ∈ pool → taken ls x }.

Definition state_ok (st : state) : Prop := runs_ok (logs st.1) (lastApplied st.1) st.2.

Lemma held_agree ls k v w : agree ls → held ls k v → held ls k w → v = w.
Proof. intros Ha (i & li & Hi & Hv) (j & lj & Hj & Hw). exact (Ha i j li lj k v w Hi Hj Hv Hw). Qed.

Lemma agree_held ls : (∀ k v w, held ls k v → held ls k w → v = w) → agree ls.
Proof. intros H i j li lj k v w Hi Hj Hv Hw. apply (H k); [by exists i, li|by exists j, lj]. Qed.

Lemma taken_remembered ls ls' x : remembered ls ls' → taken ls x → taken ls' x.
Proof.
  intros Hr (xlog & ? & ? & ? & ? & H). exists xlog. unfold carries. split_and!; try done. intros k Hk.
  destruct (H k Hk) as (v & ? & ?). eauto.
Qed.

(** ** A command *)

Lemma held_insert ls i li idx v k w :
  held (<[i := <[idx := v]> li]> ls) k w → ls !! i = Some li → held ls k w ∨ k = idx ∧ w = v.
Proof.
  intros (j & lj & Hj & Hw) Hi.
  apply list_lookup_insert_Some in Hj as [(-> & <- & _)|[_ Hj]]; [|left; by exists j, lj].
  apply lookup_insert_Some in Hw as [[-> ->]|[_ Hw]]; [by right|left; by exists j, li].
Qed.

Lemma remembered_insert ls i li idx v :
  ls !! i = Some li → consistent ls idx v → remembered ls (<[i := <[idx := v]> li]> ls).
Proof.
  intros Hi Hc k w (j & lj & Hj & Hw). destruct (decide (j = i)) as [->|Hne].
  - exists i, (<[idx := v]> li). split; [by apply list_lookup_insert_eq; eapply lookup_lt_Some|].
    simplify_eq. destruct (decide (k = idx)) as [->|]; [|by rewrite lookup_insert_ne].
    rewrite lookup_insert_eq. f_equal. symmetry. by apply (Hc i li).
  - exists j, lj. by rewrite list_lookup_insert_ne.
Qed.

Lemma runs_ok_command ls las pool i li la v :
  runs_ok ls las pool → ls !! i = Some li → las !! i = Some la → let k := (la + 1)%Z in
  consistent ls k v → ((1 < k)%Z → is_Some (li !! (k - 1)%Z)) →
  runs_ok (<[i := <[k := v]> li]> ls) (<[i := k]> las) pool.
Proof.
  intros Hok Hi Hla k Hc Ho. destruct (ro_dense _ _ _ Hok i li la Hi Hla) as [H0 Hd].
  split.
  - rewrite !length_insert. apply Hok.
  - apply agree_insert; [done|apply Hok|done].
  - apply no_gaps_insert; [done|apply Hok|done].
  - intros w Hw. destruct (held_insert _ _ _ _ _ _ _ Hw Hi) as [Hh|[? _]]; [by apply (ro_zero _ _ _ Hok)|lia].
  - intros j lj laj Hj Hlaj. apply list_lookup_insert_Some in Hj as [(<- & <- & _)|[Hne Hj]].
    + rewrite list_lookup_insert_eq in Hlaj by (by eapply lookup_lt_Some). injection Hlaj as <-.
      split; [lia|]. intros k' Hk'. rewrite lookup_insert_is_Some'.
      destruct (decide (k = k')); [by left|right]. apply Hd. lia.
    + rewrite list_lookup_insert_ne in Hlaj by done. by eapply ro_dense.
  - intros x Hx. eapply taken_remembered; [by apply remembered_insert|by apply Hok].
Qed.

(** The snapshot that is taken after the command. *)
Lemma taken_snapshot ls i li k :
  (∀ v, held ls 0 v → v = nil) → ls !! i = Some li → (1 ≤ k)%Z →
  (∀ k', (1 ≤ k' ≤ k)%Z → is_Some (li !! k')) →
  taken ls (k, encode (k, snapshot_log nil li k)).
Proof.
  intros Hz Hi Hk Hd. exists (snapshot_log nil li k). unfold carries. cbn [fst snd].
  assert (∀ j, (0 ≤ j ≤ k)%Z → snapshot_log nil li k !! Z.to_nat j = Some (default nil (li !! j))) as Hlk.
  { intros j Hj. unfold snapshot_log, range. rewrite list_lookup_fmap, lookup_seqZ_lt by lia.
    cbn [fmap option_fmap option_map]. by replace (0 + Z.of_nat (Z.to_nat j))%Z with j by lia. }
  split_and!; [done|done|..].
  - unfold len, snapshot_log. rewrite length_fmap, range_length. lia.
  - pose proof (Hlk 0%Z ltac:(lia)) as E0. change (Z.to_nat 0) with 0 in E0. rewrite E0. clear E0.
    destruct (li !! 0%Z) as [v|] eqn:E; [|done]. cbn [default].
    f_equal. apply Hz. by exists i, li.
  - intros j Hj. rewrite Hlk by lia. destruct (Hd j Hj) as [v Hv]. exists v. rewrite Hv.
    split; [done|]. by exists i, li.
Qed.

(** ** A snapshot *)

Lemma taken_carries ls x xlog :
  (∀ y, decode (encode y) = Some y) → taken ls x → decode x.2 = Some (x.1, xlog) →
  carries ls x.1 xlog.
Proof. intros Hdec (xlog' & -> & H). rewrite Hdec. by intros [= ->]. Qed.

Lemma log_of_held ls idx xlog k v :
  carries ls idx xlog → log_of nil xlog !! k = Some v →
  (0 ≤ k ≤ idx)%Z ∧ (held ls k v ∨ k = 0%Z ∧ v = nil).
Proof.
  intros (H1 & Hlen & H0 & Hk). rewrite log_of_lookup. case_decide as Hd; [|done]. intros [= <-].
  split; [lia|]. destruct (decide (k = 0%Z)) as [->|Hne].
  - right. change (Z.to_nat 0) with 0. by rewrite H0.
  - left. destruct (Hk k ltac:(lia)) as (v & -> & Hv). done.
Qed.

Lemma log_of_dense ls idx xlog k :
  carries ls idx xlog → (0 ≤ k ≤ idx)%Z → is_Some (log_of nil xlog !! k).
Proof. intros (H1 & Hlen & _) Hb. rewrite log_of_lookup, decide_True by lia. eauto. Qed.

Lemma runs_ok_ingest ls las pool i idx xlog :
  runs_ok ls las pool → carries ls idx xlog → remembered ls (<[i := log_of nil xlog]> ls) →
  runs_ok (<[i := log_of nil xlog]> ls) (<[i := idx]> las) pool.
Proof.
  intros Hok Ht Hr.
  assert (∀ k v, held (<[i := log_of nil xlog]> ls) k v → held ls k v ∨ k = 0%Z ∧ v = nil) as Hh.
  { intros k v (j & lj & Hj & Hv). apply list_lookup_insert_Some in Hj as [(-> & <- & _)|[_ Hj]].
    - by destruct (log_of_held ls idx xlog k v Ht Hv).
    - left. by exists j, lj. }
  pose proof (ro_zero _ _ _ Hok) as Hz. split.
  - rewrite !length_insert. apply Hok.
  - apply agree_held. intros k v w Hv%Hh Hw%Hh.
    destruct Hv as [Hv|[-> ->]], Hw as [Hw|[? ->]]; subst; try done.
    + by eapply held_agree; [apply Hok|..].
    + by apply Hz.
    + symmetry. by apply Hz.
  - intros j lj k Hj Hk Hs. apply list_lookup_insert_Some in Hj as [(-> & <- & _)|[_ Hj]];
      [|by eapply (ro_gaps _ _ _ Hok)].
    destruct Hs as [v Hv]. destruct (log_of_held ls idx xlog k v Ht Hv) as [Hb _].
    apply (log_of_dense ls idx); [done|lia].
  - intros v [Hv|[_ ->]]%Hh; [by apply Hz|done].
  - intros j lj laj Hj Hlaj. apply list_lookup_insert_Some in Hj as [(<- & <- & Hb)|[Hne Hj]].
    + rewrite (ro_len _ _ _ Hok) in Hb. rewrite list_lookup_insert_eq in Hlaj by done.
      injection Hlaj as <-. split; [destruct Ht as (? & _); lia|]. intros k Hk.
      apply (log_of_dense ls idx); [done|lia].
    + rewrite list_lookup_insert_ne in Hlaj by done. by eapply ro_dense.
  - intros y Hy. eapply taken_remembered; [done|by apply Hok].
Qed.

(** A restart sets the last applied index to 0 first. *)
Lemma runs_ok_reset ls las pool i : runs_ok ls las pool → runs_ok ls (<[i := 0%Z]> las) pool.
Proof.
  intros [Hl Ha Hg Hz Hd Hp]. split; try done; [by rewrite length_insert|].
  intros j lj laj Hj Hlaj. apply list_lookup_insert_Some in Hlaj as [(-> & <- & _)|[_ Hlaj]];
    [split; lia|by eapply Hd].
Qed.

Lemma crash1_logs (cfg : config C) i c :
  crash1 cfg i = Ok c →
  logs c = logs cfg ∧ lastApplied c = lastApplied cfg ∧ saved c = saved cfg.
Proof.
  unfold crash1, disconnect. intros H.
  destruct (set_index (connected cfg) i false); [|done]. cbn [bind] in H.
  destruct (for_each _ _ (net cfg)); [|done]. cbn [bind] in H.
  destruct (for_each _ _ _); [|done]. cbn [bind saved set_net set_connected rafts] in H.
  destruct (index (saved cfg) i) as [p|] eqn:Hp; [|done]. cbn [bind] in H.
  destruct (index (rafts cfg) i); [|done]. cbn [bind] in H.
  destruct (if _ : bool then set_index (rafts cfg) i false else _); [|done]. cbn [bind] in H.
  destruct (set_index (saved cfg) i p) as [sv|] eqn:Hsv; [|done]. cbn [bind] in H.
  injection H as <-. split_and!; [done|done|]. apply set_index_Ok in Hsv as [_ ->].
  apply index_Ok in Hp as [_ Hp]. by apply list_insert_id.
Qed.

(** The logs after a restart: as before, or those of the saved snapshot. *)
Lemma start1_logs (cfg : config C) i names a cfg' :
  start1 decode cfg i names a = Ok cfg' →
  ∃ p, index (saved cfg) i = Ok p ∧
    saved cfg' = <[Z.to_nat i := Some (default ([], []) p)]> (saved cfg) ∧
    let la0 := <[Z.to_nat i := 0%Z]> (lastApplied cfg) in
    let sn := (default ([], []) p).2 in
    (logs cfg' = logs cfg ∧ lastApplied cfg' = la0 ∨
     (0 < len sn)%Z ∧ ∃ k xlog, decode sn = Some (k, xlog) ∧
       logs cfg' = <[Z.to_nat i := log_of nil xlog]> (logs cfg) ∧
       lastApplied cfg' = <[Z.to_nat i := k]> la0).
Proof.
  intros H. unfold start1 in H. destruct (crash1 cfg i) as [c|] eqn:Hc; [|done]. cbn [bind] in H.
  destruct (crash1_logs cfg i c Hc) as (El & Ea & Es).
  destruct (set_index (endnames c) i _); [|done]. cbn [bind] in H.
  destruct (make_ends _ _ _); [|done]. cbn [bind] in H.
  cbn [lastApplied set_net set_endnames] in H.
  destruct (set_index (lastApplied c) i 0%Z) as [las|] eqn:Hla; [|done]. cbn [bind] in H.
  apply set_index_Ok in Hla as [_ ->]. cbn [saved set_lastApplied set_net set_endnames] in H.
  rewrite Es, Ea in H. destruct (index (saved cfg) i) as [p|] eqn:Hp; [|done]. cbn [bind] in H.
  exists p. split; [done|]. pose proof (proj2 (proj1 (index_Ok _ _ _) Hp)) as Hp'.
  destruct p as [[rs sn]|]; cbn [default snd]; [case_decide as Hsn|].
  - match type of H with context [ingestSnap decode ?c0 i (Some sn) (-1)] => set (c1 := c0) in H end.
    destruct (ingestSnap decode c1 i (Some sn) (-1)) as [[c2 [e|]]|] eqn:Hi; try done.
    cbn [bind] in H. destruct (set_index (rafts c2) i true); [|done]. cbn [bind] in H.
    injection H as <-.
    destruct (ingestSnap_Ok nil decode c1 i sn (-1) c2 Hi) as (k & xlog & Hd & _ & _ & _ & Hsv & Hl & Hla).
    split; [rewrite (list_insert_id (saved cfg)) by exact Hp'; cbn [saved set_net set_rafts]; rewrite Hsv; exact Es|].
    right. split; [done|]. exists k, xlog. split_and!; [done|..].
    + cbn [logs set_net set_rafts]. rewrite Hl. unfold c1.
      cbn [logs set_lastApplied set_net set_endnames]. by rewrite El.
    + cbn [lastApplied set_net set_rafts]. by rewrite Hla.
  - cbn [bind] in H. destruct (set_index (rafts _) i true); [|done]. cbn [bind] in H.
    injection H as <-. split; [rewrite (list_insert_id (saved cfg)) by exact Hp'; exact Es|left; by split].
  - destruct (set_index (saved cfg) i _) as [sv|] eqn:Hsv; [|done]. cbn [bind] in H.
    apply set_index_Ok in Hsv as [_ ->].
    destruct (set_index (rafts _) i true); [|done]. cbn [bind] in H.
    injection H as <-. split; [done|left; by split].
Qed.

Lemma connect_logs (cfg : config C) i c :
  connect cfg i = Ok c → logs c = logs cfg ∧ lastApplied c = lastApplied cfg.
Proof.
  unfold connect. intros H. destruct (set_index _ _ _); [|done]. cbn [bind] in H.
  destruct (for_each _ _ (net cfg)); [|done]. cbn [bind] in H.
  destruct (for_each _ _ _); [|done]. cbn [bind] in H. by injection H as <-.
Qed.

(** ** The state that [make_config] builds *)

Definition blank_logs (cfg : config C) : Prop :=
  length (logs cfg) = length (lastApplied cfg) ∧
  Forall (λ l, l = ∅) (logs cfg) ∧ Forall (λ la, la = 0%Z) (lastApplied cfg).

Lemma blank_ok cfg : blank_logs cfg → state_ok (cfg, []).
Proof.
  intros (Hl & Hs & Hz). rewrite Forall_lookup in Hs. rewrite Forall_lookup in Hz.
  assert (∀ k v, ¬ held (logs cfg) k v) as Hno.
  { intros k v (j & lj & Hj & Hv). by rewrite (Hs j lj Hj), lookup_empty in Hv. }
  split; cbn [fst snd].
  - done.
  - apply agree_held. intros k v w Hv. by destruct (Hno k v).
  - intros i li k Hi _ [v Hv]. destruct (Hno k v). by exists i, li.
  - intros v Hv. by destruct (Hno 0%Z v).
  - intros i li la _ Hla. apply Hz in Hla as ->. split; lia.
  - intros x Hx. by apply not_elem_of_nil in Hx.
Qed.

(** No snapshot is saved either. *)
Definition blank_all (cfg : config C) : Prop :=
  blank_logs cfg ∧ Forall (λ p, (default ([], []) p).2 = []) (saved cfg).

Lemma start1_blank cfg i names a cfg' :
  start1 decode cfg i names a = Ok cfg' → blank_all cfg → blank_all cfg'.
Proof using nil.
  intros (p & Hp & Hsv & Hrest)%start1_logs ((Hl & Hs & Hz) & Hsn).
  apply index_Ok in Hp as [_ Hp]. pose proof (Forall_lookup_1 _ _ _ _ Hsn Hp) as Ep. cbn beta in Ep.
  cbv zeta in Hrest. rewrite Ep in Hrest. destruct Hrest as [[El Ea]|[Hlen _]];
    [|by unfold len in Hlen; cbn [length] in Hlen; lia].
  unfold blank_all, blank_logs. rewrite El, Ea, Hsv, length_insert. split_and!; try done.
  - by apply Forall_insert.
  - apply Forall_insert; [done|]. by destruct p.
Qed.

Lemma make_config_blank n unreliable names addr cfg :
  make_config decode n unreliable names addr = Ok cfg → blank_logs cfg.
Proof using nil.
  unfold make_config, make_slice. case_decide as Hn; [|done]. cbn [bind]. intros H.
  match type of H with context [for_each ?f (range n) ?z] =>
    destruct (for_each f (range n) z) as [c|] eqn:Hb; [|done] end. cbn [bind] in H.
  assert (blank_logs c) as Hc.
  { apply (for_each_inv _ (λ _ c, blank_all c)) in Hb; [by destruct Hb|..].
    - unfold blank_all, blank_logs. cbn [logs lastApplied saved set_net setunreliable].
      rewrite !length_replicate. split_and!; [done|by apply Forall_replicate..].
    - intros dn i c1 c2 [(Hl & Hs & Hz) Hsn] _ Hrun.
      destruct (set_index (logs c1) i ∅) as [ls|] eqn:Hset; [|done]. cbn [bind] in Hrun.
      apply set_index_Ok in Hset as [_ ->]. eapply start1_blank; [exact Hrun|].
      unfold blank_all, blank_logs. cbn [logs lastApplied saved set_logs]. rewrite length_insert.
      split_and!; try done. by apply Forall_insert. }
  revert H. apply (for_each_inv _ (λ _ c, blank_logs c)); [done|].
  intros dn i c1 c2 Hc1 _ Hs. destruct (connect_logs c1 i c2 Hs) as [El Ea].
  unfold blank_logs. by rewrite El, Ea.
Qed.

(** ** Runs *)

Section codec.
Hypothesis codec : ∀ y, decode (encode y) = Some y.

Lemma message_ok st i m st' :
  state_ok st → genuine st (EMessage i m) → run_event st (EMessage i m) = Ok st' →
  remembered (logs st.1) (logs st'.1) → state_ok st'.
Proof using codec.
  destruct st as [cfg pool]. intros Hok Hg Hrun Hr. cbn [run_event fst snd genuine] in *.
  destruct (applierSnap nil decode encode cfg i m) as [[cfg' o]|] eqn:Ha; [|done]. cbn [bind] in Hrun.
  injection Hrun as <-. unfold state_ok in *. cbn [fst snd] in *.
  destruct (RaftPeer.SnapshotValid m) eqn:Hsv.
  - unfold applierSnap in Ha. rewrite Hsv in Ha.
    destruct (ingestSnap _ _ _ _ _) as [[c [e|]]|] eqn:Hi; [done| |done]. cbn [bind] in Ha.
    injection Ha as <- <-. cbn [option_list]. rewrite app_nil_r.
    destruct (ingestSnap_Ok nil _ _ _ _ _ _ Hi) as (k & xlog & Hd & Hk & _ & _ & _ & El & Ea).
    pose proof (ro_pool _ _ _ Hok _ (Hg eq_refl)) as Ht.
    assert (k = RaftPeer.SnapshotIndex m) as ->.
    { destruct Ht as (xl & E & H1 & _). cbn [fst snd] in *. destruct Hk; [lia|done]. }
    rewrite El, Ea in *. apply runs_ok_ingest; [done| |done].
    exact (taken_carries _ (_, _) xlog codec Ht Hd).
  - destruct (RaftPeer.CommandValid m) eqn:Hcv.
    2: { unfold applierSnap in Ha. rewrite Hsv, Hcv in Ha. injection Ha as <- <-.
         cbn [option_list]. by rewrite app_nil_r. }
    destruct (applierSnap_Ok nil decode encode cfg i m cfg' o Hsv Hcv Ha)
      as (la & l0 & Hla & Hl0 & Hk & Hc & Ho & El & Ea & Eo).
    apply index_Ok in Hla as [_ Hla], Hl0 as [_ Hl0]. rewrite Hk in *.
    pose proof (runs_ok_command _ _ _ _ _ _ _ Hok Hl0 Hla Hc Ho) as Hok'. rewrite <-El, <-Ea in Hok'.
    destruct Hok' as [? ? ? Hz Hd Hp]. split; try done.
    intros x [Hx|Hx]%elem_of_app; [by apply Hp|].
    subst o. case_decide; [|by apply not_elem_of_nil in Hx].
    apply list_elem_of_singleton in Hx as ->. 
    assert (logs cfg' !! Z.to_nat i = Some (<[(la + 1)%Z := RaftPeer.Command m]> l0)) as Hl1.
    { rewrite El. apply list_lookup_insert_eq. by eapply lookup_lt_Some. }
    assert (lastApplied cfg' !! Z.to_nat i = Some (la + 1)%Z) as Hla1.
    { rewrite Ea. apply list_lookup_insert_eq. by eapply lookup_lt_Some. }
    destruct (Hd _ _ _ Hl1 Hla1) as [_ Hd']. destruct (ro_dense _ _ _ Hok _ _ _ Hl0 Hla) as [H0 _].
    apply (taken_snapshot _ (Z.to_nat i)); [done|done|lia|done].
Qed.

Lemma restart_ok st i rs snap names a st' :
  state_ok st → genuine st (ERestart i rs snap names a) →
  run_event st (ERestart i rs snap names a) = Ok st' →
  remembered (logs st.1) (logs st'.1) → state_ok st'.
Proof using codec.
  destruct st as [cfg pool]. intros Hok Hg Hrun Hr. cbn [run_event fst snd genuine] in *.
  destruct (set_index (saved cfg) i _) as [sv|] eqn:Hsv; [|done]. cbn [bind] in Hrun.
  destruct (start1 _ _ _ _ _) as [cfg'|] eqn:Hst; [|done]. cbn [bind] in Hrun.
  injection Hrun as <-. unfold state_ok in *. cbn [fst snd] in *.
  destruct (start1_logs _ _ _ _ _ Hst) as (p & Hp & _ & Hrest). cbn [saved set_saved logs lastApplied] in *.
  apply set_index_Ok in Hsv as [Hb ->]. rewrite index_insert, decide_True in Hp by done.
  injection Hp as <-. cbv zeta in Hrest. cbn [default snd] in Hrest.
  destruct Hrest as [[El Ea]|(Hlen & k & xlog & Hd & El & Ea)]; rewrite El, Ea in *;
    [by apply runs_ok_reset|].
  destruct snap as [[idx data]|]; [|by unfold len in Hlen; cbn in Hlen; lia]. cbn in Hd.
  pose proof (ro_pool _ _ _ Hok _ (Hg _ eq_refl)) as Ht.
  assert (k = idx) as ->.
  { destruct Ht as (xl & E & _). cbn [fst snd] in E. subst data. rewrite codec in Hd. congruence. }
  apply runs_ok_ingest; [by apply runs_ok_reset| |done].
  exact (taken_carries _ (_, _) xlog codec Ht Hd).
Qed.

Lemma runs_state_ok st st' : state_ok st → rtc event_step st st' → state_ok st'.
Proof using codec.
  intros Hok Hrun. induction Hrun as [st|st1 st2 st3 (ev & Hg & Hev & Hr) _ IH]; [done|].
  apply IH. destruct ev as [i m|i rs snap names a].
  - by eapply message_ok.
  - by eapply restart_ok.
Qed.
End codec.

(** C15. The appliers with snapshots are a sound check of agreement over whole runs.
Start from the state [make_config] builds, let the appliers of any servers read
any messages and let servers restart, in any order; suppose that the snapshots Raft
delivers or persists are ones it was given, and that no step removes a committed
command from the logs of all servers.  Then, if the process has not ended, no two
servers hold different commands at an index; every server holds all indices from
1 to its last applied one, and none without the one before; and every snapshot
taken decodes, at each index from 1 to its own, to the command that servers hold
there. *)
Theorem applierSnap_sound n unreliable names addr cfg st :
  (∀ y, decode (encode y) = Some y) → make_config decode n unreliable names addr = Ok cfg →
  rtc event_step (cfg, []) st →
  agree (logs st.1) ∧ no_gaps (logs st.1) ∧
  (∀ i li la k, logs st.1 !! i = Some li → lastApplied st.1 !! i = Some la → (1 ≤ k ≤ la)%Z →
    is_Some (li !! k)) ∧
  (∀ idx data, (idx, data) ∈ st.2 → ∃ xlog, decode data = Some (idx, xlog) ∧
    ∀ k v, (1 ≤ k ≤ idx)%Z → held (logs st.1) k v ↔ xlog !! Z.to_nat k = Some v).
Proof.
  intros codec Hmk Hrun.
  pose proof (runs_state_ok codec _ _ (blank_ok _ (make_config_blank _ _ _ _ _ Hmk)) Hrun) as Hok.
  split_and!; [apply Hok..| |].
  - intros i li la k Hi Hla Hk. by apply (ro_dense _ _ _ Hok i li la Hi Hla).
  - intros idx data Hx. destruct (ro_pool _ _ _ Hok _ Hx) as (xlog & E & _ & _ & _ & H).
    cbn [fst snd] in *. subst data. exists xlog. split; [apply codec|]. intros k v Hk. destruct (H k Hk) as (w & Hw & Hh).
    rewrite Hw. split; [|by intros [= ->]]. intros Hv. f_equal.
    by apply (held_agree _ k _ _ (ro_agree _ _ _ Hok)).
Qed.

(** ** Runs on given events *)

Definition genuineb (st : state) (ev : event) : bool :=
  match ev with
  | EMessage _ m =>
      negb (RaftPeer.SnapshotValid m) ||
      bool_decide ((RaftPeer.SnapshotIndex m, RaftPeer.Snapshot m) ∈ st.2)
  | ERestart _ _ (Some x) _ _ => bool_decide (x ∈ st.2)
  | ERestart _ _ None _ _ => true
  end.

Definition rememberedb (ls ls' : list (gmap Z C)) : bool :=
  forallb (λ l, forallb (λ kv, existsb (λ l', bool_decide (l' !! kv.1 = Some kv.2)) ls')
    (map_to_list l)) ls.

Fixpoint checked_run (st : state) (evs : list event) : option state :=
  match evs with
  | [] => Some st
  | ev :: evs =>
      match run_event st ev with
      | Ok st' =>
          if genuineb st ev && rememberedb (logs st.1) (logs st'.1) then checked_run st' evs else None
      | Crash _ => None
      end
  end.

Lemma rememberedb_sound ls ls' : rememberedb ls ls' = true → remembered ls ls'.
Proof.
  unfold rememberedb. rewrite forallb_forall. intros H k v (j & l & Hj & Hv).
  specialize (H l ltac:(by apply list_elem_of_In, list_elem_of_lookup; eauto)). rewrite forallb_forall in H.
  specialize (H (k, v) ltac:(by apply list_elem_of_In, elem_of_map_to_list)).
  apply existsb_exists in H as (l' & [j' Hj']%list_elem_of_In%list_elem_of_lookup & Hl').
  apply bool_decide_eq_true in Hl'. by exists j', l'.
Qed.

Lemma checked_run_steps st evs st' :
  checked_run st evs = Some st' → rtc event_step st st'.
Proof.
  revert st. induction evs as [|ev evs IH]; intros st; cbn [checked_run]; [by intros [= ->]|].
  destruct (run_event st ev) as [st1|] eqn:Hrun; [|done].
  destruct (genuineb st ev) eqn:Hg; [|done].
  destruct (rememberedb _ _) eqn:Hr; [|done]. cbn [andb]. intros H.
  apply rtc_l with st1; [|by apply IH]. exists ev. split_and!; [|done|by apply rememberedb_sound].
  destruct ev as [i m|i rs [x|] names a]; cbn [genuineb genuine] in *.
  - intros E. rewrite E in Hg. by apply bool_decide_eq_true in Hg.
  - intros y [= <-]. by apply bool_decide_eq_true in Hg.
  - done.
Qed.
End runs.

(** ** Two runs *)

Definition demo_cfg : config Z :=
  match make_config demo_decode_bits 2 false (λ i, if decide (i = 0)%Z then ["a"; "b"] else ["c"; "d"])
          (λ i, Z.to_nat i) with
  | Ok c => c
  | Crash _ => blank 2
  end.

Definition demo_commands (i : Z) (ks : list Z) : list event :=
  (λ k, EMessage i (demo_msg k (100 + k)%Z)) <$> ks.
Definition demo_first : list event := demo_commands 0 [1; 2; 3; 4; 5; 6; 7; 8; 9; 10]%Z.
Definition demo_run (st : config Z * list (Z * bytes)) (evs : list event) : config Z * list (Z * bytes) :=
  match for_each (run_event 0%Z demo_decode_bits demo_encode) evs st with Ok st => st | Crash _ => st end.

(** Server 0 commits ten entries and hands over a snapshot of nine, which server 1
reads; it commits the tenth too, and server 0 restarts from the snapshot. *)
Definition demo_snap9 : Z * bytes := default (0, [])%Z (head (demo_run (demo_cfg, []) demo_first).2).
Definition demo_read9 : event :=
  EMessage 1 (RaftPeer.mkApplyMsg false 0%Z 0 true demo_snap9.2 0 demo_snap9.1).
Definition demo_events : list event :=
  demo_first ++ demo_read9 :: demo_commands 1 [10]%Z ++ [ERestart 0 [] (Some demo_snap9) ["e"; "f"] 2].

Lemma applierSnap_sound_witness :
  let st := demo_run (demo_cfg, []) demo_events in
  agree (logs st.1) ∧ no_gaps (logs st.1) ∧
  (∀ i li la k, logs st.1 !! i = Some li → lastApplied st.1 !! i = Some la → (1 ≤ k ≤ la)%Z →
    is_Some (li !! k)) ∧
  (∀ idx data, (idx, data) ∈ st.2 → ∃ xlog, demo_decode_bits data = Some (idx, xlog) ∧
    ∀ k v, (1 ≤ k ≤ idx)%Z → held (logs st.1) k v ↔ xlog !! Z.to_nat k = Some v).
Proof.
  apply (applierSnap_sound 0%Z demo_decode_bits demo_encode 2 false
    (λ i, if decide (i = 0)%Z then ["a"; "b"] else ["c"; "d"]) (λ i, Z.to_nat i) demo_cfg).
  - exact demo_codec.
  - vm_compute. reflexivity.
  - apply (checked_run_steps 0%Z _ _ _ demo_events). vm_compute. reflexivity.
Defined.

(** What the hypothesis on forgetting excludes: server 0 has committed 110 at index
10 and restarts from the snapshot of nine entries; server 1 reads the same snapshot
and commits 999 at index 10; no applier objects. *)
Definition demo_forget : list event :=
  demo_first ++ [ERestart 0 [] (Some demo_snap9) ["e"; "f"] 2; demo_read9; EMessage 1 (demo_msg 10 999)].

Example applierSnap_forgets :
  ∃ st1 st2, for_each (run_event 0%Z demo_decode_bits demo_encode) demo_first (demo_cfg, []) = Ok st1 ∧
    for_each (run_event 0%Z demo_decode_bits demo_encode) demo_forget (demo_cfg, []) = Ok st2 ∧
    committed st1.1 10 0 = Some 110%Z ∧ committed st2.1 10 1 = Some 999%Z.
Proof.
  exists (demo_run (demo_cfg, []) demo_first), (demo_run (demo_cfg, []) demo_forget).
  split_and!; vm_compute; reflexivity.
Qed.

End RaftSnap.
